(* ===== verification/_CoqProject ===== *)
-Q . S2P
Prelude.v
Utf8.v
Tags.v
Forest.v
Sequence.v
SequenceTheory.v
Clock.v
Lattice.v
Tagged.v
Wire.v
SortedCodec.v
Frame.v
RGA.v
RGAOrder.v
RGATree.v
RGAStore.v
RGAPlan.v
RGAAcyclic.v
RGATheory.v
RGAText.v
RGAEdit.v
RGACompact.v
Counter.v
Codec.v
GSet.v
ORSet.v
ORSetCodec.v
Register.v
TagIndex.v
TagStore.v
LWWMap.v
LWWMapTheory.v
LWWMapCodec.v
MVRegister.v
MVNetwork.v
MVRegisterCodec.v
TombstoneGC.v
TombstoneGCTheory.v
TombstoneTargets.v
Sha256.v
Merkle.v
MerkleTheory.v
Batch.v
BatchTheory.v
Replica.v
ReplicaTheory.v
Snapshot.v
LWWSet.v
LWWSetTheory.v
LWWSetCodec.v
ORTree.v
ORTreeTheory.v
ORTreeReplication.v
ORTreeCompact.v
ORTreeWire.v
ORTreeCodec.v
ORTreeRecovery.v
Json.v
JsonTheory.v
Awareness.v
AwarenessTheory.v
AwarenessObserve.v
AwarenessGroup.v
