(* ===== verification/Prelude.v ===== *)
(** * Verification of the CRDT library

    The repository is a Go library of replicated data types: replicas change
    their own copy, exchange complete states or deltas in any order and any
    number of times, and must end up equal. This development translates the
    library's pure core into Rocq functions and proves what makes it correct.

    ** The program's parts

    - Tags (src/crdt.go) name every write: wall time, logical counter, replica.
      A hybrid logical clock (src/clock/hlc.go) issues them.
    - Frames (src/encoding) are the byte format of states and deltas: varints,
      tags, a checksummed envelope in two versions.
    - The data types: counters (src/counter), grow-only and observed-remove sets
      (src/set), registers (src/register), last-writer-wins maps and sets
      (src/lww), collaborative text (src/text) and trees (src/tree). Each has
      local operations, a join for states and deltas, and a canonical codec. The
      tagged types witness every remote tag in their clock, which is what makes
      local tags fresh.
    - Text is a replicated growable array: every rune is a node that names its
      parent, the document is the depth-first reading of the tree with younger
      siblings first, and deleted nodes stay as tombstones until compaction. The
      reading is maintained in a treap of enter and exit markers with a child
      index beside it; nodes whose parent is missing wait in a pending queue.
    - An OR-Tree keeps nodes with their parents and a set of removed nodes; it
      shows what is connected to the root by nodes that are known and not removed,
      and refuses deltas that would close a circle of parents.
    - Around the data types: snapshots that restart a replica (src/snapshot),
      tombstone collection by acknowledgements (src/tombstonegc), batches and
      coalescing of deltas (src/delta), Merkle roots for comparing replicas
      (src/merkle), and replication groups (src/replica), whose inbox restores
      each actor's order and whose session acknowledges stored checkpoints.
    - Awareness (src/awareness) is the presence of the actors of a group: JSON
      states under each actor's own clock, kept in a store that expires silent
      actors and tells its subscribers through mailboxes of one event.

    ** Which file models what

    - Prelude.v: machine integers, byte strings, the error monad [result], guard
      tactics, sorting, folds over maps. Utf8.v: Go's conversions between strings
      and runes.
    - Tags.v: [Tag] with [Valid] and [Compare], the registered frame types.
    - Clock.v: [HLC]; [clock_op] and [clock_run] are the interleavings of ticks,
      witnessed tags and restarts.
    - Lattice.v: the contract of src/crdt.go ([CRDT], [DeltaCapable]) as a join
      semilattice class, and delivery of messages in any order and multiplicity.
    - Tagged.v: maps whose entries are replaced by later tags, as a lattice.
    - Wire.v, SortedCodec.v, Frame.v: varints and tags; maps written in sorted
      order; frames of version 1 and 2, CRC-32C, conversions.
    - Codec.v, GSet.v, ORSet.v, ORSetCodec.v: src/set and src/internal/codecguard.
    - Counter.v: src/counter. Register.v, MVRegister.v, MVNetwork.v,
      MVRegisterCodec.v: src/register.
    - TagIndex.v, TagStore.v: the loops the map and the set of src/lww share, and
      the invariant of entries, index and clock that they keep. LWWMap.v,
      LWWMapTheory.v, LWWMapCodec.v: the map. LWWSet.v, LWWSetTheory.v,
      LWWSetCodec.v: the set, with its snapshots.
    - Sequence.v, SequenceTheory.v: the marker treap of src/text/sequence.go. The
      shared markers of the source are a tree, a list of next links and a map of
      pairs; the theory keeps the three in agreement.
    - RGA.v: src/text/rga.go, all operations. RGAOrder.v: the reference reading of
      a set of nodes. RGATree.v: treap and child index agree with it. RGAStore.v,
      RGAPlan.v, RGAAcyclic.v: the pending queue, the delta planner, the cycle
      check. RGATheory.v: the replica invariant [rga_wf] and applying deltas.
      RGAText.v: reading, convergence, the fast path. RGAEdit.v: insertions,
      deletions, replacements. RGACompact.v: tombstone compaction.
    - Forest.v: what text and tree share: the walk up the parents that finds a
      circle, and the queue that forgets branches from their leaves.
    - ORTree.v, ORTreeWire.v: src/tree/ortree.go and src/tree/wire.go, all
      operations. ORTreeTheory.v: the visible tree as a relation, the loops that
      compute it, the invariant [tree_wf]. ORTreeReplication.v: deltas, local edits,
      reading, convergence. ORTreeCompact.v: compaction, reachable trees.
      ORTreeCodec.v, ORTreeRecovery.v: the codec, snapshots, malformed parents.
    - TombstoneGC.v: src/tombstonegc over the class [TombstoneTarget];
      TombstoneGCTheory.v: the ledger it refines and its interleavings;
      TombstoneTargets.v: the OR-Set, the LWW map and the text as targets (the tree
      is one in ORTreeCompact.v).
    - Sha256.v: the standard library's SHA-256. Merkle.v, MerkleTheory.v:
      src/merkle.
    - Batch.v, BatchTheory.v: src/delta, with the critical sections of the
      coalescer as separate steps.
    - Replica.v, ReplicaTheory.v: src/replica.
    - Snapshot.v: src/snapshot and the operations of the data types that save and
      restore replicas.
    - Json.v, JsonTheory.v: what awareness uses of encoding/json, and that a
      marshalled object is decoded and marshalled back to itself. Awareness.v:
      src/awareness, all operations. AwarenessTheory.v: the lock and the encoding;
      AwarenessObserve.v: events, expiry and mailboxes; AwarenessGroup.v: groups of
      stores as a step relation.

    ** How state and effects are modelled

    A Go struct is a record, a Go map a [gmap], a set of keys a [gset]. A loop
    over a map is a fold over its entries; where the result could depend on the
    order, the definition takes the order as an argument, or a lemma shows that
    it does not. A method takes its receiver as [ptr] ([None] is [nil]) and
    returns the receiver it leaves with a [result]; the receiver's mutex makes it
    one atomic transition. An argument that may alias the receiver is a [peer].
    Physical time is an argument of the operations that read it. Integers are
    [Z] with the machine's bounds written out.

    ** What the theorems show

    - Convergence: replicas that received the same messages, whatever their
      order and repetition, agree ([GCounter_convergence], [ORSet_convergence],
      [LWWMap_convergence], [LWWSet_convergence], [RGA_convergence],
      [ORTree_convergence], ...).
    - Meaning: a multi-value register shows exactly the maximal writes it heard
      of ([MVRegister_shows_maximal], a refinement over a step relation of the
      network); adds win over concurrent removes ([ORSet_add_wins]); counters
      count exactly or report overflow; a text replica reads as the reference
      document whatever its internal shape ([RGA_reads_document]), its edits are
      splices of that document ([RGA_insert_spec], [RGA_delete_spec],
      [RGA_replace_spec]), and its optimised path for long runs is the generic one
      ([RGA_fast_path]). A tree shows the preorder of its visible nodes
      ([ORTree_Nodes_spec]), and its edits change exactly the named node
      ([ORTree_Add_spec], [ORTree_Remove_spec]); [ORTree_invariant] covers every
      tree that operations can build, and [ORTree_Add_malformed_parent] the parents
      it has to exclude.
    - Freshness: tags strictly increase and exceed every tag seen
      ([clock_monotone], [clock_causality]), in every reachable network state
      ([ORSet_network_safe]).
    - Compaction forgets exactly what was asked for and changes no reading; the
      coordinator collects only what every member acknowledged, in every
      interleaving ([Coordinator_collects_acknowledged]).
    - Delivery: an inbox applies each actor's changes once and in order and holds
      nothing deliverable back ([Inbox_exactly_once], [Inbox_complete]); a
      coalescer loses no delta to a concurrent call ([Coalescer_interleavings]).
    - Presence: the stores of a group agree with the owner of each actor
      ([Group_presence]), subscribers hear of every change and mailboxes account
      for every event ([Store_publishes], [Mailbox_delivery]), expiry keeps what is
      known ([Store_Expire_spec]), and a refused update keeps the store's lock
      ([Store_lock_leak]).
    - Recovery: a restored replica has its state and repeats no tag
      ([ORSet_recovery], [LWWSet_recovery], [ORTree_recovery]); snapshots are
      well-formed by construction
      ([Snapshot_well_formed]); acknowledgements name stored checkpoints
      ([Session_acknowledges_stored]).
    - Commitments: Merkle roots and checkpoint IDs determine what they were
      computed from, up to a hash collision among the messages actually hashed
      ([Merkle_root_commits], [Checkpoint_id_commits]).
    - Codecs: each decoder accepts a v1 frame exactly when the encoder produces
      it for the decoded state, so encodings are lossless and unique; v2 frames
      round-trip; a substituted byte is detected.

    ** Fuel

    The loops of the decoders run on fuel [S (length data)]: each iteration
    consumes at least a byte, and the codec theorems state what is decoded, not
    only what a returned value satisfies. [putUvarint] has fuel 10, the number of
    7-bit groups of a 64-bit integer. The loops of RGA.v that reach nodes from
    their parents ([resolve_loop], [resolved_loop], [ready_loop], [build_loop]),
    those of ORTree.v that list and count visible nodes, and [eligible_loop] of
    Forest.v have one unit per node that can enter them, the walks up the parents
    one more than the known nodes, and the binary search one per sibling; the
    theorems about the operations hold for these bounds, so none is ever short
    ([acyclicAgainst_terminates] states it for the cycle check). The loop of
    [Inbox_Receive] has one unit per pending change of the actor, and
    [Inbox_exactly_once] includes that it returns; [root_loop] has one per leaf,
    and every level of a Merkle tree is shorter than the one below. The JSON
    decoder has two units per byte and one more; its result does not change with
    more fuel.

    ** Parameters

    DEFLATE (the standard library's compress/flate) is the class [Flate] with the
    law [FlateOk]: inflating what was deflated gives it back. Application codecs
    are records of functions with the laws their documentation asks for. The
    callbacks of the replication layer (applying a delta, validating a state,
    storing a checkpoint, joining two deltas) are function arguments.

    Counters that only tell versions apart (the generations of a Merkle tree and
    of a coalescer, the version of a tree) wrap at 2^64; the theorems about
    interleavings and cached readings are about fewer steps than that.

    ** Not modelled

    The text wire formats, lists, attachments, rich text and documents, membership views,
    history, persistence, transports and tools are not modelled. Lists and rich
    text repeat the structure of the text with their own indexes and are the next
    candidates; membership rests on signatures of a library outside the
    repository. Files that only move bytes to databases,
    sockets or the browser have no behaviour the kernel could check beyond the
    library they call. *)

From Stdlib Require Export ZArith Lia.
From Stdlib Require Import Strings.Byte.
From stdpp Require Export prelude gmap sorting strings.

#[global] Open Scope Z_scope.

(** ** Machine integers

    Go's [uint64] and [int] (64-bit) values are integers of [Z]; wrap-around
    is written out with [u64] where the source can overflow. *)

Definition maxUint64 : Z := 2 ^ 64 - 1.
Definition maxInt : Z := 2 ^ 63 - 1.
Definition u64 (z : Z) : Z := z `mod` 2 ^ 64.
Definition is_u64 (z : Z) : Prop := 0 <= z < 2 ^ 64.

#[export] Instance is_u64_dec z : Decision (is_u64 z).
Proof. unfold is_u64. apply _. Defined.

Lemma u64_small z : is_u64 z → u64 z = z.
Proof. apply Z.mod_small. Qed.

Lemma u64_is_u64 z : is_u64 (u64 z).
Proof. apply Z.mod_pos_bound. lia. Qed.

(** ** Bytes and strings

    A Go [string] and a Go [[]byte] are both sequences of bytes. *)

Abbreviation byte := Init.Byte.byte.
Abbreviation bytes := (list Init.Byte.byte).

(** [len(s)] *)
Definition len {A} (s : list A) : Z := Z.of_nat (length s).

(** [int(b)] and [byte(z)], the second truncating to eight bits. *)
Definition byteZ (b : byte) : Z := Z.of_N (Byte.to_N b).
Definition Zbyte (z : Z) : byte :=
  match Byte.of_N (Z.to_N (z `mod` 256)) with
  | Some b => b
  | None => x00
  end.

(** String literals of the source. *)
Definition str (s : string) : bytes := String.list_byte_of_string s.
Arguments str s%_string.

#[export] Instance byte_eq_dec : EqDecision byte := Byte.byte_eq_dec.
#[export] Program Instance byte_countable : Countable byte :=
  inj_countable Byte.to_N Byte.of_N _.
Next Obligation. apply Byte.of_to_N. Qed.

Lemma byteZ_range b : 0 <= byteZ b < 256.
Proof.
  unfold byteZ. pose proof (Byte.to_N_bounded b). lia.
Qed.

Lemma byteZ_inj b1 b2 : byteZ b1 = byteZ b2 → b1 = b2.
Proof.
  unfold byteZ. intros H%N2Z.inj.
  pose proof (Byte.of_to_N b1) as H1. pose proof (Byte.of_to_N b2) as H2.
  congruence.
Qed.

Lemma byteZ_Zbyte z : byteZ (Zbyte z) = z `mod` 256.
Proof.
  unfold byteZ, Zbyte. pose proof (Z.mod_pos_bound z 256 eq_refl) as Hz.
  destruct (Byte.of_N _) as [b|] eqn:E.
  - apply Byte.to_of_N in E. rewrite E. lia.
  - apply Byte.of_N_None_iff in E. lia.
Qed.

Lemma Zbyte_byteZ b : Zbyte (byteZ b) = b.
Proof.
  apply byteZ_inj. rewrite byteZ_Zbyte. apply Z.mod_small, byteZ_range.
Qed.

Lemma len_nonneg {A} (s : list A) : 0 <= len s.
Proof. unfold len. lia. Qed.

Lemma len_nil {A} : len (@nil A) = 0.
Proof. done. Qed.

Lemma len_cons {A} (x : A) s : len (x :: s) = 1 + len s.
Proof. unfold len. simpl. lia. Qed.

Lemma len_app {A} (s t : list A) : len (s ++ t) = len s + len t.
Proof. unfold len. rewrite length_app. lia. Qed.

(** The parts of a list, where [injection] would unfold them. *)
Lemma cons_eq {A} (x y : A) l k : x :: l = y :: k → x = y ∧ l = k.
Proof. by intros [= -> ->]. Qed.

(** Ranges of Go values; the codec lemmas extend the database. *)
Create HintDb go.
#[export] Hint Resolve u64_is_u64 len_nonneg : go.

(** [s < t] on strings and [bytes.Compare]: bytewise lexicographic order,
    reported as -1, 0 or 1. *)
Fixpoint bytes_compare (s t : bytes) : Z :=
  match s, t with
  | [], [] => 0
  | [], _ :: _ => -1
  | _ :: _, [] => 1
  | x :: s', y :: t' =>
      if byteZ x <? byteZ y then -1
      else if byteZ y <? byteZ x then 1
      else bytes_compare s' t'
  end.

(** [unicode.IsSpace] on the UTF-8 encoding of one code point: the ASCII
    blanks, then U+0085 and U+00A0, then the three-byte blanks U+1680,
    U+2000..U+200A, U+2028, U+2029, U+202F, U+205F and U+3000. *)
Definition space1 (b : byte) : bool :=
  let z := byteZ b in ((0x09 <=? z) && (z <=? 0x0D)) || (z =? 0x20).
Definition space2 (b1 b2 : byte) : bool :=
  (byteZ b1 =? 0xC2) && ((byteZ b2 =? 0x85) || (byteZ b2 =? 0xA0)).
Definition space3 (b1 b2 b3 : byte) : bool :=
  let '(x, y, z) := (byteZ b1, byteZ b2, byteZ b3) in
  ((x =? 0xE1) && (y =? 0x9A) && (z =? 0x80)) ||
  ((x =? 0xE2) && (y =? 0x80) &&
     (((0x80 <=? z) && (z <=? 0x8A)) || (z =? 0xA8) || (z =? 0xA9) || (z =? 0xAF))) ||
  ((x =? 0xE2) && (y =? 0x81) && (z =? 0x9F)) ||
  ((x =? 0xE3) && (y =? 0x80) && (z =? 0x80)).

(** [strings.TrimSpace(s) == ""]: every code point of [s] is white space. A
    byte that does not start a blank (an invalid byte decodes to U+FFFD, which
    is not one) stops the trimming. *)
Fixpoint blank (s : bytes) : bool :=
  match s with
  | [] => true
  | b1 :: s1 =>
      if space1 b1 then blank s1
      else match s1 with
           | [] => false
           | b2 :: s2 =>
               if space2 b1 b2 then blank s2
               else match s2 with
                    | [] => false
                    | b3 :: s3 => if space3 b1 b2 b3 then blank s3 else false
                    end
           end
  end.

Lemma nonblank_len s : blank s = false → 1 <= len s.
Proof. destruct s; [done|]. intros _. rewrite len_cons. pose proof (len_nonneg s). lia. Qed.

(** ** Results and errors

    A fallible Go function returns a value or one of the sentinel errors of its
    package; [ErrWrap] is [fmt.Errorf] with a [%w] verb. *)

(** The sentinels of src/text, src/tombstonegc, src/replica, src/delta, src/tree,
    src/awareness, src/list, src/attachment and src/membership. *)
Inductive text_error :=
| NilText | TextReplicaID | InvalidText | TextRange | TextDelta | TextIncomplete | TextConflict
| TextCompaction | TextLimit | UndoAnchorGone.
Inductive gc_error :=
| InvalidMembership | InvalidGroup | GroupMismatch | UnknownMember | StaleMembership | InvalidTag | NilTarget
| MembershipGroupMismatch | MembershipRollback | InvalidSimplePolicy | NilSimpleCollector.
Inductive replica_error :=
| InvalidManifest | ManifestMismatch | ProtocolMismatch | InvalidDot | FrontierGap | InvalidCheckpoint
| NilValidator | NilStore | NotInstalled | CheckpointChanged | InvalidChange | DotConflict | PendingLimit | NilApply.
Inductive delta_error := DeltaLimit | DeltaInvalid | DeltaTypeMismatch | DeltaMergeRetry.
Inductive tree_error :=
| TreeReplicaID | NilTree | UnknownParent | UnknownNode | TreeDelta | TreeIncomplete | NodeConflict | TreeLimit
| TreeCompaction.
Inductive awareness_error :=
| AwInvalidOptions | AwInvalidActor | AwInvalidState | AwInvalidUpdate | AwResourceLimit | AwStateConflict
| AwClockExhausted | AwOfflineActor | AwNilCallback | AwSubscriptionLimit | AwNilContext | AwInvalidExpiryInterval.
Inductive list_error :=
| NilList | ListReplica | ListCodec | ListRange | ListDelta | ListConflict | ListIncomplete | ListLimit | ListCompaction.
Inductive attachment_error :=
| NilRegister | InvalidReference | InvalidKey | AttachmentLimit | AttachmentDelta | ContentMismatch | ReadContent.
Inductive membership_error :=
| InvalidReceipt | ReceiptReplay | InvalidView | InvalidSignature | ViewRollback | ViewFork | ViewGroupMismatch
| MissingView.

#[export] Instance text_error_eq_dec : EqDecision text_error.
Proof. solve_decision. Defined.
#[export] Instance gc_error_eq_dec : EqDecision gc_error.
Proof. solve_decision. Defined.
#[export] Instance replica_error_eq_dec : EqDecision replica_error.
Proof. solve_decision. Defined.
#[export] Instance delta_error_eq_dec : EqDecision delta_error.
Proof. solve_decision. Defined.
#[export] Instance tree_error_eq_dec : EqDecision tree_error.
Proof. solve_decision. Defined.
#[export] Instance awareness_error_eq_dec : EqDecision awareness_error.
Proof. solve_decision. Defined.
#[export] Instance list_error_eq_dec : EqDecision list_error.
Proof. solve_decision. Defined.
#[export] Instance attachment_error_eq_dec : EqDecision attachment_error.
Proof. solve_decision. Defined.
#[export] Instance membership_error_eq_dec : EqDecision membership_error.
Proof. solve_decision. Defined.

(** Every error; [ErrPanic] is a Go panic. *)
Inductive error : Type :=
| ErrClockInvalidReplicaID | ErrInvalidRemoteTag | ErrClockExhausted
| ErrInvalidFrame | ErrFrameLimit | ErrUnexpectedEOF
| ErrCounterInvalidReplicaID | ErrNilCounter | ErrNilPNCounter | ErrCounterOverflow
| ErrCodecPanic | ErrSetInvalidCodec | ErrSetInvalidReplicaID | ErrNilORSet | ErrSetCodecMismatch
| ErrSetInvalidDelta | ErrSetInvalidFrontier | ErrSetInvalidSnapshot
| ErrNilGSet | ErrInvalidGSet | ErrInvalidGSetSnap
| ErrRegisterInvalidReplicaID | ErrNilLWW | ErrNilMax | ErrRegisterTagConflict
| ErrNilMVRegister | ErrInvalidMVRegister | ErrMVRegisterOverflow | ErrInvalidMVSnapshot
| ErrSnapshotInvalid | ErrSnapshotLimit
| ErrLWWInvalidReplicaID | ErrNilMap | ErrLWWInvalidKey | ErrLWWInvalidDelta | ErrLWWInvalidSnapshot
| ErrLWWTagConflict | ErrLWWResourceLimit | ErrUnsafeCompaction
| ErrLWWInvalidCodec | ErrNilSet | ErrLWWCodecMismatch | ErrLWWInvalidSetDelta | ErrLWWInvalidSetSnap
| ErrText (e : text_error) | ErrGC (e : gc_error) | ErrReplica (e : replica_error)
| ErrDelta (e : delta_error) | ErrTree (e : tree_error) | ErrMembership (e : membership_error) | ErrAwareness (e : awareness_error)
| ErrList (e : list_error) | ErrAttachment (e : attachment_error)
| ErrMerkleInvalidState | ErrPanic
| ErrCodec (n : Z)
| ErrWrap (sentinel cause : error).

#[export] Instance error_eq_dec : EqDecision error.
Proof. solve_decision. Defined.

Inductive result (A : Type) : Type :=
| Ok (a : A)
| Err (e : error).
Arguments Ok {A} _.
Arguments Err {A} _.

#[export] Instance result_ret : MRet result := @Ok.
#[export] Instance result_bind : MBind result := λ A B f r,
  match r with Ok a => f a | Err e => Err e end.
#[export] Instance result_fmap : FMap result := λ A B f r,
  match r with Ok a => Ok (f a) | Err e => Err e end.

#[export] Instance result_eq_dec `{EqDecision A} : EqDecision (result A).
Proof. solve_decision. Defined.

Definition is_ok {A} (r : result A) : bool :=
  match r with Ok _ => true | Err _ => false end.

Lemma bind_Ok {A B} (r : result A) (f : A → result B) b :
  (r ≫= f) = Ok b ↔ ∃ a, r = Ok a ∧ f a = Ok b.
Proof. destruct r as [a|e]; simpl; naive_solver. Qed.

(** ** Guards

    [breflect] turns the boolean guards of the code among the hypotheses into
    propositions; [guard_false] and [guard_true] decide the first guard of the
    goal, [guards] splits every guard of the goal. *)

Ltac breflect := repeat match goal with
  | H : _ && _ = true |- _ => apply andb_true_iff in H; destruct H
  | H : _ || _ = false |- _ => apply orb_false_iff in H; destruct H
  | H : _ || _ = true |- _ => apply orb_true_iff in H
  | H : negb _ = false |- _ => apply negb_false_iff in H
  | H : negb _ = true |- _ => apply negb_true_iff in H
  | H : (_ <? _) = true |- _ => apply Z.ltb_lt in H
  | H : (_ <? _) = false |- _ => apply Z.ltb_ge in H
  | H : (_ <=? _) = true |- _ => apply Z.leb_le in H
  | H : (_ <=? _) = false |- _ => apply Z.leb_gt in H
  | H : (_ =? _) = true |- _ => apply Z.eqb_eq in H
  | H : (_ =? _) = false |- _ => apply Z.eqb_neq in H
  | H : bool_decide _ = true |- _ => apply bool_decide_eq_true_1 in H
  | H : bool_decide _ = false |- _ => apply bool_decide_eq_false_1 in H
  end.

Ltac solve_guard := lazymatch goal with
  | |- _ || _ = false => apply orb_false_iff; split; solve_guard
  | |- _ && _ = true => apply andb_true_iff; split; solve_guard
  | |- _ || _ = true => apply orb_true_iff; solve [left; solve_guard | right; solve_guard]
  | |- _ && _ = false => apply andb_false_iff; solve [left; solve_guard | right; solve_guard]
  | |- negb _ = false => apply negb_false_iff; solve_guard
  | |- negb _ = true => apply negb_true_iff; solve_guard
  | |- (?x =? ?x) = true => apply Z.eqb_refl
  | |- (_ <? _) = true => apply Z.ltb_lt; lia
  | |- (_ <? _) = false => apply Z.ltb_ge; lia
  | |- (_ <=? _) = true => apply Z.leb_le; lia
  | |- (_ <=? _) = false => apply Z.leb_gt; lia
  | |- (_ =? _) = true => apply Z.eqb_eq; lia
  | |- (_ =? _) = false => apply Z.eqb_neq; lia
  | |- bool_decide _ = true => apply bool_decide_eq_true_2; done
  | |- bool_decide _ = false => apply bool_decide_eq_false_2; done
  | |- _ => first [assumption | reflexivity]
  end.

Tactic Notation "guard_false" := match goal with
  | |- context [if ?b then _ else _] =>
      let E := fresh in assert (b = false) as E by solve_guard; rewrite E; clear E
  end.
Tactic Notation "guard_true" := match goal with
  | |- context [if ?b then _ else _] =>
      let E := fresh in assert (b = true) as E by solve_guard; rewrite E; clear E
  end.

Ltac guard_step := match goal with
  | |- context [if ?b then _ else _] => let E := fresh "G" in destruct b eqn:E; try done
  end.
Ltac guards := repeat guard_step; breflect.

(** A Go pointer: [None] is [nil]. *)
Abbreviation ptr := option.

(** The argument of a method that takes another object of the receiver's type:
    [nil], the receiver itself, or a distinct object. *)
Inductive peer (A : Type) : Type :=
| PNil
| PSelf
| PObj (a : A).
Arguments PNil {A}.
Arguments PSelf {A}.
Arguments PObj {A} _.

(** The receiver and the value a method leaves, with defaults. *)
Definition returned_state {A B} (d : A) (r : ptr A * result B) : A := default d r.1.
Definition returned_value {A B} (d : B) (r : ptr A * result B) : B :=
  match r.2 with Ok b => b | Err _ => d end.

(** [m[k]] on a map of integers reads zero for an absent key. *)
Definition lookupZ {K} `{Countable K} (m : gmap K Z) (k : K) : Z :=
  default 0 (m !! k).

Lemma lookupZ_insert {K} `{Countable K} (m : gmap K Z) k v k' :
  lookupZ (<[k := v]> m) k' = if decide (k = k') then v else lookupZ m k'.
Proof. unfold lookupZ. rewrite lookup_insert. by case_decide. Qed.

Lemma lookupZ_singleton {K} `{Countable K} (k : K) v k' :
  lookupZ ({[k := v]} : gmap K Z) k' = if decide (k = k') then v else 0.
Proof. unfold lookupZ. rewrite lookup_singleton. by case_decide. Qed.

Lemma foldl_pointwise {A B} (f g : A → B → A) a l :
  (∀ a b, f a b = g a b) → foldl f a l = foldl g a l.
Proof. intros Hfg. revert a. induction l as [|b l IH]; intros a; simpl; [done|]. by rewrite Hfg, IH. Qed.

(** The loops that copy the entries of one map into another where a condition on
    the key, the present value and the new value holds. *)
Section upsert.
Context {K V : Type} `{Countable K} (replace : K → option V → V → bool).

Definition upsert (m : gmap K V) (e : K * V) : gmap K V :=
  if replace e.1 (m !! e.1) e.2 then <[e.1 := e.2]> m else m.

(** The result does not depend on the order in which the entries are visited. *)
Lemma upsert_lookup m l k :
  NoDup l.*1 →
  foldl upsert m l !! k =
  match (list_to_map l : gmap K V) !! k with
  | Some v => if replace k (m !! k) v then Some v else m !! k
  | None => m !! k
  end.
Proof.
  revert m. induction l as [|[k0 v0] l IH]; intros m Hnd; simpl in *; [by rewrite lookup_empty|].
  apply NoDup_cons in Hnd as [Hk0 Hnd]. rewrite IH by done. unfold upsert. simpl.
  assert ((list_to_map l : gmap K V) !! k0 = None) as Hnone by (by apply not_elem_of_list_to_map_1).
  rewrite lookup_insert. destruct (decide (k0 = k)) as [->|Hne].
  - rewrite Hnone. destruct (replace k (m !! k) v0); [by rewrite lookup_insert_eq|done].
  - destruct (replace k0 (m !! k0) v0); [|done]. by rewrite lookup_insert_ne.
Qed.

Lemma upsert_map_lookup m s l k :
  l ≡ₚ map_to_list s →
  foldl upsert m l !! k =
  match s !! k with
  | Some v => if replace k (m !! k) v then Some v else m !! k
  | None => m !! k
  end.
Proof.
  intros Hl. assert (NoDup l.*1) as Hnd by (rewrite Hl; apply NoDup_fst_map_to_list).
  rewrite upsert_lookup by done. by rewrite (list_to_map_proper l (map_to_list s)), list_to_map_to_list.
Qed.
End upsert.

(** ** Three-way comparators

    The interface between the orders of the code (bytes, tags, dots) and the
    sorting of canonical encodings. *)

Class Comparator {A} (cmp : A → A → Z) : Prop := {
  cmp_range x y : -1 <= cmp x y <= 1;
  cmp_eq x y : cmp x y = 0 ↔ x = y;
  cmp_anti x y : cmp y x = - cmp x y;
  cmp_trans x y z : cmp x y < 0 → cmp y z < 0 → cmp x z < 0
}.

Arguments cmp_range {A} cmp {_} x y.
Arguments cmp_eq {A} cmp {_} x y.
Arguments cmp_anti {A} cmp {_} x y.
Arguments cmp_trans {A} cmp {_} x y z.

Definition cmp_le {A} (cmp : A → A → Z) (x y : A) : Prop := cmp x y <= 0.

#[export] Instance cmp_le_dec {A} (cmp : A → A → Z) x y : Decision (cmp_le cmp x y).
Proof. unfold cmp_le. apply _. Defined.

(** [sort.Slice] / [slices.SortFunc] with comparator [cmp]. *)
Definition sort_by {A} (cmp : A → A → Z) : list A → list A :=
  merge_sort (cmp_le cmp).

(** Strictly increasing lists, the canonical order of every encoding. *)
Definition increasing {A} (cmp : A → A → Z) : list A → Prop :=
  StronglySorted (λ x y, cmp x y < 0).

Lemma StronglySorted_mono {A} (R S : A → A → Prop) l :
  (∀ x y, R x y → S x y) → StronglySorted R l → StronglySorted S l.
Proof.
  intros HRS. induction 1 as [|x l Hl IH Hx]; constructor; [done|].
  eapply Forall_impl; [exact Hx|]. auto.
Qed.

Section comparator.
Context {A : Type} (cmp : A → A → Z) `{!Comparator cmp}.

Lemma cmp_refl x : cmp x x = 0.
Proof. by apply (cmp_eq cmp). Qed.

Lemma cmp_gt_lt x y : 0 < cmp x y ↔ cmp y x < 0.
Proof. rewrite (cmp_anti cmp x y). lia. Qed.

Lemma cmp_le_trans x y z : cmp x y <= 0 → cmp y z <= 0 → cmp x z <= 0.
Proof.
  intros Hxy Hyz.
  destruct (decide (cmp x y = 0)) as [->%(cmp_eq cmp)|?]; [done|].
  destruct (decide (cmp y z = 0)) as [<-%(cmp_eq cmp)|?]; [done|].
  assert (cmp x z < 0) by (apply (cmp_trans cmp x y z); lia). lia.
Qed.

Lemma cmp_lt_le_trans x y z : cmp x y < 0 → cmp y z <= 0 → cmp x z < 0.
Proof.
  intros Hxy Hyz.
  destruct (decide (cmp y z = 0)) as [<-%(cmp_eq cmp)|?]; [done|].
  apply (cmp_trans cmp x y z); lia.
Qed.

Lemma cmp_le_lt_trans x y z : cmp x y <= 0 → cmp y z < 0 → cmp x z < 0.
Proof.
  intros Hxy Hyz.
  destruct (decide (cmp x y = 0)) as [->%(cmp_eq cmp)|?]; [done|].
  apply (cmp_trans cmp x y z); lia.
Qed.

Lemma cmp_le_antisym x y : cmp x y <= 0 → cmp y x <= 0 → x = y.
Proof. rewrite (cmp_anti cmp x y). intros ??. apply (cmp_eq cmp). lia. Qed.

#[local] Instance cmp_le_trans' : Transitive (cmp_le cmp).
Proof. intros x y z. apply cmp_le_trans. Qed.
#[local] Instance cmp_le_anti' : AntiSymm (=) (cmp_le cmp).
Proof. intros x y. apply cmp_le_antisym. Qed.
#[local] Instance cmp_le_total' : Total (cmp_le cmp).
Proof. intros x y. pose proof (cmp_anti cmp x y). unfold cmp_le. lia. Qed.

Lemma sort_by_perm l : sort_by cmp l ≡ₚ l.
Proof. apply merge_sort_Permutation. Qed.

Lemma sort_by_sorted l : StronglySorted (cmp_le cmp) (sort_by cmp l).
Proof. apply (StronglySorted_merge_sort _ l). Qed.

Lemma sort_by_unique l1 l2 : l1 ≡ₚ l2 → sort_by cmp l1 = sort_by cmp l2.
Proof.
  intros Hp. apply (StronglySorted_unique (cmp_le cmp)); [apply sort_by_sorted..|].
  by rewrite !sort_by_perm.
Qed.

Lemma increasing_weaken l : increasing cmp l → StronglySorted (cmp_le cmp) l.
Proof. apply StronglySorted_mono. unfold cmp_le. lia. Qed.

Lemma increasing_sort_by l l' : increasing cmp l → l ≡ₚ l' → sort_by cmp l' = l.
Proof.
  intros Hl Hp. apply (StronglySorted_unique (cmp_le cmp)).
  - apply sort_by_sorted.
  - by apply increasing_weaken.
  - by rewrite sort_by_perm.
Qed.

(** Sorted without duplicates is strictly sorted. *)
Lemma sorted_increasing l : StronglySorted (cmp_le cmp) l → NoDup l → increasing cmp l.
Proof.
  induction 1 as [|x xs Hs IH Hx]; intros Hnd; constructor.
  - apply IH. by apply NoDup_cons in Hnd as [_ ?].
  - apply NoDup_cons in Hnd as [Hnx _].
    rewrite Forall_forall in Hx |- *. intros y Hy. specialize (Hx y Hy). unfold cmp_le in *.
    assert (cmp x y ≠ 0); [|lia]. intros ->%(cmp_eq cmp). done.
Qed.

Lemma sort_by_increasing l : NoDup l → increasing cmp (sort_by cmp l).
Proof. intros Hnd. apply sorted_increasing; [apply sort_by_sorted|]. by rewrite sort_by_perm. Qed.

Lemma increasing_NoDup l : increasing cmp l → NoDup l.
Proof.
  induction 1 as [|x l Hl IH Hx]; constructor; [|done].
  intros Hin. rewrite Forall_forall in Hx. specialize (Hx x Hin). simpl in Hx.
  rewrite cmp_refl in Hx. lia.
Qed.

Lemma increasing_snoc_iff l x :
  increasing cmp (l ++ [x]) ↔ increasing cmp l ∧ ∀ y, last l = Some y → cmp y x < 0.
Proof.
  unfold increasing. induction l as [|z l IH]; simpl.
  - split; [intros _; split; [constructor|done]|]. intros _. repeat constructor.
  - split.
    + intros [Hl Hz]%StronglySorted_inv. apply IH in Hl as [Hl Hlast].
      apply Forall_app in Hz as [Hz Hzx]. split; [by constructor|].
      destruct l as [|w l]; [|exact Hlast]. intros y [= <-]. by apply Forall_inv in Hzx.
    + intros [[Hl Hz]%StronglySorted_inv Hlast]. constructor.
      * apply IH. split; [done|]. intros y Hy. apply Hlast. by destruct l.
      * apply Forall_app. split; [done|]. repeat constructor.
        destruct (last l) as [y|] eqn:Ey.
        -- apply (cmp_trans cmp z y x); [|apply Hlast; by destruct l].
           rewrite Forall_forall in Hz. apply Hz. by apply last_Some_elem_of.
        -- apply last_None in Ey as ->. by apply Hlast.
Qed.

(** A key above the last one is new. *)
Lemma increasing_fresh l x :
  increasing cmp l → (∀ y, last l = Some y → cmp y x < 0) → x ∉ l.
Proof.
  intros Hl Hlast. assert (increasing cmp (l ++ [x])) as Hx by (by apply increasing_snoc_iff).
  apply increasing_NoDup, NoDup_app in Hx as (_ & Hd & _). intros Hin. apply (Hd x Hin). by left.
Qed.

Lemma increasing_snoc l x y :
  increasing cmp (l ++ [x]) → cmp x y < 0 → increasing cmp ((l ++ [x]) ++ [y]).
Proof.
  unfold increasing. intros Hl Hxy. induction l as [|z l IH]; simpl in *.
  - repeat constructor. done.
  - apply StronglySorted_inv in Hl as [Hl Hz]. constructor; [auto|].
    apply Forall_app. split; [done|]. repeat constructor.
    apply Forall_app in Hz as [_ Hz]. apply Forall_inv in Hz.
    by apply (cmp_trans cmp z x y).
Qed.
End comparator.

(** The order check of the decoding loops, [i > 0 && previous >= key]. *)
Lemma order_guard {A} (cmp : A → A → Z) (d : A) (ks : list A) (k : A) :
  (0 <? len ks) && (0 <=? cmp (default d (last ks)) k) = false ↔
  ∀ k', last ks = Some k' → cmp k' k < 0.
Proof.
  destruct (last ks) as [k'|] eqn:E; simpl.
  - assert ((0 <? len ks) = true) as ->.
    { apply Z.ltb_lt. destruct ks; [done|]. rewrite len_cons. pose proof (len_nonneg ks). lia. }
    simpl. rewrite Z.leb_gt. split; [by intros ? ? [= <-]|]. intros H. by apply H.
  - by apply last_None in E as ->.
Qed.

(** Sorting by a key. *)
Lemma sort_by_key_sorted {A K} (cmp : K → K → Z) `{!Comparator cmp} (key : A → K) (l : list A) :
  StronglySorted (cmp_le cmp) (key <$> sort_by (λ x y, cmp (key x) (key y)) l).
Proof.
  set (le := cmp_le (λ x y, cmp (key x) (key y))).
  assert (Total le). { intros x y. unfold le, cmp_le. pose proof (cmp_anti cmp (key x) (key y)). lia. }
  assert (Transitive le). { intros x y z. unfold le, cmp_le. apply (cmp_le_trans cmp). }
  pose proof (StronglySorted_merge_sort le l) as Hs.
  change (merge_sort le l) with (sort_by (λ x y, cmp (key x) (key y)) l) in Hs.
  induction Hs as [|x xs Hs IH Hx]; simpl; constructor; [done|]. by apply Forall_fmap.
Qed.

Lemma forallb_false {A} (f : A → bool) l : forallb f l = false → ∃ x, x ∈ l ∧ f x = false.
Proof.
  induction l as [|x l IH]; [done|]. simpl. destruct (f x) eqn:Hx; [|intros _; exists x; split; [by left|done]].
  intros (y & ? & ?)%IH. exists y. split; [by right|done].
Qed.

Lemma forallb_elem {A} (f : A → bool) l x : forallb f l = true → x ∈ l → f x = true.
Proof. rewrite forallb_forall. intros H Hx. apply H. by apply list_elem_of_In. Qed.

Lemma sort_by_any_perm {A} (cmp : A → A → Z) (l : list A) : sort_by cmp l ≡ₚ l.
Proof. apply merge_sort_Permutation. Qed.

(** Two lists with the same entries, strictly increasing by key, are equal. *)
Lemma increasing_key_unique {A K} (cmp : K → K → Z) `{!Comparator cmp} (key : A → K) (l1 l2 : list A) :
  l1 ≡ₚ l2 → increasing cmp (key <$> l1) → increasing cmp (key <$> l2) → l1 = l2.
Proof.
  assert (∀ l : list A, increasing cmp (key <$> l) →
    StronglySorted (λ x y, cmp (key x) (key y) < 0) l) as Hkey.
  { induction l as [|x l IH]; simpl; intros Hl; [constructor|].
    apply StronglySorted_inv in Hl as [Hl Hx]. constructor; [by apply IH|]. by apply Forall_fmap in Hx. }
  intros Hp H1%Hkey H2%Hkey.
  assert (AntiSymm (=) (λ x y, cmp (key x) (key y) < 0)).
  { intros x y Hxy Hyx. pose proof (cmp_anti cmp (key x) (key y)). lia. }
  by apply (StronglySorted_unique (λ x y, cmp (key x) (key y) < 0)).
Qed.

Lemma increasing_sort_by_key {A K} (cmp : K → K → Z) `{!Comparator cmp} (key : A → K) (l l' : list A) :
  increasing cmp (key <$> l) → l ≡ₚ l' → sort_by (λ x y, cmp (key x) (key y)) l' = l.
Proof.
  intros Hl Hp. assert (sort_by (λ x y, cmp (key x) (key y)) l' ≡ₚ l) as Hs
    by (etrans; [apply sort_by_any_perm|done]). apply (increasing_key_unique cmp key); [done| |done].
  assert (AntiSymm (=) (cmp_le cmp)) by (intros x y; apply (cmp_le_antisym cmp)).
  rewrite (StronglySorted_unique (cmp_le cmp) (key <$> sort_by _ l') (key <$> l)); [done|..].
  - apply (sort_by_key_sorted cmp).
  - by apply (increasing_weaken cmp).
  - by rewrite Hs.
Qed.

Lemma filter_ext_in {A} (P Q : A → Prop) `{!∀ x, Decision (P x), !∀ x, Decision (Q x)} (l : list A) :
  (∀ x, x ∈ l → P x ↔ Q x) → filter P l = filter Q l.
Proof.
  induction l as [|x l IH]; intros Hpq; [done|]. rewrite !filter_cons, IH by (intros y Hy; apply Hpq; by right).
  destruct (decide (P x)) as [Hp|Hp], (decide (Q x)) as [Hq|Hq]; try done; (rewrite Hpq in Hp; [done|by left]).
Qed.

Lemma filter_all {A} (P : A → Prop) `{!∀ x, Decision (P x)} (l : list A) : (∀ x, x ∈ l → P x) → filter P l = l.
Proof.
  induction l as [|x l IH]; intros Hl; [done|]. rewrite filter_cons, decide_True by (apply Hl; by left).
  f_equal. apply IH. intros y Hy. apply Hl. by right.
Qed.

Lemma filter_none {A} (P : A → Prop) `{!∀ x, Decision (P x)} (l : list A) : (∀ x, x ∈ l → ¬ P x) → filter P l = [].
Proof.
  induction l as [|x l IH]; intros Hl; [done|]. rewrite filter_cons, decide_False by (apply Hl; by left).
  apply IH. intros y Hy. apply Hl. by right.
Qed.

Lemma list_to_set_perm_inv {A} `{Countable A} (l l' : list A) :
  NoDup l → NoDup l' → (list_to_set l : gset A) = list_to_set l' → l ≡ₚ l'.
Proof.
  intros Hl Hl' Heq. apply NoDup_Permutation; [done..|]. intros x.
  rewrite <-!(elem_of_list_to_set (C:=gset A)). by rewrite Heq.
Qed.

Lemma fmap_perm_inv {A B} (f : A → B) (l : list A) (k : list B) :
  k ≡ₚ f <$> l → ∃ l', k = f <$> l' ∧ l ≡ₚ l'.
Proof. apply (Permutation_map_inv f l). Qed.

Lemma len_fmap {A B} (f : A → B) l : len (f <$> l) = len l.
Proof. unfold len. by rewrite length_fmap. Qed.

#[export] Instance bytes_comparator : Comparator bytes_compare.
Proof.
  split.
  - intros x. induction x as [|a x IH]; intros [|b y]; simpl; try lia.
    repeat case_match; try lia. apply IH.
  - intros x. induction x as [|a x IH]; intros [|b y]; simpl; try (split; [lia|done]); [done|].
    destruct (Z.ltb_spec (byteZ a) (byteZ b)); [split; [lia|intros [= -> ->]; lia]|].
    destruct (Z.ltb_spec (byteZ b) (byteZ a)); [split; [lia|intros [= -> ->]; lia]|].
    assert (a = b) as -> by (apply byteZ_inj; lia). rewrite IH. naive_solver.
  - intros x. induction x as [|a x IH]; intros [|b y]; simpl; try lia.
    destruct (Z.ltb_spec (byteZ a) (byteZ b)), (Z.ltb_spec (byteZ b) (byteZ a)); try lia.
    apply IH.
  - intros x. induction x as [|a x IH]; intros [|b y] [|c z]; simpl; try lia.
    destruct (Z.ltb_spec (byteZ a) (byteZ b)), (Z.ltb_spec (byteZ b) (byteZ a)),
      (Z.ltb_spec (byteZ b) (byteZ c)), (Z.ltb_spec (byteZ c) (byteZ b)),
      (Z.ltb_spec (byteZ a) (byteZ c)), (Z.ltb_spec (byteZ c) (byteZ a)); try lia.
    apply IH.
Qed.

(** [s < t] and [s <= t] on strings. *)
Definition string_lt (s t : bytes) : bool := bytes_compare s t <? 0.
Definition string_le (s t : bytes) : bool := bytes_compare s t <=? 0.
