(* ===== verification/Utf8.v ===== *)
(** * UTF-8

    The conversions of Go's language and unicode/utf8 package that the text
    packages use: [utf8.ValidString], [[]rune(s)], [utf8.ValidRune] and
    [string(runes)]. *)

From S2P Require Import Prelude.

(** A rune is a code point. [utf8.ValidRune] *)
Definition ValidRune (r : Z) : bool :=
  ((0 <=? r) && (r <? 0xD800)) || ((0xDFFF <? r) && (r <=? 0x10FFFF)).

(** ** Encoding *)

(** [utf8.AppendRune]: an invalid rune is written as U+FFFD. *)
Definition encodeRune (r : Z) : bytes :=
  if negb (ValidRune r) then [Zbyte 0xEF; Zbyte 0xBF; Zbyte 0xBD]
  else if r <? 0x80 then [Zbyte r]
  else if r <? 0x800 then [Zbyte (0xC0 + r `div` 64); Zbyte (0x80 + r `mod` 64)]
  else if r <? 0x10000 then
    [Zbyte (0xE0 + r `div` 4096); Zbyte (0x80 + (r `div` 64) `mod` 64); Zbyte (0x80 + r `mod` 64)]
  else
    [Zbyte (0xF0 + r `div` 262144); Zbyte (0x80 + (r `div` 4096) `mod` 64);
     Zbyte (0x80 + (r `div` 64) `mod` 64); Zbyte (0x80 + r `mod` 64)].

(** [string(runes)] *)
Definition string_of_runes (rs : list Z) : bytes := concat (encodeRune <$> rs).

(** ** Decoding *)

(** A byte [0x80..0xBF]. *)
Definition continuation (b : byte) : bool := (0x80 <=? byteZ b) && (byteZ b <=? 0xBF).

(** The second bytes that [utf8] accepts after a leading byte: the narrower
    ranges exclude overlong forms, surrogates and code points above U+10FFFF. *)
Definition second3 (b1 b2 : byte) : bool :=
  let '(x, y) := (byteZ b1, byteZ b2) in
  if x =? 0xE0 then (0xA0 <=? y) && (y <=? 0xBF)
  else if x =? 0xED then (0x80 <=? y) && (y <=? 0x9F)
  else (0xE1 <=? x) && (x <=? 0xEF) && continuation b2.
Definition second4 (b1 b2 : byte) : bool :=
  let '(x, y) := (byteZ b1, byteZ b2) in
  if x =? 0xF0 then (0x90 <=? y) && (y <=? 0xBF)
  else if x =? 0xF4 then (0x80 <=? y) && (y <=? 0x8F)
  else (0xF1 <=? x) && (x <=? 0xF3) && continuation b2.

(** [[]rune(s)] for a string that is valid UTF-8; [None] for any other. *)
Fixpoint runes (s : bytes) : option (list Z) :=
  match s with
  | [] => Some []
  | b1 :: s1 =>
      if byteZ b1 <? 0x80 then cons (byteZ b1) <$> runes s1
      else match s1 with
      | [] => None
      | b2 :: s2 =>
          if (0xC2 <=? byteZ b1) && (byteZ b1 <=? 0xDF) && continuation b2 then
            cons ((byteZ b1 - 0xC0) * 64 + (byteZ b2 - 0x80)) <$> runes s2
          else match s2 with
          | [] => None
          | b3 :: s3 =>
              if second3 b1 b2 && continuation b3 then
                cons ((byteZ b1 - 0xE0) * 4096 + (byteZ b2 - 0x80) * 64 + (byteZ b3 - 0x80)) <$> runes s3
              else match s3 with
              | [] => None
              | b4 :: s4 =>
                  if second4 b1 b2 && continuation b3 && continuation b4 then
                    cons ((byteZ b1 - 0xF0) * 262144 + (byteZ b2 - 0x80) * 4096 + (byteZ b3 - 0x80) * 64 +
                          (byteZ b4 - 0x80)) <$> runes s4
                  else None
              end
          end
      end
  end.

(** [utf8.ValidString] *)
Definition ValidString (s : bytes) : bool := bool_decide (is_Some (runes s)).

(** ** The conversions are inverse *)

(** The base-64 digits of a code point. *)
Lemma digits2 r : 0 <= r → r = r `div` 64 * 64 + r `mod` 64 ∧ 0 <= r `mod` 64 < 64.
Proof.
  intros Hr. pose proof (Z.div_mod r 64 ltac:(lia)). pose proof (Z.mod_pos_bound r 64 ltac:(lia)). lia.
Qed.

Lemma digits3 r :
  0 <= r → r = r `div` 4096 * 4096 + (r `div` 64) `mod` 64 * 64 + r `mod` 64 ∧
  0 <= r `mod` 64 < 64 ∧ 0 <= (r `div` 64) `mod` 64 < 64.
Proof.
  intros Hr. destruct (digits2 r Hr) as [H1 H2]. destruct (digits2 (r `div` 64)) as [H3 H4]; [lia|].
  rewrite Z.div_div in H3 by lia. change (64 * 64) with 4096 in H3. lia.
Qed.

Lemma digits4 r :
  0 <= r → r = r `div` 262144 * 262144 + (r `div` 4096) `mod` 64 * 4096 + (r `div` 64) `mod` 64 * 64 + r `mod` 64 ∧
  0 <= r `mod` 64 < 64 ∧ 0 <= (r `div` 64) `mod` 64 < 64 ∧ 0 <= (r `div` 4096) `mod` 64 < 64.
Proof.
  intros Hr. destruct (digits3 r Hr) as (H1 & H2 & H3). destruct (digits2 (r `div` 4096)) as [H4 H5]; [lia|].
  rewrite Z.div_div in H4 by lia. change (4096 * 64) with 262144 in H4. lia.
Qed.

Lemma ValidRune_iff r : ValidRune r = true ↔ 0 <= r <= 0x10FFFF ∧ (r < 0xD800 ∨ 0xDFFF < r).
Proof.
  unfold ValidRune. rewrite orb_true_iff, !andb_true_iff, Z.leb_le, !Z.ltb_lt, Z.leb_le. lia.
Qed.

Lemma runes_encode r s : ValidRune r = true → runes (encodeRune r ++ s) = cons r <$> runes s.
Proof.
  intros Hv. unfold encodeRune. rewrite Hv. cbn [negb]. apply ValidRune_iff in Hv as [Hr Hs].
  destruct (Z.ltb_spec r 0x80); [|destruct (Z.ltb_spec r 0x800); [|destruct (Z.ltb_spec r 0x10000)]];
    cbn [app runes]; unfold second3, second4, continuation; rewrite !byteZ_Zbyte.
  - rewrite Z.mod_small by lia. by guard_true.
  - destruct (digits2 r) as [Hd ?]; [lia|].
    set (q := r `div` 64) in *. set (m := r `mod` 64) in *. clearbody q m.
    rewrite !Z.mod_small by lia. guard_false. guard_true. do 2 f_equal. lia.
  - destruct (digits3 r) as (Hd & ? & ?); [lia|].
    set (q := r `div` 4096) in *. set (m1 := (r `div` 64) `mod` 64) in *. set (m := r `mod` 64) in *. clearbody q m m1.
    rewrite !Z.mod_small by lia. guard_false. guard_false.
    destruct (Z.eqb_spec (0xE0 + q) 0xE0); [|destruct (Z.eqb_spec (0xE0 + q) 0xED)];
      guard_true; do 2 f_equal; lia.
  - destruct (digits4 r) as (Hd & ? & ? & ?); [lia|].
    set (q := r `div` 262144) in *. set (m2 := (r `div` 4096) `mod` 64) in *.
    set (m1 := (r `div` 64) `mod` 64) in *. set (m := r `mod` 64) in *. clearbody q m m1 m2.
    rewrite !Z.mod_small by lia. guard_false. guard_false.
    assert ((240 + q =? 224) = false) as -> by solve_guard. assert ((240 + q =? 237) = false) as -> by solve_guard.
    guard_false.
    destruct (Z.eqb_spec (0xF0 + q) 0xF0); [|destruct (Z.eqb_spec (0xF0 + q) 0xF4)];
      guard_true; do 2 f_equal; lia.
Qed.

Lemma runes_string rs : Forall (λ r, ValidRune r = true) rs → runes (string_of_runes rs) = Some rs.
Proof.
  induction 1 as [|r rs Hr Hrs IH]; [done|]. unfold string_of_runes. rewrite fmap_cons. cbn [concat].
  rewrite runes_encode by done. fold (string_of_runes rs). by rewrite IH.
Qed.

Lemma Zbyte_eq b z : z = byteZ b → Zbyte z = b.
Proof. intros ->. apply Zbyte_byteZ. Qed.

Lemma div_digit a b n : 0 <= b < n → (a * n + b) `div` n = a ∧ (a * n + b) `mod` n = b.
Proof.
  intros Hb. split; [symmetry; apply (Z.div_unique _ n a b)|symmetry; apply (Z.mod_unique _ n a b)]; lia.
Qed.

(** What the branches of [runes] decode is a valid rune, and encodes to the
    bytes read. *)
Lemma encode2 b1 b2 :
  (0xC2 <=? byteZ b1) && (byteZ b1 <=? 0xDF) && continuation b2 = true →
  let r := (byteZ b1 - 0xC0) * 64 + (byteZ b2 - 0x80) in ValidRune r = true ∧ encodeRune r = [b1; b2].
Proof.
  intros H r. unfold continuation in H. breflect.
  assert (ValidRune r = true) as Hv by (apply ValidRune_iff; lia). split; [done|].
  unfold encodeRune. rewrite Hv. do 2 guard_false. guard_true.
  destruct (div_digit (byteZ b1 - 0xC0) (byteZ b2 - 0x80) 64) as [Hd Hm]; [lia|]. fold r in Hd, Hm. rewrite Hd, Hm.
  rewrite !(Zbyte_eq b1), !(Zbyte_eq b2) by lia. done.
Qed.

Lemma encode3 b1 b2 b3 :
  second3 b1 b2 && continuation b3 = true →
  let r := (byteZ b1 - 0xE0) * 4096 + (byteZ b2 - 0x80) * 64 + (byteZ b3 - 0x80) in
  ValidRune r = true ∧ encodeRune r = [b1; b2; b3].
Proof.
  intros H r. unfold second3, continuation in H.
  set (x := byteZ b1) in *. set (y := byteZ b2) in *. set (z := byteZ b3) in *.
  assert (0xE0 <= x <= 0xEF ∧ 0x80 <= y <= 0xBF ∧ 0x80 <= z <= 0xBF ∧ (x = 0xE0 → 0xA0 <= y) ∧ (x = 0xED → y <= 0x9F))
    as (Hx & Hy & Hz & Hlo & Hhi).
  { destruct (Z.eqb_spec x 0xE0); [|destruct (Z.eqb_spec x 0xED)]; breflect; lia. }
  assert (ValidRune r = true) as Hv by (apply ValidRune_iff; lia). split; [done|].
  unfold encodeRune. rewrite Hv. do 3 guard_false. guard_true.
  assert (r = ((x - 0xE0) * 64 + (y - 0x80)) * 64 + (z - 0x80)) as Hr by lia.
  destruct (div_digit ((x - 0xE0) * 64 + (y - 0x80)) (z - 0x80) 64) as [Hd Hm]; [lia|]. rewrite <-Hr in Hd, Hm.
  destruct (div_digit (x - 0xE0) (y - 0x80) 64) as [Hd' Hm']; [lia|].
  replace (r `div` 4096) with (x - 0xE0) by (change 4096 with (64 * 64); rewrite <-Z.div_div, Hd by lia; lia).
  rewrite Hd, Hm, Hm'. rewrite (Zbyte_eq b1), (Zbyte_eq b2), (Zbyte_eq b3) by lia. done.
Qed.

Lemma encode4 b1 b2 b3 b4 :
  second4 b1 b2 && continuation b3 && continuation b4 = true →
  let r := (byteZ b1 - 0xF0) * 262144 + (byteZ b2 - 0x80) * 4096 + (byteZ b3 - 0x80) * 64 + (byteZ b4 - 0x80) in
  ValidRune r = true ∧ encodeRune r = [b1; b2; b3; b4].
Proof.
  intros H r. unfold second4, continuation in H.
  set (x := byteZ b1) in *. set (y := byteZ b2) in *. set (z := byteZ b3) in *. set (w := byteZ b4) in *.
  assert (0xF0 <= x <= 0xF4 ∧ 0x80 <= y <= 0xBF ∧ 0x80 <= z <= 0xBF ∧ 0x80 <= w <= 0xBF ∧
    (x = 0xF0 → 0x90 <= y) ∧ (x = 0xF4 → y <= 0x8F)) as (Hx & Hy & Hz & Hw & Hlo & Hhi).
  { destruct (Z.eqb_spec x 0xF0); [|destruct (Z.eqb_spec x 0xF4)]; breflect; lia. }
  assert (ValidRune r = true) as Hv by (apply ValidRune_iff; lia). split; [done|].
  unfold encodeRune. rewrite Hv. do 4 guard_false.
  assert (r = (((x - 0xF0) * 64 + (y - 0x80)) * 64 + (z - 0x80)) * 64 + (w - 0x80)) as Hr by lia.
  destruct (div_digit (((x - 0xF0) * 64 + (y - 0x80)) * 64 + (z - 0x80)) (w - 0x80) 64) as [Hd Hm]; [lia|].
  rewrite <-Hr in Hd, Hm.
  destruct (div_digit ((x - 0xF0) * 64 + (y - 0x80)) (z - 0x80) 64) as [Hd1 Hm1]; [lia|].
  destruct (div_digit (x - 0xF0) (y - 0x80) 64) as [Hd2 Hm2]; [lia|].
  assert (r `div` 4096 = (x - 0xF0) * 64 + (y - 0x80)) as Hd'
    by (change 4096 with (64 * 64); rewrite <-Z.div_div, Hd by lia; lia).
  replace (r `div` 262144) with (x - 0xF0)
    by (change 262144 with (64 * 64 * 64); rewrite <-!Z.div_div, Hd, Hd1 by lia; lia).
  rewrite Hd, Hd', Hm, Hm1, Hm2.
  rewrite (Zbyte_eq b1), (Zbyte_eq b2), (Zbyte_eq b3), (Zbyte_eq b4) by lia. done.
Qed.

Lemma encode1 b : byteZ b < 0x80 → ValidRune (byteZ b) = true ∧ encodeRune (byteZ b) = [b].
Proof.
  intros Hb. pose proof (byteZ_range b).
  assert (ValidRune (byteZ b) = true) as Hv by (apply ValidRune_iff; lia). split; [done|].
  unfold encodeRune. rewrite Hv. guard_false. guard_true. by rewrite Zbyte_byteZ.
Qed.

Lemma string_cons r rs e s :
  ValidRune r = true ∧ encodeRune r = e → Forall (λ r, ValidRune r = true) rs ∧ string_of_runes rs = s →
  Forall (λ r, ValidRune r = true) (r :: rs) ∧ string_of_runes (r :: rs) = e ++ s.
Proof.
  intros [Hr <-] [Hrs <-]. split; [by constructor|]. unfold string_of_runes. by rewrite fmap_cons.
Qed.

Lemma runes_valid s rs :
  runes s = Some rs → Forall (λ r, ValidRune r = true) rs ∧ string_of_runes rs = s.
Proof.
  revert rs. induction s as [s IH] using (induction_ltof1 _ length). unfold ltof in IH. intros rs.
  assert (∀ r e s', s = e ++ s' → e ≠ [] → ValidRune r = true ∧ encodeRune r = e → cons r <$> runes s' = Some rs →
    Forall (λ r, ValidRune r = true) rs ∧ string_of_runes rs = s) as Hstep.
  { intros r e s' -> He Hr (rs' & Hrs & ->)%fmap_Some. rewrite length_app in IH. apply string_cons; [done|].
    apply IH; [|done]. destruct e; [done|simpl; lia]. }
  destruct s as [|b1 s1]; [by intros [= <-]|]. cbn [runes].
  destruct (Z.ltb_spec (byteZ b1) 0x80).
  { apply (Hstep _ [b1]); [done..|by apply encode1]. }
  destruct s1 as [|b2 s2]; [done|]. destruct (_ && continuation b2) eqn:E2.
  { apply (Hstep _ [b1; b2]); [done..|by apply encode2]. }
  destruct s2 as [|b3 s3]; [done|]. destruct (second3 b1 b2 && _) eqn:E3.
  { apply (Hstep _ [b1; b2; b3]); [done..|by apply encode3]. }
  destruct s3 as [|b4 s4]; [done|]. destruct (_ && continuation b4) eqn:E4; [|done].
  apply (Hstep _ [b1; b2; b3; b4]); [done..|by apply encode4].
Qed.

(** A string is valid UTF-8 exactly when it is the encoding of valid runes. *)
Lemma ValidString_iff s : ValidString s = true ↔ ∃ rs, Forall (λ r, ValidRune r = true) rs ∧ s = string_of_runes rs.
Proof.
  unfold ValidString. rewrite bool_decide_eq_true. split.
  - intros [rs [? <-]%runes_valid]. eauto.
  - intros (rs & Hrs & ->). rewrite runes_string by done. eauto.
Qed.
