(* ===== verification/Tags.v ===== *)
(** * Mutation tags and the frame-type registry

    Models the root package: [Tag] with its validity and canonical order
    (src/crdt.go) and the closed table of implemented frame protocols
    (src/type_ids_generated.go) with its lookups. *)

From S2P Require Import Prelude.

(** ** Tags *)

(** [crdt.Tag] *)
Record Tag := mkTag {
  ReplicaID : bytes;
  WallTime : Z;
  Logical : Z
}.

#[export] Instance Tag_eq_dec : EqDecision Tag.
Proof. solve_decision. Defined.

#[export] Program Instance Tag_countable : Countable Tag :=
  inj_countable' (λ t, (ReplicaID t, WallTime t, Logical t))
    (λ '(r, w, l), mkTag r w l) _.
Next Obligation. by intros []. Qed.

(** [Tag{}], the zero value. *)
Definition zeroTag : Tag := mkTag [] 0 0.

(** [Tag.Valid] *)
Definition Valid (t : Tag) : bool := negb (blank (ReplicaID t)).

(** [Tag.Compare] *)
Definition Compare (t other : Tag) : Z :=
  if WallTime t <? WallTime other then -1
  else if WallTime other <? WallTime t then 1
  else if Logical t <? Logical other then -1
  else if Logical other <? Logical t then 1
  else if string_lt (ReplicaID t) (ReplicaID other) then -1
  else if string_lt (ReplicaID other) (ReplicaID t) then 1
  else 0.

(** The fields of a tag are machine integers. *)
Definition tag_wf (t : Tag) : Prop := is_u64 (WallTime t) ∧ is_u64 (Logical t).

#[export] Instance tag_wf_dec t : Decision (tag_wf t).
Proof. unfold tag_wf. apply _. Defined.

(** The order as a relation: wall time, then logical counter, then replica. *)
Definition tag_lt (t u : Tag) : Prop :=
  WallTime t < WallTime u ∨
  (WallTime t = WallTime u ∧
    (Logical t < Logical u ∨
     (Logical t = Logical u ∧ bytes_compare (ReplicaID t) (ReplicaID u) < 0))).

Ltac tag_cases :=
  unfold Compare, string_lt; repeat match goal with
  | |- context [?a <? ?b] => destruct (Z.ltb_spec a b)
  end; simpl.

Lemma Compare_lt t u : Compare t u < 0 ↔ tag_lt t u.
Proof. unfold tag_lt. tag_cases; lia. Qed.

Lemma Compare_zero t u : Compare t u = 0 ↔ t = u.
Proof.
  split.
  - destruct t as [r w l], u as [r' w' l']. tag_cases; try lia. intros _. simpl in *.
    assert (bytes_compare r r' = 0) as ->%(cmp_eq bytes_compare).
    { pose proof (cmp_anti bytes_compare r r'). lia. }
    f_equal; lia.
  - intros ->. pose proof (cmp_refl bytes_compare (ReplicaID u)). tag_cases; lia.
Qed.

Lemma Compare_anti t u : Compare u t = - Compare t u.
Proof.
  pose proof (cmp_anti bytes_compare (ReplicaID t) (ReplicaID u)).
  tag_cases; lia.
Qed.

Lemma tag_lt_trans t u v : tag_lt t u → tag_lt u v → tag_lt t v.
Proof.
  unfold tag_lt. intros Htu Huv.
  assert (Htr := cmp_trans bytes_compare (ReplicaID t) (ReplicaID u) (ReplicaID v)).
  destruct Htu as [?|[? [?|[??]]]], Huv as [?|[? [?|[??]]]]; try (left; lia);
    right; (split; [lia|]); try (left; lia); right; (split; [lia|auto]).
Qed.

#[export] Instance Compare_comparator : Comparator Compare.
Proof.
  split.
  - intros. tag_cases; lia.
  - apply Compare_zero.
  - apply Compare_anti.
  - intros t u v. rewrite !Compare_lt. apply tag_lt_trans.
Qed.

(** [Tag.Compare] is the lexicographic order on (wall time, logical
    counter, replica ID). *)
Theorem Compare_lexicographic (t u : Tag) :
  (Compare t u < 0 ↔ tag_lt t u) ∧ (Compare t u = 0 ↔ t = u) ∧
  (0 < Compare t u ↔ tag_lt u t).
Proof.
  split_and!; [apply Compare_lt|apply Compare_zero|].
  by rewrite (cmp_gt_lt Compare), Compare_lt.
Qed.

(** ** Loops over tags *)

(** One step of a frontier loop: the greatest tag per replica. *)
Definition frontier_step (frontier : gmap bytes Tag) (tag : Tag) : gmap bytes Tag :=
  match frontier !! ReplicaID tag with
  | Some current => if Compare current tag <? 0 then <[ReplicaID tag := tag]> frontier else frontier
  | None => <[ReplicaID tag := tag]> frontier
  end.

(** One step of a greatest-tag loop. *)
Definition greatest_step (greatest : option Tag) (tag : Tag) : option Tag :=
  match greatest with
  | None => Some tag
  | Some g => if Compare g tag <? 0 then Some tag else greatest
  end.

Lemma greatest_fold g l :
  match foldl greatest_step g l with
  | None => g = None ∧ l = []
  | Some m => (g = Some m ∨ m ∈ l) ∧ (∀ t, g = Some t ∨ t ∈ l → Compare t m <= 0)
  end.
Proof.
  revert g. induction l as [|x l IH]; intros g; simpl.
  - destruct g as [m|]; [|done]. split; [by left|]. intros t [[= ->]|Ht]; [|set_solver].
    rewrite (cmp_refl Compare). lia.
  - specialize (IH (greatest_step g x)). destruct (foldl greatest_step (greatest_step g x) l) as [m|].
    + destruct IH as [IH1 IH2]. unfold greatest_step in *. destruct g as [g|].
      * destruct (Z.ltb_spec (Compare g x) 0) as [Hlt|Hge].
        -- split; [set_solver|]. intros t [[= <-]|[->|Ht]%elem_of_cons].
           ++ apply (cmp_le_trans Compare g x m); [lia|]. apply IH2. by left.
           ++ apply IH2. by left.
           ++ apply IH2. by right.
        -- split; [set_solver|]. intros t [Ht|[->|Ht]%elem_of_cons]; [by apply IH2; left| |by apply IH2; right].
           apply (cmp_le_trans Compare x g m); [rewrite (cmp_anti Compare g x); lia|].
           apply IH2. by left.
      * split; [set_solver|]. intros t [|[->|Ht]%elem_of_cons]; [done|by apply IH2; left|by apply IH2; right].
    + destruct IH as [IH _]. destruct g as [g|]; simpl in IH; [|done].
      by destruct (Compare g x <? 0).
Qed.

(** ** Frame types *)

(** [crdt.FrameType] *)
Record FrameType := mkFrameType {
  StateID : Z;
  DeltaID : Z;
  SemanticsVersion : Z;
  UsesHLC : bool
}.

#[export] Instance FrameType_eq_dec : EqDecision FrameType.
Proof. solve_decision. Defined.

(** [crdt.FrameTypeRegistration] *)
Record FrameTypeRegistration := mkRegistration {
  Name : bytes;
  Kind : FrameType
}.

#[export] Instance FrameTypeRegistration_eq_dec : EqDecision FrameTypeRegistration.
Proof. solve_decision. Defined.

Definition TypeIDGCounterState : Z := 1.
Definition TypeIDGCounterDelta : Z := 3.
Definition TypeIDORSetState : Z := 2.
Definition TypeIDORSetDelta : Z := 4.
Definition TypeIDPNCounterState : Z := 5.
Definition TypeIDPNCounterDelta : Z := 6.
Definition TypeIDLWWSetState : Z := 7.
Definition TypeIDLWWSetDelta : Z := 8.
Definition TypeIDLWWMapState : Z := 9.
Definition TypeIDLWWMapDelta : Z := 10.
Definition TypeIDRGAState : Z := 11.
Definition TypeIDRGADelta : Z := 12.
Definition TypeIDGSetState : Z := 13.
Definition TypeIDGSetDelta : Z := 14.
Definition TypeIDMVRegisterState : Z := 15.
Definition TypeIDMVRegisterDelta : Z := 16.
Definition TypeIDORTreeState : Z := 17.
Definition TypeIDORTreeDelta : Z := 18.
Definition TypeIDRGARunState : Z := 19.
Definition TypeIDRGARunDelta : Z := 20.

(** [frameTypeRegistrations] *)
Definition frameTypeRegistrations : list FrameTypeRegistration :=
  [ mkRegistration (str "GCounter") (mkFrameType 1 3 1 false);
    mkRegistration (str "ORSet") (mkFrameType 2 4 1 true);
    mkRegistration (str "PNCounter") (mkFrameType 5 6 1 false);
    mkRegistration (str "LWWSet") (mkFrameType 7 8 1 true);
    mkRegistration (str "LWWMap") (mkFrameType 9 10 1 true);
    mkRegistration (str "RGA") (mkFrameType 11 12 1 true);
    mkRegistration (str "GSet") (mkFrameType 13 14 1 false);
    mkRegistration (str "MVRegister") (mkFrameType 15 16 1 false);
    mkRegistration (str "ORTree") (mkFrameType 17 18 1 true);
    mkRegistration (str "RGARun") (mkFrameType 19 20 2 true);
    mkRegistration (str "ListRGA") (mkFrameType 21 22 1 true);
    mkRegistration (str "RichText") (mkFrameType 23 24 1 true);
    mkRegistration (str "MoveRGA") (mkFrameType 25 26 2 true);
    mkRegistration (str "RGAPacked") (mkFrameType 29 30 3 true);
    mkRegistration (str "DocumentTree") (mkFrameType 31 32 2 true) ].

(** [RegisteredFrameTypes] returns a copy of the table. *)
Definition RegisteredFrameTypes : list FrameTypeRegistration := frameTypeRegistrations.

(** The range loops of the lookups: the first registration that matches. *)
Fixpoint find_registration (p : FrameType → bool) (table : list FrameTypeRegistration)
    : option FrameTypeRegistration :=
  match table with
  | [] => None
  | registration :: table' =>
      if p (Kind registration) then Some registration else find_registration p table'
  end.

(** [FrameTypeRegistrationForID] *)
Definition FrameTypeRegistrationForID (typeID : Z) : option FrameTypeRegistration :=
  find_registration (λ k, (StateID k =? typeID) || (DeltaID k =? typeID))
    frameTypeRegistrations.

(** [FrameTypeForState] *)
Definition FrameTypeForState (stateID : Z) : option FrameType :=
  Kind <$> find_registration (λ k, StateID k =? stateID) frameTypeRegistrations.

(** [FrameTypeForDelta] *)
Definition FrameTypeForDelta (deltaID : Z) : option FrameType :=
  Kind <$> find_registration (λ k, DeltaID k =? deltaID) frameTypeRegistrations.

(** [ProtocolPolicy.SupportsFrame] *)
Definition SupportsFrame (typeID : Z) : bool :=
  match FrameTypeForState typeID with
  | Some _ => true
  | None => match FrameTypeForDelta typeID with
            | Some _ => true
            | None => false
            end
  end.

(** [ProtocolPolicy.FrameTypes] *)
Definition FrameTypes : list FrameType :=
  filter (λ k, SupportsFrame (StateID k)) (Kind <$> frameTypeRegistrations).

(** [DefaultRGAFrameType] *)
Definition DefaultRGAFrameType : FrameType := mkFrameType TypeIDRGARunState TypeIDRGARunDelta 2 true.

Definition type_ids (table : list FrameTypeRegistration) : list Z :=
  concat ((λ r, [StateID (Kind r); DeltaID (Kind r)]) <$> table).

Lemma type_ids_NoDup : NoDup (type_ids frameTypeRegistrations).
Proof. apply (bool_decide_unpack _). vm_compute. exact I. Qed.

Lemma find_registration_Some p table r :
  find_registration p table = Some r → r ∈ table ∧ p (Kind r) = true.
Proof.
  induction table as [|r' table IH]; simpl; [done|].
  destruct (p (Kind r')) eqn:E; [intros [= ->]; split; [left|done]|].
  intros [??]%IH. split; [by right|done].
Qed.

Lemma find_registration_is_Some p table r :
  r ∈ table → p (Kind r) = true → is_Some (find_registration p table).
Proof.
  induction table as [|r' table IH]; simpl; intros Hin Hp; [by apply not_elem_of_nil in Hin|].
  destruct (p (Kind r')) eqn:E; [by eauto|].
  apply elem_of_cons in Hin as [->|Hin]; [congruence|eauto].
Qed.

Lemma type_ids_cons r table :
  type_ids (r :: table) = StateID (Kind r) :: DeltaID (Kind r) :: type_ids table.
Proof. done. Qed.

Lemma elem_of_type_ids table id :
  id ∈ type_ids table ↔ ∃ r, r ∈ table ∧ (id = StateID (Kind r) ∨ id = DeltaID (Kind r)).
Proof.
  induction table as [|r table IH]; [set_solver|].
  rewrite type_ids_cons, !elem_of_cons, IH. setoid_rewrite elem_of_cons. naive_solver.
Qed.

Lemma type_id_owner table r r' id :
  NoDup (type_ids table) → r ∈ table → r' ∈ table →
  (StateID (Kind r) = id ∨ DeltaID (Kind r) = id) →
  (StateID (Kind r') = id ∨ DeltaID (Kind r') = id) → r = r'.
Proof.
  induction table as [|r0 table IH]; [set_solver|].
  rewrite type_ids_cons, !NoDup_cons, !elem_of_cons, !elem_of_type_ids. intros (H1 & H2 & Hnd) Hr Hr' Hid Hid'.
  destruct Hr as [->|Hr], Hr' as [->|Hr']; [done| | |by apply IH].
  - exfalso. destruct Hid as [<-|<-]; [apply H1; right|apply H2]; exists r'; naive_solver.
  - exfalso. destruct Hid' as [<-|<-]; [apply H1; right|apply H2]; exists r; naive_solver.
Qed.

(** A type ID belongs to at most one registered protocol, and the lookup
    returns exactly the registration that carries it as state or delta ID. *)
Theorem FrameTypeRegistrationForID_spec (typeID : Z) (r : FrameTypeRegistration) :
  FrameTypeRegistrationForID typeID = Some r ↔
  r ∈ RegisteredFrameTypes ∧ (StateID (Kind r) = typeID ∨ DeltaID (Kind r) = typeID).
Proof.
  unfold FrameTypeRegistrationForID, RegisteredFrameTypes. split.
  - intros [Hin Hp]%find_registration_Some. simpl in Hp. split; [done|]. apply orb_true_iff in Hp. lia.
  - intros [Hin Hid].
    destruct (find_registration_is_Some
      (λ k, (StateID k =? typeID) || (DeltaID k =? typeID)) _ r Hin) as [r' Hr']; [simpl; lia|].
    rewrite Hr'. f_equal. apply find_registration_Some in Hr' as [Hin' Hp']. simpl in Hp'.
    apply (type_id_owner frameTypeRegistrations r' r typeID); [apply type_ids_NoDup|done..|lia|lia].
Qed.

Lemma FrameTypeForState_Some id k :
  FrameTypeForState id = Some k → StateID k = id ∧ k ∈ Kind <$> frameTypeRegistrations.
Proof.
  unfold FrameTypeForState. intros (r & Hr & ->)%fmap_Some.
  apply find_registration_Some in Hr as [Hin Hp].
  simpl in Hp. split; [lia|]. apply list_elem_of_fmap. eauto.
Qed.

(** [StateSnapshot] *)
Record StateSnapshot := mkSnapshot {
  ss_Type : bytes;
  ss_ReplicaID : bytes;
  ss_ElementCount : Z;
  ss_TombstoneCount : Z
}.
