(* ===== verification/Forest.v ===== *)
(** * Forests of tagged nodes

    A text and a tree both store nodes under their tags, each naming its parent.
    This file holds what src/text/rga.go and src/tree/ortree.go do alike with such
    a map: the children of a node, the walk that looks for cycles, and the queue
    that plans the removal of whole branches, children first. *)

From S2P Require Import Prelude Tags.

(** The colours of the cycle checks. *)
Inductive colour := visiting | complete.
#[export] Instance colour_eq_dec : EqDecision colour.
Proof. solve_decision. Defined.

(** Descending tag order. *)
Definition Descending (t u : Tag) : Z := Compare u t.

#[export] Instance Descending_comparator : Comparator Descending.
Proof.
  split; unfold Descending; intros.
  - apply (cmp_range Compare).
  - rewrite (cmp_eq Compare). naive_solver.
  - apply (cmp_anti Compare).
  - by eapply (cmp_trans Compare).
Qed.

(** An increasing list is determined by its elements. *)
Lemma increasing_ext {A} (cmp : A → A → Z) `{!Comparator cmp} (l l' : list A) :
  increasing cmp l → increasing cmp l' → (∀ x, x ∈ l ↔ x ∈ l') → l = l'.
Proof.
  intros Hl Hl' Heq. rewrite <-(increasing_sort_by cmp l l); [|done..].
  apply (increasing_sort_by cmp); [done|]. apply NoDup_Permutation; [by eapply increasing_NoDup..|].
  intros x. by rewrite Heq.
Qed.

Lemma increasing_filter {A} (cmp : A → A → Z) (P : A → Prop) `{!∀ x, Decision (P x)} (l : list A) :
  increasing cmp l → increasing cmp (filter P l).
Proof.
  unfold increasing. induction 1 as [|x l Hs IH Hf]; [constructor|]. rewrite filter_cons. case_decide; [|done].
  constructor; [done|]. apply Forall_forall. intros y [_ Hy]%list_elem_of_filter. by eapply Forall_forall in Hf.
Qed.

Section forest.
Context {V : Type} (parent : V → Tag).

(** The walk of [acyclicAgainst] of the text and [acyclic] of the tree up the parents of one node: [None] is a cycle,
    else the colours and the path. Each step colours a node, so the number of
    nodes bounds it. *)
Fixpoint acyclic_walk (fuel : nat) (incoming pending : gmap Tag V) (state : gmap Tag colour)
    (path : list Tag) (current : Tag) : option (gmap Tag colour * list Tag) :=
  match fuel with
  | O => Some (state, path)
  | S fuel' =>
      if negb (Valid current) then Some (state, path)
      else match state !! current with
      | Some visiting => None
      | Some complete => Some (state, path)
      | None =>
          match (match incoming !! current with Some item => Some item | None => pending !! current end) with
          | None => Some (state, path)
          | Some next =>
              acyclic_walk fuel' incoming pending (<[current := visiting]> state) (path ++ [current]) (parent next)
          end
      end
  end.

(** The loop over the incoming nodes, in a given order. *)
Fixpoint acyclic_loop (fuel : nat) (incoming pending : gmap Tag V) (state : gmap Tag colour)
    (order : list Tag) : bool :=
  match order with
  | [] => true
  | id :: order' =>
      if bool_decide (state !! id = Some complete) then acyclic_loop fuel incoming pending state order'
      else match acyclic_walk fuel incoming pending state [] id with
      | None => false
      | Some (state, path) =>
          acyclic_loop fuel incoming pending (foldl (λ s visited, <[visited := complete]> s) state path) order'
      end
  end.

(** The children of a position, latest first. *)
Definition kids (nodes : gmap Tag V) (p : Tag) : list Tag :=
  sort_by Descending (filter (λ e : Tag * V, parent e.2 = p) (map_to_list nodes)).*1.

(** The way up from a position ends. *)
Inductive ends (K : gmap Tag V) : Tag → Prop :=
| ends_top p : K !! p = None → ends K p
| ends_node p n : K !! p = Some n → ends K (parent n) → ends K p.

(** One step up. *)
Definition up (K : gmap Tag V) (p q : Tag) : Prop := ∃ n, K !! p = Some n ∧ parent n = q.

(** The loop of [eligibleCompactionPlanLocked] and [CompactEligibleTombstones]: [remaining] counts the children
    of each candidate that are still there. *)
Fixpoint eligible_loop (fuel : nat) (nodes : gmap Tag V) (remaining : gmap Tag Z) (ready compact : list Tag)
    : list Tag :=
  match fuel, ready with
  | S fuel', tag :: ready' =>
      let up_tag := match nodes !! tag with Some item => parent item | None => zeroTag end in
      match remaining !! up_tag with
      | None => eligible_loop fuel' nodes remaining ready' (compact ++ [tag])
      | Some n =>
          eligible_loop fuel' nodes (<[up_tag := n - 1]> remaining) (if n - 1 =? 0 then ready' ++ [up_tag] else ready')
            (compact ++ [tag])
      end
  | _, _ => compact
  end.

(** Every node comes after its children. *)
Definition children_first (nodes : gmap Tag V) (l : list Tag) : Prop :=
  ∀ a t b, l = a ++ t :: b → ∀ q, q ∈ kids nodes t → q ∈ a.

(** The children of [c] outside [l]. *)
Definition left_kids (nodes : gmap Tag V) (l : list Tag) (c : Tag) : list Tag :=
  filter (.∉ l) (kids nodes c).

(** What the loop keeps: the counters are those of the children that are left, and
    the candidates without any are done or queued. *)
Record plan_ok (nodes : gmap Tag V) (C : list Tag) (remaining : gmap Tag Z) (ready compact : list Tag) : Prop := {
  plan_nodup : NoDup (compact ++ ready);
  plan_in t : t ∈ compact ++ ready → t ∈ C;
  plan_count c : remaining !! c = if decide (c ∈ C) then Some (len (left_kids nodes compact c)) else None;
  plan_done c : c ∈ C → c ∈ compact ++ ready ↔ left_kids nodes compact c = [];
  plan_order : children_first nodes compact
}.

End forest.

Arguments ends_top {V parent} K p.
Arguments ends_node {V parent} K p n.
Arguments plan_nodup {V parent} nodes C remaining ready compact _.
Arguments plan_in {V parent} nodes C remaining ready compact _ t _.

Section children.
Context {V : Type} {parent : V → Tag}.
Abbreviation kids := (kids parent).

Lemma elem_of_kids nodes p q : q ∈ kids nodes p ↔ ∃ n, nodes !! q = Some n ∧ parent n = p.
Proof.
  unfold kids. rewrite (sort_by_perm Descending), list_elem_of_fmap. split.
  - intros ([q' n] & -> & Hin). apply list_elem_of_filter in Hin as [Hp Hin%elem_of_map_to_list]. eauto.
  - intros (n & Hn & Hp). exists (q, n). split; [done|]. apply list_elem_of_filter.
    split; [done|by apply elem_of_map_to_list].
Qed.

Lemma kids_increasing nodes p : increasing Descending (kids nodes p).
Proof.
  apply sort_by_increasing; [apply _|]. eapply NoDup_fmap_fst.
  - intros q n1 n2 [_ H1%elem_of_map_to_list]%list_elem_of_filter [_ H2%elem_of_map_to_list]%list_elem_of_filter. congruence.
  - apply NoDup_filter, NoDup_map_to_list.
Qed.

Lemma kids_unique nodes p l :
  increasing Descending l → (∀ q, q ∈ l ↔ ∃ n, nodes !! q = Some n ∧ parent n = p) → kids nodes p = l.
Proof.
  intros Hl Hin. apply (increasing_ext Descending); [apply kids_increasing|done|].
  intros q. by rewrite elem_of_kids, Hin.
Qed.

Lemma kids_empty p : kids ∅ p = [].
Proof. done. Qed.

Lemma kids_delete nodes id q : kids (delete id nodes) q = filter (.≠ id) (kids nodes q).
Proof.
  apply kids_unique.
  - apply increasing_filter, kids_increasing.
  - intros q'. rewrite list_elem_of_filter, elem_of_kids. setoid_rewrite lookup_delete_Some. naive_solver.
Qed.

(** A node that is not there has no children, when every parent is. *)
Lemma kids_fresh nodes id : (∀ q n, nodes !! q = Some n → parent n ≠ id) → kids nodes id = [].
Proof.
  intros H. apply kids_unique; [constructor|]. intros q. rewrite elem_of_nil. split; [done|].
  intros (n & Hn & Hp). by apply (H q n).
Qed.

Lemma kids_filter nodes (l : list Tag) q :
  kids (filter (λ e : Tag * V, e.1 ∉ l) nodes) q = filter (.∉ l) (kids nodes q).
Proof.
  apply kids_unique.
  - apply increasing_filter, kids_increasing.
  - intros x. rewrite list_elem_of_filter, elem_of_kids. setoid_rewrite map_lookup_filter_Some. naive_solver.
Qed.

End children.

(** ** The cycle check *)

Section ways.
Context {V : Type} {parent : V → Tag}.
Abbreviation ends := (ends parent).
Abbreviation up := (up parent).

(** A way that ends does not come back. *)
Lemma ends_no_cycle K p : ends K p → ¬ tc (up K) p p.
Proof.
  induction 1 as [p Hp|p n Hp Hn IH]; intros Hc.
  - by inversion Hc as [? ? (? & ? & _)|? ? ? (? & ? & _) _]; congruence.
  - assert (up K p (parent n)) as Hup by (by exists n). apply IH.
    assert (rtc (up K) (parent n) p) as Hback.
    { inversion Hc as [? ? (n' & Hn' & Hq)|? q ? (n' & Hn' & Hq) Hq']; assert (n' = n) as -> by congruence.
      - rewrite Hq. constructor.
      - rewrite Hq. by apply tc_rtc. }
    eapply tc_rtc_l; [exact Hback|]. by apply tc_once.
Qed.

End ways.

Section walk.
Context {V : Type} {parent : V → Tag}.
Context (incoming pending : gmap Tag V).
Abbreviation K := (incoming ∪ pending).
Abbreviation ends := (ends parent).
Abbreviation up := (up parent).
Abbreviation acyclic_walk := (acyclic_walk parent).
Abbreviation acyclic_loop := (acyclic_loop parent).
Hypothesis Hvalid : ∀ id n, K !! id = Some n → Valid id = true.

(** The nodes without a colour. *)
Definition uncoloured (state : gmap Tag colour) : gmap Tag V :=
  filter (λ e : Tag * V, state !! e.1 = None) K.

Lemma uncoloured_step state id n c :
  K !! id = Some n → state !! id = None →
  (size (uncoloured (<[id := c]> state)) < size (uncoloured state))%nat.
Proof using parent.
  intros Hid Hs. assert (uncoloured (<[id := c]> state) = delete id (uncoloured state)) as ->.
  { apply map_eq. intros q. apply option_eq. intros m. unfold uncoloured.
    rewrite lookup_delete_Some, !map_lookup_filter_Some. cbn [fst].
    destruct (decide (id = q)) as [<-|Hne]; [rewrite lookup_insert_eq; naive_solver|].
    rewrite lookup_insert_ne by done. naive_solver. }
  assert (uncoloured state !! id = Some n) as Hu by (apply map_lookup_filter_Some; done).
  rewrite map_size_delete_Some by eauto. assert (size (uncoloured state) ≠ 0%nat); [|lia].
  intros H0%map_size_empty_iff. rewrite H0 in Hu. done.
Qed.

Lemma acyclic_walk_spec fuel state path current :
  (∀ x, state !! x = Some complete → ends K x) → (∀ x, state !! x = Some visiting → tc (up K) x current) →
  (size (uncoloured state) < fuel)%nat →
  match acyclic_walk fuel incoming pending state path current with
  | None => ¬ ends K current
  | Some (state', path') =>
      ends K current ∧ ∃ ext, path' = path ++ ext ∧ (∀ x, x ∈ ext → ends K x) ∧
        ∀ x, state' !! x = if decide (x ∈ ext) then Some visiting else state !! x
  end.
Proof using Hvalid.
  revert state path current. induction fuel as [|fuel IH]; intros state path current Hc Hv Hfuel; [lia|].
  cbn [acyclic_walk].
  assert (∀ st : gmap Tag colour, ends K current → ends K current ∧ ∃ ext, path = path ++ ext ∧ (∀ x, x ∈ ext → ends K x) ∧
    ∀ x, st !! x = if decide (x ∈ ext) then Some visiting else st !! x) as Hstop.
  { intros st He. split; [done|]. exists []. rewrite app_nil_r. split_and!; [done|by intros x ?%elem_of_nil|].
    intros x. rewrite decide_False; [done|apply not_elem_of_nil]. }
  destruct (Valid current) eqn:Hval; cbn [negb].
  2: { apply Hstop. constructor. destruct (K !! current) as [n|] eqn:Hn; [|done]. apply Hvalid in Hn. congruence. }
  destruct (state !! current) as [[]|] eqn:Hs.
  - intros He. by apply (ends_no_cycle K current He), Hv.
  - apply Hstop. by apply Hc.
  - assert ((match incoming !! current with Some item => Some item | None => pending !! current end) = K !! current) as ->.
    { rewrite lookup_union. by destruct (incoming !! current), (pending !! current). }
    destruct (K !! current) as [n|] eqn:Hn; [|apply Hstop; by constructor].
    specialize (IH (<[current := visiting]> state) (path ++ [current]) (parent n)).
    destruct (acyclic_walk _ _ _ _ _ _) as [[state' path']|].
    + destruct IH as (He & ext & -> & Hext & Hst).
      * intros x [[_ [=]]|[_ Hx]]%lookup_insert_Some. auto.
      * intros x [[<- _]|[_ Hx]]%lookup_insert_Some; [apply tc_once; by exists n|].
        eapply tc_r; [by apply Hv|by exists n].
      * pose proof (uncoloured_step state current n visiting Hn Hs). lia.
      * assert (ends K current) as Hcur by (by apply (ends_node _ _ n)). split; [done|].
        exists (current :: ext). rewrite <-app_assoc. split; [done|]. split.
        -- intros x [->|Hx]%elem_of_cons; auto.
        -- intros x. rewrite Hst. destruct (decide (x ∈ ext)) as [Hx|Hx]; [rewrite decide_True by (by right); done|].
           destruct (decide (x = current)) as [->|Hne].
           ++ rewrite lookup_insert_eq, decide_True by (by left). done.
           ++ rewrite lookup_insert_ne, decide_False by (rewrite ?elem_of_cons; naive_solver). done.
    + intros He. apply IH.
      * intros x [[_ [=]]|[_ Hx]]%lookup_insert_Some. auto.
      * intros x [[<- _]|[_ Hx]]%lookup_insert_Some; [apply tc_once; by exists n|].
        eapply tc_r; [by apply Hv|by exists n].
      * pose proof (uncoloured_step state current n visiting Hn Hs). lia.
      * destruct He as [p Hp|p n' Hp He]; congruence.
Qed.

Lemma complete_fold (state : gmap Tag colour) (path : list Tag) x :
  foldl (λ s visited, <[visited := complete]> s) state path !! x =
  if decide (x ∈ path) then Some complete else state !! x.
Proof using parent.
  revert state. induction path as [|y path IH]; intros state; cbn [foldl]; [done|].
  rewrite IH. destruct (decide (x ∈ path)) as [Hx|Hx]; [by rewrite decide_True by (by right)|].
  destruct (decide (x = y)) as [->|Hne].
  - rewrite lookup_insert_eq, decide_True by (by left). done.
  - rewrite lookup_insert_ne, decide_False by (rewrite ?elem_of_cons; naive_solver). done.
Qed.

Lemma acyclic_loop_spec fuel state order :
  (∀ x c, state !! x = Some c → c = complete ∧ ends K x) → (size K < fuel)%nat →
  acyclic_loop fuel incoming pending state order = true ↔ ∀ id, id ∈ order → ends K id.
Proof using Hvalid.
  intros Hst Hfuel. revert state Hst. induction order as [|id order IH]; intros state Hst; cbn [acyclic_loop].
  { split; [|done]. by intros _ id ?%elem_of_nil. }
  setoid_rewrite elem_of_cons. case_bool_decide as Hid.
  - rewrite IH by done. apply Hst in Hid as [_ Hid]. split; [intros H q [->|?]; auto|auto].
  - pose proof (acyclic_walk_spec fuel state [] id) as Hw.
    destruct (acyclic_walk _ _ _ _ _ _) as [[state' path]|].
    + destruct Hw as (He & ext & -> & Hext & Hst').
      * intros x Hx. by apply (Hst x complete).
      * intros x Hx. by destruct (Hst x visiting Hx).
      * unfold uncoloured. eapply Nat.le_lt_trans; [|exact Hfuel]. apply map_size_filter.
      * rewrite IH; [split; [intros H q [->|?]; auto|auto]|]. intros x c. rewrite complete_fold, Hst'. simpl.
        destruct (decide (x ∈ ext)); [intros [= <-]; auto|apply Hst].
    + split; [done|]. intros H. exfalso. apply Hw; [..|auto].
      * intros x Hx. by apply (Hst x complete).
      * intros x Hx. by destruct (Hst x visiting Hx).
      * unfold uncoloured. eapply Nat.le_lt_trans; [|exact Hfuel]. apply map_size_filter.
Qed.

(** With one step per node the check is over, and accepts exactly the maps from
    all of whose incoming nodes the way up ends. *)
Lemma acyclic_check_spec fuel :
  (size incoming + size pending < fuel)%nat →
  acyclic_loop fuel incoming pending ∅ (map_to_list incoming).*1 = true ↔ ∀ id, is_Some (incoming !! id) → ends K id.
Proof using Hvalid.
  intros Hfuel. rewrite acyclic_loop_spec.
  - split; intros H id Hid; apply H.
    + destruct Hid as [n Hn]. apply list_elem_of_fmap. exists (id, n). by rewrite elem_of_map_to_list.
    + apply list_elem_of_fmap in Hid as ([q n] & -> & Hn%elem_of_map_to_list). by exists n.
  - by intros x c ?%lookup_empty_Some.
  - eapply Nat.le_lt_trans; [|exact Hfuel]. rewrite <-!size_dom, dom_union_L, size_union_alt.
    assert (size (dom pending ∖ dom incoming) <= size (dom pending))%nat by (apply subseteq_size; set_solver). lia.
Qed.
End walk.

(** ** The plan of branches *)

Section plan.
Context {V : Type} {parent : V → Tag}.
Abbreviation kids := (kids parent).
Abbreviation children_first := (children_first parent).
Abbreviation left_kids := (left_kids parent).
Abbreviation plan_ok := (plan_ok parent).
Abbreviation eligible_loop := (eligible_loop parent).

Lemma children_first_snoc nodes l t :
  children_first nodes l → (∀ q, q ∈ kids nodes t → q ∈ l) → children_first nodes (l ++ [t]).
Proof.
  intros Hl Ht a t' b Heq q Hq. destruct b as [|x b _] using rev_ind.
  - apply app_inj_tail in Heq as [<- <-]. auto.
  - rewrite app_comm_cons, app_assoc in Heq. apply app_inj_tail in Heq as [-> _]. by apply (Hl a t' b).
Qed.

Lemma left_kids_nil nodes l c : left_kids nodes l c = [] ↔ ∀ q, q ∈ kids nodes c → q ∈ l.
Proof.
  unfold left_kids. split.
  - intros Hf q Hq. destruct (decide (q ∈ l)) as [?|Hn]; [done|].
    assert (q ∈ filter (.∉ l) (kids nodes c)) as Hin by (by apply list_elem_of_filter). rewrite Hf in Hin. by apply elem_of_nil in Hin.
  - intros H. apply filter_none. intros q Hq Hn. by apply Hn, H.
Qed.

Lemma filter_snoc_other (l k : list Tag) t : t ∉ k → filter (.∉ l ++ [t]) k = filter (.∉ l) k.
Proof.
  intros Ht. apply filter_ext_in. intros q Hq. rewrite elem_of_app, list_elem_of_singleton.
  split; [tauto|]. intros ? [?| ->]; done.
Qed.

Lemma left_kids_other nodes l t c : t ∉ kids nodes c → left_kids nodes (l ++ [t]) c = left_kids nodes l c.
Proof. apply filter_snoc_other. Qed.

Lemma left_kids_parent nodes l t c :
  t ∈ kids nodes c → t ∉ l → len (left_kids nodes (l ++ [t]) c) = len (left_kids nodes l c) - 1.
Proof.
  intros Ht Hl. pose proof (increasing_NoDup Descending _ (kids_increasing (parent := parent) nodes c)) as Hnd. unfold left_kids.
  apply list_elem_of_split in Ht as (k1 & k2 & Hk). rewrite Hk in *.
  apply NoDup_app in Hnd as (_ & Hd & [Hn _]%NoDup_cons).
  rewrite !filter_app, !filter_cons, decide_False, decide_True by (rewrite ?elem_of_app, ?list_elem_of_singleton; tauto).
  rewrite !filter_snoc_other; [|done|intros Hin; apply (Hd t Hin); by left]. rewrite !len_app, len_cons. lia.
Qed.

Lemma plan_step nodes C remaining t ready compact n :
  plan_ok nodes C remaining (t :: ready) compact → nodes !! t = Some n →
  let p := parent n in
  match remaining !! p with
  | None => plan_ok nodes C remaining ready (compact ++ [t])
  | Some k =>
      plan_ok nodes C (<[p := k - 1]> remaining) (if k - 1 =? 0 then ready ++ [p] else ready) (compact ++ [t])
  end.
Proof.
  intros [Hnd Hin Hcount Hdone Hord] Hn p.
  assert (t ∈ kids nodes p) as Htp by (apply elem_of_kids; eauto).
  assert (∀ c, c ≠ p → t ∉ kids nodes c) as Hother.
  { intros c Hc (m & Hm & Hpar)%elem_of_kids. apply Hc. rewrite Hn in Hm. by injection Hm as <-. }
  rewrite cons_middle, app_assoc in Hnd, Hin. assert (t ∉ compact) as Htc.
  { apply NoDup_app in Hnd as ((_ & Hd & _)%NoDup_app & _). intros Hc. apply (Hd t Hc). by left. }
  assert (t ∈ C) as HtC by (apply Hin; rewrite !elem_of_app, list_elem_of_singleton; auto).
  assert (children_first nodes (compact ++ [t])) as Hord'.
  { apply children_first_snoc; [done|]. apply left_kids_nil, Hdone; [done|]. rewrite elem_of_app. right. by left. }
  assert (∀ c, c ∈ C → c ∈ (compact ++ [t]) ++ ready ↔ left_kids nodes compact c = []) as Hdone'.
  { intros c Hc. rewrite <-(Hdone c Hc), <-app_assoc. done. }
  rewrite Hcount. destruct (decide (p ∈ C)) as [HpC|HpC].
  2: { split; try done; intros c.
       - rewrite Hcount. destruct (decide (c ∈ C)) as [Hc|]; [|done]. rewrite left_kids_other; [done|]. apply Hother. by intros ->.
       - intros Hc. rewrite Hdone', left_kids_other; [done|apply Hother; by intros ->|done]. }
  pose proof (left_kids_parent nodes compact t p Htp Htc) as Hlen. set (k := len (left_kids nodes compact p)) in *.
  assert (∀ c, c ∈ C → c ≠ p → left_kids nodes (compact ++ [t]) c = left_kids nodes compact c) as Hsame
    by (intros c Hc Hcp; apply left_kids_other, Hother, Hcp).
  assert (p ∉ (compact ++ [t]) ++ ready) as Hpn.
  { rewrite Hdone' by done. rewrite left_kids_nil. intros H. apply Htc, H, Htp. }
  assert (∀ c, <[p := k - 1]> remaining !! c =
    if decide (c ∈ C) then Some (len (left_kids nodes (compact ++ [t]) c)) else None) as Hcount'.
  { intros c. destruct (decide (c = p)) as [->|Hcp].
    - rewrite lookup_insert_eq, decide_True by done. by rewrite Hlen.
    - rewrite lookup_insert_ne, Hcount by done. destruct (decide (c ∈ C)); [by rewrite Hsame|done]. }
  destruct (Z.eqb_spec (k - 1) 0) as [Hz|Hz].
  - split; try done.
    + rewrite app_assoc. apply NoDup_app. split; [done|]. split; [|apply NoDup_singleton]. intros x Hx ->%list_elem_of_singleton. done.
    + intros x. rewrite app_assoc, elem_of_app, list_elem_of_singleton. intros [?| ->]; [by apply Hin|done].
    + intros c Hc. rewrite app_assoc, elem_of_app, list_elem_of_singleton. destruct (decide (c = p)) as [->|Hcp].
      * split; [|by auto]. intros _. rewrite Hz in Hlen. destruct (left_kids nodes (compact ++ [t]) p); [done|]. rewrite len_cons in Hlen.
        pose proof (len_nonneg l). lia.
      * rewrite (Hdone' c Hc), Hsame by done. naive_solver.
  - split; try done. intros c Hc. destruct (decide (c = p)) as [->|Hcp].
    + split; [done|]. intros He. rewrite He in Hlen. change (len []) with 0 in Hlen. lia.
    + rewrite (Hdone' c Hc), Hsame by done. done.
Qed.

Lemma eligible_loop_spec nodes C fuel remaining ready compact :
  NoDup C → (∀ t, t ∈ C → is_Some (nodes !! t)) → plan_ok nodes C remaining ready compact →
  (length C <= length compact + fuel)%nat →
  let out := eligible_loop fuel nodes remaining ready compact in
  NoDup out ∧ (∀ t, t ∈ out ↔ t ∈ C ∧ ∀ q, q ∈ kids nodes t → q ∈ out) ∧ children_first nodes out.
Proof.
  intros HC Hnodes. revert remaining ready compact.
  assert (∀ remaining compact, plan_ok nodes C remaining [] compact →
    NoDup compact ∧ (∀ t, t ∈ compact ↔ t ∈ C ∧ ∀ q, q ∈ kids nodes t → q ∈ compact) ∧ children_first nodes compact) as Hend.
  { intros remaining compact [Hnd Hin _ Hdone Hord]. rewrite app_nil_r in *. split_and!; try done. intros t. split.
    - intros Ht. pose proof (Hin t Ht) as HtC. split; [done|]. apply left_kids_nil. by apply Hdone.
    - intros [HtC Hk]. apply Hdone; [done|]. by apply left_kids_nil. }
  induction fuel as [|fuel IH]; intros remaining ready compact Hplan Hfuel; cbn [eligible_loop].
  - apply (Hend remaining). assert (ready = []) as ->; [|done].
    pose proof (plan_nodup _ _ _ _ _ Hplan) as Hnd. pose proof (NoDup_submseteq _ C Hnd (plan_in _ _ _ _ _ Hplan)) as Hs.
    apply submseteq_length in Hs. rewrite length_app in Hs. destruct ready; [done|]. simpl in Hs. lia.
  - destruct ready as [|t ready]; [by apply (Hend remaining)|].
    destruct (Hnodes t) as [n Hn]; [apply (plan_in _ _ _ _ _ Hplan); rewrite elem_of_app; right; by left|].
    pose proof (plan_step nodes C remaining t ready compact n Hplan Hn) as Hstep. cbv zeta in Hstep. rewrite Hn.
    destruct (remaining !! parent n) as [k|]; apply IH; try done; rewrite length_app; simpl; lia.
Qed.

(** The plan for the candidates [C], from the numbers of their children, is the
    set of candidates all of whose children are in it, children first. *)
Lemma branch_plan nodes C (count : Tag → Z) :
  NoDup C → (∀ t, t ∈ C → is_Some (nodes !! t)) → (∀ t, t ∈ C → count t = len (kids nodes t)) →
  let plan := eligible_loop (length C) nodes (list_to_map ((λ t, (t, count t)) <$> C)) (filter (λ t, count t = 0) C) [] in
  NoDup plan ∧ (∀ t, t ∈ plan ↔ t ∈ C ∧ ∀ q, q ∈ kids nodes t → q ∈ plan) ∧ children_first nodes plan.
Proof.
  intros HC Hnodes Hcount. apply eligible_loop_spec; [done|done| |done].
  assert (∀ c, left_kids nodes [] c = kids nodes c) as Hleft
    by (intros c; apply filter_all; intros x _; apply not_elem_of_nil).
  split; cbn [app].
  - by apply NoDup_filter.
  - by intros t [_ ?]%list_elem_of_filter.
  - intros c. rewrite Hleft. case_decide as Hc.
    + apply elem_of_list_to_map_1; [rewrite <-list_fmap_compose; unfold compose; cbn [fst]; by rewrite list_fmap_id|].
      rewrite <-Hcount by done. apply list_elem_of_fmap. eauto.
    + apply not_elem_of_list_to_map_1. rewrite <-list_fmap_compose. unfold compose. cbn [fst]. by rewrite list_fmap_id.
  - intros c Hc. rewrite Hleft, list_elem_of_filter, Hcount by done. split.
    + intros [Hz _]. destruct (kids nodes c); [done|]. rewrite len_cons in Hz. pose proof (len_nonneg l). lia.
    + by intros ->.
  - intros a t b Heq. by destruct a.
Qed.
End plan.

(** ** Depth-first readings *)

(** [preorder ch dead cs l]: [l] lists the forest with roots [cs], without the
    branches under [dead]. *)
Inductive preorder (ch : Tag → list Tag) (dead : gset Tag) : list Tag → list Tag → Prop :=
| pre_nil : preorder ch dead [] []
| pre_dead c cs l : c ∈ dead → preorder ch dead cs l → preorder ch dead (c :: cs) l
| pre_live c cs lc l :
    c ∉ dead → preorder ch dead (ch c) lc → preorder ch dead cs l → preorder ch dead (c :: cs) (c :: lc ++ l).

Lemma preorder_app_inv ch dead cs cs' l :
  preorder ch dead (cs ++ cs') l → ∃ l1 l2, l = l1 ++ l2 ∧ preorder ch dead cs l1 ∧ preorder ch dead cs' l2.
Proof.
  revert l. induction cs as [|c cs IH]; intros l H; simpl in H.
  - exists [], l. split; [done|]. split; [constructor|done].
  - inversion H as [|? ? ? Hc Hl|? ? lc l0 Hc Hlc Hl]; subst.
    + destruct (IH l Hl) as (l1 & l2 & -> & H1 & H2). exists l1, l2. split; [done|]. split; [by constructor|done].
    + destruct (IH l0 Hl) as (l1 & l2 & -> & H1 & H2). exists (c :: lc ++ l1), l2. split; [by rewrite app_comm_cons, app_assoc|].
      split; [by constructor|done].
Qed.

Lemma preorder_functional ch dead cs l l' : preorder ch dead cs l → preorder ch dead cs l' → l = l'.
Proof.
  intros H. revert l'. induction H as [|c cs l Hc _ IH|c cs lc l Hc _ IHc _ IHl]; intros l' H'; inversion H'; subst; try done.
  - by apply IH.
  - by rewrite (IHc lc0), (IHl l0).
Qed.

Lemma preorder_ext ch ch' dead cs l :
  (∀ p, ch p = ch' p) → preorder ch dead cs l → preorder ch' dead cs l.
Proof. intros Hch. induction 1 as [| |c cs lc l Hc _ IHc _ IHl]; [by constructor..|].
  apply pre_live; [done| |done]. by rewrite <-Hch.
Qed.

Lemma preorder_top ch dead cs l c : preorder ch dead cs l → c ∈ cs → c ∉ dead → c ∈ l.
Proof.
  induction 1 as [|x cs l Hx _ IH|x cs lc l Hx _ _ _ IH]; [by intros ?%elem_of_nil|..];
    intros [->|Hc]%elem_of_cons Hd; [done|auto|by left|]. right. apply elem_of_app. auto.
Qed.

Lemma preorder_below ch dead cs l p q : preorder ch dead cs l → p ∈ l → q ∈ ch p → q ∉ dead → q ∈ l.
Proof.
  induction 1 as [|c cs l Hc _ IH|c cs lc l Hc Hlc IHc _ IHl]; [by intros ?%elem_of_nil|auto|].
  rewrite elem_of_cons, elem_of_app. intros [->|[Hp|Hp]] Hq Hd; right; apply elem_of_app.
  - left. by apply (preorder_top ch dead (ch c)).
  - auto.
  - auto.
Qed.

(** The stack of a depth-first loop. *)
Section stack.
Context {V : Type} (parent : V → Tag) (nodes : gmap Tag V) (ch : Tag → list Tag).
Hypothesis ch_spec : ∀ p q, q ∈ ch p ↔ ∃ n, nodes !! q = Some n ∧ parent n = p.
Hypothesis ch_nodup : ∀ p, NoDup (ch p).
Hypothesis no_root : nodes !! zeroTag = None.

(** The popped nodes [D] and the stacked ones are distinct nodes whose parents
    have been popped. *)
Record stack_ok (D stack : list Tag) : Prop := {
  stack_nodup : NoDup (D ++ stack);
  stack_parent x : x ∈ D ++ stack → ∃ n, nodes !! x = Some n ∧ (parent n = zeroTag ∨ parent n ∈ D)
}.

Lemma stack_skip D id stack : stack_ok D (id :: stack) → stack_ok (D ++ [id]) stack.
Proof using.
  intros [Hnd Hp]. split; [by rewrite <-app_assoc|]. intros x. rewrite <-app_assoc. intros Hx.
  destruct (Hp x Hx) as (n & Hn & [?|?]); exists n; (split; [done|]); [by left|right; apply elem_of_app; by left].
Qed.

Lemma stack_push D id stack : stack_ok D (id :: stack) → stack_ok (D ++ [id]) (ch id ++ stack).
Proof using ch_spec ch_nodup no_root.
  intros Hs. pose proof (stack_skip D id stack Hs) as [Hnd Hp]. destruct Hs as [Hnd0 Hp0].
  assert (∀ x, x ∈ ch id → x ∉ (D ++ [id]) ++ stack) as Hfresh.
  { intros x (n & Hn & Hpar)%ch_spec Hx. rewrite <-app_assoc in Hx. destruct (Hp0 x Hx) as (n' & Hn' & Hq).
    rewrite Hn in Hn'. injection Hn' as <-. rewrite Hpar in Hq. destruct Hq as [->|Hq].
    - destruct (Hp0 zeroTag) as (m & Hm & _); [apply elem_of_app; right; by left|]. congruence.
    - apply NoDup_app in Hnd0 as (_ & Hd & _). apply (Hd id Hq). by left. }
  split.
  - rewrite app_assoc. rewrite (Permutation_app_comm (D ++ [id]) (ch id)), <-app_assoc.
    apply NoDup_app. split; [done|]. split; [done|done].
  - intros x. rewrite app_assoc, !elem_of_app. intros Hx. destruct (decide (x ∈ ch id)) as [Hc|Hc].
    + apply ch_spec in Hc as (n & Hn & Hpar). exists n. split; [done|]. right. rewrite Hpar. apply elem_of_app. right. by left.
    + apply Hp. rewrite !elem_of_app. tauto.
Qed.

Lemma stack_bound D stack : stack_ok D stack → (length D + length stack <= size nodes)%nat.
Proof using.
  intros [Hnd Hp]. rewrite <-length_app, <-(size_list_to_set (C := gset Tag) (D ++ stack)), <-size_dom by done.
  apply subseteq_size. intros x Hx%elem_of_list_to_set. apply elem_of_dom. destruct (Hp x Hx) as (n & -> & _). eauto.
Qed.
End stack.
