(* ===== verification/Sequence.v ===== *)
(** * The sequence index of the text RGA

    Models src/text/sequence.go. Each RGA node owns an entry and an exit marker.
    The markers are Go objects that hang together in two ways: the [prev] and
    [next] links make a list, the [left], [right] and [parent] links make an
    implicit treap whose in-order traversal is the same list. Here the list is
    [si_links] and the treap [si_root]; a marker is named by its position and
    side, so a pointer to a marker is a [markerID], and a write to a marker is
    made in both views. *)

From S2P Require Import Prelude Tags.

(** [Position] *)
Abbreviation Position := Tag.
Abbreviation markerID := (Position * bool)%type.

(** [sequenceMarker], without its links: [mk_exit] tells an exit from an entry. *)
Record sequenceMarker := mkMarker {
  mk_position : Position;
  mk_exit : bool;
  mk_visible : bool;
  mk_priority : Z
}.

Definition marker_id (m : sequenceMarker) : markerID := (mk_position m, mk_exit m).

(** The treap: [left], the marker, [right], and the cached [markers] and
    [visibleN]. *)
Inductive seqTree :=
| MNil
| MNode (left : seqTree) (marker : sequenceMarker) (right : seqTree) (markers visibleN : Z).

(** [sequencePair], named by its position. *)
Record sequencePair := mkPair { sp_position : Position; sp_singleChild : ptr Position }.

(** [sequenceIndex] *)
Record sequenceIndex := mkIndex {
  si_root : seqTree;
  si_links : list sequenceMarker;
  si_pairs : gmap Position sequencePair
}.

(** ** Priorities *)

(** [mixMarkerPriority] *)
Definition mixMarkerPriority (value : Z) : Z :=
  let value := Z.lxor value (Z.shiftr value 30) in
  let value := u64 (value * 0xbf58476d1ce4e5b9) in
  let value := Z.lxor value (Z.shiftr value 27) in
  let value := u64 (value * 0x94d049bb133111eb) in
  Z.lxor value (Z.shiftr value 31).

(** [markerPriorities] *)
Definition markerPriorities (position : Position) : Z * Z :=
  let value := foldl (λ value b, u64 (Z.lxor value (byteZ b) * 0x100000001b3)) 0x9e3779b97f4a7c15
                 (ReplicaID position) in
  let mix value x := Z.lxor value (u64 (x + 0x9e3779b97f4a7c15 + u64 (Z.shiftl value 6) + Z.shiftr value 2)) in
  let value := mix value (WallTime position) in
  let value := mix value (Logical position) in
  (mixMarkerPriority value, mixMarkerPriority (Z.lxor value 0xd6e8feb86659fd93)).

(** [initializeSequencePair], [newSequencePair]: the pair with its entry and
    exit markers. *)
Definition newSequencePair (position : Position) (visible : bool) : sequencePair * sequenceMarker * sequenceMarker :=
  let '(entryPriority, exitPriority) := markerPriorities position in
  (mkPair position None, mkMarker position false visible entryPriority, mkMarker position true false exitPriority).

(** ** The treap *)

(** [markerCount], [visibleCount] *)
Definition markerCount (t : seqTree) : Z := match t with MNil => 0 | MNode _ _ _ n _ => n end.
Definition visibleCount (t : seqTree) : Z := match t with MNil => 0 | MNode _ _ _ _ v => v end.

(** [refreshMarker]: the marker with these children and its counts. *)
Definition refreshMarker (left : seqTree) (m : sequenceMarker) (right : seqTree) : seqTree :=
  MNode left m right (1 + markerCount left + markerCount right)
    (visibleCount left + visibleCount right + (if mk_visible m then 1 else 0)).

(** [mergeMarkers] *)
Fixpoint mergeMarkers (left : seqTree) : seqTree → seqTree :=
  match left with
  | MNil => λ right, right
  | MNode ll lm lr _ _ =>
      fix merge_right (right : seqTree) : seqTree :=
        match right with
        | MNil => left
        | MNode rl rm rr _ _ =>
            if mk_priority rm <? mk_priority lm then refreshMarker ll lm (mergeMarkers lr right)
            else refreshMarker (merge_right rl) rm rr
        end
  end.

(** [splitMarkers] *)
Fixpoint splitMarkers (root : seqTree) (count : Z) : seqTree * seqTree :=
  match root with
  | MNil => (MNil, MNil)
  | MNode l m r _ _ =>
      let leftCount := markerCount l in
      if count <=? leftCount then
        let '(lo, hi) := splitMarkers l count in (lo, refreshMarker hi m r)
      else
        let '(lo, hi) := splitMarkers r (count - leftCount - 1) in (refreshMarker l m lo, hi)
  end.

(** A [parent] link, seen from the child: the parent and its other subtree. *)
Inductive parentLink :=
| LeftOf (m : sequenceMarker) (right : seqTree)
| RightOf (left : seqTree) (m : sequenceMarker).

(** The subtree a marker is the root of, and the links from it to the root. *)
Fixpoint locate (t : seqTree) (id : markerID) : option (seqTree * list parentLink) :=
  match t with
  | MNil => None
  | MNode l m r _ _ =>
      if decide (marker_id m = id) then Some (t, [])
      else match locate l id with
      | Some (s, up) => Some (s, up ++ [LeftOf m r])
      | None =>
          match locate r id with
          | Some (s, up) => Some (s, up ++ [RightOf l m])
          | None => None
          end
      end
  end.

Definition left_of (t : seqTree) : seqTree := match t with MNil => MNil | MNode l _ _ _ _ => l end.

(** [markerRank] *)
Definition rank_step (rank : Z) (link : parentLink) : Z :=
  match link with LeftOf _ _ => rank | RightOf l _ => rank + (1 + markerCount l) end.
Definition markerRank (root : seqTree) (marker : markerID) : Z :=
  match locate root marker with
  | None => 0
  | Some (s, up) => foldl rank_step (markerCount (left_of s)) up
  end.

(** [visibleRank] *)
Definition visible_rank_step (rank : Z) (link : parentLink) : Z :=
  match link with
  | LeftOf _ _ => rank
  | RightOf l m => rank + visibleCount l + (if mk_visible m then 1 else 0)
  end.
Definition visibleRank (root : seqTree) (marker : markerID) : Z :=
  match locate root marker with
  | None => 0
  | Some (s, up) => foldl visible_rank_step (visibleCount (left_of s)) up
  end.

(** [refreshMarker] along the parent links. *)
Definition refresh_up (t : seqTree) (link : parentLink) : seqTree :=
  match link with LeftOf m r => refreshMarker t m r | RightOf l m => refreshMarker l m t end.

(** The right spine that [markerTree] and [appendLinearMarkerToTree] keep, top
    first: a marker on it has its left subtree, and the markers above it will be
    its right one. A new marker takes the popped part as its left subtree. *)
Fixpoint pop_spine (spine : list (seqTree * sequenceMarker)) (priority : Z) (left : seqTree)
    : list (seqTree * sequenceMarker) * seqTree :=
  match spine with
  | (l, m) :: spine' =>
      if mk_priority m <? priority then pop_spine spine' priority (refreshMarker l m left) else (spine, left)
  | [] => ([], left)
  end.
Definition appendLinearMarkerToTree (spine : list (seqTree * sequenceMarker)) (marker : sequenceMarker)
    : list (seqTree * sequenceMarker) :=
  let '(spine, popped) := pop_spine spine (mk_priority marker) MNil in (popped, marker) :: spine.

(** [markerTree] *)
Definition markerTree (markers : list sequenceMarker) : seqTree :=
  foldl (λ t e, refreshMarker e.1 e.2 t) MNil (foldl appendLinearMarkerToTree [] markers).

(** ** The index *)

(** [newSequenceIndex] *)
Definition newSequenceIndex : sequenceIndex :=
  let '(p, entry, exit) := newSequencePair zeroTag false in
  mkIndex (mergeMarkers (refreshMarker MNil entry MNil) (refreshMarker MNil exit MNil)) [entry; exit]
    {[zeroTag := p]}.

(** [sequenceIndex.pair], [entry], [exit], [has] *)
Definition si_pair (index : sequenceIndex) (position : Position) : ptr sequencePair := si_pairs index !! position.
Definition si_entry (index : sequenceIndex) (position : Position) : ptr markerID :=
  match si_pair index position with None => None | Some _ => Some (position, false) end.
Definition si_exit (index : sequenceIndex) (position : Position) : ptr markerID :=
  match si_pair index position with None => None | Some _ => Some (position, true) end.
Definition si_has (index : sequenceIndex) (position : Position) : bool :=
  bool_decide (is_Some (si_pairs index !! position)).

(** Linking markers in after [anchor]. *)
Fixpoint link_after (anchor : markerID) (markers links : list sequenceMarker) : list sequenceMarker :=
  match links with
  | [] => []
  | m :: links' =>
      if decide (marker_id m = anchor) then m :: markers ++ links' else m :: link_after anchor markers links'
  end.

(** [insertLinearMarkersAfter] and [insertLinearPairsAfter]: the markers of a
    chain of pairs are its entries in order and its exits in reverse order. *)
Definition insertLinearMarkersAfter (index : sequenceIndex) (anchor : ptr markerID)
    (markers : list sequenceMarker) (pairs : list sequencePair) : sequenceIndex :=
  match anchor with
  | None => index
  | Some anchor =>
      if (len pairs =? 0) || negb (len markers =? len pairs * 2) then index
      else
        let '(lo, hi) := splitMarkers (si_root index) (markerRank (si_root index) anchor + 1) in
        mkIndex (mergeMarkers (mergeMarkers lo (markerTree markers)) hi)
          (link_after anchor markers (si_links index))
          (foldl (λ ps p, <[sp_position p := p]> ps) (si_pairs index) pairs)
  end.

(** [insertPairAfter] *)
Definition insertPairAfter (index : sequenceIndex) (anchor : ptr markerID)
    (pair : sequencePair * sequenceMarker * sequenceMarker) : sequenceIndex :=
  let '(p, entry, exit) := pair in insertLinearMarkersAfter index anchor [entry; exit] [p].

(** [insertLinearPairsAfter] *)
Definition insertLinearPairsAfter (index : sequenceIndex) (anchor : ptr markerID)
    (pairs : list (sequencePair * sequenceMarker * sequenceMarker)) : sequenceIndex :=
  insertLinearMarkersAfter index anchor (((λ p, p.1.2) <$> pairs) ++ reverse ((λ p, p.2) <$> pairs))
    ((λ p, p.1.1) <$> pairs).

(** [sequenceIndex.setVisible] *)
Definition set_visible (position : Position) (visible : bool) (m : sequenceMarker) : sequenceMarker :=
  if decide (marker_id m = (position, false)) then mkMarker (mk_position m) (mk_exit m) visible (mk_priority m)
  else m.
Definition setVisible (index : sequenceIndex) (position : Position) (visible : bool) : sequenceIndex :=
  match si_entry index position with
  | None => index
  | Some entry =>
      match locate (si_root index) entry with
      | Some (MNode l m r _ _, up) =>
          if eqb (mk_visible m) visible then index
          else mkIndex (foldl refresh_up (refreshMarker l (set_visible position visible m) r) up)
                 (set_visible position visible <$> si_links index) (si_pairs index)
      | _ => index
      end
  end.

(** [next] and [prev] of a marker. *)
Fixpoint next_marker (links : list sequenceMarker) (id : markerID) : ptr markerID :=
  match links with
  | [] => None
  | m :: links' => if decide (marker_id m = id) then marker_id <$> head links' else next_marker links' id
  end.
Fixpoint prev_marker (before : ptr markerID) (links : list sequenceMarker) (id : markerID) : ptr markerID :=
  match links with
  | [] => None
  | m :: links' => if decide (marker_id m = id) then before else prev_marker (Some (marker_id m)) links' id
  end.

(** Unlinking a marker and the one after it. *)
Fixpoint unlink (id : markerID) (links : list sequenceMarker) : list sequenceMarker :=
  match links with
  | [] => []
  | m :: links' => if decide (marker_id m = id) then drop 1 links' else m :: unlink id links'
  end.

(** [sequenceIndex.removeLeaf]; [None] is the result [false]. *)
Definition removeLeaf (index : sequenceIndex) (position : Position) : option sequenceIndex :=
  match si_entry index position, si_exit index position with
  | Some entry, Some exit =>
      if negb (bool_decide (next_marker (si_links index) entry = Some exit)) then None
      else match prev_marker None (si_links index) entry with
      | None => None
      | Some _ =>
          let '(lo, rest) := splitMarkers (si_root index) (markerRank (si_root index) entry) in
          let '(_, hi) := splitMarkers rest 2 in
          Some (mkIndex (mergeMarkers lo hi) (unlink entry (si_links index)) (delete position (si_pairs index)))
      end
  | _, _ => None
  end.

(** [sequenceIndex.visibleAt] *)
Fixpoint visible_walk (current : seqTree) (offset : Z) : option Position :=
  match current with
  | MNil => None
  | MNode l m r _ _ =>
      let leftVisible := visibleCount l in
      if offset <? leftVisible then visible_walk l offset
      else
        let offset := offset - leftVisible in
        if mk_visible m then
          if offset =? 0 then Some (mk_position m) else visible_walk r (offset - 1)
        else visible_walk r offset
  end.
Definition visibleAt (index : sequenceIndex) (offset : Z) : option Position :=
  if (offset <? 0) || (visibleCount (si_root index) <=? offset) then None
  else visible_walk (si_root index) offset.

(** The markers from the root's entry on. *)
Fixpoint links_after (links : list sequenceMarker) (id : markerID) : list sequenceMarker :=
  match links with
  | [] => []
  | m :: links' => if decide (marker_id m = id) then links' else links_after links' id
  end.

Definition is_visible (m : sequenceMarker) : Prop := mk_visible m = true.
#[export] Instance is_visible_dec m : Decision (is_visible m).
Proof. unfold is_visible. apply _. Defined.

(** [sequenceIndex.visiblePositions] *)
Definition visiblePositions (index : sequenceIndex) : list Position :=
  mk_position <$> filter is_visible (links_after (si_links index) (zeroTag, false)).
