(* ===== verification/SequenceTheory.v ===== *)
(** * The sequence index is a list

    The treap operations of Sequence.v against the in-order list: splits are
    [take] and [drop], merges are [++], the walks find the index of a marker or
    the n-th visible position. *)

From S2P Require Import Prelude Tags Sequence.

Fixpoint inorder (t : seqTree) : list sequenceMarker :=
  match t with MNil => [] | MNode l m r _ _ => inorder l ++ m :: inorder r end.

Lemma len_visible_cons m l :
  len (filter is_visible (m :: l)) = (if mk_visible m then 1 else 0) + len (filter is_visible l).
Proof.
  rewrite filter_cons. case_decide as Hm; unfold is_visible in Hm; destruct (mk_visible m); [|done..|].
  - by rewrite len_cons.
  - done.
Qed.

(** The cached counts are right. *)
Fixpoint counts_right (t : seqTree) : Prop :=
  match t with
  | MNil => True
  | MNode l m r n v =>
      n = len (inorder t) ∧ v = len (filter is_visible (inorder t)) ∧ counts_right l ∧ counts_right r
  end.

Lemma markerCount_len t : counts_right t → markerCount t = len (inorder t).
Proof. destruct t; [done|]. by intros [? _]. Qed.

Lemma visibleCount_len t : counts_right t → visibleCount t = len (filter is_visible (inorder t)).
Proof. destruct t; [done|]. by intros (_ & ? & _). Qed.

Lemma inorder_refresh l m r : inorder (refreshMarker l m r) = inorder l ++ m :: inorder r.
Proof. done. Qed.

Lemma counts_refresh l m r : counts_right l → counts_right r → counts_right (refreshMarker l m r).
Proof.
  intros Hl Hr. simpl. rewrite !markerCount_len, !visibleCount_len by done.
  split_and!; [|..|done|done].
  - rewrite len_app, len_cons. lia.
  - rewrite filter_app, len_app, len_visible_cons. lia.
Qed.

(** ** Merge and split *)

Lemma merge_MNil_r t : mergeMarkers t MNil = t.
Proof. by destruct t. Qed.

Lemma merge_inorder a b : inorder (mergeMarkers a b) = inorder a ++ inorder b.
Proof.
  revert b. induction a as [|ll IHll lm lr IHlr ln lv]; [done|]. intros b.
  induction b as [|rl IHrl rm rr IHrr rn rv]; [by rewrite merge_MNil_r, app_nil_r|].
  simpl. case_match; rewrite inorder_refresh.
  - rewrite IHlr. simpl. by rewrite <-!app_assoc.
  - change (inorder (mergeMarkers (MNode ll lm lr ln lv) rl) ++ rm :: inorder rr =
      (inorder ll ++ lm :: inorder lr) ++ inorder rl ++ rm :: inorder rr).
    rewrite IHrl. simpl. by rewrite <-!app_assoc.
Qed.

Lemma merge_counts a b : counts_right a → counts_right b → counts_right (mergeMarkers a b).
Proof.
  revert b. induction a as [|ll IHll lm lr IHlr ln lv]; [done|]. intros b Ha.
  induction b as [|rl IHrl rm rr IHrr rn rv]; [done|]. intros Hb.
  cbn [mergeMarkers]. case_match; apply counts_refresh.
  - apply Ha.
  - apply IHlr; [apply Ha|done].
  - apply IHrl, Hb.
  - apply Hb.
Qed.

Lemma split_spec t n :
  counts_right t →
  counts_right (splitMarkers t n).1 ∧ counts_right (splitMarkers t n).2 ∧
  inorder (splitMarkers t n).1 = take (Z.to_nat n) (inorder t) ∧
  inorder (splitMarkers t n).2 = drop (Z.to_nat n) (inorder t).
Proof.
  revert n. induction t as [|l IHl m r IHr tn tv]; intros n Ht; simpl; [by rewrite take_nil, drop_nil|].
  destruct Ht as (_ & _ & Hl & Hr). rewrite markerCount_len by done. unfold len.
  destruct (Z.leb_spec n (Z.of_nat (length (inorder l)))).
  - destruct (IHl n Hl) as (H1 & H2 & H3 & H4). destruct (splitMarkers l n) as [lo hi].
    split; [done|]. split; [by apply counts_refresh|]. simpl in *. rewrite H3, H4.
    rewrite take_app_le, drop_app_le by lia. done.
  - destruct (IHr (n - Z.of_nat (length (inorder l)) - 1) Hr) as (H1 & H2 & H3 & H4).
    destruct (splitMarkers r _) as [lo hi].
    split; [by apply counts_refresh|]. split; [done|]. simpl in *. rewrite H3, H4.
    rewrite take_app_ge, drop_app_ge by lia.
    replace (Z.to_nat n - length (inorder l))%nat with
      (S (Z.to_nat (n - Z.of_nat (length (inorder l)) - 1))) by lia. done.
Qed.

(** ** Cartesian trees *)

Fixpoint spine_inorder (spine : list (seqTree * sequenceMarker)) : list sequenceMarker :=
  match spine with [] => [] | (l, m) :: spine' => spine_inorder spine' ++ inorder l ++ [m] end.

Lemma pop_spine_spec spine p t :
  let '(spine', t') := pop_spine spine p t in
  spine_inorder spine' ++ inorder t' = spine_inorder spine ++ inorder t ∧
  (Forall (λ e, counts_right e.1) spine → counts_right t →
   Forall (λ e, counts_right e.1) spine' ∧ counts_right t').
Proof.
  revert t. induction spine as [|[l m] spine IH]; intros t; simpl; [done|]. destruct (mk_priority m <? p); [|done].
  specialize (IH (refreshMarker l m t)). destruct (pop_spine _ _ _) as [spine' t']. destruct IH as [-> IH].
  split; [rewrite inorder_refresh, <-!app_assoc; done|]. intros [Hl Hs]%Forall_cons Ht. apply IH; [done|].
  by apply counts_refresh.
Qed.

Lemma spine_fold_spec spine markers :
  spine_inorder (foldl appendLinearMarkerToTree spine markers) = spine_inorder spine ++ markers ∧
  (Forall (λ e, counts_right e.1) spine →
   Forall (λ e, counts_right e.1) (foldl appendLinearMarkerToTree spine markers)).
Proof.
  revert spine. induction markers as [|m markers IH]; intros spine; simpl; [by rewrite app_nil_r|].
  destruct (IH (appendLinearMarkerToTree spine m)) as [-> Hf]. unfold appendLinearMarkerToTree in *.
  pose proof (pop_spine_spec spine (mk_priority m) MNil) as Hp. destruct (pop_spine _ _ _) as [spine' t'].
  destruct Hp as [Heq Hc]. simpl in *. rewrite app_nil_r in Heq. split.
  - rewrite (app_assoc (spine_inorder spine')), Heq, <-app_assoc. done.
  - intros Hs. apply Hf. destruct (Hc Hs I). by constructor.
Qed.

Lemma spine_tree_spec spine t :
  inorder (foldl (λ t e, refreshMarker e.1 e.2 t) t spine) = spine_inorder spine ++ inorder t ∧
  (Forall (λ e, counts_right e.1) spine → counts_right t →
   counts_right (foldl (λ t e, refreshMarker e.1 e.2 t) t spine)).
Proof.
  revert t. induction spine as [|[l m] spine IH]; intros t; simpl; [done|].
  destruct (IH (refreshMarker l m t)) as [-> Hf]. split; [rewrite inorder_refresh, <-!app_assoc; done|].
  intros [Hl Hs]%Forall_cons Ht. apply Hf; [done|]. by apply counts_refresh.
Qed.

(** [markerTree] arranges its markers in the given order. *)
Lemma markerTree_spec markers : inorder (markerTree markers) = markers ∧ counts_right (markerTree markers).
Proof.
  unfold markerTree. destruct (spine_fold_spec [] markers) as [Hi Hc].
  destruct (spine_tree_spec (foldl appendLinearMarkerToTree [] markers) MNil) as [-> Hc'].
  rewrite Hi. simpl. rewrite app_nil_r. split; [done|]. apply Hc'; [by apply Hc|done].
Qed.

(** ** Parent links *)

Definition before_link (link : parentLink) : list sequenceMarker :=
  match link with LeftOf _ _ => [] | RightOf l m => inorder l ++ [m] end.
Definition after_link (link : parentLink) : list sequenceMarker :=
  match link with LeftOf m r => m :: inorder r | RightOf _ _ => [] end.
Definition link_right (link : parentLink) : Prop :=
  match link with LeftOf _ r => counts_right r | RightOf l _ => counts_right l end.

Definition before_up (up : list parentLink) : list sequenceMarker := concat (reverse (before_link <$> up)).
Definition after_up (up : list parentLink) : list sequenceMarker := concat (after_link <$> up).

Lemma before_up_snoc up link : before_up (up ++ [link]) = before_link link ++ before_up up.
Proof. unfold before_up. by rewrite fmap_app, reverse_app. Qed.

Lemma after_up_snoc up link : after_up (up ++ [link]) = after_up up ++ after_link link.
Proof. unfold after_up. rewrite fmap_app, concat_app. simpl. by rewrite app_nil_r. Qed.

Lemma locate_Some t id s up :
  locate t id = Some (s, up) →
  ∃ l m r n v, s = MNode l m r n v ∧ marker_id m = id ∧
    inorder t = before_up up ++ inorder s ++ after_up up ∧
    (counts_right t → counts_right s ∧ Forall link_right up).
Proof.
  revert up. induction t as [|l IHl m r IHr n v]; intros up; [done|]. simpl. case_decide as Hid.
  { intros [= <- <-]. exists l, m, r, n, v. split; [done|]. split; [done|].
    unfold after_up, before_up. simpl. rewrite app_nil_r. done. }
  destruct (locate l id) as [[s' up']|] eqn:El.
  - intros [= <- <-]. destruct (IHl up' eq_refl) as (l0 & m0 & r0 & n0 & v0 & -> & Hm & Hin & Hc).
    exists l0, m0, r0, n0, v0. split; [done|]. split; [done|].
    rewrite before_up_snoc, after_up_snoc, Hin. simpl. rewrite <-!app_assoc. split; [done|].
    intros (_ & _ & Hcl & Hcr). destruct (Hc Hcl). split; [done|]. apply Forall_app. split; [done|].
    by apply Forall_singleton.
  - destruct (locate r id) as [[s' up']|] eqn:Er; [|done]. intros [= <- <-].
    destruct (IHr up' eq_refl) as (l0 & m0 & r0 & n0 & v0 & -> & Hm & Hin & Hc).
    exists l0, m0, r0, n0, v0. split; [done|]. split; [done|].
    rewrite before_up_snoc, after_up_snoc, Hin. simpl. rewrite <-!app_assoc. simpl. rewrite app_nil_r. split; [done|].
    intros (_ & _ & Hcl & Hcr). destruct (Hc Hcr). split; [done|]. apply Forall_app. split; [done|].
    by apply Forall_singleton.
Qed.

Lemma locate_None t id : locate t id = None → id ∉ (marker_id <$> inorder t).
Proof.
  induction t as [|l IHl m r IHr n v]; simpl; [intros _; apply not_elem_of_nil|]. case_decide as Hid; [done|].
  destruct (locate l id) as [[]|]; [done|]. destruct (locate r id) as [[]|]; [done|]. intros _.
  rewrite fmap_app, fmap_cons, elem_of_app, elem_of_cons. intros [?|[?|?]]; [by apply IHl|done|by apply IHr].
Qed.

(** ** The list of markers *)

Abbreviation ids l := (marker_id <$> l).

(** Where a marker is in a list without repetitions. *)
Lemma ids_split (a b a' b' : list sequenceMarker) m m' :
  NoDup (ids (a ++ m :: b)) → a ++ m :: b = a' ++ m' :: b' → marker_id m = marker_id m' →
  a = a' ∧ m = m' ∧ b = b'.
Proof.
  revert a'. induction a as [|x a IH]; intros [|x' a'] Hnd [= -> Heq] Hm; simpl in *.
  - done.
  - apply NoDup_cons in Hnd as [Hn _]. destruct Hn. rewrite Heq, fmap_app, fmap_cons, elem_of_app, elem_of_cons. auto.
  - apply NoDup_cons in Hnd as [Hn _]. destruct Hn. rewrite fmap_app, fmap_cons, elem_of_app, elem_of_cons. auto.
  - apply NoDup_cons in Hnd as [_ Hnd]. destruct (IH a' Hnd Heq Hm) as (-> & -> & ->). done.
Qed.

Lemma ids_elem l id : id ∈ ids l → ∃ a m b, l = a ++ m :: b ∧ marker_id m = id.
Proof.
  intros (m & -> & Hm)%list_elem_of_fmap. apply list_elem_of_split in Hm as (a & b & ->). eauto.
Qed.

Section lists.
Context (a b : list sequenceMarker) (m : sequenceMarker) (Hnd : NoDup (ids (a ++ m :: b))).

Lemma not_before x : x ∈ a → marker_id x ≠ marker_id m.
Proof.
  intros Hx Heq. rewrite fmap_app, fmap_cons in Hnd. apply NoDup_app in Hnd as (_ & Hd & _).
  apply (Hd (marker_id x)); [by apply list_elem_of_fmap_2|]. rewrite Heq. by left.
Qed.

(** A loop that passes over the markers before [m]. *)
Ltac pass_before := induction a as [|x a' IH]; simpl in *; intros;
  [by rewrite decide_True|
   apply NoDup_cons in Hnd as [Hn Hnd'];
   rewrite decide_False by (intros Heq; destruct Hn; rewrite Heq, fmap_app, fmap_cons, elem_of_app, elem_of_cons; auto)].

Lemma link_after_spec ms : link_after (marker_id m) ms (a ++ m :: b) = a ++ m :: ms ++ b.
Proof using Hnd. pass_before. rewrite IH; done. Qed.

Lemma unlink_spec : unlink (marker_id m) (a ++ m :: b) = a ++ drop 1 b.
Proof using Hnd. pass_before. rewrite IH; done. Qed.

Lemma next_marker_spec : next_marker (a ++ m :: b) (marker_id m) = marker_id <$> head b.
Proof using Hnd. pass_before. rewrite IH; done. Qed.

Lemma links_after_spec : links_after (a ++ m :: b) (marker_id m) = b.
Proof using Hnd. pass_before. rewrite IH; done. Qed.

Lemma prev_marker_spec before :
  prev_marker before (a ++ m :: b) (marker_id m) = match last a with None => before | Some x => Some (marker_id x) end.
Proof using Hnd.
  revert before. pass_before. rewrite IH by done. rewrite last_cons. by destruct (last a').
Qed.
End lists.

(** ** The index *)

(** The two views of the index agree, the cached counts are right, and the
    pairs are those of the entries. *)
Definition seq_ok (index : sequenceIndex) : Prop :=
  inorder (si_root index) = si_links index ∧ counts_right (si_root index) ∧ NoDup (ids (si_links index)) ∧
  ∀ p, is_Some (si_pairs index !! p) ↔ (p, false) ∈ ids (si_links index).

Lemma before_up_cons link up : before_up (link :: up) = before_up up ++ before_link link.
Proof. unfold before_up. rewrite fmap_cons, reverse_cons, concat_app. simpl. by rewrite app_nil_r. Qed.

Lemma rank_fold up k : Forall link_right up → foldl rank_step k up = k + len (before_up up).
Proof.
  intros Hup. revert k. induction Hup as [|link up Hlink Hup IH]; intros k; simpl; [change (len (before_up [])) with 0; lia|].
  rewrite IH, before_up_cons, len_app. destruct link as [m r|l m]; cbn [rank_step visible_rank_step before_link]; [change (len (@nil sequenceMarker)) with 0; rewrite ?filter_nil; change (len (@nil sequenceMarker)) with 0; lia|].
  simpl in Hlink. rewrite markerCount_len, len_app, len_cons, len_nil by done. lia.
Qed.

Lemma visible_rank_fold up k :
  Forall link_right up → foldl visible_rank_step k up = k + len (filter is_visible (before_up up)).
Proof.
  intros Hup. revert k. induction Hup as [|link up Hlink Hup IH]; intros k; simpl; [change (len (filter is_visible (before_up []))) with 0; lia|].
  rewrite IH, before_up_cons, filter_app, len_app. destruct link as [m r|l m]; cbn [rank_step visible_rank_step before_link]; [change (len (@nil sequenceMarker)) with 0; rewrite ?filter_nil; change (len (@nil sequenceMarker)) with 0; lia|].
  simpl in Hlink. rewrite visibleCount_len, filter_app, len_app, len_visible_cons by done.
  change (len (filter is_visible [])) with 0. lia.
Qed.

(** A marker's place, seen along its parent links. *)
Lemma locate_place index a m b :
  seq_ok index → si_links index = a ++ m :: b →
  ∃ l r n v up, locate (si_root index) (marker_id m) = Some (MNode l m r n v, up) ∧
    a = before_up up ++ inorder l ∧ b = inorder r ++ after_up up ∧
    counts_right l ∧ counts_right r ∧ Forall link_right up.
Proof.
  intros (Hin & Hc & Hnd & _) Hl.
  destruct (locate _ _) as [[s up]|] eqn:E.
  2:{ apply locate_None in E. destruct E. rewrite Hin, Hl, fmap_app, fmap_cons, elem_of_app, elem_of_cons. auto. }
  apply locate_Some in E as (l & m' & r & n & v & -> & Hm & Hin' & Hc').
  destruct (Hc' Hc) as [(_ & _ & ? & ?) Hup]. clear Hc'. simpl in *.
  rewrite Hin, Hl in Hin'. rewrite <-!app_assoc in Hin'. simpl in Hin'. rewrite app_assoc in Hin'.
  rewrite Hl in Hnd. apply ids_split in Hin' as (-> & -> & ->); [|done..]. exists l, r, n, v, up. done.
Qed.

Lemma markerRank_spec index a m b :
  seq_ok index → si_links index = a ++ m :: b → markerRank (si_root index) (marker_id m) = len a.
Proof.
  intros Hok Hl. destruct (locate_place _ _ _ _ Hok Hl) as (l & r & n & v & up & E & -> & _ & Hcl & _ & Hup).
  unfold markerRank. rewrite E. simpl. rewrite rank_fold, markerCount_len, len_app by done. lia.
Qed.

(** [visibleRank] counts the visible markers before. *)
Lemma visibleRank_spec index a m b :
  seq_ok index → si_links index = a ++ m :: b →
  visibleRank (si_root index) (marker_id m) = len (filter is_visible a).
Proof.
  intros Hok Hl. destruct (locate_place _ _ _ _ Hok Hl) as (l & r & n & v & up & E & -> & _ & Hcl & _ & Hup).
  unfold visibleRank. rewrite E. simpl. rewrite visible_rank_fold, visibleCount_len, filter_app, len_app by done. lia.
Qed.

(** ** Insertion *)

Lemma pairs_fold (ps : gmap Position sequencePair) pairs p :
  is_Some (foldl (λ ps p, <[sp_position p := p]> ps) ps pairs !! p) ↔
  is_Some (ps !! p) ∨ p ∈ sp_position <$> pairs.
Proof.
  revert ps. induction pairs as [|q pairs IH]; intros ps; simpl; [rewrite elem_of_nil; naive_solver|].
  rewrite IH, elem_of_cons. destruct (decide (p = sp_position q)) as [->|Hne].
  - rewrite lookup_insert_eq. naive_solver.
  - rewrite lookup_insert_ne by done. naive_solver.
Qed.

Lemma insert_spec index a m b markers pairs :
  seq_ok index → si_links index = a ++ m :: b → pairs ≠ [] → len markers = len pairs * 2 →
  NoDup (ids markers) → (∀ id, id ∈ ids markers → id ∉ ids (si_links index)) →
  (∀ p, p ∈ sp_position <$> pairs ↔ (p, false) ∈ ids markers) →
  let index' := insertLinearMarkersAfter index (Some (marker_id m)) markers pairs in
  seq_ok index' ∧ si_links index' = a ++ m :: markers ++ b ∧
  si_pairs index' = foldl (λ ps p, <[sp_position p := p]> ps) (si_pairs index) pairs.
Proof.
  intros Hok Hl Hne Hlen Hnd' Hfresh Hps index'. pose proof Hok as (Hin & Hc & Hnd & Hpairs).
  unfold index', insertLinearMarkersAfter. rewrite (markerRank_spec _ _ _ _ Hok Hl).
  assert (len pairs ≠ 0) by (destruct pairs; [done|]; rewrite len_cons; pose proof (len_nonneg pairs); lia).
  guard_false. destruct (split_spec (si_root index) (len a + 1) Hc) as (Hc1 & Hc2 & Hs1 & Hs2).
  destruct (splitMarkers _ _) as [lo hi]. simpl in *.
  replace (Z.to_nat (len a + 1)) with (S (length a)) in Hs1, Hs2 by (unfold len; lia).
  rewrite Hin, Hl in Hs1, Hs2.
  assert (Htake : take (S (length a)) (a ++ m :: b) = a ++ [m]).
  { rewrite cons_middle, app_assoc. apply take_app_length'. rewrite length_app. simpl. lia. }
  assert (Hdrop : drop (S (length a)) (a ++ m :: b) = b).
  { rewrite cons_middle, app_assoc. apply drop_app_length'. rewrite length_app. simpl. lia. }
  rewrite Htake in Hs1. rewrite Hdrop in Hs2. destruct (markerTree_spec markers) as [Hm1 Hm2].
  rewrite Hl in Hnd. rewrite (Hl : si_links index = _), link_after_spec by done.
  assert (Hids : ids (a ++ m :: markers ++ b) ≡ₚ ids markers ++ ids (a ++ m :: b)).
  { rewrite !fmap_app, !fmap_cons, !fmap_app. solve_Permutation. }
  split; [|done]. split_and!; cbn [si_root si_links si_pairs].
  - rewrite !merge_inorder, Hs1, Hm1, Hs2, <-!app_assoc. done.
  - by repeat apply merge_counts.
  - rewrite Hids. apply NoDup_app. split; [done|]. split; [|done]. rewrite <-Hl. exact Hfresh.
  - intros p. rewrite pairs_fold, Hids, elem_of_app, Hps, Hpairs, Hl. tauto.
Qed.

(** ** Visibility *)

Lemma set_visible_id p v m : marker_id (set_visible p v m) = marker_id m.
Proof. unfold set_visible. by case_decide. Qed.

Lemma set_visible_other p v m : marker_id m ≠ (p, false) → set_visible p v m = m.
Proof. intros Hm. unfold set_visible. by rewrite decide_False. Qed.

Lemma set_visible_same p v m : mk_visible m = v → set_visible p v m = m.
Proof. intros <-. unfold set_visible. case_decide; by destruct m. Qed.

Lemma ids_set_visible p v (l : list sequenceMarker) : ids (set_visible p v <$> l) = ids l.
Proof. rewrite <-list_fmap_compose. apply list_fmap_ext. intros _ m _. apply set_visible_id. Qed.

Lemma refresh_up_spec up t :
  Forall link_right up → counts_right t →
  inorder (foldl refresh_up t up) = before_up up ++ inorder t ++ after_up up ∧
  counts_right (foldl refresh_up t up).
Proof.
  intros Hup. revert t. induction Hup as [|link up Hlink Hup IH]; intros t Ht; simpl.
  { unfold before_up, after_up. simpl. by rewrite app_nil_r. }
  destruct (IH (refresh_up t link)) as [-> ?]; [destruct link; by apply counts_refresh|]. split; [|done].
  rewrite before_up_cons. change (after_up (link :: up)) with (after_link link ++ after_up up).
  destruct link; simpl; by rewrite ?app_nil_r, <-!app_assoc.
Qed.

Lemma fmap_others p v (l : list sequenceMarker) : (p, false) ∉ ids l → set_visible p v <$> l = l.
Proof.
  intros Hn. rewrite <-(list_fmap_id l) at 2. apply list_fmap_ext. intros _ m Hm%list_elem_of_lookup_2.
  apply set_visible_other. intros Hid. apply Hn. rewrite <-Hid. by apply list_elem_of_fmap_2.
Qed.

Lemma setVisible_spec index p v :
  seq_ok index →
  let index' := setVisible index p v in
  seq_ok index' ∧ si_links index' = set_visible p v <$> si_links index ∧ si_pairs index' = si_pairs index.
Proof.
  intros Hok. pose proof Hok as (Hin & Hc & Hnd & Hp). unfold setVisible, si_entry, si_pair.
  destruct (si_pairs index !! p) as [q|] eqn:Eq.
  2:{ split; [done|]. split; [|done]. rewrite fmap_others; [done|]. intros Hn%Hp. rewrite Eq in Hn. by destruct Hn. }
  destruct (ids_elem (si_links index) (p, false)) as (a & m & b & Hl & Hm); [apply Hp; eauto|].
  destruct (locate_place _ _ _ _ Hok Hl) as (l & r & n & w & up & E & Ha & Hb & Hcl & Hcr & Hup).
  rewrite Hm in E. rewrite E.
  assert ((p, false) ∉ ids (a ++ b)) as Hno.
  { rewrite Hl, fmap_app, fmap_cons, Hm in Hnd. rewrite fmap_app. rewrite NoDup_app, NoDup_cons in Hnd.
    rewrite elem_of_app. intros [?|?]; [|naive_solver]. destruct Hnd as (_ & Hd & _). apply (Hd (p, false)); [done|by left]. }
  rewrite fmap_app, elem_of_app in Hno.
  assert (set_visible p v <$> si_links index = a ++ set_visible p v m :: b) as Hnew.
  { rewrite Hl, fmap_app, fmap_cons, !(fmap_others p v) by tauto. done. }
  destruct (eqb (mk_visible m) v) eqn:Ev.
  { apply eqb_prop in Ev. rewrite Hnew, (set_visible_same p v m Ev), <-Hl. done. }
  split; [|done]. unfold seq_ok. cbn [si_root si_links si_pairs]. rewrite ids_set_visible, Hnew.
  destruct (refresh_up_spec up (refreshMarker l (set_visible p v m) r)) as [-> ?]; [done|by apply counts_refresh|].
  rewrite inorder_refresh, Ha, Hb, <-!app_assoc. done.
Qed.

(** ** Removal *)

Lemma removeLeaf_spec index a e x b p :
  seq_ok index → si_links index = a ++ e :: x :: b → marker_id e = (p, false) → marker_id x = (p, true) → a ≠ [] →
  ∃ index', removeLeaf index p = Some index' ∧ seq_ok index' ∧ si_links index' = a ++ b ∧
    si_pairs index' = delete p (si_pairs index).
Proof.
  intros Hok Hl He Hx Ha. pose proof Hok as (Hin & Hc & Hnd & Hp). unfold removeLeaf, si_entry, si_exit, si_pair.
  destruct (si_pairs index !! p) as [q|] eqn:Eq.
  2:{ assert (is_Some (si_pairs index !! p)) as [? ?]; [|congruence].
      apply Hp. rewrite Hl, fmap_app, fmap_cons, He, elem_of_app, elem_of_cons. auto. }
  rewrite Hl in Hnd. rewrite <-He, <-Hx. rewrite Hl, next_marker_spec, prev_marker_spec, unlink_spec by done.
  rewrite bool_decide_true by done. cbn [negb].
  destruct (last a) as [y|] eqn:Ey; [|by apply last_None in Ey].
  rewrite (markerRank_spec _ _ _ _ Hok Hl).
  destruct (split_spec (si_root index) (len a) Hc) as (Hc1 & Hc2 & Hs1 & Hs2). destruct (splitMarkers _ (len a)) as [lo rest].
  simpl in Hc1, Hc2, Hs1, Hs2. replace (Z.to_nat (len a)) with (length a) in Hs1, Hs2 by (unfold len; lia).
  rewrite Hin, Hl, take_app_length in Hs1. rewrite Hin, Hl, drop_app_length in Hs2.
  destruct (split_spec rest 2 Hc2) as (_ & Hc3 & _ & Hs3). destruct (splitMarkers rest 2) as [? hi]. simpl in Hc3, Hs3.
  rewrite Hs2 in Hs3. change (drop (Z.to_nat 2) (e :: x :: b)) with b in Hs3.
  eexists. split; [done|]. split; [|done]. split_and!; cbn [si_root si_links si_pairs drop].
  - by rewrite merge_inorder, Hs1, Hs3.
  - by apply merge_counts.
  - rewrite fmap_app, !fmap_cons in Hnd. rewrite fmap_app. apply NoDup_app in Hnd as (? & Hd & Hnd).
    apply NoDup_app. split; [done|]. split; [|by do 2 apply NoDup_cons_1_2 in Hnd].
    intros id Hi ?. apply (Hd id Hi). by do 2 right.
  - intros p'. rewrite lookup_delete_is_Some, Hp, Hl, !fmap_app, !fmap_cons, He, Hx.
    rewrite !elem_of_app, !elem_of_cons.
    assert (((p, false) ∉ ids a) ∧ ((p, false) ∉ ids b)) as [Hna Hnb].
    { rewrite fmap_app, !fmap_cons, He, Hx, NoDup_app, !NoDup_cons in Hnd. destruct Hnd as (_ & Hd & (He' & _)).
      split; [intros Hi; apply (Hd _ Hi); by left|]. intros ?. apply He'. by right. }
    split; [intros [? [?|[[= ?]|[[=]|?]]]]; subst; tauto|]. intros Hi. split; [|tauto]. intros ->. tauto.
Qed.

(** ** Visible positions *)

Lemma visible_walk_spec t offset :
  counts_right t → 0 <= offset →
  visible_walk t offset = mk_position <$> filter is_visible (inorder t) !! Z.to_nat offset.
Proof.
  revert offset. induction t as [|l IHl m r IHr n v]; intros offset Hc Ho; [done|].
  destruct Hc as (_ & _ & Hl & Hr). cbn [visible_walk inorder].
  rewrite visibleCount_len, filter_app, filter_cons by done.
  destruct (Z.ltb_spec offset (len (filter is_visible (inorder l)))) as [Hlt|Hge]; unfold len in *.
  { rewrite IHl by done. rewrite lookup_app_l by lia. done. }
  rewrite lookup_app_r by lia. set (k := length (filter is_visible (inorder l))) in *.
  case_decide as Hm; unfold is_visible in Hm.
  - rewrite Hm. destruct (Z.eqb_spec (offset - Z.of_nat k) 0).
    + replace (Z.to_nat offset - k)%nat with 0%nat by lia. done.
    + replace (Z.to_nat offset - k)%nat with (S (Z.to_nat (offset - Z.of_nat k - 1))) by lia. apply IHr; [done|lia].
  - apply not_true_is_false in Hm. rewrite Hm.
    replace (Z.to_nat offset - k)%nat with (Z.to_nat (offset - Z.of_nat k)) by lia. apply IHr; [done|lia].
Qed.

(** The visible positions, in order. *)
Definition shown (links : list sequenceMarker) : list Position := mk_position <$> filter is_visible links.

(** [visibleAt] is indexing into the visible positions. *)
Lemma visibleAt_spec index offset :
  seq_ok index → visibleAt index offset = if offset <? 0 then None else shown (si_links index) !! Z.to_nat offset.
Proof.
  intros (Hin & Hc & _). unfold visibleAt, shown. rewrite visibleCount_len, Hin by done.
  destruct (Z.ltb_spec offset 0); [done|]. rewrite list_lookup_fmap. cbn [orb].
  destruct (Z.leb_spec (len (filter is_visible (si_links index))) offset).
  - unfold len in *. rewrite lookup_ge_None_2 by lia. done.
  - rewrite visible_walk_spec, Hin by (done || lia). done.
Qed.

Lemma visibleCount_shown index : seq_ok index → visibleCount (si_root index) = len (shown (si_links index)).
Proof. intros (Hin & Hc & _). unfold shown. by rewrite visibleCount_len, Hin, len_fmap. Qed.
