(* ===== verification/Clock.v ===== *)
(** * The hybrid logical clock

    Models src/clock/hlc.go. The mutex serialises every method, so a method is
    one atomic transition of the clock state; the physical time source is an
    input of each call ([None] is a clock without a source, [Some ms] the value
    of [UnixMilli]). *)

From S2P Require Import Prelude Tags.

(** [clock.State] *)
Record ClockState := mkClockState {
  cs_ReplicaID : bytes;
  cs_WallTime : Z;
  cs_Logical : Z
}.

#[export] Instance ClockState_eq_dec : EqDecision ClockState.
Proof. solve_decision. Defined.

Definition zeroClockState : ClockState := mkClockState [] 0 0.

(** [clock.HLC], without the mutex and the time source. *)
Record HLC := mkHLC {
  replicaID : bytes;
  wallTime : Z;
  logical : Z
}.

#[export] Instance HLC_eq_dec : EqDecision HLC.
Proof. solve_decision. Defined.

(** [NewHLCFromState] *)
Definition NewHLCFromState (state : ClockState) : result HLC :=
  if negb (Valid (mkTag (cs_ReplicaID state) 0 0)) then Err ErrClockInvalidReplicaID
  else Ok (mkHLC (cs_ReplicaID state) (cs_WallTime state) (cs_Logical state)).

(** [NewHLC] *)
Definition NewHLC (id : bytes) : result HLC := NewHLCFromState (mkClockState id 0 0).

(** [HLC.ReplicaID] *)
Definition HLC_ReplicaID (h : ptr HLC) : bytes :=
  match h with None => [] | Some h => replicaID h end.

(** [HLC.Snapshot] *)
Definition HLC_Snapshot (h : ptr HLC) : ClockState :=
  match h with
  | None => zeroClockState
  | Some h => mkClockState (replicaID h) (wallTime h) (logical h)
  end.

(** [HLC.physicalMillis] *)
Definition physicalMillis (now : option Z) : result Z :=
  match now with
  | None => Err ErrClockExhausted
  | Some millis => if millis <? 0 then Err ErrClockExhausted else Ok millis
  end.

(** [nextTimestamp] *)
Definition nextTimestamp (wall log : Z) : result (Z * Z) :=
  if negb (log =? maxUint64) then Ok (wall, log + 1)
  else if wall =? maxUint64 then Err ErrClockExhausted
  else Ok (wall + 1, 0).

Definition set_time (h : HLC) (wl : Z * Z) : HLC := mkHLC (replicaID h) wl.1 wl.2.

Definition hlc_tag (h : HLC) : Tag := mkTag (replicaID h) (wallTime h) (logical h).

(** [HLC.advanceLocal] *)
Definition advanceLocal (h : HLC) (physical : Z) : HLC * result Tag :=
  if wallTime h <? physical then
    let h' := set_time h (physical, 0) in (h', Ok (hlc_tag h'))
  else
    match nextTimestamp (wallTime h) (logical h) with
    | Err e => (h, Err e)
    | Ok wl => let h' := set_time h wl in (h', Ok (hlc_tag h'))
    end.

(** [HLC.Now] *)
Definition Now (h : ptr HLC) (now : option Z) : ptr HLC * result Tag :=
  match h with
  | None => (None, Err ErrClockExhausted)
  | Some h =>
      match physicalMillis now with
      | Err e => (Some h, Err e)
      | Ok physical => let '(h', r) := advanceLocal h physical in (Some h', r)
      end
  end.

(** The timestamp [HLC.Witness] installs, once the physical time is known. *)
Definition witnessTime (h : HLC) (remote : Tag) (physical : Z) : result (Z * Z) :=
  let maxWall := (wallTime h `max` WallTime remote) `max` physical in
  if (maxWall =? wallTime h) && (maxWall =? WallTime remote) then
    nextTimestamp maxWall (logical h `max` Logical remote)
  else if maxWall =? wallTime h then nextTimestamp (wallTime h) (logical h)
  else if maxWall =? WallTime remote then nextTimestamp (WallTime remote) (Logical remote)
  else Ok (maxWall, 0).

(** [HLC.Witness] *)
Definition Witness (h : ptr HLC) (remote : Tag) (now : option Z) : ptr HLC * result unit :=
  match h with
  | None => (None, Err ErrClockExhausted)
  | Some h =>
      if negb (Valid remote) then (Some h, Err ErrInvalidRemoteTag)
      else match physicalMillis now with
           | Err e => (Some h, Err e)
           | Ok physical =>
               match witnessTime h remote physical with
               | Err e => (Some h, Err e)
               | Ok wl => (Some (set_time h wl), Ok tt)
               end
           end
  end.

(** ** Well-formed clocks *)

(** Physical time is an [int64]. *)
Definition now_wf (now : option Z) : Prop :=
  match now with None => True | Some ms => - 2 ^ 63 <= ms < 2 ^ 63 end.

#[export] Instance now_wf_dec now : Decision (now_wf now).
Proof. destruct now; simpl; apply _. Defined.

Definition hlc_wf (h : HLC) : Prop :=
  Valid (hlc_tag h) = true ∧ is_u64 (wallTime h) ∧ is_u64 (logical h).

#[export] Instance hlc_wf_dec h : Decision (hlc_wf h).
Proof. unfold hlc_wf. apply _. Defined.

(** Timestamps in the order of [Tag.Compare], replica identity aside. *)
Definition ts_lt (t u : Tag) : Prop :=
  WallTime t < WallTime u ∨ (WallTime t = WallTime u ∧ Logical t < Logical u).

Definition ts_le (t u : Tag) : Prop :=
  WallTime t < WallTime u ∨ (WallTime t = WallTime u ∧ Logical t <= Logical u).

Lemma ts_lt_Compare t u : ts_lt t u → Compare t u < 0.
Proof. rewrite Compare_lt. unfold ts_lt, tag_lt. lia. Qed.

Lemma ts_le_Compare t u : Compare t u <= 0 → ts_le t u.
Proof.
  intros Hc. destruct (decide (Compare t u = 0)) as [->%Compare_zero|]; [unfold ts_le; lia|].
  assert (Compare t u < 0) as Hlt%Compare_lt by lia. unfold tag_lt, ts_le in *. lia.
Qed.

Lemma nextTimestamp_spec wall log w l :
  is_u64 wall → is_u64 log → nextTimestamp wall log = Ok (w, l) →
  is_u64 w ∧ is_u64 l ∧ (wall < w ∨ (wall = w ∧ log < l)).
Proof.
  unfold nextTimestamp, is_u64, maxUint64. intros ??.
  destruct (Z.eqb_spec log (2 ^ 64 - 1)); simpl.
  - destruct (Z.eqb_spec wall (2 ^ 64 - 1)); [done|]. intros [= <- <-]. lia.
  - intros [= <- <-]. lia.
Qed.

Lemma nextTimestamp_fails wall log e :
  nextTimestamp wall log = Err e ↔
  e = ErrClockExhausted ∧ wall = maxUint64 ∧ log = maxUint64.
Proof.
  unfold nextTimestamp.
  destruct (Z.eqb_spec log maxUint64), (Z.eqb_spec wall maxUint64); simpl; naive_solver.
Qed.

Lemma physicalMillis_Ok now p :
  now_wf now → physicalMillis now = Ok p → 0 <= p < 2 ^ 63 ∧ now = Some p.
Proof.
  unfold physicalMillis. destruct now as [ms|]; simpl; [|done].
  destruct (Z.ltb_spec ms 0); [done|]. intros ? [= <-]. split; [lia|done].
Qed.

Lemma advanceLocal_spec h p h' t :
  hlc_wf h → 0 <= p < 2 ^ 63 → advanceLocal h p = (h', Ok t) →
  hlc_wf h' ∧ t = hlc_tag h' ∧ replicaID h' = replicaID h ∧ ts_lt (hlc_tag h) t.
Proof.
  unfold advanceLocal, hlc_wf, is_u64. intros (Hv & Hw & Hl) Hp.
  destruct (Z.ltb_spec (wallTime h) p).
  - intros [= <- <-]. unfold ts_lt; simpl. split_and!; try lia; done.
  - destruct (nextTimestamp _ _) as [[w l]|e] eqn:E; [|done].
    intros [= <- <-]. apply nextTimestamp_spec in E as (?&?&?); [|done..].
    unfold ts_lt; simpl. split_and!; try (unfold is_u64 in *; lia); done.
Qed.

Lemma Now_spec h now h' t :
  hlc_wf h → now_wf now → Now (Some h) now = (h', Ok t) →
  ∃ h1, h' = Some h1 ∧ hlc_wf h1 ∧ t = hlc_tag h1 ∧
    replicaID h1 = replicaID h ∧ ts_lt (hlc_tag h) t.
Proof.
  intros Hwf Hnow. simpl. destruct (physicalMillis now) as [p|e] eqn:E; [|done].
  apply physicalMillis_Ok in E as [Hp _]; [|done].
  destruct (advanceLocal h p) as [h1 r] eqn:E. intros [= <- ->].
  apply advanceLocal_spec in E; [|done..]. naive_solver.
Qed.

Lemma witnessTime_spec h remote p w l :
  hlc_wf h → tag_wf remote → 0 <= p < 2 ^ 63 → witnessTime h remote p = Ok (w, l) →
  is_u64 w ∧ is_u64 l ∧ ts_lt (hlc_tag h) (mkTag [] w l) ∧ ts_lt remote (mkTag [] w l).
Proof.
  unfold witnessTime, hlc_wf, tag_wf, ts_lt. intros (_ & Hw & Hl) [Hrw Hrl] Hp. simpl.
  set (m := (wallTime h `max` WallTime remote) `max` p).
  assert (wallTime h <= m ∧ WallTime remote <= m ∧ is_u64 m) as (?&?&?) by (unfold is_u64 in *; lia).
  destruct (Z.eqb_spec m (wallTime h)), (Z.eqb_spec m (WallTime remote)); simpl.
  - intros (?&?&?)%nextTimestamp_spec; [|done|unfold is_u64 in *; lia].
    split_and!; try done; lia.
  - intros (?&?&?)%nextTimestamp_spec; [|done..]. split_and!; try done; lia.
  - intros (?&?&?)%nextTimestamp_spec; [|done..]. split_and!; try done; lia.
  - intros [= <- <-]. split_and!; try done; unfold is_u64 in *; lia.
Qed.

Lemma Witness_spec h remote now h' :
  hlc_wf h → tag_wf remote → now_wf now → Witness (Some h) remote now = (h', Ok tt) →
  ∃ h1, h' = Some h1 ∧ hlc_wf h1 ∧ replicaID h1 = replicaID h ∧
    ts_lt (hlc_tag h) (hlc_tag h1) ∧ ts_lt remote (hlc_tag h1).
Proof.
  intros Hwf Hr Hnow. simpl. destruct (Valid remote); simpl; [|done].
  destruct (physicalMillis now) as [p|e] eqn:E; [|done].
  apply physicalMillis_Ok in E as [Hp _]; [|done].
  destruct (witnessTime h remote p) as [[w l]|e] eqn:E; [|done]. intros [= <-].
  apply witnessTime_spec in E as (?&?&?&?); [|done..].
  exists (set_time h (w, l)). unfold hlc_wf in *. naive_solver.
Qed.

Lemma Now_error_unchanged h now h' e : Now h now = (h', Err e) → h' = h.
Proof.
  destruct h as [h|]; simpl; [|naive_solver].
  destruct (physicalMillis now) as [p|]; [|naive_solver].
  unfold advanceLocal. repeat case_match; naive_solver.
Qed.

Lemma Witness_error_unchanged h r now h' e : Witness h r now = (h', Err e) → h' = h.
Proof. destruct h as [h|]; simpl; repeat case_match; naive_solver. Qed.

(** ** Refusals *)

(** The physical time cannot be read, or lies before the epoch. *)
Definition unreadable (now : option Z) : Prop := match now with None => True | Some ms => ms < 0 end.

(** A tag no timestamp follows. *)
Definition spent (t : Tag) : Prop := WallTime t = maxUint64 ∧ Logical t = maxUint64.

(** Why a clock refuses to step past itself and the tags [seen]: there is no
    physical time, or no timestamp is left. *)
Definition exhausted (c : ptr HLC) (now : option Z) (seen : Tag → Prop) : Prop :=
  unreadable now ∨ (∃ h, c = Some h ∧ spent (hlc_tag h)) ∨ ∃ t, seen t ∧ spent t.

Lemma physicalMillis_Err now e : physicalMillis now = Err e → e = ErrClockExhausted ∧ unreadable now.
Proof.
  unfold physicalMillis. destruct now as [ms|]; [|by intros [= <-]].
  destruct (Z.ltb_spec ms 0); [by intros [= <-]|done].
Qed.

Lemma Now_refused h now c e :
  Now (Some h) now = (c, Err e) → c = Some h ∧ e = ErrClockExhausted ∧ exhausted (Some h) now (λ _, False).
Proof.
  intros Hn. pose proof (Now_error_unchanged _ _ _ _ Hn) as ->. split; [done|]. revert Hn. cbn [Now].
  destruct (physicalMillis now) as [p|e'] eqn:Hp.
  2: { intros [= <-]. apply physicalMillis_Err in Hp as [-> ?]. split; [done|by left]. }
  unfold advanceLocal. destruct (_ <? _); [done|]. destruct (nextTimestamp _ _) as [wl|e'] eqn:Ht; [done|].
  intros [= <-]. apply nextTimestamp_fails in Ht as (-> & ? & ?). split; [done|]. right. left. by exists h.
Qed.

Lemma witnessTime_fails h remote p e :
  witnessTime h remote p = Err e → e = ErrClockExhausted ∧ (spent (hlc_tag h) ∨ spent remote).
Proof.
  unfold witnessTime, spent. cbn [hlc_tag WallTime Logical].
  destruct (Z.eqb_spec ((wallTime h `max` WallTime remote) `max` p) (wallTime h)) as [E1|E1],
    (Z.eqb_spec ((wallTime h `max` WallTime remote) `max` p) (WallTime remote)) as [E2|E2]; cbn [andb]; [| | |done];
    intros (-> & ? & ?)%nextTimestamp_fails; (split; [done|lia]).
Qed.

Lemma Witness_refused h remote now c e :
  Valid remote = true → Witness (Some h) remote now = (c, Err e) →
  c = Some h ∧ e = ErrClockExhausted ∧ exhausted (Some h) now (λ t, t = remote).
Proof.
  intros Hv Hw. pose proof (Witness_error_unchanged _ _ _ _ _ Hw) as ->. split; [done|]. revert Hw. cbn [Witness].
  rewrite Hv. cbn [negb]. destruct (physicalMillis now) as [p|e'] eqn:Hp.
  2: { intros [= <-]. apply physicalMillis_Err in Hp as [-> ?]. split; [done|by left]. }
  destruct (witnessTime h remote p) as [wl|e'] eqn:Ht; [done|]. intros [= <-].
  apply witnessTime_fails in Ht as [-> [?|?]]; (split; [done|]); right; [left; by exists h|right; by exists remote].
Qed.

Lemma exhausted_mono c now (P Q : Tag → Prop) : (∀ t, P t → Q t) → exhausted c now P → exhausted c now Q.
Proof. intros HPQ [?|[?|(t & ? & ?)]]; [by left|right; by left|right; right; eauto]. Qed.

(** Tags the clock has passed add no reason. *)
Lemma exhausted_passed h now (P : Tag → Prop) :
  hlc_wf h → (∀ t, P t → ts_le t (hlc_tag h)) → exhausted (Some h) now P → exhausted (Some h) now (λ _, False).
Proof.
  intros (_ & Hw & Hl) HP [?|[?|(t & Ht & Hs)]]; [by left|right; by left|]. right. left. exists h. split; [done|].
  apply HP in Ht. unfold spent, ts_le, is_u64, maxUint64 in *. cbn [hlc_tag WallTime Logical] in *. lia.
Qed.

(** ** Runs of a clock *)

(** One step of a replica's clock: a local tag, a witnessed remote tag, or a
    restart that restores the persisted snapshot. *)
Inductive clock_op :=
| OpNow (now : option Z)
| OpWitness (remote : Tag) (now : option Z)
| OpRestart.

Definition clock_op_wf (o : clock_op) : Prop :=
  match o with
  | OpNow now => now_wf now
  | OpWitness r now => tag_wf r ∧ now_wf now
  | OpRestart => True
  end.

Definition clock_step (h : HLC) (o : clock_op) : HLC * list Tag :=
  match o with
  | OpNow now =>
      match Now (Some h) now with
      | (Some h', Ok t) => (h', [t])
      | (Some h', Err _) => (h', [])
      | (None, _) => (h, [])
      end
  | OpWitness r now =>
      match Witness (Some h) r now with
      | (Some h', _) => (h', [])
      | (None, _) => (h, [])
      end
  | OpRestart =>
      match NewHLCFromState (HLC_Snapshot (Some h)) with
      | Ok h' => (h', [])
      | Err _ => (h, [])
      end
  end.

Fixpoint clock_run (h : HLC) (ops : list clock_op) : HLC * list Tag :=
  match ops with
  | [] => (h, [])
  | o :: ops' =>
      let '(h1, ts) := clock_step h o in
      let '(h2, ts') := clock_run h1 ops' in (h2, ts ++ ts')
  end.

Lemma restart_same h :
  hlc_wf h → NewHLCFromState (HLC_Snapshot (Some h)) = Ok h.
Proof.
  destruct h as [id w l]. unfold NewHLCFromState, HLC_Snapshot, hlc_wf, hlc_tag, Valid. simpl.
  intros (Hv & _). rewrite Hv. done.
Qed.

Lemma clock_step_spec h o h' ts :
  hlc_wf h → clock_op_wf o → clock_step h o = (h', ts) →
  hlc_wf h' ∧ replicaID h' = replicaID h ∧ ts_le (hlc_tag h) (hlc_tag h') ∧
  (ts = [] ∨ (ts = [hlc_tag h'] ∧ ts_lt (hlc_tag h) (hlc_tag h'))).
Proof.
  intros Hwf Ho. destruct o as [now|r now|]; unfold clock_step.
  - destruct (Now (Some h) now) as [h1 r1] eqn:E. destruct r1 as [t|e].
    + apply Now_spec in E as (h2 & -> & ? & -> & ? & Hlt); [|done..]. intros [= <- <-].
      split_and!; try done; [unfold ts_le, ts_lt in *; lia|naive_solver].
    + apply Now_error_unchanged in E as ->. intros [= <- <-].
      split_and!; try done; [unfold ts_le; lia|naive_solver].
  - destruct Ho as [Hr Hnow]. destruct (Witness (Some h) r now) as [h1 [[]|e]] eqn:E.
    + apply Witness_spec in E as (h2 & -> & ? & ? & Hlt & ?); [|done..]. intros [= <- <-].
      split_and!; try done; [unfold ts_le, ts_lt in *; lia|naive_solver].
    + apply Witness_error_unchanged in E as ->. intros [= <- <-].
      split_and!; try done; [unfold ts_le; lia|naive_solver].
  - rewrite restart_same by done. intros [= <- <-].
    split_and!; try done; [unfold ts_le; lia|naive_solver].
Qed.

Lemma ts_le_lt_trans t u v : ts_le t u → ts_lt u v → ts_lt t v.
Proof. unfold ts_le, ts_lt. lia. Qed.

Lemma ts_lt_le_trans t u v : ts_lt t u → ts_le u v → ts_lt t v.
Proof. unfold ts_le, ts_lt. lia. Qed.

Lemma clock_run_spec h ops h' ts :
  hlc_wf h → Forall clock_op_wf ops → clock_run h ops = (h', ts) →
  hlc_wf h' ∧ replicaID h' = replicaID h ∧ ts_le (hlc_tag h) (hlc_tag h') ∧
  StronglySorted ts_lt ts ∧
  Forall (λ t, ts_lt (hlc_tag h) t ∧ tag_wf t ∧ ReplicaID t = replicaID h) ts.
Proof.
  intros Hwf Hops. revert h h' ts Hwf. induction Hops as [|o ops Ho Hops IH]; intros h h' ts Hwf; simpl.
  - intros [= <- <-]. split_and!; try done; [unfold ts_le; lia|constructor].
  - destruct (clock_step h o) as [h1 ts1] eqn:E1.
    destruct (clock_run h1 ops) as [h2 ts2] eqn:E2. intros [= <- <-].
    apply clock_step_spec in E1 as (Hwf1 & Hid1 & Hle1 & Hts1); [|done..].
    apply IH in E2 as (Hwf2 & Hid2 & Hle2 & Hs2 & Ha2); [|done].
    assert (ts_le (hlc_tag h) (hlc_tag h2)) by (unfold ts_le in *; lia).
    assert (Forall (λ t, ts_lt (hlc_tag h) t ∧ tag_wf t ∧ ReplicaID t = replicaID h) ts2)
      as Hts2.
    { eapply Forall_impl; [exact Ha2|]. simpl. intros t (?&?&?).
      split; [eapply ts_le_lt_trans; [exact Hle1|done]|]. split; [done|congruence]. }
    destruct Hts1 as [->|[-> Hlt]]; simpl; [by split_and!; try congruence|].
    split_and!; try done; [congruence| |].
    + constructor; [done|]. eapply Forall_impl; [exact Ha2|]. by intros t (?&_).
    + constructor; [|done]. destruct Hwf1 as (?&?&?). by split_and!; simpl; try congruence.
Qed.

(** C36: the tags a clock emits are strictly increasing in canonical order and
    carry its replica ID, whatever the physical clock does (it may stand still
    or run backwards), whatever remote tags are witnessed in between, and across
    restarts that restore the persisted state. *)
Theorem clock_monotone (h h' : HLC) (ops : list clock_op) (ts : list Tag)
    (Hwf : hlc_wf h) (Hops : Forall clock_op_wf ops) (Hrun : clock_run h ops = (h', ts)) :
  increasing Compare ts ∧ Forall (λ t, ReplicaID t = replicaID h ∧ tag_wf t) ts ∧ hlc_wf h'.
Proof.
  destruct (clock_run_spec h ops h' ts) as (Hwf' & Hid & _ & Hs & Ha); [done..|].
  split_and!; [| |done].
  - eapply StronglySorted_mono; [apply ts_lt_Compare|done].
  - eapply Forall_impl; [exact Ha|]. simpl. naive_solver.
Qed.

(** C12: causality. Once a remote tag has been witnessed, every tag the clock
    emits afterwards is greater than it. *)
Theorem clock_causality (h h1 h2 : HLC) (r : Tag) (now : option Z) (ops : list clock_op)
    (ts : list Tag) (Hwf : hlc_wf h) (Hr : tag_wf r) (Hnow : now_wf now)
    (Hops : Forall clock_op_wf ops)
    (Hwit : Witness (Some h) r now = (Some h1, Ok tt))
    (Hrun : clock_run h1 ops = (h2, ts)) :
  Forall (λ t, Compare r t < 0) ts.
Proof.
  apply Witness_spec in Hwit as (? & [= <-] & Hwf1 & _ & _ & Hlt); [|done..].
  destruct (clock_run_spec h1 ops h2 ts) as (_ & _ & _ & _ & Ha); [done..|].
  eapply Forall_impl; [exact Ha|]. simpl. intros t (Hlt' & _).
  apply ts_lt_Compare. unfold ts_lt in *. lia.
Qed.

(** Exhaustion. With a working time source, [Now] issues a tag unless the
    timestamp is the greatest representable one and physical time is not ahead
    of it; then it reports exhaustion and leaves the clock unchanged. *)
Theorem Now_exhausted (h : HLC) (ms : Z) (Hms : 0 <= ms) :
  if (ms <=? wallTime h) && (wallTime h =? maxUint64) && (logical h =? maxUint64)
  then Now (Some h) (Some ms) = (Some h, Err ErrClockExhausted)
  else ∃ h' t, Now (Some h) (Some ms) = (Some h', Ok t).
Proof.
  unfold Now, physicalMillis, advanceLocal, nextTimestamp. guard_false.
  destruct (Z.leb_spec ms (wallTime h)), (Z.ltb_spec (wallTime h) ms); try lia; simpl; [|by eauto].
  by destruct (Z.eqb_spec (wallTime h) maxUint64), (Z.eqb_spec (logical h) maxUint64); simpl; eauto.
Qed.

Lemma clock_monotone_witness :
  let h := mkHLC (str "a") 7 maxUint64 in
  let ops := [OpNow (Some 3); OpWitness (mkTag (str "b") 900 4) (Some 3); OpNow (Some 5);
              OpRestart; OpNow (Some (-1)); OpNow (Some 1000)] in
  increasing Compare (clock_run h ops).2 ∧
  (clock_run h ops).2 = [mkTag (str "a") 8 0; mkTag (str "a") 900 6; mkTag (str "a") 1000 0].
Proof.
  intros h ops. split; [|reflexivity].
  refine (proj1 (clock_monotone h (clock_run h ops).1 ops (clock_run h ops).2 _ _ _)).
  - apply (bool_decide_unpack _). vm_compute. exact I.
  - repeat constructor; vm_compute; congruence.
  - reflexivity.
Defined.

Lemma clock_causality_witness :
  let h := mkHLC (str "a") 7 0 in
  let r := mkTag (str "b") 900 4 in
  Forall (λ t, Compare r t < 0) [mkTag (str "a") 900 6].
Proof.
  intros h r.
  apply (clock_causality h (mkHLC (str "a") 900 5) (mkHLC (str "a") 900 6) r (Some 10)
    [OpNow (Some 11)]).
  - apply (bool_decide_unpack _). vm_compute. exact I.
  - apply (bool_decide_unpack _). vm_compute. exact I.
  - apply (bool_decide_unpack _). vm_compute. exact I.
  - repeat constructor; vm_compute; congruence.
  - reflexivity.
  - reflexivity.
Defined.

Lemma Now_exhausted_witness :
  Now (Some (mkHLC (str "a") maxUint64 maxUint64)) (Some 5) =
  (Some (mkHLC (str "a") maxUint64 maxUint64), Err ErrClockExhausted).
Proof. exact (Now_exhausted (mkHLC (str "a") maxUint64 maxUint64) 5 ltac:(lia)). Defined.
