(* ===== verification/Lattice.v ===== *)
(** * The replication contract

    crdt.go asks every CRDT for a [Merge] that is commutative, associative and
    idempotent, and for deltas that are joined the same way. [Lattice] is that
    contract as an interface: the components prove it, and the delivery theorems
    below are proved from it alone.

    States are compared with an equivalence, because some components keep
    representation details (a zero counter component, say) that no read
    observes, and laws hold on the states a component can reach ([wf]). *)

From S2P Require Import Prelude.

(** [CRDT.Merge] as a join on well-formed states. *)
Class Lattice {A : Type} (wf : A → Prop) (eqv : relation A) (join : A → A → A) : Prop := {
  lattice_equiv : Equivalence eqv;
  lattice_wf x y : wf x → wf y → wf (join x y);
  lattice_proper x x' y y' : wf x → wf x' → wf y → wf y' →
    eqv x x' → eqv y y' → eqv (join x y) (join x' y');
  lattice_comm x y : wf x → wf y → eqv (join x y) (join y x);
  lattice_assoc x y z : wf x → wf y → wf z → eqv (join (join x y) z) (join x (join y z));
  lattice_idem x : wf x → eqv (join x x) x
}.

(** A replica that joins the deliveries [ds] one after the other. *)
Definition deliver {A} (join : A → A → A) (s : A) (ds : list A) : A := foldl join s ds.

Section lattice.
Context {A : Type} (wf : A → Prop) (eqv : relation A) (join : A → A → A).
Context `{!Lattice wf eqv join}.
#[local] Existing Instance lattice_equiv.

#[local] Notation "x ≈ y" := (eqv x y) (at level 70).
#[local] Notation "x ⋎ y" := (join x y) (at level 50, left associativity).

Lemma join_wf x y : wf x → wf y → wf (x ⋎ y).
Proof. apply lattice_wf. Qed.
#[local] Hint Resolve join_wf : core.

Lemma join_swap s x y : wf s → wf x → wf y → s ⋎ x ⋎ y ≈ s ⋎ y ⋎ x.
Proof.
  intros Hs Hx Hy. rewrite (lattice_assoc s x y), (lattice_assoc s y x) by done.
  apply (lattice_proper s s); auto; [done|]. by apply (lattice_comm x y).
Qed.

Lemma join_absorb s d : wf s → wf d → s ⋎ d ⋎ d ≈ s ⋎ d.
Proof.
  intros Hs Hd. rewrite (lattice_assoc s d d) by done.
  apply (lattice_proper s s); auto; [done|]. by apply (lattice_idem d).
Qed.

Lemma deliver_wf s ds : wf s → Forall wf ds → wf (deliver join s ds).
Proof. intros Hs Hds. revert s Hs. induction Hds; simpl; auto. Qed.
#[local] Hint Resolve deliver_wf : core.

Lemma deliver_proper s s' ds :
  wf s → wf s' → Forall wf ds → s ≈ s' → deliver join s ds ≈ deliver join s' ds.
Proof.
  intros Hs Hs' Hds. revert s s' Hs Hs'.
  induction Hds as [|d ds Hd Hds IH]; intros s s' Hs Hs' Heq; [done|]. simpl.
  apply IH; auto. by apply (lattice_proper s s' d d).
Qed.

(** A delivery commutes past all later ones. *)
Lemma deliver_join s d ds :
  wf s → wf d → Forall wf ds → deliver join (s ⋎ d) ds ≈ deliver join s ds ⋎ d.
Proof.
  intros Hs Hd Hds. revert s Hs. induction Hds as [|x ds Hx Hds IH]; intros s Hs; simpl; [done|].
  rewrite <-IH by auto. apply deliver_proper; auto. by apply join_swap.
Qed.

(** Redelivering an update changes nothing. *)
Lemma deliver_again s d ds :
  wf s → wf d → Forall wf ds → d ∈ ds → deliver join (s ⋎ d) ds ≈ deliver join s ds.
Proof.
  intros Hs Hd Hds Hin. revert s Hs Hin.
  induction Hds as [|x ds Hx Hds IH]; intros s Hs Hin; [set_solver|]. simpl.
  apply elem_of_cons in Hin as [->|Hin].
  - apply deliver_proper; auto. by apply join_absorb.
  - rewrite <-(IH (s ⋎ x)) by auto. apply deliver_proper; auto. by apply join_swap.
Qed.

Lemma deliver_permutation s ds1 ds2 :
  wf s → Forall wf ds1 → ds1 ≡ₚ ds2 → deliver join s ds1 ≈ deliver join s ds2.
Proof.
  intros Hs Hds Hp. revert s Hs.
  induction Hp as [|x l1 l2 Hp IH|x y l|l1 l2 l3 Hp1 IH1 Hp2 IH2]; intros s Hs.
  - done.
  - apply Forall_cons in Hds as [Hx Hds]. simpl. auto.
  - apply Forall_cons in Hds as [Hx [Hy Hds]%Forall_cons]. simpl.
    apply deliver_proper; auto. by apply join_swap.
  - rewrite IH1 by done. apply IH2; [|done]. by rewrite <-Hp1.
Qed.

Lemma deliver_remove_dups s ds `{!EqDecision A} :
  wf s → Forall wf ds → deliver join s ds ≈ deliver join s (remove_dups ds).
Proof.
  intros Hs Hds. revert s Hs. induction Hds as [|d ds Hd Hds IH]; intros s Hs; [done|]. simpl.
  destruct (decide_rel _ d ds) as [Hin|Hin]; simpl; [|by apply IH; auto].
  rewrite deliver_again by done. by apply IH.
Qed.

(** Strong eventual consistency: two replicas that start alike and receive the
    same set of updates, in any order and any number of times, end alike. *)
Lemma deliver_convergence s ds1 ds2 `{!EqDecision A} :
  wf s → Forall wf ds1 → Forall wf ds2 → (∀ d, d ∈ ds1 ↔ d ∈ ds2) →
  deliver join s ds1 ≈ deliver join s ds2.
Proof.
  intros Hs H1 H2 Hset.
  etransitivity; [by apply deliver_remove_dups|].
  etransitivity; [|symmetry; by apply deliver_remove_dups].
  apply deliver_permutation; [done| |].
  - rewrite Forall_forall in H1 |- *. intros d. rewrite elem_of_remove_dups. auto.
  - apply NoDup_Permutation; [apply NoDup_remove_dups..|].
    intros d. by rewrite !elem_of_remove_dups.
Qed.
End lattice.

(** ** Runs of a replica

    A replica that receives messages one after the other; the result is the
    first error. *)

Section runs.
Context {S M A : Type} (receive : ptr S → M → ptr S * result unit).

Definition run (s : ptr S) (ms : list M) : ptr S * result unit :=
  foldl (λ '(s, r) m, let '(s, r') := receive s m in (s, _ ← r; r')) (s, Ok tt) ms.

Context (inv : S → Prop) (msg_ok : M → Prop) (abs : S → A) (carries : M → A) (join : A → A → A).

(** A message that is accepted is joined into the state. *)
Hypothesis receive_joins : ∀ s m s', inv s → msg_ok m → receive (Some s) m = (s', Ok tt) →
  ∃ t, s' = Some t ∧ inv t ∧ abs t = join (abs s) (carries m).

(** Receiving messages delivers the updates they carry. *)
Lemma run_deliver s ms s' :
  inv s → Forall msg_ok ms → run (Some s) ms = (s', Ok tt) →
  ∃ t, s' = Some t ∧ inv t ∧ abs t = deliver join (abs s) (carries <$> ms).
Proof.
  intros Hs Hms. revert s'. induction ms as [|m ms IH] using rev_ind; intros s'.
  { intros [= <-]. by exists s. }
  apply Forall_app in Hms as [Hms Hm%Forall_inv]. unfold run. rewrite foldl_app.
  fold (run (Some s) ms). destruct (run (Some s) ms) as [s1 r1]. simpl. intros Hrun.
  destruct (receive s1 m) as [s2 r2] eqn:Hrec. injection Hrun as <- Hr.
  destruct r1 as [[]|]; [|done]. simpl in Hr. subst r2.
  destruct (IH Hms s1 eq_refl) as (t & -> & Ht & Habs).
  destruct (receive_joins t m s2 Ht Hm Hrec) as (t' & -> & Ht' & Habs').
  exists t'. split; [done|]. split; [done|]. rewrite Habs', Habs, fmap_app.
  unfold deliver. by rewrite foldl_app.
Qed.
End runs.

(** An invariant that pays for every message. *)
Lemma run_counted {S M} (receive : ptr S → M → ptr S * result unit) (inv : nat → S → Prop) (msg_ok : M → Prop) :
  (∀ n s m s', inv (Datatypes.S n) s → msg_ok m → receive (Some s) m = (s', Ok tt) → ∃ t, s' = Some t ∧ inv n t) →
  ∀ ms n s s', inv (length ms + n)%nat s → Forall msg_ok ms → run receive (Some s) ms = (s', Ok tt) →
    ∃ t, s' = Some t ∧ inv n t.
Proof.
  intros Hstep ms. induction ms as [|m ms IH] using rev_ind; intros n s s' Hs Hms.
  { intros [= <-]. by exists s. }
  apply Forall_app in Hms as [Hms Hm%Forall_inv]. unfold run. rewrite foldl_app.
  fold (run receive (Some s) ms). destruct (run receive (Some s) ms) as [s1 r1] eqn:E. simpl. intros Hrun.
  destruct (receive s1 m) as [s2 r2] eqn:Hrec. injection Hrun as <- Hr.
  destruct r1 as [[]|]; [|done]. simpl in Hr. subst r2.
  destruct (IH (Datatypes.S n) s s1) as (t & -> & Ht); [|done|done|by apply (Hstep n t m)].
  rewrite length_app in Hs. simpl in Hs. by replace (length ms + Datatypes.S n)%nat with (length ms + 1 + n)%nat by lia.
Qed.
