(* ===== verification/Tagged.v ===== *)
(** * Last-writer-wins joins

    The rule src/lww and src/register share: of two entries the one with the
    greater tag stays. Tags are unique per write, so entries with equal tags are
    equal; [own] records what each tag wrote, which is what the code's
    tag-conflict checks defend. *)

From S2P Require Import Prelude Tags Lattice.

Section tagged.
Context {E : Type} (etag : E → Tag).

(** The entry that stays when [b] arrives over [a]. *)
Definition later (a b : option E) : option E :=
  match a, b with
  | None, _ => b
  | _, None => a
  | Some x, Some y => if Compare (etag x) (etag y) <? 0 then b else a
  end.

(** An entry is the write its tag stands for. *)
Definition written (own : Tag → option E) (a : option E) : Prop :=
  ∀ x, a = Some x → own (etag x) = Some x.

Lemma later_written own a b : written own a → written own b → written own (later a b).
Proof. destruct a, b; simpl; [case_match|..]; auto. Qed.

Lemma later_comm own a b : written own a → written own b → later a b = later b a.
Proof.
  intros Ha Hb. destruct a as [x|], b as [y|]; [|done..]. simpl.
  pose proof (cmp_anti Compare (etag x) (etag y)) as Hanti. guards; try lia.
  assert (etag x = etag y) as Heq by (apply (cmp_eq Compare); lia).
  specialize (Ha x eq_refl). specialize (Hb y eq_refl). congruence.
Qed.

Lemma later_assoc a b c : later (later a b) c = later a (later b c).
Proof.
  destruct a as [x|], b as [y|], c as [z|]; simpl; try done; [|by case_match].
  pose proof (cmp_trans Compare (etag x) (etag y) (etag z)).
  pose proof (cmp_le_lt_trans Compare (etag y) (etag x) (etag z)).
  pose proof (cmp_anti Compare (etag x) (etag y)). pose proof (cmp_anti Compare (etag y) (etag z)).
  pose proof (cmp_le_trans Compare (etag z) (etag y) (etag x)). pose proof (cmp_anti Compare (etag x) (etag z)).
  repeat (guard_step; simpl); breflect; try done; lia.
Qed.

Lemma later_in a b x : later a b = Some x → a = Some x ∨ b = Some x.
Proof. destruct a, b; simpl; [case_match|..]; auto. Qed.

Lemma later_latest a b x :
  a = Some x ∨ b = Some x → ∃ y, later a b = Some y ∧ Compare (etag x) (etag y) <= 0.
Proof.
  assert (∀ x, Compare (etag x) (etag x) <= 0) as Hrefl by (intros y; by rewrite (cmp_refl Compare)).
  intros [->| ->]; [destruct b as [y|]|destruct a as [y|]]; simpl; eauto.
  - destruct (Z.ltb_spec (Compare (etag x) (etag y)) 0); eexists; (split; [done|]); [lia|done].
  - pose proof (cmp_anti Compare (etag y) (etag x)).
    destruct (Z.ltb_spec (Compare (etag y) (etag x)) 0); eexists; (split; [done|]); [done|lia].
Qed.

Lemma later_idem a : later a a = a.
Proof. destruct a as [x|]; simpl; [|done]. by case_match. Qed.

#[export] Instance later_lattice own : Lattice (written own) (=) later.
Proof.
  split.
  - apply _.
  - intros x y. apply later_written.
  - by intros x x' y y' _ _ _ _ -> ->.
  - intros x y. apply later_comm.
  - intros x y z _ _ _. apply later_assoc.
  - intros x _. apply later_idem.
Qed.
End tagged.

(** ** Maps of tagged entries *)

Section tagged_maps.
Context {K E : Type} `{Countable K} (etag : E → Tag).

(** The join loop of a map: an incoming entry replaces an older one. *)
Definition newer (_ : K) (current : option E) (incoming : E) : bool :=
  match current with None => true | Some c => Compare (etag c) (etag incoming) <? 0 end.

Definition join_later (m s : gmap K E) : gmap K E := foldl (upsert newer) m (map_to_list s).

Lemma join_later_order m s order k :
  order ≡ₚ map_to_list s → foldl (upsert newer) m order !! k = later etag (m !! k) (s !! k).
Proof.
  intros Ho. rewrite (upsert_map_lookup newer m s) by done. unfold newer, later.
  destruct (s !! k), (m !! k); simpl; [|done..]. by case_match.
Qed.

Lemma join_later_lookup m s k : join_later m s !! k = later etag (m !! k) (s !! k).
Proof. by apply join_later_order. Qed.

(** Every entry is the write of its tag, at the key it was written to. *)
Definition all_written (own : Tag → option (K * E)) (m : gmap K E) : Prop :=
  map_Forall (λ k e, own (etag e) = Some (k, e)) m.

Lemma all_written_lookup own m k :
  all_written own m →
  written etag (λ t, match own t with Some (k', e) => if decide (k' = k) then Some e else None | None => None end)
    (m !! k).
Proof. intros Hm e He. apply Hm in He. rewrite He. by rewrite decide_True. Qed.

#[export] Instance join_later_lattice own : Lattice (all_written own) (=) join_later.
Proof.
  assert (∀ x y, all_written own x → all_written own y → all_written own (join_later x y)) as Hw.
  { intros x y Hx Hy k e. rewrite join_later_lookup. unfold later.
    destruct (x !! k) eqn:Ex, (y !! k) eqn:Ey; [case_match|..]; intros [= <-]; auto. }
  split.
  - apply _.
  - apply Hw.
  - by intros x x' y y' _ _ _ _ -> ->.
  - intros x y Hx Hy. apply map_eq. intros k. rewrite !join_later_lookup.
    eapply later_comm; by apply all_written_lookup.
  - intros x y z _ _ _. apply map_eq. intros k. rewrite !join_later_lookup. apply later_assoc.
  - intros x _. apply map_eq. intros k. rewrite !join_later_lookup. apply later_idem.
Qed.

(** The write of [e] at [k] is among those the updates [ds] carry. *)
Definition carried (ds : list (gmap K E)) (k : K) (e : E) : Prop := ∃ es, es ∈ ds ∧ es !! k = Some e.

Lemma carried_cons d ds k e : carried (d :: ds) k e ↔ d !! k = Some e ∨ carried ds k e.
Proof. clear etag. unfold carried. setoid_rewrite elem_of_cons. naive_solver. Qed.

Lemma carried_nil k e : ¬ carried [] k e.
Proof. clear etag. by intros (es & Hes%elem_of_nil & _). Qed.

(** Delivering updates leaves at every key the latest write they carry to it. *)
Lemma deliver_latest m ds k :
  match deliver join_later m ds !! k with
  | None => ∀ e, ¬ carried (m :: ds) k e
  | Some e => carried (m :: ds) k e ∧ ∀ e', carried (m :: ds) k e' → Compare (etag e') (etag e) <= 0
  end.
Proof.
  revert m. induction ds as [|d ds IH]; intros m; cbn [deliver foldl].
  { destruct (m !! k) as [e|] eqn:He.
    - split; [exists m; split; [by left|done]|]. intros e' (es & ->%list_elem_of_singleton & He'). rewrite He in He'.
      injection He' as <-. by rewrite (cmp_refl Compare).
    - intros e (es & ->%list_elem_of_singleton & He'). congruence. }
  specialize (IH (join_later m d)). unfold deliver in IH. assert (∀ e, join_later m d !! k = Some e → carried (m :: d :: ds) k e) as Hin.
  { intros e. rewrite join_later_lookup. intros [?|?]%later_in; [exists m|exists d]; set_solver. }
  assert (∀ e, carried (m :: d :: ds) k e →
    carried (join_later m d :: ds) k e ∨ ∃ e', join_later m d !! k = Some e' ∧ Compare (etag e) (etag e') <= 0) as Hout.
  { intros e (es & [->|[->|Hes]%elem_of_cons]%elem_of_cons & He); [right..|left; exists es; set_solver];
      rewrite join_later_lookup; apply later_latest; auto. }
  destruct (foldl _ _ _ !! k) as [x|].
  - destruct IH as [(es & Hes & Hx) Hmax]. split.
    + apply elem_of_cons in Hes as [->|Hes]; [by apply Hin|]. exists es. set_solver.
    + intros e [He|(e' & He' & Hle)]%Hout; [by apply Hmax|]. specialize (Hmax e').
      apply (cmp_le_trans Compare _ (etag e')); [done|]. apply Hmax. exists (join_later m d). split; [by left|done].
  - intros e [He|(e' & He' & _)]%Hout; [by apply (IH e)|]. apply (IH e'). exists (join_later m d). split; [by left|done].
Qed.

(** Updates that carry the same writes, however they are split, converge. *)
Lemma writes_converge own m1 m2 ds1 ds2 :
  Forall (all_written own) (m1 :: ds1) → Forall (all_written own) (m2 :: ds2) →
  (∀ k e, carried (m1 :: ds1) k e ↔ carried (m2 :: ds2) k e) →
  deliver join_later m1 ds1 = deliver join_later m2 ds2.
Proof.
  intros H1 H2 Hsame. apply map_eq. intros k. pose proof (deliver_latest m1 ds1 k) as Hk1. pose proof (deliver_latest m2 ds2 k) as Hk2.
  destruct (deliver join_later m1 ds1 !! k) as [x|], (deliver join_later m2 ds2 !! k) as [y|]; [|naive_solver..|done].
  destruct Hk1 as [Hx Hmx], Hk2 as [Hy Hmy]. pose proof (Hmx y (proj2 (Hsame k y) Hy)). pose proof (Hmy x (proj1 (Hsame k x) Hx)).
  pose proof (cmp_anti Compare (etag x) (etag y)). assert (etag x = etag y) as Heq by (apply (cmp_eq Compare); lia).
  assert (own (etag x) = Some (k, x) ∧ own (etag y) = Some (k, y)) as [Hox Hoy]; [|congruence].
  rewrite Forall_forall in H1, H2. destruct Hx as (es & Hes & Hx), Hy as (es' & Hes' & Hy).
  split; [by apply (H1 es Hes)|by apply (H2 es' Hes')].
Qed.
End tagged_maps.
