(* ===== verification/Wire.v ===== *)
(** * Canonical wire primitives

    Models the primitives of src/encoding/frame.go on which every framed codec
    rests: shortest-form unsigned varints ([AppendUvarint], [ReadUvarint]),
    length-prefixed byte strings ([ReadBytes]) and canonical tags ([AppendTag],
    [ReadTag]), with the parts of Go's encoding/binary they call.

    Decoders take the whole buffer and a position, as in the source, and return
    the value with the next position ([None] is [ok == false]). *)

From S2P Require Import Prelude Tags.

(** [data[from:to]] *)
Definition slice {A} (data : list A) (from to : Z) : list A :=
  take (Z.to_nat (to - from)) (drop (Z.to_nat from) data).

(** [data[from:]] *)
Definition slice_from {A} (data : list A) (from : Z) : list A := drop (Z.to_nat from) data.

(** ** Unsigned varints *)

(** [binary.MaxVarintLen64] *)
Definition MaxVarintLen64 : Z := 10.

(** The loop of [binary.PutUvarint]: seven bits per byte, least significant
    group first, the high bit marking every byte but the last. *)
Fixpoint putUvarint_loop (fuel : nat) (x : Z) : bytes :=
  match fuel with
  | O => []
  | S fuel' =>
      if 0x80 <=? x then Zbyte (Z.lor x 0x80) :: putUvarint_loop fuel' (Z.shiftr x 7)
      else [Zbyte x]
  end.

(** [binary.PutUvarint]; a 64-bit value takes at most ten rounds. *)
Definition putUvarint (x : Z) : bytes := putUvarint_loop (Z.to_nat MaxVarintLen64) x.

(** The loop of [binary.Uvarint]: the value and the number of bytes read, which
    is 0 for a truncated and negative for an overflowing encoding. *)
Fixpoint uvarint_loop (buf : bytes) (i x s : Z) : Z * Z :=
  match buf with
  | [] => (0, 0)
  | b :: buf' =>
      if i =? MaxVarintLen64 then (0, -(i + 1))
      else if byteZ b <? 0x80 then
        if (i =? MaxVarintLen64 - 1) && (1 <? byteZ b) then (0, -(i + 1))
        else (Z.lor x (u64 (Z.shiftl (byteZ b) s)), i + 1)
      else
        uvarint_loop buf' (i + 1) (Z.lor x (u64 (Z.shiftl (Z.land (byteZ b) 0x7f) s))) (s + 7)
  end.

(** [binary.Uvarint] *)
Definition Uvarint (buf : bytes) : Z * Z := uvarint_loop buf 0 0 0.

(** [AppendUvarint] *)
Definition AppendUvarint (dst : bytes) (value : Z) : bytes := dst ++ putUvarint value.

(** [UvarintSize] *)
Definition UvarintSize (value : Z) : Z := len (putUvarint value).

(** [ReadUvarint] *)
Definition ReadUvarint (data : bytes) (position : Z) : option (Z * Z) :=
  if (position <? 0) || (len data <=? position) then None
  else
    let '(value, count) := Uvarint (slice_from data position) in
    if count <=? 0 then None
    else if negb (UvarintSize value =? count) then None
    else Some (value, position + count).

(** [uint64AsInt] *)
Definition uint64AsInt (value : Z) : option Z :=
  if maxInt <? value then None else Some value.

(** [ReadBytes] *)
Definition ReadBytes (data : bytes) (position max : Z) : option (bytes * Z) :=
  if max <? 0 then None
  else match ReadUvarint data position with
       | None => None
       | Some (length, next) =>
           match uint64AsInt length with
           | None => None
           | Some lengthInt =>
               if (max <? lengthInt) || (len data - next <? lengthInt) then None
               else let end_ := next + lengthInt in Some (slice data next end_, end_)
           end
       end.

(** ** Tags *)

(** [AppendTag] *)
Definition AppendTag (dst : bytes) (tag : Tag) : bytes :=
  let dst := AppendUvarint dst (len (ReplicaID tag)) in
  let dst := dst ++ ReplicaID tag in
  let dst := AppendUvarint dst (WallTime tag) in
  AppendUvarint dst (Logical tag).

(** [TagSize] *)
Definition TagSize (tag : Tag) : Z :=
  UvarintSize (len (ReplicaID tag)) + len (ReplicaID tag) +
  UvarintSize (WallTime tag) + UvarintSize (Logical tag).

(** [ReadTag] *)
Definition ReadTag (data : bytes) (position maxStringBytes : Z) : option (Tag * Z) :=
  match ReadBytes data position maxStringBytes with
  | None => None
  | Some (replicaID, next) =>
      match ReadUvarint data next with
      | None => None
      | Some (wallTime, next) =>
          match ReadUvarint data next with
          | None => None
          | Some (logical, next) =>
              let tag := mkTag replicaID wallTime logical in
              if negb (Valid tag) then None else Some (tag, next)
          end
      end
  end.

(** ** Varint lemmas *)

(** The value of a varint by recursion on its bytes, with its length; the
    specification both loops are compared with. *)
Fixpoint varint_value (buf : bytes) : option (Z * Z) :=
  match buf with
  | [] => None
  | b :: buf' =>
      if byteZ b <? 0x80 then Some (byteZ b, 1)
      else match varint_value buf' with
           | None => None
           | Some (v, n) => Some (byteZ b - 0x80 + 0x80 * v, n + 1)
           end
  end.

Lemma varint_value_range buf v n : varint_value buf = Some (v, n) → 0 <= v ∧ 1 <= n.
Proof.
  revert v n. induction buf as [|b buf IH]; intros v n; simpl; [done|].
  pose proof (byteZ_range b). destruct (Z.ltb_spec (byteZ b) 0x80).
  - intros [= <- <-]. lia.
  - destruct (varint_value buf) as [[v' n']|]; [|done]. intros [= <- <-].
    specialize (IH _ _ eq_refl). lia.
Qed.

Lemma testbit_small x s n : 0 <= x < 2 ^ s → s <= n → Z.testbit x n = false.
Proof.
  intros Hx Hn. destruct (decide (x = 0)) as [->|]; [apply Z.bits_0|].
  apply Z.bits_above_log2; [lia|]. apply Z.log2_lt_pow2; [lia|].
  pose proof (Z.pow_le_mono_r 2 s n). lia.
Qed.

Lemma lor_shiftl x y s : 0 <= s → 0 <= x < 2 ^ s → Z.lor x (Z.shiftl y s) = x + y * 2 ^ s.
Proof.
  intros Hs Hx. rewrite <-Z.shiftl_mul_pow2 by done. symmetry. apply Z.add_nocarry_lor.
  apply Z.bits_inj'. intros n Hn. rewrite Z.land_spec, Z.bits_0.
  destruct (decide (n < s)); [rewrite Z.shiftl_spec_low by done; apply andb_false_r|].
  rewrite (testbit_small x s n) by lia. done.
Qed.

Lemma land_7f x : Z.land x 0x7f = x `mod` 128.
Proof. apply (Z.land_ones x 7). lia. Qed.

(** A continuation byte of [putUvarint_loop] carries the low seven bits. *)
Lemma put_byte x : byteZ (Zbyte (Z.lor x 0x80)) = x `mod` 128 + 128.
Proof.
  rewrite byteZ_Zbyte. change 256 with (2 ^ 8). rewrite <-Z.land_ones, Z.land_lor_distr_l by lia.
  change (Z.land 0x80 (Z.ones 8)) with (Z.shiftl 1 7).
  replace (Z.land x (Z.ones 8)) with (Z.lor (x `mod` 128) (Z.shiftl ((x `div` 128) `mod` 2) 7)).
  - rewrite <-Z.lor_assoc, <-Z.shiftl_lor.
    pose proof (Z.mod_pos_bound (x `div` 128) 2 eq_refl).
    replace (Z.lor ((x `div` 128) `mod` 2) 1) with 1
      by (assert ((x `div` 128) `mod` 2 = 0 ∨ (x `div` 128) `mod` 2 = 1) as [->| ->] by lia; done).
    rewrite lor_shiftl; [lia|lia|]. apply (Z.mod_pos_bound x 128). lia.
  - rewrite lor_shiftl; [|lia|apply (Z.mod_pos_bound x 128); lia].
    rewrite Z.land_ones by lia. change (2 ^ 8) with (128 * 2). change (2 ^ 7) with 128.
    rewrite Z.rem_mul_r by lia. lia.
Qed.

Lemma fuel_pos fuel x : 128 <= x → x < 128 ^ Z.of_nat (S fuel) → (0 < fuel)%nat.
Proof. destruct fuel; [|lia]. change (128 ^ Z.of_nat 1) with 128. lia. Qed.

Lemma putUvarint_loop_value fuel x rest :
  (0 < fuel)%nat → 0 <= x < 128 ^ Z.of_nat fuel →
  varint_value (putUvarint_loop fuel x ++ rest) = Some (x, len (putUvarint_loop fuel x)).
Proof.
  revert x. induction fuel as [|fuel IH]; intros x Hf Hx; [lia|].
  simpl. destruct (Z.leb_spec 0x80 x); simpl.
  - rewrite put_byte, Z.shiftr_div_pow2 by lia. change (2 ^ 7) with 128.
    pose proof (Z.mod_pos_bound x 128 eq_refl).
    destruct (Z.ltb_spec (x `mod` 128 + 128) 0x80); [lia|].
    rewrite IH; [|apply (fuel_pos _ x); lia|].
    + rewrite len_cons. f_equal. f_equal; [|lia]. pose proof (Z.div_mod x 128). lia.
    + rewrite Nat2Z.inj_succ, Z.pow_succ_r in Hx by lia.
      split; [apply Z.div_pos; lia|]. apply Z.div_lt_upper_bound; lia.
  - rewrite byteZ_Zbyte, Z.mod_small by lia.
    destruct (Z.ltb_spec x 0x80); [|lia]. done.
Qed.

Lemma putUvarint_loop_canonical fuel buf v n :
  varint_value buf = Some (v, n) → v < 128 ^ Z.of_nat fuel →
  len (putUvarint_loop fuel v) <= n ∧
  (len (putUvarint_loop fuel v) = n → buf = putUvarint_loop fuel v ++ slice_from buf n).
Proof.
  revert buf v n. induction fuel as [|fuel IH]; intros buf v n Hv Hf.
  { apply varint_value_range in Hv. simpl. unfold len; simpl. lia. }
  destruct buf as [|b buf]; simpl in Hv; [done|].
  pose proof (byteZ_range b). destruct (Z.ltb_spec (byteZ b) 0x80).
  - injection Hv as <- <-. simpl. destruct (Z.leb_spec 0x80 (byteZ b)); [lia|].
    split; [done|]. intros _. by rewrite Zbyte_byteZ.
  - destruct (varint_value buf) as [[v' n']|] eqn:E; [|done]. injection Hv as <- <-.
    pose proof (varint_value_range _ _ _ E).
    rewrite Nat2Z.inj_succ, Z.pow_succ_r in Hf by lia.
    destruct (IH buf v' n') as [IH1 IH2]; [done|lia|].
    simpl. set (w := byteZ b - 128 + 128 * v').
    assert (w `mod` 128 = byteZ b - 128) as Hm.
    { unfold w. rewrite (Z.mul_comm 128), Z.mod_add by lia. apply Z.mod_small. lia. }
    assert (w `div` 128 = v') as Hd.
    { pose proof (Z.div_mod w 128). lia. }
    destruct (Z.leb_spec 0x80 w).
    + rewrite Z.shiftr_div_pow2 by lia. change (2 ^ 7) with 128. rewrite Hd, len_cons.
      split; [lia|]. intros Hn. unfold slice_from.
      replace (Z.to_nat (n' + 1)) with (S (Z.to_nat n')) by lia. simpl. f_equal.
      * apply byteZ_inj. rewrite put_byte. lia.
      * apply IH2. lia.
    + rewrite len_cons, len_nil. split; [lia|]. intros. lia.
Qed.

Lemma putUvarint_loop_length fuel x :
  (0 < fuel)%nat → 0 <= x < 128 ^ Z.of_nat fuel → 1 <= len (putUvarint_loop fuel x) <= Z.of_nat fuel.
Proof.
  revert x. induction fuel as [|fuel IH]; intros x Hf Hx; [lia|].
  simpl. destruct (Z.leb_spec 0x80 x); rewrite len_cons; [|rewrite len_nil; lia].
  rewrite Nat2Z.inj_succ, Z.pow_succ_r in Hx by lia.
  assert (0 <= Z.shiftr x 7 < 128 ^ Z.of_nat fuel) as Hx'%IH; [|lia|].
  2: { apply (fuel_pos _ x); [done|]. rewrite Nat2Z.inj_succ, Z.pow_succ_r; lia. }
  rewrite Z.shiftr_div_pow2 by lia. change (2 ^ 7) with 128.
  split; [apply Z.div_pos; lia|]. apply Z.div_lt_upper_bound; lia.
Qed.

(** [uvarint_loop] computes [varint_value] on every encoding of at most ten
    bytes whose value fits in 64 bits, and only on those. *)
Lemma uvarint_loop_spec buf i x s v n :
  0 <= i <= 9 → s = 7 * i → 0 <= x < 2 ^ s →
  uvarint_loop buf i x s = (v, n) → 0 < n →
  ∃ w k, varint_value buf = Some (w, k) ∧ v = x + w * 2 ^ s ∧ n = i + k ∧ is_u64 v.
Proof.
  revert i x s. induction buf as [|b buf IH]; intros i x s Hi -> Hx; simpl.
  { intros [= <- <-]. lia. }
  pose proof (byteZ_range b) as Hb. unfold MaxVarintLen64.
  destruct (Z.eqb_spec i 10); [lia|].
  destruct (Z.ltb_spec (byteZ b) 0x80).
  - destruct (Z.eqb_spec i (10 - 1)), (Z.ltb_spec 1 (byteZ b)); simpl;
      try (intros [= <- <-]; lia).
    all: intros [= <- <-] _; exists (byteZ b), 1.
    all: assert (Hlt : 0 <= byteZ b * 2 ^ (7 * i) ∧ x + byteZ b * 2 ^ (7 * i) < 2 ^ 64).
    1: { subst i. change (2 ^ (7 * (10 - 1))) with (2 ^ 63) in *. lia. }
    2, 4: pose proof (Z.pow_le_mono_r 2 (7 * i) 56 ltac:(lia) ltac:(lia)); nia.
    all: rewrite u64_small by (rewrite Z.shiftl_mul_pow2 by lia; unfold is_u64; lia).
    all: rewrite lor_shiftl by lia; unfold is_u64; split_and!; try done; lia.
  - rewrite land_7f. destruct (decide (i = 9)) as [->|].
    { destruct buf as [|b' buf]; simpl; [intros [= <- <-]; lia|].
      intros [= <- <-]. lia. }
    pose proof (Z.mod_pos_bound (byteZ b) 128 eq_refl).
    assert (byteZ b `mod` 128 = byteZ b - 128) as Hbm.
    { replace (byteZ b) with (byteZ b - 128 + 1 * 128) at 1 by lia.
      rewrite Z.mod_add by lia. apply Z.mod_small. lia. }
    pose proof (Z.pow_le_mono_r 2 (7 * i) 56 ltac:(lia) ltac:(lia)).
    rewrite u64_small by (rewrite Z.shiftl_mul_pow2 by lia; unfold is_u64; nia).
    rewrite lor_shiftl by lia. rewrite Hbm. intros Hl Hn.
    assert (2 ^ (7 * i + 7) = 2 ^ (7 * i) * 128) as Hpow by (rewrite Z.pow_add_r by lia; done).
    apply IH in Hl as (w & k & Hv & -> & -> & Hu); [|lia..| |done].
    + rewrite Hv. eexists _, _. split; [done|]. split; [rewrite Hpow; lia|]. split; [lia|done].
    + rewrite Hpow. nia.
Qed.

Lemma uvarint_loop_complete buf i x s w k :
  0 <= i → i + k <= 10 → s = 7 * i → 0 <= x < 2 ^ s →
  varint_value buf = Some (w, k) → x + w * 2 ^ s < 2 ^ 64 →
  uvarint_loop buf i x s = (x + w * 2 ^ s, i + k).
Proof.
  revert i x s w k. induction buf as [|b buf IH]; intros i x s w k Hi Hk -> Hx; simpl; [done|].
  pose proof (byteZ_range b) as Hb. unfold MaxVarintLen64.
  pose proof (Z.pow_pos_nonneg 2 (7 * i) ltac:(lia) ltac:(lia)).
  destruct (Z.ltb_spec (byteZ b) 0x80).
  - intros [= <- <-] Hlt. destruct (Z.eqb_spec i 10); [lia|].
    destruct (Z.eqb_spec i (10 - 1)), (Z.ltb_spec 1 (byteZ b)); simpl.
    1: { subst i. change (2 ^ (7 * (10 - 1))) with (2 ^ 63) in *. lia. }
    all: rewrite u64_small by (rewrite Z.shiftl_mul_pow2 by lia; unfold is_u64; nia).
    all: by rewrite lor_shiftl by lia.
  - destruct (varint_value buf) as [[w' k']|] eqn:E; [|done]. intros [= <- <-] Hlt.
    pose proof (varint_value_range _ _ _ E).
    destruct (Z.eqb_spec i 10); [lia|]. rewrite land_7f.
    assert (byteZ b `mod` 128 = byteZ b - 128) as Hbm.
    { replace (byteZ b) with (byteZ b - 128 + 1 * 128) at 1 by lia.
      rewrite Z.mod_add by lia. apply Z.mod_small. lia. }
    rewrite Hbm, u64_small by (rewrite Z.shiftl_mul_pow2 by lia; unfold is_u64; nia).
    rewrite lor_shiftl by lia.
    assert (2 ^ (7 * i + 7) = 2 ^ (7 * i) * 128) as Hpow by (rewrite Z.pow_add_r by lia; done).
    rewrite (IH _ _ _ w' k'); [|try lia..|done|].
    + f_equal; [rewrite Hpow; lia|lia].
    + rewrite Hpow. nia.
    + rewrite Hpow. nia.
Qed.

Lemma u64_fuel v : is_u64 v → 0 <= v < 128 ^ Z.of_nat (Z.to_nat MaxVarintLen64).
Proof. unfold is_u64. change (128 ^ _) with (2 ^ 70). lia. Qed.

Lemma UvarintSize_bounds v : is_u64 v → 1 <= UvarintSize v <= 10.
Proof. intros Hv%u64_fuel. by apply putUvarint_loop_length in Hv; [|compute; lia]. Qed.

Lemma putUvarint_loop_S fuel x :
  putUvarint_loop (S fuel) x =
  if 0x80 <=? x then Zbyte (Z.lor x 0x80) :: putUvarint_loop fuel (Z.shiftr x 7)
  else [Zbyte x].
Proof. done. Qed.

Lemma putUvarint_pos v : 1 <= len (putUvarint v).
Proof.
  unfold putUvarint. change (Z.to_nat MaxVarintLen64) with (S 9). rewrite putUvarint_loop_S.
  destruct (0x80 <=? v); [|done]. rewrite len_cons. pose proof (len_nonneg (putUvarint_loop 9 (Z.shiftr v 7))).
  lia.
Qed.

Lemma UvarintSize_small v : 0 <= v < 128 → UvarintSize v = 1.
Proof.
  intros. unfold UvarintSize, putUvarint. change (Z.to_nat MaxVarintLen64) with (S 9).
  rewrite putUvarint_loop_S. destruct (Z.leb_spec 128 v); [lia|done].
Qed.

Lemma Uvarint_put v rest : is_u64 v → Uvarint (putUvarint v ++ rest) = (v, UvarintSize v).
Proof.
  intros Hv. pose proof (UvarintSize_bounds v Hv) as Hb. unfold Uvarint.
  rewrite (uvarint_loop_complete _ 0 0 0 v (UvarintSize v)); try lia.
  - f_equal; lia.
  - apply putUvarint_loop_value; [compute; lia|]. by apply u64_fuel.
  - unfold is_u64 in Hv. lia.
Qed.

Lemma Uvarint_inv buf v n :
  Uvarint buf = (v, n) → 0 < n → UvarintSize v = n →
  is_u64 v ∧ buf = putUvarint v ++ slice_from buf n.
Proof.
  intros Hl Hn Hs. apply uvarint_loop_spec in Hl as (w & k & Hv & -> & -> & Hu); try lia.
  replace (0 + w * 2 ^ 0) with w in * by lia. replace (0 + k) with k in * by lia.
  split; [done|]. apply (putUvarint_loop_canonical (Z.to_nat MaxVarintLen64)) in Hv as [_ Hv].
  - by apply Hv.
  - apply u64_fuel in Hu. lia.
Qed.

(** ** Positions in a buffer *)

(** [rest] is what remains of [data] at [position]. *)
Definition remaining (data : bytes) (position : Z) (rest : bytes) : Prop :=
  0 <= position <= len data ∧ slice_from data position = rest.

Lemma remaining_start data : remaining data 0 data.
Proof. split; [pose proof (len_nonneg data); lia|done]. Qed.

Lemma remaining_intro pre rest : remaining (pre ++ rest) (len pre) rest.
Proof.
  split; [rewrite len_app; pose proof (len_nonneg pre); pose proof (len_nonneg rest); lia|].
  unfold slice_from, len. by rewrite Nat2Z.id, drop_app_length.
Qed.

Lemma remaining_len data pos rest : remaining data pos rest → len data = pos + len rest.
Proof.
  intros [Hp <-]. unfold len, slice_from in *. rewrite length_drop. lia.
Qed.

Lemma remaining_app data pos a b : remaining data pos (a ++ b) → remaining data (pos + len a) b.
Proof.
  intros Hr. pose proof (remaining_len _ _ _ Hr) as Hl. destruct Hr as [Hp Hr].
  rewrite len_app in Hl. pose proof (len_nonneg a). pose proof (len_nonneg b).
  split; [lia|]. unfold slice_from, len in *.
  rewrite Z2Nat.inj_add, Nat2Z.id, <-drop_drop, Hr, drop_app_length by lia. done.
Qed.

Lemma remaining_nil data pos : remaining data pos [] ↔ pos = len data.
Proof.
  split.
  - intros Hr%remaining_len. rewrite len_nil in Hr. lia.
  - intros ->. rewrite <-(app_nil_r data) at 1. apply remaining_intro.
Qed.

Lemma remaining_unique data pos r r' : remaining data pos r → remaining data pos r' → r = r'.
Proof. by intros [_ <-] [_ <-]. Qed.

(** What remains after [a] continues what remained before it. *)
Lemma remaining_cons data pos a r r' :
  remaining data pos (a ++ r) → remaining data (pos + len a) r' → remaining data pos (a ++ r').
Proof. intros Hr Hr'. by rewrite (remaining_unique _ _ _ _ Hr' (remaining_app _ _ _ _ Hr)). Qed.

Lemma remaining_slice data pos rest :
  0 <= pos <= len data → slice_from data pos = rest → remaining data pos rest.
Proof. by split. Qed.

Lemma ReadUvarint_ok data pos v rest :
  is_u64 v → remaining data pos (putUvarint v ++ rest) →
  ReadUvarint data pos = Some (v, pos + UvarintSize v) ∧
  remaining data (pos + UvarintSize v) rest.
Proof.
  intros Hv Hr. split; [|by apply (remaining_app _ _ (putUvarint v))].
  pose proof (remaining_len _ _ _ Hr) as Hl. destruct Hr as [Hp Hr].
  rewrite len_app in Hl. fold (UvarintSize v) in Hl.
  pose proof (UvarintSize_bounds v Hv). pose proof (len_nonneg rest).
  unfold ReadUvarint. destruct (Z.ltb_spec pos 0), (Z.leb_spec (len data) pos); try lia. simpl.
  rewrite Hr, Uvarint_put by done.
  destruct (Z.leb_spec (UvarintSize v) 0); [lia|]. rewrite Z.eqb_refl. done.
Qed.

Lemma ReadUvarint_inv data pos v next :
  ReadUvarint data pos = Some (v, next) →
  is_u64 v ∧ next = pos + UvarintSize v ∧
  ∃ rest, remaining data pos (putUvarint v ++ rest) ∧ remaining data next rest.
Proof.
  unfold ReadUvarint. destruct (Z.ltb_spec pos 0), (Z.leb_spec (len data) pos); try done. simpl.
  destruct (Uvarint (slice_from data pos)) as [w n] eqn:E.
  destruct (Z.leb_spec n 0); [done|]. destruct (Z.eqb_spec (UvarintSize w) n) as [Hn|]; [|done]. simpl.
  intros [= -> <-]. apply Uvarint_inv in E as [Hu Hb]; [|lia..]. subst n.
  split; [done|]. split; [lia|]. eexists. split; [split; [lia|exact Hb]|].
  apply (remaining_app _ _ (putUvarint v)). split; [lia|exact Hb].
Qed.

(** The canonical encoding of a byte string: its length, then its bytes. *)
Definition bytes_enc (s : bytes) : bytes := putUvarint (len s) ++ s.

(** The canonical encoding of a tag. *)
Definition tag_enc (t : Tag) : bytes :=
  bytes_enc (ReplicaID t) ++ putUvarint (WallTime t) ++ putUvarint (Logical t).

Lemma AppendTag_enc dst t : AppendTag dst t = dst ++ tag_enc t.
Proof. unfold AppendTag, AppendUvarint, tag_enc, bytes_enc. by rewrite !app_assoc. Qed.

Lemma len_bytes_enc s : len (bytes_enc s) = UvarintSize (len s) + len s.
Proof. apply len_app. Qed.

Lemma bytes_enc_pos s : 1 <= len (bytes_enc s).
Proof.
  rewrite len_bytes_enc. pose proof (putUvarint_pos (len s)). pose proof (len_nonneg s).
  unfold UvarintSize. lia.
Qed.

Lemma len_tag_enc t : len (tag_enc t) = TagSize t.
Proof. unfold tag_enc, TagSize. rewrite !len_app, len_bytes_enc. unfold UvarintSize. lia. Qed.

(** A slice held in memory has a length that fits in an [int]. *)
Definition len_ok {A} (s : list A) : Prop := len s <= maxInt.

Lemma len_ok_u64 {A} (s : list A) : len_ok s → is_u64 (len s).
Proof. unfold len_ok, is_u64, maxInt. pose proof (len_nonneg s). lia. Qed.

#[export] Hint Resolve len_ok_u64 bytes_enc_pos : go.

(** Length-prefixed values are prefix free. *)
Lemma putUvarint_app_inj a b x y :
  is_u64 a → is_u64 b → putUvarint a ++ x = putUvarint b ++ y → a = b ∧ x = y.
Proof.
  intros Ha Hb Heq. pose proof (Uvarint_put a x Ha) as Ea. rewrite Heq, (Uvarint_put b y Hb) in Ea.
  injection Ea as <- _. split; [done|]. by apply app_inv_head in Heq.
Qed.

Lemma bytes_enc_app_inj s t x y :
  len_ok s → len_ok t → bytes_enc s ++ x = bytes_enc t ++ y → s = t ∧ x = y.
Proof.
  intros Hs Ht. unfold bytes_enc. rewrite <-!app_assoc.
  intros [Hl Heq]%putUvarint_app_inj; [|by auto with go..].
  apply app_inj_1 in Heq; [done|]. unfold len in Hl. lia.
Qed.

Lemma slice_remaining data pos s rest :
  remaining data pos (s ++ rest) → slice data pos (pos + len s) = s.
Proof.
  intros [Hp Hr]. unfold slice, slice_from in *. rewrite Hr.
  replace (Z.to_nat (pos + len s - pos)) with (length s) by (unfold len; lia).
  apply take_app_length.
Qed.

Lemma ReadBytes_ok data pos max s rest :
  len_ok s → len s <= max → remaining data pos (bytes_enc s ++ rest) →
  ReadBytes data pos max = Some (s, pos + len (bytes_enc s)) ∧
  remaining data (pos + len (bytes_enc s)) rest.
Proof.
  intros Hok Hmax Hr. split; [|by apply remaining_app].
  unfold bytes_enc in Hr. rewrite <-app_assoc in Hr.
  apply ReadUvarint_ok in Hr as [Hu Hr]; [|by apply len_ok_u64].
  pose proof (remaining_len _ _ _ Hr) as Hl. rewrite len_app in Hl.
  pose proof (len_nonneg s). pose proof (len_nonneg rest).
  unfold ReadBytes. destruct (Z.ltb_spec max 0); [lia|]. rewrite Hu.
  unfold uint64AsInt. unfold len_ok in Hok. destruct (Z.ltb_spec maxInt (len s)); [lia|].
  destruct (Z.ltb_spec max (len s)); [lia|].
  destruct (Z.ltb_spec (len data - (pos + UvarintSize (len s))) (len s)); [lia|]. simpl.
  rewrite (slice_remaining _ _ _ rest), len_bytes_enc by done. f_equal. f_equal. lia.
Qed.

Lemma ReadBytes_inv data pos max s next :
  ReadBytes data pos max = Some (s, next) →
  len_ok s ∧ len s <= max ∧ next = pos + len (bytes_enc s) ∧
  ∃ rest, remaining data pos (bytes_enc s ++ rest) ∧ remaining data next rest.
Proof.
  unfold ReadBytes. destruct (Z.ltb_spec max 0); [done|].
  destruct (ReadUvarint data pos) as [[l n]|] eqn:E; [|done].
  apply ReadUvarint_inv in E as (Hu & -> & rest & Hr1 & Hr2).
  unfold uint64AsInt. destruct (Z.ltb_spec maxInt l); [done|].
  destruct (Z.ltb_spec max l), (Z.ltb_spec (len data - (pos + UvarintSize l)) l); try done. simpl.
  pose proof (remaining_len _ _ _ Hr2) as Hl. unfold is_u64 in Hu.
  assert (∃ s' rest', rest = s' ++ rest' ∧ len s' = l) as (s' & rest' & -> & <-).
  { exists (take (Z.to_nat l) rest), (drop (Z.to_nat l) rest).
    split; [by rewrite take_drop|]. unfold len in *. rewrite length_take. lia. }
  rewrite (slice_remaining _ _ _ rest') by done. intros [= <- <-].
  rewrite len_bytes_enc. split; [done|]. split; [lia|]. split; [lia|].
  exists rest'. unfold bytes_enc. rewrite <-app_assoc. split; [done|by apply remaining_app].
Qed.

Lemma ReadTag_ok data pos max t rest :
  tag_wf t → Valid t = true → len_ok (ReplicaID t) → len (ReplicaID t) <= max →
  remaining data pos (tag_enc t ++ rest) →
  ReadTag data pos max = Some (t, pos + TagSize t) ∧ remaining data (pos + TagSize t) rest.
Proof.
  intros [Hw Hl] Hv Hok Hmax Hr.
  split; [|rewrite <-len_tag_enc; by apply remaining_app].
  unfold tag_enc in Hr. rewrite <-!app_assoc in Hr.
  apply (ReadBytes_ok _ _ max) in Hr as [Hb Hr]; [|done..].
  apply ReadUvarint_ok in Hr as [Hu Hr]; [|done].
  apply ReadUvarint_ok in Hr as [Hu' Hr]; [|done].
  unfold ReadTag. rewrite Hb, Hu, Hu'. destruct t as [r w l]; simpl in *. rewrite Hv. simpl.
  f_equal. f_equal. unfold TagSize. simpl. rewrite len_bytes_enc. lia.
Qed.

Lemma ReadTag_inv data pos max t next :
  ReadTag data pos max = Some (t, next) →
  tag_wf t ∧ Valid t = true ∧ len_ok (ReplicaID t) ∧ len (ReplicaID t) <= max ∧
  next = pos + TagSize t ∧
  ∃ rest, remaining data pos (tag_enc t ++ rest) ∧ remaining data next rest.
Proof.
  unfold ReadTag. destruct (ReadBytes data pos max) as [[r n1]|] eqn:E1; [|done].
  destruct (ReadUvarint data n1) as [[w n2]|] eqn:E2; [|done].
  destruct (ReadUvarint data n2) as [[l n3]|] eqn:E3; [|done].
  destruct (Valid (mkTag r w l)) eqn:Ev; simpl; [|done]. intros [= <- <-].
  apply ReadBytes_inv in E1 as (Hok & Hmax & -> & rest1 & Hr1 & Hr1').
  apply ReadUvarint_inv in E2 as (Hw & -> & rest2 & Hr2 & Hr2').
  apply ReadUvarint_inv in E3 as (Hl & -> & rest3 & Hr3 & Hr3').
  pose proof (proj2 Hr1') as H1. rewrite (proj2 Hr2) in H1.
  pose proof (proj2 Hr2') as H2. rewrite (proj2 Hr3) in H2.
  split; [done|]. split; [done|]. split; [done|]. split; [done|].
  split; [unfold TagSize; simpl; rewrite len_bytes_enc; lia|].
  exists rest3. split; [|done]. unfold tag_enc. simpl. rewrite <-!app_assoc.
  by rewrite H2, H1.
Qed.

Lemma remaining_iff data pos rest :
  remaining data pos rest ↔ ∃ pre, data = pre ++ rest ∧ pos = len pre.
Proof.
  split.
  - intros [Hp <-]. exists (take (Z.to_nat pos) data). unfold slice_from.
    split; [by rewrite take_drop|]. unfold len in *. rewrite length_take. lia.
  - intros (pre & -> & ->). apply remaining_intro.
Qed.

(** ** Decoder loops

    Every payload decoder is a loop [for i := 0; i < count; i++] whose body reads
    one entry. [read_loop] is that loop over the body [step]: it takes the index,
    the accumulator and the position. A body that succeeds advances the position,
    so [length data + 1] rounds are enough; running out of fuel is the refusal
    the body itself gives at the end of the data. *)
Fixpoint read_loop {ACC} (step : Z → ACC → Z → result (ACC * Z)) (fuel : nat)
    (i count position : Z) (acc : ACC) : result (ACC * Z) :=
  if i <? count then
    match fuel with
    | O => Err ErrInvalidFrame
    | S fuel' =>
        match step i acc position with
        | Err e => Err e
        | Ok (acc', position') => read_loop step fuel' (i + 1) count position' acc'
        end
    end
  else Ok (acc, position).

(** The lists a body accepts entry by entry. *)
Inductive accepted {E} (ok : list E → E → Prop) : list E → Prop :=
| accepted_nil : accepted ok []
| accepted_snoc l e : accepted ok l → ok l e → accepted ok (l ++ [e]).

Lemma accepted_middle {E} (ok : list E → E → Prop) pre e l :
  accepted ok (pre ++ e :: l) → accepted ok pre ∧ ok pre e.
Proof.
  revert pre e. induction l as [|x l IH] using rev_ind; intros pre e Hacc.
  - inversion Hacc as [Hn|l' e' ? ? Hn]; [by destruct pre|]. by apply app_inj_tail in Hn as [-> ->].
  - apply IH. rewrite app_comm_cons, app_assoc in Hacc.
    inversion Hacc as [Hn|l' e' ? ? Hn]; [by destruct (pre ++ e :: l)|].
    by apply app_inj_tail in Hn as [-> ->].
Qed.

Section read_loop.
Context {E ACC : Type} (data : bytes) (step : Z → ACC → Z → result (ACC * Z)).
Context (enc : E → bytes) (ok : list E → E → Prop) (abs : list E → ACC).
Context (Henc : ∀ e, 1 <= len (enc e)).
Context (Hok : ∀ l e pos rest, accepted ok l → ok l e → remaining data pos (enc e ++ rest) →
  step (len l) (abs l) pos = Ok (abs (l ++ [e]), pos + len (enc e))).
Context (Hinv : ∀ l pos acc' pos', accepted ok l → 0 <= pos <= len data →
  step (len l) (abs l) pos = Ok (acc', pos') →
  ∃ e rest, ok l e ∧ acc' = abs (l ++ [e]) ∧ pos' = pos + len (enc e) ∧
    remaining data pos (enc e ++ rest)).

Lemma read_loop_ok fuel pre l pos rest :
  accepted ok (pre ++ l) → remaining data pos (concat (enc <$> l) ++ rest) →
  (length data < fuel + Z.to_nat pos)%nat →
  read_loop step fuel (len pre) (len (pre ++ l)) pos (abs pre) =
    Ok (abs (pre ++ l), pos + len (concat (enc <$> l))).
Proof.
  revert fuel pre pos. induction l as [|e l IH]; intros fuel pre pos Hacc Hr Hf.
  - rewrite app_nil_r. simpl. rewrite len_nil, Z.add_0_r.
    destruct fuel; simpl; by rewrite Z.ltb_irrefl.
  - pose proof (remaining_len _ _ _ Hr) as Hl. pose proof (proj1 Hr) as Hp.
    rewrite fmap_cons in Hr, Hl. cbn [concat] in Hr, Hl. rewrite <-app_assoc in Hr. rewrite !len_app in Hl.
    pose proof (Henc e). pose proof (len_nonneg (concat (enc <$> l))).
    pose proof (len_nonneg rest). pose proof (len_nonneg l).
    destruct fuel as [|fuel]; [unfold len in *; lia|].
    cbn [read_loop]. rewrite len_app at 1. rewrite len_cons. guard_true.
    pose proof (accepted_middle _ _ _ _ Hacc) as [Hpre He].
    rewrite (Hok pre e pos (concat (enc <$> l) ++ rest)) by done.
    replace (len pre + 1) with (len (pre ++ [e])) by (rewrite len_app; done).
    replace (pre ++ e :: l) with ((pre ++ [e]) ++ l) in * by (by rewrite <-app_assoc).
    rewrite IH; [|done|by apply remaining_app|unfold len in *; lia].
    rewrite fmap_cons. cbn [concat]. rewrite len_app. do 2 f_equal. lia.
Qed.

Lemma read_loop_inv fuel pre count pos acc' pos' :
  accepted ok pre → 0 <= pos <= len data → len pre <= count →
  read_loop step fuel (len pre) count pos (abs pre) = Ok (acc', pos') →
  ∃ l rest, accepted ok (pre ++ l) ∧ len (pre ++ l) = count ∧ acc' = abs (pre ++ l) ∧
    pos' = pos + len (concat (enc <$> l)) ∧ remaining data pos (concat (enc <$> l) ++ rest).
Proof.
  revert pre pos. induction fuel as [|fuel IH]; intros pre pos Hpre Hp Hc; simpl.
  all: destruct (Z.ltb_spec (len pre) count); try done.
  2: destruct (step (len pre) (abs pre) pos) as [[acc1 pos1]|] eqn:Hs; [|done].
  2: { intros Hl. apply Hinv in Hs as (e & rest & He & -> & -> & Hr); [|done..].
    pose proof (remaining_app _ _ _ _ Hr) as Hr1.
    replace (len pre + 1) with (len (pre ++ [e])) in Hl by (rewrite len_app; done).
    apply IH in Hl as (l & rest' & Hacc & Hlen & -> & -> & Hr2).
    - exists (e :: l), rest'. rewrite <-app_assoc in *. rewrite fmap_cons. cbn [concat].
      split; [done|]. split; [done|]. split; [done|]. split; [rewrite len_app; lia|].
      rewrite <-app_assoc. destruct Hr1 as [_ Hr1], Hr2 as [_ Hr2]. rewrite Hr1 in Hr2. by subst.
    - by constructor.
    - destruct Hr1. lia.
    - rewrite len_app, len_cons, len_nil. lia. }
  all: intros [= <- <-]; exists [], (slice_from data pos); rewrite app_nil_r; simpl;
    rewrite len_nil; split; [done|]; split; [lia|]; split; [done|]; split; [lia|done].
Qed.

Lemma read_loop_iff count pos acc' pos' :
  0 <= count → 0 <= pos <= len data →
  read_loop step (S (length data)) 0 count pos (abs []) = Ok (acc', pos') ↔
  ∃ l rest, accepted ok l ∧ len l = count ∧ acc' = abs l ∧
    pos' = pos + len (concat (enc <$> l)) ∧ remaining data pos (concat (enc <$> l) ++ rest).
Proof.
  intros Hc Hp. split.
  - intros Hl. by apply (read_loop_inv _ []) in Hl; [|constructor|..].
  - intros (l & rest & Hacc & <- & -> & -> & Hr).
    apply (read_loop_ok _ [] l pos rest); [done|done|lia].
Qed.
End read_loop.

(** Shortest-form varints. [ReadUvarint] accepts at a position exactly the
    output of [AppendUvarint] for a 64-bit value and returns that value with the
    position after it; truncated, overflowing and padded encodings are refused. *)
Theorem ReadUvarint_spec (data : bytes) (pos v next : Z) :
  ReadUvarint data pos = Some (v, next) ↔
  is_u64 v ∧ ∃ pre rest,
    data = AppendUvarint pre v ++ rest ∧ pos = len pre ∧ next = len (AppendUvarint pre v).
Proof.
  unfold AppendUvarint. split.
  - intros (Hu & -> & rest & (pre & -> & ->)%remaining_iff & _)%ReadUvarint_inv.
    split; [done|]. exists pre, rest. rewrite len_app, <-app_assoc. done.
  - intros (Hu & pre & rest & -> & -> & ->). rewrite len_app, <-app_assoc.
    apply (ReadUvarint_ok _ _ v rest); [done|]. apply remaining_intro.
Qed.

(** Canonical tags. [ReadTag] accepts exactly the [AppendTag] encoding of a
    valid tag whose replica ID respects the caller's bound, and returns that tag
    with the position after it. *)
Theorem ReadTag_spec (data : bytes) (pos max : Z) (t : Tag) (next : Z) :
  ReadTag data pos max = Some (t, next) ↔
  tag_wf t ∧ Valid t = true ∧ len (ReplicaID t) <= max `min` maxInt ∧ ∃ pre rest,
    data = AppendTag pre t ++ rest ∧ pos = len pre ∧ next = len (AppendTag pre t).
Proof.
  setoid_rewrite AppendTag_enc. setoid_rewrite len_app. setoid_rewrite len_tag_enc. split.
  - intros (?&?&Hok&?&->&rest&(pre&->&->)%remaining_iff&_)%ReadTag_inv.
    unfold len_ok in Hok. split; [done|]. split; [done|]. split; [lia|].
    exists pre, rest. by rewrite <-app_assoc.
  - intros (?&?&?&pre&rest&->&->&->).
    apply (ReadTag_ok _ _ max t rest); [done|done|unfold len_ok; lia|lia|].
    rewrite <-app_assoc. apply remaining_intro.
Qed.

(** ** Sorted tag lists *)

Section tag_lists.
Context (maxStringBytes : Z).

(** What a decoder demands of a tag. *)
Definition tag_ok (t : Tag) : Prop :=
  tag_wf t ∧ Valid t = true ∧ len_ok (ReplicaID t) ∧ len (ReplicaID t) <= maxStringBytes.

(** A tag accepted after the tags [l], outside the tags [excluded]. *)
Definition next_tag (excluded : gset Tag) (l : list Tag) (t : Tag) : Prop :=
  tag_ok t ∧ (t ∉ excluded) ∧ ∀ t', last l = Some t' → Compare t' t < 0.

Lemma accepted_tags excluded l :
  accepted (next_tag excluded) l ↔
  increasing Compare l ∧ Forall (λ t, tag_ok t ∧ t ∉ excluded) l.
Proof.
  split.
  - induction 1 as [|l t Hl [IH1 IH2] (Ht1 & Ht2 & Ht3)]; [by split; constructor|].
    split; [by apply increasing_snoc_iff; [apply _|]|].
    apply Forall_app. split; [done|]. by apply Forall_singleton.
  - induction l as [|t l IH] using rev_ind; intros [Hinc Hok]; [constructor|].
    apply increasing_snoc_iff in Hinc as [Hinc Hlast]; [|apply _].
    apply Forall_app in Hok as [Hok Ht]. apply Forall_inv in Ht as [??].
    constructor; [by apply IH|]. done.
Qed.

Lemma tag_enc_pos t : 1 <= len (tag_enc t).
Proof.
  unfold tag_enc. rewrite !len_app. pose proof (putUvarint_pos (Logical t)).
  pose proof (len_nonneg (bytes_enc (ReplicaID t))). pose proof (len_nonneg (putUvarint (WallTime t))). lia.
Qed.

Lemma AppendTag_fold dst l : foldl AppendTag dst l = dst ++ concat (tag_enc <$> l).
Proof.
  revert dst. induction l as [|t l IH]; intros dst; simpl; [by rewrite app_nil_r|].
  by rewrite IH, AppendTag_enc, <-app_assoc.
Qed.
End tag_lists.
