(* ===== verification/SortedCodec.v ===== *)
(** * Maps written as sorted entry lists

    The map codecs of src/counter, src/register and src/lww write a map as a
    count followed by its entries in strictly increasing key order, and their
    decoders refuse any other order. This file proves once that such a loop
    reads exactly the sorted entries of one map. *)

From S2P Require Import Prelude Tags Wire.

Section sorted_lists.
Context {E K : Type} (key : E → K) (cmp : K → K → Z) `{!Comparator cmp} (ok : E → Prop).

(** An entry a decoder accepts after the entries [l]. *)
Definition next_sorted (l : list E) (e : E) : Prop :=
  ok e ∧ ∀ k, last (key <$> l) = Some k → cmp k (key e) < 0.

Lemma accepted_sorted l :
  accepted next_sorted l ↔ increasing cmp (key <$> l) ∧ Forall ok l.
Proof.
  split.
  - induction 1 as [|l e Hl [IH1 IH2] [He Hlast]]; [by split; constructor|].
    rewrite fmap_app. split; [by apply increasing_snoc_iff|].
    apply Forall_app. split; [done|]. by apply Forall_singleton.
  - induction l as [|e l IH] using rev_ind; intros [Hinc Hok]; [constructor|].
    rewrite fmap_app in Hinc. apply increasing_snoc_iff in Hinc as [Hinc Hlast]; [|done].
    apply Forall_app in Hok as [Hok He]. apply Forall_inv in He.
    constructor; [by apply IH|]. done.
Qed.
End sorted_lists.

Section sorted_maps.
Context {K V : Type} `{Countable K} (cmp : K → K → Z) `{!Comparator cmp}.

(** The entries of a map in key order. *)
Definition sorted_entries (m : gmap K V) : list (K * V) :=
  sort_by (λ x y, cmp x.1 y.1) (map_to_list m).

Lemma sorted_entries_perm m : sorted_entries m ≡ₚ map_to_list m.
Proof. apply sort_by_any_perm. Qed.

Lemma sorted_entries_increasing m : increasing cmp (sorted_entries m).*1.
Proof.
  apply sorted_increasing; [done|apply (sort_by_key_sorted cmp fst)|].
  rewrite sorted_entries_perm. apply NoDup_fst_map_to_list.
Qed.

Lemma sorted_entries_keys m : (sorted_entries m).*1 = sort_by cmp (map_to_list m).*1.
Proof.
  symmetry. apply increasing_sort_by; [done|apply sorted_entries_increasing|].
  by rewrite sorted_entries_perm.
Qed.

Lemma elem_of_sorted_entries m k v : (k, v) ∈ sorted_entries m ↔ m !! k = Some v.
Proof. by rewrite sorted_entries_perm, elem_of_map_to_list. Qed.

Lemma list_to_map_sorted m : list_to_map (sorted_entries m) = m.
Proof.
  rewrite <-(list_to_map_to_list m) at 2. apply list_to_map_proper, sorted_entries_perm.
  rewrite sorted_entries_perm. apply NoDup_fst_map_to_list.
Qed.

Lemma sorted_entries_unique l : increasing cmp l.*1 → sorted_entries (list_to_map l) = l.
Proof.
  intros Hl. unfold sorted_entries. apply (increasing_sort_by_key cmp fst); [done|].
  symmetry. apply map_to_list_to_map. by apply (increasing_NoDup cmp).
Qed.

Lemma len_sorted_entries m : len (sorted_entries m) = Z.of_nat (size m).
Proof. unfold len. by rewrite sorted_entries_perm, length_map_to_list. Qed.

Lemma Forall_sorted_entries (P : K * V → Prop) m :
  Forall P (sorted_entries m) ↔ map_Forall (λ k v, P (k, v)) m.
Proof.
  rewrite sorted_entries_perm, map_Forall_to_list. apply Forall_iff. by intros [].
Qed.

Lemma list_to_map_snoc (l : list (K * V)) e :
  e.1 ∉ l.*1 → list_to_map (M:=gmap K V) (l ++ [e]) = <[e.1 := e.2]> (list_to_map l).
Proof.
  intros He. rewrite list_to_map_app. destruct e as [k v]. simpl. rewrite insert_empty.
  symmetry. apply insert_union_singleton_r. by apply not_elem_of_list_to_map_1.
Qed.

(** ** The decoding loop *)

Section map_loop.
Context (data : bytes) (step : Z → gmap K V * K → Z → result ((gmap K V * K) * Z)).
Context (enc : K * V → bytes) (ok : K * V → Prop) (d : K).

Hypothesis enc_pos : ∀ e, 1 <= len (enc e).

(** One iteration reads an acceptable entry with a key above the previous one
    and adds it to the map. *)
Hypothesis step_iff : ∀ i m prev pos r,
  0 <= pos <= len data →
  step i (m, prev) pos = Ok r ↔
  ∃ e rest, ok e ∧ ((0 <? i) && (0 <=? cmp prev e.1) = false) ∧
    r = ((<[e.1 := e.2]> m, e.1), pos + len (enc e)) ∧ remaining data pos (enc e ++ rest).

Definition map_acc (l : list (K * V)) : gmap K V * K := (list_to_map l, default d (last l.*1)).

Lemma map_acc_snoc l e :
  accepted (next_sorted fst cmp ok) l → next_sorted fst cmp ok l e →
  map_acc (l ++ [e]) = (<[e.1 := e.2]> (list_to_map l), e.1).
Proof.
  intros [Hi _]%accepted_sorted [_ Hlast]; [|done]. unfold map_acc.
  rewrite fmap_app, fmap_cons, fmap_nil, last_snoc, list_to_map_snoc; [done|].
  by apply (increasing_fresh cmp).
Qed.

Lemma map_loop_iff count pos m prev pos' :
  0 <= count → 0 <= pos <= len data →
  read_loop step (S (length data)) 0 count pos (∅, d) = Ok ((m, prev), pos') ↔
  ∃ rest, map_Forall (λ k v, ok (k, v)) m ∧ Z.of_nat (size m) = count ∧
    prev = default d (last (sorted_entries m).*1) ∧
    pos' = pos + len (concat (enc <$> sorted_entries m)) ∧
    remaining data pos (concat (enc <$> sorted_entries m) ++ rest).
Proof.
  intros Hc Hp. change (∅, d) with (map_acc []).
  rewrite (read_loop_iff data step enc (next_sorted fst cmp ok) map_acc enc_pos); [..|done|done].
  - setoid_rewrite (accepted_sorted fst cmp ok). split.
    + intros (l & rest & [Hi Hok] & <- & [= -> ->] & -> & Hr).
      rewrite <-(sorted_entries_unique l Hi) in *. rewrite list_to_map_sorted in *.
      exists rest. rewrite len_sorted_entries. rewrite <-Forall_sorted_entries. done.
    + intros (rest & Hok & <- & -> & -> & Hr). exists (sorted_entries m), rest.
      rewrite len_sorted_entries, Forall_sorted_entries. unfold map_acc. rewrite list_to_map_sorted.
      split; [|done]. split; [apply sorted_entries_increasing|done].
  - intros l e p rest Hl He Hr. rewrite (map_acc_snoc _ _ Hl He). unfold map_acc.
    apply step_iff; [apply Hr|]. exists e, rest. destruct He as [He Hlast].
    split; [done|]. split; [|done]. rewrite <-(len_fmap fst l). by apply order_guard.
  - intros l p a p' Hl Hpos (e & rest & He & Hord & [= -> ->] & Hr)%step_iff; [|done].
    exists e, rest. rewrite <-(len_fmap fst l) in Hord. rewrite (order_guard cmp d l.*1) in Hord.
    assert (next_sorted fst cmp ok l e) as Hn by done. by rewrite (map_acc_snoc _ _ Hl Hn).
Qed.

Lemma map_loop_ok pos m rest :
  map_Forall (λ k v, ok (k, v)) m → remaining data pos (concat (enc <$> sorted_entries m) ++ rest) →
  read_loop step (S (length data)) 0 (Z.of_nat (size m)) pos (∅, d) =
    Ok ((m, default d (last (sorted_entries m).*1)), pos + len (concat (enc <$> sorted_entries m))).
Proof. intros Hok Hr. apply map_loop_iff; [lia|apply Hr|]. by exists rest. Qed.
End map_loop.
End sorted_maps.
