(* ===== verification/Frame.v ===== *)
(** * The framed envelope

    Models src/encoding/frame.go and src/encoding/frame_v2.go: the checksummed,
    versioned envelope around every CRDT state and delta, its limits, the v1
    encoder and decoder, the compression-aware v2 encoder and decoder, and the
    conversions between the two.

    The DEFLATE compressor and decompressor (compress/flate) are an interface,
    [Flate]; [FlateOk] is what the code relies on. *)

From S2P Require Import Prelude Tags Wire.

(** ** Limits *)

Definition FormatVersion : Z := 1.
Definition FormatVersionV2 : Z := 2.
Definition defaultMaxFrameBytes : Z := Z.shiftl 16 20.
Definition defaultMaxCodecID : Z := 256.
Definition maxFrameOverhead : Z := 4 + 4 * MaxVarintLen64 + defaultMaxCodecID + 4.

(** [DecoderLimits] *)
Record DecoderLimits := mkLimits {
  MaxFrameBytes : Z;
  MaxPayload : Z;
  MaxCodecID : Z;
  MaxElements : Z;
  MaxTags : Z;
  MaxStringBytes : Z
}.

(** [DefaultLimits] *)
Definition DefaultLimits : DecoderLimits :=
  mkLimits defaultMaxFrameBytes (defaultMaxFrameBytes - maxFrameOverhead) defaultMaxCodecID
    (Z.shiftl 1 20) (Z.shiftl 1 20) (Z.shiftl 1 20).

(** [DecoderLimits.valid] *)
Definition limits_valid (l : DecoderLimits) : bool :=
  (0 <? MaxFrameBytes l) && (0 <? MaxPayload l) && (0 <? MaxCodecID l) &&
  (0 <? MaxElements l) && (0 <? MaxTags l) && (0 <? MaxStringBytes l).

(** ** CRC-32C and big-endian words *)

(** One bit of the reflected Castagnoli division. *)
Definition crc_bit (crc : Z) : Z :=
  if Z.odd crc then Z.lxor (Z.shiftr crc 1) 0x82F63B78 else Z.shiftr crc 1.

Definition crc_byte (crc : Z) (b : byte) : Z :=
  Nat.iter 8 crc_bit (Z.lxor crc (byteZ b)).

(** [crc32.Checksum(data, castagnoliTable)] *)
Definition crc32c (data : bytes) : Z :=
  Z.lxor (foldl crc_byte 0xFFFFFFFF data) 0xFFFFFFFF.

(** [binary.BigEndian.AppendUint32] *)
Definition AppendUint32 (dst : bytes) (v : Z) : bytes :=
  dst ++ [Zbyte (Z.shiftr v 24); Zbyte (Z.shiftr v 16); Zbyte (Z.shiftr v 8); Zbyte v].

(** [binary.BigEndian.Uint32] *)
Definition Uint32 (b : bytes) : Z :=
  match b with
  | [b0; b1; b2; b3] =>
      Z.lor (Z.lor (Z.lor (byteZ b3) (Z.shiftl (byteZ b2) 8)) (Z.shiftl (byteZ b1) 16))
        (Z.shiftl (byteZ b0) 24)
  | _ => 0
  end.

(** ** Frames *)

(** [Frame] *)
Record Frame := mkFrame {
  TypeID : Z;
  CodecID : bytes;
  Payload : bytes;
  formatVersion : Z;
  payloadOwned : bool
}.

#[export] Instance Frame_eq_dec : EqDecision Frame.
Proof. solve_decision. Defined.

(** [Frame.Version] *)
Definition Version (f : Frame) : Z :=
  if formatVersion f =? 0 then FormatVersion else formatVersion f.

Definition magic : bytes := str "CRDT".

(** [PeekFrameFormatVersion] *)
Definition PeekFrameFormatVersion (data : bytes) (limits : DecoderLimits) : result Z :=
  if negb (limits_valid limits) || (MaxFrameBytes limits <? len data) || (len data <? 9)
  then Err ErrFrameLimit
  else if negb (bool_decide (slice data 0 4 = magic)) then Err ErrInvalidFrame
  else match ReadUvarint data 4 with
       | None => Err ErrInvalidFrame
       | Some (version, _) =>
           if negb (version =? FormatVersion) && negb (version =? FormatVersionV2)
           then Err ErrInvalidFrame
           else Ok version
       end.

(** [PayloadWriter]: given the zeroed payload buffer, its contents afterwards. *)
Definition PayloadWriter := bytes → result bytes.

(** [make([]byte, n)] *)
Definition zeroed (n : Z) : bytes := replicate (Z.to_nat n) Init.Byte.x00.

(** [MarshalFrameWithPayloadAndLimits] *)
Definition MarshalFrameWithPayloadAndLimits (typeID : Z) (codecID : bytes) (payloadLength : Z)
    (limits : DecoderLimits) (writePayload : ptr PayloadWriter) : result bytes :=
  if negb (limits_valid limits) || (typeID =? 0) || (payloadLength <? 0) ||
     (MaxCodecID limits <? len codecID) || (MaxPayload limits <? payloadLength)
  then Err ErrFrameLimit
  else match writePayload with
  | None => Err ErrInvalidFrame
  | Some writePayload =>
      let envelopeBytes := 4 + UvarintSize FormatVersion + UvarintSize typeID +
        UvarintSize (len codecID) + len codecID + UvarintSize payloadLength + 4 in
      if (MaxFrameBytes limits <? envelopeBytes) ||
         (MaxFrameBytes limits - envelopeBytes <? payloadLength)
      then Err ErrFrameLimit
      else
        let buf := magic in
        let buf := AppendUvarint buf FormatVersion in
        let buf := AppendUvarint buf typeID in
        let buf := AppendUvarint buf (len codecID) in
        let buf := buf ++ codecID in
        let buf := AppendUvarint buf payloadLength in
        match writePayload (zeroed payloadLength) with
        | Err e => Err e
        | Ok payload =>
            let buf := buf ++ payload in
            let checksum := crc32c (slice_from buf 4) in
            Ok (AppendUint32 buf checksum)
        end
  end.

(** [MarshalFrameWithPayload] *)
Definition MarshalFrameWithPayload (typeID : Z) (codecID : bytes) (payloadLength : Z)
    (writePayload : ptr PayloadWriter) : result bytes :=
  MarshalFrameWithPayloadAndLimits typeID codecID payloadLength DefaultLimits writePayload.

(** [func(payload []byte) error { copy(payload, src); return nil }] *)
Definition copyWriter (src : bytes) : ptr PayloadWriter :=
  Some (λ buf, Ok (take (length buf) src ++ drop (length src) buf)).

(** The writers that encode a payload in place and then compare its length with
    the announced size: on equality the buffer holds exactly that payload. *)
Definition exactWriter (payload : bytes) (payloadSize : Z) : ptr PayloadWriter :=
  Some (λ _, if negb (len payload =? payloadSize) then Err ErrInvalidFrame else Ok payload).

(** [MarshalFrame] *)
Definition MarshalFrame (frame : Frame) : result bytes :=
  MarshalFrameWithPayload (TypeID frame) (CodecID frame) (len (Payload frame))
    (copyWriter (Payload frame)).

(** ** Version 2 *)

Definition v2PayloadRaw : Z := 0.
Definition v2PayloadDeflate : Z := 1.
Definition minV2DeflatePayloadBytes : Z := 128.

(** How a decompressed stream ends: at its final block, inside a block, or at a
    corrupt byte. *)
Inductive stream_end := StreamEOF | StreamTruncated | StreamCorrupt.

(** compress/flate: [flate_compress p] is what a [flate.Writer] at [BestSpeed]
    emits for [p]; [flate_stream e] is what a [flate.Reader] over [e] yields and
    how it ends. *)
Class Flate := {
  flate_compress : bytes → bytes;
  flate_stream : bytes → bytes * stream_end
}.

(** A reader restores what a writer compressed. *)
Class FlateOk `{Flate} : Prop :=
  flate_roundtrip p : flate_stream (flate_compress p) = (p, StreamEOF).

Section v2.
Context `{F : Flate}.

(** [deflatePayload]: a [bytes.Buffer] never fails a write. *)
Definition deflatePayload (payload : bytes) : result bytes := Ok (flate_compress payload).

(** [inflatePayload]: [io.ReadFull] over [rawLength + 1] bytes, then [Close]. *)
Definition inflatePayload (encoded : bytes) (rawLength : Z) : result bytes :=
  if (rawLength <? 0) || (maxInt <=? rawLength) then Err ErrFrameLimit
  else
    let '(stream, stop) := flate_stream encoded in
    let count := len stream `min` (rawLength + 1) in
    if rawLength <? count then Err ErrFrameLimit
    else
      let unexpectedEOF := match stop with
        | StreamEOF => negb (count =? 0)
        | StreamTruncated => true
        | StreamCorrupt => false
        end in
      let eof := match stop with
        | StreamEOF => count =? 0
        | _ => false
        end in
      if negb (count =? rawLength) ||
         (negb unexpectedEOF && (negb (rawLength =? 0) || negb eof))
      then Err ErrInvalidFrame
      else match stop with
           | StreamEOF => Ok (slice stream 0 rawLength)
           | _ => Err ErrUnexpectedEOF
           end.

(** [uvarintSizeForLength] *)
Definition uvarintSizeForLength (length : Z) : Z :=
  if length <? 0 then 0 else UvarintSize length.

(** [v2FrameSize] *)
Definition v2FrameSize (typeID : Z) (codecID : bytes) (rawLength encodedLength : Z) : Z :=
  4 + UvarintSize FormatVersionV2 + UvarintSize typeID +
  uvarintSizeForLength (len codecID) + len codecID +
  UvarintSize v2PayloadDeflate + uvarintSizeForLength rawLength +
  uvarintSizeForLength encodedLength + encodedLength + 4.

(** [validFrameV2Input] *)
Definition validFrameV2Input (typeID : Z) (codecID : bytes) (payloadLength : Z)
    (limits : DecoderLimits) : bool :=
  limits_valid limits && negb (typeID =? 0) && (0 <=? payloadLength) &&
  (len codecID <=? MaxCodecID limits) && (payloadLength <=? MaxPayload limits).

(** The appends shared by the two v2 encoders, up to the payload bytes. *)
Definition v2Header (typeID : Z) (codecID : bytes) (mode rawLength encodedLength : Z) : bytes :=
  let output := magic in
  let output := AppendUvarint output FormatVersionV2 in
  let output := AppendUvarint output typeID in
  let output := AppendUvarint output (len codecID) in
  let output := output ++ codecID in
  let output := AppendUvarint output mode in
  let output := AppendUvarint output rawLength in
  AppendUvarint output encodedLength.

(** [marshalFrameV2Payload] *)
Definition marshalFrameV2Payload (typeID : Z) (codecID payload : bytes)
    (limits : DecoderLimits) : result bytes :=
  match (if minV2DeflatePayloadBytes <=? len payload then
           match deflatePayload payload with
           | Err e => Err e
           | Ok compressed =>
               if v2FrameSize typeID codecID (len payload) (len compressed) <?
                  v2FrameSize typeID codecID (len payload) (len payload)
               then Ok (v2PayloadDeflate, compressed)
               else Ok (v2PayloadRaw, payload)
           end
         else Ok (v2PayloadRaw, payload)) with
  | Err e => Err e
  | Ok (mode, encoded) =>
      let frameBytes := v2FrameSize typeID codecID (len payload) (len encoded) in
      if MaxFrameBytes limits <? frameBytes then Err ErrFrameLimit
      else
        let output := v2Header typeID codecID mode (len payload) (len encoded) ++ encoded in
        Ok (AppendUint32 output (crc32c (slice_from output 4)))
  end.

(** [marshalFrameV2RawWithPayload] *)
Definition marshalFrameV2RawWithPayload (typeID : Z) (codecID : bytes) (payloadLength : Z)
    (limits : DecoderLimits) (writePayload : PayloadWriter) : result bytes :=
  if payloadLength <? 0 then Err ErrFrameLimit
  else
    let frameBytes := v2FrameSize typeID codecID payloadLength payloadLength in
    if MaxFrameBytes limits <? frameBytes then Err ErrFrameLimit
    else
      let output := v2Header typeID codecID v2PayloadRaw payloadLength payloadLength in
      match writePayload (zeroed payloadLength) with
      | Err e => Err e
      | Ok payload =>
          let output := output ++ payload in
          Ok (AppendUint32 output (crc32c (slice_from output 4)))
      end.

(** [MarshalFrameV2WithLimits] *)
Definition MarshalFrameV2WithLimits (frame : Frame) (limits : DecoderLimits) : result bytes :=
  if negb (validFrameV2Input (TypeID frame) (CodecID frame) (len (Payload frame)) limits)
  then Err ErrFrameLimit
  else marshalFrameV2Payload (TypeID frame) (CodecID frame) (Payload frame) limits.

(** [MarshalFrameV2] *)
Definition MarshalFrameV2 (frame : Frame) : result bytes :=
  MarshalFrameV2WithLimits frame DefaultLimits.

(** [MarshalFrameV2WithPayloadAndLimits] *)
Definition MarshalFrameV2WithPayloadAndLimits (typeID : Z) (codecID : bytes) (payloadLength : Z)
    (limits : DecoderLimits) (writePayload : ptr PayloadWriter) : result bytes :=
  if negb (validFrameV2Input typeID codecID payloadLength limits) then Err ErrFrameLimit
  else match writePayload with
  | None => Err ErrInvalidFrame
  | Some writePayload =>
      if payloadLength <? minV2DeflatePayloadBytes then
        marshalFrameV2RawWithPayload typeID codecID payloadLength limits writePayload
      else
        match writePayload (zeroed payloadLength) with
        | Err e => Err e
        | Ok payload => marshalFrameV2Payload typeID codecID payload limits
        end
  end.

(** [MarshalFrameV2WithPayload] *)
Definition MarshalFrameV2WithPayload (typeID : Z) (codecID : bytes) (payloadLength : Z)
    (writePayload : ptr PayloadWriter) : result bytes :=
  MarshalFrameV2WithPayloadAndLimits typeID codecID payloadLength DefaultLimits writePayload.

(** [unmarshalFrameV2] *)
Definition unmarshalFrameV2 (body : bytes) (typeID : Z) (codecID : bytes) (position : Z)
    (limits : DecoderLimits) : result Frame :=
  match ReadUvarint body position with
  | None => Err ErrInvalidFrame
  | Some (mode, next) =>
      if negb (mode =? v2PayloadRaw) && negb (mode =? v2PayloadDeflate)
      then Err ErrInvalidFrame
      else match ReadUvarint body next with
      | None => Err ErrFrameLimit
      | Some (rawLength, next) =>
          if (MaxPayload limits <? 0) || (MaxPayload limits <? rawLength)
          then Err ErrFrameLimit
          else match ReadUvarint body next with
          | None => Err ErrFrameLimit
          | Some (encodedLength, next) =>
              let remaining := len body - next in
              if (remaining <? 0) || (remaining <? encodedLength) ||
                 negb (encodedLength =? remaining)
              then Err ErrFrameLimit
              else
                let encoded := slice_from body next in
                if mode =? v2PayloadRaw then
                  if negb (rawLength =? encodedLength) then Err ErrInvalidFrame
                  else Ok (mkFrame typeID codecID encoded FormatVersionV2 false)
                else match uint64AsInt rawLength with
                | None => Err ErrFrameLimit
                | Some decodedLength =>
                    match inflatePayload encoded decodedLength with
                    | Err e => Err e
                    | Ok payload => Ok (mkFrame typeID codecID payload FormatVersionV2 true)
                    end
                end
          end
      end
  end.

(** [UnmarshalFrameView] *)
Definition UnmarshalFrameView (data : bytes) (limits : DecoderLimits) : result Frame :=
  if negb (limits_valid limits) || (MaxFrameBytes limits <? len data) || (len data <? 9)
  then Err ErrFrameLimit
  else if negb (bool_decide (slice data 0 4 = magic)) then Err ErrInvalidFrame
  else
    let stored := Uint32 (slice_from data (len data - 4)) in
    if negb (crc32c (slice data 4 (len data - 4)) =? stored) then Err ErrInvalidFrame
    else
      let body := slice data 0 (len data - 4) in
      match ReadUvarint body 4 with
      | None => Err ErrInvalidFrame
      | Some (version, next) =>
          if negb (version =? FormatVersion) && negb (version =? FormatVersionV2)
          then Err ErrInvalidFrame
          else match ReadUvarint body next with
          | None => Err ErrInvalidFrame
          | Some (typeID, next) =>
              if typeID =? 0 then Err ErrInvalidFrame
              else match ReadUvarint body next with
              | None => Err ErrFrameLimit
              | Some (codecLength, next) =>
                  match uint64AsInt codecLength with
                  | None => Err ErrFrameLimit
                  | Some codecLengthInt =>
                      let remaining := len data - 4 - next in
                      if (MaxCodecID limits <? codecLengthInt) || (remaining <? codecLengthInt)
                      then Err ErrFrameLimit
                      else
                        let codecEnd := next + codecLengthInt in
                        let codecID := slice data next codecEnd in
                        if version =? FormatVersion then
                          match ReadUvarint body codecEnd with
                          | None => Err ErrFrameLimit
                          | Some (payloadLength, next) =>
                              match uint64AsInt payloadLength with
                              | None => Err ErrFrameLimit
                              | Some payloadLengthInt =>
                                  let remaining := len data - 4 - next in
                                  if (MaxPayload limits <? payloadLengthInt) ||
                                     negb (payloadLengthInt =? remaining)
                                  then Err ErrFrameLimit
                                  else Ok (mkFrame typeID codecID
                                             (slice data next (len data - 4)) 0 false)
                              end
                          end
                        else unmarshalFrameV2 body typeID codecID codecEnd limits
                  end
              end
          end
      end.

(** [UnmarshalFrame]: an owned copy of the payload, so the ownership flag is
    cleared. *)
Definition UnmarshalFrame (data : bytes) (limits : DecoderLimits) : result Frame :=
  match UnmarshalFrameView data limits with
  | Err e => Err e
  | Ok frame =>
      Ok (mkFrame (TypeID frame) (CodecID frame) (Payload frame) (formatVersion frame) false)
  end.

(** [ConvertFrameV1ToV2] *)
Definition ConvertFrameV1ToV2 (data : bytes) (limits : DecoderLimits) : result bytes :=
  match UnmarshalFrame data limits with
  | Err e => Err e
  | Ok decoded =>
      if negb (Version decoded =? FormatVersion) then Err ErrInvalidFrame
      else MarshalFrameV2WithLimits decoded limits
  end.

(** [ConvertFrameV2ToV1] *)
Definition ConvertFrameV2ToV1 (data : bytes) (limits : DecoderLimits) : result bytes :=
  match UnmarshalFrame data limits with
  | Err e => Err e
  | Ok decoded =>
      if negb (Version decoded =? FormatVersionV2) then Err ErrInvalidFrame
      else MarshalFrameWithPayloadAndLimits (TypeID decoded) (CodecID decoded)
             (len (Payload decoded)) limits (copyWriter (Payload decoded))
  end.
End v2.

(** ** The checksum *)

Definition is_u32 (z : Z) : Prop := 0 <= z < 2 ^ 32.

Lemma lxor_u32 a b : is_u32 a → is_u32 b → is_u32 (Z.lxor a b).
Proof.
  unfold is_u32. intros Ha Hb. assert (0 <= Z.lxor a b) by (apply Z.lxor_nonneg; lia).
  split; [done|]. destruct (decide (Z.lxor a b = 0)) as [->|]; [lia|].
  apply Z.log2_lt_pow2; [lia|]. pose proof (Z.log2_lxor a b ltac:(lia) ltac:(lia)).
  assert (∀ c, 0 <= c < 2 ^ 32 → Z.log2 c < 32) as Hlog; [|apply Hlog in Ha, Hb; lia].
  intros c Hc. destruct (decide (c = 0)) as [->|]; [done|]. apply Z.log2_lt_pow2; lia.
Qed.

Lemma byteZ_u32 b : is_u32 (byteZ b).
Proof. pose proof (byteZ_range b). unfold is_u32. lia. Qed.

Lemma lxor_cancel_l a b c : Z.lxor a b = Z.lxor a c → b = c.
Proof.
  intros H. rewrite <-(Z.lxor_0_l b), <-(Z.lxor_0_l c), <-(Z.lxor_nilpotent a), !Z.lxor_assoc.
  by rewrite H.
Qed.

Lemma crc_bit_u32 x : is_u32 x → is_u32 (crc_bit x).
Proof.
  unfold crc_bit. intros Hx. assert (is_u32 (Z.shiftr x 1)).
  { unfold is_u32 in *. rewrite Z.shiftr_div_pow2 by lia. split; [apply Z.div_pos; lia|].
    apply Z.div_lt_upper_bound; lia. }
  case_match; [|done]. by apply lxor_u32.
Qed.

(** The polynomial has its top bit set, so the top bit of a step tells whether
    the step divided. *)
Lemma crc_bit_top x : is_u32 x → Z.testbit (crc_bit x) 31 = Z.odd x.
Proof.
  unfold is_u32, crc_bit. intros Hx.
  assert (Z.testbit (Z.shiftr x 1) 31 = false) as Hs.
  { rewrite Z.shiftr_spec by lia. apply (testbit_small x 32); lia. }
  destruct (Z.odd x) eqn:Ho; rewrite ?Z.lxor_spec, Hs; done.
Qed.

Lemma crc_bit_inj x y : is_u32 x → is_u32 y → crc_bit x = crc_bit y → x = y.
Proof.
  intros Hx Hy Heq. assert (Z.odd x = Z.odd y) as Ho by (rewrite <-!crc_bit_top by done; congruence).
  assert (Z.shiftr x 1 = Z.shiftr y 1) as Hs.
  { revert Heq. unfold crc_bit. rewrite Ho. destruct (Z.odd y); [|done].
    rewrite !(Z.lxor_comm _ 0x82F63B78). apply lxor_cancel_l. }
  rewrite <-!Z.div2_spec in Hs. rewrite (Z.div2_odd x), (Z.div2_odd y). by rewrite Hs, Ho.
Qed.

Lemma crc_bits_u32 n x : is_u32 x → is_u32 (Nat.iter n crc_bit x).
Proof. intros Hx. induction n; simpl; [done|by apply crc_bit_u32]. Qed.

Lemma crc_bits_inj n x y :
  is_u32 x → is_u32 y → Nat.iter n crc_bit x = Nat.iter n crc_bit y → x = y.
Proof.
  intros Hx Hy. induction n as [|n IH]; simpl; [done|].
  intros ?%crc_bit_inj; auto using crc_bits_u32.
Qed.

Lemma crc_byte_u32 x b : is_u32 x → is_u32 (crc_byte x b).
Proof. intros Hx. apply crc_bits_u32, lxor_u32; [done|apply byteZ_u32]. Qed.

Lemma crc_bytes_u32 x s : is_u32 x → is_u32 (foldl crc_byte x s).
Proof. revert x. induction s; simpl; auto using crc_byte_u32. Qed.

Lemma crc32c_u32 s : is_u32 (crc32c s).
Proof. apply lxor_u32; [|done]. by apply crc_bytes_u32. Qed.

Lemma crc_byte_inj_l x y b :
  is_u32 x → is_u32 y → crc_byte x b = crc_byte y b → x = y.
Proof.
  intros Hx Hy ?%crc_bits_inj; [|apply lxor_u32; auto using byteZ_u32..].
  apply (lxor_cancel_l (byteZ b)). by rewrite !(Z.lxor_comm (byteZ b)).
Qed.

Lemma crc_byte_inj_r x a b : is_u32 x → crc_byte x a = crc_byte x b → a = b.
Proof.
  intros Hx ?%crc_bits_inj; [|apply lxor_u32; auto using byteZ_u32..].
  by eapply byteZ_inj, lxor_cancel_l.
Qed.

Lemma crc_bytes_inj x y s :
  is_u32 x → is_u32 y → foldl crc_byte x s = foldl crc_byte y s → x = y.
Proof.
  revert x y. induction s as [|b s IH]; simpl; intros x y Hx Hy Heq; [done|].
  apply IH, crc_byte_inj_l in Heq; auto using crc_byte_u32.
Qed.

(** The checksum detects every substitution of one byte. *)
Lemma crc32c_substitution pre a b suf :
  crc32c (pre ++ a :: suf) = crc32c (pre ++ b :: suf) → a = b.
Proof.
  unfold crc32c. rewrite !(Z.lxor_comm _ 0xFFFFFFFF). intros Heq%lxor_cancel_l.
  rewrite !foldl_app in Heq. simpl in Heq.
  assert (is_u32 (foldl crc_byte 0xFFFFFFFF pre)) by by apply crc_bytes_u32.
  apply crc_bytes_inj in Heq; [|apply crc_byte_u32; done..].
  by eapply crc_byte_inj_r.
Qed.

Definition uint32_enc (v : Z) : bytes := AppendUint32 [] v.

Lemma AppendUint32_enc dst v : AppendUint32 dst v = dst ++ uint32_enc v.
Proof. done. Qed.

Lemma Uint32_value b0 b1 b2 b3 :
  Uint32 [b0; b1; b2; b3] =
  byteZ b3 + byteZ b2 * 2 ^ 8 + byteZ b1 * 2 ^ 16 + byteZ b0 * 2 ^ 24.
Proof.
  pose proof (byteZ_range b0). pose proof (byteZ_range b1).
  pose proof (byteZ_range b2). pose proof (byteZ_range b3).
  unfold Uint32. rewrite (lor_shiftl _ _ 8) by lia. rewrite (lor_shiftl _ _ 16) by lia.
  rewrite (lor_shiftl _ _ 24) by lia. lia.
Qed.

Lemma Uint32_enc v : is_u32 v → Uint32 (uint32_enc v) = v.
Proof.
  unfold is_u32. intros Hv. unfold uint32_enc, AppendUint32. simpl app. rewrite Uint32_value.
  rewrite !byteZ_Zbyte, !Z.shiftr_div_pow2 by lia.
  Z.to_euclidean_division_equations. lia.
Qed.

Lemma uint32_enc_inv s : len s = 4 → s = uint32_enc (Uint32 s) ∧ is_u32 (Uint32 s).
Proof.
  intros Hs. destruct s as [|b0 [|b1 [|b2 [|b3 [|]]]]]; unfold len in Hs; simpl in Hs; try lia.
  rewrite Uint32_value.
  pose proof (byteZ_range b0). pose proof (byteZ_range b1).
  pose proof (byteZ_range b2). pose proof (byteZ_range b3).
  split; [|unfold is_u32; lia].
  unfold uint32_enc, AppendUint32. simpl app.
  repeat f_equal; apply byteZ_inj; rewrite byteZ_Zbyte, ?Z.shiftr_div_pow2 by lia;
    Z.to_euclidean_division_equations; lia.
Qed.

(** ** The envelope *)

(** A body with its checksum. *)
Definition seal (body : bytes) : bytes := body ++ uint32_enc (crc32c (slice_from body 4)).

Lemma len_seal body : len (seal body) = len body + 4.
Proof. apply len_app. Qed.

Lemma slice_app_l {A} (s t : list A) a b : 0 <= a → b <= len s → slice (s ++ t) a b = slice s a b.
Proof.
  intros Ha Hb. unfold slice, len in *. destruct (decide (a <= b)).
  - rewrite drop_app_le by lia. rewrite take_app_le; [done|]. rewrite length_drop. lia.
  - replace (Z.to_nat (b - a)) with 0%nat by lia. by rewrite !take_0.
Qed.

Lemma slice_all {A} (s : list A) a : 0 <= a → slice s a (len s) = slice_from s a.
Proof.
  intros Ha. unfold slice, slice_from, len. apply take_ge. rewrite length_drop. lia.
Qed.

Lemma slice_from_app {A} (s t : list A) : slice_from (s ++ t) (len s) = t.
Proof. unfold slice_from, len. by rewrite Nat2Z.id, drop_app_length. Qed.

Lemma slice_split {A} (s : list A) n : 0 <= n → slice s 0 n ++ slice_from s n = s.
Proof. intros. unfold slice, slice_from. rewrite drop_0, Z.sub_0_r. apply take_drop. Qed.

Lemma seal_inv data :
  4 <= len data - 4 →
  crc32c (slice data 4 (len data - 4)) = Uint32 (slice_from data (len data - 4)) →
  data = seal (slice data 0 (len data - 4)).
Proof.
  intros Hl Hc. rewrite <-(slice_split data (len data - 4)) at 1 by lia. unfold seal. f_equal.
  assert (len (slice_from data (len data - 4)) = 4) as H4.
  { unfold len, slice_from in *. rewrite length_drop. lia. }
  destruct (uint32_enc_inv _ H4) as [H _]. rewrite H at 1. f_equal. rewrite <-Hc. f_equal.
  set (n := len data - 4) in *.
  assert (len (slice data 0 n) = n) as Hn.
  { unfold n, slice, len in *. rewrite length_take, length_drop. lia. }
  rewrite <-(slice_split data n) at 1 by lia.
  rewrite slice_app_l by lia. rewrite <-Hn at 2. by rewrite slice_all by lia.
Qed.

(** What the decoder reads from a body whose checksum matched: version, type,
    codec and the position after them. *)
Definition parse_header (body : bytes) (limits : DecoderLimits) : result (Z * Z * bytes * Z) :=
  match ReadUvarint body 4 with
  | None => Err ErrInvalidFrame
  | Some (version, next) =>
      if negb (version =? FormatVersion) && negb (version =? FormatVersionV2)
      then Err ErrInvalidFrame
      else match ReadUvarint body next with
      | None => Err ErrInvalidFrame
      | Some (typeID, next) =>
          if typeID =? 0 then Err ErrInvalidFrame
          else match ReadBytes body next (MaxCodecID limits) with
          | None => Err ErrFrameLimit
          | Some (codecID, next) => Ok (version, typeID, codecID, next)
          end
      end
  end.

Lemma slice_magic rest : slice (magic ++ rest) 0 4 = magic.
Proof. done. Qed.

Lemma magic_split body : slice body 0 4 = magic → ∃ rest, body = magic ++ rest.
Proof.
  intros H. exists (slice_from body 4). rewrite <-H. symmetry. by apply slice_split.
Qed.

(** The header of a body, as both encoders write it. *)
Definition header_enc (version typeID : Z) (codecID : bytes) : bytes :=
  magic ++ putUvarint version ++ putUvarint typeID ++ bytes_enc codecID.

Lemma parse_header_ok limits version typeID codecID rest body :
  version = FormatVersion ∨ version = FormatVersionV2 →
  is_u64 typeID → typeID ≠ 0 → len_ok codecID → len codecID <= MaxCodecID limits →
  body = header_enc version typeID codecID ++ rest →
  ∃ next, parse_header body limits = Ok (version, typeID, codecID, next) ∧
    remaining body next rest.
Proof.
  intros Hv Ht H0 Hok Hc ->. unfold header_enc. rewrite <-!app_assoc.
  set (body := magic ++ _). assert (remaining body 4 (putUvarint version ++
    putUvarint typeID ++ bytes_enc codecID ++ rest)) as Hr by apply (remaining_intro magic).
  assert (is_u64 version) as Hv64 by (destruct Hv as [-> | ->]; unfold is_u64; done).
  apply ReadUvarint_ok in Hr as [R1 Hr]; [|done].
  apply ReadUvarint_ok in Hr as [R2 Hr]; [|done].
  apply (ReadBytes_ok _ _ (MaxCodecID limits)) in Hr as [R3 Hr]; [|done..].
  eexists. split; [|exact Hr]. unfold parse_header. rewrite R1.
  assert (negb (version =? FormatVersion) && negb (version =? FormatVersionV2) = false) as ->
    by (by destruct Hv as [-> | ->]).
  rewrite R2. guard_false. by rewrite R3.
Qed.

Lemma parse_header_inv limits body version typeID codecID next :
  slice body 0 4 = magic → parse_header body limits = Ok (version, typeID, codecID, next) →
  (version = FormatVersion ∨ version = FormatVersionV2) ∧ is_u64 typeID ∧ typeID ≠ 0 ∧
  len_ok codecID ∧ len codecID <= MaxCodecID limits ∧
  ∃ rest, body = header_enc version typeID codecID ++ rest ∧ remaining body next rest.
Proof.
  intros (tail & ->)%magic_split. unfold parse_header.
  destruct (ReadUvarint _ 4) as [[v n1]|] eqn:R1; [|done].
  destruct (negb (v =? FormatVersion) && _) eqn:Gv; [done|].
  destruct (ReadUvarint _ n1) as [[t n2]|] eqn:R2; [|done].
  destruct (Z.eqb_spec t 0); [done|].
  destruct (ReadBytes _ n2 _) as [[c n3]|] eqn:R3; [|done]. intros [= -> -> -> ->].
  apply ReadUvarint_inv in R1 as (Hv & -> & r1 & [_ Hr1] & Hr1').
  apply ReadUvarint_inv in R2 as (Ht & -> & r2 & [_ Hr2] & Hr2').
  apply ReadBytes_inv in R3 as (Hok & Hc & -> & r3 & [_ Hr3] & Hr3').
  apply andb_false_iff in Gv. rewrite !negb_false_iff, !Z.eqb_eq in Gv.
  split; [done|]. split; [done|]. split; [done|]. split; [done|]. split; [done|].
  exists r3. split; [|done]. unfold header_enc. rewrite <-!app_assoc.
  change (slice_from (magic ++ tail) 4) with tail in Hr1. subst tail. do 2 f_equal.
  destruct Hr1' as [_ Hr1']. rewrite Hr2 in Hr1'. rewrite <-Hr1'. f_equal.
  destruct Hr2' as [_ Hr2']. rewrite Hr3 in Hr2'. done.
Qed.

Section v2_parse.
Context `{F : Flate}.

Definition parse_body (body : bytes) (limits : DecoderLimits) : result Frame :=
  '(version, typeID, codecID, next) ← parse_header body limits;
  if version =? FormatVersion then
    match ReadBytes body next (MaxPayload limits) with
    | None => Err ErrFrameLimit
    | Some (payload, next) =>
        if next =? len body then Ok (mkFrame typeID codecID payload 0 false) else Err ErrFrameLimit
    end
  else unmarshalFrameV2 body typeID codecID next limits.

Lemma ReadUvarint_next data pos v next :
  ReadUvarint data pos = Some (v, next) → 0 <= pos < next ∧ next <= len data ∧ is_u64 v.
Proof.
  intros (Hu & -> & rest & Hr & Hr')%ReadUvarint_inv.
  pose proof (UvarintSize_bounds v Hu). destruct Hr as [Hr _], Hr' as [Hr' _].
  split; [lia|]. split; [lia|done].
Qed.

Lemma ReadBytes_bounded data pos max :
  0 <= max → ReadBytes data pos max =
    match ReadUvarint data pos with
    | None => None
    | Some (length, next) =>
        if maxInt <? length then None
        else if (max <? length) || (len data - next <? length) then None
        else Some (slice data next (next + length), next + length)
    end.
Proof.
  intros. unfold ReadBytes, uint64AsInt. guard_false.
  destruct (ReadUvarint data pos) as [[length next]|]; [|done]. by destruct (maxInt <? length).
Qed.

(** Given a sealed body, the decoder's checks reduce to [parse_body]. *)
Lemma view_seal body limits :
  limits_valid limits = true → 5 <= len body → len body + 4 <= MaxFrameBytes limits →
  slice body 0 4 = magic →
  UnmarshalFrameView (seal body) limits = parse_body body limits.
Proof.
  intros Hv H5 Hm Hmagic. unfold UnmarshalFrameView. cbv zeta. rewrite len_seal.
  replace (len body + 4 - 4) with (len body) by lia.
  assert (slice (seal body) 0 4 = magic) as -> by (unfold seal; by rewrite slice_app_l by lia).
  assert (slice (seal body) 4 (len body) = slice_from body 4) as ->
    by (unfold seal; by rewrite slice_app_l, slice_all by lia).
  assert (slice (seal body) 0 (len body) = body) as ->
    by (unfold seal; by rewrite slice_app_l, slice_all by lia).
  unfold seal at 1. rewrite slice_from_app, Uint32_enc by apply crc32c_u32.
  guard_false. guard_false. guard_false.
  unfold parse_body, parse_header.
  destruct (ReadUvarint body 4) as [[version n1]|] eqn:R1; [|done].
  destruct (_ && _); [done|].
  destruct (ReadUvarint body n1) as [[typeID n2]|] eqn:R2; [|done].
  destruct (typeID =? 0); [done|].
  assert (0 < MaxCodecID limits ∧ 0 < MaxPayload limits) as [Hmc Hmp]
    by (unfold limits_valid in Hv; breflect; lia).
  rewrite (ReadBytes_bounded body n2) by lia.
  destruct (ReadUvarint body n2) as [[codecLength n3]|] eqn:R3; [|done].
  pose proof (ReadUvarint_next _ _ _ _ R3) as (?&?&Hu). unfold is_u64 in Hu.
  unfold uint64AsInt. destruct (maxInt <? codecLength); [done|].
  destruct ((MaxCodecID limits <? codecLength) || _) eqn:G; [done|]. breflect. simpl.
  assert (slice (seal body) n3 (n3 + codecLength) = slice body n3 (n3 + codecLength)) as ->
    by (unfold seal; by rewrite slice_app_l by lia).
  destruct (version =? FormatVersion); [|done].
  rewrite ReadBytes_bounded by lia.
  destruct (ReadUvarint body (n3 + codecLength)) as [[payloadLength n4]|] eqn:R4; [|done].
  pose proof (ReadUvarint_next _ _ _ _ R4) as (?&?&Hu4). unfold is_u64 in Hu4.
  destruct (maxInt <? payloadLength); [done|].
  destruct (Z.ltb_spec (MaxPayload limits) payloadLength); simpl; [done|].
  destruct (Z.eqb_spec payloadLength (len body - n4)) as [->|]; simpl.
  - guard_false. unfold seal. rewrite slice_app_l by lia.
    replace (n4 + (len body - n4)) with (len body) by lia. by rewrite Z.eqb_refl.
  - destruct (Z.ltb_spec (len body - n4) payloadLength); [done|].
    destruct (Z.eqb_spec (n4 + payloadLength) (len body)); [lia|done].
Qed.

Lemma view_inv data limits f :
  UnmarshalFrameView data limits = Ok f →
  ∃ body, data = seal body ∧ limits_valid limits = true ∧ 5 <= len body ∧
    len body + 4 <= MaxFrameBytes limits ∧ slice body 0 4 = magic ∧
    parse_body body limits = Ok f.
Proof.
  intros Hf. pose proof Hf as Hf'. revert Hf'. unfold UnmarshalFrameView.
  destruct (_ || (len data <? 9)) eqn:G1; [done|].
  destruct (negb (bool_decide _)) eqn:G2; [done|].
  destruct (negb (_ =? Uint32 _)) eqn:G3; [done|]. intros _. breflect.
  assert (data = seal (slice data 0 (len data - 4))) as Hseal by (apply seal_inv; lia || done).
  set (body := slice data 0 (len data - 4)) in *.
  assert (len data = len body + 4) as Hl by (rewrite Hseal at 1; apply len_seal).
  assert (slice body 0 4 = magic).
  { rewrite Hseal in G2. unfold seal in G2. by rewrite slice_app_l in G2 by lia. }
  exists body. split; [done|]. split; [done|]. split; [lia|]. split; [lia|]. split; [done|].
  rewrite <-view_seal by (done || lia). by rewrite <-Hseal.
Qed.
End v2_parse.

Lemma copyWriter_zeroed payload :
  ∃ w, copyWriter payload = Some w ∧ w (zeroed (len payload)) = Ok payload.
Proof.
  eexists. split; [done|]. unfold zeroed, len. rewrite Nat2Z.id. simpl.
  rewrite length_replicate, take_ge, drop_ge by (rewrite ?length_replicate; lia).
  by rewrite app_nil_r.
Qed.

Lemma exactWriter_copy typeID codecID payload limits :
  MarshalFrameWithPayloadAndLimits typeID codecID (len payload) limits
    (exactWriter payload (len payload)) =
  MarshalFrameWithPayloadAndLimits typeID codecID (len payload) limits (copyWriter payload).
Proof.
  destruct (copyWriter_zeroed payload) as (w & Hw & Hwp).
  unfold MarshalFrameWithPayloadAndLimits, exactWriter. rewrite Hw, Hwp. by rewrite Z.eqb_refl.
Qed.

Lemma len_header_enc version typeID codecID :
  len (header_enc version typeID codecID) =
  4 + UvarintSize version + UvarintSize typeID + UvarintSize (len codecID) + len codecID.
Proof.
  unfold header_enc. rewrite !len_app, len_bytes_enc. unfold UvarintSize.
  change (len magic) with 4. lia.
Qed.

Definition v1_body (typeID : Z) (codecID payload : bytes) : bytes :=
  header_enc FormatVersion typeID codecID ++ bytes_enc payload.

Lemma len_v1_body typeID codecID payload :
  len (v1_body typeID codecID payload) =
  4 + UvarintSize FormatVersion + UvarintSize typeID + UvarintSize (len codecID) + len codecID +
  UvarintSize (len payload) + len payload.
Proof. unfold v1_body. rewrite len_app, len_header_enc, len_bytes_enc. lia. Qed.

(** What the v1 encoder accepts and produces. *)
Lemma marshal_v1_iff typeID codecID payload limits data :
  MarshalFrameWithPayloadAndLimits typeID codecID (len payload) limits (copyWriter payload) =
    Ok data ↔
  limits_valid limits = true ∧ typeID ≠ 0 ∧ len codecID <= MaxCodecID limits ∧
  len payload <= MaxPayload limits ∧
  len (v1_body typeID codecID payload) + 4 <= MaxFrameBytes limits ∧
  data = seal (v1_body typeID codecID payload).
Proof.
  destruct (copyWriter_zeroed payload) as (w & Hw & Hwp). rewrite Hw.
  unfold MarshalFrameWithPayloadAndLimits. cbv zeta. rewrite Hwp.
  assert (AppendUint32 (AppendUvarint (AppendUvarint (AppendUvarint (AppendUvarint magic
    FormatVersion) typeID) (len codecID) ++ codecID) (len payload) ++ payload) (crc32c (slice_from
    (AppendUvarint (AppendUvarint (AppendUvarint (AppendUvarint magic FormatVersion) typeID)
    (len codecID) ++ codecID) (len payload) ++ payload) 4)) =
    seal (v1_body typeID codecID payload)) as ->.
  { rewrite AppendUint32_enc. unfold seal, v1_body, header_enc, bytes_enc, AppendUvarint.
    by rewrite <-!app_assoc. }
  rewrite len_v1_body. pose proof (len_nonneg payload). split.
  - guards. intros [= <-].
    repeat (split; [done || lia|]). done.
  - intros (?&?&?&?&?&->). guard_false. guard_false. done.
Qed.

Lemma MarshalFrame_payload f data :
  MarshalFrame f = Ok data → len (Payload f) <= MaxPayload DefaultLimits.
Proof. unfold MarshalFrame, MarshalFrameWithPayload. rewrite marshal_v1_iff. naive_solver. Qed.

(** Limits that an [int] holds with room for the decoder's probe byte. *)
Definition limits_int (limits : DecoderLimits) : Prop :=
  (MaxCodecID limits <= maxInt ∧ MaxPayload limits < maxInt) ∧
  MaxFrameBytes limits <= maxInt ∧ MaxElements limits <= maxInt ∧
  MaxTags limits <= maxInt ∧ MaxStringBytes limits <= maxInt.

#[export] Instance limits_int_dec limits : Decision (limits_int limits).
Proof. unfold limits_int. apply _. Defined.

Lemma default_limits_int : limits_int DefaultLimits.
Proof. done. Qed.

Lemma limits_string_ok {A} (s : list A) limits :
  limits_int limits → len s <= MaxStringBytes limits → len_ok s.
Proof. unfold limits_int, len_ok. lia. Qed.

Section roundtrip.
Context `{F : Flate}.

Lemma parse_v1 typeID codecID payload limits :
  limits_valid limits = true → limits_int limits → is_u64 typeID → typeID ≠ 0 →
  len codecID <= MaxCodecID limits → len payload <= MaxPayload limits →
  parse_body (v1_body typeID codecID payload) limits =
    Ok (mkFrame typeID codecID payload 0 false).
Proof.
  intros Hv [[Hi1 Hi2] _] Ht H0 Hc Hp.
  destruct (parse_header_ok limits FormatVersion typeID codecID (bytes_enc payload)
    (v1_body typeID codecID payload)) as (next & Hh & Hr); try done; [by left|unfold len_ok; lia|].
  unfold parse_body. rewrite Hh. simpl.
  rewrite <-(app_nil_r (bytes_enc payload)) in Hr.
  apply (ReadBytes_ok _ _ (MaxPayload limits)) in Hr as [R Hr]; [|unfold len_ok; lia|done].
  rewrite R. apply remaining_nil in Hr. guard_true. done.
Qed.

Lemma parse_v1_inv body limits f :
  slice body 0 4 = magic → parse_body body limits = Ok f → Version f = FormatVersion →
  f = mkFrame (TypeID f) (CodecID f) (Payload f) 0 false ∧ is_u64 (TypeID f) ∧ TypeID f ≠ 0 ∧
  len (CodecID f) <= MaxCodecID limits ∧ len (Payload f) <= MaxPayload limits ∧
  body = v1_body (TypeID f) (CodecID f) (Payload f).
Proof.
  intros Hm. unfold parse_body.
  destruct (parse_header body limits) as [[[[v t] c] next]|] eqn:Hh; simpl; [|done].
  apply parse_header_inv in Hh as (Hv & Ht & H0 & _ & Hc & rest & Hb & Hr); [|done].
  destruct (Z.eqb_spec v FormatVersion) as [->|Hv1].
  - destruct (ReadBytes body next _) as [[p n]|] eqn:R; [|done].
    destruct (Z.eqb_spec n (len body)) as [->|]; [|done]. intros [= <-] _. simpl.
    apply ReadBytes_inv in R as (_ & Hp & _ & r & [_ Hr1] & Hr2).
    assert (r = []) as ->.
    { apply remaining_len in Hr2. destruct r; [done|]. rewrite len_cons in Hr2.
      pose proof (len_nonneg r). lia. }
    destruct Hr as [_ Hr]. rewrite Hr1, app_nil_r in Hr. subst rest. done.
  - intros Hf Hver. exfalso. revert Hf. unfold unmarshalFrameV2.
    repeat (case_match; try done); intros [= <-]; done.
Qed.

Lemma unmarshal_v1_marshal data limits f :
  UnmarshalFrame data limits = Ok f → Version f = FormatVersion →
  is_u64 (TypeID f) ∧ formatVersion f = 0 ∧ payloadOwned f = false ∧
  MarshalFrameWithPayloadAndLimits (TypeID f) (CodecID f) (len (Payload f)) limits
    (copyWriter (Payload f)) = Ok data.
Proof.
  rewrite marshal_v1_iff. unfold UnmarshalFrame. intros Hu Hver.
  destruct (UnmarshalFrameView data limits) as [g|] eqn:Hg; [|done].
  injection Hu as <-. apply view_inv in Hg as (body & -> & Hv & H5 & Hmax & Hm & Hp).
  apply parse_v1_inv in Hp as (Hg & ?&?&?&?&->); [|done..].
  assert (formatVersion g = 0) by (by rewrite Hg). done.
Qed.

Lemma unmarshal_v1 f limits data :
  limits_int limits → is_u64 (TypeID f) →
  MarshalFrameWithPayloadAndLimits (TypeID f) (CodecID f) (len (Payload f)) limits
    (copyWriter (Payload f)) = Ok data →
  UnmarshalFrame data limits = Ok (mkFrame (TypeID f) (CodecID f) (Payload f) 0 false).
Proof.
  intros Hint Ht. rewrite marshal_v1_iff. unfold UnmarshalFrame.
  intros (Hv & H0 & Hc & Hp & Hmax & ->).
  rewrite view_seal; [by rewrite parse_v1 by done|done| |lia|done].
  rewrite len_v1_body. pose proof (UvarintSize_bounds _ Ht).
  pose proof (len_nonneg (CodecID f)). pose proof (len_nonneg (Payload f)).
  pose proof (len_nonneg (putUvarint (len (CodecID f)))).
  pose proof (len_nonneg (putUvarint (len (Payload f)))).
  unfold UvarintSize in *. change (len (putUvarint FormatVersion)) with 1. lia.
Qed.

Lemma unmarshal_MarshalFrame f data :
  is_u64 (TypeID f) → MarshalFrame f = Ok data →
  UnmarshalFrame data DefaultLimits = Ok (mkFrame (TypeID f) (CodecID f) (Payload f) 0 false).
Proof. intros. by apply unmarshal_v1. Qed.

(** C33: the v1 codec. Within given limits the decoder accepts a v1 frame exactly
    when the encoder, given the decoded type, codec and payload, produces those
    very bytes: every encoded frame decodes to what was encoded, and no other
    byte string decodes to it. In particular [MarshalFrame] output is accepted
    under [DefaultLimits]. *)
Theorem frame_v1_codec (data : bytes) (limits : DecoderLimits) (f : Frame)
    (Hlimits : limits_int limits) :
  (UnmarshalFrame data limits = Ok f ∧ Version f = FormatVersion) ↔
  (is_u64 (TypeID f) ∧ formatVersion f = 0 ∧ payloadOwned f = false ∧
   MarshalFrameWithPayloadAndLimits (TypeID f) (CodecID f) (len (Payload f)) limits
     (copyWriter (Payload f)) = Ok data).
Proof.
  split; [intros [??]; by apply unmarshal_v1_marshal|].
  intros (Ht & Hver & Hown & Hm). rewrite (unmarshal_v1 f limits data) by done.
  destruct f; simpl in *. by subst.
Qed.

Definition v2_body (typeID : Z) (codecID : bytes) (mode rawLength : Z) (encoded : bytes) : bytes :=
  header_enc FormatVersionV2 typeID codecID ++
  putUvarint mode ++ putUvarint rawLength ++ bytes_enc encoded.

(** The two representations of a payload: itself, or its compressed form. *)
Definition v2_choice (payload : bytes) (mode : Z) (encoded : bytes) : Prop :=
  (mode = v2PayloadRaw ∧ encoded = payload) ∨
  (mode = v2PayloadDeflate ∧ encoded = flate_compress payload).

Lemma v2FrameSize_body typeID codecID mode rawLength encoded :
  0 <= mode < 128 → 0 <= rawLength →
  v2FrameSize typeID codecID rawLength (len encoded) =
  len (v2_body typeID codecID mode rawLength encoded) + 4.
Proof.
  intros Hm Hr. unfold v2FrameSize, v2_body, uvarintSizeForLength.
  pose proof (len_nonneg codecID). pose proof (len_nonneg encoded).
  do 3 guard_false. rewrite !len_app, len_header_enc, len_bytes_enc.
  fold (UvarintSize mode) (UvarintSize rawLength).
  rewrite (UvarintSize_small mode), (UvarintSize_small v2PayloadDeflate) by (done || lia). lia.
Qed.

Lemma marshal_v2_inv typeID codecID payload limits data :
  marshalFrameV2Payload typeID codecID payload limits = Ok data →
  ∃ mode encoded, v2_choice payload mode encoded ∧
    len (v2_body typeID codecID mode (len payload) encoded) + 4 <= MaxFrameBytes limits ∧
    data = seal (v2_body typeID codecID mode (len payload) encoded).
Proof.
  pose proof (len_nonneg payload) as Hp. unfold marshalFrameV2Payload.
  assert (∀ mode encoded, 0 <= mode < 128 → v2_choice payload mode encoded →
    (if MaxFrameBytes limits <? v2FrameSize typeID codecID (len payload) (len encoded)
     then Err ErrFrameLimit
     else Ok (AppendUint32 (v2Header typeID codecID mode (len payload) (len encoded) ++ encoded)
            (crc32c (slice_from (v2Header typeID codecID mode (len payload) (len encoded) ++
               encoded) 4)))) = Ok data →
    ∃ mode encoded, v2_choice payload mode encoded ∧
    len (v2_body typeID codecID mode (len payload) encoded) + 4 <= MaxFrameBytes limits ∧
    data = seal (v2_body typeID codecID mode (len payload) encoded)) as Hchoice.
  { intros mode encoded Hm Hch. rewrite (v2FrameSize_body _ _ mode) by done. guards.
    assert (v2Header typeID codecID mode (len payload) (len encoded) ++ encoded =
      v2_body typeID codecID mode (len payload) encoded) as ->.
    { unfold v2_body, v2Header, header_enc, bytes_enc, AppendUvarint. by rewrite <-!app_assoc. }
    rewrite AppendUint32_enc. intros Heq. exists mode, encoded. split; [done|]. split; [lia|].
    by injection Heq as <-. }
  unfold deflatePayload. destruct (minV2DeflatePayloadBytes <=? len payload); [destruct (_ <? _)|];
    apply Hchoice; unfold v2_choice; auto; done.
Qed.

Lemma inflate_compress `{!FlateOk} payload :
  len payload < maxInt → inflatePayload (flate_compress payload) (len payload) = Ok payload.
Proof.
  intros Hmax. pose proof (len_nonneg payload). unfold inflatePayload. guard_false.
  rewrite flate_roundtrip, Z.min_l by lia. rewrite Z.ltb_irrefl, Z.eqb_refl. simpl.
  rewrite slice_all by lia. by destruct (len payload =? 0).
Qed.

Lemma parse_v2 `{!FlateOk} typeID codecID payload mode encoded limits :
  limits_valid limits = true → limits_int limits → is_u64 typeID → typeID ≠ 0 → len codecID <= MaxCodecID limits →
  len payload <= MaxPayload limits → v2_choice payload mode encoded →
  len (v2_body typeID codecID mode (len payload) encoded) + 4 <= MaxFrameBytes limits →
  ∃ owned, parse_body (v2_body typeID codecID mode (len payload) encoded) limits =
    Ok (mkFrame typeID codecID payload FormatVersionV2 owned).
Proof.
  intros Hv [[Hi1 Hi2] [Hi3 _]] Ht H0 Hc Hp Hch Hmax. set (body := v2_body _ _ _ _ _) in *.
  pose proof (len_nonneg payload). pose proof (len_nonneg encoded).
  destruct (parse_header_ok limits FormatVersionV2 typeID codecID
    (putUvarint mode ++ putUvarint (len payload) ++ bytes_enc encoded) body)
    as (next & Hh & Hr); try done; [by right|unfold len_ok; lia|].
  assert (len encoded < maxInt) as He.
  { pose proof (remaining_len _ _ _ Hr) as Hl. destruct Hr as [Hpos _].
    unfold bytes_enc in Hl. rewrite !len_app in Hl.
    pose proof (len_nonneg (putUvarint mode)). pose proof (len_nonneg (putUvarint (len payload))).
    pose proof (len_nonneg (putUvarint (len encoded))). lia. }
  unfold parse_body. rewrite Hh. simpl.
  change (FormatVersionV2 =? FormatVersion) with false. cbv iota. unfold bytes_enc in Hr.
  assert (is_u64 mode ∧ (mode = 0 ∨ mode = 1)) as [Hmu Hm].
  { unfold v2_choice, v2PayloadRaw, v2PayloadDeflate, is_u64 in *. lia. }
  apply ReadUvarint_ok in Hr as [R1 Hr]; [|done].
  apply ReadUvarint_ok in Hr as [R2 Hr]; [|unfold is_u64, maxInt in *; lia].
  apply ReadUvarint_ok in Hr as [R3 Hr]; [|unfold is_u64, maxInt in *; lia].
  pose proof (remaining_len _ _ _ Hr) as Hlen. destruct Hr as [Hpos Hr].
  unfold unmarshalFrameV2. rewrite R1, R2, R3.
  assert (negb (mode =? v2PayloadRaw) && negb (mode =? v2PayloadDeflate) = false) as ->
    by (by destruct Hm as [-> | ->]).
  guard_false. cbv zeta. guard_false. rewrite Hr.
  unfold uint64AsInt. destruct Hch as [[-> ->] | [-> ->]].
  - rewrite Z.eqb_refl. simpl. rewrite Z.eqb_refl. simpl. eauto.
  - change (v2PayloadDeflate =? v2PayloadRaw) with false. cbv iota. guard_false.
    rewrite inflate_compress by lia. eauto.
Qed.

Lemma unmarshal_v2 `{!FlateOk} f limits data :
  limits_int limits → is_u64 (TypeID f) →
  MarshalFrameV2WithLimits f limits = Ok data →
  UnmarshalFrame data limits =
    Ok (mkFrame (TypeID f) (CodecID f) (Payload f) FormatVersionV2 false).
Proof.
  unfold MarshalFrameV2WithLimits, validFrameV2Input. intros Hint Ht.
  destruct (negb _) eqn:G; [done|]. breflect.
  intros (mode & encoded & Hch & Hl & ->)%marshal_v2_inv. unfold UnmarshalFrame.
  destruct (parse_v2 (TypeID f) (CodecID f) (Payload f) mode encoded limits)
    as [owned Hp]; try done.
  rewrite view_seal, Hp; [done|done| |lia|done].
  unfold v2_body. rewrite len_app, len_header_enc.
  pose proof (UvarintSize_bounds _ Ht). pose proof (len_nonneg (CodecID f)).
  pose proof (len_nonneg (putUvarint (len (CodecID f)))).
  pose proof (len_nonneg (putUvarint mode ++ putUvarint (len (Payload f)) ++ bytes_enc encoded)).
  unfold UvarintSize in *. change (len (putUvarint FormatVersionV2)) with 1. lia.
Qed.

(** The peeked version is the version of the frame the full decoder returns. *)
Lemma unmarshal_peek data limits f :
  UnmarshalFrame data limits = Ok f →
  limits_valid limits = true ∧ PeekFrameFormatVersion data limits = Ok (Version f).
Proof.
  unfold UnmarshalFrame. destruct (UnmarshalFrameView data limits) as [g|] eqn:Hg; [|done].
  intros [= <-]. apply view_inv in Hg as (body & -> & Hv & H5 & Hmax & Hm & Hp).
  split; [done|]. revert Hp. unfold parse_body.
  destruct (parse_header body limits) as [[[[v t] c] next]|] eqn:Hh; simpl; [|done].
  apply parse_header_inv in Hh as (Hver & _ & _ & _ & _ & rest & Hb & _); [|done]. intros Hg.
  assert (Version g = v) as Hgv.
  { destruct Hver as [-> | ->]; simpl in Hg; [repeat (case_match; try done); by injection Hg as <-|].
    revert Hg. unfold unmarshalFrameV2. repeat (case_match; try done); by intros [= <-]. }
  unfold PeekFrameFormatVersion. rewrite len_seal. guard_false.
  assert (slice (seal body) 0 4 = magic) as -> by (unfold seal; by rewrite slice_app_l by lia).
  guard_false. destruct (ReadUvarint_ok (seal body) 4 v (putUvarint t ++ bytes_enc c ++ rest ++
    uint32_enc (crc32c (slice_from body 4)))) as [-> _].
  - destruct Hver as [-> | ->]; done.
  - unfold seal. rewrite Hb at 1. unfold header_enc. rewrite <-!app_assoc.
    apply (remaining_intro magic).
  - unfold Version in *. simpl. rewrite Hgv. by destruct Hver as [-> | ->].
Qed.

(** What a codec on top of v1 frames has to prove: decoding the frame and then
    its payload accepts the bytes the encoder produces for that payload. *)
Lemma decoded_v1_iff data typeID codecID (P : bytes → Prop) :
  is_u64 typeID →
  (∃ f, UnmarshalFrame data DefaultLimits = Ok f ∧ TypeID f = typeID ∧ CodecID f = codecID ∧
     P (Payload f)) ∧ PeekFrameFormatVersion data DefaultLimits = Ok FormatVersion ↔
  ∃ payload, P payload ∧ MarshalFrame (mkFrame typeID codecID payload 0 false) = Ok data.
Proof.
  intros Ht. split.
  - intros [(f & Hf & <- & <- & HP) Hpeek]. exists (Payload f). split; [done|].
    pose proof (unmarshal_peek _ _ _ Hf) as [_ Hpeek']. rewrite Hpeek in Hpeek'.
    injection Hpeek' as Hver. by apply unmarshal_v1_marshal in Hf as (_ & _ & _ & Hm).
  - intros (payload & HP & Hm). apply unmarshal_MarshalFrame in Hm; [|done].
    split; [by eexists|]. by apply unmarshal_peek in Hm as [_ ->].
Qed.

(** The v2 codec. Every frame [MarshalFrameV2WithLimits] emits, compressed or
    raw, is accepted under the same limits and decodes to the same type, codec
    and payload, whatever the compressor, as long as its reader restores what its
    writer wrote. *)
Theorem frame_v2_roundtrip `{!FlateOk} (f : Frame) (limits : DecoderLimits) (data : bytes)
    (Hint : limits_int limits) (Ht : is_u64 (TypeID f))
    (Hdata : MarshalFrameV2WithLimits f limits = Ok data) :
  UnmarshalFrame data limits =
    Ok (mkFrame (TypeID f) (CodecID f) (Payload f) FormatVersionV2 false).
Proof. by apply unmarshal_v2. Qed.

(** Conversions between the formats lose nothing. Converting a v1 frame to v2
    and back restores the very same bytes. *)
Theorem convert_v1_v2_v1 `{!FlateOk} (limits : DecoderLimits) (data converted : bytes)
    (Hint : limits_int limits)
    (Hconv : ConvertFrameV1ToV2 data limits = Ok converted) :
  ConvertFrameV2ToV1 converted limits = Ok data.
Proof.
  revert Hconv. unfold ConvertFrameV1ToV2, ConvertFrameV2ToV1.
  destruct (UnmarshalFrame data limits) as [f|] eqn:Hf; [|done].
  destruct (negb _) eqn:Hv; [done|]. breflect. intros Hc.
  destruct (unmarshal_v1_marshal data limits f) as (Ht & _ & _ & Hm); [done..|].
  by rewrite (unmarshal_v2 f limits) by done.
Qed.
End roundtrip.

Section detection.
Context `{F : Flate}.

Lemma seal_substitution pre a b suf body body' :
  pre ++ a :: suf = seal body → pre ++ b :: suf = seal body' →
  len body = len body' → slice body 0 4 = magic → slice body' 0 4 = magic → a = b.
Proof.
  unfold seal. intros Ha Hb Hl (r & ->)%magic_split (r' & ->)%magic_split.
  assert (length r = length r') as Hlr by (rewrite !len_app in Hl; unfold len in Hl; lia).
  change (slice_from (magic ++ r) 4) with r in Ha.
  change (slice_from (magic ++ r') 4) with r' in Hb.
  rewrite <-app_assoc in Ha, Hb.
  destruct pre as [|m0 [|m1 [|m2 [|m3 pre]]]]; simpl in Ha, Hb; try congruence.
  injection Ha as _ _ _ _ Ha. injection Hb as _ _ _ _ Hb.
  apply app_eq_inv in Ha as [(k & -> & Hk)|(k & -> & Hk)].
  - rewrite <-app_assoc in Hb. apply app_inj_1 in Hb as [-> Hb]; [|done].
    rewrite Hk in Hb. by simplify_list_eq.
  - destruct k as [|x k]; simpl in Hk.
    { rewrite app_nil_r in Hlr. apply app_inj_1 in Hb as [-> Hb]; [|done].
      rewrite app_nil_r in Hk. rewrite <-Hk in Hb. by simplify_list_eq. }
    injection Hk as <- ->.
    rewrite (app_comm_cons k), (app_assoc pre) in Hb.
    apply app_inj_1 in Hb as [<- Hb]; [|rewrite <-Hlr, !length_app; done].
    apply (crc32c_substitution pre a b k). apply (f_equal Uint32) in Hb.
    by rewrite !Uint32_enc in Hb by apply crc32c_u32.
Qed.

(** C38: substitution of a byte is detected. Whatever byte of an accepted frame
    (v1 or v2) is replaced by a different one, in the magic, the header, the
    payload or the checksum, the decoder refuses the result as invalid. *)
Theorem frame_detects_substitution (pre suf : bytes) (a b : byte) (limits : DecoderLimits)
    (f : Frame) (Hok : UnmarshalFrame (pre ++ a :: suf) limits = Ok f) (Hab : a ≠ b) :
  UnmarshalFrame (pre ++ b :: suf) limits = Err ErrInvalidFrame.
Proof.
  unfold UnmarshalFrame in *.
  destruct (UnmarshalFrameView (pre ++ a :: suf) limits) as [g|] eqn:Hg; [clear Hok|done].
  apply view_inv in Hg as (body & Hbody & Hv & H5 & Hmax & Hm & _).
  assert (len (pre ++ b :: suf) = len body + 4) as Hl.
  { rewrite <-len_seal, <-Hbody, !len_app, !len_cons. lia. }
  unfold UnmarshalFrameView. cbv zeta. rewrite Hl. guard_false.
  destruct (bool_decide _) eqn:G1; [|done]. cbn [negb]. cbv iota. breflect.
  destruct (_ =? Uint32 _) eqn:G2; [|done]. breflect. exfalso. apply Hab.
  replace (len body + 4 - 4) with (len body) in G2 by lia.
  set (data := pre ++ b :: suf) in *. set (body' := slice data 0 (len data - 4)).
  assert (data = seal body') as Hseal.
  { apply seal_inv; rewrite Hl; replace (len body + 4 - 4) with (len body) by lia; [lia|done]. }
  assert (len body = len body') as Hlb.
  { assert (len data = len body' + 4); [|lia]. rewrite Hseal. apply len_seal. }
  apply (seal_substitution pre a b suf body body'); [done|done|done|done|].
  rewrite Hseal in G1. unfold seal in G1. by rewrite slice_app_l in G1 by lia.
Qed.
End detection.

(** ** Witnesses *)

(** A compressor that stores one repetitive payload as a single marker byte and
    every other payload behind a zero byte. *)
Definition flat_payload : bytes := replicate 200 (Zbyte 65).

Definition marker_flate : Flate := {|
  flate_compress p := if bool_decide (p = flat_payload) then [Zbyte 1] else Zbyte 0 :: p;
  flate_stream e :=
    match e with
    | [] => ([], StreamTruncated)
    | b :: e => if byteZ b =? 1 then (flat_payload, StreamEOF) else (e, StreamEOF)
    end
|}.

Lemma marker_flate_ok : @FlateOk marker_flate.
Proof.
  intros p. unfold flate_stream, flate_compress, marker_flate.
  case_bool_decide; [by subst|done].
Qed.

Definition frame_short : Frame := mkFrame 3 (str "utf8") (str "hello") 0 false.
Definition frame_long : Frame := mkFrame 3 (str "utf8") flat_payload 0 false.

Definition sealed (r : result bytes) : bytes := match r with Ok data => data | Err _ => [] end.

Lemma frame_v1_codec_witness :
  @UnmarshalFrame marker_flate (sealed (MarshalFrame frame_short)) DefaultLimits = Ok frame_short.
Proof.
  apply (@frame_v1_codec marker_flate _ DefaultLimits frame_short); [done|].
  split; [done|]. split; [done|]. split; [done|]. vm_compute. reflexivity.
Defined.

Lemma frame_v2_roundtrip_witness :
  @UnmarshalFrame marker_flate (sealed (@MarshalFrameV2 marker_flate frame_long)) DefaultLimits =
  Ok (mkFrame 3 (str "utf8") flat_payload FormatVersionV2 false).
Proof.
  apply (@frame_v2_roundtrip marker_flate marker_flate_ok frame_long DefaultLimits);
    [done|done|]. vm_compute. reflexivity.
Defined.

Lemma convert_v1_v2_v1_witness :
  @ConvertFrameV2ToV1 marker_flate
    (sealed (@ConvertFrameV1ToV2 marker_flate (sealed (MarshalFrame frame_long)) DefaultLimits))
    DefaultLimits = MarshalFrame frame_long.
Proof.
  transitivity (Ok (sealed (MarshalFrame frame_long))); [|vm_compute; reflexivity].
  apply (@convert_v1_v2_v1 marker_flate marker_flate_ok); [done|].
  vm_compute. reflexivity.
Defined.

Lemma frame_detects_substitution_witness :
  let data := sealed (MarshalFrame frame_short) in
  @UnmarshalFrame marker_flate (take 12 data ++ Zbyte 0 :: drop 13 data) DefaultLimits =
  Err ErrInvalidFrame.
Proof.
  apply (@frame_detects_substitution marker_flate (take 12 (sealed (MarshalFrame frame_short)))
    (drop 13 (sealed (MarshalFrame frame_short))) (Zbyte 104) (Zbyte 0) DefaultLimits
    frame_short); [vm_compute; reflexivity|done].
Defined.

(** The published check value of CRC-32C. *)
Example crc32c_check : crc32c (str "123456789") = 0xE3069283.
Proof. vm_compute. reflexivity. Qed.
