(* ===== verification/RGA.v ===== *)
(** * The text RGA

    Models src/text/rga.go: a replicated growable array of code points. A node
    names its parent, the position it was typed after; nodes whose parent has not
    arrived wait in [rg_pending]. The children of a position are kept in
    descending tag order, inline for one child and in [rg_branches] for more, and
    [rg_sequence] keeps the depth-first order of the whole tree. *)

From S2P Require Import Prelude Utf8 Tags Forest Clock Sequence Frame.

(** ** Data *)

(** [node] *)
Record node := mkNode { nd_parent : Position; nd_rune : Z }.
#[export] Instance node_eq_dec : EqDecision node.
Proof. solve_decision. Defined.

(** [Delta] *)
Record Delta := mkDelta {
  dl_nodes : gmap Position node;
  dl_tombstones : gset Position;
  dl_canonicalNodeIDs : list Position
}.
Definition emptyDelta : Delta := mkDelta ∅ ∅ [].

(** [Options], [DefaultOptions], [Options.valid] *)
Record TextOptions := mkTextOptions {
  MaxNodes : Z; MaxTombstones : Z; MaxPendingNodes : Z; MaxPendingBytes : Z }.
Definition DefaultOptions : TextOptions :=
  mkTextOptions (Z.shiftl 1 20) (Z.shiftl 1 20) (Z.shiftl 1 16) (Z.shiftl 4 20).
Definition TextOptions_valid (o : TextOptions) : bool :=
  (0 <? MaxNodes o) && (0 <? MaxTombstones o) && (0 <? MaxPendingNodes o) && (0 <? MaxPendingBytes o).

(** [RGA]; [rg_branches] is its [childIndex]. *)
Record RGA := mkRGA {
  rg_replicaID : bytes;
  rg_clock : ptr HLC;
  rg_options : TextOptions;
  rg_nodes : gmap Position node;
  rg_pending : gmap Position node;
  rg_waitingByParent : gmap Position (gset Position);
  rg_pendingBytes : Z;
  rg_tombstones : gset Position;
  rg_version : Z;
  rg_sequence : sequenceIndex;
  rg_branches : gmap Position (list Position)
}.

Definition set_clock (r : RGA) (c : ptr HLC) : RGA :=
  mkRGA (rg_replicaID r) c (rg_options r) (rg_nodes r) (rg_pending r) (rg_waitingByParent r) (rg_pendingBytes r)
    (rg_tombstones r) (rg_version r) (rg_sequence r) (rg_branches r).
Definition set_nodes (r : RGA) (nodes : gmap Position node) : RGA :=
  mkRGA (rg_replicaID r) (rg_clock r) (rg_options r) nodes (rg_pending r) (rg_waitingByParent r) (rg_pendingBytes r)
    (rg_tombstones r) (rg_version r) (rg_sequence r) (rg_branches r).
Definition set_pending (r : RGA) (pending : gmap Position node) (waiting : gmap Position (gset Position)) (b : Z) : RGA :=
  mkRGA (rg_replicaID r) (rg_clock r) (rg_options r) (rg_nodes r) pending waiting b
    (rg_tombstones r) (rg_version r) (rg_sequence r) (rg_branches r).
Definition set_tombstones (r : RGA) (tombstones : gset Position) : RGA :=
  mkRGA (rg_replicaID r) (rg_clock r) (rg_options r) (rg_nodes r) (rg_pending r) (rg_waitingByParent r)
    (rg_pendingBytes r) tombstones (rg_version r) (rg_sequence r) (rg_branches r).
Definition set_sequence (r : RGA) (sequence : sequenceIndex) (branches : gmap Position (list Position)) : RGA :=
  mkRGA (rg_replicaID r) (rg_clock r) (rg_options r) (rg_nodes r) (rg_pending r) (rg_waitingByParent r)
    (rg_pendingBytes r) (rg_tombstones r) (rg_version r) sequence branches.
(** [r.version++] *)
Definition bump_version (r : RGA) (changed : bool) : RGA :=
  if changed then
    mkRGA (rg_replicaID r) (rg_clock r) (rg_options r) (rg_nodes r) (rg_pending r) (rg_waitingByParent r)
      (rg_pendingBytes r) (rg_tombstones r) (u64 (rg_version r + 1)) (rg_sequence r) (rg_branches r)
  else r.

Definition si_with_pairs (index : sequenceIndex) (pairs : gmap Position sequencePair) : sequenceIndex :=
  mkIndex (si_root index) (si_links index) pairs.

(** [sortPositions], [sortedNodeIDs], [sortedTombstoneIDs], [sortedWaitingIDs] *)
Definition sortPositions (ids : list Position) : list Position := sort_by Compare ids.
Definition sortedNodeIDs (nodes : gmap Position node) : list Position := sortPositions (map_to_list nodes).*1.
Definition sortedTombstoneIDs (tombstones : gset Position) : list Position := sortPositions (elements tombstones).
Definition sortedWaitingIDs (entries : gset Position) : list Position := sortPositions (elements entries).

(** ** The child index *)

(** [sort.Search] *)
Fixpoint search_loop (fuel : nat) (f : nat → bool) (i j : nat) : nat :=
  match fuel with
  | O => i
  | S fuel' =>
      if (i <? j)%nat then
        let h := ((i + j) / 2)%nat in
        if f h then search_loop fuel' f i h else search_loop fuel' f (S h) j
      else i
  end.
Definition sort_Search (n : nat) (f : nat → bool) : nat := search_loop (S n) f 0 n.

Abbreviation child_index := (gmap Position (list Position) * gmap Position sequencePair)%type.

(** [parent.singleChild] and its assignment; [parent] names the pair. *)
Definition singleChild (pairs : gmap Position sequencePair) (parent : Position) : ptr Position :=
  pairs !! parent ≫= sp_singleChild.
Definition set_singleChild (pairs : gmap Position sequencePair) (parent : Position) (child : ptr Position)
    : gmap Position sequencePair := alter (λ p, mkPair (sp_position p) child) parent pairs.

(** [childIndex.count] *)
Definition children_count (ci : child_index) (parent : Position) : Z :=
  match ci.2 !! parent with
  | None => 0
  | Some _ =>
      match ci.1 !! parent with
      | Some siblings => len siblings
      | None => match singleChild ci.2 parent with Some _ => 1 | None => 0 end
      end
  end.

(** The sibling before index [i]. *)
Definition sibling_before (siblings : list Position) (i : nat) : option Position :=
  match i with O => None | S i' => siblings !! i' end.

(** [childIndex.insert], with the preceding sibling. *)
Definition children_insert (ci : child_index) (parent child : Position) : child_index * option Position :=
  let '(branches, pairs) := ci in
  match branches !! parent with
  | Some siblings =>
      let insertAt := sort_Search (length siblings) (λ i, Compare (nth i siblings zeroTag) child <? 0) in
      let previous := sibling_before siblings insertAt in
      if bool_decide (siblings !! insertAt = Some child) then (ci, previous)
      else ((<[parent := take insertAt siblings ++ child :: drop insertAt siblings]> branches, pairs), previous)
  | None =>
      match singleChild pairs parent with
      | None => ((branches, set_singleChild pairs parent (Some child)), None)
      | Some current =>
          if bool_decide (current = child) then (ci, None)
          else if Compare current child <? 0
          then ((<[parent := [child; current]]> branches, set_singleChild pairs parent None), None)
          else ((<[parent := [current; child]]> branches, set_singleChild pairs parent None), Some current)
      end
  end.

(** The switch on the remaining siblings that [remove] and [removeSelected] share. *)
Definition store_siblings (ci : child_index) (parent : Position) (siblings : list Position) : child_index :=
  let '(branches, pairs) := ci in
  match siblings with
  | [] => (delete parent branches, pairs)
  | [child] => (delete parent branches, set_singleChild pairs parent (Some child))
  | _ => (<[parent := siblings]> branches, pairs)
  end.

(** [childIndex.remove]; [None] is the result [false]. *)
Definition children_remove (ci : child_index) (parent child : Position) : option child_index :=
  let '(branches, pairs) := ci in
  match branches !! parent with
  | Some siblings =>
      let removeAt := sort_Search (length siblings) (λ i, Compare (nth i siblings zeroTag) child <=? 0) in
      if negb (bool_decide (siblings !! removeAt = Some child)) then None
      else Some (store_siblings ci parent (take removeAt siblings ++ drop (S removeAt) siblings))
  | None =>
      if bool_decide (singleChild pairs parent = Some child) then Some (branches, set_singleChild pairs parent None)
      else None
  end.

(** [childIndex.removeSelected]; [gone] tells the removed candidates. *)
Definition removeSelected (gone : Position → bool) (ci : child_index) (parent : Position) : child_index :=
  let '(branches, pairs) := ci in
  match branches !! parent with
  | Some siblings => store_siblings ci parent (filter (λ child, gone child = false) siblings)
  | None =>
      match singleChild pairs parent with
      | None => ci
      | Some child => if gone child then (branches, set_singleChild pairs parent None) else ci
      end
  end.

(** The child index of an RGA. *)
Definition rg_children (r : RGA) : child_index := (rg_branches r, si_pairs (rg_sequence r)).
Definition set_children (r : RGA) (ci : child_index) : RGA :=
  set_sequence r (si_with_pairs (rg_sequence r) ci.2) ci.1.

(** ** Construction and queries *)

(** [NewFromClockWithOptions], [NewFromClock], [NewWithOptions], [New] *)
Definition NewFromClockWithOptions (state : ClockState) (options : TextOptions) : result RGA :=
  if negb (Valid (mkTag (cs_ReplicaID state) 0 0)) then Err (ErrText TextReplicaID)
  else if negb (TextOptions_valid options) then Err (ErrText TextLimit)
  else
    hlc ← NewHLCFromState state;
    Ok (mkRGA (cs_ReplicaID state) (Some hlc) options ∅ ∅ ∅ 0 ∅ 0 newSequenceIndex ∅).
Definition NewFromClock (state : ClockState) : result RGA := NewFromClockWithOptions state DefaultOptions.
Definition NewWithOptions (replicaID : bytes) (options : TextOptions) : result RGA :=
  NewFromClockWithOptions (mkClockState replicaID 0 0) options.
Definition New (replicaID : bytes) : result RGA := NewWithOptions replicaID DefaultOptions.

(** [RGA.ClockState] *)
Definition RGA_ClockState (r : ptr RGA) : ClockState :=
  match r with
  | None => zeroClockState
  | Some r => match rg_clock r with None => zeroClockState | Some _ => HLC_Snapshot (rg_clock r) end
  end.

(** [retainsPositionLocked], [hasIntegratedPositionLocked], [RetainsPosition] *)
Definition retainsPositionLocked (r : RGA) (position : Position) : bool :=
  bool_decide (is_Some (rg_nodes r !! position)) || bool_decide (is_Some (rg_pending r !! position)).
Definition hasIntegratedPositionLocked (r : RGA) (position : Position) : bool :=
  bool_decide (is_Some (rg_nodes r !! position)).
Definition RetainsPosition (r : ptr RGA) (position : Position) : bool :=
  match r with
  | None => false
  | Some r => if negb (Valid position) then false else retainsPositionLocked r position
  end.

(** The markers after the root's entry that are visible. *)
Definition visible_markers (r : RGA) : list sequenceMarker :=
  filter is_visible (links_after (si_links (rg_sequence r)) (zeroTag, false)).
Definition rune_at (r : RGA) (id : Position) : Z := match rg_nodes r !! id with Some n => nd_rune n | None => 0 end.

(** [RGA.String], [Len], [VisibleRunes], [Positions] *)
Definition RGA_String (r : ptr RGA) : bytes :=
  match r with
  | None => []
  | Some r => string_of_runes ((λ m, rune_at r (mk_position m)) <$> visible_markers r)
  end.
Definition RGA_Len (r : ptr RGA) : Z :=
  match r with None => 0 | Some r => visibleCount (si_root (rg_sequence r)) end.
Definition VisibleRunes (r : ptr RGA) : list Position * list Z :=
  match r with
  | None => ([], [])
  | Some r => (mk_position <$> visible_markers r, (λ m, rune_at r (mk_position m)) <$> visible_markers r)
  end.
Definition RGA_Positions (r : ptr RGA) : list Position :=
  match r with None => [] | Some r => visiblePositions (rg_sequence r) end.

(** [RGA.PendingCount], [MissingParents], [TombstoneTags], [State] *)
Definition PendingCount (r : ptr RGA) : Z := match r with None => 0 | Some r => Z.of_nat (size (rg_pending r)) end.
Definition MissingParents (r : ptr RGA) : list Position :=
  match r with
  | None => []
  | Some r =>
      sortPositions (filter (λ p, Valid p = true ∧ (0 < size (default ∅ (rg_waitingByParent r !! p)))%nat)
        (map_to_list (rg_waitingByParent r)).*1)
  end.
Definition RGA_TombstoneTags (r : ptr RGA) : list Position :=
  match r with None => [] | Some r => sortedTombstoneIDs (rg_tombstones r) end.
Definition RGA_State (r : ptr RGA) : StateSnapshot :=
  match r with
  | None => mkSnapshot (str "rga-text") [] 0 0
  | Some r =>
      mkSnapshot (str "rga-text") (rg_replicaID r) (visibleCount (si_root (rg_sequence r)))
        (Z.of_nat (size (rg_tombstones r)))
  end.

(** ** Integration *)

(** [nodeBytes] *)
Definition nodeBytes (id : Position) (item : node) : Z :=
  64 + len (ReplicaID id) + len (ReplicaID (nd_parent item)).

(** [RGA.integrateNode]; [None] is its panic. *)
Definition integrateNode (r : RGA) (id : Position) (item : node) : option RGA :=
  match si_pair (rg_sequence r) (nd_parent item) with
  | None => None
  | Some _ =>
      let deleted := bool_decide (id ∈ rg_tombstones r) in
      let pair := newSequencePair id (negb deleted) in
      let '(ci, previous) := children_insert (rg_children r) (nd_parent item) id in
      let anchor := match previous with Some sibling => (sibling, true) | None => (nd_parent item, false) end in
      Some (set_sequence r (insertPairAfter (si_with_pairs (rg_sequence r) ci.2) (Some anchor) pair) ci.1)
  end.

(** [RGA.enqueuePending] *)
Definition enqueuePending (r : RGA) (e : Position * node) : RGA :=
  let '(id, item) := e in
  set_pending r (<[id := item]> (rg_pending r))
    (<[nd_parent item := {[id]} ∪ default ∅ (rg_waitingByParent r !! nd_parent item)]> (rg_waitingByParent r))
    (rg_pendingBytes r + nodeBytes id item).

(** [deltaPlan] *)
Record deltaPlan := mkPlan {
  pl_nodes : gmap Position node;
  pl_children : gmap Position (list Position);
  pl_roots : list Position;
  pl_pendingNodes : Z;
  pl_pendingBytes : Z
}.

(** [plan.children[id]] *)
Definition children_of (children : gmap Position (list Position)) (id : Position) : list Position :=
  default [] (children !! id).

(** The reachability loop of [planDelta]: [ready] is a queue. Each planned node
    enters it at most once, so its number bounds the iterations. *)
Fixpoint resolve_loop (fuel : nat) (children : gmap Position (list Position)) (ready : list Position)
    (resolved : gset Position) : gset Position :=
  match fuel, ready with
  | S fuel', id :: ready' =>
      if bool_decide (id ∈ resolved) then resolve_loop fuel' children ready' resolved
      else resolve_loop fuel' children (ready' ++ children_of children id) ({[id]} ∪ resolved)
  | _, _ => resolved
  end.

(** The grouping loop of [planDelta] and [buildSequence]. *)
Definition add_child (children : gmap Position (list Position)) (e : Position * node) : gmap Position (list Position) :=
  <[nd_parent e.2 := children_of children (nd_parent e.2) ++ [e.1]]> children.

(** [RGA.planDelta] *)
Definition planDelta (r : RGA) (delta : Delta) : deltaPlan :=
  let nodes := filter (λ e : Position * node, rg_nodes r !! e.1 = None ∧ rg_pending r !! e.1 = None) (dl_nodes delta) in
  let order := map_to_list nodes in
  let children := foldl add_child ∅ order in
  let roots := (filter (λ e : Position * node,
    Valid (nd_parent e.2) = false ∨ is_Some (rg_nodes r !! nd_parent e.2)) order).*1 in
  let resolved := resolve_loop (size nodes) children roots ∅ in
  let unresolved := filter (λ e : Position * node, e.1 ∉ resolved) order in
  let pendingNodes := len unresolved in
  let pendingBytes := foldl (λ total e, total + nodeBytes e.1 e.2) 0 unresolved in
  if pendingNodes =? 0 then mkPlan nodes (sortPositions <$> children) (sortPositions roots) pendingNodes pendingBytes
  else mkPlan nodes children roots pendingNodes pendingBytes.

(** The loop of [integrateResolved]. *)
Fixpoint resolved_loop (fuel : nat) (plan : deltaPlan) (ready : list Position) (r : RGA) : option RGA :=
  match fuel, ready with
  | S fuel', id :: ready' =>
      let item := default (mkNode zeroTag 0) (pl_nodes plan !! id) in
      match integrateNode (set_nodes r (<[id := item]> (rg_nodes r))) id item with
      | None => None
      | Some r => resolved_loop fuel' plan (ready' ++ children_of (pl_children plan) id) r
      end
  | _, _ => Some r
  end.

(** [RGA.integrateResolved], with whether it changed anything. *)
Definition integrateResolved (r : RGA) (plan : deltaPlan) : option (RGA * bool) :=
  if (Z.of_nat (size (pl_nodes plan)) =? 0) || negb (pl_pendingNodes plan =? 0) then Some (r, false)
  else (λ r, (r, true)) <$> resolved_loop (size (pl_nodes plan)) plan (pl_roots plan) r.

(** Taking one node out of the pending indexes. *)
Definition dequeuePending (r : RGA) (id : Position) (item : node) : RGA :=
  let waiting := default ∅ (rg_waitingByParent r !! nd_parent item) ∖ {[id]} in
  set_pending r (delete id (rg_pending r))
    (if bool_decide (waiting = ∅) then delete (nd_parent item) (rg_waitingByParent r)
     else <[nd_parent item := waiting]> (rg_waitingByParent r))
    (rg_pendingBytes r - nodeBytes id item).

(** The loop of [integrateReady]. Each pending node is queued at most once. *)
Fixpoint ready_loop (fuel : nat) (ready : list Position) (r : RGA) (changed : bool) : option (RGA * bool) :=
  match fuel, ready with
  | S fuel', id :: ready' =>
      match rg_pending r !! id with
      | None => ready_loop fuel' ready' r changed
      | Some item =>
          let r := dequeuePending r id item in
          match integrateNode (set_nodes r (<[id := item]> (rg_nodes r))) id item with
          | None => None
          | Some r =>
              ready_loop fuel' (ready' ++ sortedWaitingIDs (default ∅ (rg_waitingByParent r !! id))) r true
          end
      end
  | _, _ => Some (r, changed)
  end.

(** [RGA.integrateReady] *)
Definition integrateReady (r : RGA) : option (RGA * bool) :=
  let parents := sortPositions (filter (λ p, Valid p = false ∨ is_Some (rg_nodes r !! p))
    (map_to_list (rg_waitingByParent r)).*1) in
  let ready := concat ((λ p, sortedWaitingIDs (default ∅ (rg_waitingByParent r !! p))) <$> parents) in
  ready_loop (size (rg_pending r)) ready r false.

(** [RGA.applyTombstonesLocked] *)
Definition apply_tombstone (acc : RGA * bool) (id : Position) : RGA * bool :=
  let '(r, changed) := acc in
  if bool_decide (id ∈ rg_tombstones r) then acc
  else
    let r := set_tombstones r ({[id]} ∪ rg_tombstones r) in
    (set_sequence r (setVisible (rg_sequence r) id false) (rg_branches r), true).
Definition applyTombstonesLocked (r : RGA) (tombstones : gset Position) : RGA * bool :=
  foldl apply_tombstone (r, false) (elements tombstones).

(** ** Applying deltas *)

(** [validateDelta] *)
Definition validateDelta (delta : Delta) : result unit :=
  if negb (forallb (λ e : Position * node,
       Valid e.1 && ValidRune (nd_rune e.2) &&
       (bool_decide (nd_parent e.2 = zeroTag) || Valid (nd_parent e.2)) &&
       negb (bool_decide (e.1 = nd_parent e.2))) (map_to_list (dl_nodes delta)))
  then Err (ErrText TextDelta)
  else if negb (forallb Valid (elements (dl_tombstones delta))) then Err (ErrText TextDelta)
  else Ok tt.

(** [acyclicAgainst] *)
Definition acyclicAgainst (incoming pending : gmap Position node) : bool :=
  acyclic_loop nd_parent (S (size incoming + size pending)) incoming pending ∅ (map_to_list incoming).*1.

(** [greatestTag] *)
Definition greatest_node_step (greatest : option Position) (e : Position * node) : option Position :=
  let g := match greatest with
           | None => e.1
           | Some g => if Compare g e.1 <? 0 then e.1 else g
           end in
  Some (if Valid (nd_parent e.2) && (Compare g (nd_parent e.2) <? 0) then nd_parent e.2 else g).
Definition greatestTag (delta : Delta) : option Position :=
  foldl greatest_step (foldl greatest_node_step None (map_to_list (dl_nodes delta)))
    (elements (dl_tombstones delta)).

(** [newTombstones] *)
Definition newTombstones (incoming existing : gset Position) : Z := len (filter (.∉ existing) (elements incoming)).

(** [RGA.subsumesLocked] *)
Definition subsumesLocked (r : RGA) (delta : Delta) : bool :=
  forallb (λ e : Position * node,
    bool_decide (rg_nodes r !! e.1 = Some e.2) || bool_decide (rg_pending r !! e.1 = Some e.2))
    (map_to_list (dl_nodes delta)) &&
  forallb (λ id, bool_decide (id ∈ rg_tombstones r)) (elements (dl_tombstones delta)).

(** [resolvedRunFastPathMinNodes] *)
Definition resolvedRunFastPathMinNodes : Z := 16.

(** [Delta.cachedCanonicalNodeIDs] *)
Fixpoint cached_ok (nodes : gmap Position node) (previous : option Position) (ids : list Position) : bool :=
  match ids with
  | [] => true
  | id :: ids' =>
      match previous with Some p => negb (Compare id p <=? 0) | None => true end &&
      bool_decide (is_Some (nodes !! id)) && cached_ok nodes (Some id) ids'
  end.
Definition cachedCanonicalNodeIDs (d : Delta) : option (list Position) :=
  let ids := dl_canonicalNodeIDs d in
  if (len ids =? 0) || negb (len ids =? Z.of_nat (size (dl_nodes d))) then None
  else if cached_ok (dl_nodes d) None ids then Some ids else None.

(** [delta.nodes[id]] *)
Definition delta_node (delta : Delta) (id : Position) : node := default (mkNode zeroTag 0) (dl_nodes delta !! id).

(** The loop of [resolvedLinearRunLocked]. *)
Fixpoint linear_ok (r : RGA) (delta : Delta) (replicaID : bytes) (previous : option Position) (ids : list Position)
    : bool :=
  match ids with
  | [] => true
  | id :: ids' =>
      bool_decide (ReplicaID id = replicaID) &&
      bool_decide (rg_nodes r !! id = None) && bool_decide (rg_pending r !! id = None) &&
      match previous with Some p => bool_decide (nd_parent (delta_node delta id) = p) | None => true end &&
      linear_ok r delta replicaID (Some id) ids'
  end.

(** [RGA.resolvedLinearRunLocked] *)
Definition resolvedLinearRunLocked (r : RGA) (delta : Delta) : option (list Position) :=
  if Z.of_nat (size (dl_nodes delta)) <? resolvedRunFastPathMinNodes then None
  else
    let ids := match cachedCanonicalNodeIDs delta with Some ids => ids | None => sortedNodeIDs (dl_nodes delta) end in
    let first := match ids with id :: _ => id | [] => zeroTag end in
    let parent := nd_parent (delta_node delta first) in
    if Valid parent && bool_decide (rg_nodes r !! parent = None) then None
    else if linear_ok r delta (ReplicaID first) None ids then Some ids else None.

(** The pairs of a run: each but the last has the next as its only child. *)
Fixpoint run_pairs (tombstones : gset Position) (ids : list Position)
    : list (sequencePair * sequenceMarker * sequenceMarker) :=
  match ids with
  | [] => []
  | id :: ids' =>
      let '(_, entry, exit) := newSequencePair id (negb (bool_decide (id ∈ tombstones))) in
      (mkPair id (head ids'), entry, exit) :: run_pairs tombstones ids'
  end.

(** The part [applyDeltaLocked] and [applyResolvedLinearRunLocked] end with. *)
Definition finish_apply (r : RGA) (delta : Delta) (changed : bool) : RGA * result unit :=
  match integrateReady r with
  | None => (r, Err ErrPanic)
  | Some (r, ready) =>
      let '(r, hidden) := applyTombstonesLocked r (dl_tombstones delta) in
      (bump_version r (changed || ready || hidden), Ok tt)
  end.

(** Witnessing the delta's greatest tag. *)
Definition witness_delta (r : RGA) (delta : Delta) (now : option Z) : RGA * result unit :=
  match greatestTag delta with
  | None => (r, Ok tt)
  | Some tag => let '(c, res) := Witness (rg_clock r) tag now in (set_clock r c, res)
  end.

(** [RGA.applyResolvedLinearRunLocked] *)
Definition applyResolvedLinearRunLocked (r : RGA) (delta : Delta) (ids : list Position) (now : option Z)
    : RGA * result unit :=
  if (MaxNodes (rg_options r) <? Z.of_nat (size (rg_nodes r)) + Z.of_nat (size (rg_pending r)) + len ids) ||
     (MaxTombstones (rg_options r) <?
        Z.of_nat (size (rg_tombstones r)) + newTombstones (dl_tombstones delta) (rg_tombstones r))
  then (r, Err (ErrText TextLimit))
  else match witness_delta r delta now with
  | (r, Err e) => (r, Err e)
  | (r, Ok _) =>
      match ids with
      | [] => finish_apply r delta false
      | first :: _ =>
          let parent := nd_parent (delta_node delta first) in
          match si_pair (rg_sequence r) parent with
          | None => (r, Err ErrPanic)
          | Some _ =>
              let r := set_nodes r (foldl (λ nodes id, <[id := delta_node delta id]> nodes) (rg_nodes r) ids) in
              let '(ci, previous) := children_insert (rg_children r) parent first in
              let anchor := match previous with Some sibling => (sibling, true) | None => (parent, false) end in
              let sequence := insertLinearPairsAfter (si_with_pairs (rg_sequence r) ci.2) (Some anchor)
                (run_pairs (rg_tombstones r) ids) in
              finish_apply (set_sequence r sequence ci.1) delta true
          end
      end
  end.

(** The conflict loop of [applyDeltaLocked]. *)
Definition tag_conflict (r : RGA) (delta : Delta) : bool :=
  existsb (λ e : Position * node,
    match rg_nodes r !! e.1 with Some current => negb (bool_decide (current = e.2)) | None => false end ||
    match rg_pending r !! e.1 with Some current => negb (bool_decide (current = e.2)) | None => false end)
    (map_to_list (dl_nodes delta)).

(** The limits of the generic path. *)
Definition plan_exceeds (r : RGA) (delta : Delta) (plan : deltaPlan) : bool :=
  (MaxNodes (rg_options r) <?
     Z.of_nat (size (rg_nodes r)) + Z.of_nat (size (rg_pending r)) + Z.of_nat (size (pl_nodes plan))) ||
  (MaxPendingNodes (rg_options r) <? Z.of_nat (size (rg_pending r)) + pl_pendingNodes plan) ||
  (MaxPendingBytes (rg_options r) <? rg_pendingBytes r + pl_pendingBytes plan) ||
  (MaxTombstones (rg_options r) <?
     Z.of_nat (size (rg_tombstones r)) + newTombstones (dl_tombstones delta) (rg_tombstones r)).

(** The part of [applyDeltaLocked] after the fast path. *)
Definition applyPlannedLocked (r : RGA) (delta : Delta) (now : option Z) : RGA * result unit :=
  if negb (acyclicAgainst (dl_nodes delta) (rg_pending r)) then (r, Err (ErrText TextDelta))
  else
    let plan := planDelta r delta in
    if plan_exceeds r delta plan then (r, Err (ErrText TextLimit))
    else match witness_delta r delta now with
    | (r, Err e) => (r, Err e)
    | (r, Ok _) =>
        match integrateResolved r plan with
        | None => (r, Err ErrPanic)
        | Some (r, changed) =>
            if 0 <? pl_pendingNodes plan
            then finish_apply (foldl enqueuePending r (map_to_list (pl_nodes plan))) delta
                   (0 <? Z.of_nat (size (pl_nodes plan)))
            else finish_apply r delta changed
        end
    end.

(** [RGA.applyDeltaLocked] *)
Definition applyDeltaLocked (r : RGA) (delta : Delta) (now : option Z) : RGA * result unit :=
  if tag_conflict r delta then (r, Err (ErrText TextConflict))
  else if subsumesLocked r delta then (r, Ok tt)
  else match resolvedLinearRunLocked r delta with
  | Some ids => applyResolvedLinearRunLocked r delta ids now
  | None => applyPlannedLocked r delta now
  end.

(** [RGA.ApplyDelta] *)
Definition RGA_ApplyDelta (r : ptr RGA) (delta : Delta) (now : option Z) : ptr RGA * result unit :=
  match r with
  | None => (None, Err (ErrText NilText))
  | Some g =>
      match rg_clock g with
      | None => (r, Err (ErrText NilText))
      | Some _ =>
          match validateDelta delta with
          | Err e => (r, Err e)
          | Ok _ => let '(g, res) := applyDeltaLocked g delta now in (Some g, res)
          end
      end
  end.

(** The delta [Merge] makes of the other replica. *)
Definition state_delta (other : RGA) : Delta :=
  mkDelta (rg_pending other ∪ rg_nodes other) (rg_tombstones other) [].

(** [RGA.Merge] *)
Definition RGA_Merge (r : ptr RGA) (other : peer RGA) (now : option Z) : ptr RGA * result unit :=
  match r, other with
  | None, _ | _, PNil => (r, Err (ErrText NilText))
  | Some _, PSelf => (r, Ok tt)
  | Some _, PObj o => RGA_ApplyDelta r (state_delta o) now
  end.

(** [Delta.Merge], [Delta.NodePositions] *)
Definition Delta_Merge (d other : Delta) : result Delta :=
  _ ← validateDelta d;
  _ ← validateDelta other;
  if existsb (λ e : Position * node,
       match dl_nodes d !! e.1 with Some current => negb (bool_decide (current = e.2)) | None => false end)
       (map_to_list (dl_nodes other))
  then Err (ErrText TextConflict)
  else Ok (mkDelta (dl_nodes other ∪ dl_nodes d) (dl_tombstones d ∪ dl_tombstones other) []).
Definition NodePositions (d : Delta) : list Position := sortPositions (map_to_list (dl_nodes d)).*1.

(** ** Local edits

    Each call to the clock reads the physical time; [times i] is what the [i]-th
    reading of an operation returns. *)

Abbreviation clock_times := (nat → option Z).

(** The loop that makes one node per rune, each the child of the one before. *)
Fixpoint insert_nodes (times : clock_times) (hlc : ptr HLC) (parent : Position) (runes : list Z)
    (nodes : gmap Position node) (ids : list Position) : ptr HLC * result (gmap Position node * list Position) :=
  match runes with
  | [] => (hlc, Ok (nodes, ids))
  | valueRune :: runes' =>
      match Now hlc (times 0%nat) with
      | (hlc, Err e) => (hlc, Err e)
      | (hlc, Ok id) =>
          insert_nodes (λ i, times (S i)) hlc id runes' (<[id := mkNode parent valueRune]> nodes) (ids ++ [id])
      end
  end.

(** The delta of such a loop; only a long run records its order. *)
Definition insert_delta (runes : list Z) (nodes : gmap Position node) (ids : list Position) : Delta :=
  mkDelta nodes ∅ (if resolvedRunFastPathMinNodes <=? len runes then ids else []).

(** [delta.canonicalNodeIDs = nil] *)
Definition drop_cache (d : Delta) : Delta := mkDelta (dl_nodes d) (dl_tombstones d) [].

(** [deltaEncoder] *)
Abbreviation deltaEncoder := (Delta → DecoderLimits → result bytes).

(** [encoded] of a prepared delta: nothing is encoded without limits. *)
Definition encode_delta (limits : ptr DecoderLimits) (encode : deltaEncoder) (d : Delta) : result bytes :=
  match limits with None => Ok [] | Some limits => encode d limits end.

(** [RGA.prepareInsertWithPredecessor], [RGA.prepareInsert] *)
Definition prepareInsertWithPredecessor (r : ptr RGA) (offset : Z) (value : bytes) (limits : ptr DecoderLimits)
    (encode : deltaEncoder) (times : clock_times) : ptr RGA * result (Delta * bytes * Position) :=
  match r with
  | None => (None, Err (ErrText NilText))
  | Some g =>
      match rg_clock g with
      | None => (r, Err (ErrText NilText))
      | Some _ =>
          if offset <? 0 then (r, Err (ErrText TextRange))
          else match runes value with
          | None => (r, Err (ErrText InvalidText))
          | Some rs =>
              let previous := visibleAt (rg_sequence g) (offset - 1) in
              if visibleCount (si_root (rg_sequence g)) <? offset then (r, Err (ErrText TextRange))
              else
                let predecessor := default zeroTag previous in
                match rs with
                | [] =>
                    (r, encoded ← encode_delta limits encode emptyDelta; Ok (emptyDelta, encoded, predecessor))
                | _ :: _ =>
                    match insert_nodes times (rg_clock g) predecessor rs ∅ [] with
                    | (hlc, Err e) => (Some (set_clock g hlc), Err e)
                    | (hlc, Ok (nodes, ids)) =>
                        let delta := insert_delta rs nodes ids in
                        (Some (set_clock g hlc),
                         encoded ← encode_delta limits encode delta; Ok (delta, encoded, predecessor))
                    end
                end
          end
      end
  end.
Definition prepareInsert (r : ptr RGA) (offset : Z) (value : bytes) (limits : ptr DecoderLimits)
    (encode : deltaEncoder) (times : clock_times) : ptr RGA * result (Delta * bytes) :=
  let '(r, res) := prepareInsertWithPredecessor r offset value limits encode times in
  (r, '(delta, encoded, _) ← res; Ok (delta, encoded)).

(** [RGA.insert], [RGA.Insert], [RGA.InsertWithLimits]; the other exported
    insertions differ in the encoder they pass. [Witness] is the last reading. *)
Definition RGA_insert (r : ptr RGA) (offset : Z) (value : bytes) (limits : ptr DecoderLimits)
    (encode : deltaEncoder) (times : clock_times) (now : option Z) : ptr RGA * result (Delta * bytes) :=
  match prepareInsert r offset value limits encode times with
  | (r, Err e) => (r, Err e)
  | (r, Ok (delta, encoded)) =>
      match RGA_ApplyDelta r delta now with
      | (r, Err e) => (r, Err e)
      | (r, Ok _) => (r, Ok (drop_cache delta, encoded))
      end
  end.
Definition InsertWithLimits (r : ptr RGA) (offset : Z) (value : bytes) (limits : ptr DecoderLimits)
    (encode : deltaEncoder) (times : clock_times) (now : option Z) : ptr RGA * result Delta :=
  let '(r, res) := RGA_insert r offset value limits encode times now in (r, '(delta, _) ← res; Ok delta).
Definition RGA_Insert (r : ptr RGA) (offset : Z) (value : bytes) (encode : deltaEncoder) (times : clock_times)
    (now : option Z) : ptr RGA * result Delta := InsertWithLimits r offset value None encode times now.

(** [RGA.insertWithPredecessor] *)
Definition insertWithPredecessor (r : ptr RGA) (offset : Z) (value : bytes) (encode : deltaEncoder)
    (times : clock_times) (now : option Z) : ptr RGA * result (Delta * Position) :=
  match prepareInsertWithPredecessor r offset value None encode times with
  | (r, Err e) => (r, Err e)
  | (r, Ok (delta, _, predecessor)) =>
      match RGA_ApplyDelta r delta now with
      | (r, Err e) => (r, Err e)
      | (r, Ok _) => (r, Ok (drop_cache delta, predecessor))
      end
  end.

(** [RGA.insertAfter] *)
Definition insertAfter (r : ptr RGA) (predecessor : Position) (value : bytes) (times : clock_times) (now : option Z)
    : ptr RGA * result Delta :=
  match r with
  | None => (None, Err (ErrText NilText))
  | Some g =>
      match rg_clock g with
      | None => (r, Err (ErrText NilText))
      | Some _ =>
          match runes value with
          | None => (r, Err (ErrText InvalidText))
          | Some rs =>
              match insert_nodes times (rg_clock g) predecessor rs ∅ [] with
              | (hlc, Err e) => (Some (set_clock g hlc), Err e)
              | (hlc, Ok (nodes, ids)) =>
                  let g := set_clock g hlc in
                  let delta := insert_delta rs nodes ids in
                  if Valid predecessor && negb (hasIntegratedPositionLocked g predecessor)
                  then (Some g, Err (ErrText UndoAnchorGone))
                  else match applyDeltaLocked g delta now with
                  | (g, Err e) => (Some g, Err e)
                  | (g, Ok _) => (Some g, Ok (drop_cache delta))
                  end
              end
          end
      end
  end.

(** The loop of [prepareDelete]. *)
Fixpoint delete_loop (index : sequenceIndex) (offset : Z) (count : nat) (tombstones : gset Position)
    : result (gset Position) :=
  match count with
  | O => Ok tombstones
  | S count' =>
      match visibleAt index offset with
      | None => Err (ErrText TextRange)
      | Some id => delete_loop index (offset + 1) count' ({[id]} ∪ tombstones)
      end
  end.

(** [RGA.prepareDelete] *)
Definition prepareDelete (r : ptr RGA) (offset count : Z) (limits : ptr DecoderLimits) (encode : deltaEncoder)
    : result (Delta * bytes) :=
  match r with
  | None => Err (ErrText NilText)
  | Some g =>
      if (offset <? 0) || (count <? 0) then Err (ErrText TextRange)
      else
        let visible := visibleCount (si_root (rg_sequence g)) in
        if (visible <? offset) || (visible - offset <? count) then Err (ErrText TextRange)
        else
          tombstones ← delete_loop (rg_sequence g) offset (Z.to_nat count) ∅;
          let delta := mkDelta ∅ tombstones [] in
          encoded ← encode_delta limits encode delta;
          Ok (delta, encoded)
  end.

(** [RGA.delete], [RGA.Delete] *)
Definition RGA_delete (r : ptr RGA) (offset count : Z) (limits : ptr DecoderLimits) (encode : deltaEncoder)
    (now : option Z) : ptr RGA * result (Delta * bytes) :=
  match prepareDelete r offset count limits encode with
  | Err e => (r, Err e)
  | Ok (delta, encoded) =>
      match RGA_ApplyDelta r delta now with
      | (r, Err e) => (r, Err e)
      | (r, Ok _) => (r, Ok (delta, encoded))
      end
  end.
Definition RGA_Delete (r : ptr RGA) (offset count : Z) (encode : deltaEncoder) (now : option Z)
    : ptr RGA * result Delta :=
  let '(r, res) := RGA_delete r offset count None encode now in (r, '(delta, _) ← res; Ok delta).

(** [RGA.replace] *)
Definition RGA_replace (r : ptr RGA) (offset count : Z) (value : bytes) (limits : DecoderLimits)
    (encode : deltaEncoder) (times : clock_times) (now : option Z) : ptr RGA * result bytes :=
  match r with
  | None => (None, Err (ErrText NilText))
  | Some g =>
      match rg_clock g with
      | None => (r, Err (ErrText NilText))
      | Some _ =>
          if negb (ValidString value) then (r, Err (ErrText InvalidText))
          else match prepareDelete r offset count None encode with
          | Err e => (r, Err e)
          | Ok (deleted, _) =>
              match prepareInsert r offset value None encode times with
              | (r, Err e) => (r, Err e)
              | (r, Ok (inserted, _)) =>
                  let delta := mkDelta (dl_nodes inserted) (dl_tombstones deleted) (dl_canonicalNodeIDs inserted) in
                  match encode delta limits with
                  | Err e => (r, Err e)
                  | Ok encoded =>
                      match RGA_ApplyDelta r delta now with
                      | (r, Err e) => (r, Err e)
                      | (r, Ok _) => (r, Ok encoded)
                      end
                  end
              end
          end
      end
  end.

(** [RGA.tombstoneRetainedPositions] *)
Definition tombstoneRetainedPositions (r : ptr RGA) (positions : list Position) (now : option Z)
    : ptr RGA * result Delta :=
  match r with
  | None => (None, Err (ErrText NilText))
  | Some g =>
      match rg_clock g with
      | None => (r, Err (ErrText NilText))
      | Some _ =>
          if negb (forallb Valid positions) then (r, Err (ErrText TextDelta))
          else
            let delta := mkDelta ∅ (list_to_set positions) [] in
            if negb (forallb (retainsPositionLocked g) (elements (dl_tombstones delta)))
            then (r, Err (ErrText UndoAnchorGone))
            else match applyDeltaLocked g delta now with
            | (g, Err e) => (Some g, Err e)
            | (g, Ok _) => (Some g, Ok delta)
            end
      end
  end.

(** [RGA.NextTag], [RGA.WitnessTag] *)
Definition NextTag (r : ptr RGA) (now : option Z) : ptr RGA * result Position :=
  match r with
  | None => (None, Err (ErrText NilText))
  | Some g =>
      match rg_clock g with
      | None => (r, Err (ErrText NilText))
      | Some _ => let '(hlc, res) := Now (rg_clock g) now in (Some (set_clock g hlc), res)
      end
  end.
Definition WitnessTag (r : ptr RGA) (tag : Position) (now : option Z) : ptr RGA * result unit :=
  match r with
  | None => (None, Err (ErrText NilText))
  | Some g =>
      match rg_clock g with
      | None => (r, Err (ErrText NilText))
      | Some _ => let '(hlc, res) := Witness (rg_clock g) tag now in (Some (set_clock g hlc), res)
      end
  end.

(** ** Compaction *)

(** The selection loop of [CompactTombstones]. *)
Fixpoint compact_select (r : RGA) (seen : gset Position) (compact : list Position) (tags : list Position)
    : result (list Position) :=
  match tags with
  | [] => Ok compact
  | tag :: tags' =>
      if bool_decide (tag ∈ seen) then compact_select r seen compact tags'
      else if bool_decide (tag ∉ rg_tombstones r) then compact_select r ({[tag]} ∪ seen) compact tags'
      else if bool_decide (rg_nodes r !! tag = None) || (0 <? children_count (rg_children r) tag) ||
              (0 <? Z.of_nat (size (default ∅ (rg_waitingByParent r !! tag)))) || negb (si_has (rg_sequence r) tag)
      then Err (ErrText TextCompaction)
      else compact_select r ({[tag]} ∪ seen) (compact ++ [tag]) tags'
  end.

(** The removal loop; a failure leaves what was removed so far. *)
Fixpoint compact_remove_loop (r : RGA) (compact : list Position) : RGA * result unit :=
  match compact with
  | [] => (r, Ok tt)
  | tag :: compact' =>
      let item := default (mkNode zeroTag 0) (rg_nodes r !! tag) in
      match children_remove (rg_children r) (nd_parent item) tag with
      | None => (r, Err (ErrText TextCompaction))
      | Some ci =>
          let r := set_children r ci in
          match removeLeaf (rg_sequence r) tag with
          | None => (r, Err (ErrText TextCompaction))
          | Some sequence =>
              let r := set_sequence r sequence (rg_branches r) in
              compact_remove_loop
                (set_tombstones (set_nodes r (delete tag (rg_nodes r))) (rg_tombstones r ∖ {[tag]})) compact'
          end
      end
  end.

(** [RGA.CompactTombstones] *)
Definition RGA_CompactTombstones (r : ptr RGA) (tags : list Position) : ptr RGA * result Z :=
  match r with
  | None => (None, Err (ErrText NilText))
  | Some g =>
      if negb (forallb Valid tags) then (r, Err (ErrText TextCompaction))
      else if bool_decide (rg_pending g ≠ ∅) then (r, Err (ErrText TextCompaction))
      else match compact_select g ∅ [] tags with
      | Err e => (r, Err e)
      | Ok compact =>
          match compact_remove_loop g compact with
          | (g, Err e) => (Some g, Err e)
          | (g, Ok _) => (Some (bump_version g (0 <? len compact)), Ok (len compact))
          end
      end
  end.

(** [eligibleCompactionCandidateLocked] *)
Definition eligibleCompactionCandidateLocked (r : RGA) (tag : Position) : bool :=
  bool_decide (tag ∈ rg_tombstones r) && bool_decide (is_Some (rg_nodes r !! tag)) &&
  (Z.of_nat (size (default ∅ (rg_waitingByParent r !! tag))) =? 0) && si_has (rg_sequence r) tag.

(** [eligibleCompactionPlanLocked]: the tags of the plan. *)
Definition eligibleCompactionPlanLocked (r : RGA) (tags : list Position) : list Position :=
  let candidates := sortPositions (remove_dups (filter (λ t, eligibleCompactionCandidateLocked r t = true) tags)) in
  let remaining : gmap Position Z := list_to_map ((λ t, (t, children_count (rg_children r) t)) <$> candidates) in
  let ready := filter (λ t, children_count (rg_children r) t = 0) candidates in
  eligible_loop nd_parent (length candidates) (rg_nodes r) remaining ready [].

(** The removal loop of [applyEligibleCompactionPlanLocked]; [false] leaves what
    was removed so far. *)
Fixpoint eligible_remove (r : RGA) (tags : list Position) : RGA * bool :=
  match tags with
  | [] => (r, true)
  | tag :: tags' =>
      match removeLeaf (rg_sequence r) tag with
      | None => (r, false)
      | Some sequence =>
          let r := set_sequence r sequence (rg_branches r) in
          eligible_remove (set_tombstones (set_nodes r (delete tag (rg_nodes r))) (rg_tombstones r ∖ {[tag]})) tags'
      end
  end.

(** [applyEligibleCompactionPlanLocked] *)
Definition applyEligibleCompactionPlanLocked (r : RGA) (tags : list Position) : RGA * bool :=
  if negb (forallb (λ tag, bool_decide (is_Some (rg_nodes r !! tag))) tags) then (r, false)
  else
    let parents : gset Position :=
      list_to_set ((λ tag, nd_parent (default (mkNode zeroTag 0) (rg_nodes r !! tag))) <$> tags) in
    match eligible_remove r tags with
    | (r, false) => (r, false)
    | (r, true) =>
        (set_children r (foldl (removeSelected (λ child, bool_decide (child ∈ tags))) (rg_children r)
          (elements parents)), true)
    end.

(** [RGA.CompactEligibleTombstones] *)
Definition CompactEligibleTombstones (r : ptr RGA) (tags : list Position) : ptr RGA * result Z :=
  match r with
  | None => (None, Err (ErrText NilText))
  | Some g =>
      if negb (forallb Valid tags) then (r, Err (ErrText TextCompaction))
      else if bool_decide (rg_pending g ≠ ∅) then (r, Err (ErrText TextCompaction))
      else
        let plan := eligibleCompactionPlanLocked g tags in
        if len plan =? 0 then (r, Ok 0)
        else match applyEligibleCompactionPlanLocked g plan with
        | (g, false) => (Some g, Err (ErrText TextCompaction))
        | (g, true) => (Some (bump_version g true), Ok (len plan))
        end
  end.

(** ** Rebuilding *)

(** The loop of [buildSequence]. *)
Fixpoint build_loop (fuel : nat) (byParent : gmap Position (list Position)) (ready : list Position) (integrated : Z)
    (r : RGA) : option (result (RGA * Z)) :=
  match fuel, ready with
  | S fuel', id :: ready' =>
      match rg_nodes r !! id with
      | None => Some (Err (ErrText TextDelta))
      | Some item =>
          match si_entry (rg_sequence r) (nd_parent item) with
          | None => Some (Err (ErrText TextDelta))
          | Some _ =>
              match integrateNode r id item with
              | None => None
              | Some r => build_loop fuel' byParent (ready' ++ children_of byParent id) (integrated + 1) r
              end
          end
      end
  | _, _ => Some (Ok (r, integrated))
  end.

(** [buildSequence] *)
Definition buildSequence (nodes : gmap Position node) (tombstones : gset Position)
    : result (sequenceIndex * gmap Position (list Position)) :=
  let value := mkRGA [] None (mkTextOptions 0 0 0 0) nodes ∅ ∅ 0 tombstones 0 newSequenceIndex ∅ in
  let byParent := sortPositions <$> foldl add_child ∅ (map_to_list nodes) in
  match build_loop (size nodes) byParent (children_of byParent zeroTag) 0 value with
  | None => Err ErrPanic
  | Some (Err e) => Err e
  | Some (Ok (value, integrated)) =>
      if negb (integrated =? Z.of_nat (size nodes)) then Err (ErrText TextDelta)
      else Ok (rg_sequence value, rg_branches value)
  end.
