(* ===== verification/RGAOrder.v ===== *)
(** * The reference order of an RGA

    The order an RGA promises, without its indexes: the depth-first traversal of
    the tree of nodes, siblings in descending tag order. [traversal] is an
    inductive relation, so it only relates finite trees to lists, and it is
    functional: the order is a function of the set of nodes. *)

From S2P Require Import Prelude Tags Forest Sequence RGA.

(** ** Traversals

    [traversal ch cs l]: [l] lists the markers of the forest with roots [cs],
    where [ch] gives the children of a position. *)
Inductive traversal (ch : Position → list Position) : list Position → list markerID → Prop :=
| trav_nil : traversal ch [] []
| trav_cons c cs lc l :
    traversal ch (ch c) lc → traversal ch cs l → traversal ch (c :: cs) ((c, false) :: lc ++ (c, true) :: l).

Lemma traversal_functional ch cs l l' : traversal ch cs l → traversal ch cs l' → l = l'.
Proof.
  intros H. revert l'. induction H as [|c cs lc l _ IHc _ IHl]; intros l' H'; inversion H'; subst; [done|].
  by rewrite (IHc lc0), (IHl l0).
Qed.

Lemma traversal_app ch cs cs' l l' :
  traversal ch cs l → traversal ch cs' l' → traversal ch (cs ++ cs') (l ++ l').
Proof.
  intros H H'. induction H as [|c cs lc l Hc IHc Hl IHl]; simpl; [done|]. rewrite <-app_assoc. simpl. by constructor.
Qed.

Lemma traversal_app_inv ch cs cs' l :
  traversal ch (cs ++ cs') l → ∃ l1 l2, l = l1 ++ l2 ∧ traversal ch cs l1 ∧ traversal ch cs' l2.
Proof.
  revert l. induction cs as [|c cs IH]; intros l H; simpl in H.
  - exists [], l. split; [done|]. split; [constructor|done].
  - inversion H as [|? ? lc l0 Hc Hl]; subst. destruct (IH l0 Hl) as (l1 & l2 & -> & H1 & H2).
    exists ((c, false) :: lc ++ (c, true) :: l1), l2. split; [by rewrite !app_comm_cons, <-app_assoc|].
    split; [by constructor|done].
Qed.

Lemma traversal_ext ch ch' cs l :
  traversal ch cs l → (∀ p, (p, false) ∈ l → ch p = ch' p) → traversal ch' cs l.
Proof.
  induction 1 as [|c cs lc l Hc IHc Hl IHl]; intros Heq; [constructor|]. constructor.
  - rewrite <-Heq by (by left). apply IHc. intros p Hp. apply Heq. right. apply elem_of_app. by left.
  - apply IHl. intros p Hp. apply Heq. right. apply elem_of_app. right. by right.
Qed.

Lemma traversal_exit ch cs l p : traversal ch cs l → (p, true) ∈ l ↔ (p, false) ∈ l.
Proof.
  induction 1 as [|c cs lc l _ IHc _ IHl]; [by rewrite !elem_of_nil|]. rewrite !elem_of_cons, !elem_of_app, !elem_of_cons, IHc, IHl.
  naive_solver.
Qed.

(** The roots and the children of the traversed positions are traversed. *)
Lemma traversal_root ch cs l c : traversal ch cs l → c ∈ cs → (c, false) ∈ l.
Proof.
  induction 1 as [|c' cs lc l _ _ _ IHl]; [by intros ?%elem_of_nil|]. intros [->|Hc]%elem_of_cons; [by left|].
  right. apply elem_of_app. right. right. by apply IHl.
Qed.

Lemma traversal_child ch cs l p q : traversal ch cs l → (p, false) ∈ l → q ∈ ch p → (q, false) ∈ l.
Proof.
  induction 1 as [|c cs lc l Hc IHc Hl IHl]; [by intros ?%elem_of_nil|].
  rewrite elem_of_cons, elem_of_app, elem_of_cons. intros [[= ->]|[Hp|[[=]|Hp]]] Hq; right; apply elem_of_app.
  - left. by apply (traversal_root ch (ch c)).
  - left. by apply IHc.
  - right. right. by apply IHl.
Qed.

(** Where the subtree of a position is. *)
Lemma traversal_subtree ch cs l p :
  traversal ch cs l → (p, false) ∈ l → ∃ a lp b, l = a ++ (p, false) :: lp ++ (p, true) :: b ∧ traversal ch (ch p) lp.
Proof.
  induction 1 as [|c cs lc l Hc IHc Hl IHl]; [by intros ?%elem_of_nil|].
  rewrite elem_of_cons, elem_of_app, elem_of_cons. intros [[= ->]|[Hp|[[=]|Hp]]].
  - exists [], lc, l. done.
  - destruct (IHc Hp) as (a & lp & b & -> & ?). exists ((c, false) :: a), lp, (b ++ (c, true) :: l).
    split; [|done]. simpl. rewrite <-!app_assoc. simpl. by rewrite <-!app_assoc.
  - destruct (IHl Hp) as (a & lp & b & -> & ?). exists ((c, false) :: lc ++ (c, true) :: a), lp, b.
    split; [|done]. by rewrite !app_comm_cons, <-app_assoc.
Qed.

(** ** Inserting a leaf *)

(** The children after [id] became a child of [p], between [k1] and [k2]. *)
Definition with_child (ch : Position → list Position) (p id : Position) (k1 k2 : list Position) (q : Position)
    : list Position := if decide (q = p) then k1 ++ id :: k2 else ch q.

(** The marker a new child of [p] follows: the exit of the sibling before it, or
    the parent's entry. *)
Definition anchor (p : Position) (previous : option Position) : markerID :=
  match previous with Some sibling => (sibling, true) | None => (p, false) end.

Lemma traversal_last ch cs l c : traversal ch (cs ++ [c]) l → last l = Some (c, true).
Proof.
  intros (l1 & l2 & -> & _ & H)%traversal_app_inv. inversion H as [|? ? lc l0 _ Hl]; subst. inversion Hl; subst.
  rewrite app_comm_cons, app_assoc. apply last_snoc.
Qed.

Lemma traversal_insert ch p id k1 k2 cs l :
  traversal ch cs l → NoDup l → ch p = k1 ++ k2 → ch id = [] → id ≠ p → (id, false) ∉ l → (p, false) ∈ l →
  ∃ a b, l = a ++ b ∧ last a = Some (anchor p (last k1)) ∧
    traversal (with_child ch p id k1 k2) cs (a ++ (id, false) :: (id, true) :: b).
Proof.
  intros H. set (ch' := with_child ch p id k1 k2).
  induction H as [|c cs lc l Hc IHc Hl IHl]; intros Hnd Hp Hid Hne Hfresh Hin; [by apply elem_of_nil in Hin|].
  apply NoDup_cons in Hnd as [Hcn Hnd]. apply NoDup_app in Hnd as (Hnd1 & Hdis & Hnd2).
  apply NoDup_cons in Hnd2 as [_ Hnd2].
  rewrite elem_of_cons, elem_of_app, elem_of_cons in Hfresh.
  assert (∀ cs l, traversal ch cs l → (p, false) ∉ l → traversal ch' cs l) as Hother.
  { intros cs' l' H' Hn. apply (traversal_ext ch); [done|]. intros q Hq. unfold ch', with_child.
    rewrite decide_False; [done|]. by intros ->. }
  destruct (decide (c = p)) as [->|Hcp].
  - rewrite elem_of_app in Hcn. rewrite Hp in Hc.
    apply traversal_app_inv in Hc as (l1 & l2 & -> & H1 & H2). rewrite elem_of_app, elem_of_cons in Hcn.
    exists ((p, false) :: l1), (l2 ++ (p, true) :: l). split; [by rewrite <-app_assoc|]. split.
    + destruct k1 as [|k k1 _] using rev_ind; [by inversion H1; subst|]. rewrite last_snoc. simpl.
      rewrite last_cons, (traversal_last _ _ _ _ H1). done.
    + replace ((((p, false) :: l1) ++ (id, false) :: (id, true) :: l2 ++ (p, true) :: l))
        with ((p, false) :: (l1 ++ (id, false) :: [] ++ (id, true) :: l2) ++ (p, true) :: l)
        by (simpl; by rewrite <-app_assoc).
      constructor; [|apply Hother; tauto]. unfold ch' at 2, with_child. rewrite decide_True by done.
      apply traversal_app; [apply Hother; tauto|]. constructor; [|apply Hother; tauto].
      unfold ch', with_child. rewrite decide_False, Hid by done. constructor.
  - apply elem_of_cons in Hin as [[= ->]|Hin]; [done|]. apply elem_of_app in Hin as [Hin|Hin].
    + destruct IHc as (a & b & -> & Ha & Ht); [done|done|done|done|tauto|done|].
      exists ((c, false) :: a), (b ++ (c, true) :: l). split; [by rewrite <-app_assoc|].
      split; [rewrite last_cons, Ha; done|].
      replace ((((c, false) :: a) ++ (id, false) :: (id, true) :: b ++ (c, true) :: l))
        with ((c, false) :: (a ++ (id, false) :: (id, true) :: b) ++ (c, true) :: l) by (simpl; by rewrite <-app_assoc).
      constructor.
      * unfold ch' at 2, with_child. rewrite decide_False by done. exact Ht.
      * apply Hother; [done|]. intros ?. apply (Hdis (p, false)); [done|by right].
    + apply elem_of_cons in Hin as [[=]|Hin].
      destruct IHl as (a & b & -> & Ha & Ht); [done|done|done|done|tauto|done|].
      exists ((c, false) :: lc ++ (c, true) :: a), b. split; [by rewrite !app_comm_cons, <-app_assoc|].
      split; [rewrite app_comm_cons, last_app, last_cons, Ha; done|].
      rewrite <-app_comm_cons, <-app_assoc, <-app_comm_cons. constructor; [|done].
      apply Hother; [unfold ch', with_child; by rewrite decide_False|].
      intros ?. apply (Hdis (p, false)); [done|by right].
Qed.

(** ** Removing a leaf *)

Definition without (id : Position) (ch : Position → list Position) (q : Position) : list Position :=
  filter (.≠ id) (ch q).

Lemma traversal_remove ch id cs l :
  traversal ch cs l → ch id = [] →
  traversal (without id ch) (filter (.≠ id) cs) (filter (λ m : markerID, m.1 ≠ id) l).
Proof.
  induction 1 as [|c cs lc l Hc IHc Hl IHl]; intros Hid; [constructor|].
  rewrite !filter_cons, filter_app, filter_cons. simpl. destruct (decide (c ≠ id)) as [Hne|Hne].
  - constructor; [by apply IHc|by apply IHl].
  - assert (c = id) as -> by (by destruct (decide (c = id))). rewrite Hid in Hc. inversion Hc; subst.
    simpl. by apply IHl.
Qed.

(** The markers of a leaf are next to each other. *)
Lemma traversal_leaf ch cs l id :
  traversal ch cs l → (id, false) ∈ l → ch id = [] → ∃ a b, l = a ++ (id, false) :: (id, true) :: b.
Proof.
  intros H Hin Hid. destruct (traversal_subtree _ _ _ _ H Hin) as (a & lp & b & -> & Hlp).
  rewrite Hid in Hlp. inversion Hlp; subst. eauto.
Qed.

(** ** Siblings *)

Abbreviation kids := (Forest.kids nd_parent).

(** A new node is put among its siblings. *)
Lemma increasing_insert {A} (cmp : A → A → Z) `{!Comparator cmp} (k1 k2 : list A) x :
  increasing cmp (k1 ++ k2) → Forall (λ y, cmp y x < 0) k1 → Forall (λ y, cmp x y < 0) k2 →
  increasing cmp (k1 ++ x :: k2).
Proof.
  intros Hl H1 H2. unfold increasing in *. induction k1 as [|y k1 IH]; simpl in *.
  - by constructor.
  - inversion Hl as [|? ? Hs Hf]; subst. apply Forall_cons in H1 as [Hy H1].
    constructor; [by apply IH|]. apply Forall_app in Hf as [Hf1 Hf2]. apply Forall_app. split; [done|].
    by constructor.
Qed.

Lemma kids_insert nodes id item k1 k2 q :
  nodes !! id = None → kids nodes (nd_parent item) = k1 ++ k2 →
  Forall (λ y, Compare id y < 0) k1 → Forall (λ y, Compare y id < 0) k2 →
  kids (<[id := item]> nodes) q = with_child (kids nodes) (nd_parent item) id k1 k2 q.
Proof.
  intros Hid Hk H1 H2. unfold with_child. case_decide as Hq.
  - subst q. apply kids_unique.
    + apply increasing_insert; [apply _| |done|done]. rewrite <-Hk. apply kids_increasing.
    + intros q. rewrite elem_of_app, elem_of_cons. setoid_rewrite lookup_insert_Some.
      assert (q ∈ k1 ∨ q ∈ k2 ↔ ∃ n, nodes !! q = Some n ∧ nd_parent n = nd_parent item) as Hold
        by (rewrite <-elem_of_app, <-Hk; apply elem_of_kids).
      split.
      * intros [Hq|[->|Hq]]; [|exists item; auto|]; destruct (proj1 Hold) as (n & ? & ?); [auto| |auto|];
          exists n; (split; [|done]); right; (split; [|done]); intros ->; congruence.
      * intros (n & [[-> ->]|[Hne Hn]] & Hp); [auto|]. assert (q ∈ k1 ∨ q ∈ k2) by (apply Hold; eauto). tauto.
  - apply kids_unique; [apply kids_increasing|]. intros q'. rewrite elem_of_kids. setoid_rewrite lookup_insert_Some.
    split.
    + intros (n & Hn & Hp). exists n. split; [|done]. right. split; [|done]. intros ->. congruence.
    + intros (n & [[-> ->]|[Hne Hn]] & Hp); [done|eauto].
Qed.

(** Every traversed position is a root or the child of a traversed one. *)
Lemma traversal_parent ch cs l q :
  traversal ch cs l → (q, false) ∈ l → q ∈ cs ∨ ∃ p, (p, false) ∈ l ∧ q ∈ ch p.
Proof.
  induction 1 as [|c cs lc l Hc IHc Hl IHl]; [by intros ?%elem_of_nil|].
  rewrite elem_of_cons, elem_of_app, elem_of_cons. intros [[= ->]|[Hq|[[=]|Hq]]].
  - left. by left.
  - right. destruct (IHc Hq) as [Hr|(p & Hp & Hr)].
    + exists c. split; [by left|done].
    + exists p. split; [|done]. right. apply elem_of_app. by left.
  - destruct (IHl Hq) as [Hr|(p & Hp & Hr)]; [left; by right|]. right. exists p. split; [|done].
    right. apply elem_of_app. right. by right.
Qed.

(** A list without repetitions splits after an element in one way. *)
Lemma split_after {A} (a b a' b' : list A) x :
  NoDup (a ++ b) → a ++ b = a' ++ b' → last a = Some x → last a' = Some x → a = a' ∧ b = b'.
Proof.
  intros Hnd Heq Ha Ha'. apply last_Some in Ha as [a1 ->], Ha' as [a2 ->].
  rewrite <-!app_assoc in Heq. rewrite <-app_assoc in Hnd. simpl in *. clear -Hnd Heq.
  revert a2 Heq. induction a1 as [|y a1 IH]; intros [|z a2] Heq; simpl in *; injection Heq.
  - by intros ->.
  - intros Hb <-. apply NoDup_cons in Hnd as [Hn _]. destruct Hn. rewrite Hb, elem_of_app, elem_of_cons. auto.
  - intros Hb ->. apply NoDup_cons in Hnd as [Hn _]. destruct Hn. rewrite elem_of_app, elem_of_cons. auto.
  - intros Hb <-. apply NoDup_cons in Hnd as [_ Hnd]. by destruct (IH Hnd a2 Hb) as [[= ->] ->].
Qed.

(** Inserting a leaf after its anchor. *)
Lemma traversal_insert_at ch p id k1 k2 cs a b :
  traversal ch cs (a ++ b) → NoDup (a ++ b) → ch p = k1 ++ k2 → ch id = [] → id ≠ p → (id, false) ∉ a ++ b →
  (p, false) ∈ a ++ b → last a = Some (anchor p (last k1)) →
  traversal (with_child ch p id k1 k2) cs (a ++ (id, false) :: (id, true) :: b).
Proof.
  intros H Hnd Hp Hid Hne Hf Hin Ha.
  destruct (traversal_insert ch p id k1 k2 cs (a ++ b) H Hnd Hp Hid Hne Hf Hin) as (a' & b' & Heq & Ha' & Ht).
  by destruct (split_after _ _ _ _ _ Hnd Heq Ha Ha') as [-> ->].
Qed.

(** The anchor is there. *)
Lemma traversal_anchor ch p k1 k2 cs l :
  traversal ch cs l → (p, false) ∈ l → ch p = k1 ++ k2 → ∃ a b, l = a ++ b ∧ last a = Some (anchor p (last k1)).
Proof.
  intros H Hin Hp. assert (anchor p (last k1) ∈ l) as (a & b & ->)%list_elem_of_split.
  { destruct (last k1) as [s|] eqn:Hs; simpl; [|done]. apply last_Some in Hs as [k ->].
    apply (traversal_exit _ _ _ _ H), (traversal_child _ _ _ p _ H Hin). rewrite Hp, !elem_of_app, elem_of_cons. auto. }
  exists (a ++ [anchor p (last k1)]), b. rewrite <-app_assoc. split; [done|]. apply last_snoc.
Qed.
