(* ===== verification/RGATree.v ===== *)
(** * The indexes of an RGA represent its tree

    The child index holds the siblings of the reference order, the sequence index
    its traversal; integrating, running and removing nodes keeps both. *)

From S2P Require Import Prelude Utf8 Tags Forest Clock Sequence SequenceTheory Frame RGA RGAOrder.

(** ** Binary search *)

Lemma search_loop_spec (f : nat → bool) n fuel i j :
  (∀ k k', (k <= k')%nat → (k' < n)%nat → f k = true → f k' = true) →
  (i <= j)%nat → (j <= n)%nat → (j - i < fuel)%nat →
  (∀ k, (k < i)%nat → f k = false) → (∀ k, (j <= k)%nat → (k < n)%nat → f k = true) →
  let r := search_loop fuel f i j in
  (r <= n)%nat ∧ (∀ k, (k < r)%nat → f k = false) ∧ (∀ k, (r <= k)%nat → (k < n)%nat → f k = true).
Proof.
  intros Hmono. revert i j. induction fuel as [|fuel IH]; intros i j Hij Hjn Hfuel Hlo Hhi; [lia|]. cbn [search_loop].
  destruct (Nat.ltb_spec i j).
  - assert (i <= (i + j) / 2 < j)%nat as [Hh1 Hh2].
    { pose proof (Nat.div_mod_eq (i + j) 2). pose proof (Nat.mod_upper_bound (i + j) 2). lia. }
    destruct (f ((i + j) / 2)%nat) eqn:E; apply IH; try lia; try done.
    + intros k Hk Hkn. by apply (Hmono ((i + j) / 2)%nat).
    + intros k Hk. destruct (f k) eqn:Ek; [|done]. rewrite (Hmono k ((i + j) / 2)%nat) in E by (lia || done). done.
  - replace j with i in * by lia. split; [lia|]. done.
Qed.

Lemma increasing_nth {A} (cmp : A → A → Z) (d : A) l i j :
  increasing cmp l → (i < j)%nat → (j < length l)%nat → cmp (nth i l d) (nth j l d) < 0.
Proof.
  intros Hl. revert i j. induction Hl as [|x l Hs IH Hf]; intros i j Hij Hj; simpl in *; [lia|].
  destruct j as [|j]; [lia|]. destruct i as [|i]; [|by apply IH; lia].
  eapply Forall_forall in Hf; [exact Hf|]. apply list_elem_of_In, nth_In. lia.
Qed.

(** The split of a descending list that [sort.Search] finds. *)
Lemma search_split (l : list Position) (P : Position → bool) :
  (∀ x y, Compare y x < 0 → P x = true → P y = true) → increasing Descending l →
  let r := sort_Search (length l) (λ i, P (nth i l zeroTag)) in
  (r <= length l)%nat ∧ Forall (λ x, P x = false) (take r l) ∧ Forall (λ x, P x = true) (drop r l).
Proof.
  intros HP Hl r. unfold r, sort_Search. set (f := λ i, P (nth i l zeroTag)).
  destruct (search_loop_spec f (length l) (S (length l)) 0 (length l)) as (Hr & Hlo & Hhi); [|lia..|].
  { intros k k' Hk Hk' Hf. destruct (decide (k = k')) as [->|Hne]; [done|]. unfold f in *.
    eapply HP; [|exact Hf]. apply (increasing_nth Descending); [done|lia|done]. }
  split; [done|]. split; apply Forall_lookup; intros i x Hx.
  - apply lookup_take_Some in Hx as [Hx Hi]. rewrite <-(nth_lookup_Some l i zeroTag x Hx). by apply Hlo.
  - rewrite lookup_drop in Hx. rewrite <-(nth_lookup_Some l _ zeroTag x Hx). apply Hhi; [lia|].
    by apply lookup_lt_Some in Hx.
Qed.

(** ** The child index *)

(** The siblings that the index stores for a parent. *)
Definition stored (ci : child_index) (p : Position) (l : list Position) : Prop :=
  match l with
  | [] => ci.1 !! p = None ∧ singleChild ci.2 p = None
  | [c] => ci.1 !! p = None ∧ singleChild ci.2 p = Some c
  | _ => ci.1 !! p = Some l ∧ singleChild ci.2 p = None
  end.

Definition positions_ok (pairs : gmap Position sequencePair) : Prop :=
  ∀ p q, pairs !! p = Some q → sp_position q = p.

Lemma singleChild_set pairs p c q :
  singleChild (set_singleChild pairs p c) q =
  if decide (q = p) then (if decide (is_Some (pairs !! p)) then c else None) else singleChild pairs q.
Proof.
  unfold singleChild, set_singleChild. case_decide as Hq.
  - subst. rewrite lookup_alter_eq. destruct (pairs !! p) as [x|].
    + by rewrite decide_True by eauto.
    + rewrite decide_False; [done|]. by intros [? ?].
  - by rewrite lookup_alter_ne.
Qed.

Lemma set_singleChild_is_Some pairs p c q : is_Some (set_singleChild pairs p c !! q) ↔ is_Some (pairs !! q).
Proof.
  unfold set_singleChild. destruct (decide (q = p)) as [->|Hne].
  - by rewrite lookup_alter_eq, fmap_is_Some.
  - by rewrite lookup_alter_ne.
Qed.

Lemma positions_set pairs p c : positions_ok pairs → positions_ok (set_singleChild pairs p c).
Proof.
  intros Hp q x. unfold set_singleChild. rewrite lookup_alter_Some. intros [(<- & y & Hy & ->)|[_ Hx]]; [by apply (Hp p y)|by apply Hp].
Qed.

(** Storing a list for a present parent; [case_update] follows one update. *)
Lemma children_count_stored ci p l : is_Some (ci.2 !! p) → stored ci p l → children_count ci p = len l.
Proof.
  intros [x Hx] Hl. unfold children_count. rewrite Hx. destruct l as [|c [|c' l]]; destruct Hl as [-> H]; simpl.
  - by rewrite H.
  - by rewrite H.
  - done.
Qed.

(** [ci'] stores [l] for [p], and what [ci] stores for the other parents. *)
Definition stores (ci ci' : child_index) (p : Position) (l : list Position) : Prop :=
  stored ci' p l ∧ (∀ q l', q ≠ p → stored ci q l' → stored ci' q l') ∧
  (∀ q, is_Some (ci'.2 !! q) ↔ is_Some (ci.2 !! q)) ∧ (positions_ok ci.2 → positions_ok ci'.2).

(** An update of the inline child, with the branches of the other parents. *)
Lemma stores_single branches branches' pairs p c l :
  is_Some (pairs !! p) → (∀ q, q ≠ p → branches' !! q = branches !! q) →
  match l with
  | [] => branches' !! p = None ∧ c = None
  | [x] => branches' !! p = None ∧ c = Some x
  | _ => branches' !! p = Some l ∧ c = None
  end →
  stores (branches, pairs) (branches', set_singleChild pairs p c) p l.
Proof.
  intros Hp Hb Hl. unfold stores. cbn [snd]. split_and!.
  - unfold stored. cbn [fst snd]. rewrite singleChild_set, !decide_True by done. by destruct l as [|x [|y l]].
  - intros q l' Hq. unfold stored. cbn [fst snd]. by rewrite singleChild_set, decide_False, Hb.
  - intros q. apply set_singleChild_is_Some.
  - apply positions_set.
Qed.

(** An update of the branches of a parent without an inline child. *)
Lemma stores_branch branches pairs p l :
  (2 <= length l)%nat → singleChild pairs p = None → stores (branches, pairs) (<[p := l]> branches, pairs) p l.
Proof.
  intros Hl Hs. unfold stores. cbn [snd]. split_and!; [|..|done|done].
  - destruct l as [|x [|y l]]; simpl in Hl; [lia..|]. unfold stored. cbn [fst snd]. by rewrite lookup_insert_eq.
  - intros q l' Hq. unfold stored. cbn [fst snd]. by rewrite lookup_insert_ne.
Qed.

Lemma sibling_before_last (l : list Position) r : (r <= length l)%nat → sibling_before l r = last (take r l).
Proof.
  intros Hr. destruct r as [|r]; [done|]. simpl. destruct (l !! r) as [x|] eqn:Hx.
  - by rewrite (take_S_r _ _ _ Hx), last_snoc.
  - apply lookup_ge_None in Hx. lia.
Qed.

(** Inserting a child keeps the siblings in descending order and returns the one
    before it. *)
Lemma children_insert_spec ci p id k :
  is_Some (ci.2 !! p) → stored ci p k → increasing Descending k → (id ∉ k) →
  ∃ k1 k2, k = k1 ++ k2 ∧ Forall (λ y, Compare id y < 0) k1 ∧ Forall (λ y, Compare y id < 0) k2 ∧
    (children_insert ci p id).2 = last k1 ∧ stores ci (children_insert ci p id).1 p (k1 ++ id :: k2).
Proof.
  intros Hp Hk Hinc Hid. destruct ci as [branches pairs]. unfold children_insert. cbn [snd] in Hp.
  destruct k as [|c [|c' k]]; cbn [stored fst snd] in Hk; destruct Hk as [Hb Hs]; rewrite Hb, ?Hs.
  - exists [], []. split_and!; try done. by apply stores_single.
  - rewrite bool_decide_false by (intros ->; apply Hid; by left).
    assert (Compare c id ≠ 0) by (rewrite (cmp_eq Compare); intros ->; apply Hid; by left).
    pose proof (cmp_anti Compare c id).
    destruct (Z.ltb_spec (Compare c id) 0); [exists [], [c]|exists [c], []]; split_and!; try done;
      try (constructor; [lia|constructor]); apply stores_single; try done;
      [intros q Hq; by rewrite lookup_insert_ne|by rewrite lookup_insert_eq|
       intros q Hq; by rewrite lookup_insert_ne|by rewrite lookup_insert_eq].
  - set (l := c :: c' :: k) in *.
    destruct (search_split l (λ x, Compare x id <? 0)) as (Hr & H1 & H2); [|done|].
    { intros x y Hyx Hx%Z.ltb_lt. apply Z.ltb_lt. by apply (cmp_trans Compare y x). }
    set (r := sort_Search _ _) in *. exists (take r l), (drop r l).
    rewrite bool_decide_false by (intros Hlk%list_elem_of_lookup_2; done).
    rewrite sibling_before_last by done. cbn [fst snd]. split_and!; [by rewrite take_drop|..|done|].
    + apply Forall_forall. intros x Hx. eapply Forall_forall in H1; [|exact Hx]. apply Z.ltb_ge in H1.
      assert (Compare x id ≠ 0) by (rewrite (cmp_eq Compare); intros ->; apply Hid; rewrite <-(take_drop r l), elem_of_app; by left).
      rewrite (cmp_anti Compare x id). lia.
    + eapply Forall_impl; [exact H2|]. intros x ?%Z.ltb_lt. done.
    + apply stores_branch; [|done]. pose proof (f_equal length (take_drop r l)) as Hl.
      rewrite length_app in *. unfold l in Hl at 3. simpl in *. lia.
Qed.

(** ** The indexes of a tree *)

(** The visibility of the markers under the tombstones [T]. *)
Definition marker_shown (T : gset Position) (m : sequenceMarker) : bool :=
  negb (mk_exit m) && negb (bool_decide (mk_position m = zeroTag)) && negb (bool_decide (mk_position m ∈ T)).

(** The sequence index represents the tree of [nodes]: every node hangs under the
    root, the markers are in the reference order, and the entries of the live
    nodes are visible. *)
Record links_ok (nodes : gmap Position node) (T : gset Position) (index : sequenceIndex) : Prop := {
  tree_seq : seq_ok index;
  tree_order : traversal (kids nodes) [zeroTag] (ids (si_links index));
  tree_nodes p : (p, false) ∈ ids (si_links index) ↔ p = zeroTag ∨ is_Some (nodes !! p);
  tree_root : nodes !! zeroTag = None;
  tree_visible m : m ∈ si_links index → mk_visible m = marker_shown T m
}.

(** So does the child index, which stores the siblings of every position. *)
Record tree_ok (nodes : gmap Position node) (T : gset Position) (index : sequenceIndex)
    (branches : gmap Position (list Position)) : Prop := {
  tree_links : links_ok nodes T index;
  tree_children p : stored (branches, si_pairs index) p (kids nodes p);
  tree_positions : positions_ok (si_pairs index)
}.

Section tree.
Context {nodes : gmap Position node} {T : gset Position} {index : sequenceIndex}.
Context (Htree : links_ok nodes T index).

Lemma tree_parent q n : nodes !! q = Some n → nd_parent n = zeroTag ∨ is_Some (nodes !! nd_parent n).
Proof.
  destruct Htree. intros Hq. apply tree_nodes0.
  destruct (traversal_parent _ _ _ q tree_order0) as [Hc|(p & Hp & (n' & Hn' & <-)%elem_of_kids)].
  - apply tree_nodes0. right. eauto.
  - apply list_elem_of_singleton in Hc. subst. congruence.
  - rewrite Hq in Hn'. by injection Hn' as ->.
Qed.

Lemma tree_pairs p : is_Some (si_pairs index !! p) ↔ p = zeroTag ∨ is_Some (nodes !! p).
Proof. destruct Htree. rewrite <-tree_nodes0. apply tree_seq0. Qed.

Lemma tree_fresh_kids id : id ≠ zeroTag → nodes !! id = None → kids nodes id = [].
Proof.
  intros Hz Hid. apply kids_fresh. intros q n Hq <-. destruct (tree_parent q n Hq) as [?|[? ?]]; [done|congruence].
Qed.

Lemma tree_fresh_ids id e : id ≠ zeroTag → nodes !! id = None → (id, e) ∉ ids (si_links index).
Proof.
  destruct Htree. intros Hz Hid Hin. assert ((id, false) ∈ ids (si_links index)) as [?|[? ?]]%tree_nodes0; [|done|congruence].
  destruct e; [|done]. by apply (traversal_exit _ _ _ _ tree_order0).
Qed.
End tree.

(** A pair of a new position without children. *)
Lemma stored_new_pair branches pairs id q l c :
  (q ≠ id → stored (branches, pairs) q l) → (q = id → l = match c with Some x => [x] | None => [] end ∧ branches !! id = None) →
  stored (branches, <[id := mkPair id c]> pairs) q l.
Proof.
  intros Hl Hc. destruct (decide (q = id)) as [->|Hne].
  - destruct (Hc eq_refl) as [-> Hb]. destruct c; unfold stored, singleChild; cbn [fst snd];
      by rewrite lookup_insert_eq.
  - specialize (Hl Hne). revert Hl. unfold stored, singleChild. cbn [fst snd]. by rewrite lookup_insert_ne.
Qed.

Lemma newSequencePair_spec id v :
  let p := newSequencePair id v in
  p.1.1 = mkPair id None ∧ marker_id p.1.2 = (id, false) ∧ marker_id p.2 = (id, true) ∧
  mk_visible p.1.2 = v ∧ mk_visible p.2 = false.
Proof. unfold newSequencePair. by destruct (markerPriorities id). Qed.

Lemma new_pair_shown T id m :
  let p := newSequencePair id (negb (bool_decide (id ∈ T))) in
  id ≠ zeroTag → m = p.1.2 ∨ m = p.2 → mk_visible m = marker_shown T m.
Proof.
  intros p Hz. unfold p, newSequencePair, marker_shown. destruct (markerPriorities id).
  intros [-> | ->]; cbn [fst snd mk_visible mk_exit mk_position]; [|done]. by rewrite (bool_decide_eq_false_2 (id = zeroTag)) by done.
Qed.

(** Splicing the markers of new nodes in after an anchor. *)
Lemma tree_splice nodes nodes' T index branches ci a b m markers pairs :
  tree_ok nodes T index branches → (∀ q, is_Some (ci.2 !! q) ↔ is_Some (si_pairs index !! q)) →
  ids (si_links index) = a ++ b → last a = Some m →
  pairs ≠ [] → len markers = len pairs * 2 → NoDup (ids markers) →
  (∀ id, id ∈ ids markers → id ∉ a ++ b) → (∀ p, p ∈ sp_position <$> pairs ↔ (p, false) ∈ ids markers) →
  (∀ p, is_Some (nodes' !! p) ↔ is_Some (nodes !! p) ∨ (p, false) ∈ ids markers) → nodes' !! zeroTag = None →
  traversal (kids nodes') [zeroTag] (a ++ ids markers ++ b) →
  (∀ m, m ∈ markers → mk_visible m = marker_shown T m) →
  let pairs' := foldl (λ ps p, <[sp_position p := p]> ps) ci.2 pairs in
  (∀ p, stored (ci.1, pairs') p (kids nodes' p)) → positions_ok pairs' →
  tree_ok nodes' T (insertLinearMarkersAfter (si_with_pairs index ci.2) (Some m) markers pairs) ci.1.
Proof.
  intros Htree Hci Hl Ha Hne Hlen Hnd Hfresh Hps Hdom Hz Ht Hv pairs' Hst Hpos.
  destruct Htree as [[Hseq Hord Hnodes Hroot Hvis] _ _].
  assert (seq_ok (si_with_pairs index ci.2)) as Hseq'.
  { destruct Hseq as (? & ? & ? & Hp). split_and!; [done..|]. intros p. rewrite Hci. apply Hp. }
  apply last_Some in Ha as [a0 ->]. apply fmap_app_inv in Hl as (A & B & HA & HB & Hl).
  symmetry in HA. apply fmap_app_inv in HA as (A0 & A1 & HA0 & HA1 & ->).
  destruct A1 as [|mk [|? ?]]; [done| |done]. injection HA1 as ->. rewrite <-app_assoc in Hl. cbn [app] in Hl.
  destruct (insert_spec (si_with_pairs index ci.2) A0 mk B markers pairs) as (Hok & Hlinks & Hpairs);
    [done|done|done|done|done| |done|].
  { intros id Hid. cbn [si_links si_with_pairs]. rewrite Hl. intros Hin. apply (Hfresh id Hid).
    rewrite HA0, HB. revert Hin. by rewrite fmap_app, fmap_cons, <-app_assoc. }
  set (index' := insertLinearMarkersAfter _ _ _ _) in *.
  assert (ids (si_links index') = (a0 ++ [marker_id mk]) ++ ids markers ++ b) as Hids.
  { rewrite Hlinks, fmap_app, fmap_cons, fmap_app, HA0, HB, <-!app_assoc. done. }
  split; [split; [done|by rewrite Hids| |done|]|by rewrite Hpairs|by rewrite Hpairs].
  - intros p. specialize (Hnodes p). rewrite Hl, fmap_app, fmap_cons, elem_of_app, elem_of_cons in Hnodes.
    rewrite Hids, Hdom, HA0, HB, !elem_of_app, list_elem_of_singleton. tauto.
  - intros x. rewrite Hlinks. rewrite Hl in Hvis. setoid_rewrite elem_of_app in Hvis. setoid_rewrite elem_of_cons in Hvis.
    rewrite elem_of_app, elem_of_cons, elem_of_app. intros [?|[?|[?|?]]]; auto.
Qed.

(** The child index after a new leaf. *)
Lemma stored_leaf nodes T index branches id item k1 k2 ci :
  tree_ok nodes T index branches → nodes !! id = None → id ≠ zeroTag → id ≠ nd_parent item →
  kids nodes (nd_parent item) = k1 ++ k2 →
  Forall (λ y, Compare id y < 0) k1 → Forall (λ y, Compare y id < 0) k2 →
  stores (branches, si_pairs index) ci (nd_parent item) (k1 ++ id :: k2) →
  ∀ q, stored (ci.1, <[id := mkPair id None]> ci.2) q (kids (<[id := item]> nodes) q).
Proof.
  intros Htree Hid Hz Hself Hk H1 H2 (Hstp & Hsto & _) q.
  rewrite (kids_insert _ _ _ k1 k2) by done. pose proof (tree_children _ _ _ _ Htree) as Hch. destruct ci as [b ps].
  apply stored_new_pair.
  - intros _. unfold with_child. destruct (decide (q = nd_parent item)) as [->|Hq]; [done|]. apply Hsto; [done|apply Hch].
  - intros ->. unfold with_child. rewrite decide_False, (tree_fresh_kids (tree_links _ _ _ _ Htree)) by done. split; [done|].
    specialize (Hsto id (kids nodes id) Hself (Hch id)). rewrite (tree_fresh_kids (tree_links _ _ _ _ Htree)) in Hsto by done. apply Hsto.
Qed.

(** Integrating a node whose parent is integrated. *)
Lemma tree_integrate nodes T index branches r id item :
  tree_ok nodes T index branches → nodes !! id = None → id ≠ zeroTag →
  nd_parent item = zeroTag ∨ is_Some (nodes !! nd_parent item) → id ≠ nd_parent item →
  rg_sequence r = index → rg_branches r = branches → rg_tombstones r = T →
  ∃ index' branches', integrateNode r id item = Some (set_sequence r index' branches') ∧
    tree_ok (<[id := item]> nodes) T index' branches'.
Proof.
  intros Htree Hid Hz Hpar Hself Hri Hrb HrT. set (p := nd_parent item) in *.
  pose proof (proj2 (tree_pairs (tree_links _ _ _ _ Htree) p) Hpar) as Hpair.
  assert (id ∉ kids nodes p) as Hnew by (intros (? & ? & _)%elem_of_kids; congruence).
  pose proof Htree as [Hlinks Hch Hpos]. pose proof Hlinks as [Hseq Hord Hnodes Hroot Hvis].
  destruct (children_insert_spec (branches, si_pairs index) p id (kids nodes p)) as (k1 & k2 & Hk & H1 & H2 & Hprev & Hst);
    [done|apply Hch|apply kids_increasing|done|].
  unfold integrateNode. fold p. unfold rg_children, si_pair. rewrite Hri, Hrb, HrT.
  destruct Hpair as [x Hx]. rewrite Hx.
  destruct (children_insert _ p id) as [ci previous]. cbn [fst snd] in Hprev, Hst. subst previous.
  destruct (traversal_anchor _ p k1 k2 _ _ Hord) as (a & b & Hab & Ha); [by apply Hnodes|done|].
  pose proof (newSequencePair_spec id (negb (bool_decide (id ∈ T)))) as Hp.
  destruct (newSequencePair _ _) as [[pr entry] exit] eqn:Hnp. cbn [fst snd] in Hp. destruct Hp as (-> & He & Hx' & Hve & Hvx).
  eexists _, _. split; [reflexivity|]. unfold insertPairAfter.
  assert (∀ q, kids (<[id := item]> nodes) q = with_child (kids nodes) p id k1 k2 q) as Hkids
    by (intros q; by apply kids_insert).
  destruct Hst as (Hstp & Hsto & Hdom & Hposs).
  assert (((id, false) ∉ a ++ b) ∧ ((id, true) ∉ a ++ b)) as [Hf1 Hf2]
    by (rewrite <-Hab; split; by apply (tree_fresh_ids (tree_links _ _ _ _ Htree))).
  apply (tree_splice nodes _ T index branches ci a b); try done; try (cbn [fmap list_fmap]; rewrite ?He, ?Hx').
  - apply NoDup_cons. split; [|apply NoDup_singleton]. by intros ?%list_elem_of_singleton.
  - intros q [->|[->|?%elem_of_nil]%elem_of_cons]%elem_of_cons; done.
  - intros q. rewrite !elem_of_cons. split; [intros [->|?%elem_of_nil]; by left|].
    intros [[= ->]|[[=]|?%elem_of_nil]]; by left.
  - intros q. rewrite lookup_insert_is_Some, !elem_of_cons, elem_of_nil. split.
    + intros [->|[_ ?]]; auto.
    + intros [?|[[= ->]|[[=]|[]]]]; [|by left]. destruct (decide (id = q)); auto.
  - by rewrite lookup_insert_ne.
  - apply (traversal_ext (with_child (kids nodes) p id k1 k2)); [|intros; symmetry; apply Hkids].
    rewrite Hab in Hord. apply traversal_insert_at; try done.
    + rewrite <-Hab. destruct Hseq as (_ & _ & ? & _). done.
    + by apply (tree_fresh_kids (tree_links _ _ _ _ Htree)).
    + rewrite <-Hab. by apply Hnodes.
  - intros x0 [Hx0|[Hx0|?%elem_of_nil]%elem_of_cons]%elem_of_cons; [| |done].
    + apply (new_pair_shown T id); [done|]. left. by rewrite Hnp.
    + apply (new_pair_shown T id); [done|]. right. by rewrite Hnp.
  - cbn [foldl sp_position]. by apply (stored_leaf _ _ _ _ _ _ k1 k2 _ Htree).
  - intros q y. cbn [foldl sp_position]. rewrite lookup_insert_Some. intros [[<- <-]|[_ Hy]]; [done|].
    by apply (Hposs Hpos).
Qed.

(** ** Runs *)

(** The markers of a run: entries, then exits backwards. *)
Definition run_ids (run : list Position) : list markerID :=
  ((λ id, (id, false)) <$> run) ++ reverse ((λ id, (id, true)) <$> run).

Lemma run_ids_cons id run : run_ids (id :: run) = (id, false) :: run_ids run ++ [(id, true)].
Proof. unfold run_ids. rewrite !fmap_cons, reverse_cons, <-app_assoc. done. Qed.

Lemma elem_of_run_ids id e run : (id, e) ∈ run_ids run ↔ id ∈ run.
Proof.
  induction run as [|x run IH]; [by rewrite !elem_of_nil|].
  rewrite run_ids_cons, !elem_of_cons, elem_of_app, list_elem_of_singleton, IH. destruct e; naive_solver.
Qed.

Lemma run_ids_NoDup run : NoDup run → NoDup (run_ids run).
Proof.
  induction 1 as [|x run Hx Hnd IH]; [constructor|]. rewrite run_ids_cons. apply NoDup_cons. split.
  - rewrite elem_of_app, elem_of_run_ids, list_elem_of_singleton. intros [?|[=]]. done.
  - apply NoDup_app. split; [done|]. split; [|apply NoDup_singleton].
    intros id Hin ->%list_elem_of_singleton. by apply elem_of_run_ids in Hin.
Qed.

Section run.
Context (f : Position → node).

(** Each node of the run is the child of the one before. *)
Fixpoint chain (p : Position) (run : list Position) : Prop :=
  match run with [] => True | id :: run' => nd_parent (f id) = p ∧ chain id run' end.

Definition add_run (nodes : gmap Position node) (run : list Position) : gmap Position node :=
  foldl (λ nodes id, <[id := f id]> nodes) nodes run.

Lemma add_run_lookup nodes run p :
  NoDup run → add_run nodes run !! p = if decide (p ∈ run) then Some (f p) else nodes !! p.
Proof.
  intros Hnd. revert nodes. induction Hnd as [|x run Hx Hnd IH]; intros nodes.
  { by rewrite decide_False by apply not_elem_of_nil. }
  unfold add_run. cbn [foldl]. fold (add_run (<[x := f x]> nodes) run). rewrite IH. destruct (decide (p ∈ run)) as [Hp|Hp].
  - by rewrite decide_True by (by right).
  - destruct (decide (p = x)) as [->|Hne].
    + rewrite lookup_insert_eq, decide_True; [done|by left].
    + rewrite lookup_insert_ne by done. rewrite decide_False; [done|]. by intros [?|?]%elem_of_cons.
Qed.

(** The traversal after a run was inserted under [p], its first node between
    the siblings [k1] and [k2]. *)
Lemma traversal_run run nodes p k1 k2 first a b :
  traversal (kids nodes) [zeroTag] (a ++ b) → NoDup (a ++ b) → (p, false) ∈ a ++ b →
  kids nodes p = k1 ++ k2 → Forall (λ y, Compare first y < 0) k1 → Forall (λ y, Compare y first < 0) k2 →
  last a = Some (anchor p (last k1)) → chain p (first :: run) → NoDup (first :: run) →
  (∀ id e, id ∈ first :: run → nodes !! id = None ∧ kids nodes id = [] ∧ (id, e) ∉ a ++ b) →
  traversal (kids (add_run nodes (first :: run))) [zeroTag] (a ++ run_ids (first :: run) ++ b).
Proof.
  revert nodes p k1 k2 first a b. induction run as [|second run IH];
    intros nodes p k1 k2 first a b Ht Hnd Hin Hk H1 H2 Ha [Hpar Hchain] Hnd' Hfresh.
  all: destruct (Hfresh first false) as (Hn & Hkf & Hf); [by left|].
  all: assert (first ≠ p) as Hfp by (by intros ->).
  all: assert (∀ q, kids (<[first := f first]> nodes) q = with_child (kids nodes) p first k1 k2 q) as Hkids
    by (intros q; rewrite <-Hpar; apply kids_insert; rewrite ?Hpar; done).
  all: assert (traversal (kids (<[first := f first]> nodes)) [zeroTag] (a ++ (first, false) :: (first, true) :: b)) as Hins
    by (apply (traversal_ext (with_child (kids nodes) p first k1 k2)); [by apply traversal_insert_at|done]).
  - simpl. exact Hins.
  - rewrite run_ids_cons, <-app_comm_cons, <-app_assoc. simpl add_run.
    change (a ++ (first, false) :: run_ids (second :: run) ++ [(first, true)] ++ b)
      with (a ++ [(first, false)] ++ run_ids (second :: run) ++ (first, true) :: b). rewrite app_assoc.
    apply NoDup_cons in Hnd' as [Hnf Hnd'].
    apply (IH _ first [] []); try done.
    + by rewrite <-app_assoc.
    + rewrite <-app_assoc. destruct (Hfresh first true) as (_ & _ & Hf'); [by left|]. simpl.
      apply NoDup_app in Hnd as (Hna & Hd & Hnb). rewrite elem_of_app in Hf, Hf'.
      apply NoDup_app. split; [done|]. split.
      * intros x Hx [->|[->|Hb]%elem_of_cons]%elem_of_cons; [tauto|tauto|by apply (Hd x)].
      * apply NoDup_cons. split; [rewrite elem_of_cons; intros [[=]|?]; tauto|]. apply NoDup_cons. split; [tauto|done].
    + rewrite <-app_assoc. apply elem_of_app. right. by left.
    + rewrite Hkids. unfold with_child. by rewrite decide_False.
    + rewrite last_snoc. done.
    + intros id e Hid. assert (id ≠ first) as Hne by (by intros ->).
      destruct (Hfresh id e) as (Hidn & Hidk & Hidf); [by right|].
      split; [by rewrite lookup_insert_ne|]. split.
      * rewrite Hkids. unfold with_child. rewrite decide_False; [done|]. intros ->.
        destruct (Hfresh p false) as (_ & _ & Hpf); [by right|]. done.
      * rewrite <-app_assoc, elem_of_app. simpl. rewrite !elem_of_cons. rewrite elem_of_app in Hidf. naive_solver.
Qed.

(** The pairs of a run. *)
Fixpoint run_sp (run : list Position) : list sequencePair :=
  match run with [] => [] | id :: run' => mkPair id (head run') :: run_sp run' end.

Abbreviation add_pairs := (foldl (λ (ps : gmap Position sequencePair) (p : sequencePair), <[sp_position p := p]> ps)).

Lemma stored_run run prev nodes branches pairs :
  (∀ q, stored (branches, pairs) q (kids nodes q)) → kids nodes prev = [] →
  chain prev run → NoDup (prev :: run) → (∀ id, id ∈ run → nodes !! id = None ∧ kids nodes id = []) →
  ∀ q, stored (branches, add_pairs (<[prev := mkPair prev (head run)]> pairs) (run_sp run)) q (kids (add_run nodes run) q).
Proof.
  revert prev nodes pairs. induction run as [|id run IH]; intros prev nodes pairs Hst Hkp Hchain Hnd Hfresh q.
  - simpl. apply stored_new_pair; [done|]. intros ->. pose proof (Hst prev) as Hp. rewrite Hkp in *. by destruct Hp.
  - destruct Hchain as [Hpar Hchain]. apply NoDup_cons in Hnd as [Hprev Hnd].
    destruct (Hfresh id) as [Hn Hk]; [by left|].
    assert (∀ q, kids (<[id := f id]> nodes) q = with_child (kids nodes) prev id [] [] q) as Hkids
      by (intros q'; rewrite <-Hpar; apply kids_insert; rewrite ?Hpar; done).
    assert (id ≠ prev) as Hne by (intros ->; apply Hprev; by left).
    assert (∀ p, branches !! p = None ∨ kids nodes p ≠ []) as Hb.
    { intros p. pose proof (Hst p) as Hp. destruct (kids nodes p); [left; apply Hp|by right]. }
    pose proof (Hb prev) as Hbp. pose proof (Hb id) as Hbi.
    cbn [run_sp foldl sp_position head]. rewrite <-(insert_insert_eq (<[prev := _]> pairs) id (mkPair id (head run)) (mkPair id None)).
    apply (IH id); [|rewrite Hkids; unfold with_child; by rewrite decide_False|done|done|].
    + intros q'. apply stored_new_pair.
      * intros _. apply stored_new_pair.
        -- intros Hq. rewrite Hkids. unfold with_child. by rewrite decide_False.
        -- intros ->. rewrite Hkids. unfold with_child. rewrite decide_True by done. split; [done|tauto].
      * intros ->. rewrite Hkids. unfold with_child. rewrite decide_False, Hk by done. split; [done|tauto].
    + intros id' Hid'. destruct (Hfresh id') as [Hn' Hk']; [by right|]. apply NoDup_cons in Hnd as [Hidn _].
      split; [rewrite lookup_insert_ne; [done|by intros ->]|].
      rewrite Hkids. unfold with_child. rewrite decide_False; [done|]. intros ->. apply Hprev. by right.
Qed.
End run.

(** The pairs and markers of a run. *)
Lemma run_pairs_spec T run :
  (λ p, p.1.1) <$> run_pairs T run = run_sp run ∧
  ids (((λ p, p.1.2) <$> run_pairs T run) ++ reverse ((λ p, p.2) <$> run_pairs T run)) = run_ids run ∧
  (zeroTag ∉ run → ∀ m, m ∈ ((λ p, p.1.2) <$> run_pairs T run) ++ reverse ((λ p, p.2) <$> run_pairs T run) →
     mk_visible m = marker_shown T m).
Proof.
  induction run as [|id run (IH1 & IH2 & IH3)]; [split_and!; try done; by intros _ m ?%elem_of_nil|].
  cbn [run_pairs run_sp]. pose proof (newSequencePair_spec id (negb (bool_decide (id ∈ T)))) as Hp.
  destruct (newSequencePair _ _) as [[pr entry] exit] eqn:Hnp. cbn [fst snd] in Hp. destruct Hp as (-> & He & Hx & _).
  rewrite !fmap_cons. cbn [fst snd]. rewrite reverse_cons. split_and!.
  - by rewrite IH1.
  - rewrite run_ids_cons, <-IH2. rewrite <-app_comm_cons, fmap_cons, !fmap_app, He. simpl. rewrite Hx.
    by rewrite <-app_assoc.
  - intros Hz m. rewrite elem_of_cons in Hz.
    rewrite <-app_comm_cons, elem_of_cons, app_assoc, elem_of_app, list_elem_of_singleton.
    intros [Hm|[Hm|Hm]]; [|by apply IH3; tauto|];
      (apply (new_pair_shown T id); [intros ->; tauto|rewrite Hnp; auto]).
Qed.

(** Integrating a run: its first node hangs under an integrated parent. *)
Lemma tree_run nodes T index branches f p first run ci previous :
  tree_ok nodes T index branches → p = zeroTag ∨ is_Some (nodes !! p) →
  chain f p (first :: run) → NoDup (first :: run) →
  (∀ id, id ∈ first :: run → nodes !! id = None ∧ id ≠ zeroTag) →
  children_insert (branches, si_pairs index) p first = (ci, previous) →
  tree_ok (add_run f nodes (first :: run)) T
    (insertLinearPairsAfter (si_with_pairs index ci.2)
       (Some (match previous with Some sibling => (sibling, true) | None => (p, false) end))
       (run_pairs T (first :: run))) ci.1.
Proof.
  intros Htree Hpar Hchain Hnd Hfresh Hci.
  pose proof (proj2 (tree_pairs (tree_links _ _ _ _ Htree) p) Hpar) as Hpair.
  destruct (Hfresh first) as [Hn Hz]; [by left|].
  assert (first ∉ kids nodes p) as Hnew by (intros (? & ? & _)%elem_of_kids; congruence).
  pose proof Htree as [Hlinks Hch Hpos]. pose proof Hlinks as [Hseq Hord Hnodes Hroot Hvis].
  destruct (children_insert_spec (branches, si_pairs index) p first (kids nodes p)) as (k1 & k2 & Hk & H1 & H2 & Hprev & Hst);
    [done|apply Hch|apply kids_increasing|done|].
  rewrite Hci in Hprev, Hst. cbn [fst snd] in Hprev, Hst. subst previous.
  destruct (traversal_anchor _ p k1 k2 _ _ Hord) as (a & b & Hab & Ha); [by apply Hnodes|done|].
  destruct Hst as (Hstp & Hsto & Hdom & Hposs). unfold insertLinearPairsAfter.
  destruct (run_pairs_spec T (first :: run)) as (Hps & Hids & Hshow).
  assert (zeroTag ∉ first :: run) as Hzr by (intros Hin; by destruct (Hfresh _ Hin)).
  assert (∀ q, sp_position <$> run_sp q = q) as Hsp by (induction q as [|x q IH]; [done|cbn [run_sp]; rewrite fmap_cons, IH; done]).
  assert (∀ p, is_Some (add_run f nodes (first :: run) !! p) ↔ is_Some (nodes !! p) ∨ p ∈ first :: run) as Hadd.
  { intros q. rewrite add_run_lookup by done. case_decide as Hq.
    - split; [by right|]. intros _. eauto.
    - split; [by left|]. by intros [?|?]. }
  rewrite Hps.
  apply (tree_splice nodes _ T index branches ci a b); try done; rewrite ?Hids.
  - rewrite <-Hps, len_app. unfold len. rewrite length_reverse, !length_fmap. lia.
  - by apply run_ids_NoDup.
  - intros [id e] Hid%elem_of_run_ids. rewrite <-Hab. destruct (Hfresh id Hid). by apply (tree_fresh_ids (tree_links _ _ _ _ Htree)).
  - intros q. by rewrite Hsp, elem_of_run_ids.
  - intros q. by rewrite Hadd, elem_of_run_ids.
  - apply eq_None_not_Some. rewrite Hadd, Hroot. intros [[? ?]|?]; done.
  - rewrite Hab in Hord. apply (traversal_run f run nodes p k1 k2); try done.
    + rewrite <-Hab. apply Hseq.
    + rewrite <-Hab. by apply Hnodes.
    + intros id e Hid. destruct (Hfresh id Hid) as [Hidn Hidz]. split; [done|].
      split; [by apply (tree_fresh_kids (tree_links _ _ _ _ Htree))|]. rewrite <-Hab. by apply (tree_fresh_ids (tree_links _ _ _ _ Htree)).
  - by apply Hshow.
  - cbn [run_sp foldl sp_position]. rewrite <-(insert_insert_eq _ first (mkPair first (head run)) (mkPair first None)).
    destruct Hchain as [Hpar' Hchain]. apply NoDup_cons in Hnd as [Hfr Hnd].
    assert (first ≠ p) as Hfp by (intros ->; destruct Hpar as [?|[? ?]]; congruence).
    assert (∀ q, kids (<[first := f first]> nodes) q = with_child (kids nodes) p first k1 k2 q) as Hkids
      by (intros q; rewrite <-Hpar'; apply kids_insert; rewrite ?Hpar'; done).
    apply (stored_run f run first (<[first := f first]> nodes)); [|..|done|by apply NoDup_cons|].
    + subst p. by apply (stored_leaf _ _ _ _ _ _ k1 k2 _ Htree).
    + rewrite Hkids. unfold with_child. rewrite decide_False by done. by apply (tree_fresh_kids (tree_links _ _ _ _ Htree)).
    + intros id Hid. destruct (Hfresh id) as [Hidn Hidz]; [by right|].
      split; [rewrite lookup_insert_ne; [done|by intros ->]|]. rewrite Hkids. unfold with_child.
      rewrite decide_False by (intros ->; destruct Hpar as [?|[? ?]]; congruence). by apply (tree_fresh_kids (tree_links _ _ _ _ Htree)).
  - clear -Hpos Hposs. specialize (Hposs Hpos). clear Hpos. revert Hposs. generalize (run_sp (first :: run)) ci.2.
    induction l as [|x l IH]; intros ps Hps; [done|]. apply IH. intros q y. simpl. rewrite lookup_insert_Some.
    intros [[<- <-]|[_ Hy]]; [done|]. by apply Hps.
Qed.

(** ** Hiding *)

Lemma tree_empty : tree_ok ∅ ∅ newSequenceIndex ∅.
Proof.
  pose proof (newSequencePair_spec zeroTag false) as Hp. unfold newSequenceIndex. set (np := newSequencePair _ _) in *.
  clearbody np. destruct np as [[pr entry] exit]. cbn [fst snd] in Hp. destruct Hp as (-> & He & Hx & Hve & Hvx).
  split; [split|..]; cbn [si_root si_links si_pairs fst snd fmap list_fmap].
  - split_and!; cbn [si_root si_links si_pairs fmap list_fmap]; rewrite ?He, ?Hx.
    + by rewrite merge_inorder.
    + apply merge_counts; by apply counts_refresh.
    + apply NoDup_cons. split; [by intros ?%list_elem_of_singleton|apply NoDup_singleton].
    + intros p. rewrite lookup_singleton_is_Some, !elem_of_cons, elem_of_nil. naive_solver.
  - rewrite He, Hx. apply (trav_cons _ _ _ [] []); [rewrite kids_empty|]; constructor.
  - intros p. rewrite He, Hx, lookup_empty, !elem_of_cons, elem_of_nil. pose proof (@is_Some_None node). naive_solver.
  - done.
  - intros m. rewrite !elem_of_cons, elem_of_nil. unfold marker_shown, marker_id in *. injection He as Hep Hee. injection Hx as Hxp Hxe.
    by intros [->|[->|[]]]; rewrite ?Hve, ?Hvx, ?Hep, ?Hee, ?Hxe.
  - intros p. rewrite kids_empty. split; [done|]. unfold singleChild. cbn [snd].
    destruct (decide (p = zeroTag)) as [->|Hp]; [by rewrite lookup_singleton_eq|by rewrite lookup_singleton_ne].
  - intros p q. rewrite lookup_singleton_Some. by intros [<- <-].
Qed.

(** Tombstoning a position hides its entry. *)
Lemma tree_hide nodes T index branches id :
  tree_ok nodes T index branches → tree_ok nodes ({[id]} ∪ T) (setVisible index id false) branches.
Proof.
  intros [[Hseq Hord Hnodes Hroot Hvis] Hch Hpos].
  destruct (setVisible_spec index id false Hseq) as (Hok & Hl & Hp).
  split; [split; [done|..]|by rewrite Hp|by rewrite Hp]; rewrite ?Hl, ?ids_set_visible; try done.
  intros m (m' & -> & Hm)%list_elem_of_fmap. unfold set_visible, marker_shown.
  case_decide as Hid.
  - unfold marker_id in Hid. injection Hid as Hid He. cbn [mk_visible mk_exit mk_position].
    rewrite (bool_decide_eq_true_2 (mk_position m' ∈ _)) by set_solver. by rewrite andb_false_r.
  - rewrite (Hvis m' Hm). unfold marker_shown. destruct (mk_exit m') eqn:He; [done|]. f_equal. f_equal.
    apply bool_decide_ext. rewrite elem_of_union, elem_of_singleton. split; [by right|].
    intros [Heq|?]; [|done]. destruct Hid. unfold marker_id. by rewrite Heq, He.
Qed.
