(* ===== verification/RGAStore.v ===== *)
(** * The store of an RGA

    The nodes a replica knows are integrated or pending; [waitingByParent] and
    [pendingBytes] index the pending ones. [integrateReady] and
    [integrateResolved] integrate every node whose parents have arrived, so that
    the integrated nodes are the rooted part of the known ones. *)

From S2P Require Import Prelude Utf8 Tags Forest Clock Sequence SequenceTheory Frame RGA RGAOrder RGATree.

(** ** The invariant *)

(** The parent of a node is the root or integrated. *)
Definition integrable (nodes : gmap Position node) (p : Position) : Prop := p = zeroTag ∨ is_Some (nodes !! p).

#[export] Instance integrable_dec nodes p : Decision (integrable nodes p).
Proof. unfold integrable. apply _. Defined.

(** What [validateDelta] asks of a node. *)
Definition node_wf (id : Position) (n : node) : Prop :=
  Valid id = true ∧ ValidRune (nd_rune n) = true ∧ (nd_parent n = zeroTag ∨ Valid (nd_parent n) = true) ∧
  id ≠ nd_parent n.

Definition waiting (r : RGA) (p : Position) : gset Position := default ∅ (rg_waitingByParent r !! p).
Definition known (r : RGA) : gmap Position node := rg_nodes r ∪ rg_pending r.

(** The bytes charged for pending nodes. *)
Definition bytes_of (l : list (Position * node)) : Z := foldl (λ total e, total + nodeBytes e.1 e.2) 0 l.

Record store_ok (r : RGA) : Prop := {
  st_tree : tree_ok (rg_nodes r) (rg_tombstones r) (rg_sequence r) (rg_branches r);
  st_disjoint : rg_nodes r ##ₘ rg_pending r;
  st_waiting p id : id ∈ waiting r p ↔ ∃ n, rg_pending r !! id = Some n ∧ nd_parent n = p;
  st_nonempty p s : rg_waitingByParent r !! p = Some s → s ≠ ∅;
  st_bytes : rg_pendingBytes r = bytes_of (map_to_list (rg_pending r));
  st_wf id n : known r !! id = Some n → node_wf id n
}.

(** What integration leaves alone. *)
Definition same_frame (r r' : RGA) : Prop :=
  rg_replicaID r' = rg_replicaID r ∧ rg_clock r' = rg_clock r ∧ rg_options r' = rg_options r ∧
  rg_tombstones r' = rg_tombstones r ∧ rg_version r' = rg_version r.

#[export] Instance same_frame_preorder : PreOrder same_frame.
Proof.
  split; [done|]. intros r1 r2 r3 (? & ? & ? & ? & ?) (? & ? & ? & ? & ?). unfold same_frame. split_and!; congruence.
Qed.

(** ** Counting the pending bytes *)

Lemma bytes_acc z l : foldl (λ total e, total + nodeBytes e.1 e.2) z l = z + bytes_of l.
Proof.
  unfold bytes_of. revert z. induction l as [|e l IH]; intros z; cbn [foldl]; [lia|]. rewrite IH, (IH (0 + _)). lia.
Qed.

Lemma bytes_cons e l : bytes_of (e :: l) = nodeBytes e.1 e.2 + bytes_of l.
Proof. unfold bytes_of at 1. cbn [foldl]. by rewrite bytes_acc. Qed.

#[export] Instance bytes_perm : Proper ((≡ₚ) ==> (=)) bytes_of.
Proof. induction 1; rewrite ?bytes_cons; lia. Qed.

Lemma bytes_insert id n (m : gmap Position node) :
  m !! id = None → bytes_of (map_to_list (<[id := n]> m)) = nodeBytes id n + bytes_of (map_to_list m).
Proof. intros Hid. by rewrite map_to_list_insert, bytes_cons. Qed.

Lemma bytes_delete id n (m : gmap Position node) :
  m !! id = Some n → bytes_of (map_to_list (delete id m)) = bytes_of (map_to_list m) - nodeBytes id n.
Proof.
  intros Hid. rewrite <-(insert_delete_id m id n) at 2 by done.
  rewrite bytes_insert by apply lookup_delete_eq. lia.
Qed.

(** ** The store operations *)

Section store.
Context (r : RGA) (Hr : store_ok r).

Lemma known_node id n : rg_nodes r !! id = Some n → known r !! id = Some n.
Proof. apply lookup_union_Some_l. Qed.

Lemma known_pending id n : rg_pending r !! id = Some n → known r !! id = Some n.
Proof. intros Hn. apply lookup_union_Some_r; [apply (st_disjoint r Hr)|done]. Qed.

Lemma pending_fresh id n : rg_pending r !! id = Some n → rg_nodes r !! id = None.
Proof. intros Hn. by eapply map_disjoint_Some_r; [apply (st_disjoint r Hr)|]. Qed.

(** Integrating one pending node. *)
Lemma integrate_pending id item :
  rg_pending r !! id = Some item → integrable (rg_nodes r) (nd_parent item) →
  ∃ r', integrateNode (set_nodes (dequeuePending r id item) (<[id := item]> (rg_nodes r))) id item = Some r' ∧
    store_ok r' ∧ same_frame r r' ∧ rg_nodes r' = <[id := item]> (rg_nodes r) ∧
    rg_pending r' = delete id (rg_pending r).
Proof.
  intros Hid Hpar. pose proof (st_wf r Hr id item (known_pending _ _ Hid)) as (Hv & _ & _ & Hself).
  destruct (tree_integrate (rg_nodes r) (rg_tombstones r) (rg_sequence r) (rg_branches r)
    (set_nodes (dequeuePending r id item) (<[id := item]> (rg_nodes r))) id item) as (index & branches & -> & Htree);
    [apply (st_tree r Hr)|by eapply pending_fresh|by intros ->|done..|].
  eexists. split; [done|]. split; [|done].
  assert (known r = <[id := item]> (rg_nodes r) ∪ delete id (rg_pending r)) as Hk.
  { unfold known. rewrite <-(insert_delete_id (rg_pending r) id item) at 1 by done.
    rewrite <-insert_union_r by (by eapply pending_fresh). by rewrite insert_union_l. }
  split; cbn [rg_nodes rg_pending rg_waitingByParent rg_pendingBytes rg_tombstones rg_sequence rg_branches set_sequence
    set_nodes dequeuePending set_pending].
  - done.
  - apply map_disjoint_insert_l. split; [apply lookup_delete_eq|]. apply map_disjoint_delete_r, (st_disjoint r Hr).
  - intros p q. unfold waiting. cbn [rg_waitingByParent set_sequence set_nodes dequeuePending set_pending].
    fold (waiting r (nd_parent item)).
    assert (q ∈ waiting r p ∧ (p = nd_parent item → q ≠ id) ↔
      ∃ n, delete id (rg_pending r) !! q = Some n ∧ nd_parent n = p) as <-.
    { rewrite (st_waiting r Hr). setoid_rewrite lookup_delete_Some. split.
      - intros [(n & Hn & <-) Hq]. exists n. split; [|done]. split; [|done]. intros <-.
        rewrite Hid in Hn. injection Hn as <-. by apply Hq.
      - intros (n & [Hq Hn] & <-). split; [eauto|]. intros _ ->. done. }
    case_bool_decide as He; destruct (decide (p = nd_parent item)) as [->|Hp].
    + rewrite lookup_delete_eq. simpl. set_solver.
    + rewrite lookup_delete_ne by done. fold (waiting r p). naive_solver.
    + rewrite lookup_insert_eq. simpl. set_solver.
    + rewrite lookup_insert_ne by done. fold (waiting r p). naive_solver.
  - intros p s. case_bool_decide.
    + intros [_ ?]%lookup_delete_Some. by eapply (st_nonempty r Hr).
    + intros [[<- <-]|[_ ?]]%lookup_insert_Some; [done|]. by eapply (st_nonempty r Hr).
  - rewrite (bytes_delete id item) by done. by rewrite (st_bytes r Hr).
  - unfold known. cbn [rg_nodes rg_pending set_sequence set_nodes dequeuePending set_pending]. rewrite <-Hk. apply (st_wf r Hr).
Qed.
End store.

(** ** Integrating what is ready *)

(** No pending node is ready. *)
Definition drained (r : RGA) : Prop :=
  ∀ id n, rg_pending r !! id = Some n → ¬ integrable (rg_nodes r) (nd_parent n).

(** The pending nodes that are ready. *)
Definition is_ready (r : RGA) (id : Position) : Prop :=
  ∃ n, rg_pending r !! id = Some n ∧ integrable (rg_nodes r) (nd_parent n).

Lemma elem_of_sortedWaiting (s : gset Position) id : id ∈ sortedWaitingIDs s ↔ id ∈ s.
Proof. unfold sortedWaitingIDs, sortPositions. by rewrite (sort_by_perm Compare), elem_of_elements. Qed.

Lemma NoDup_sortedWaiting (s : gset Position) : NoDup (sortedWaitingIDs s).
Proof. unfold sortedWaitingIDs, sortPositions. rewrite (sort_by_perm Compare). apply NoDup_elements. Qed.

Lemma integrable_insert nodes id n p : integrable (<[id := n]> nodes) p ↔ p = id ∨ integrable nodes p.
Proof.
  unfold integrable. rewrite lookup_insert_is_Some. destruct (decide (id = p)); naive_solver.
Qed.

Lemma ready_loop_spec fuel ready r changed :
  store_ok r → NoDup ready → (∀ id, id ∈ ready ↔ is_ready r id) → (size (rg_pending r) <= fuel)%nat →
  ∃ r', ready_loop fuel ready r changed = Some (r', changed || negb (bool_decide (ready = []))) ∧
    store_ok r' ∧ same_frame r r' ∧ drained r' ∧ known r' = known r ∧ (ready = [] → r' = r).
Proof.
  revert ready r changed. induction fuel as [|fuel IH]; intros ready r changed Hr Hnd Hready Hfuel.
  - assert (rg_pending r = ∅) as Hp by (apply map_size_empty_iff; lia).
    assert (ready = []) as ->.
    { destruct ready as [|id ready]; [done|]. destruct (Hready id) as [(n & Hn & _) _]; [by left|].
      rewrite Hp in Hn. done. }
    exists r. rewrite orb_false_r. split_and!; try done. intros id n. by rewrite Hp.
  - destruct ready as [|id ready].
    { exists r. rewrite orb_false_r. split_and!; try done. intros id n Hn Hi.
      apply (not_elem_of_nil id), Hready. by exists n. }
    destruct (proj1 (Hready id)) as (item & Hid & Hpar); [by left|].
    destruct (integrate_pending r Hr id item Hid Hpar) as (r1 & Hint & Hr1 & Hf1 & Hn1 & Hp1).
    apply NoDup_cons in Hnd as [Hnid Hnd].
    cbn [ready_loop]. rewrite Hid. change (rg_nodes (dequeuePending r id item)) with (rg_nodes r). rewrite Hint.
    fold (waiting r1 id).
    destruct (IH (ready ++ sortedWaitingIDs (waiting r1 id)) r1 true) as (r' & -> & Hr' & Hf' & Hd & Hk & _); [done|..].
    + apply NoDup_app. split; [done|]. split; [|apply NoDup_sortedWaiting].
      intros q Hq Hw%elem_of_sortedWaiting. apply (st_waiting r1 Hr1) in Hw as (n & Hn & Hpn).
      rewrite Hp1 in Hn. apply lookup_delete_Some in Hn as [_ Hn].
      destruct (proj1 (Hready q)) as (n' & Hn' & Hi); [by right|]. rewrite Hn in Hn'. injection Hn' as <-. rewrite Hpn in Hi.
      destruct (st_wf r Hr id item) as (Hv & _); [by apply known_pending|].
      destruct Hi as [->|[x Hx]]; [done|]. rewrite (pending_fresh r Hr id item Hid) in Hx. done.
    + intros q. rewrite elem_of_app, elem_of_sortedWaiting, (st_waiting r1 Hr1).
      specialize (Hready q). rewrite elem_of_cons in Hready. unfold is_ready in *. rewrite Hp1, Hn1.
      setoid_rewrite integrable_insert. setoid_rewrite lookup_delete_Some. split.
      * intros [Hq|(n & [? Hn] & ?)]; [|by eauto 10]. destruct (proj1 Hready) as (n & ? & ?); [by right|].
        exists n. split; [|by right]. split; [by intros ->|done].
      * intros (n & [Hne Hn] & [?|?]); [by eauto 10|]. left. destruct (proj2 Hready) as [->|?]; [eauto|done|done].
    + rewrite Hp1, map_size_delete_Some by eauto. lia.
    + exists r'. rewrite (bool_decide_eq_false_2 (id :: ready = [])) by done. rewrite orb_true_r.
      split_and!; try done; [by transitivity r1|]. rewrite Hk. unfold known. rewrite Hn1, Hp1.
      rewrite <-(insert_delete_id (rg_pending r) id item) at 2 by done.
      by rewrite <-insert_union_r, insert_union_l by (by eapply pending_fresh).
Qed.

Lemma elem_of_concat {A} (x : A) ls : x ∈ concat ls ↔ ∃ l, l ∈ ls ∧ x ∈ l.
Proof.
  induction ls as [|l ls IH]; simpl; [split; [by intros ?%elem_of_nil|by intros (? & ?%elem_of_nil & _)]|].
  rewrite elem_of_app, IH. setoid_rewrite elem_of_cons. naive_solver.
Qed.

Lemma integrateReady_spec r :
  store_ok r →
  ∃ r' c, integrateReady r = Some (r', c) ∧ store_ok r' ∧ same_frame r r' ∧ drained r' ∧ known r' = known r ∧
    (drained r → r' = r ∧ c = false).
Proof.
  intros Hr. unfold integrateReady. set (parents := sortPositions _).
  set (ready := concat _).
  assert (∀ p, p ∈ parents ↔ integrable (rg_nodes r) p ∧ waiting r p ≠ ∅) as Hparents.
  { intros p. unfold parents, sortPositions. rewrite (sort_by_perm Compare), list_elem_of_filter, list_elem_of_fmap.
    split.
    - intros [Hp ([p' s] & -> & Hs%elem_of_map_to_list)]. cbn [fst] in *.
      pose proof (st_nonempty r Hr p' s Hs) as Hne.
      assert (waiting r p' = s) as Hw by (unfold waiting; by rewrite Hs). rewrite Hw. split; [|done].
      destruct Hp as [Hp|Hp]; [|by right]. left. apply set_choose_L in Hne as [q Hq]. rewrite <-Hw in Hq.
      apply (st_waiting r Hr) in Hq as (n & Hn & <-).
      destruct (st_wf r Hr q n) as (_ & _ & [?|?] & _); [by apply known_pending|done|congruence].
    - intros [Hi Hw]. split; [destruct Hi as [->|?]; [by left|by right]|].
      destruct (rg_waitingByParent r !! p) as [s|] eqn:Hs; [|unfold waiting in Hw; by rewrite Hs in Hw].
      exists (p, s). split; [done|]. by apply elem_of_map_to_list. }
  assert (NoDup parents) as Hnd.
  { unfold parents, sortPositions. rewrite (sort_by_perm Compare). apply NoDup_filter, NoDup_fst_map_to_list. }
  assert (∀ id, id ∈ ready ↔ is_ready r id) as Hready.
  { intros id. unfold ready. rewrite elem_of_concat. split.
    - intros (l & (p & -> & Hp)%list_elem_of_fmap & Hid%elem_of_sortedWaiting). fold (waiting r p) in Hid.
      apply Hparents in Hp as [Hp _]. apply (st_waiting r Hr) in Hid as (n & Hn & <-). by exists n.
    - intros (n & Hn & Hi). assert (id ∈ waiting r (nd_parent n)) as Hw by (apply (st_waiting r Hr); eauto).
      exists (sortedWaitingIDs (waiting r (nd_parent n))). rewrite elem_of_sortedWaiting. split; [|done].
      apply list_elem_of_fmap. exists (nd_parent n). split; [done|]. apply Hparents. split; [done|]. set_solver. }
  destruct (ready_loop_spec (size (rg_pending r)) ready r false) as (r' & -> & Hr' & Hf & Hd & Hk & Hnil); [done| |done|done|].
  - unfold ready. clear -Hnd Hr. induction parents as [|p ps IH]; simpl; [constructor|].
    apply NoDup_cons in Hnd as [Hp Hnd]. apply NoDup_app. split; [apply NoDup_sortedWaiting|]. split; [|by apply IH].
    intros id Hid%elem_of_sortedWaiting. rewrite elem_of_concat.
    intros (l & (q & -> & Hq)%list_elem_of_fmap & Hid'%elem_of_sortedWaiting).
    fold (waiting r p) in Hid. fold (waiting r q) in Hid'.
    apply (st_waiting r Hr) in Hid as (n & Hn & <-), Hid' as (n' & Hn' & <-). congruence.
  - eexists r', _. split; [done|]. split_and!; try done. intros Hdr. assert (ready = []) as Hn.
    { destruct ready as [|id l] eqn:E; [done|]. destruct (proj1 (Hready id)) as (n & Hn & Hi); [by left|].
      by destruct (Hdr id n Hn). }
    rewrite Hn. auto.
Qed.
