(* ===== verification/RGAPlan.v ===== *)
(** * Planning and integrating a delta

    [planDelta], [integrateResolved] and [buildSequence] visit the nodes that
    hang under the integrated ones breadth first. [bfs] is that order; it takes
    every node after its parent, and leaves only nodes whose ancestors are
    missing. *)

From S2P Require Import Prelude Utf8 Tags Forest Clock Sequence SequenceTheory Frame RGA RGAOrder RGATree RGAStore.

(** ** The visiting order *)

Fixpoint bfs (fuel : nat) (children : gmap Position (list Position)) (ready : list Position) : list Position :=
  match fuel, ready with
  | S fuel', id :: ready' => id :: bfs fuel' children (ready' ++ children_of children id)
  | _, _ => []
  end.

(** The planned nodes of a list, added to [nodes]. *)
Definition absorb (planned nodes : gmap Position node) (l : list Position) : gmap Position node :=
  foldl (λ m id, match planned !! id with Some n => <[id := n]> m | None => m end) nodes l.

(** Every node of [l] is planned, new, and comes after its parent. *)
Fixpoint parent_first (planned nodes : gmap Position node) (l : list Position) : Prop :=
  match l with
  | [] => True
  | id :: l' =>
      ∃ n, planned !! id = Some n ∧ nodes !! id = None ∧ integrable nodes (nd_parent n) ∧
        parent_first planned (<[id := n]> nodes) l'
  end.

(** The children of a position among the planned nodes. *)
Definition planned_kids (planned : gmap Position node) (p : Position) : list Position :=
  (filter (λ e : Position * node, nd_parent e.2 = p) (map_to_list planned)).*1.

Lemma elem_of_planned_kids planned p q : q ∈ planned_kids planned p ↔ ∃ n, planned !! q = Some n ∧ nd_parent n = p.
Proof.
  unfold planned_kids. rewrite list_elem_of_fmap. split.
  - intros ([q' n] & -> & [Hp Hin%elem_of_map_to_list]%list_elem_of_filter). eauto.
  - intros (n & Hn & Hp). exists (q, n). split; [done|]. apply list_elem_of_filter. by rewrite elem_of_map_to_list.
Qed.

Lemma NoDup_planned (P : Position * node → Prop) `{!∀ e, Decision (P e)} (planned : gmap Position node) :
  NoDup (filter P (map_to_list planned)).*1.
Proof.
  eapply NoDup_fmap_fst; [|apply NoDup_filter, NoDup_map_to_list].
  intros q n1 n2 [_ H1%elem_of_map_to_list]%list_elem_of_filter [_ H2%elem_of_map_to_list]%list_elem_of_filter. congruence.
Qed.

(** The grouping loop. *)
Lemma add_child_spec l children p :
  children_of (foldl add_child children l) p =
  children_of children p ++ (filter (λ e : Position * node, nd_parent e.2 = p) l).*1.
Proof.
  revert children. induction l as [|e l IH]; intros children; cbn [foldl]; [by rewrite app_nil_r|].
  rewrite IH, filter_cons. unfold add_child at 1, children_of at 1. destruct (decide (nd_parent e.2 = p)) as [<-|Hp].
  - rewrite lookup_insert_eq. simpl. by rewrite <-app_assoc.
  - by rewrite lookup_insert_ne.
Qed.

Lemma grouped_spec planned p : children_of (foldl add_child ∅ (map_to_list planned)) p = planned_kids planned p.
Proof. rewrite add_child_spec. done. Qed.

Lemma absorb_lookup planned nodes l q :
  absorb planned nodes l !! q = if decide (q ∈ l ∧ is_Some (planned !! q)) then planned !! q else nodes !! q.
Proof.
  unfold absorb. revert nodes. induction l as [|id l IH]; intros nodes; cbn [foldl].
  { rewrite decide_False; [done|]. by intros [?%elem_of_nil _]. }
  rewrite IH. destruct (decide (q ∈ l ∧ _)) as [[Hq Hs]|Hq].
  - rewrite decide_True; [done|]. split; [by right|done].
  - destruct (planned !! id) as [n|] eqn:Hid; destruct (decide (q = id)) as [->|Hne].
    + rewrite lookup_insert_eq, decide_True; [done|]. rewrite Hid. split; [by left|eauto].
    + rewrite lookup_insert_ne by done. rewrite decide_False; [done|]. rewrite elem_of_cons. naive_solver.
    + rewrite decide_False; [done|]. rewrite Hid. by intros [_ [? ?]].
    + rewrite decide_False; [done|]. rewrite elem_of_cons. naive_solver.
Qed.

Lemma absorb_ext planned planned' nodes l :
  (∀ q, q ∈ l → planned !! q = planned' !! q) → absorb planned nodes l = absorb planned' nodes l.
Proof.
  unfold absorb. revert nodes. induction l as [|id l IH]; intros nodes Heq; cbn [foldl]; [done|].
  rewrite (Heq id) by (by left). apply IH. intros q Hq. apply Heq. by right.
Qed.

Lemma parent_first_ext planned planned' nodes l :
  (∀ q, q ∈ l → planned !! q = planned' !! q) → parent_first planned nodes l → parent_first planned' nodes l.
Proof.
  revert nodes. induction l as [|id l IH]; intros nodes Heq; [done|]. intros (n & Hn & Hid & Hi & Hl).
  exists n. rewrite <-Heq by (by left). split_and!; try done. apply IH; [|done]. intros q Hq. apply Heq. by right.
Qed.

Lemma parent_first_planned planned nodes l :
  parent_first planned nodes l → ∀ id, id ∈ l → is_Some (planned !! id).
Proof.
  revert nodes. induction l as [|q l IH]; intros nodes Hl id; [by intros ?%elem_of_nil|].
  destruct Hl as (n & Hn & _ & _ & Hl). intros [->|Hid]%elem_of_cons; [eauto|]. by eapply IH.
Qed.

(** The visit takes every node that hangs under [nodes]. *)
Lemma bfs_spec fuel children planned nodes ready :
  NoDup ready → (∀ id, id ∈ ready ↔ ∃ n, planned !! id = Some n ∧ integrable nodes (nd_parent n)) →
  (∀ p, ¬ integrable nodes p → children_of children p ≡ₚ planned_kids planned p) →
  (∀ id n, planned !! id = Some n → ¬ integrable nodes id ∧ id ≠ nd_parent n) →
  (size planned <= fuel)%nat →
  let l := bfs fuel children ready in
  NoDup l ∧ parent_first planned nodes l ∧
  (∀ id n, planned !! id = Some n → integrable (absorb planned nodes l) (nd_parent n) → id ∈ l).
Proof.
  revert planned nodes ready. induction fuel as [|fuel IH]; intros planned nodes ready Hnd Hready Hch Hnew Hfuel.
  - assert (planned = ∅) as -> by (apply map_size_empty_iff; lia). cbn. split; [constructor|]. done.
  - destruct ready as [|id ready].
    { cbn. split; [constructor|]. split; [done|]. intros id n Hn Hi. apply Hready. eauto. }
    destruct (proj1 (Hready id)) as (n & Hn & Hpar); [by left|]. apply NoDup_cons in Hnd as [Hid Hnd].
    destruct (Hnew id n Hn) as [Hidn Hself]. cbn [bfs].
    set (planned' := delete id planned). set (nodes' := <[id := n]> nodes).
    assert (∀ p, ¬ integrable nodes' p → ¬ integrable nodes p) as Hmono
      by (intros p; unfold nodes'; rewrite integrable_insert; tauto).
    assert (∀ p, p ≠ nd_parent n → planned_kids planned' p ≡ₚ planned_kids planned p) as Hkids.
    { intros p Hp. apply NoDup_Permutation; [apply NoDup_planned..|]. intros q. rewrite !elem_of_planned_kids.
      unfold planned'. setoid_rewrite lookup_delete_Some. split; [naive_solver|]. intros (n' & Hn' & <-). exists n'.
      split; [|done]. split; [|done]. intros <-. congruence. }
    destruct (IH planned' nodes' (ready ++ children_of children id)) as (Hl & Hpf & Hall).
    + apply NoDup_app. split; [done|]. pose proof (Hch id Hidn) as Hc. split; [|rewrite Hc; apply NoDup_planned].
      intros q Hq Hq'. rewrite Hc in Hq'. apply elem_of_planned_kids in Hq' as (n' & Hn' & Hp). destruct (proj1 (Hready q)) as (n2 & Hn2 & Hi); [by right|].
      congruence.
    + intros q. rewrite elem_of_app. rewrite (Hch id) by done. rewrite elem_of_planned_kids. unfold planned', nodes'.
      setoid_rewrite lookup_delete_Some. setoid_rewrite integrable_insert.
      specialize (Hready q). rewrite elem_of_cons in Hready. split.
      * intros [Hq|(n' & Hn' & Hp)].
        -- destruct (proj1 Hready) as (n' & ? & ?); [by right|]. exists n'. split; [|by right]. split; [by intros ->|done].
        -- exists n'. split; [|by left]. split; [|done]. intros <-. apply (Hnew id n'); [done|]. congruence.
      * intros (n' & [Hq Hn'] & [Hp|Hi]); [by eauto|]. left. destruct (proj2 Hready) as [->|?]; [eauto|done|done].
    + intros p Hp. rewrite Hch by auto. symmetry. apply Hkids. intros ->. apply Hp. unfold nodes'. rewrite integrable_insert. auto.
    + intros q n' [Hq Hn']%lookup_delete_Some. destruct (Hnew q n' Hn') as [Hi ?]. split; [|done]. unfold nodes'.
      rewrite integrable_insert. naive_solver.
    + unfold planned'. rewrite map_size_delete_Some by eauto. lia.
    + set (l := bfs _ _ _) in *. assert (id ∉ l) as Hidl by (intros Hin; destruct (parent_first_planned _ _ _ Hpf id Hin) as [? [? _]%lookup_delete_Some]; done).
      split; [by apply NoDup_cons|]. split.
      * exists n. split_and!; [done| |done|].
        -- apply eq_None_not_Some. intros ?. apply Hidn. by right.
        -- eapply parent_first_ext; [|exact Hpf]. intros q Hq. unfold planned'. apply lookup_delete_ne. by intros ->.
      * intros q n' Hn' Hi. destruct (decide (q = id)) as [->|Hq]; [by left|]. right.
        apply (Hall q n'); [by apply lookup_delete_Some|]. cbn [absorb foldl] in Hi. rewrite Hn in Hi.
        erewrite absorb_ext; [exact Hi|]. intros x Hx. unfold planned'. apply lookup_delete_ne. by intros ->.
Qed.

(** The reachability loop of [planDelta] collects the visited nodes. *)
Lemma resolve_loop_spec fuel children ready resolved :
  NoDup (bfs fuel children ready) → (∀ id, id ∈ bfs fuel children ready → id ∉ resolved) →
  resolve_loop fuel children ready resolved = list_to_set (bfs fuel children ready) ∪ resolved.
Proof.
  revert ready resolved. induction fuel as [|fuel IH]; intros ready resolved Hnd Hnew; [set_solver|].
  destruct ready as [|id ready]; [set_solver|]. cbn [bfs resolve_loop] in *. apply NoDup_cons in Hnd as [Hid Hnd].
  rewrite bool_decide_false by (apply Hnew; by left). rewrite IH; [set_solver|done|].
  intros q Hq [->%elem_of_singleton|Hr]%elem_of_union; [done|]. apply (Hnew q); [by right|done].
Qed.

(** ** Rooted nodes *)

(** A node whose ancestors are all known. *)
Inductive rooted (K : gmap Position node) : Position → Prop :=
| rooted_top : rooted K zeroTag
| rooted_node id n : K !! id = Some n → rooted K (nd_parent n) → rooted K id.

Lemma rooted_mono K K' id : K ⊆ K' → rooted K id → rooted K' id.
Proof.
  intros HK. induction 1 as [|id n Hn _ IH]; [constructor|]. apply (rooted_node _ id n); [|done]. by eapply lookup_weaken.
Qed.

(** The nodes of a tree are rooted. *)
Lemma tree_rooted nodes T index : links_ok nodes T index → ∀ id, is_Some (nodes !! id) → rooted nodes id.
Proof.
  intros [_ Hord Hnodes _ _] id Hid. assert ((id, false) ∈ ids (si_links index)) as Hin by (apply Hnodes; by right).
  clear Hid. assert (∀ c, c ∈ [zeroTag] → rooted nodes c) as Hroot by (intros c ->%list_elem_of_singleton; constructor).
  revert Hord Hin Hroot. generalize (ids (si_links index)) [zeroTag].
  induction 1 as [|c cs lc l _ IHc _ IHl]; [by intros ?%elem_of_nil|]. intros Hin Hroot.
  rewrite elem_of_cons, elem_of_app, elem_of_cons in Hin. destruct Hin as [[= ->]|[Hin|[[=]|Hin]]].
  - apply Hroot. by left.
  - apply IHc; [done|]. intros q (n & Hn & Hp)%elem_of_kids. apply (rooted_node _ q n); [done|]. rewrite Hp. apply Hroot. by left.
  - apply IHl; [done|]. intros q Hq. apply Hroot. by right.
Qed.

(** A store without ready nodes has integrated exactly the rooted ones. *)
Lemma rooted_integrated r id :
  store_ok r → drained r → rooted (known r) id → integrable (rg_nodes r) id.
Proof.
  intros Hr Hd. induction 1 as [|id n Hn _ IH]; [by left|].
  apply lookup_union_Some_raw in Hn as [Hn|[_ Hn]]; [right; eauto|]. by destruct (Hd id n).
Qed.

Lemma integrated_rooted r id : store_ok r → integrable (rg_nodes r) id → rooted (known r) id.
Proof.
  intros Hr [->|Hid]; [constructor|]. apply (rooted_mono (rg_nodes r)); [apply map_union_subseteq_l|].
  eapply tree_rooted; [|done]. apply (tree_links _ _ _ _ (st_tree r Hr)).
Qed.

(** So the known nodes determine the integrated ones. *)
Lemma integrated_determined r r' :
  store_ok r → drained r → store_ok r' → drained r' → known r = known r' → rg_nodes r = rg_nodes r'.
Proof.
  assert (∀ r r', store_ok r → store_ok r' → drained r' → known r = known r' → ∀ id n,
    rg_nodes r !! id = Some n → rg_nodes r' !! id = Some n) as H.
  { intros r1 r2 H1 H2 Hd Hk id n Hn.
    destruct (rooted_integrated r2 id H2 Hd) as [->|[n' Hn']].
    - rewrite <-Hk. apply integrated_rooted; [done|right; eauto].
    - pose proof (tree_root _ _ _ (tree_links _ _ _ _ (st_tree r1 H1))). congruence.
    - rewrite Hn'. f_equal. apply known_node in Hn, Hn'. congruence. }
  intros Hr Hd Hr' Hd' Hk. apply map_eq. intros id. apply option_eq. intros n. split; eauto.
Qed.

Lemma pending_determined r r' :
  store_ok r → store_ok r' → known r = known r' → rg_nodes r = rg_nodes r' → rg_pending r = rg_pending r'.
Proof.
  intros Hr Hr' Hk Hn. apply (map_union_cancel_l _ _ (rg_nodes r)).
  - symmetry. apply (st_disjoint r Hr).
  - rewrite Hn. symmetry. apply (st_disjoint r' Hr').
  - unfold known in Hk. by rewrite Hk, Hn.
Qed.

(** ** The plan *)

Lemma parent_first_rooted planned nodes K l :
  parent_first planned nodes l → planned ⊆ K → (∀ p, integrable nodes p → rooted K p) →
  ∀ id, id ∈ l → rooted K id.
Proof.
  intros Hl HK. revert nodes Hl. induction l as [|q l IH]; intros nodes Hl Hn id; [by intros ?%elem_of_nil|].
  destruct Hl as (n & Hq & _ & Hi & Hl).
  assert (rooted K q) as Hrq by (apply (rooted_node _ q n); [by eapply lookup_weaken|by apply Hn]).
  intros [->|Hid]%elem_of_cons; [done|]. apply (IH _ Hl); [|done].
  intros p. rewrite integrable_insert. intros [->|?]; auto.
Qed.

(** The nodes a delta would add. *)
Definition planned_of (r : RGA) (delta : Delta) : gmap Position node :=
  filter (λ e : Position * node, rg_nodes r !! e.1 = None ∧ rg_pending r !! e.1 = None) (dl_nodes delta).

Lemma validateDelta_Ok delta :
  validateDelta delta = Ok tt ↔
  map_Forall node_wf (dl_nodes delta) ∧ (∀ id, id ∈ dl_tombstones delta → Valid id = true).
Proof.
  unfold validateDelta. destruct (forallb _ (map_to_list _)) eqn:E1; [destruct (forallb _ (elements _)) eqn:E2|]; cbn [negb].
  - split; [|done]. intros _. split.
    + intros id n Hn. eapply forallb_elem in E1; [|by apply elem_of_map_to_list]. cbn [fst snd] in E1. breflect.
      unfold node_wf. split_and!; try done. destruct (decide (nd_parent n = zeroTag)); [by left|right].
      match goal with H : bool_decide _ = true ∨ _ |- _ => destruct H as [?%bool_decide_eq_true|?]; done end.
    + intros id Hid. eapply forallb_elem in E2; [done|]. by apply elem_of_elements.
  - split; [done|]. intros [_ Ht]. apply forallb_false in E2 as (id & Hid%elem_of_elements & Hv). by rewrite Ht in Hv.
  - split; [done|]. intros [Hw _]. apply forallb_false in E1 as ([id n] & Hid%elem_of_map_to_list & Hv).
    destruct (Hw id n Hid) as (H1 & H2 & H3 & H4). cbn [fst snd] in Hv. rewrite H1, H2 in Hv.
    rewrite (bool_decide_eq_false_2 (id = _)) in Hv by done. destruct H3 as [H3|H3].
    + by rewrite bool_decide_eq_true_2 in Hv by done.
    + by rewrite H3, orb_true_r in Hv.
Qed.

Section plan.
Context (r : RGA) (Hr : store_ok r) (planned : gmap Position node).
Hypothesis Hnew : ∀ id n, planned !! id = Some n → node_wf id n ∧ rg_nodes r !! id = None ∧ rg_pending r !! id = None.

Lemma planned_fresh id n : planned !! id = Some n → ¬ integrable (rg_nodes r) id ∧ id ≠ nd_parent n.
Proof using Hnew.
  intros Hn. destruct (Hnew id n Hn) as ((Hv & _ & _ & Hs) & Hid & _). split; [|done].
  intros [->|[? ?]]; [done|congruence].
Qed.

Lemma resolved_list children roots :
  (∀ p, children_of children p ≡ₚ planned_kids planned p) → NoDup roots →
  (∀ id, id ∈ roots ↔ ∃ n, planned !! id = Some n ∧ integrable (rg_nodes r) (nd_parent n)) →
  let l := bfs (size planned) children roots in
  NoDup l ∧ parent_first planned (rg_nodes r) l ∧
  (∀ id, id ∈ l ↔ is_Some (planned !! id) ∧ rooted (rg_nodes r ∪ planned) id).
Proof using Hnew Hr.
  intros Hch Hnd Hroots l.
  destruct (bfs_spec (size planned) children planned (rg_nodes r) roots) as (Hl & Hpf & Hall);
    [done|done|auto|apply planned_fresh|done|]. fold l in Hl, Hpf, Hall.
  assert (rg_nodes r ##ₘ planned) as Hdisj.
  { apply map_disjoint_spec. intros id n1 n2 H1 H2. destruct (Hnew id n2 H2) as (_ & ? & _). congruence. }
  set (K := rg_nodes r ∪ planned).
  assert (∀ p, integrable (rg_nodes r) p → rooted K p) as Hold.
  { intros p [->|Hp]; [constructor|]. apply (rooted_mono (rg_nodes r)); [apply map_union_subseteq_l|].
    eapply tree_rooted; [|done]. apply (tree_links _ _ _ _ (st_tree r Hr)). }
  assert (∀ q, rooted K q → integrable (absorb planned (rg_nodes r) l) q) as Habs.
  { induction 1 as [|q n Hn _ IH]; [by left|]. right. rewrite absorb_lookup. unfold K in Hn.
    apply lookup_union_Some in Hn as [Hn|Hn]; [| |done].
    - case_decide as Hq; [apply Hq|eauto].
    - rewrite decide_True; [eauto|]. split; [by apply (Hall q n)|eauto]. }
  split; [done|]. split; [done|]. intros id. split.
  - intros Hid. split; [by eapply parent_first_planned|].
    eapply parent_first_rooted; [done|by apply map_union_subseteq_r|done|done].
  - intros [[n Hn] Hrt]. apply (Hall id n Hn), Habs.
    destruct Hrt as [|id n' Hn' Hp]; [destruct (Hnew _ _ Hn) as ((? & _) & _); done|].
    assert (n' = n) as ->; [|done]. unfold K in Hn'. rewrite lookup_union_r in Hn' by apply (Hnew id n Hn). congruence.
Qed.
End plan.

Lemma planned_of_new r delta id n :
  map_Forall node_wf (dl_nodes delta) → planned_of r delta !! id = Some n →
  node_wf id n ∧ rg_nodes r !! id = None ∧ rg_pending r !! id = None.
Proof. intros Hw [Hn [? ?]]%map_lookup_filter_Some. split; [by apply Hw|done]. Qed.

Lemma sorted_children (children : gmap Position (list Position)) p :
  children_of (sortPositions <$> children) p = sortPositions (children_of children p).
Proof. unfold children_of. rewrite lookup_fmap. by destruct (children !! p). Qed.

(** [planDelta] finds the new nodes, the children of each and the roots, and
    counts those that are not rooted. *)
Lemma planDelta_spec r delta :
  store_ok r → map_Forall node_wf (dl_nodes delta) →
  let plan := planDelta r delta in let planned := planned_of r delta in
  pl_nodes plan = planned ∧ (∀ p, children_of (pl_children plan) p ≡ₚ planned_kids planned p) ∧
  NoDup (pl_roots plan) ∧
  (∀ id, id ∈ pl_roots plan ↔ ∃ n, planned !! id = Some n ∧ integrable (rg_nodes r) (nd_parent n)) ∧
  ∃ S : gset Position, (∀ id, id ∈ S ↔ is_Some (planned !! id) ∧ rooted (rg_nodes r ∪ planned) id) ∧
    pl_pendingNodes plan = len (filter (λ e, e.1 ∉ S) (map_to_list planned)) ∧
    pl_pendingBytes plan = bytes_of (filter (λ e, e.1 ∉ S) (map_to_list planned)).
Proof.
  intros Hr Hw. unfold planDelta. fold (planned_of r delta). set (planned := planned_of r delta).
  set (children := foldl add_child ∅ _). set (roots := (filter _ (map_to_list planned)).*1).
  pose proof (planned_of_new r delta) as Hnew. fold planned in Hnew.
  assert (∀ id, id ∈ roots ↔ ∃ n, planned !! id = Some n ∧ integrable (rg_nodes r) (nd_parent n)) as Hroots.
  { intros id. unfold roots. rewrite list_elem_of_fmap. split.
    - intros ([q n] & -> & [Hp Hin%elem_of_map_to_list]%list_elem_of_filter). exists n. split; [done|].
      destruct (Hnew q n Hw Hin) as ((_ & _ & Hpar & _) & _). cbn [fst snd] in Hp.
      destruct Hp as [Hp|Hp]; [left|by right]. destruct Hpar; [done|congruence].
    - intros (n & Hn & Hi). exists (id, n). split; [done|]. apply list_elem_of_filter. rewrite elem_of_map_to_list.
      split; [|done]. cbn [snd]. destruct Hi as [->|?]; [by left|by right]. }
  assert (∀ p, children_of children p ≡ₚ planned_kids planned p) as Hch by (intros p; unfold children; by rewrite grouped_spec).
  assert (NoDup roots) as Hnd by apply NoDup_planned.
  destruct (resolved_list r Hr planned (λ id n, Hnew id n Hw) children roots Hch Hnd Hroots) as (Hl & _ & Hres).
  assert (resolve_loop (size planned) children roots ∅ = list_to_set (bfs (size planned) children roots)) as ->.
  { rewrite resolve_loop_spec; [set_solver|done|set_solver]. }
  set (S := list_to_set (bfs _ _ _)).
  assert (∀ id, id ∈ S ↔ is_Some (planned !! id) ∧ rooted (rg_nodes r ∪ planned) id) as HS
    by (intros id; unfold S; rewrite elem_of_list_to_set; apply Hres).
  destruct (_ =? 0); cbn [pl_nodes pl_children pl_roots pl_pendingNodes pl_pendingBytes]; (split; [done|]).
  - split; [intros p; rewrite sorted_children; unfold sortPositions; by rewrite (sort_by_perm Compare)|].
    unfold sortPositions. setoid_rewrite (sort_by_perm Compare roots). split_and!; [done|done|]. by exists S.
  - split_and!; [done..|]. by exists S.
Qed.

(** ** Integrating a resolved plan *)

Lemma integrate_new r id item :
  store_ok r → node_wf id item → rg_nodes r !! id = None → rg_pending r !! id = None →
  integrable (rg_nodes r) (nd_parent item) →
  ∃ r', integrateNode (set_nodes r (<[id := item]> (rg_nodes r))) id item = Some r' ∧ store_ok r' ∧ same_frame r r' ∧
    rg_nodes r' = <[id := item]> (rg_nodes r) ∧ rg_pending r' = rg_pending r.
Proof.
  intros Hr Hw Hn Hp Hi. destruct Hw as (Hv & Hw).
  destruct (tree_integrate (rg_nodes r) (rg_tombstones r) (rg_sequence r) (rg_branches r)
    (set_nodes r (<[id := item]> (rg_nodes r))) id item) as (index & branches & -> & Htree);
    [apply (st_tree r Hr)|done|by intros ->|done|apply Hw|done..|].
  eexists. split; [done|]. split; [|done]. split; try apply Hr.
  - done.
  - apply map_disjoint_insert_l. split; [done|apply (st_disjoint r Hr)].
  - intros q n. unfold known. cbn [rg_nodes rg_pending set_sequence set_nodes]. rewrite <-insert_union_l.
    intros [[<- <-]|[_ Hq]]%lookup_insert_Some; [by split|]. by apply (st_wf r Hr).
Qed.

Lemma resolved_loop_spec fuel plan ready r :
  store_ok r → (∀ id n, pl_nodes plan !! id = Some n → node_wf id n ∧ rg_pending r !! id = None) →
  parent_first (pl_nodes plan) (rg_nodes r) (bfs fuel (pl_children plan) ready) →
  ∃ r', resolved_loop fuel plan ready r = Some r' ∧ store_ok r' ∧ same_frame r r' ∧
    rg_nodes r' = absorb (pl_nodes plan) (rg_nodes r) (bfs fuel (pl_children plan) ready) ∧
    rg_pending r' = rg_pending r.
Proof.
  revert ready r. induction fuel as [|fuel IH]; intros ready r Hr Hnew Hpf; [by exists r|].
  destruct ready as [|id ready]; [by exists r|]. cbn [bfs] in Hpf. destruct Hpf as (n & Hn & Hid & Hi & Hpf).
  destruct (Hnew id n Hn) as [Hw Hp]. destruct (integrate_new r id n Hr Hw Hid Hp Hi) as (r1 & Hint & Hr1 & Hf & Hn1 & Hp1).
  cbn [resolved_loop]. rewrite Hn. change (default _ (Some n)) with n. rewrite Hint.
  destruct (IH (ready ++ children_of (pl_children plan) id) r1) as (r' & -> & Hr' & Hf' & Hn' & Hp'); [done|..].
  - by rewrite Hp1.
  - by rewrite Hn1.
  - exists r'. split; [done|]. split; [done|]. split; [by transitivity r1|]. rewrite Hn', Hn1, Hp', Hp1. split; [|done].
    cbn [bfs absorb foldl]. by rewrite Hn.
Qed.

(** Queueing the planned nodes. *)
Lemma enqueuePending_spec r id item :
  store_ok r → node_wf id item → rg_nodes r !! id = None → rg_pending r !! id = None →
  store_ok (enqueuePending r (id, item)) ∧ known (enqueuePending r (id, item)) = <[id := item]> (known r).
Proof.
  intros Hr Hw Hn Hp. assert (known (enqueuePending r (id, item)) = <[id := item]> (known r)) as Hk.
  { unfold known. cbn [rg_nodes rg_pending enqueuePending set_pending]. symmetry. by apply insert_union_r. }
  split; [|done]. split; cbn [enqueuePending set_pending rg_nodes rg_pending rg_waitingByParent rg_pendingBytes rg_sequence
    rg_branches rg_tombstones].
  - apply Hr.
  - apply map_disjoint_insert_r. split; [done|apply Hr].
  - intros p q. unfold waiting. cbn [enqueuePending set_pending rg_waitingByParent]. fold (waiting r (nd_parent item)).
    setoid_rewrite lookup_insert_Some. destruct (decide (p = nd_parent item)) as [->|Hpar].
    + rewrite lookup_insert_eq. change (default ∅ (Some ?x)) with x. rewrite elem_of_union, elem_of_singleton, (st_waiting r Hr). split.
      * intros [->|(n & Hq & ?)]; [by eauto|]. exists n. split; [|done]. right. split; [|done]. congruence.
      * intros (n & [[<- <-]|[_ Hq]] & ?); [by left|]. right. eauto.
    + rewrite lookup_insert_ne by done. fold (waiting r p). rewrite (st_waiting r Hr). split.
      * intros (n & Hq & ?). exists n. split; [|done]. right. split; [|done]. congruence.
      * intros (n & [[<- <-]|[_ Hq]] & <-); [done|]. eauto.
  - intros p s [[<- <-]|[_ Hs]]%lookup_insert_Some; [set_solver|]. by eapply (st_nonempty r Hr).
  - rewrite (bytes_insert id item) by done. rewrite (st_bytes r Hr). lia.
  - change (∀ q n, known (enqueuePending r (id, item)) !! q = Some n → node_wf q n). rewrite Hk. intros q n [[<- <-]|[_ Hq]]%lookup_insert_Some; [done|]. by apply (st_wf r Hr).
Qed.

Lemma enqueue_all r l :
  store_ok r → NoDup l.*1 → (∀ id n, (id, n) ∈ l → node_wf id n ∧ rg_nodes r !! id = None ∧ rg_pending r !! id = None) →
  let r' := foldl enqueuePending r l in
  store_ok r' ∧ same_frame r r' ∧ rg_nodes r' = rg_nodes r ∧ known r' = known r ∪ list_to_map l.
Proof.
  revert r. induction l as [|[id n] l IH]; intros r Hr Hnd Hnew; cbn [foldl].
  { simpl. by rewrite (right_id_L ∅ (∪)). }
  apply NoDup_cons in Hnd as [Hid Hnd]. destruct (Hnew id n) as (Hw & Hn & Hp); [by left|].
  destruct (enqueuePending_spec r id n Hr Hw Hn Hp) as [Hr1 Hk1].
  destruct (IH (enqueuePending r (id, n)) Hr1 Hnd) as (Hr' & Hf' & Hn' & Hk').
  - intros q m Hq. destruct (Hnew q m) as (? & ? & Hq'); [by right|]. split_and!; try done.
    cbn [enqueuePending set_pending rg_pending]. rewrite lookup_insert_ne; [done|]. intros ->. apply Hid. apply list_elem_of_fmap.
    by exists (q, m).
  - split; [done|]. split; [by transitivity (enqueuePending r (id, n))|]. split; [done|]. rewrite Hk', Hk1.
    rewrite list_to_map_cons, <-insert_union_l. apply insert_union_r. unfold known. by apply lookup_union_None.
Qed.
