(* ===== verification/RGAAcyclic.v ===== *)
(** * The cycle check of the RGA

    [acyclicAgainst] colours the nodes on the way up from every incoming node. It
    accepts exactly the deltas all of whose nodes reach an unknown position. *)

From S2P Require Import Prelude Utf8 Tags Clock Sequence SequenceTheory Frame Forest RGA RGAOrder RGATree RGAStore RGAPlan.

Abbreviation ends := (Forest.ends nd_parent).

Lemma acyclicAgainst_spec (incoming pending : gmap Position node) :
  (∀ id n, (incoming ∪ pending) !! id = Some n → Valid id = true) →
  acyclicAgainst incoming pending = true ↔ ∀ id, is_Some (incoming !! id) → ends (incoming ∪ pending) id.
Proof. intros Hvalid. apply acyclic_check_spec; [done|lia]. Qed.

(** C24: the cycle check returns. The source's walk up the parents has no bound of its
    own; with one step per node that can be coloured it is over, since more steps
    change nothing, and it accepts exactly the deltas from all of whose nodes the
    way up ends. *)
Theorem acyclicAgainst_terminates (incoming pending : gmap Position node) (fuel : nat)
    (Hvalid : ∀ id n, (incoming ∪ pending) !! id = Some n → Valid id = true)
    (Hfuel : (size incoming + size pending < fuel)%nat) :
  acyclic_loop nd_parent fuel incoming pending ∅ (map_to_list incoming).*1 = acyclicAgainst incoming pending ∧
  (acyclicAgainst incoming pending = true ↔ ∀ id, is_Some (incoming !! id) → ends (incoming ∪ pending) id).
Proof.
  split; [|by apply acyclicAgainst_spec]. apply eq_true_iff_eq.
  rewrite (acyclicAgainst_spec incoming pending Hvalid). by apply acyclic_check_spec.
Qed.

(** Two nodes that are each other's parent are refused, whatever the bound. *)
Lemma acyclicAgainst_terminates_witness :
  let p := mkTag (str "a") 1 0 in let q := mkTag (str "a") 2 0 in
  let incoming : gmap Position node := {[p := mkNode q 65]} in let pending : gmap Position node := {[q := mkNode p 66]} in
  acyclic_loop nd_parent 100 incoming pending ∅ (map_to_list incoming).*1 = false.
Proof.
  intros p q incoming pending.
  assert (acyclicAgainst incoming pending = false) as <- by (vm_compute; reflexivity).
  apply (acyclicAgainst_terminates incoming pending 100).
  - intros id n [Hn|[_ Hn]]%lookup_union_Some_raw; apply lookup_singleton_Some in Hn as [<- _]; reflexivity.
  - vm_compute. lia.
Defined.
