(* ===== verification/RGATheory.v ===== *)
(** * Applying deltas to an RGA

    The invariant of a replica and what [ApplyDelta] and [Merge] do to it: the
    known nodes and the tombstones grow by the delta's, and the integrated text
    is the depth-first reading of the rooted nodes. *)

From S2P Require Import Prelude Utf8 Tags Forest Clock Sequence SequenceTheory Frame RGA RGAOrder RGATree RGAStore RGAPlan RGAAcyclic.

(** ** The invariant *)

(** The tags of nodes, parents and tombstones. *)
Definition tagged (K : gmap Position node) (T : gset Position) (t : Tag) : Prop :=
  is_Some (K !! t) ∨ (∃ q n, K !! q = Some n ∧ nd_parent n = t ∧ Valid t = true) ∨ t ∈ T.

(** The clock of [r] has seen every tag of [K] and [T]. *)
Definition clock_covers (c : ptr HLC) (id : bytes) (K : gmap Position node) (T : gset Position) : Prop :=
  ∃ h, c = Some h ∧ hlc_wf h ∧ replicaID h = id ∧ ∀ t, tagged K T t → tag_wf t ∧ ts_le t (hlc_tag h).

(** The configured limits. *)
Definition within_limits (r : RGA) : Prop :=
  Z.of_nat (size (known r)) <= MaxNodes (rg_options r) ∧
  Z.of_nat (size (rg_tombstones r)) <= MaxTombstones (rg_options r) ∧
  Z.of_nat (size (rg_pending r)) <= MaxPendingNodes (rg_options r) ∧
  rg_pendingBytes r <= MaxPendingBytes (rg_options r).

Record rga_wf (r : RGA) : Prop := {
  wf_store : store_ok r;
  wf_drained : drained r;
  wf_acyclic id : ends (known r) id;
  wf_tombstones t : t ∈ rg_tombstones r → Valid t = true;
  wf_clock : clock_covers (rg_clock r) (rg_replicaID r) (known r) (rg_tombstones r);
  wf_limits : within_limits r
}.

(** The fields of a delta's tags are 64-bit. *)
Definition delta_wf (d : Delta) : Prop := ∀ t, tagged (dl_nodes d) (dl_tombstones d) t → tag_wf t.

Lemma store_clock r c : store_ok r → store_ok (set_clock r c).
Proof. intros [? ? ? ? ? ?]. by split. Qed.

(** ** Tombstones *)

Lemma apply_tombstones r ts :
  store_ok r →
  let '(r', c) := applyTombstonesLocked r ts in
  store_ok r' ∧ rg_nodes r' = rg_nodes r ∧ rg_pending r' = rg_pending r ∧
  rg_tombstones r' = rg_tombstones r ∪ ts ∧ rg_clock r' = rg_clock r ∧ rg_options r' = rg_options r ∧
  rg_replicaID r' = rg_replicaID r ∧ rg_version r' = rg_version r ∧ (ts ⊆ rg_tombstones r → r' = r ∧ c = false).
Proof.
  intros Hr. unfold applyTombstonesLocked.
  assert (∀ l acc, store_ok acc.1 → let '(r', c) := foldl apply_tombstone acc l in
    store_ok r' ∧ rg_nodes r' = rg_nodes acc.1 ∧ rg_pending r' = rg_pending acc.1 ∧
    rg_tombstones r' = rg_tombstones acc.1 ∪ list_to_set l ∧ rg_clock r' = rg_clock acc.1 ∧
    rg_options r' = rg_options acc.1 ∧ rg_replicaID r' = rg_replicaID acc.1 ∧ rg_version r' = rg_version acc.1 ∧
    (list_to_set l ⊆ rg_tombstones acc.1 → r' = acc.1 ∧ c = acc.2)) as H.
  2: { specialize (H (elements ts) (r, false) Hr). destruct (foldl _ _ _). by rewrite list_to_set_elements_L in H. }
  clear r Hr. induction l as [|id l IH]; intros [r c] Hr; cbn [foldl fst snd] in *.
  { split_and!; try done. set_solver. }
  unfold apply_tombstone at 2. case_bool_decide as Hid.
  - specialize (IH (r, c) Hr). destruct (foldl _ _ l) as [r' c'].
    destruct IH as (? & ? & ? & HT & ? & ? & ? & ? & Hsame). cbn [fst snd] in *. split_and!; try done.
    + rewrite HT. set_solver.
    + intros Hsub. apply Hsame. set_solver.
  - set (r1 := set_sequence _ _ _). assert (store_ok r1) as Hr1.
    { pose proof (tree_hide _ _ _ _ id (st_tree r Hr)). destruct Hr. by split. }
    specialize (IH (r1, true) Hr1). destruct (foldl _ _ l) as [r' c'].
    destruct IH as (? & ? & ? & HT & ? & ? & ? & ? & Hsame). cbn [fst snd] in *. split_and!; try done.
    + rewrite HT. cbn [rg_tombstones r1 set_sequence set_tombstones]. set_solver.
    + set_solver.
Qed.

(** What [applyDeltaLocked] ends with. *)
Lemma finish_apply_spec r delta changed :
  store_ok r →
  ∃ r', finish_apply r delta changed = (r', Ok tt) ∧ store_ok r' ∧ drained r' ∧ known r' = known r ∧
    rg_tombstones r' = rg_tombstones r ∪ dl_tombstones delta ∧ rg_clock r' = rg_clock r ∧
    rg_options r' = rg_options r ∧ rg_replicaID r' = rg_replicaID r ∧
    (changed = true → rg_version r' = u64 (rg_version r + 1)).
Proof.
  intros Hr. unfold finish_apply. destruct (integrateReady_spec r Hr) as (r1 & c & -> & Hr1 & Hf & Hd & Hk & _).
  pose proof (apply_tombstones r1 (dl_tombstones delta) Hr1) as Ht.
  destruct (applyTombstonesLocked _ _) as [r2 hidden]. destruct Ht as (Hr2 & Hn & Hp & HT & Hc & Ho & Hi & Hv & _).
  destruct Hf as (Fi & Fc & Fo & FT & Fv).
  exists (bump_version r2 (changed || c || hidden)). split; [done|]. assert (∀ b, store_ok (bump_version r2 b)) as Hb.
  { intros [|]; [|done]. destruct Hr2. by split. }
  split; [apply Hb|]. unfold drained, known.
  assert (∀ b, rg_nodes (bump_version r2 b) = rg_nodes r2 ∧ rg_pending (bump_version r2 b) = rg_pending r2 ∧
    rg_tombstones (bump_version r2 b) = rg_tombstones r2 ∧ rg_clock (bump_version r2 b) = rg_clock r2 ∧
    rg_options (bump_version r2 b) = rg_options r2 ∧ rg_replicaID (bump_version r2 b) = rg_replicaID r2) as Hbs
    by (by intros []).
  destruct (Hbs (changed || c || hidden)) as (-> & -> & -> & -> & -> & ->).
  rewrite Hn, Hp. split_and!; [exact Hd|exact Hk|congruence..|].
  intros ->. cbn [orb bump_version rg_version]. congruence.
Qed.

(** ** The linear run *)

Lemma sortedNodeIDs_spec (nodes : gmap Position node) :
  increasing Compare (sortedNodeIDs nodes) ∧ (∀ id, id ∈ sortedNodeIDs nodes ↔ is_Some (nodes !! id)) ∧
  length (sortedNodeIDs nodes) = size nodes.
Proof.
  unfold sortedNodeIDs, sortPositions. split_and!.
  - apply sort_by_increasing; [apply _|]. apply NoDup_fst_map_to_list.
  - intros id. rewrite (sort_by_perm Compare), list_elem_of_fmap. split.
    + intros ([q n] & -> & Hn%elem_of_map_to_list). by exists n.
    + intros [n Hn]. exists (id, n). by rewrite elem_of_map_to_list.
  - rewrite (Permutation_length (sort_by_perm Compare _)), length_fmap. apply length_map_to_list.
Qed.

Lemma cached_ok_spec nodes previous ids :
  cached_ok nodes previous ids = true →
  increasing Compare ids ∧ (∀ id, id ∈ ids → is_Some (nodes !! id)) ∧
  (∀ p id, previous = Some p → id ∈ ids → Compare p id < 0).
Proof.
  revert previous. induction ids as [|id ids IH]; intros previous; cbn [cached_ok].
  { intros _. split_and!; [constructor|by intros ? ?%elem_of_nil|by intros ? ? _ ?%elem_of_nil]. }
  intros [[Hp Hn%bool_decide_eq_true]%andb_true_iff H]%andb_true_iff. destruct (IH _ H) as (Hinc & Hin & Hlt). split_and!.
  - constructor; [done|]. apply Forall_forall. intros q Hq. by apply Hlt.
  - intros q [->|Hq]%elem_of_cons; auto.
  - intros p q ->. apply negb_true_iff, Z.leb_gt in Hp. apply (cmp_gt_lt Compare) in Hp.
    intros [->|Hq]%elem_of_cons; [done|]. apply (cmp_trans Compare p id q); [done|]. by apply Hlt.
Qed.

(** The order that a delta carries, when it is used, is the canonical one. *)
Lemma cachedCanonicalNodeIDs_spec d ids :
  cachedCanonicalNodeIDs d = Some ids → ids = sortedNodeIDs (dl_nodes d).
Proof.
  unfold cachedCanonicalNodeIDs. set (l := dl_canonicalNodeIDs d).
  destruct (_ || _) eqn:Hl; [done|]. destruct (cached_ok _ _ _) eqn:Hc; [|done]. intros [= <-].
  apply orb_false_iff in Hl as [_ Hl%negb_false_iff%Z.eqb_eq]. destruct (cached_ok_spec _ _ _ Hc) as (Hinc & Hin & _).
  destruct (sortedNodeIDs_spec (dl_nodes d)) as (Hinc' & Hin' & Hlen).
  apply (increasing_ext Compare); [done..|]. intros id. assert (l ≡ₚ sortedNodeIDs (dl_nodes d)) as ->; [|done].
  apply submseteq_length_Permutation.
  - apply NoDup_submseteq; [by apply (increasing_NoDup Compare)|]. intros q Hq. by apply Hin', Hin.
  - rewrite Hlen. unfold len in *. lia.
Qed.

Lemma linear_ok_spec r delta id0 previous l :
  linear_ok r delta id0 previous l = true →
  (∀ id, id ∈ l → rg_nodes r !! id = None ∧ rg_pending r !! id = None) ∧
  match previous with
  | Some p => chain (delta_node delta) p l
  | None => match l with [] => True | id :: _ => chain (delta_node delta) (nd_parent (delta_node delta id)) l end
  end.
Proof.
  revert previous. induction l as [|id l IH]; intros previous; cbn [linear_ok].
  { intros _. split; [by intros ? ?%elem_of_nil|by destruct previous]. }
  intros [[[[_ Hn%bool_decide_eq_true]%andb_true_iff Hp%bool_decide_eq_true]%andb_true_iff Hpar]%andb_true_iff H]%andb_true_iff.
  destruct (IH _ H) as [Hin Hch]. split.
  - intros q [->|Hq]%elem_of_cons; auto.
  - destruct previous as [p|]; [apply bool_decide_eq_true in Hpar|]; done.
Qed.

Lemma resolvedLinearRun_clock r delta c : resolvedLinearRunLocked (set_clock r c) delta = resolvedLinearRunLocked r delta.
Proof.
  assert (∀ id previous l, linear_ok (set_clock r c) delta id previous l = linear_ok r delta id previous l) as H.
  { intros id previous l. revert previous. induction l as [|q l IH]; intros previous; cbn [linear_ok]; [done|]. by rewrite IH. }
  unfold resolvedLinearRunLocked. by rewrite H.
Qed.

(** The fast path is taken for new nodes that form one chain under an integrated
    node. *)
Lemma resolvedLinearRun_spec r delta l :
  map_Forall node_wf (dl_nodes delta) → resolvedLinearRunLocked r delta = Some l →
  ∃ first run, l = first :: run ∧ NoDup l ∧ (∀ id, id ∈ l ↔ is_Some (dl_nodes delta !! id)) ∧
    len l = Z.of_nat (size (dl_nodes delta)) ∧
    chain (delta_node delta) (nd_parent (delta_node delta first)) l ∧
    integrable (rg_nodes r) (nd_parent (delta_node delta first)) ∧
    (∀ id, id ∈ l → rg_nodes r !! id = None ∧ rg_pending r !! id = None).
Proof.
  intros Hw. unfold resolvedLinearRunLocked. destruct (Z.ltb_spec (Z.of_nat (size (dl_nodes delta))) resolvedRunFastPathMinNodes) as [|Hsz]; [done|].
  assert (match cachedCanonicalNodeIDs delta with Some ids => ids | None => sortedNodeIDs (dl_nodes delta) end =
    sortedNodeIDs (dl_nodes delta)) as ->.
  { destruct (cachedCanonicalNodeIDs delta) eqn:E; [by apply cachedCanonicalNodeIDs_spec|done]. }
  destruct (sortedNodeIDs_spec (dl_nodes delta)) as (Hinc & Hin & Hlen).
  destruct (sortedNodeIDs (dl_nodes delta)) as [|first run] eqn:E.
  { unfold resolvedRunFastPathMinNodes in Hsz. simpl in Hlen. lia. }
  set (parent := nd_parent _). destruct (Valid parent && _) eqn:Hpar; [done|].
  destruct (linear_ok r delta _ None _) eqn:Hlin; [|done]. intros [= <-]. exists first, run.
  apply linear_ok_spec in Hlin as [Hfresh Hch]. split_and!; [done|by apply (increasing_NoDup Compare)|done| |done| |done].
  - unfold len. by rewrite Hlen.
  - destruct (Hin first) as [[n Hn] _]; [by left|]. assert (delta_node delta first = n) as Hd by (unfold delta_node; by rewrite Hn).
    destruct (Hw first n Hn) as (_ & _ & [Hz|Hv] & _); subst parent; rewrite Hd in *; [by left|].
    right. rewrite Hv in Hpar. apply bool_decide_eq_false in Hpar. by apply not_eq_None_Some.
Qed.

Lemma linear_store r delta first run :
  store_ok r → map_Forall node_wf (dl_nodes delta) → resolvedLinearRunLocked r delta = Some (first :: run) →
  let parent := nd_parent (delta_node delta first) in
  let '(ci, previous) := children_insert (rg_children r) parent first in
  let r1 := set_sequence (set_nodes r (foldl (λ nodes id, <[id := delta_node delta id]> nodes) (rg_nodes r) (first :: run)))
    (insertLinearPairsAfter (si_with_pairs (rg_sequence r) ci.2)
       (Some (match previous with Some sibling => (sibling, true) | None => (parent, false) end))
       (run_pairs (rg_tombstones r) (first :: run))) ci.1 in
  is_Some (si_pair (rg_sequence r) parent) ∧ store_ok r1 ∧ same_frame r r1 ∧ known r1 = known r ∪ dl_nodes delta ∧
  rg_pending r1 = rg_pending r.
Proof.
  intros Hr Hw Hrun parent. destruct (resolvedLinearRun_spec r delta _ Hw Hrun) as (f' & run' & [= <- <-] & Hnd & Hin & Hlen & Hch & Hi & Hfresh).
  fold parent in Hch, Hi. set (l := first :: run) in *.
  destruct (children_insert (rg_children r) parent first) as [ci previous] eqn:Hci. intros r1.
  fold (add_run (delta_node delta) (rg_nodes r) l) in r1.
  assert (∀ id n, dl_nodes delta !! id = Some n → delta_node delta id = n) as Hdn by (intros id n Hn; unfold delta_node; by rewrite Hn).
  assert (∀ id, id ∈ l → rg_nodes r !! id = None ∧ id ≠ zeroTag) as Hnew.
  { intros id Hid. split; [by apply Hfresh|]. apply Hin in Hid as [n Hn]. destruct (Hw id n Hn) as (? & _). by intros ->. }
  pose proof (tree_run _ _ _ _ _ _ _ _ _ _ (st_tree r Hr) Hi Hch Hnd Hnew Hci) as Htree. fold l in Htree.
  assert (known r1 = known r ∪ dl_nodes delta) as Hk.
  { apply map_eq. intros id. unfold known. cbn [rg_nodes rg_pending r1 set_sequence set_nodes].
    rewrite !lookup_union, add_run_lookup by done. destruct (decide (id ∈ l)) as [Hid|Hid].
    - destruct (Hfresh id Hid) as [-> ->]. apply Hin in Hid as [n Hn]. by rewrite (Hdn id n Hn), Hn.
    - rewrite Hin in Hid. apply eq_None_not_Some in Hid. rewrite Hid. by rewrite (right_id_L None union). }
  split; [apply (tree_pairs (tree_links _ _ _ _ (st_tree r Hr))), Hi|]. split; [|done]. split.
  - done.
  - apply map_disjoint_spec. intros id n1 n2. cbn [rg_nodes rg_pending r1 set_sequence set_nodes].
    rewrite add_run_lookup by done. destruct (decide (id ∈ l)) as [Hid|Hid].
    + destruct (Hfresh id Hid) as [_ ->]. done.
    + by apply map_disjoint_spec, (st_disjoint r Hr).
  - apply (st_waiting r Hr).
  - apply (st_nonempty r Hr).
  - apply (st_bytes r Hr).
  - rewrite Hk. intros id n [Hn|[_ Hn]]%lookup_union_Some_raw; [by apply (st_wf r Hr)|by apply Hw].
Qed.

(** ** The plan of the generic path *)

Lemma known_planned r delta : known r ∪ planned_of r delta = known r ∪ dl_nodes delta.
Proof.
  apply map_eq. intros id. rewrite !lookup_union. destruct (known r !! id) as [n|] eqn:Hk.
  { by destruct (planned_of _ _ !! id), (dl_nodes delta !! id). }
  rewrite !(left_id_L None union). apply lookup_union_None in Hk as [Hn Hp].
  apply option_eq. intros n. unfold planned_of. rewrite map_lookup_filter_Some. cbn [fst]. tauto.
Qed.

(** The queue of the generic path. *)
Definition queued (r : RGA) (plan : deltaPlan) : RGA :=
  if 0 <? pl_pendingNodes plan then foldl enqueuePending r (map_to_list (pl_nodes plan)) else r.

Lemma generic_store r delta :
  store_ok r → map_Forall node_wf (dl_nodes delta) →
  let plan := planDelta r delta in
  ∃ r1 c, integrateResolved r plan = Some (r1, c) ∧ store_ok (queued r1 plan) ∧ same_frame r (queued r1 plan) ∧
    known (queued r1 plan) = known r ∪ dl_nodes delta ∧
    (pl_pendingNodes plan = 0 → pl_nodes plan ≠ ∅ → c = true).
Proof.
  intros Hr Hw plan. destruct (planDelta_spec r delta Hr Hw) as (Hpn & Hch & Hnd & Hroots & S & HS & Hcount & _).
  fold plan in Hpn, Hch, Hnd, Hroots, Hcount. unfold queued, integrateResolved.
  pose proof (planned_of_new r delta) as Hnew. pose proof (len_nonneg (filter (λ e, e.1 ∉ S) (map_to_list (planned_of r delta)))).
  destruct (Z.eqb_spec (pl_pendingNodes plan) 0) as [H0|H0]; cbn [negb].
  - rewrite H0. change (0 <? 0) with false. rewrite orb_false_r. cbn iota. destruct (Z.eqb_spec (Z.of_nat (size (pl_nodes plan))) 0) as [Hz|Hz].
    + assert (pl_nodes plan = ∅) as He by (apply map_size_empty_iff; lia). exists r, false. split_and!; try done.
      rewrite <-known_planned, <-Hpn, He. by rewrite (right_id_L ∅ union).
    + destruct (resolved_list r Hr (planned_of r delta) (λ id n, Hnew id n Hw) _ _ Hch Hnd Hroots) as (Hl & Hpf & Hin).
      rewrite Hpn. destruct (resolved_loop_spec (size (planned_of r delta)) plan (pl_roots plan) r Hr) as (r1 & -> & Hr1 & Hf1 & Hn1 & Hp1);
        rewrite ?Hpn; [|done|].
      { intros id n Hn. destruct (Hnew id n Hw Hn) as (? & _ & ?). done. }
      exists r1, true. split_and!; try done. rewrite <-known_planned. unfold known. rewrite Hn1, Hp1, Hpn.
      apply map_eq. intros id. rewrite !lookup_union, absorb_lookup. rewrite Hcount in H0.
      destruct (planned_of r delta !! id) as [n|] eqn:Hn.
      * destruct (Hnew id n Hw Hn) as (_ & Hid & Hip). rewrite Hid, Hip. rewrite decide_True; [done|]. split; [|by eauto].
        apply Hin. rewrite Hn. split; [by eauto|]. apply HS. destruct (decide (id ∈ S)) as [?|Hs]; [done|]. exfalso.
        assert ((id, n) ∈ filter (λ e : Position * node, e.1 ∉ S) (map_to_list (planned_of r delta))) as Hf
          by (apply list_elem_of_filter; by rewrite elem_of_map_to_list).
        destruct (filter _ (map_to_list (planned_of r delta))); [by apply elem_of_nil in Hf|done].
      * rewrite decide_False by (by intros [_ [? ?]]). by rewrite (right_id_L None union).
  - rewrite orb_true_r. cbn iota. exists r, false. destruct (Z.ltb_spec 0 (pl_pendingNodes plan)); [|lia].
    destruct (enqueue_all r (map_to_list (pl_nodes plan)) Hr) as (Hr' & Hf & _ & Hk).
    + apply NoDup_fst_map_to_list.
    + rewrite Hpn. intros id n Hn%elem_of_map_to_list. by apply Hnew.
    + split_and!; try done. rewrite Hk, list_to_map_to_list, Hpn. apply known_planned.
Qed.

(** ** The clock *)

Lemma tagged_union K T D U t : tagged (K ∪ D) (T ∪ U) t → tagged K T t ∨ tagged D U t.
Proof.
  intros [[n [Hn|[_ Hn]]%lookup_union_Some_raw]|[(q & n & [Hn|[_ Hn]]%lookup_union_Some_raw & Hp)|[Ht|Ht]%elem_of_union]].
  - left. left. eauto.
  - right. left. eauto.
  - left. right. left. eauto.
  - right. right. left. eauto.
  - left. by right; right.
  - right. by right; right.
Qed.

(** The tags in the order [greatestTag] visits them. *)
Definition delta_tags (d : Delta) : list Tag :=
  concat ((λ e : Position * node, e.1 :: (if Valid (nd_parent e.2) then [nd_parent e.2] else [])) <$> map_to_list (dl_nodes d))
  ++ elements (dl_tombstones d).

Lemma elem_of_delta_tags d t : t ∈ delta_tags d ↔ tagged (dl_nodes d) (dl_tombstones d) t.
Proof.
  unfold delta_tags, tagged. rewrite elem_of_app, elem_of_elements, elem_of_concat. split.
  - intros [(l & ([id n] & -> & Hn%elem_of_map_to_list)%list_elem_of_fmap & Ht)|Ht]; [|auto]. cbn [fst snd] in Ht.
    apply elem_of_cons in Ht as [->|Ht]; [left; eauto|]. destruct (Valid (nd_parent n)) eqn:Hv; [|by apply elem_of_nil in Ht].
    apply list_elem_of_singleton in Ht as ->. right. left. eauto.
  - intros [[n Hn]|[(q & n & Hn & <- & Hv)|Ht]]; [left|left|by right].
    + eexists. split; [apply list_elem_of_fmap_2; by apply elem_of_map_to_list|]. by left.
    + eexists. split; [apply list_elem_of_fmap_2; by apply elem_of_map_to_list|]. cbn [fst snd]. rewrite Hv. right. by left.
Qed.

Lemma greatestTag_spec d :
  match greatestTag d with
  | None => ∀ t, ¬ tagged (dl_nodes d) (dl_tombstones d) t
  | Some m =>
      tagged (dl_nodes d) (dl_tombstones d) m ∧ ∀ t, tagged (dl_nodes d) (dl_tombstones d) t → Compare t m <= 0
  end.
Proof.
  assert (greatestTag d = foldl greatest_step None (delta_tags d)) as ->.
  { unfold greatestTag, delta_tags. rewrite foldl_app. f_equal. generalize (@None Position).
    induction (map_to_list (dl_nodes d)) as [|e l IH]; intros g; [done|]. cbn [foldl fmap list_fmap concat]. rewrite IH, foldl_app.
    f_equal. unfold greatest_node_step, greatest_step. cbn [foldl].
    destruct (Valid (nd_parent e.2)), g as [g|]; cbn [andb foldl]; try destruct (Compare g e.1 <? 0); cbn [foldl]; by try destruct (_ <? 0). }
  pose proof (greatest_fold None (delta_tags d)) as Hg.
  destruct (foldl _ _ _) as [m|]; setoid_rewrite <-elem_of_delta_tags.
  - destruct Hg as [[?|Hm] Hmax]; [done|]. split; [done|]. intros t Ht. apply Hmax. by right.
  - destruct Hg as [_ ->]. intros t. apply not_elem_of_nil.
Qed.

Lemma tagged_valid D U t : map_Forall node_wf D → (∀ t, t ∈ U → Valid t = true) → tagged D U t → Valid t = true.
Proof. intros HD HU [[n Hn]|[(? & ? & _ & _ & ?)|?]]; [by destruct (HD t n Hn)|done|auto]. Qed.

Lemma witness_delta_spec r delta now K T :
  clock_covers (rg_clock r) (rg_replicaID r) K T → validateDelta delta = Ok tt → delta_wf delta → now_wf now →
  ∃ c res, witness_delta r delta now = (set_clock r c, res) ∧
    match res with
    | Ok _ => clock_covers c (rg_replicaID r) (K ∪ dl_nodes delta) (T ∪ dl_tombstones delta)
    | Err e =>
        c = rg_clock r ∧ e = ErrClockExhausted ∧
        exhausted (rg_clock r) now (tagged (dl_nodes delta) (dl_tombstones delta))
    end.
Proof.
  intros (h & Hh & Hwf & Hid & Hcov) [HD HU]%validateDelta_Ok Hdw Hnow. unfold witness_delta.
  pose proof (greatestTag_spec delta) as Hg. destruct (greatestTag delta) as [m|].
  - destruct Hg as [Hm Hmax]. rewrite Hh. destruct (Witness (Some h) m now) as [c res] eqn:Hw. eexists c, res. split; [done|].
    destruct res as [[]|e].
    + apply Witness_spec in Hw as (h1 & -> & Hwf1 & Hid1 & Hlt & Hm1); [|done|by apply Hdw|done].
      exists h1. split_and!; [done|done|congruence|]. intros t [Ht|Ht]%tagged_union.
      * destruct (Hcov t Ht). split; [done|]. unfold ts_le, ts_lt in *. lia.
      * split; [by apply Hdw|]. specialize (Hmax t Ht). apply ts_le_Compare in Hmax. unfold ts_le, ts_lt in *. lia.
    + apply Witness_refused in Hw as (-> & -> & Hex); [|by apply (tagged_valid _ _ _ HD HU)]. split_and!; [done..|].
      eapply exhausted_mono; [|exact Hex]. by intros t ->.
  - eexists (rg_clock r), _. split; [by destruct r|]. exists h. split_and!; try done.
    intros t [Ht|Ht]%tagged_union; [by apply Hcov|by destruct (Hg t)].
Qed.

(** ** Cycles *)

Lemma rooted_ends K p : K !! zeroTag = None → rooted K p → ends K p.
Proof.
  intros Hz. induction 1 as [|id n Hn _ IH]; [by constructor|]. by apply (ends_node _ id n).
Qed.

Lemma known_root r : store_ok r → known r !! zeroTag = None.
Proof. intros Hr. destruct (known r !! zeroTag) as [n|] eqn:E; [|done]. apply (st_wf r Hr) in E as (? & _). done. Qed.

(** No conflict: the delta agrees with what is known. *)
Lemma tag_conflict_spec r delta :
  store_ok r →
  tag_conflict r delta = false ↔ ∀ id n n', known r !! id = Some n → dl_nodes delta !! id = Some n' → n = n'.
Proof.
  intros Hr. unfold tag_conflict. rewrite <-not_true_iff_false, existsb_exists. split.
  - intros Hno id n n' Hn Hn'. destruct (decide (n = n')) as [|Hne]; [done|]. destruct Hno. exists (id, n').
    split; [by apply list_elem_of_In, elem_of_map_to_list|]. cbn [fst snd].
    apply lookup_union_Some_raw in Hn as [Hn|[Hid Hn]]; rewrite ?Hid, Hn, bool_decide_eq_false_2 by done; [done|]. cbn. done.
  - intros Hag ([id n'] & Hin%list_elem_of_In%elem_of_map_to_list & Hc). cbn [fst snd] in Hc.
    apply orb_true_iff in Hc as [Hc|Hc].
    + destruct (rg_nodes r !! id) as [n|] eqn:Hn; [|done]. apply negb_true_iff, bool_decide_eq_false in Hc. apply Hc.
      apply (Hag id); [by apply known_node|done].
    + destruct (rg_pending r !! id) as [n|] eqn:Hn; [|done]. apply negb_true_iff, bool_decide_eq_false in Hc. apply Hc.
      apply (Hag id); [by apply known_pending|done].
Qed.

(** The known nodes stay acyclic when the ways up from the new ones end. *)
Lemma acyclic_union r D :
  (∀ id, ends (known r) id) → (∀ id, is_Some (D !! id) → ends (known r ∪ D) id) →
  ∀ id, ends (known r ∪ D) id.
Proof.
  intros Hold Hnew id. specialize (Hold id). induction Hold as [p Hp|p n Hp _ IH].
  - destruct (D !! p) as [n|] eqn:Hn; [apply Hnew; eauto|]. constructor. by apply lookup_union_None.
  - apply (ends_node _ p n); [by apply lookup_union_Some_l|done].
Qed.

Lemma acyclicAgainst_union r delta :
  store_ok r → map_Forall node_wf (dl_nodes delta) → (∀ id, ends (known r) id) → tag_conflict r delta = false →
  acyclicAgainst (dl_nodes delta) (rg_pending r) = true ↔ ∀ id, ends (known r ∪ dl_nodes delta) id.
Proof.
  intros Hr Hw Hold Hag. rewrite tag_conflict_spec in Hag by done. set (D := dl_nodes delta) in *.
  set (K := known r ∪ D).
  assert (K !! zeroTag = None) as Hz.
  { apply lookup_union_None. split; [by apply known_root|]. destruct (D !! zeroTag) as [n|] eqn:E; [|done].
    apply Hw in E as (? & _). done. }
  assert (∀ id n, K !! id = Some n → rg_nodes r !! id = None → (D ∪ rg_pending r) !! id = Some n) as Hin.
  { intros id n Hn Hid. unfold K, known in Hn. rewrite !lookup_union, Hid in Hn. rewrite lookup_union.
    destruct (D !! id) as [n'|] eqn:E, (rg_pending r !! id) as [n2|] eqn:E2; try done.
    cbn in Hn |- *. injection Hn as <-. f_equal. symmetry. apply (Hag id); [by apply known_pending|done]. }
  assert (∀ id n, (D ∪ rg_pending r) !! id = Some n → K !! id = Some n) as Hout.
  { intros id n [Hn|[_ Hn]]%lookup_union_Some_raw.
    - unfold K. apply lookup_union_Some_raw. destruct (known r !! id) as [n'|] eqn:E; [|by right].
      left. f_equal. by apply (Hag id).
    - apply lookup_union_Some_l. by apply known_pending. }
  assert (∀ id, is_Some (rg_nodes r !! id) → ends K id) as Hnodes.
  { intros id Hid. apply rooted_ends; [done|]. apply (rooted_mono (known r)); [apply map_union_subseteq_l|].
    apply integrated_rooted; [done|by right]. }
  rewrite acyclicAgainst_spec.
  - split.
    + intros He. apply acyclic_union; [done|]. intros id Hid. specialize (He id Hid). clear Hid.
      induction He as [p Hp|p n Hp _ IH]; (destruct (rg_nodes r !! p) as [m|] eqn:Hm; [apply Hnodes; eauto|]).
      * constructor. destruct (K !! p) as [n|] eqn:E; [|done]. apply Hin in E; [congruence|done].
      * apply (ends_node _ p n); [by apply Hout|done].
    + intros He id _. specialize (He id). fold K in He.
      induction He as [p Hp|p n Hp _ IH].
      * constructor. destruct ((D ∪ rg_pending r) !! p) eqn:E; [|done]. apply Hout in E. congruence.
      * destruct ((D ∪ rg_pending r) !! p) as [m|] eqn:E; [|by constructor].
        assert (m = n) as -> by (apply Hout in E; congruence). by apply (ends_node _ p n).
  - intros id n Hn%Hout. unfold K in Hn. apply lookup_union_Some_raw in Hn as [Hn|[_ Hn]];
      [by apply (st_wf r Hr) in Hn as (? & _)|by apply Hw in Hn as (? & _)].
Qed.

(** ** Limits *)

Lemma newTombstones_spec (U T : gset Position) : Z.of_nat (size T) + newTombstones U T = Z.of_nat (size (T ∪ U)).
Proof.
  unfold newTombstones. rewrite size_union_alt. assert (length (filter (.∉ T) (elements U)) = size (U ∖ T)) as Hl; [|unfold len; lia].
  unfold size, set_size. cbn. apply Permutation_length, NoDup_Permutation; [apply NoDup_filter, NoDup_elements|apply NoDup_elements|].
  intros t. rewrite list_elem_of_filter, !elem_of_elements, elem_of_difference. tauto.
Qed.

Lemma bytes_nonneg l : 0 <= bytes_of l.
Proof.
  induction l as [|e l IH]; [done|]. rewrite bytes_cons. unfold nodeBytes.
  pose proof (len_nonneg (ReplicaID e.1)). pose proof (len_nonneg (ReplicaID (nd_parent e.2))). lia.
Qed.

Lemma bytes_app l k : bytes_of (l ++ k) = bytes_of l + bytes_of k.
Proof. induction l as [|e l IH]; [done|]. cbn [app]. rewrite !bytes_cons, IH. lia. Qed.

Lemma bytes_mono l k : l ⊆+ k → bytes_of l <= bytes_of k.
Proof. intros [j ->]%submseteq_Permutation. rewrite bytes_app. pose proof (bytes_nonneg j). lia. Qed.

(** The nodes that wait afterwards waited before or were not rooted. *)
Lemma pending_bound r r' D U :
  store_ok r → store_ok r' → drained r' → known r' = known r ∪ D →
  (∀ id n, D !! id = Some n → known r !! id = None → rooted (known r') id ∨ (id, n) ∈ U) →
  map_to_list (rg_pending r') ⊆+ map_to_list (rg_pending r) ++ U.
Proof.
  intros Hr Hr' Hd Hk HU. apply NoDup_submseteq; [apply NoDup_map_to_list|].
  intros [id n] Hn%elem_of_map_to_list. rewrite elem_of_app, elem_of_map_to_list.
  assert (¬ rooted (known r') id) as Hnr.
  { intros Hrt. apply (rooted_integrated r' id Hr' Hd) in Hrt as [->|[m Hm]].
    - apply known_pending in Hn; [|done]. rewrite known_root in Hn by done. done.
    - apply (pending_fresh r' Hr') in Hn. congruence. }
  pose proof (known_pending r' Hr' id n Hn) as Hkn. rewrite Hk in Hkn.
  apply lookup_union_Some_raw in Hkn as [Hkn|[Hid Hkn]].
  - apply lookup_union_Some_raw in Hkn as [Hin|[_ Hin]]; [|by left]. destruct Hnr. rewrite Hk.
    apply (rooted_mono (known r)); [apply map_union_subseteq_l|]. apply integrated_rooted; [done|right; eauto].
  - right. by destruct (HU id n Hkn Hid).
Qed.

(** ** Applying a delta *)

(** The state after a delta was applied. *)
Definition applied (r : RGA) (delta : Delta) (r' : RGA) : Prop :=
  rga_wf r' ∧ known r' = known r ∪ dl_nodes delta ∧ rg_tombstones r' = rg_tombstones r ∪ dl_tombstones delta ∧
  rg_options r' = rg_options r ∧ rg_replicaID r' = rg_replicaID r.

Lemma finish_wf r r1 c delta changed U :
  rga_wf r → validateDelta delta = Ok tt → store_ok r1 → same_frame (set_clock r c) r1 →
  known r1 = known r ∪ dl_nodes delta →
  clock_covers c (rg_replicaID r) (known r ∪ dl_nodes delta) (rg_tombstones r ∪ dl_tombstones delta) →
  (∀ id, ends (known r ∪ dl_nodes delta) id) →
  Z.of_nat (size (known r ∪ dl_nodes delta)) <= MaxNodes (rg_options r) →
  Z.of_nat (size (rg_tombstones r ∪ dl_tombstones delta)) <= MaxTombstones (rg_options r) →
  (∀ id n, dl_nodes delta !! id = Some n → known r !! id = None → rooted (known r ∪ dl_nodes delta) id ∨ (id, n) ∈ U) →
  Z.of_nat (size (rg_pending r)) + len U <= MaxPendingNodes (rg_options r) →
  rg_pendingBytes r + bytes_of U <= MaxPendingBytes (rg_options r) →
  ∃ r', finish_apply r1 delta changed = (r', Ok tt) ∧ applied r delta r' ∧ rg_clock r' = c ∧
    (changed = true → rg_version r' = u64 (rg_version r + 1)).
Proof.
  intros Hwf [HD HU]%validateDelta_Ok Hr1 (Fi & Fc & Fo & FT & Fv) Hk Hcov Hends Hn Ht Hpend Hpn Hpb.
  destruct (finish_apply_spec r1 delta changed Hr1) as (r' & -> & Hr' & Hd & Hk' & HT & Hc & Ho & Hi & Hv).
  exists r'. split; [done|]. cbn [set_clock rg_replicaID rg_clock rg_options rg_tombstones rg_version] in *.
  rewrite Hk in Hk'. rewrite FT in HT. split; [|split; [congruence|intros ->; by rewrite Hv, Fv]].
  unfold applied. split_and!; try congruence. pose proof (wf_store r Hwf) as Hr.
  assert (map_to_list (rg_pending r') ⊆+ map_to_list (rg_pending r) ++ U) as Hsub
    by (apply (pending_bound r r' (dl_nodes delta) U); try done; by rewrite Hk').
  split; [done|done|by rewrite Hk'| | |].
  - intros t. rewrite HT, elem_of_union. intros [?|?]; [by apply (wf_tombstones r Hwf)|auto].
  - rewrite Hk', HT, Hi, Hc, Fi, Fc. done.
  - unfold within_limits. rewrite Hk', HT, Ho, Fo. split_and!; [done|done|..].
    + apply submseteq_length in Hsub. rewrite length_app, !length_map_to_list in Hsub. unfold len in *. lia.
    + apply bytes_mono in Hsub. rewrite bytes_app in Hsub. rewrite (st_bytes r' Hr'). rewrite (st_bytes r Hr) in *. lia.
Qed.

(** Everything that is planned is new. *)
Lemma size_known_planned r delta :
  store_ok r →
  Z.of_nat (size (known r ∪ dl_nodes delta)) =
  Z.of_nat (size (rg_nodes r)) + Z.of_nat (size (rg_pending r)) + Z.of_nat (size (planned_of r delta)).
Proof.
  intros Hr. rewrite <-known_planned. unfold known. rewrite map_size_disj_union.
  - rewrite map_size_disj_union by apply (st_disjoint r Hr). lia.
  - apply map_disjoint_spec. intros id n1 n2 Hn1 [_ [H1 H2]]%map_lookup_filter_Some. cbn [fst] in *.
    apply lookup_union_Some_raw in Hn1 as [?|[_ ?]]; congruence.
Qed.

Lemma subsumesLocked_spec r delta :
  store_ok r → subsumesLocked r delta = true → known r ∪ dl_nodes delta = known r ∧ dl_tombstones delta ⊆ rg_tombstones r.
Proof.
  intros Hr [Hn Ht]%andb_true_iff. split.
  - apply map_eq. intros id. rewrite lookup_union. destruct (dl_nodes delta !! id) as [n|] eqn:E; [|by rewrite (right_id_L None union)].
    eapply forallb_elem in Hn; [|by apply elem_of_map_to_list]. cbn [fst snd] in Hn.
    assert (known r !! id = Some n) as ->; [|done]. apply orb_true_iff in Hn as [Hn%bool_decide_eq_true|Hn%bool_decide_eq_true];
      [by apply known_node|by apply known_pending].
  - intros t Hin. eapply forallb_elem in Ht; [|by apply elem_of_elements]. by apply bool_decide_eq_true in Ht.
Qed.

(** The errors of [applyDeltaLocked]. The nodes of the delta that would have to
    wait for a parent, the [orphans], count towards the limits of the queue. *)
Inductive apply_error (r : RGA) (delta : Delta) (now : option Z) : error → Prop :=
| conflict_error id n n' :
    known r !! id = Some n → dl_nodes delta !! id = Some n' → n ≠ n' → apply_error r delta now (ErrText TextConflict)
| cycle_error : ¬ (∀ id, ends (known r ∪ dl_nodes delta) id) → apply_error r delta now (ErrText TextDelta)
| limit_error orphans :
    NoDup orphans →
    (∀ e, e ∈ orphans ↔ planned_of r delta !! e.1 = Some e.2 ∧ ¬ rooted (rg_nodes r ∪ planned_of r delta) e.1) →
    MaxNodes (rg_options r) < Z.of_nat (size (known r ∪ dl_nodes delta)) ∨
    MaxTombstones (rg_options r) < Z.of_nat (size (rg_tombstones r ∪ dl_tombstones delta)) ∨
    MaxPendingNodes (rg_options r) < Z.of_nat (size (rg_pending r)) + len orphans ∨
    MaxPendingBytes (rg_options r) < rg_pendingBytes r + bytes_of orphans →
    apply_error r delta now (ErrText TextLimit)
| clock_error :
    exhausted (rg_clock r) now (tagged (dl_nodes delta) (dl_tombstones delta)) → apply_error r delta now ErrClockExhausted.

Lemma planned_rooted r delta id n :
  store_ok r → dl_nodes delta !! id = Some n → known r !! id = None →
  planned_of r delta !! id = Some n ∧
  (rooted (rg_nodes r ∪ planned_of r delta) id → rooted (known r ∪ dl_nodes delta) id).
Proof.
  intros Hr Hn [? ?]%lookup_union_None. split; [by apply map_lookup_filter_Some|]. apply rooted_mono.
  rewrite <-known_planned. apply map_subseteq_spec. intros q m [Hq|[Hq Hm]]%lookup_union_Some_raw.
  - apply lookup_union_Some_l. by apply known_node.
  - apply lookup_union_Some_raw. right. split; [|done]. apply map_lookup_filter_Some in Hm as [_ [? ?]].
    by apply lookup_union_None.
Qed.

(** A path past its checks witnesses the delta and applies it. *)
Definition completes (r : RGA) (delta : Delta) (now : option Z) (out : RGA * result unit) : Prop :=
  match witness_delta r delta now with
  | (_, Err e) => out = (r, Err e) ∧ apply_error r delta now e
  | (w, Ok _) =>
      ∃ r', out = (r', Ok tt) ∧ applied r delta r' ∧ rg_clock r' = rg_clock w ∧
        (planned_of r delta ≠ ∅ → rg_version r' = u64 (rg_version r + 1))
  end.

Lemma completes_outcome r delta now out :
  completes r delta now out →
  ∃ r' res, out = (r', res) ∧ match res with Ok _ => applied r delta r' | Err e => r' = r ∧ apply_error r delta now e end.
Proof.
  unfold completes. destruct (witness_delta r delta now) as [w [u|e]].
  - intros (r' & -> & ? & _). by eexists _, _.
  - intros [-> ?]. by eexists _, _.
Qed.

(** The generic path past its checks. *)
Lemma planned_completes r delta now :
  rga_wf r → validateDelta delta = Ok tt → delta_wf delta → now_wf now → (∀ id, ends (known r ∪ dl_nodes delta) id) →
  acyclicAgainst (dl_nodes delta) (rg_pending r) = true → plan_exceeds r delta (planDelta r delta) = false →
  completes r delta now (applyPlannedLocked r delta now).
Proof.
  intros Hwf Hval Hdw Hnow Hends Hac Hex. pose proof Hval as [HD HU]%validateDelta_Ok. pose proof (wf_store r Hwf) as Hr.
  unfold applyPlannedLocked, completes. rewrite Hac, Hex. cbn [negb].
  destruct (planDelta_spec r delta Hr HD) as (Hpn & _ & _ & _ & S & HS & Hcount & Hbytes).
  set (plan := planDelta r delta) in *. set (U := filter _ _) in Hcount, Hbytes.
  unfold plan_exceeds in Hex. rewrite Hpn, Hcount, Hbytes, newTombstones_spec, <-size_known_planned in Hex by done.
  rewrite !orb_false_iff, !Z.ltb_ge in Hex. destruct Hex as [[[Hmn Hmp] Hmb] Hmt].
  destruct (witness_delta_spec r delta now (known r) (rg_tombstones r) (wf_clock r Hwf) Hval Hdw Hnow) as (c & res & -> & Hres).
  destruct res as [[]|e]; [|destruct Hres as (-> & -> & ?); split; [by destruct r|by constructor]].
  destruct (generic_store (set_clock r c) delta (store_clock r c Hr) HD) as (r1 & ch & Hint & Hr1 & Hf1 & Hk1 & Hch).
  change (planDelta (set_clock r c) delta) with plan in *. rewrite Hint.
  assert (∀ changed, ∃ r', finish_apply (queued r1 plan) delta changed = (r', Ok tt) ∧ applied r delta r' ∧ rg_clock r' = c ∧
    (changed = true → rg_version r' = u64 (rg_version r + 1))) as Hfin.
  { intros changed. apply (finish_wf r (queued r1 plan) c delta changed U); try done.
    intros id n Hn Hid. destruct (planned_rooted r delta id n Hr Hn Hid) as [Hp Hrt].
    destruct (decide (id ∈ S)) as [Hs|Hs]; [left; by apply Hrt, HS|right].
    apply list_elem_of_filter. by rewrite elem_of_map_to_list. }
  unfold queued in Hfin. rewrite <-Hpn. destruct (Z.ltb_spec 0 (pl_pendingNodes plan)) as [Hpos|Hpos].
  - destruct (Hfin (0 <? Z.of_nat (size (pl_nodes plan)))) as (r' & -> & Happ & Hc & Hv). exists r'. split_and!; try done.
    intros Hne. apply Hv, Z.ltb_lt. assert (size (pl_nodes plan) ≠ 0%nat) by (by rewrite map_size_empty_iff). lia.
  - destruct (Hfin ch) as (r' & -> & Happ & Hc & Hv). exists r'. split_and!; try done. intros Hne. apply Hv, Hch; [|done].
    pose proof (len_nonneg U). lia.
Qed.

Lemma applyPlannedLocked_spec r delta now :
  rga_wf r → validateDelta delta = Ok tt → delta_wf delta → now_wf now → tag_conflict r delta = false →
  ∃ r' res, applyPlannedLocked r delta now = (r', res) ∧
    match res with Ok _ => applied r delta r' | Err e => r' = r ∧ apply_error r delta now e end.
Proof.
  intros Hwf Hval Hdw Hnow Hag. pose proof Hval as [HD HU]%validateDelta_Ok. pose proof (wf_store r Hwf) as Hr.
  pose proof (acyclicAgainst_union r delta Hr HD (wf_acyclic r Hwf) Hag) as Hac.
  destruct (acyclicAgainst _ _) eqn:Ha.
  2: { eexists _, _. split; [unfold applyPlannedLocked; by rewrite Ha|]. split; [done|]. constructor. by rewrite <-Hac. }
  apply proj1 in Hac. specialize (Hac eq_refl). destruct (plan_exceeds r delta (planDelta r delta)) eqn:Hex.
  - eexists _, _. split; [unfold applyPlannedLocked; by rewrite Ha, Hex|]. split; [done|].
    destruct (planDelta_spec r delta Hr HD) as (Hpn & _ & _ & _ & S & HS & Hcount & Hbytes). unfold plan_exceeds in Hex.
    rewrite Hpn, Hcount, Hbytes, newTombstones_spec, <-size_known_planned in Hex by done. set (U := filter _ _) in *.
    rewrite !orb_true_iff, !Z.ltb_lt in Hex. apply (limit_error _ _ _ U); [apply NoDup_filter, NoDup_map_to_list| |lia].
    intros [id n]. unfold U. rewrite list_elem_of_filter, elem_of_map_to_list, HS. cbn [fst snd].
    split; intros [H1 H2]; [split; [done|]; intros Hro; apply H1; eauto|split; [by intros [_ ?]|done]].
  - eapply completes_outcome, planned_completes; done.
Qed.

(** A run is new, rooted and acyclic. *)
Lemma run_rooted r delta l :
  rga_wf r → map_Forall node_wf (dl_nodes delta) → resolvedLinearRunLocked r delta = Some l →
  planned_of r delta = dl_nodes delta ∧
  (∀ id, is_Some (dl_nodes delta !! id) → rooted (rg_nodes r ∪ dl_nodes delta) id) ∧
  (∀ id, ends (known r ∪ dl_nodes delta) id).
Proof.
  intros Hwf HD Hrun. pose proof (wf_store r Hwf) as Hr.
  destruct (resolvedLinearRun_spec r delta l HD Hrun) as (first & run & -> & _ & Hin & _ & Hchn & Hi & Hfresh).
  assert (∀ id, is_Some (dl_nodes delta !! id) → rooted (rg_nodes r ∪ dl_nodes delta) id) as Hroot.
  { intros id Hid%Hin. assert (∀ p, integrable (rg_nodes r) p → rooted (rg_nodes r ∪ dl_nodes delta) p) as Hold.
    { intros p [->|Hp]; [constructor|]. apply (rooted_mono (rg_nodes r)); [apply map_union_subseteq_l|].
      eapply tree_rooted; [|done]. apply (tree_links _ _ _ _ (st_tree r Hr)). }
    apply Hold in Hi. revert Hi Hchn Hid Hin Hfresh. generalize (nd_parent (delta_node delta first)).
    generalize (first :: run). intros l p Hp Hch Hid Hin Hfresh.
    assert (∀ q, q ∈ l → is_Some (dl_nodes delta !! q) ∧ rg_nodes r !! q = None) as Hl
      by (intros q Hq; split; [by apply Hin|by apply Hfresh]). clear Hin Hfresh.
    revert p Hp Hch Hid. induction l as [|q l IH]; intros p Hp Hch Hid; [by apply elem_of_nil in Hid|].
    destruct Hch as [Hq Hch]. destruct (Hl q) as [[n Hn] Hqn]; [by left|].
    assert (rooted (rg_nodes r ∪ dl_nodes delta) q) as Hrq.
    { apply (rooted_node _ q n); [by apply lookup_union_Some_raw; right|]. unfold delta_node in Hq. rewrite Hn in Hq.
      change (default _ (Some n)) with n in Hq. by rewrite Hq. }
    apply elem_of_cons in Hid as [->|Hid]; [done|]. apply (IH (λ x Hx, Hl x (list_elem_of_further _ _ _ Hx)) q); done. }
  assert (planned_of r delta = dl_nodes delta) as Hpl.
  { apply map_filter_id. intros id n Hn. apply Hfresh. apply Hin. eauto. }
  split_and!; [done|done|]. apply acyclic_union; [apply (wf_acyclic r Hwf)|]. intros id Hid. apply rooted_ends.
  - apply lookup_union_None. split; [by apply known_root|]. destruct (dl_nodes delta !! zeroTag) as [n|] eqn:E; [|done].
    apply HD in E as (? & _). done.
  - destruct Hid as [n Hn]. apply (proj2 (planned_rooted r delta id n Hr Hn ltac:(apply lookup_union_None; apply Hfresh, Hin; eauto))).
    rewrite Hpl. apply Hroot. eauto.
Qed.

(** The limits of the fast path. *)
Definition run_exceeds (r : RGA) (delta : Delta) : bool :=
  (MaxNodes (rg_options r) <? Z.of_nat (size (known r ∪ dl_nodes delta))) ||
  (MaxTombstones (rg_options r) <? Z.of_nat (size (rg_tombstones r ∪ dl_tombstones delta))).

Lemma run_completes r delta l now :
  rga_wf r → validateDelta delta = Ok tt → delta_wf delta → now_wf now → resolvedLinearRunLocked r delta = Some l →
  if run_exceeds r delta then applyResolvedLinearRunLocked r delta l now = (r, Err (ErrText TextLimit))
  else completes r delta now (applyResolvedLinearRunLocked r delta l now).
Proof.
  intros Hwf Hval Hdw Hnow Hrun. pose proof Hval as [HD HU]%validateDelta_Ok. pose proof (wf_store r Hwf) as Hr.
  destruct (run_rooted r delta l Hwf HD Hrun) as (Hpl & Hroot & Hends).
  destruct (resolvedLinearRun_spec r delta l HD Hrun) as (first & run & -> & _ & Hin & Hlen & _).
  unfold applyResolvedLinearRunLocked, completes. rewrite newTombstones_spec, Hlen.
  pose proof (size_known_planned r delta Hr) as Hsize. rewrite Hpl in Hsize. rewrite <-Hsize. fold (run_exceeds r delta). destruct (run_exceeds r delta) eqn:Hex; [done|].
  unfold run_exceeds in Hex. rewrite !orb_false_iff, !Z.ltb_ge in Hex. destruct Hex as [Hmn Hmt].
  destruct (witness_delta_spec r delta now (known r) (rg_tombstones r) (wf_clock r Hwf) Hval Hdw Hnow) as (c & res & -> & Hres).
  destruct res as [[]|e]; [|destruct Hres as (-> & -> & ?); split; [by destruct r|by constructor]].
  rewrite <-(resolvedLinearRun_clock r delta c) in Hrun.
  pose proof (linear_store (set_clock r c) delta first run (store_clock r c Hr) HD Hrun) as Hls. cbv zeta in Hls.
  destruct (children_insert _ _ _) as [ci previous]. destruct Hls as ([x Hx] & Hr1 & Hf1 & Hk1 & Hp1).
  cbv zeta. rewrite Hx. set (r1 := set_sequence _ _ _) in *. destruct (wf_limits r Hwf) as (_ & _ & Hlp & Hlb).
  destruct (finish_wf r r1 c delta true []) as (r' & Hfin & Happ & Hc & Hv); try done.
  - intros id n Hn Hid. left. apply (proj2 (planned_rooted r delta id n Hr Hn Hid)). rewrite Hpl. apply Hroot. eauto.
  - change (len []) with 0. lia.
  - change (bytes_of []) with 0. lia.
  - exists r'. split_and!; [exact Hfin|done|done|]. intros _. by apply Hv.
Qed.

Lemma applyResolvedLinearRunLocked_spec r delta l now :
  rga_wf r → validateDelta delta = Ok tt → delta_wf delta → now_wf now → resolvedLinearRunLocked r delta = Some l →
  ∃ r' res, applyResolvedLinearRunLocked r delta l now = (r', res) ∧
    match res with Ok _ => applied r delta r' | Err e => r' = r ∧ apply_error r delta now e end.
Proof.
  intros Hwf Hval Hdw Hnow Hrun. pose proof (run_completes r delta l now Hwf Hval Hdw Hnow Hrun) as Hc.
  destruct (run_exceeds r delta) eqn:Hex; [|by eapply completes_outcome].
  eexists _, _. split; [exact Hc|]. split; [done|]. unfold run_exceeds in Hex. rewrite orb_true_iff, !Z.ltb_lt in Hex.
  pose proof Hval as [HD _]%validateDelta_Ok. destruct (run_rooted r delta l Hwf HD Hrun) as (Hpl & Hroot & _).
  apply (limit_error _ _ _ []); [constructor| |lia]. intros [id n]. rewrite Hpl. split; [by intros ?%elem_of_nil|].
  intros [Hn Hno]. destruct Hno. apply Hroot. eauto.
Qed.

Lemma applyDeltaLocked_spec r delta now :
  rga_wf r → validateDelta delta = Ok tt → delta_wf delta → now_wf now →
  ∃ r' res, applyDeltaLocked r delta now = (r', res) ∧
    match res with
    | Ok _ => applied r delta r' ∧ dl_nodes delta ⊆ known r'
    | Err e => r' = r ∧ apply_error r delta now e
    end.
Proof.
  intros Hwf Hval Hdw Hnow. pose proof (wf_store r Hwf) as Hr. unfold applyDeltaLocked.
  destruct (tag_conflict r delta) eqn:Hc.
  { eexists _, _. split; [done|]. split; [done|]. unfold tag_conflict in Hc.
    apply existsb_exists in Hc as ([id n'] & Hin%list_elem_of_In%elem_of_map_to_list & Hc). cbn [fst snd] in Hc.
    apply orb_true_iff in Hc as [Hc|Hc].
    - destruct (rg_nodes r !! id) as [n|] eqn:Hn; [|done]. apply negb_true_iff, bool_decide_eq_false in Hc.
      apply (conflict_error _ _ _ id n n'); [by apply known_node|done..].
    - destruct (rg_pending r !! id) as [n|] eqn:Hn; [|done]. apply negb_true_iff, bool_decide_eq_false in Hc.
      apply (conflict_error _ _ _ id n n'); [by apply known_pending|done..]. }
  assert (∀ r', applied r delta r' → applied r delta r' ∧ dl_nodes delta ⊆ known r') as Hsub.
  { intros r' Happ. split; [done|]. destruct Happ as (_ & -> & _). apply map_subseteq_spec. intros id n Hn.
    apply lookup_union_Some_raw. destruct (known r !! id) as [n'|] eqn:E; [left|by right]. f_equal.
    by apply (proj1 (tag_conflict_spec r delta Hr) Hc id). }
  destruct (subsumesLocked r delta) eqn:Hs.
  { eexists _, _. split; [done|]. apply Hsub. destruct (subsumesLocked_spec r delta Hr Hs) as [Hk Ht]. unfold applied. rewrite Hk.
    split_and!; try done. set_solver. }
  destruct (resolvedLinearRunLocked r delta) as [l|] eqn:Hl.
  - destruct (applyResolvedLinearRunLocked_spec r delta l now Hwf Hval Hdw Hnow Hl) as (r' & res & -> & H).
    eexists _, _. split; [done|]. destruct res; [by apply Hsub|done].
  - destruct (applyPlannedLocked_spec r delta now Hwf Hval Hdw Hnow Hc) as (r' & res & -> & H).
    eexists _, _. split; [done|]. destruct res; [by apply Hsub|done].
Qed.

(** A new replica. *)
Lemma New_wf state options r :
  NewFromClockWithOptions state options = Ok r → is_u64 (cs_WallTime state) → is_u64 (cs_Logical state) →
  rga_wf r ∧ known r = ∅ ∧ rg_tombstones r = ∅ ∧ rg_options r = options ∧ rg_replicaID r = cs_ReplicaID state.
Proof.
  unfold NewFromClockWithOptions. destruct (Valid _) eqn:Hv; [|done]. cbn [negb].
  destruct (TextOptions_valid options) eqn:Ho; [|done]. cbn [negb].
  unfold NewHLCFromState. rewrite Hv. cbn [negb]. intros [= <-] Hw Hl. unfold TextOptions_valid in Ho. breflect.
  assert (known (mkRGA (cs_ReplicaID state) (Some (mkHLC (cs_ReplicaID state) (cs_WallTime state) (cs_Logical state)))
    options ∅ ∅ ∅ 0 ∅ 0 newSequenceIndex ∅) = ∅) as Hk by (unfold known; cbn; apply (left_id_L ∅ union)).
  split; [|done]. split; cbn [rg_nodes rg_pending rg_tombstones rg_sequence rg_branches].
  - split; cbn [rg_nodes rg_pending rg_tombstones rg_sequence rg_branches rg_pendingBytes rg_waitingByParent].
    + apply tree_empty.
    + apply map_disjoint_empty_r.
    + intros p id. unfold waiting. cbn [rg_waitingByParent]. rewrite lookup_empty. split; [set_solver|]. by intros (? & ? & _).
    + done.
    + done.
    + rewrite Hk. done.
  - intros id n. done.
  - rewrite Hk. intros id. by constructor.
  - set_solver.
  - rewrite Hk. eexists. split; [done|]. split_and!; try done. intros t [[? ?]|[(? & ? & ? & _)|Ht]]; [done|done|]. set_solver.
  - unfold within_limits. rewrite Hk. cbn. rewrite map_size_empty, size_empty. lia.
Qed.
