(* ===== verification/RGAText.v ===== *)
(** * The text of an RGA

    The reference reading of a set of nodes is depth first, the children of a
    position in descending tag order, without the tombstones. Every query of a
    replica returns it, so replicas with the same nodes show the same text. *)

From S2P Require Import Prelude Utf8 Tags Forest Clock Sequence SequenceTheory Frame RGA RGAOrder RGATree RGAStore RGAPlan RGAAcyclic.
From S2P Require Import RGATheory.

(** ** The reference reading *)

(** The positions under [p], depth first. *)
Fixpoint read_under (fuel : nat) (K : gmap Position node) (p : Position) : list Position :=
  match fuel with
  | O => []
  | S fuel' => concat ((λ c, c :: read_under fuel' K c) <$> kids K p)
  end.

(** The document of the nodes [K] under the tombstones [T]. *)
Definition document (K : gmap Position node) (T : gset Position) : list Position :=
  filter (.∉ T) (read_under (S (size K)) K zeroTag).
Definition document_runes (K : gmap Position node) (T : gset Position) : list Z :=
  (λ id, match K !! id with Some n => nd_rune n | None => 0 end) <$> document K T.

(** The entries of a traversal. *)
Definition entries (l : list markerID) : list Position := (filter (λ m : markerID, m.2 = false) l).*1.

Lemma entries_app l k : entries (l ++ k) = entries l ++ entries k.
Proof. unfold entries. by rewrite filter_app, fmap_app. Qed.

Lemma entries_NoDup l : NoDup l → NoDup (entries l).
Proof.
  intros Hl. apply NoDup_fmap_2_strong; [|by apply NoDup_filter].
  intros [p e] [q e'] [He _]%list_elem_of_filter [He' _]%list_elem_of_filter. simpl in *. congruence.
Qed.

Lemma read_traversal K cs l fuel :
  traversal (kids K) cs l → (length l <= 2 * fuel)%nat → concat ((λ c, c :: read_under fuel K c) <$> cs) = entries l.
Proof.
  intros H. revert fuel. induction H as [|c cs lc l Hc IHc Hl IHl]; intros fuel Hlen; [done|].
  cbn [length] in Hlen. rewrite length_app in Hlen. cbn [length] in Hlen.
  cbn [fmap list_fmap concat app]. change (entries ((c, false) :: lc ++ (c, true) :: l)) with (c :: entries (lc ++ (c, true) :: l)).
  rewrite entries_app. change (entries ((c, true) :: l)) with (entries l). rewrite (IHl fuel) by lia. f_equal. f_equal.
  destruct fuel as [|fuel]; [lia|]. cbn [read_under]. apply IHc. lia.
Qed.

(** The visible positions of a tree. *)
Definition shown_under (T : gset Position) (p : Position) : Prop := p ≠ zeroTag ∧ p ∉ T.
#[export] Instance shown_under_dec T p : Decision (shown_under T p).
Proof. unfold shown_under. apply _. Defined.

Lemma shown_entries T links :
  (∀ m, m ∈ links → mk_visible m = marker_shown T m) → shown links = filter (shown_under T) (entries (ids links)).
Proof.
  intros Hv. unfold shown, entries. induction links as [|m links IH]; [done|].
  rewrite fmap_cons, !filter_cons. assert (mk_visible m = marker_shown T m) as Hm by (apply Hv; by left).
  specialize (IH (λ x Hx, Hv x (list_elem_of_further _ _ _ Hx))).
  assert (is_visible m ↔ mk_exit m = false ∧ shown_under T (mk_position m)) as Hiff.
  { unfold is_visible, shown_under. rewrite Hm. unfold marker_shown. rewrite !andb_true_iff, !negb_true_iff, !bool_decide_eq_false. tauto. }
  destruct (decide (is_visible m)) as [Hs|Hs]; rewrite Hiff in Hs;
    destruct (decide ((marker_id m).2 = false)) as [He|He]; cbn [marker_id snd] in He; try tauto.
  - rewrite !fmap_cons, filter_cons, decide_True by tauto. by rewrite IH.
  - rewrite fmap_cons, filter_cons, decide_False by tauto. done.
Qed.

(** The children of an integrated position are integrated. *)
Lemma kids_known r p : store_ok r → drained r → integrable (rg_nodes r) p → kids (known r) p = kids (rg_nodes r) p.
Proof.
  intros Hr Hd Hp. apply kids_unique; [apply kids_increasing|]. intros q. rewrite elem_of_kids. split.
  - intros (n & Hn & Hq). exists n. split; [by apply known_node|done].
  - intros (n & Hn & Hq). exists n. split; [|done]. apply lookup_union_Some_raw in Hn as [?|[_ Hn]]; [done|].
    destruct (Hd q n Hn). by rewrite Hq.
Qed.

Lemma tree_traversal r : store_ok r → drained r → traversal (kids (known r)) [zeroTag] (ids (si_links (rg_sequence r))).
Proof.
  intros Hr Hd. destruct (tree_links _ _ _ _ (st_tree r Hr)) as [_ Hord Hnodes _ _].
  apply (traversal_ext _ _ _ _ Hord). intros p Hp. symmetry. apply kids_known; [done..|]. by apply Hnodes.
Qed.

Lemma tree_length r : store_ok r → (length (ids (si_links (rg_sequence r))) <= 2 * S (size (known r)))%nat.
Proof.
  intros Hr. destruct (tree_links _ _ _ _ (st_tree r Hr)) as [(_ & _ & Hnd & _) Hord Hnodes _ _].
  set (ps := zeroTag :: (map_to_list (known r)).*1).
  assert (ids (si_links (rg_sequence r)) ⊆+ ((λ p, (p, false)) <$> ps) ++ ((λ p, (p, true)) <$> ps)) as Hsub.
  { apply NoDup_submseteq; [done|]. intros [p e] Hp. assert (p ∈ ps) as Hin.
    { assert ((p, false) ∈ ids (si_links (rg_sequence r))) as [->|[n Hn]]%Hnodes.
      - destruct e; [|done]. by apply (traversal_exit _ _ _ _ Hord).
      - by left.
      - right. apply list_elem_of_fmap. exists (p, n). split; [done|]. by apply elem_of_map_to_list, known_node. }
    rewrite elem_of_app, !list_elem_of_fmap. destruct e; eauto. }
  apply submseteq_length in Hsub. rewrite length_app, !length_fmap in Hsub. unfold ps in Hsub. cbn [length] in Hsub.
  rewrite length_fmap, length_map_to_list in Hsub. rewrite length_fmap. lia.
Qed.

(** The visible markers read the document. *)
Lemma shown_document r :
  store_ok r → drained r → shown (si_links (rg_sequence r)) = document (known r) (rg_tombstones r).
Proof.
  intros Hr Hd. pose proof (tree_traversal r Hr Hd) as Hord. pose proof (tree_length r Hr) as Hlen.
  destruct (tree_links _ _ _ _ (st_tree r Hr)) as [(_ & _ & Hnd & _) _ Hnodes Hroot Hvis].
  rewrite (shown_entries (rg_tombstones r)) by done. set (l := ids (si_links (rg_sequence r))) in *.
  pose proof (read_traversal (known r) _ _ (S (size (known r))) Hord Hlen) as Hread. cbn [fmap list_fmap concat] in Hread.
  rewrite app_nil_r in Hread. rewrite <-Hread. unfold document. rewrite filter_cons, decide_False by (by intros [? _]).
  apply filter_ext_in. intros p Hp. unfold shown_under. split; [by intros [_ ?]|]. intros HT. split; [|done]. intros ->.
  apply entries_NoDup in Hnd. rewrite <-Hread in Hnd. by apply NoDup_cons in Hnd as [? _].
Qed.

(** ** Queries *)

Lemma traversal_head ch c l : traversal ch [c] l → head l = Some (c, false).
Proof. by inversion 1. Qed.

Lemma visible_markers_shown r : store_ok r → mk_position <$> visible_markers r = shown (si_links (rg_sequence r)).
Proof.
  intros Hr. destruct (tree_links _ _ _ _ (st_tree r Hr)) as [_ Hord _ _ Hvis]. unfold visible_markers, shown.
  apply traversal_head in Hord. destruct (si_links (rg_sequence r)) as [|m links]; [done|].
  rewrite fmap_cons in Hord. injection Hord as Hp He. cbn [links_after]. rewrite decide_True by (unfold marker_id; congruence).
  rewrite filter_cons, decide_False; [done|]. unfold is_visible. rewrite (Hvis m) by (by left). unfold marker_shown. rewrite Hp.
  by rewrite andb_false_r.
Qed.

Lemma shown_integrated r p : store_ok r → p ∈ shown (si_links (rg_sequence r)) → is_Some (rg_nodes r !! p).
Proof.
  intros Hr. destruct (tree_links _ _ _ _ (st_tree r Hr)) as [_ _ Hnodes _ Hvis]. rewrite (shown_entries (rg_tombstones r)) by done.
  intros [[Hz _] ([q e] & -> & [He Hin]%list_elem_of_filter)%list_elem_of_fmap]%list_elem_of_filter.
  cbn [fst snd] in *. subst e. by apply Hnodes in Hin as [?|?].
Qed.

(** The queries, from the reading of the markers. *)
Lemma queries_document r :
  store_ok r → drained r →
  mk_position <$> visible_markers r = document (known r) (rg_tombstones r) ∧
  (λ m, rune_at r (mk_position m)) <$> visible_markers r = document_runes (known r) (rg_tombstones r) ∧
  RGA_Len (Some r) = len (document (known r) (rg_tombstones r)) ∧
  ∀ offset, visibleAt (rg_sequence r) offset =
    if offset <? 0 then None else document (known r) (rg_tombstones r) !! Z.to_nat offset.
Proof.
  intros Hr Hd. pose proof (visible_markers_shown r Hr) as Hm. rewrite <-(shown_document r Hr Hd).
  pose proof (tree_seq _ _ _ (tree_links _ _ _ _ (st_tree r Hr))) as Hseq. split_and!.
  - done.
  - unfold document_runes. rewrite <-(shown_document r Hr Hd), <-Hm, <-list_fmap_compose. apply list_fmap_ext.
    intros i m Hi%list_elem_of_lookup_2. unfold compose, rune_at.
    destruct (shown_integrated r (mk_position m) Hr) as [n Hn]; [rewrite <-Hm; by apply list_elem_of_fmap_2|].
    by rewrite Hn, (known_node r _ n Hn).
  - by apply visibleCount_shown.
  - intros offset. by apply visibleAt_spec.
Qed.

(** C4: the queries of a replica return the reference reading of its nodes: the
    positions, the runes, the text, the length and the position at an offset are
    those of the depth-first document without its tombstones, whatever the shape
    of the treap, the child index and the pending queue. *)
Theorem RGA_reads_document (r : RGA) (Hwf : rga_wf r) :
  let d := document (known r) (rg_tombstones r) in
  let runes := document_runes (known r) (rg_tombstones r) in
  RGA_Positions (Some r) = d ∧ VisibleRunes (Some r) = (d, runes) ∧ RGA_String (Some r) = string_of_runes runes ∧
  RGA_Len (Some r) = len d ∧
  ∀ offset, visibleAt (rg_sequence r) offset = if offset <? 0 then None else d !! Z.to_nat offset.
Proof.
  intros d runes. destruct (queries_document r (wf_store r Hwf) (wf_drained r Hwf)) as (Hpos & Hrunes & Hlen & Hat).
  fold d in Hpos, Hlen, Hat. fold runes in Hrunes. split_and!; try done.
  - unfold VisibleRunes. f_equal; done.
  - unfold RGA_String. by rewrite Hrunes.
Qed.

(** ** Deltas *)

Lemma ApplyDelta_cases r delta now :
  rga_wf r → delta_wf delta → now_wf now →
  ∃ r' res, RGA_ApplyDelta (Some r) delta now = (Some r', res) ∧
    match res with
    | Ok _ => applied r delta r' ∧ dl_nodes delta ⊆ known r'
    | Err e => r' = r ∧ (validateDelta delta = Err e ∨ apply_error r delta now e)
    end.
Proof.
  intros Hwf Hd Hnow. unfold RGA_ApplyDelta. destruct (wf_clock r Hwf) as (h & -> & _).
  destruct (validateDelta delta) as [[]|e] eqn:Hval; [|eexists _, _; split; [done|]; split; [done|by left]].
  destruct (applyDeltaLocked_spec r delta now Hwf Hval Hd Hnow) as (r' & res & -> & H).
  eexists _, _. split; [done|]. destruct res; [done|]. destruct H. auto.
Qed.

(** C25: applying a delta to a replica either adds exactly its nodes and tombstones
    and keeps the invariant, or fails and changes nothing. It fails only for a
    malformed delta, a node that conflicts with a known one, a parent cycle, a
    limit the delta would exceed, or an exhausted clock. *)
Theorem RGA_ApplyDelta_spec (r : RGA) (delta : Delta) (now : option Z)
    (Hwf : rga_wf r) (Hdelta : delta_wf delta) (Hnow : now_wf now) :
  ∃ r' res, RGA_ApplyDelta (Some r) delta now = (Some r', res) ∧ rga_wf r' ∧
    match res with
    | Ok _ =>
        known r' = known r ∪ dl_nodes delta ∧ dl_nodes delta ⊆ known r' ∧
        rg_tombstones r' = rg_tombstones r ∪ dl_tombstones delta
    | Err e => r' = r ∧ (validateDelta delta = Err e ∨ apply_error r delta now e)
    end.
Proof.
  destruct (ApplyDelta_cases r delta now Hwf Hdelta Hnow) as (r' & res & Happ & H).
  eexists r', res. split; [done|]. destruct res as [u|e].
  - destruct H as [(? & ? & ? & ? & ?) ?]. auto.
  - destruct H as [-> ?]. auto.
Qed.

(** Deltas delivered one after the other, each with a reading of the clock. *)
Fixpoint deliver (r : RGA) (ds : list (Delta * option Z)) : option RGA :=
  match ds with
  | [] => Some r
  | (d, now) :: ds' =>
      match RGA_ApplyDelta (Some r) d now with
      | (Some r', Ok _) => deliver r' ds'
      | _ => None
      end
  end.

Lemma deliver_spec r ds r' :
  rga_wf r → Forall (λ e, delta_wf e.1 ∧ now_wf e.2) ds → deliver r ds = Some r' →
  rga_wf r' ∧
  (∀ id n, known r' !! id = Some n ↔ known r !! id = Some n ∨ ∃ d, d ∈ ds.*1 ∧ dl_nodes d !! id = Some n) ∧
  (∀ t, t ∈ rg_tombstones r' ↔ t ∈ rg_tombstones r ∨ ∃ d, d ∈ ds.*1 ∧ t ∈ dl_tombstones d).
Proof.
  revert r. induction ds as [|[d now] ds IH]; intros r Hwf Hds; cbn [deliver fmap list_fmap].
  { intros [= <-]. setoid_rewrite elem_of_nil. naive_solver. }
  apply Forall_cons in Hds as [[Hd Hnow] Hds].
  destruct (ApplyDelta_cases r d now Hwf Hd Hnow) as (r1 & res & -> & H). destruct res as [u|e]; [|done].
  destruct H as [(Hwf1 & Hk & HT & _) Hsub]. intros Hdel.
  destruct (IH r1 Hwf1 Hds Hdel) as (Hwf' & Hkn & Htn). split; [done|]. setoid_rewrite elem_of_cons. split.
  - intros id n. rewrite Hkn, Hk. split.
    + intros [[?|[_ ?]]%lookup_union_Some_raw|?]; naive_solver.
    + intros [Hn|(d' & [->|Hd'] & Hn)]; [left; by apply lookup_union_Some_l| |right; eauto].
      left. rewrite <-Hk. by eapply lookup_weaken.
  - intros t. rewrite Htn, HT, elem_of_union. naive_solver.
Qed.

(** The parents that are waited for. *)
Lemma elem_of_MissingParents r p :
  store_ok r → drained r → p ∈ MissingParents (Some r) ↔ ∃ id n, rg_pending r !! id = Some n ∧ nd_parent n = p.
Proof.
  intros Hr Hd. unfold MissingParents, sortPositions. rewrite (sort_by_perm Compare), list_elem_of_filter, list_elem_of_fmap.
  fold (waiting r p). split.
  - intros [[_ Hs] _]. apply size_pos_elem_of in Hs as [id Hid]. apply (st_waiting r Hr) in Hid as (n & Hn & Hp). eauto.
  - intros (id & n & Hn & Hp). assert (id ∈ waiting r p) as Hw by (apply (st_waiting r Hr); eauto). split; [split|].
    + destruct (st_wf r Hr id n) as (_ & _ & [Hz|Hv] & _); [by apply known_pending| |congruence].
      destruct (Hd id n Hn). by left.
    + assert (size (waiting r p) ≠ 0%nat); [|lia]. intros Hs%size_empty_inv. set_solver.
    + unfold waiting in Hw. destruct (rg_waitingByParent r !! p) as [s|] eqn:Hs; [|set_solver].
      exists (p, s). by rewrite elem_of_map_to_list.
Qed.

Lemma MissingParents_increasing r : increasing Compare (MissingParents (Some r)).
Proof.
  apply sort_by_increasing; [apply _|]. apply NoDup_filter, NoDup_fst_map_to_list.
Qed.

(** What a replica shows. *)
Definition observed (r : RGA) : list Position * list Z * bytes * Z * list Position * list Position :=
  (VisibleRunes (Some r), RGA_String (Some r), PendingCount (Some r), MissingParents (Some r), RGA_TombstoneTags (Some r)).

Lemma observed_determined r1 r2 :
  rga_wf r1 → rga_wf r2 → known r1 = known r2 → rg_tombstones r1 = rg_tombstones r2 → observed r1 = observed r2.
Proof.
  intros [Hr1 Hd1 _ _ _ _] [Hr2 Hd2 _ _ _ _] Hk HT.
  pose proof (integrated_determined r1 r2 Hr1 Hd1 Hr2 Hd2 Hk) as Hn.
  pose proof (pending_determined r1 r2 Hr1 Hr2 Hk Hn) as Hp.
  destruct (queries_document r1 Hr1 Hd1) as (Hpos1 & Hru1 & _), (queries_document r2 Hr2 Hd2) as (Hpos2 & Hru2 & _).
  unfold observed, VisibleRunes, RGA_String, PendingCount, RGA_TombstoneTags.
  assert (MissingParents (Some r1) = MissingParents (Some r2)) as ->; [|by rewrite Hpos1, Hru1, Hpos2, Hru2, Hk, HT, Hp].
  apply (increasing_ext Compare); [apply MissingParents_increasing..|].
  intros p. rewrite !elem_of_MissingParents by done. by rewrite Hp.
Qed.

(** C1: strong eventual convergence. Two replicas that start from the same document
    and apply the same deltas, in any order and any number of times, show the same
    positions, text, pending nodes, missing parents and tombstones. *)
Theorem RGA_convergence (r1 r2 r1' r2' : RGA) (ds1 ds2 : list (Delta * option Z))
    (Hwf1 : rga_wf r1) (Hwf2 : rga_wf r2) (Hk : known r1 = known r2) (HT : rg_tombstones r1 = rg_tombstones r2)
    (Hds1 : Forall (λ e, delta_wf e.1 ∧ now_wf e.2) ds1) (Hds2 : Forall (λ e, delta_wf e.1 ∧ now_wf e.2) ds2)
    (Hsame : ∀ d, d ∈ ds1.*1 ↔ d ∈ ds2.*1)
    (Hdel1 : deliver r1 ds1 = Some r1') (Hdel2 : deliver r2 ds2 = Some r2') :
  observed r1' = observed r2'.
Proof.
  destruct (deliver_spec r1 ds1 r1' Hwf1 Hds1 Hdel1) as (Hwf1' & Hk1 & HT1).
  destruct (deliver_spec r2 ds2 r2' Hwf2 Hds2 Hdel2) as (Hwf2' & Hk2 & HT2).
  apply observed_determined; [done..| |].
  - apply map_eq. intros id. apply option_eq. intros n. rewrite Hk1, Hk2, Hk. by setoid_rewrite Hsame.
  - apply set_eq. intros t. rewrite HT1, HT2, HT. by setoid_rewrite Hsame.
Qed.

(** ** The fast path *)

(** Two replicas that differ at most in the shape of their indexes. *)
Definition same_content (r1 r2 : RGA) : Prop :=
  rg_replicaID r1 = rg_replicaID r2 ∧ rg_clock r1 = rg_clock r2 ∧ rg_options r1 = rg_options r2 ∧
  rg_nodes r1 = rg_nodes r2 ∧ rg_pending r1 = rg_pending r2 ∧ rg_pendingBytes r1 = rg_pendingBytes r2 ∧
  rg_tombstones r1 = rg_tombstones r2 ∧ rg_version r1 = rg_version r2 ∧
  ids (si_links (rg_sequence r1)) = ids (si_links (rg_sequence r2)) ∧ observed r1 = observed r2.

Lemma content_determined r1 r2 :
  rga_wf r1 → rga_wf r2 → known r1 = known r2 → rg_tombstones r1 = rg_tombstones r2 →
  rg_replicaID r1 = rg_replicaID r2 → rg_clock r1 = rg_clock r2 → rg_options r1 = rg_options r2 →
  rg_version r1 = rg_version r2 → same_content r1 r2.
Proof.
  intros Hwf1 Hwf2 Hk HT Hi Hc Ho Hv. pose proof Hwf1 as [Hr1 Hd1 _ _ _ _]. pose proof Hwf2 as [Hr2 Hd2 _ _ _ _].
  pose proof (integrated_determined r1 r2 Hr1 Hd1 Hr2 Hd2 Hk) as Hn.
  pose proof (pending_determined r1 r2 Hr1 Hr2 Hk Hn) as Hp.
  unfold same_content. split_and!; try done.
  - by rewrite (st_bytes r1 Hr1), (st_bytes r2 Hr2), Hp.
  - pose proof (tree_traversal r1 Hr1 Hd1) as H1. pose proof (tree_traversal r2 Hr2 Hd2) as H2. rewrite Hk in H1.
    by eapply traversal_functional.
  - by apply observed_determined.
Qed.

Lemma run_plan_exceeds r delta l :
  rga_wf r → map_Forall node_wf (dl_nodes delta) → resolvedLinearRunLocked r delta = Some l →
  plan_exceeds r delta (planDelta r delta) = run_exceeds r delta.
Proof.
  intros Hwf HD Hrun. pose proof (wf_store r Hwf) as Hr.
  destruct (run_rooted r delta l Hwf HD Hrun) as (Hpl & Hroot & _).
  destruct (planDelta_spec r delta Hr HD) as (Hpn & _ & _ & _ & S & HS & Hcount & Hbytes).
  assert (filter (λ e : Position * node, e.1 ∉ S) (map_to_list (planned_of r delta)) = []) as HU.
  { destruct (filter _ _) as [|[id n] U] eqn:E; [done|]. exfalso.
    assert ((id, n) ∈ (id, n) :: U) as Hin by (by left). rewrite <-E in Hin.
    apply list_elem_of_filter in Hin as [Hs Hn%elem_of_map_to_list]. apply Hs. cbn [fst]. apply HS. split; [eauto|].
    rewrite Hpl in *. apply Hroot. eauto. }
  rewrite HU in Hcount, Hbytes. change (len []) with 0 in Hcount. change (bytes_of []) with 0 in Hbytes.
  unfold plan_exceeds. rewrite Hpn, Hcount, Hbytes, newTombstones_spec, <-size_known_planned by done.
  destruct (wf_limits r Hwf) as (_ & _ & Hlp & Hlb). rewrite !Z.add_0_r.
  rewrite (proj2 (Z.ltb_ge _ _) Hlp), (proj2 (Z.ltb_ge _ _) Hlb), !orb_false_r. done.
Qed.

(** C13: the fast path of a linear run is the generic path: on every delta it
    accepts, both return the same result and leave the same clock, version, nodes,
    tombstones, marker order and text. *)
Theorem RGA_fast_path (r : RGA) (delta : Delta) (l : list Position) (now : option Z)
    (Hwf : rga_wf r) (Hval : validateDelta delta = Ok tt) (Hdelta : delta_wf delta) (Hnow : now_wf now)
    (Hrun : resolvedLinearRunLocked r delta = Some l) :
  let fast := applyResolvedLinearRunLocked r delta l now in
  let generic := applyPlannedLocked r delta now in
  fast.2 = generic.2 ∧ same_content fast.1 generic.1.
Proof.
  pose proof Hval as [HD _]%validateDelta_Ok. pose proof (wf_store r Hwf) as Hr.
  destruct (run_rooted r delta l Hwf HD Hrun) as (Hpl & _ & Hends).
  destruct (resolvedLinearRun_spec r delta l HD Hrun) as (first & run & -> & _ & Hin & _ & _ & _ & Hfresh).
  assert (tag_conflict r delta = false) as Hag.
  { apply tag_conflict_spec; [done|]. intros id n n' Hn Hn'. destruct (Hfresh id) as [H1 H2]; [apply Hin; eauto|].
    apply lookup_union_Some_raw in Hn as [?|[_ ?]]; congruence. }
  pose proof (proj2 (acyclicAgainst_union r delta Hr HD (wf_acyclic r Hwf) Hag) Hends) as Hac.
  pose proof (run_plan_exceeds r delta _ Hwf HD Hrun) as Hlim.
  pose proof (run_completes r delta _ now Hwf Hval Hdelta Hnow Hrun) as Hfast.
  destruct (run_exceeds r delta).
  { rewrite Hfast. unfold applyPlannedLocked. rewrite Hac, Hlim. split; [done|]. by apply content_determined. }
  pose proof (planned_completes r delta now Hwf Hval Hdelta Hnow Hends Hac Hlim) as Hgen.
  unfold completes in *. destruct (witness_delta r delta now) as [w [u|e]].
  - destruct Hfast as (r1 & -> & (Hwf1 & Hk1 & HT1 & Ho1 & Hi1) & Hc1 & Hv1), Hgen as (r2 & -> & (Hwf2 & Hk2 & HT2 & Ho2 & Hi2) & Hc2 & Hv2).
    split; [done|]. cbn [fst]. assert (planned_of r delta ≠ ∅) as Hne.
    { rewrite Hpl. intros He. destruct (proj1 (Hin first)) as [n Hn]; [by left|]. by rewrite He in Hn. }
    apply content_determined; try done; [congruence..|]. by rewrite Hv1, Hv2.
  - destruct Hfast as [-> _], Hgen as [-> _]. split; [done|]. by apply content_determined.
Qed.

(** ** Progress *)

(** A replica that waits names what it waits for. While nodes are pending, some
    missing parent has not been received; when no reported parent is missing, nothing
    is pending. *)
Theorem RGA_pending_progress (r : RGA) (Hwf : rga_wf r) (Hpending : 0 < PendingCount (Some r)) :
  ∃ p, p ∈ MissingParents (Some r) ∧ Valid p = true ∧ RetainsPosition (Some r) p = false.
Proof.
  pose proof Hwf as [Hr Hd Hac _ _ _].
  assert (∀ id n, ends (known r) id → rg_pending r !! id = Some n →
    ∃ p, p ∈ MissingParents (Some r) ∧ known r !! p = None) as H.
  { intros id n He. revert n. induction He as [id Hid|id m Hm He IH]; intros n Hn.
    - rewrite (known_pending r Hr id n Hn) in Hid. done.
    - assert (m = n) as -> by (pose proof (known_pending r Hr id n Hn); congruence).
      destruct (known r !! nd_parent n) as [n'|] eqn:Hp.
      + apply lookup_union_Some_raw in Hp as [Hp|[_ Hp]]; [destruct (Hd id n Hn); right; eauto|]. by eapply IH.
      + exists (nd_parent n). split; [|done]. apply elem_of_MissingParents; eauto. }
  cbn [PendingCount] in Hpending. destruct (map_choose (rg_pending r)) as (id & n & Hn).
  { intros He. rewrite He, map_size_empty in Hpending. lia. }
  destruct (H id n (Hac id) Hn) as (p & Hp & Hk). exists p. split; [done|].
  assert (Valid p = true) as Hv.
  { apply elem_of_MissingParents in Hp as (q & m & Hq & <-); [|done..].
    destruct (st_wf r Hr q m) as (_ & _ & [Hz|?] & _); [by apply known_pending| |done]. destruct (Hd q m Hq). by left. }
  split; [done|]. unfold RetainsPosition, retainsPositionLocked. rewrite Hv. cbn [negb].
  apply lookup_union_None in Hk as [-> ->]. done.
Qed.

(** ** Examples *)

Lemma delta_wf_tags d : Forall tag_wf (delta_tags d) → delta_wf d.
Proof. intros Hd t Ht. rewrite Forall_forall in Hd. by apply Hd, elem_of_delta_tags. Qed.

(** A new replica of ["a"]. *)
Definition fresh_text : RGA :=
  mkRGA (str "a") (Some (mkHLC (str "a") 0 0)) DefaultOptions ∅ ∅ ∅ 0 ∅ 0 newSequenceIndex ∅.

Lemma fresh_wf : rga_wf fresh_text.
Proof. by apply (New_wf (mkClockState (str "a") 0 0) DefaultOptions). Qed.

(** ["abc"] typed at ["b"], and the deletion of its second rune. *)
Definition typed : Delta :=
  mkDelta {[mkTag (str "b") 1 0 := mkNode zeroTag 97; mkTag (str "b") 2 0 := mkNode (mkTag (str "b") 1 0) 98;
            mkTag (str "b") 3 0 := mkNode (mkTag (str "b") 2 0) 99]} ∅ [].
Definition erased : Delta := mkDelta ∅ {[mkTag (str "b") 2 0]} [].
Definition typed_erased : Delta := mkDelta (dl_nodes typed) (dl_tombstones erased) [].
Definition typed_tail : Delta := mkDelta (dl_nodes typed) {[mkTag (str "b") 2 0; mkTag (str "b") 3 0]} [].
(** Its third rune alone. *)
Definition orphan : Delta := mkDelta {[mkTag (str "b") 3 0 := mkNode (mkTag (str "b") 2 0) 99]} ∅ [].
(** A run of sixteen runes. *)
Definition long_run : Delta :=
  mkDelta (list_to_map ((λ i, (mkTag (str "b") (Z.of_nat (S i)) 0,
    mkNode (match i with O => zeroTag | S _ => mkTag (str "b") (Z.of_nat i) 0 end) 120)) <$> seq 0 16)) ∅ [].

Lemma example_deltas : Forall delta_wf [typed; erased; typed_erased; typed_tail; orphan; long_run].
Proof.
  rewrite !Forall_cons, Forall_nil. split_and!; [apply delta_wf_tags; apply (bool_decide_unpack _); vm_compute; exact I..|done].
Qed.

(** A delta that is applied to a new replica. *)
Lemma example_applied d :
  d ∈ [typed; erased; typed_erased; typed_tail; orphan; long_run] →
  ∃ r, RGA_ApplyDelta (Some fresh_text) d (Some 5) = (Some r, Ok tt) ∧ applied fresh_text d r.
Proof.
  intros Hd. pose proof (proj1 (Forall_forall _ _) example_deltas d Hd) as Hwf.
  destruct (ApplyDelta_cases fresh_text d (Some 5) fresh_wf Hwf) as (r & res & Happ & H); [done|].
  assert (res = (RGA_ApplyDelta (Some fresh_text) d (Some 5)).2) as Hres by (by rewrite Happ).
  assert (Forall (λ d, (RGA_ApplyDelta (Some fresh_text) d (Some 5)).2 = Ok tt) [typed; erased; typed_erased; typed_tail; orphan; long_run]) as Hok.
  { rewrite !Forall_cons, Forall_nil. split_and!; [vm_compute; reflexivity..|done]. }
  rewrite Forall_forall in Hok. rewrite (Hok d Hd) in Hres. subst res. exists r. exact (conj Happ (proj1 H)).
Qed.

Lemma example_known d r : applied fresh_text d r → known r = dl_nodes d ∧ rg_tombstones r = dl_tombstones d.
Proof.
  intros (_ & Hk & HT & _). rewrite Hk, HT. unfold known. change (rg_nodes fresh_text) with (∅ : gmap Position node).
  change (rg_pending fresh_text) with (∅ : gmap Position node). change (rg_tombstones fresh_text) with (∅ : gset Position).
  by rewrite !(left_id_L ∅ union).
Qed.

Lemma RGA_reads_document_witness :
  ∃ r, RGA_ApplyDelta (Some fresh_text) typed_erased (Some 5) = (Some r, Ok tt) ∧
    RGA_Positions (Some r) = [mkTag (str "b") 1 0; mkTag (str "b") 3 0] ∧ RGA_String (Some r) = str "ac".
Proof.
  destruct (example_applied typed_erased) as (r & Happ & H); [do 2 right; left|]. exists r. split; [exact Happ|].
  destruct (example_known _ _ H) as [Hk HT]. destruct H as (Hwf & _).
  destruct (RGA_reads_document r Hwf) as (-> & _ & -> & _). rewrite Hk, HT. split; vm_compute; reflexivity.
Defined.

Lemma RGA_ApplyDelta_spec_witness :
  ∃ r, RGA_ApplyDelta (Some fresh_text) typed (Some 5) = (Some r, Ok tt) ∧ rga_wf r ∧ known r = known fresh_text ∪ dl_nodes typed.
Proof.
  destruct (RGA_ApplyDelta_spec fresh_text typed (Some 5)) as (r & res & Happ & Hwf & H);
    [exact fresh_wf|apply delta_wf_tags; apply (bool_decide_unpack _); vm_compute; exact I|vm_compute; split; congruence|].
  assert (res = Ok tt) as ->.
  { transitivity ((RGA_ApplyDelta (Some fresh_text) typed (Some 5)).2); [by rewrite Happ|vm_compute; reflexivity]. }
  destruct H as (Hk & _). exists r. exact (conj Happ (conj Hwf Hk)).
Defined.

(** The deltas of a typing and a deletion, in two orders, one twice. *)
Lemma RGA_convergence_witness :
  ∃ r1 r2, deliver fresh_text [(typed, Some 5); (erased, Some 6)] = Some r1 ∧
    deliver fresh_text [(erased, Some 3); (typed, Some 4); (erased, Some 9)] = Some r2 ∧ observed r1 = observed r2.
Proof.
  destruct (deliver fresh_text [(typed, Some 5); (erased, Some 6)]) as [r1|] eqn:E1;
    [|exfalso; apply (f_equal (λ o, match o with Some _ => true | None => false end)) in E1; revert E1; vm_compute; discriminate].
  destruct (deliver fresh_text [(erased, Some 3); (typed, Some 4); (erased, Some 9)]) as [r2|] eqn:E2;
    [|exfalso; apply (f_equal (λ o, match o with Some _ => true | None => false end)) in E2; revert E2; vm_compute; discriminate].
  exists r1, r2. split; [reflexivity|split; [reflexivity|]].
  pose proof example_deltas as Hw. rewrite !Forall_cons in Hw. destruct Hw as (Ht & He & _).
  refine (RGA_convergence fresh_text fresh_text r1 r2 _ _ fresh_wf fresh_wf eq_refl eq_refl _ _ _ E1 E2).
  - repeat apply Forall_cons_2; [split; [exact Ht|vm_compute; split; congruence]|split; [exact He|vm_compute; split; congruence]|apply Forall_nil_2].
  - repeat apply Forall_cons_2; [split; [exact He|vm_compute; split; congruence]|split; [exact Ht|vm_compute; split; congruence]|
      split; [exact He|vm_compute; split; congruence]|apply Forall_nil_2].
  - generalize typed erased. intros d1 d2 d. cbn [fmap list_fmap fst]. rewrite !elem_of_cons. tauto.
Defined.

Lemma RGA_fast_path_witness :
  let ids := sortedNodeIDs (dl_nodes long_run) in
  resolvedLinearRunLocked fresh_text long_run = Some ids ∧
  same_content (applyResolvedLinearRunLocked fresh_text long_run ids (Some 7)).1 (applyPlannedLocked fresh_text long_run (Some 7)).1.
Proof.
  intros ids. assert (resolvedLinearRunLocked fresh_text long_run = Some ids) as Hrun by (vm_compute; reflexivity).
  split; [exact Hrun|]. pose proof example_deltas as Hw. rewrite !Forall_cons in Hw. destruct Hw as (_ & _ & _ & _ & _ & Hl & _).
  refine (proj2 (RGA_fast_path fresh_text long_run ids (Some 7) fresh_wf _ Hl _ Hrun)); [vm_compute; reflexivity|vm_compute; split; congruence].
Defined.

(** A rune whose predecessors have not arrived. *)
Lemma RGA_pending_progress_witness :
  ∃ r p, RGA_ApplyDelta (Some fresh_text) orphan (Some 5) = (Some r, Ok tt) ∧ p ∈ MissingParents (Some r) ∧
    RetainsPosition (Some r) p = false.
Proof.
  destruct (example_applied orphan) as (r & Happ & H); [do 4 right; left|].
  assert (PendingCount (RGA_ApplyDelta (Some fresh_text) orphan (Some 5)).1 = 1) as Hp by (vm_compute; reflexivity).
  rewrite Happ in Hp. destruct H as (Hwf & _).
  destruct (RGA_pending_progress r Hwf) as (p & Hp' & _ & Hr); [cbn [fst] in Hp; rewrite Hp; lia|]. exists r, p. exact (conj Happ (conj Hp' Hr)).
Defined.
