(* ===== verification/RGAEdit.v ===== *)
(** * Local edits of the text RGA

    Inserting text makes a chain of nodes under the position before the offset,
    whose tags exceed every tag the replica has seen, so that the chain is read
    right after that position. Deleting hides the positions of a range. *)

From S2P Require Import Prelude Utf8 Tags Forest Clock Sequence SequenceTheory Frame RGA RGAOrder RGATree RGAStore RGAPlan RGAAcyclic.
From S2P Require Import RGATheory RGAText.

(** ** Reading an inserted run *)

(** The visible positions of a list of markers. *)
Definition visible_in (T : gset Position) (l : list markerID) : list Position := filter (shown_under T) (entries l).

Lemma visible_in_app T l k : visible_in T (l ++ k) = visible_in T l ++ visible_in T k.
Proof. unfold visible_in. by rewrite entries_app, filter_app. Qed.

Lemma document_union K T D : document K (T ∪ D) = filter (.∉ D) (document K T).
Proof. unfold document. rewrite list_filter_filter. apply list_filter_iff. set_solver. Qed.

(** More tombstones hide more. *)
Lemma visible_in_union T D l : visible_in (T ∪ D) l = filter (.∉ D) (visible_in T l).
Proof.
  unfold visible_in. rewrite list_filter_filter. apply list_filter_iff. intros p. unfold shown_under. set_solver.
Qed.

Lemma entries_run run : entries (run_ids run) = run.
Proof.
  unfold run_ids. rewrite entries_app. assert (entries ((λ id, (id, false)) <$> run) = run) as ->.
  { unfold entries. induction run as [|id run IH]; [done|]. rewrite fmap_cons, filter_cons, decide_True by done. by rewrite fmap_cons, IH. }
  assert (∀ l : list Position, entries ((λ id, (id, true)) <$> l) = []) as Hx.
  { unfold entries. induction l as [|id l IH]; [done|]. by rewrite fmap_cons, filter_cons, decide_False. }
  rewrite <-fmap_reverse, Hx. apply app_nil_r.
Qed.

Lemma read_run r r' f p first run :
  store_ok r → drained r → store_ok r' → drained r' →
  known r' = add_run f (known r) (first :: run) →
  integrable (rg_nodes r) p → chain f p (first :: run) → NoDup (first :: run) →
  (∀ id, id ∈ first :: run → shown_under (rg_tombstones r') id ∧ known r !! id = None ∧ kids (known r) id = []) →
  Forall (λ y, Compare y first < 0) (kids (known r) p) →
  ∃ a b, ids (si_links (rg_sequence r)) = a ++ (p, false) :: b ∧
    shown (si_links (rg_sequence r)) = visible_in (rg_tombstones r) (a ++ [(p, false)]) ++ visible_in (rg_tombstones r) b ∧
    shown (si_links (rg_sequence r')) =
      visible_in (rg_tombstones r') (a ++ [(p, false)]) ++ (first :: run) ++ visible_in (rg_tombstones r') b.
Proof.
  intros Hr Hd Hr' Hd' Hk Hp Hch Hnd Hfresh Hlast.
  pose proof (tree_traversal r Hr Hd) as Hord. pose proof (tree_traversal r' Hr' Hd') as Hord'.
  destruct (tree_links _ _ _ _ (st_tree r Hr)) as [(_ & _ & Hndl & _) _ Hnodes _ Hvis].
  pose proof (tree_visible _ _ _ (tree_links _ _ _ _ (st_tree r' Hr'))) as Hvis'.
  assert ((p, false) ∈ ids (si_links (rg_sequence r))) as Hin by (by apply Hnodes).
  pose proof Hin as (a & b & Hab)%list_elem_of_split. exists a, b. split; [done|].
  rewrite (shown_entries (rg_tombstones r)), (shown_entries (rg_tombstones r')) by done.
  rewrite cons_middle, app_assoc in Hab. fold (visible_in (rg_tombstones r) (ids (si_links (rg_sequence r)))).
  fold (visible_in (rg_tombstones r') (ids (si_links (rg_sequence r')))).
  split; [by rewrite Hab, visible_in_app|]. rewrite Hab in Hord, Hndl, Hin.
  assert (traversal (kids (add_run f (known r) (first :: run))) [zeroTag]
    ((a ++ [(p, false)]) ++ run_ids (first :: run) ++ b)) as Hrun.
  { apply (traversal_run f run (known r) p [] (kids (known r) p)); try done; [by rewrite last_snoc|].
    intros id e Hid. destruct (Hfresh id Hid) as ([Hz _] & Hn & Hkid). split_and!; [done..|]. rewrite <-Hab.
    apply (tree_fresh_ids (tree_links _ _ _ _ (st_tree r Hr))); [done|]. by apply lookup_union_None in Hn as [? _]. }
  rewrite Hk in Hord'. rewrite (traversal_functional _ _ _ _ Hord' Hrun), !visible_in_app. do 2 f_equal.
  unfold visible_in. rewrite entries_run. apply filter_all. intros id Hid. by apply Hfresh.
Qed.

(** ** The chain of an insertion *)

(** The nodes of a chain of runes. *)
Fixpoint chain_nodes (p : Position) (ids : list Position) (rs : list Z) (nodes : gmap Position node) : gmap Position node :=
  match ids, rs with
  | id :: ids', x :: rs' => chain_nodes id ids' rs' (<[id := mkNode p x]> nodes)
  | _, _ => nodes
  end.

(** The loop takes a tag above the clock for every rune. *)
Lemma insert_nodes_spec times h p rs nodes ids :
  hlc_wf h → (∀ i, now_wf (times i)) →
  match insert_nodes times (Some h) p rs nodes ids with
  | (c, Ok (nodes', ids')) =>
      ∃ h' new, c = Some h' ∧ hlc_wf h' ∧ replicaID h' = replicaID h ∧ ts_le (hlc_tag h) (hlc_tag h') ∧
        ids' = ids ++ new ∧ length new = length rs ∧ nodes' = chain_nodes p new rs nodes ∧ StronglySorted ts_lt new ∧
        Forall (λ t, ts_lt (hlc_tag h) t ∧ ts_le t (hlc_tag h') ∧ Valid t = true ∧ tag_wf t) new
  | (c, Err e) =>
      ∃ h' i, c = Some h' ∧ hlc_wf h' ∧ replicaID h' = replicaID h ∧ ts_le (hlc_tag h) (hlc_tag h') ∧ e = ErrClockExhausted ∧
        (i < length rs)%nat ∧ exhausted (Some h') (times i) (λ _, False)
  end.
Proof.
  revert times h p nodes ids. induction rs as [|x rs IH]; intros times h p nodes ids Hwf Ht; cbn [insert_nodes].
  { exists h, []. rewrite app_nil_r. split_and!; try done; [unfold ts_le; lia|constructor]. }
  destruct (Now (Some h) (times 0%nat)) as [c [id|e]] eqn:Hnow.
  - apply Now_spec in Hnow as (h1 & -> & Hwf1 & -> & Hid1 & Hlt); [|done..].
    specialize (IH (λ i, times (S i)) h1 (hlc_tag h1) (<[hlc_tag h1 := mkNode p x]> nodes) (ids ++ [hlc_tag h1]) Hwf1 (λ i, Ht (S i))).
    destruct (insert_nodes _ _ _ _ _ _) as [c [[nodes' ids']|e]].
    + destruct IH as (h' & new & -> & Hwf' & Hid' & Hle & -> & Hlen & -> & Hs & Hall).
      exists h', (hlc_tag h1 :: new). rewrite <-app_assoc. split_and!; try done.
      * congruence.
      * unfold ts_le, ts_lt in *. lia.
      * simpl. by rewrite Hlen.
      * constructor; [done|]. eapply Forall_impl; [exact Hall|]. by intros t (? & _).
      * constructor; [split_and!; [done|done|apply Hwf1|split; apply Hwf1]|]. eapply Forall_impl; [exact Hall|].
        intros t (? & ? & ?). split_and!; try apply H1; try done. unfold ts_lt in *. lia.
    + destruct IH as (h' & i & -> & Hwf' & Hid' & Hle & -> & Hi & Hex). exists h', (S i).
      split_and!; try done; [congruence|unfold ts_le, ts_lt in *; lia|cbn [length]; lia].
  - apply Now_refused in Hnow as (-> & -> & Hex). exists h, 0%nat.
    split_and!; try done; [unfold ts_le; lia|cbn [length]; lia].
Qed.

Lemma ts_sorted_NoDup l : StronglySorted ts_lt l → NoDup l.
Proof.
  induction 1 as [|t l Hl IH Ht]; constructor; [|done]. intros Hin. rewrite Forall_forall in Ht. specialize (Ht t Hin).
  unfold ts_lt in Ht. lia.
Qed.

(** The node of a chain. *)
Definition node_of (m : gmap Position node) (id : Position) : node := default (mkNode zeroTag 0) (m !! id).

Lemma chain_ext f g p l : (∀ id, id ∈ l → f id = g id) → chain f p l → chain g p l.
Proof.
  revert p. induction l as [|id l IH]; intros p Heq; [done|]. intros [Hp Hc]. split; [by rewrite <-Heq by (by left)|].
  apply IH; [|done]. intros q Hq. apply Heq. by right.
Qed.

Lemma chain_nodes_spec p ids rs nodes :
  StronglySorted ts_lt (p :: ids) → length ids = length rs →
  let m := chain_nodes p ids rs nodes in
  (∀ q, q ∉ ids → m !! q = nodes !! q) ∧
  (∀ q, q ∈ ids → ∃ n, m !! q = Some n ∧ ts_lt (nd_parent n) q ∧ nd_rune n ∈ rs ∧ (nd_parent n = p ∨ nd_parent n ∈ ids)) ∧
  chain (node_of m) p ids ∧ nd_rune ∘ node_of m <$> ids = rs.
Proof.
  revert p rs nodes. induction ids as [|id ids IH]; intros p rs nodes Hs Hlen; destruct rs as [|x rs]; try done.
  - split_and!; try done. by intros q ?%elem_of_nil.
  - apply StronglySorted_inv in Hs as [Hs Hp]. cbn [chain_nodes]. injection Hlen as Hlen.
    destruct (IH id rs (<[id := mkNode p x]> nodes) Hs Hlen) as (Hout & Hin & Hch & Hrs).
    set (m := chain_nodes _ _ _ _) in *. pose proof (ts_sorted_NoDup _ Hs) as [Hid _]%NoDup_cons.
    assert (m !! id = Some (mkNode p x)) as Hm by (rewrite Hout by done; apply lookup_insert_eq).
    assert (node_of m id = mkNode p x) as Hn by (unfold node_of; by rewrite Hm). split_and!.
    + intros q Hq. rewrite elem_of_cons in Hq. rewrite Hout by tauto. apply lookup_insert_ne. naive_solver.
    + intros q [->|Hq]%elem_of_cons.
      * exists (mkNode p x). split_and!; [done| |by left|by left]. apply Forall_cons in Hp as [? _]. done.
      * destruct (Hin q Hq) as (n & ? & ? & ? & Hpar). exists n. split_and!; [done|done|by right|].
        right. destruct Hpar as [->|?]; [by left|by right].
    + cbn [chain]. by rewrite Hn.
    + rewrite fmap_cons, Hrs. unfold compose. by rewrite Hn.
Qed.

Lemma add_run_union K m ids :
  NoDup ids → (∀ q, q ∈ ids ↔ is_Some (m !! q)) → (∀ q, q ∈ ids → K !! q = None) → add_run (node_of m) K ids = K ∪ m.
Proof.
  intros Hnd Hdom Hfresh. apply map_eq. intros q. rewrite add_run_lookup by done. rewrite lookup_union.
  destruct (decide (q ∈ ids)) as [Hq|Hq].
  - rewrite (Hfresh q Hq), (left_id_L None union). apply Hdom in Hq as [n Hn]. unfold node_of. by rewrite Hn.
  - rewrite Hdom in Hq. apply eq_None_not_Some in Hq. by rewrite Hq, (right_id_L None union).
Qed.

(** What passes from parent to child holds along a chain. *)
Lemma chain_closed (P : Position → Prop) f (K : gmap Position node) p l :
  (∀ id n, K !! id = Some n → P (nd_parent n) → P id) → chain f p l → P p →
  (∀ id, id ∈ l → K !! id = Some (f id)) → ∀ id, id ∈ l → P id.
Proof.
  intros HP. revert p. induction l as [|q l IH]; intros p Hch Hp Hl id; [by intros ?%elem_of_nil|]. destruct Hch as [Hq Hch].
  assert (P q) as He by (apply (HP q (f q)); [apply Hl; by left|by rewrite Hq]).
  intros [->|Hid]%elem_of_cons; [done|]. apply (IH q); try done. intros x Hx. apply Hl. by right.
Qed.

Lemma set_clock_wf r h h' :
  rga_wf r → rg_clock r = Some h → hlc_wf h' → replicaID h' = replicaID h → ts_le (hlc_tag h) (hlc_tag h') →
  rga_wf (set_clock r (Some h')).
Proof.
  intros [Hr Hd Hac Ht (h0 & Hh0 & _ & Hid0 & Hcov) Hlim] Hh Hwf Hid Hle. rewrite Hh in Hh0. injection Hh0 as <-.
  split; try done; [by apply store_clock|]. exists h'. split_and!; try done; [by rewrite Hid|].
  intros t Htag. destruct (Hcov t Htag) as [? ?]. split; [done|]. unfold ts_le in *. lia.
Qed.

(** A position after which text is inserted: the start or an integrated node. *)
Lemma insert_anchor_ts r h p :
  rga_wf r → rg_clock r = Some h → integrable (rg_nodes r) p →
  ts_le p (hlc_tag h) ∧ (p = zeroTag ∨ Valid p = true) ∧ (p = zeroTag ∨ tag_wf p).
Proof.
  intros Hwf Hh [->|[n Hn]]; destruct (wf_clock r Hwf) as (h0 & Hh0 & Hhw & _ & Hcov); rewrite Hh in Hh0; injection Hh0 as <-.
  - destruct Hhw as (_ & Hw & Hl). unfold is_u64 in *. split; [|by auto]. unfold ts_le. cbn. lia.
  - destruct (Hcov p) as [Htw Hle]; [left; exists n; by apply known_node|]. split; [done|].
    destruct (st_wf r (wf_store r Hwf) p n) as (Hv & _); [by apply known_node|]. auto.
Qed.

(** The positions of the document are known, valid tags. *)
Lemma document_known r id : store_ok r → drained r → id ∈ document (known r) (rg_tombstones r) → is_Some (known r !! id).
Proof.
  intros Hr Hd Hid. rewrite <-shown_document in Hid by done. destruct (shown_integrated r id Hr Hid) as [n Hn].
  exists n. by apply known_node.
Qed.

Lemma document_tag r id :
  rga_wf r → id ∈ document (known r) (rg_tombstones r) → is_Some (known r !! id) ∧ Valid id = true ∧ tag_wf id.
Proof.
  intros Hwf Hid. pose proof Hwf as [Hr Hd _ _ (h & _ & _ & _ & Hcov) _].
  destruct (document_known r id Hr Hd Hid) as [n Hn]. split; [eauto|].
  destruct (st_wf r Hr id n Hn) as (Hv & _). split; [done|]. apply Hcov. left. eauto.
Qed.

Section insertion.
Context (r : RGA) (h h' : HLC) (p : Position) (rs : list Z) (new : list Position).
Context (Hwf : rga_wf r) (Hh : rg_clock r = Some h) (Hp : integrable (rg_nodes r) p).
Context (Hrs : Forall (λ x, ValidRune x = true) rs) (Hlen : length new = length rs).
Context (Hsorted : StronglySorted ts_lt new).
Context (Hnew : Forall (λ t, ts_lt (hlc_tag h) t ∧ ts_le t (hlc_tag h') ∧ Valid t = true ∧ tag_wf t) new).
Context (Hwf' : hlc_wf h') (Hid' : replicaID h' = replicaID h) (Hle' : ts_le (hlc_tag h) (hlc_tag h')).
Context (D : gset Position) (HD : ∀ t, t ∈ D → t ∈ document (known r) (rg_tombstones r)).

Abbreviation m := (chain_nodes p new rs ∅).

Lemma insertion_sorted : StronglySorted ts_lt (p :: new).
Proof using All.
  destruct (insert_anchor_ts r h p Hwf Hh Hp) as (Hle & _). constructor; [done|]. eapply Forall_impl; [exact Hnew|].
  intros t (Hlt & _). unfold ts_le, ts_lt in *. lia.
Qed.

(** A new tag is above everything the replica knows. *)
Lemma insertion_fresh id :
  id ∈ new → (∀ t, tagged (known r) (rg_tombstones r) t → ts_lt t id) ∧ shown_under (rg_tombstones r) id ∧ known r !! id = None ∧
    kids (known r) id = [].
Proof using All.
  intros Hid. destruct (proj1 (Forall_forall _ _) Hnew id Hid) as (Hlt & _ & Hv & _).
  destruct (wf_clock r Hwf) as (h0 & Hh0 & _ & _ & Hcov). rewrite Hh in Hh0. injection Hh0 as <-.
  assert (∀ t, tagged (known r) (rg_tombstones r) t → ts_lt t id) as Hall.
  { intros t Ht. destruct (Hcov t Ht) as [_ Hle]. unfold ts_le, ts_lt in *. lia. }
  assert (¬ tagged (known r) (rg_tombstones r) id) as Hnt by (intros Ht; specialize (Hall id Ht); unfold ts_lt in Hall; lia).
  split; [done|]. split_and!.
  - split; [by intros ->|]. intros HT. apply Hnt. by right; right.
  - apply eq_None_not_Some. intros Hk. apply Hnt. by left.
  - apply kids_fresh. intros q n Hq <-. apply Hnt. right. left. eauto.
Qed.

Lemma insertion_dom q : q ∈ new ↔ is_Some (m !! q).
Proof using All.
  destruct (chain_nodes_spec p new rs ∅ insertion_sorted Hlen) as (Hout & Hin & _). split.
  - intros Hq. destruct (Hin q Hq) as (n & -> & _). eauto.
  - intros [n Hn]. destruct (decide (q ∈ new)) as [?|Hq]; [done|]. rewrite Hout in Hn by done. done.
Qed.

Lemma insertion_node q n :
  m !! q = Some n → q ∈ new ∧ ts_lt (nd_parent n) q ∧ nd_rune n ∈ rs ∧ (nd_parent n = p ∨ nd_parent n ∈ new).
Proof using All.
  intros Hn. destruct (chain_nodes_spec p new rs ∅ insertion_sorted Hlen) as (_ & Hin & _).
  assert (q ∈ new) as Hq by (apply insertion_dom; eauto). destruct (Hin q Hq) as (n' & Hn' & H).
  rewrite Hn in Hn'. injection Hn' as <-. done.
Qed.

(** The clock has passed its tags. *)
Lemma insertion_tags t : tagged m D t → ts_le t (hlc_tag h').
Proof using All.
  pose proof (proj1 (Forall_forall _ _) Hnew) as Hn0. cbv beta in Hn0.
  intros [[n Hn]|[(q & n & Hn & <- & Hv)|Ht]].
  - apply insertion_node in Hn as [Hq _]. by apply Hn0.
  - apply insertion_node in Hn as (_ & _ & _ & [->|Hpar]); [|by apply Hn0].
    destruct (insert_anchor_ts r h p Hwf Hh Hp) as [Hle _]. unfold ts_le in *. lia.
  - apply HD, (document_tag r t Hwf) in Ht as (Hk & _). destruct (wf_clock r Hwf) as (h0 & Hh0 & _ & _ & Hcov).
    rewrite Hh in Hh0. injection Hh0 as <-. destruct (Hcov t) as [_ Hle]; [by left|]. unfold ts_le in *. lia.
Qed.

Lemma insertion_valid cache : validateDelta (mkDelta m D cache) = Ok tt ∧ delta_wf (mkDelta m D cache).
Proof using All.
  destruct (insert_anchor_ts r h p Hwf Hh Hp) as (_ & Hpv & Hpw).
  pose proof (proj1 (Forall_forall _ _) Hnew) as Hn0. pose proof (proj1 (Forall_forall _ _) Hrs) as Hr0. cbv beta in Hn0, Hr0.
  pose proof insertion_node as Hm.
  split.
  - apply validateDelta_Ok. split; [|intros t Ht; by apply (document_tag r t Hwf), HD]. intros q n Hn. destruct (Hm q n Hn) as (Hq & Hlt & Hr & Hpar).
    destruct (Hn0 q Hq) as (_ & _ & Hv & _). unfold node_wf. split_and!; [done|by apply Hr0| |].
    + destruct Hpar as [->|Hpar]; [done|]. right. by apply Hn0.
    + intros Heq. rewrite <-Heq in Hlt. unfold ts_lt in Hlt. lia.
  - intros t [[n Hn]|[(q & n & Hn & <- & Hv)|Ht]]; cbn [dl_nodes dl_tombstones] in *; [| |by apply (document_tag r t Hwf), HD].
    + apply Hm in Hn as [Hq _]. by apply Hn0.
    + destruct (Hm q n Hn) as (_ & _ & _ & [->|Hpar]); [|by apply Hn0]. destruct Hpw as [->|?]; done.
Qed.

(** The run is read after its anchor. *)
Lemma insertion_reading cache r' :
  new ≠ [] → applied (set_clock r (Some h')) (mkDelta m D cache) r' →
  ∃ a b, ids (si_links (rg_sequence r)) = a ++ (p, false) :: b ∧
    document (known r) (rg_tombstones r) =
      visible_in (rg_tombstones r) (a ++ [(p, false)]) ++ visible_in (rg_tombstones r) b ∧
    document (known r') (rg_tombstones r') =
      filter (.∉ D) (visible_in (rg_tombstones r) (a ++ [(p, false)])) ++ new ++
      filter (.∉ D) (visible_in (rg_tombstones r) b).
Proof using All.
  intros Hne (Hwfr' & Hk & HT & _). cbn [dl_nodes dl_tombstones set_clock rg_tombstones] in *.
  change (known (set_clock r (Some h'))) with (known r) in Hk.
  destruct (chain_nodes_spec p new rs ∅ insertion_sorted Hlen) as (_ & _ & Hch & _).
  pose proof (ts_sorted_NoDup _ Hsorted) as Hnd. pose proof Hwf as [Hr Hd _ _ _ _]. pose proof Hwfr' as [Hr' Hd' _ _ _ _].
  assert (known r' = add_run (node_of m) (known r) new) as Hk'.
  { rewrite Hk. symmetry. apply add_run_union; [done|apply insertion_dom|]. intros q Hq. by apply insertion_fresh. }
  assert (∃ first run, new = first :: run) as (first & run & Enew) by (destruct new; naive_solver).
  pose proof (read_run r r' (node_of m) p first run) as Hread. rewrite <-Enew in Hread.
  destruct Hread as (a & b & H1 & H2 & H3); try done.
  - intros id Hid. destruct (insertion_fresh id Hid) as (_ & [Hz HTid] & Hn & Hkid). split_and!; try done. split; [done|].
    rewrite HT, elem_of_union. intros [?|Hin]; [done|]. apply HD, document_tag in Hin as [[? ?] _]; [congruence|done].
  - apply Forall_forall. intros y (n & Hy & _)%elem_of_kids. apply ts_lt_Compare. apply insertion_fresh; [rewrite Enew; by left|].
    left. eauto.
  - exists a, b. rewrite <-!visible_in_union, <-HT, <-!shown_document by done. done.
Qed.

(** Its runes are the text. *)
Lemma insertion_runes r' :
  known r' = known r ∪ m → (λ id, nd_rune (node_of (known r') id)) <$> new = rs.
Proof using All.
  intros Hk. destruct (chain_nodes_spec p new rs ∅ insertion_sorted Hlen) as (_ & _ & _ & Hru). etransitivity; [|exact Hru].
  apply list_fmap_ext. intros i id Hid%list_elem_of_lookup_2. unfold compose, node_of. rewrite Hk, lookup_union_r; [done|].
  by apply insertion_fresh.
Qed.

(** Its nodes are all new, and each hangs under the root. *)
Lemma insertion_planned cache :
  planned_of (set_clock r (Some h')) (mkDelta m D cache) = m ∧
  Z.of_nat (size (known r ∪ m)) = Z.of_nat (size (known r)) + len rs ∧
  ∀ id, is_Some (m !! id) → rooted (rg_nodes r ∪ m) id.
Proof using All.
  assert (∀ id, is_Some (m !! id) → rg_nodes r !! id = None ∧ rg_pending r !! id = None) as Hfresh.
  { intros id Hid%insertion_dom. destruct (insertion_fresh id Hid) as (_ & _ & Hn & _). by apply lookup_union_None in Hn. }
  split_and!.
  - apply map_filter_id. intros id n Hn. apply Hfresh. eauto.
  - rewrite map_size_disj_union.
    + assert (dom m = list_to_set new) as Hdom by (apply set_eq; intros q; by rewrite elem_of_dom, elem_of_list_to_set, insertion_dom).
      rewrite <-(size_dom m), Hdom, size_list_to_set by (by apply ts_sorted_NoDup). unfold len. lia.
    + apply map_disjoint_spec. intros id n n' Hn Hn'. destruct (insertion_fresh id) as (_ & _ & Hk & _); [apply insertion_dom; eauto|].
      congruence.
  - intros id Hid%insertion_dom. destruct (chain_nodes_spec p new rs ∅ insertion_sorted Hlen) as (_ & _ & Hch & _).
    apply (chain_closed _ (node_of m) (rg_nodes r ∪ m) p new); try done.
    + intros q n. apply rooted_node.
    + destruct Hp as [->|Hi]; [constructor|]. apply (rooted_mono (rg_nodes r)); [apply map_union_subseteq_l|].
      eapply tree_rooted; [|done]. apply (tree_links _ _ _ _ (st_tree r (wf_store r Hwf))).
    + intros q [n Hn]%insertion_dom. rewrite lookup_union_r by (apply Hfresh; eauto). unfold node_of. by rewrite Hn.
Qed.

(** An insertion fails only for a limit or the clock. *)
Lemma insertion_error cache now e :
  apply_error (set_clock r (Some h')) (mkDelta m D cache) now e →
  (e = ErrText TextLimit ∧
   (MaxNodes (rg_options r) < Z.of_nat (size (known r)) + len rs ∨
    MaxTombstones (rg_options r) < Z.of_nat (size (rg_tombstones r ∪ D)))) ∨
  (e = ErrClockExhausted ∧ exhausted (Some h') now (λ _, False)).
Proof using All.
  destruct (insertion_planned cache) as (Hpl & Hsize & Hroot).
  intros [id n n' Hn Hn' _|Hcyc|orphans Hnd Horph Hex|Hex].
  3: { left. split; [done|]. rewrite Hpl in Horph. destruct (wf_limits r Hwf) as (_ & _ & Hlp & Hlb).
       change (known (set_clock r (Some h'))) with (known r) in Hex. cbn [dl_nodes dl_tombstones set_clock rg_options rg_tombstones rg_pending rg_pendingBytes] in Hex.
       assert (orphans = []) as ->.
       { destruct orphans as [|[id n] l]; [done|]. destruct (Horph (id, n)) as [[Hn Hno] _]; [by left|].
         destruct Hno. apply Hroot. eauto. }
       rewrite Hsize in Hex. change (len []) with 0 in Hex. change (bytes_of []) with 0 in Hex. lia. }
  3: { right. split; [done|]. eapply exhausted_passed; [done| |exact Hex]. apply insertion_tags. }
  all: exfalso.
  - change (known (set_clock r (Some h'))) with (known r) in Hn. cbn [dl_nodes] in Hn'.
    destruct (insertion_fresh id) as (_ & _ & ? & _); [apply insertion_dom; eauto|congruence].
  - apply Hcyc. change (known (set_clock r (Some h'))) with (known r). cbn [dl_nodes]. apply acyclic_union; [apply (wf_acyclic r Hwf)|].
    intros id Hid%insertion_dom. destruct (chain_nodes_spec p new rs ∅ insertion_sorted Hlen) as (_ & _ & Hch & _).
    apply (chain_closed _ (node_of m) (known r ∪ m) p new); try done.
    + intros q n. apply ends_node.
    + apply rooted_ends.
      * apply lookup_union_None. split; [apply known_root, Hwf|]. apply eq_None_not_Some. intros Hz%insertion_dom.
        destruct (insertion_fresh zeroTag Hz) as (_ & [? _] & _). done.
      * apply (rooted_mono (known r)); [apply map_union_subseteq_l|]. apply integrated_rooted; [apply Hwf|done].
    + intros q Hq. rewrite lookup_union_r by (by apply insertion_fresh). apply insertion_dom in Hq as [n Hn].
      unfold node_of. by rewrite Hn.
Qed.
End insertion.

(** ** Offsets *)

(** The position before an offset splits the document there. *)
Lemma offset_split r offset a b :
  store_ok r → drained r → 0 <= offset <= len (document (known r) (rg_tombstones r)) →
  let p := default zeroTag (visibleAt (rg_sequence r) (offset - 1)) in
  integrable (rg_nodes r) p ∧
  (ids (si_links (rg_sequence r)) = a ++ (p, false) :: b →
   len (visible_in (rg_tombstones r) (a ++ [(p, false)])) = offset).
Proof.
  intros Hr Hd Hoff. pose proof (tree_links _ _ _ _ (st_tree r Hr)) as Hlinks.
  destruct Hlinks as [Hseq Hord Hnodes Hroot Hvis]. pose proof Hseq as (_ & _ & Hnd & _).
  rewrite visibleAt_spec by done. rewrite <-shown_document in Hoff by done.
  assert (shown (si_links (rg_sequence r)) = visible_in (rg_tombstones r) (ids (si_links (rg_sequence r)))) as Hsh
    by (by apply shown_entries).
  destruct (Z.ltb_spec (offset - 1) 0); intros p.
  - assert (offset = 0) as -> by lia. split; [by left|]. intros Hab. apply traversal_head in Hord.
    rewrite Hab in Hord, Hnd. destruct a as [|x a]; [done|]. injection Hord as ->. apply NoDup_cons in Hnd as [Hn _].
    destruct Hn. apply elem_of_app. right. by left.
  - destruct (lookup_lt_is_Some_2 (shown (si_links (rg_sequence r))) (Z.to_nat (offset - 1))) as [q Hq]; [unfold len in Hoff; lia|].
    assert (p = q) as -> by (unfold p; by rewrite Hq). pose proof (list_elem_of_lookup_2 _ _ _ Hq) as Hin.
    split; [right; by apply shown_integrated|]. intros Hab. rewrite Hsh in Hin. unfold visible_in in Hin.
    apply list_elem_of_filter in Hin as [Hqs _].
    assert (visible_in (rg_tombstones r) [(q, false)] = [q]) as Hone.
    { unfold visible_in. change (entries [(q, false)]) with [q]. by rewrite filter_cons, decide_True. }
    assert (NoDup (shown (si_links (rg_sequence r)))) as Hnds by (rewrite Hsh; apply NoDup_filter, entries_NoDup, Hnd).
    assert (shown (si_links (rg_sequence r)) = visible_in (rg_tombstones r) a ++ q :: visible_in (rg_tombstones r) b) as Hsplit.
    { rewrite Hsh, Hab, cons_middle, !visible_in_app, Hone. done. }
    assert (Z.to_nat (offset - 1) = length (visible_in (rg_tombstones r) a)) as Hpos.
    { eapply NoDup_lookup; [exact Hnds|exact Hq|]. rewrite Hsplit. by rewrite list_lookup_middle. }
    rewrite visible_in_app, Hone, len_app. unfold len. cbn [length]. lia.
Qed.

(** ** Insert *)

Lemma document_runes_node K T : document_runes K T = (λ id, nd_rune (node_of K id)) <$> document K T.
Proof. apply list_fmap_ext. intros i id _. unfold node_of. by destruct (K !! id). Qed.

(** A larger node map gives the same runes to the positions of a document. *)
Lemma runes_stable K K' (l : list Position) :
  K ⊆ K' → (∀ id, id ∈ l → is_Some (K !! id)) → (λ id, nd_rune (node_of K' id)) <$> l = (λ id, nd_rune (node_of K id)) <$> l.
Proof.
  intros Hsub Hl. apply list_fmap_ext. intros i id Hid%list_elem_of_lookup_2. destruct (Hl id Hid) as [n Hn].
  unfold node_of. by rewrite Hn, (lookup_weaken K K' id n Hn Hsub).
Qed.

Lemma sortedNodeIDs_unique (m : gmap Position node) l :
  increasing Compare l → (∀ q, q ∈ l ↔ is_Some (m !! q)) → sortedNodeIDs m = l.
Proof.
  intros Hl Hin. destruct (sortedNodeIDs_spec m) as (Hs & Hin' & _). apply (increasing_ext Compare); [done..|].
  intros q. by rewrite Hin, Hin'.
Qed.

(** The state after an edit at [offset] that hid [D], inserted [rs] and made [delta]. *)
Definition edited (r : RGA) (offset : Z) (rs : list Z) (delta : Delta) (r' : RGA) : Prop :=
  let d := document (known r) (rg_tombstones r) in
  let kept := filter (.∉ dl_tombstones delta) in
  rga_wf r' ∧ known r' = known r ∪ dl_nodes delta ∧ rg_tombstones r' = rg_tombstones r ∪ dl_tombstones delta ∧
  document (known r') (rg_tombstones r') =
    kept (take (Z.to_nat offset) d) ++ NodePositions delta ++ kept (drop (Z.to_nat offset) d) ∧
  (λ id, nd_rune (node_of (known r') id)) <$> NodePositions delta = rs.

Lemma insertion_edited r h h' offset rs new D cache r' :
  let p := default zeroTag (visibleAt (rg_sequence r) (offset - 1)) in
  rga_wf r → rg_clock r = Some h → 0 <= offset <= len (document (known r) (rg_tombstones r)) →
  Forall (λ x, ValidRune x = true) rs → length new = length rs → StronglySorted ts_lt new →
  Forall (λ t, ts_lt (hlc_tag h) t ∧ ts_le t (hlc_tag h') ∧ Valid t = true ∧ tag_wf t) new → new ≠ [] →
  hlc_wf h' → replicaID h' = replicaID h → ts_le (hlc_tag h) (hlc_tag h') →
  (∀ t, t ∈ D → t ∈ document (known r) (rg_tombstones r)) →
  applied (set_clock r (Some h')) (mkDelta (chain_nodes p new rs ∅) D cache) r' →
  edited r offset rs (mkDelta (chain_nodes p new rs ∅) D []) r'.
Proof.
  intros p Hwf Hh Hoff Hrs Hlen Hsort Hnew Hne Hwfh' Hid' Hle' HD Happ. pose proof Hwf as [Hr Hd _ _ _ _].
  destruct (offset_split r offset [] [] Hr Hd Hoff) as [Hp _]. fold p in Hp.
  destruct (insertion_reading r h h' p rs new Hwf Hh Hp Hrs Hlen Hsort Hnew Hwfh' Hid' Hle' D HD cache r' Hne Happ)
    as (a & b & Hab & Hdoc & Hdoc').
  destruct Happ as (Hwf' & Hk & HT & _). cbn [dl_nodes dl_tombstones set_clock rg_tombstones] in Hk, HT.
  change (known (set_clock r (Some h'))) with (known r) in Hk.
  destruct (offset_split r offset a b Hr Hd Hoff) as [_ Hlena]. fold p in Hlena. specialize (Hlena Hab).
  set (A := visible_in _ (a ++ _)) in *. set (B := visible_in _ b) in *.
  assert (Z.to_nat offset = length A) as Ho by (unfold len in Hlena; lia).
  assert (NodePositions (mkDelta (chain_nodes p new rs ∅) D []) = new) as HN.
  { apply sortedNodeIDs_unique; [|exact (insertion_dom r h h' p rs new Hwf Hh Hp Hrs Hlen Hsort Hnew Hwfh' Hid' Hle' D HD)].
    unfold increasing. eapply StronglySorted_mono; [apply ts_lt_Compare|done]. }
  unfold edited. rewrite HN. cbn [dl_nodes dl_tombstones]. split_and!; try done.
  - by rewrite Hdoc', Hdoc, Ho, take_app_length, drop_app_length.
  - exact (insertion_runes r h h' p rs new Hwf Hh Hp Hrs Hlen Hsort Hnew Hwfh' Hid' Hle' D HD r' Hk).
Qed.

(** The tags [new] were taken for [rs] between the clocks [h] and [h']. *)
Definition minted (h h' : HLC) (rs : list Z) (new : list Position) : Prop :=
  hlc_wf h' ∧ replicaID h' = replicaID h ∧ ts_le (hlc_tag h) (hlc_tag h') ∧ length new = length rs ∧
  StronglySorted ts_lt new ∧
  Forall (λ t, ts_lt (hlc_tag h) t ∧ ts_le t (hlc_tag h') ∧ Valid t = true ∧ tag_wf t) new.

(** What can be wrong with an edit: the range it names, its text, the delta the
    encoder is given, a limit it would exceed, the clock. *)
Record refusal := mkRefusal {
  rf_range : Prop;
  rf_text : Prop;
  rf_delta : Delta → Prop;
  rf_limit : Prop;
  rf_clock : Prop
}.

(** The errors of an edit, each with its cause. *)
Inductive edit_error (f : refusal) (limits : ptr DecoderLimits) (encode : deltaEncoder) : error → Prop :=
| edit_range : rf_range f → edit_error f limits encode (ErrText TextRange)
| edit_text : rf_text f → edit_error f limits encode (ErrText InvalidText)
| edit_encode delta e : rf_delta f delta → encode_delta limits encode delta = Err e → edit_error f limits encode e
| edit_limit : rf_limit f → edit_error f limits encode (ErrText TextLimit)
| edit_clock : rf_clock f → edit_error f limits encode ErrClockExhausted.

(** A reading of the physical time failed while [n] tags were issued and the
    result witnessed, or the clock is left without a further timestamp. *)
Definition stalled (r' : RGA) (times : clock_times) (n : nat) (now : option Z) : Prop :=
  unreadable now ∨ (∃ i, (i < n)%nat ∧ unreadable (times i)) ∨ ∃ h, rg_clock r' = Some h ∧ spent (hlc_tag h).

(** The deltas that insert [rs] at the offset and hide [hidden]. *)
Definition insertion_of (r : RGA) (offset : Z) (rs : list Z) (hidden : gset Position) (delta : Delta) : Prop :=
  ∃ new, length new = length rs ∧ dl_tombstones delta = hidden ∧
    dl_nodes delta = chain_nodes (default zeroTag (visibleAt (rg_sequence r) (offset - 1))) new rs ∅.

(** The positions of a range. *)
Definition range (r : RGA) (offset count : Z) : gset Position :=
  list_to_set (take (Z.to_nat count) (drop (Z.to_nat offset) (document (known r) (rg_tombstones r)))).

(** What can be wrong with an insertion, a deletion and a replacement that leave [r']. *)
Definition insert_refusal (r : RGA) (offset : Z) (value : bytes) (times : clock_times) (now : option Z) (r' : RGA) : refusal :=
  let rs := default [] (runes value) in
  mkRefusal (¬ (0 <= offset <= RGA_Len (Some r))) (runes value = None) (insertion_of r offset rs ∅)
    (MaxNodes (rg_options r) < Z.of_nat (size (known r)) + len rs) (stalled r' times (length rs) now).

Definition delete_refusal (r : RGA) (offset count : Z) (now : option Z) (r' : RGA) : refusal :=
  mkRefusal (¬ (0 <= offset ∧ 0 <= count ∧ offset + count <= RGA_Len (Some r))) False
    (λ d, d = mkDelta ∅ (range r offset count) [])
    (MaxTombstones (rg_options r) < Z.of_nat (size (rg_tombstones r ∪ range r offset count)))
    (stalled r' (λ _, None) 0 now).

Definition replace_refusal (r : RGA) (offset count : Z) (value : bytes) (times : clock_times) (now : option Z) (r' : RGA)
    : refusal :=
  let rs := default [] (runes value) in
  mkRefusal (¬ (0 <= offset ∧ 0 <= count ∧ offset + count <= RGA_Len (Some r))) (ValidString value = false)
    (insertion_of r offset rs (range r offset count))
    (MaxNodes (rg_options r) < Z.of_nat (size (known r)) + len rs ∨
     MaxTombstones (rg_options r) < Z.of_nat (size (rg_tombstones r ∪ range r offset count)))
    (stalled r' times (length rs) now).

Lemma stalled_now r h times n now : exhausted (Some h) now (λ _, False) → stalled (set_clock r (Some h)) times n now.
Proof. intros [?|[(? & [= <-] & ?)|(? & ? & ?)]]; [by left|right; right; by exists h|done]. Qed.

Lemma stalled_issue r h times n i now :
  (i < n)%nat → exhausted (Some h) (times i) (λ _, False) → stalled (set_clock r (Some h)) times n now.
Proof. intros Hi [?|[(? & [= <-] & ?)|(? & ? & ?)]]; [right; left; eauto|right; right; by exists h|done]. Qed.

Lemma set_clock_same r : set_clock r (rg_clock r) = r.
Proof. by destruct r. Qed.

(** [prepareInsertWithPredecessor] makes the chain under the position before the
    offset and advances only the clock. *)
Lemma prepareInsert_cases r offset value limits encode times now :
  rga_wf r → (∀ i, now_wf (times i)) →
  match prepareInsertWithPredecessor (Some r) offset value limits encode times with
  | (Some r1, Ok (delta, encoded, predecessor)) =>
      ∃ rs h h' new, runes value = Some rs ∧ 0 <= offset <= RGA_Len (Some r) ∧
        predecessor = default zeroTag (visibleAt (rg_sequence r) (offset - 1)) ∧ rg_clock r = Some h ∧
        r1 = set_clock r (Some h') ∧ minted h h' rs new ∧
        dl_nodes delta = chain_nodes predecessor new rs ∅ ∧ dl_tombstones delta = ∅ ∧
        encode_delta limits encode delta = Ok encoded
  | (Some r1, Err e) =>
      rga_wf r1 ∧ r1 = set_clock r (rg_clock r1) ∧ edit_error (insert_refusal r offset value times now r1) limits encode e
  | (None, _) => False
  end.
Proof.
  intros Hwf Ht. unfold prepareInsertWithPredecessor. destruct (wf_clock r Hwf) as (h & Hh & Hhw & _).
  pose proof (eq_sym (set_clock_same r)) as Hsame. rewrite Hh.
  destruct (Z.ltb_spec offset 0); [split_and!; [done..|]; apply edit_range; cbn [insert_refusal rf_range]; lia|]. unfold insert_refusal.
  destruct (runes value) as [rs|] eqn:Hrs; [|split_and!; [done..|]; by apply edit_text].
  change (visibleCount (si_root (rg_sequence r))) with (RGA_Len (Some r)).
  destruct (Z.ltb_spec (RGA_Len (Some r)) offset); [split_and!; [done..|]; apply edit_range; cbn [insert_refusal rf_range]; lia|].
  set (p := default zeroTag _). destruct rs as [|x rs].
  - destruct (encode_delta limits encode emptyDelta) as [encoded|e] eqn:Henc.
    + exists [], h, h, []. rewrite <-Hh, set_clock_same. split_and!; try done; try lia. unfold minted.
      split_and!; try done; [unfold ts_le; lia|constructor].
    + split_and!; [done..|]. apply (edit_encode _ _ _ emptyDelta); [by exists []|done].
  - pose proof (insert_nodes_spec times h p (x :: rs) ∅ [] Hhw Ht) as Hins.
    destruct (insert_nodes _ _ _ _ _ _) as [c [[nodes ids]|e]].
    + destruct Hins as (h' & new & -> & Hwf' & Hid' & Hle & -> & Hlen & -> & Hs & Hall).
      assert (rga_wf (set_clock r (Some h'))) as Hwf1 by (by apply (set_clock_wf r h h')).
      destruct (encode_delta limits encode (insert_delta (x :: rs) _ _)) as [encoded|e] eqn:Henc.
      * exists (x :: rs), h, h', new. split_and!; try done.
      * split_and!; [done..|]. eapply edit_encode; [|exact Henc]. by exists new.
    + destruct Hins as (h' & i & -> & Hwf' & Hid' & Hle & -> & Hi & Hex). split_and!; [by apply (set_clock_wf r h h')|done|].
      apply edit_clock. by apply (stalled_issue _ _ _ _ i).
Qed.

(** Applying a prepared edit. *)
Lemma apply_edit r h h' offset rs new delta now :
  rga_wf r → rg_clock r = Some h → 0 <= offset <= RGA_Len (Some r) → Forall (λ x, ValidRune x = true) rs → minted h h' rs new →
  dl_nodes delta = chain_nodes (default zeroTag (visibleAt (rg_sequence r) (offset - 1))) new rs ∅ →
  (∀ t, t ∈ dl_tombstones delta → t ∈ document (known r) (rg_tombstones r)) → now_wf now →
  ∃ r' res, RGA_ApplyDelta (Some (set_clock r (Some h'))) delta now = (Some r', res) ∧
    match res with
    | Ok _ => edited r offset rs (drop_cache delta) r'
    | Err e =>
        r' = set_clock r (Some h') ∧ rga_wf r' ∧
        ((e = ErrText TextLimit ∧
          (MaxNodes (rg_options r) < Z.of_nat (size (known r)) + len rs ∨
           MaxTombstones (rg_options r) < Z.of_nat (size (rg_tombstones r ∪ dl_tombstones delta)))) ∨
         (e = ErrClockExhausted ∧ exhausted (Some h') now (λ _, False)))
    end.
Proof.
  intros Hwf Hh Hoff Hrs (Hwf' & Hid & Hle & Hlen & Hsort & Hnew) Hdn HD Hnow. set (p := default zeroTag _) in *.
  pose proof Hwf as [Hr Hd _ _ _ _]. rewrite (proj1 (proj2 (proj2 (queries_document r Hr Hd)))) in Hoff.
  pose proof (set_clock_wf r h h' Hwf Hh Hwf' Hid Hle) as Hwf1.
  destruct delta as [dn D cache]. cbn [dl_nodes dl_tombstones] in *. subst dn. unfold drop_cache. cbn [dl_nodes dl_tombstones].
  destruct (offset_split r offset [] [] Hr Hd Hoff) as [Hp _]. fold p in Hp.
  destruct (insertion_valid r h h' p rs new Hwf Hh Hp Hrs Hlen Hsort Hnew Hwf' Hid Hle D HD cache) as [Hval Hdw].
  destruct (ApplyDelta_cases (set_clock r (Some h')) _ now Hwf1 Hdw Hnow) as (r' & res & -> & H).
  eexists _, _. split; [done|]. destruct res as [u|e].
  - destruct H as [Happ _]. destruct (decide (new = [])) as [->|Hne]; [|by eapply insertion_edited].
    destruct rs; [|done]. destruct Happ as (Hwfr' & Hk & HT & _). cbn [chain_nodes dl_nodes dl_tombstones] in *.
    change (known (set_clock r (Some h'))) with (known r) in Hk. change (rg_tombstones (set_clock r (Some h'))) with (rg_tombstones r) in HT.
    unfold edited. cbn [dl_nodes dl_tombstones]. change (NodePositions (mkDelta ∅ D [])) with (@nil Position).
    split_and!; try done. rewrite Hk, HT, (right_id_L ∅ union), app_nil_l, <-filter_app, take_drop. apply document_union.
  - destruct H as [-> [Hbad|Herr]]; [congruence|]. split_and!; try done.
    exact (insertion_error r h h' p rs new Hwf Hh Hp Hrs Hlen Hsort Hnew Hwf' Hid Hle D HD cache now e Herr).
Qed.

Lemma string_of_runes_app l k : string_of_runes (l ++ k) = string_of_runes l ++ string_of_runes k.
Proof. unfold string_of_runes. by rewrite fmap_app, concat_app. Qed.

(** ** Splices *)

(** [r'] shows the document of [r] with [count] runes at [offset] replaced by
    [text], at the positions [new]. *)
Definition spliced (r : RGA) (offset count : Z) (new : list Position) (text : bytes) (r' : RGA) : Prop :=
  let '(positions, runes) := VisibleRunes (Some r) in
  rga_wf r' ∧
  (VisibleRunes (Some r')).1 =
    take (Z.to_nat offset) positions ++ new ++ drop (Z.to_nat (offset + count)) positions ∧
  RGA_String (Some r') =
    string_of_runes (take (Z.to_nat offset) runes) ++ text ++ string_of_runes (drop (Z.to_nat (offset + count)) runes).

Lemma document_NoDup r : store_ok r → drained r → NoDup (document (known r) (rg_tombstones r)).
Proof.
  intros Hr Hd. rewrite <-shown_document by done. destruct (tree_links _ _ _ _ (st_tree r Hr)) as [(_ & _ & Hnd & _) _ _ _ Hvis].
  rewrite (shown_entries (rg_tombstones r)) by done. apply NoDup_filter, entries_NoDup, Hnd.
Qed.

Lemma kept_outside (d : list Position) (o c : nat) :
  NoDup d →
  filter (.∉ (list_to_set (take c (drop o d)) : gset Position)) (take o d) = take o d ∧
  filter (.∉ (list_to_set (take c (drop o d)) : gset Position)) (drop o d) = drop (o + c) d.
Proof.
  intros Hnd. rewrite <-(take_drop o d) in Hnd. apply NoDup_app in Hnd as (_ & Hdisj & Hnd2). split.
  - apply filter_all. intros x Hx. rewrite elem_of_list_to_set. intros Hc. apply (Hdisj x Hx).
    rewrite <-(take_drop c (drop o d)), elem_of_app. by left.
  - rewrite <-drop_drop. revert Hnd2. generalize (drop o d) as e. intros e Hnd2.
    assert (e = take c e ++ drop c e) as He by (by rewrite take_drop). rewrite He in Hnd2. apply NoDup_app in Hnd2 as (_ & Hdisj2 & _).
    transitivity (filter (.∉ (list_to_set (take c e) : gset Position)) (take c e ++ drop c e)); [by rewrite <-He|].
    rewrite filter_app, filter_none, filter_all; [done|..]; intros x Hx; rewrite elem_of_list_to_set.
    + intros Hc. by apply (Hdisj2 x).
    + intros Hn. by apply Hn.
Qed.

Lemma edited_spliced r offset count rs delta r' :
  rga_wf r → 0 <= offset → 0 <= count → edited r offset rs delta r' → dl_tombstones delta = range r offset count →
  spliced r offset count (NodePositions delta) (string_of_runes rs) r'.
Proof.
  intros Hwf Ho Hc (Hwf' & Hk & HT & Hdoc & Hru) HD. pose proof Hwf as [Hr Hd _ _ _ _]. pose proof Hwf' as [Hr' Hd' _ _ _ _].
  destruct (queries_document r Hr Hd) as (Hpos & Hrunes & _), (queries_document r' Hr' Hd') as (Hpos' & Hrunes' & _).
  rewrite HD in Hdoc. unfold range in Hdoc.
  destruct (kept_outside _ (Z.to_nat offset) (Z.to_nat count) (document_NoDup r Hr Hd)) as [Hk1 Hk2]. rewrite Hk1, Hk2 in Hdoc.
  unfold spliced, VisibleRunes, RGA_String. rewrite Hpos, Hrunes, Hpos', Hrunes'. cbn [fst]. rewrite Z2Nat.inj_add by done.
  split_and!; [done|done|]. rewrite !document_runes_node, Hdoc, !fmap_app, Hru, <-!fmap_take, <-!fmap_drop, !string_of_runes_app.
  assert (known r ⊆ known r') as Hsub by (rewrite Hk; apply map_union_subseteq_l).
  do 2 f_equal; [|f_equal]; apply runes_stable; try done; intros id Hid; apply document_known; try done.
  - rewrite <-(take_drop (Z.to_nat offset)), elem_of_app. by left.
  - rewrite <-(take_drop (Z.to_nat offset + Z.to_nat count)), elem_of_app. by right.
Qed.

(** C11: inserting text. An insertion at an offset of the document puts exactly the
    text there, at the positions of the returned delta, whose encoding is returned
    with it; what was before and after is unchanged. A refused insertion changes
    nothing but possibly the clock, which stays ahead of every known tag, and the
    error has its cause: the offset is outside the document, the text is not valid
    UTF-8, the encoder refused the delta of this insertion, the runes do not fit
    under the node limit, or the clock could not step, because the physical time was
    unreadable or because it has no timestamp left. *)
Theorem RGA_insert_spec (r : RGA) (offset : Z) (value : bytes) (limits : ptr DecoderLimits) (encode : deltaEncoder)
    (times : clock_times) (now : option Z) (Hwf : rga_wf r) (Htimes : ∀ i, now_wf (times i)) (Hnow : now_wf now) :
  match RGA_insert (Some r) offset value limits encode times now with
  | (Some r', Ok (delta, encoded)) =>
      0 <= offset <= RGA_Len (Some r) ∧ ValidString value = true ∧ known r' = known r ∪ dl_nodes delta ∧
      spliced r offset 0 (NodePositions delta) value r' ∧
      ∃ cache, encode_delta limits encode (mkDelta (dl_nodes delta) (dl_tombstones delta) cache) = Ok encoded
  | (Some r', Err e) =>
      rga_wf r' ∧ r' = set_clock r (rg_clock r') ∧ edit_error (insert_refusal r offset value times now r') limits encode e
  | (None, _) => False
  end.
Proof.
  unfold RGA_insert, prepareInsert. pose proof (prepareInsert_cases r offset value limits encode times now Hwf Htimes) as Hprep.
  destruct (prepareInsertWithPredecessor _ _ _ _ _ _) as [[r1|] [[[delta encoded] predecessor]|e]]; try done; cbn [mbind result_bind].
  destruct Hprep as (rs & h & h' & new & Hrs & Hoff & -> & Hh & -> & Hmint & Hdn & HdT & Henc).
  pose proof (runes_valid value rs Hrs) as [Hvalid Hval].
  destruct (apply_edit r h h' offset rs new delta now Hwf Hh Hoff Hvalid Hmint Hdn) as (r' & res & -> & H);
    [rewrite HdT; set_solver|done|]. destruct res as [u|e].
  - pose proof (edited_spliced r offset 0 rs (drop_cache delta) r' Hwf) as Hs. rewrite Hval in Hs.
    split_and!; try apply Hoff; [apply ValidString_iff; eauto|by destruct H as (_ & ? & _)|apply Hs; try done; lia|].
    by destruct delta as [dn dT cache]; exists cache.
  - destruct H as (-> & Hwf' & He). split_and!; [done..|]. unfold insert_refusal. rewrite Hrs.
    destruct He as [[-> Hlim]|[-> Hex]]; [apply edit_limit|apply edit_clock; by apply stalled_now].
    rewrite HdT, (right_id_L ∅ union) in Hlim. destruct (wf_limits r Hwf) as (_ & ? & _). cbn [rf_limit from_option id]. lia.
Qed.

(** The loop collects the positions of the range. *)
Lemma delete_loop_spec r offset count T :
  store_ok r → drained r → 0 <= offset → (Z.to_nat offset + count <= length (document (known r) (rg_tombstones r)))%nat →
  delete_loop (rg_sequence r) offset count T =
    Ok (T ∪ list_to_set (take count (drop (Z.to_nat offset) (document (known r) (rg_tombstones r))))).
Proof.
  intros Hr Hd. set (d := document _ _). revert offset T. induction count as [|count IH]; intros offset T Hoff Hlen; cbn [delete_loop].
  { f_equal. rewrite take_0. set_solver. }
  rewrite (proj2 (proj2 (proj2 (queries_document r Hr Hd)))). fold d. rewrite (proj2 (Z.ltb_ge offset 0)) by lia.
  destruct (lookup_lt_is_Some_2 d (Z.to_nat offset)) as [q Hq]; [lia|]. rewrite Hq, IH by lia.
  rewrite (drop_S d q (Z.to_nat offset)) by done. replace (Z.to_nat (offset + 1)) with (S (Z.to_nat offset)) by lia. f_equal.
  rewrite firstn_cons, list_to_set_cons. set_solver.
Qed.

Lemma prepareDelete_cases r offset count limits encode :
  rga_wf r →
  match prepareDelete (Some r) offset count limits encode with
  | Ok (delta, encoded) =>
      0 <= offset ∧ 0 <= count ∧ offset + count <= RGA_Len (Some r) ∧ delta = mkDelta ∅ (range r offset count) [] ∧
      encode_delta limits encode delta = Ok encoded
  | Err e =>
      ∀ now r', edit_error (delete_refusal r offset count now r') limits encode e
  end.
Proof.
  intros [Hr Hd _ _ _ _]. unfold prepareDelete. destruct (_ || _) eqn:Hneg.
  { intros now r'. apply edit_range. cbn [delete_refusal rf_range]. apply orb_true_iff in Hneg as [?%Z.ltb_lt|?%Z.ltb_lt]; lia. }
  apply orb_false_iff in Hneg as [Hoff%Z.ltb_ge Hcount%Z.ltb_ge].
  change (visibleCount (si_root (rg_sequence r))) with (RGA_Len (Some r)). destruct (_ || _) eqn:Hr'.
  { intros now r'. apply edit_range. cbn [delete_refusal rf_range]. apply orb_true_iff in Hr' as [?%Z.ltb_lt|?%Z.ltb_lt]; lia. }
  apply orb_false_iff in Hr' as [Hmax%Z.ltb_ge Hmax'%Z.ltb_ge].
  assert (RGA_Len (Some r) = len (document (known r) (rg_tombstones r))) as Hlen by apply (queries_document r Hr Hd).
  rewrite delete_loop_spec; [|done|done|done|unfold len in Hlen; lia]. cbn [mbind result_bind]. rewrite (left_id_L ∅ union).
  fold (range r offset count). destruct (encode_delta _ _ _) as [encoded|e] eqn:He; [|by intros now r'; eapply edit_encode].
  split_and!; try done. lia.
Qed.

Lemma range_document r offset count t : t ∈ range r offset count → t ∈ document (known r) (rg_tombstones r).
Proof.
  unfold range. rewrite elem_of_list_to_set. intros Ht. set (d := document _ _) in *.
  rewrite <-(take_drop (Z.to_nat offset) d), elem_of_app. right.
  rewrite <-(take_drop (Z.to_nat count) (drop _ d)), elem_of_app. by left.
Qed.

(** Deleting text. A deletion of a range of the document removes exactly that
    range, by the tombstones of the returned delta, and keeps every node; otherwise
    nothing changes and the error has its cause. *)
Theorem RGA_delete_spec (r : RGA) (offset count : Z) (limits : ptr DecoderLimits) (encode : deltaEncoder) (now : option Z)
    (Hwf : rga_wf r) (Hnow : now_wf now) :
  match RGA_delete (Some r) offset count limits encode now with
  | (Some r', Ok (delta, encoded)) =>
      0 <= offset ∧ 0 <= count ∧ offset + count <= RGA_Len (Some r) ∧ known r' = known r ∧
      rg_tombstones r' = rg_tombstones r ∪ dl_tombstones delta ∧ dl_tombstones delta = range r offset count ∧
      encode_delta limits encode delta = Ok encoded ∧ spliced r offset count [] [] r'
  | (Some r', Err e) =>
      r' = r ∧ edit_error (delete_refusal r offset count now r') limits encode e
  | (None, _) => False
  end.
Proof.
  unfold RGA_delete. pose proof (prepareDelete_cases r offset count limits encode Hwf) as Hprep.
  destruct (prepareDelete _ _ _ _ _) as [[delta encoded]|e]; [|done].
  destruct Hprep as (Hoff & Hcount & Hlen & -> & Henc). destruct (wf_clock r Hwf) as (h & Hh & Hhw & _).
  destruct (apply_edit r h h offset [] [] (mkDelta ∅ (range r offset count) []) now Hwf Hh) as (r' & res & Happ & H); try done; [lia| | |].
  - unfold minted. split_and!; try done; [unfold ts_le; lia|constructor].
  - intros t. apply range_document.
  - rewrite <-Hh, set_clock_same in Happ. rewrite Happ. destruct res as [u|e].
    + pose proof (edited_spliced r offset count [] _ r' Hwf Hoff Hcount H eq_refl) as Hs.
      destruct H as (_ & Hk & HT & _). cbn [drop_cache dl_nodes dl_tombstones] in *. rewrite (right_id_L ∅ union) in Hk. done.
    + destruct H as (-> & Hwf' & He). rewrite <-Hh, set_clock_same in *. split; [done|]. destruct (wf_limits r Hwf) as (? & _ & _).
      destruct He as [[-> Hlim]|[-> Hex]]; [apply edit_limit; cbn [delete_refusal rf_limit dl_tombstones] in *; change (len []) with 0 in *; lia|].
      apply edit_clock. rewrite <-(set_clock_same r) at 2. rewrite Hh in *. by apply stalled_now.
Qed.

(** An edit prepared without an encoder. *)
Lemma edit_error_mono f f' limits encode e :
  (rf_range f → rf_range f') → (rf_text f → rf_text f') → (rf_limit f → rf_limit f') → (rf_clock f → rf_clock f') →
  edit_error f None encode e → edit_error f' limits encode e.
Proof.
  intros Hr Ht Hl Hc [?|?|? ? ? ?|?|?]; [apply edit_range|apply edit_text|done|apply edit_limit|apply edit_clock]; auto.
Qed.

(** Replacing text. A replacement of a range hides the range and inserts the
    text in its place in one delta; otherwise nothing changes but the clock and the
    error has its cause. *)
Theorem RGA_replace_spec (r : RGA) (offset count : Z) (value : bytes) (limits : DecoderLimits) (encode : deltaEncoder)
    (times : clock_times) (now : option Z) (Hwf : rga_wf r) (Htimes : ∀ i, now_wf (times i)) (Hnow : now_wf now) :
  match RGA_replace (Some r) offset count value limits encode times now with
  | (Some r', Ok encoded) =>
      0 <= offset ∧ 0 <= count ∧ offset + count <= RGA_Len (Some r) ∧ ValidString value = true ∧
      ∃ delta, encode delta limits = Ok encoded ∧ known r' = known r ∪ dl_nodes delta ∧
        rg_tombstones r' = rg_tombstones r ∪ dl_tombstones delta ∧ spliced r offset count (NodePositions delta) value r'
  | (Some r', Err e) =>
      rga_wf r' ∧ r' = set_clock r (rg_clock r') ∧
      edit_error (replace_refusal r offset count value times now r') (Some limits) encode e
  | (None, _) => False
  end.
Proof.
  unfold RGA_replace. destruct (wf_clock r Hwf) as (h0 & Hh0 & _). pose proof (eq_sym (set_clock_same r)) as Hsame. rewrite Hh0.
  destruct (ValidString value) eqn:Hv; cbn [negb]; [|split_and!; [done..|]; by apply edit_text].
  pose proof (prepareDelete_cases r offset count None encode Hwf) as Hdel.
  destruct (prepareDelete _ _ _ _ _) as [[deleted ?]|e].
  2: { split_and!; [done..|]. apply (edit_error_mono (delete_refusal r offset count now r)); [done|done|by right| |by apply Hdel].
       intros [?|[(? & ? & _)|?]]; [by left|lia|by right; right]. }
  destruct Hdel as (Hoff & Hcount & Hlen & -> & _). unfold prepareInsert.
  pose proof (prepareInsert_cases r offset value None encode times now Hwf Htimes) as Hprep.
  destruct (prepareInsertWithPredecessor _ _ _ _ _ _) as [[r1|] [[[delta ?] predecessor]|e]]; try done; cbn [mbind result_bind].
  2: { destruct Hprep as (Hwf1 & Hk & He). split_and!; [done..|].
       eapply edit_error_mono; [| | | |exact He]; cbn [insert_refusal replace_refusal rf_range rf_text rf_limit rf_clock];
         [lia| |by left|done]. intros Hn. apply ValidString_iff in Hv as (rs & Hrs & ->). by rewrite runes_string in Hn. }
  destruct Hprep as (rs & h & h' & new & Hrs & Hoff' & -> & Hh & -> & Hmint & Hdn & HdT & _).
  pose proof (runes_valid value rs Hrs) as [Hvalid Hval]. cbn [dl_tombstones].
  set (delta' := mkDelta _ _ _). destruct (encode delta' limits) as [encoded|e] eqn:Henc.
  2: { assert (rga_wf (set_clock r (Some h'))) by (destruct Hmint as (? & ? & ? & _); by apply (set_clock_wf r h h')).
       split_and!; [done..|]. apply (edit_encode _ _ _ delta'); [|done]. cbn [replace_refusal rf_delta]. rewrite Hrs.
       exists new. split_and!; [apply Hmint|done|done]. }
  destruct (apply_edit r h h' offset rs new delta' now Hwf Hh Hoff' Hvalid Hmint Hdn) as (r' & res & -> & H);
    [intros t; apply range_document|done|]. destruct res as [u|e].
  - pose proof (edited_spliced r offset count rs (drop_cache delta') r' Hwf Hoff Hcount H eq_refl) as Hs. rewrite Hval in Hs.
    split_and!; try done. exists delta'. destruct H as (_ & Hk & HT & _). done.
  - destruct H as (-> & Hwf' & He). split_and!; [done..|]. unfold replace_refusal. rewrite Hrs.
    destruct He as [[-> Hlim]|[-> Hex]]; [by apply edit_limit|apply edit_clock; by apply stalled_now].
Qed.

(** ** Examples *)

(** An encoder that accepts every delta. *)
Definition blank_encoder : deltaEncoder := λ _ _, Ok [].

Lemma RGA_insert_spec_witness :
  ∃ r' delta encoded,
    RGA_insert (Some fresh_text) 0 (str "hi") None blank_encoder (λ _, Some 10) (Some 20) = (Some r', Ok (delta, encoded)) ∧
    RGA_String (Some r') = str "hi".
Proof.
  assert (is_ok (RGA_insert (Some fresh_text) 0 (str "hi") None blank_encoder (λ _, Some 10) (Some 20)).2 = true) as Hok
    by (vm_compute; reflexivity).
  pose proof (RGA_insert_spec fresh_text 0 (str "hi") None blank_encoder (λ _, Some 10) (Some 20) fresh_wf) as H.
  destruct (RGA_insert _ _ _ _ _ _ _) as [[r'|] [[delta encoded]|e]]; [|discriminate Hok| |discriminate Hok].
  - exists r', delta, encoded. split; [reflexivity|]. destruct H as (_ & _ & _ & Hs & _); [intros _; vm_compute; split; congruence|vm_compute; split; congruence|].
    assert (VisibleRunes (Some fresh_text) = ([], [])) as Hv by (vm_compute; reflexivity).
    unfold spliced in Hs. rewrite Hv in Hs. destruct Hs as (_ & _ & ->). vm_compute. reflexivity.
  - destruct H; [intros _; vm_compute; split; congruence|vm_compute; split; congruence].
Defined.

(** The state after ["abc"] was typed elsewhere. *)
Definition typed_state : ptr RGA := (RGA_ApplyDelta (Some fresh_text) typed (Some 5)).1.

Lemma typed_wf : ∃ r, typed_state = Some r ∧ rga_wf r.
Proof.
  destruct (example_applied typed) as (r & Happ & H); [left|]. exists r. split; [unfold typed_state; by rewrite Happ|apply H].
Qed.

Lemma RGA_delete_spec_witness :
  ∃ r' delta encoded, RGA_delete typed_state 1 1 None blank_encoder (Some 20) = (Some r', Ok (delta, encoded)) ∧
    RGA_String (Some r') = str "ac".
Proof.
  assert (is_ok (RGA_delete typed_state 1 1 None blank_encoder (Some 20)).2 = true) as Hok by (vm_compute; reflexivity).
  assert ((VisibleRunes typed_state).2 = [97; 98; 99]) as Hv by (vm_compute; reflexivity).
  destruct typed_wf as (r & Hr & Hwf). rewrite Hr in Hok, Hv |- *.
  pose proof (RGA_delete_spec r 1 1 None blank_encoder (Some 20) Hwf) as H.
  destruct (RGA_delete _ _ _ _ _ _) as [[r'|] [[delta encoded]|e]]; [|discriminate Hok| |discriminate Hok].
  - exists r', delta, encoded. split; [reflexivity|].
    destruct H as (_ & _ & _ & _ & _ & _ & _ & Hs); [vm_compute; split; congruence|].
    unfold spliced in Hs. destruct (VisibleRunes (Some r)) as [ps rs]. cbn [snd] in Hv. subst rs. destruct Hs as (_ & _ & ->).
    vm_compute. reflexivity.
  - destruct H. vm_compute. split; congruence.
Defined.

Lemma RGA_replace_spec_witness :
  ∃ r' encoded,
    RGA_replace typed_state 1 1 (str "xy") (mkLimits 9 9 9 9 9 9) blank_encoder (λ _, Some 10) (Some 20) = (Some r', Ok encoded) ∧
    RGA_String (Some r') = str "axyc".
Proof.
  assert (is_ok (RGA_replace typed_state 1 1 (str "xy") (mkLimits 9 9 9 9 9 9) blank_encoder (λ _, Some 10) (Some 20)).2 = true)
    as Hok by (vm_compute; reflexivity).
  assert ((VisibleRunes typed_state).2 = [97; 98; 99]) as Hv by (vm_compute; reflexivity).
  destruct typed_wf as (r & Hr & Hwf). rewrite Hr in Hok, Hv |- *.
  pose proof (RGA_replace_spec r 1 1 (str "xy") (mkLimits 9 9 9 9 9 9) blank_encoder (λ _, Some 10) (Some 20) Hwf) as H.
  destruct (RGA_replace _ _ _ _ _ _ _ _) as [[r'|] [encoded|e]]; [|discriminate Hok| |discriminate Hok].
  - exists r', encoded. split; [reflexivity|].
    destruct H as (_ & _ & _ & _ & delta & _ & _ & _ & Hs); [intros _; vm_compute; split; congruence|vm_compute; split; congruence|].
    unfold spliced in Hs. destruct (VisibleRunes (Some r)) as [ps rs]. cbn [snd] in Hv. subst rs. destruct Hs as (_ & _ & ->).
    vm_compute. reflexivity.
  - destruct H; [intros _; vm_compute; split; congruence|vm_compute; split; congruence].
Defined.
