(* ===== verification/RGACompact.v ===== *)
(** * Compaction of the text RGA

    [CompactTombstones] removes tombstoned leaves; [CompactEligibleTombstones]
    removes the tombstoned subtrees among its candidates, children first. Neither
    changes the text. *)

From S2P Require Import Prelude Utf8 Tags Forest Clock Sequence SequenceTheory Frame RGA RGAOrder RGATree RGAStore RGAPlan RGAAcyclic.
From S2P Require Import RGATheory RGAText RGAEdit.

(** ** Removing a child *)

(** Storing the remaining siblings of a parent with branches. *)
Lemma store_siblings_spec branches pairs p l :
  is_Some (pairs !! p) → singleChild pairs p = None → stores (branches, pairs) (store_siblings (branches, pairs) p l) p l.
Proof.
  intros Hp Hs. destruct l as [|c [|c' l]]; cbn [store_siblings].
  - unfold stores. cbn [fst snd]. split_and!; try done.
    + split; [apply lookup_delete_eq|done].
    + intros q l Hq. unfold stored. cbn [fst snd]. by rewrite lookup_delete_ne.
  - apply stores_single; [done| |by rewrite lookup_delete_eq]. intros q Hq. by apply lookup_delete_ne.
  - by apply stores_branch; [simpl; lia|].
Qed.

Lemma filter_ne_split (k1 k2 : list Position) id :
  NoDup (k1 ++ id :: k2) → filter (.≠ id) (k1 ++ id :: k2) = k1 ++ k2.
Proof.
  intros (_ & Hd & [Hid _]%NoDup_cons)%NoDup_app. rewrite filter_app, filter_cons, decide_False by (by intros ?).
  rewrite !filter_all; [done|..]; intros x Hx ->; [done|]. apply (Hd id Hx). by left.
Qed.

Lemma children_remove_spec ci p id k :
  is_Some (ci.2 !! p) → stored ci p k → increasing Descending k → id ∈ k →
  ∃ ci', children_remove ci p id = Some ci' ∧ stores ci ci' p (filter (.≠ id) k).
Proof.
  intros Hp Hk Hinc Hid. destruct ci as [branches pairs]. unfold children_remove. cbn [snd] in Hp.
  pose proof (increasing_NoDup Descending k Hinc) as Hnd.
  destruct k as [|c [|c' k]]; cbn [stored fst snd] in Hk; destruct Hk as [Hb Hs]; rewrite Hb; [by apply elem_of_nil in Hid|..].
  - apply list_elem_of_singleton in Hid as ->. rewrite Hs, bool_decide_eq_true_2 by done. eexists. split; [done|].
    rewrite filter_cons, decide_False by (by intros ?). by apply stores_single.
  - set (l := c :: c' :: k) in *.
    destruct (search_split l (λ x, Compare x id <=? 0)) as (Hr & H1 & H2); [|done|].
    { intros x y Hyx Hx%Z.leb_le. apply Z.leb_le. pose proof (cmp_lt_le_trans Compare y x id Hyx Hx). lia. }
    set (i := sort_Search _ _) in *.
    assert (id ∈ drop i l) as Hin.
    { rewrite <-(take_drop i l), elem_of_app in Hid. destruct Hid as [Hid|?]; [|done]. eapply Forall_forall in H1; [|exact Hid].
      rewrite (cmp_refl Compare) in H1. done. }
    destruct (drop i l) as [|y k2] eqn:Edrop; [by apply elem_of_nil in Hin|].
    assert (y = id) as ->.
    { apply elem_of_cons in Hin as [->|Hin]; [done|]. apply Forall_cons in H2 as [Hy%Z.leb_le _].
      assert (increasing Descending (take i l ++ y :: k2)) as Hinc' by (by rewrite <-Edrop, take_drop).
      assert (increasing Descending (y :: k2)) as [_ Hall]%StronglySorted_inv by (by eapply StronglySorted_app_1_r).
      eapply Forall_forall in Hall; [|exact Hin]. unfold Descending in Hall. pose proof (cmp_anti Compare id y).
      apply (cmp_eq Compare). lia. }
    assert (l !! i = Some id) as Hli by (rewrite <-(Nat.add_0_r i), <-lookup_drop, Edrop; done).
    rewrite Hli, bool_decide_eq_true_2 by done. cbn [negb]. eexists. split; [done|].
    rewrite (drop_S l id i Hli) in Edrop. injection Edrop as Edrop.
    assert (filter (.≠ id) l = take i l ++ drop (S i) l) as Hf.
    { assert (l = take i l ++ id :: drop (S i) l) as Hl by (by rewrite <-(drop_S l id i Hli), take_drop).
      rewrite Hl at 1. rewrite Hl in Hnd. rewrite filter_ne_split by done. done. }
    rewrite Hf. by apply store_siblings_spec.
Qed.

(** ** Removing a leaf from the sequence *)

Lemma links_remove nodes T index id n :
  links_ok nodes T index → nodes !! id = Some n → kids nodes id = [] →
  ∃ index', removeLeaf index id = Some index' ∧ links_ok (delete id nodes) (T ∖ {[id]}) index' ∧
    si_pairs index' = delete id (si_pairs index) ∧ (id ∈ T → shown (si_links index') = shown (si_links index)).
Proof.
  intros [Hseq Hord Hnodes Hroot Hvis] Hid Hkids. assert (id ≠ zeroTag) as Hz by (intros ->; congruence).
  assert ((id, false) ∈ ids (si_links index)) as Hin by (apply Hnodes; right; eauto).
  destruct (traversal_leaf _ _ _ _ Hord Hin Hkids) as (a & b & Hl). pose proof Hseq as (_ & _ & Hnd & _).
  assert (a ≠ []) as Ha.
  { intros ->. apply traversal_head in Hord. rewrite Hl in Hord. injection Hord as Heq. done. }
  pose proof Hl as Hl'. apply fmap_app_inv in Hl' as (A & B & -> & HB & HL).
  destruct B as [|e [|x B]]; [done|done|]. rewrite !fmap_cons in HB. injection HB as He1 He2 Hx1 Hx2 ->.
  destruct (removeLeaf_spec index A e x B id) as (index' & Hrem & Hseq' & Hl' & Hp');
    [done|done|unfold marker_id; congruence|unfold marker_id; congruence|by intros ->|].
  exists index'. split; [done|].
  assert (∀ m, m ∈ A ++ B → mk_position m ≠ id) as Hother.
  { intros m Hm Hpos. rewrite Hl in Hnd. apply NoDup_app in Hnd as (_ & Hd & [Hn1 [Hn2 _]%NoDup_cons]%NoDup_cons).
    rewrite elem_of_cons in Hn1. apply elem_of_app in Hm as [Hm|Hm].
    - apply (Hd (marker_id m)); [by apply list_elem_of_fmap_2|]. unfold marker_id. rewrite Hpos.
      destruct (mk_exit m); [right; by left|by left].
    - apply (list_elem_of_fmap_2 marker_id) in Hm. unfold marker_id in Hm at 1. rewrite Hpos in Hm. destruct (mk_exit m); tauto. }
  assert (ids (A ++ B) = filter (λ m : markerID, m.1 ≠ id) (ids (si_links index))) as Hf.
  { rewrite Hl, fmap_app, filter_app, !filter_cons, !decide_False by (intros Hc; by apply Hc).
    f_equal; symmetry; apply filter_all; intros q (m & -> & Hm)%list_elem_of_fmap; apply Hother; rewrite elem_of_app; auto. }
  split; [|split; [done|]].
  - split; [done|..].
    + rewrite Hl', Hf. apply (traversal_ext (without id (kids nodes))).
      * replace [zeroTag] with (filter (.≠ id) [zeroTag]) by (rewrite filter_cons, decide_True by congruence; done).
        by apply traversal_remove.
      * intros p _. by rewrite kids_delete.
    + intros p. rewrite Hl', Hf, list_elem_of_filter, Hnodes. cbn [fst]. rewrite lookup_delete_is_Some. split.
      * intros [? [?|?]]; auto.
      * intros [->|[? ?]]; auto.
    + rewrite lookup_delete_ne by done. done.
    + intros m Hm. rewrite Hl' in Hm. pose proof (Hother m Hm) as Hne. rewrite Hvis.
      * unfold marker_shown. f_equal. f_equal. apply bool_decide_ext. set_solver.
      * rewrite HL, elem_of_app. apply elem_of_app in Hm as [?|?]; [by left|]. right. by do 2 right.
  - intros HT. rewrite Hl', HL. unfold shown. rewrite !filter_app, !filter_cons.
    assert (∀ m, m ∈ si_links index → mk_position m = id → ¬ is_visible m) as Hinv.
    { intros m Hm Hpos. unfold is_visible. rewrite Hvis by done. unfold marker_shown. rewrite Hpos.
      rewrite (bool_decide_eq_true_2 (id ∈ T)) by done. rewrite andb_false_r. done. }
    rewrite !decide_False; [done|..]; apply Hinv; try done; rewrite HL, elem_of_app, !elem_of_cons; auto.
Qed.

(** ** Shrinking a replica *)

Lemma drained_known r : store_ok r → rg_pending r = ∅ → known r = rg_nodes r.
Proof. intros Hr Hp. unfold known. rewrite Hp. apply (right_id_L ∅ union). Qed.

Lemma shrink_wf r r' :
  rga_wf r → store_ok r' → rg_pending r = ∅ → rg_pending r' = ∅ → rg_nodes r' ⊆ rg_nodes r →
  rg_tombstones r' ⊆ rg_tombstones r → rg_clock r' = rg_clock r → rg_options r' = rg_options r →
  rg_replicaID r' = rg_replicaID r → rga_wf r'.
Proof.
  intros Hwf Hr' Hp Hp' Hn HT Hc Ho Hi. pose proof Hwf as [Hr _ _ Htv Hcl (Hl1 & Hl2 & Hl3 & Hl4)].
  assert (known r' ⊆ known r) as Hk by (by rewrite (drained_known r), (drained_known r')).
  split; [done|..].
  - intros id n. by rewrite Hp'.
  - intros id. destruct (known r' !! id) as [n|] eqn:E; [|by constructor]. apply rooted_ends; [by apply known_root|].
    apply integrated_rooted; [done|]. right. rewrite drained_known in E by done. eauto.
  - intros t Ht. apply Htv. set_solver.
  - destruct Hcl as (h & Hh & Hhw & Hid & Hcov). exists h. rewrite Hc, Hi. split_and!; try done. intros t Ht. apply Hcov.
    destruct Ht as [[n Hn']|[(q & n & Hq & Hpar)|Ht]].
    + left. exists n. by eapply lookup_weaken.
    + right. left. exists q, n. split; [by eapply lookup_weaken|done].
    + right. right. set_solver.
  - unfold within_limits. rewrite Ho, Hp'. pose proof (map_subseteq_size _ _ Hk). pose proof (subseteq_size _ _ HT).
    rewrite Hp in Hl3. rewrite (st_bytes r' Hr'), Hp'. rewrite (st_bytes r Hr), Hp in Hl4. lia.
Qed.

(** ** The batch of leaves *)

(** A tombstoned leaf. *)
Definition removable (r : RGA) (t : Position) : Prop := is_Some (rg_nodes r !! t) ∧ kids (rg_nodes r) t = [].

Lemma removable_guard r t :
  store_ok r → rg_pending r = ∅ →
  bool_decide (rg_nodes r !! t = None) || (0 <? children_count (rg_children r) t) ||
    (0 <? Z.of_nat (size (default ∅ (rg_waitingByParent r !! t)))) || negb (si_has (rg_sequence r) t) = false ↔ removable r t.
Proof.
  intros Hr Hp. fold (waiting r t). assert (waiting r t = ∅) as ->.
  { apply set_eq. intros q. rewrite (st_waiting r Hr), Hp. split; [by intros (? & ? & _)|set_solver]. }
  rewrite size_empty. change (0 <? Z.of_nat 0) with false. rewrite orb_false_r.
  destruct (rg_nodes r !! t) as [n|] eqn:Hn.
  2: { rewrite bool_decide_eq_true_2 by done. split; [done|]. intros [[? ?] _]. congruence. }
  rewrite bool_decide_eq_false_2 by done. cbn [orb].
  assert (is_Some (si_pairs (rg_sequence r) !! t)) as Hpair.
  { apply (tree_pairs (tree_links _ _ _ _ (st_tree r Hr))). right. eauto. }
  assert (si_has (rg_sequence r) t = true) as ->.
  { unfold si_has, si_entry, si_pair. destruct Hpair as [x ->]. done. }
  rewrite (children_count_stored _ _ (kids (rg_nodes r) t)) by (done || apply (tree_children _ _ _ _ (st_tree r Hr))).
  rewrite orb_false_r, Z.ltb_ge. unfold removable. rewrite Hn. split.
  - intros Hl. split; [eauto|]. destruct (kids _ _); [done|]. rewrite len_cons in Hl. pose proof (len_nonneg l). lia.
  - intros [_ ->]. done.
Qed.

Lemma compact_select_spec r seen compact tags :
  store_ok r → rg_pending r = ∅ → NoDup compact → (∀ t, t ∈ compact → t ∈ seen) →
  match compact_select r seen compact tags with
  | Ok out =>
      NoDup out ∧ (∀ t, t ∈ out ↔ t ∈ compact ∨ (t ∈ tags ∧ (t ∉ seen) ∧ t ∈ rg_tombstones r)) ∧
      (∀ t, t ∈ out → t ∈ compact ∨ removable r t)
  | Err e => e = ErrText TextCompaction ∧ ∃ t, t ∈ tags ∧ t ∈ rg_tombstones r ∧ ¬ removable r t
  end.
Proof.
  intros Hr Hp. revert seen compact. induction tags as [|t tags IH]; intros seen compact Hnd Hseen; cbn [compact_select].
  { split_and!; [done| |auto]. setoid_rewrite elem_of_nil. naive_solver. }
  case_bool_decide as Hs.
  - specialize (IH seen compact Hnd Hseen). destruct (compact_select _ _ _ _) as [out|e].
    + destruct IH as (? & Hin & ?). split_and!; try done. intros q. rewrite Hin, elem_of_cons. naive_solver.
    + destruct IH as (? & q & ? & ?). split; [done|]. exists q. rewrite elem_of_cons. auto.
  - case_bool_decide as HT.
    + specialize (IH ({[t]} ∪ seen) compact Hnd). destruct (compact_select _ _ _ _) as [out|e].
      * destruct IH as (? & Hin & ?); [set_solver|]. split_and!; try done. intros q. rewrite Hin, elem_of_cons. set_solver.
      * destruct IH as (? & q & ? & ?); [set_solver|]. split; [done|]. exists q. rewrite elem_of_cons. auto.
    + destruct (_ || _) eqn:Hg.
      * split; [done|]. exists t. split; [by left|]. split; [done|].
        rewrite <-(removable_guard r t Hr Hp), Hg. done.
      * apply removable_guard in Hg; [|done..].
        destruct (compact_select r ({[t]} ∪ seen) (compact ++ [t]) tags) as [out|e] eqn:E;
          specialize (IH ({[t]} ∪ seen) (compact ++ [t])); rewrite E in IH.
        all: assert (NoDup (compact ++ [t])) as Hnd' by (apply NoDup_app; split; [done|]; split; [|apply NoDup_singleton];
          intros x Hx ->%list_elem_of_singleton; by apply Hs, Hseen).
        all: assert (∀ x, x ∈ compact ++ [t] → x ∈ {[t]} ∪ seen) as Hseen'
          by (intros x; rewrite elem_of_app, list_elem_of_singleton; set_solver).
        -- destruct (IH Hnd' Hseen') as (? & Hin & Hrm). split; [done|]. split.
           ++ intros q. rewrite Hin, elem_of_app, list_elem_of_singleton, elem_of_cons.
              destruct (decide (q = t)) as [->|]; set_solver.
           ++ intros q Hq. destruct (Hrm q Hq) as [[?| ->%list_elem_of_singleton]%elem_of_app|?]; auto.
        -- destruct (IH Hnd' Hseen') as (? & q & ? & ?). split; [done|]. exists q. rewrite elem_of_cons. auto.
Qed.

Lemma stored_delete branches pairs id q l :
  (q ≠ id → stored (branches, pairs) q l) → (q = id → l = [] ∧ branches !! id = None) →
  stored (branches, delete id pairs) q l.
Proof.
  intros Hl Hid. destruct (decide (q = id)) as [->|Hne].
  - destruct (Hid eq_refl) as [-> Hb]. split; [done|]. unfold singleChild. cbn [snd]. by rewrite lookup_delete_eq.
  - specialize (Hl Hne). unfold stored, singleChild in *. cbn [fst snd] in *. by rewrite lookup_delete_ne.
Qed.

Lemma links_pairs nodes T index pairs :
  links_ok nodes T index → (∀ q, is_Some (pairs !! q) ↔ is_Some (si_pairs index !! q)) → links_ok nodes T (si_with_pairs index pairs).
Proof.
  intros [(Hin & Hc & Hnd & Hp) Hord Hnodes Hroot Hvis] Hdom. split; try done. split_and!; try done.
  intros q. cbn [si_pairs si_with_pairs]. rewrite Hdom. apply Hp.
Qed.

(** Removing one tombstoned leaf from both indexes. *)
Lemma remove_leaf r t n :
  store_ok r → rg_pending r = ∅ → rg_nodes r !! t = Some n → kids (rg_nodes r) t = [] → t ∈ rg_tombstones r →
  ∃ ci sequence, children_remove (rg_children r) (nd_parent n) t = Some ci ∧
    removeLeaf (si_with_pairs (rg_sequence r) ci.2) t = Some sequence ∧
    tree_ok (delete t (rg_nodes r)) (rg_tombstones r ∖ {[t]}) sequence ci.1 ∧
    shown (si_links sequence) = shown (si_links (rg_sequence r)).
Proof.
  intros Hr Hp Hn Hk HT. pose proof (st_tree r Hr) as [Hlinks Hch Hpos]. set (p := nd_parent n).
  assert (t ∈ kids (rg_nodes r) p) as Htk by (apply elem_of_kids; eauto).
  assert (p ≠ t) as Hpt by (intros Heq; rewrite Heq, Hk in Htk; by apply elem_of_nil in Htk).
  destruct (children_remove_spec (rg_children r) p t (kids (rg_nodes r) p)) as (ci & -> & Hst & Hsto & Hdom & Hposs);
    [apply (tree_pairs Hlinks), (tree_parent Hlinks t n Hn)|apply Hch|apply kids_increasing|done|].
  destruct (links_remove (rg_nodes r) (rg_tombstones r) (si_with_pairs (rg_sequence r) ci.2) t n) as (sequence & Hrem & Hlinks' & Hpairs & Hshown);
    [by apply links_pairs|done|done|].
  exists ci, sequence. split_and!; try done; [|by apply Hshown]. destruct ci as [branches pairs]. cbn [fst snd] in *.
  cbn [si_pairs si_with_pairs] in Hpairs. split; [done|..]; rewrite Hpairs.
  - intros q. rewrite kids_delete. apply stored_delete.
    + intros Hq. destruct (decide (q = p)) as [->|Hqp]; [done|]. rewrite filter_all; [apply Hsto; [done|apply Hch]|].
      intros x (m & Hm & Hpar)%elem_of_kids ->. apply Hqp. rewrite Hn in Hm. by injection Hm as <-.
    + intros ->. rewrite Hk. split; [done|]. pose proof (Hsto t [] (not_eq_sym Hpt)) as Hs. rewrite <-Hk in Hs.
      specialize (Hs (Hch t)). rewrite Hk in Hs. apply Hs.
  - intros q x [_ Hx]%lookup_delete_Some. by apply (Hposs Hpos).
Qed.

Lemma compact_remove_loop_spec r compact :
  store_ok r → rg_pending r = ∅ → NoDup compact → (∀ t, t ∈ compact → removable r t ∧ t ∈ rg_tombstones r) →
  ∃ r', compact_remove_loop r compact = (r', Ok tt) ∧ store_ok r' ∧
    rg_nodes r' = filter (λ e : Position * node, e.1 ∉ compact) (rg_nodes r) ∧
    rg_tombstones r' = rg_tombstones r ∖ list_to_set compact ∧ rg_pending r' = ∅ ∧ rg_clock r' = rg_clock r ∧
    rg_options r' = rg_options r ∧ rg_replicaID r' = rg_replicaID r ∧ rg_version r' = rg_version r ∧
    shown (si_links (rg_sequence r')) = shown (si_links (rg_sequence r)).
Proof.
  revert r. induction compact as [|t compact IH]; intros r Hr Hp Hnd Hrm; cbn [compact_remove_loop].
  { exists r. split_and!; try done; [|set_solver]. symmetry. apply map_filter_id. intros id n _. apply not_elem_of_nil. }
  apply NoDup_cons in Hnd as [Ht Hnd]. destruct (Hrm t) as [[[n Hn] Hk] HT]; [by left|].
  destruct (remove_leaf r t n Hr Hp Hn Hk HT) as (ci & sequence & Hci & Hseq & Htree & Hshown).
  rewrite Hn. change (default _ (Some n)) with n. rewrite Hci. cbn [set_children rg_sequence set_sequence]. rewrite Hseq.
  set (r1 := set_tombstones _ _). assert (store_ok r1) as Hr1.
  { destruct Hr as [_ Hdj Hw Hne Hb Hwf]. split; try done.
    - cbn. rewrite Hp. apply map_disjoint_empty_r.
    - intros id m Hm. apply Hwf. unfold known in *. cbn [rg_nodes rg_pending r1 set_tombstones set_nodes set_sequence set_children] in Hm.
      rewrite Hp, (right_id_L ∅ union) in *. by apply lookup_delete_Some in Hm as [_ ?]. }
  destruct (IH r1 Hr1 Hp Hnd) as (r' & -> & Hr' & Hn' & HT' & Hp' & Hc & Ho & Hi & Hv & Hs).
  - intros q Hq. destruct (Hrm q) as [[[m Hm] Hkq] HTq]; [by right|]. assert (q ≠ t) as Hne by (by intros ->).
    split; [split|]; cbn [rg_nodes rg_tombstones r1 set_tombstones set_nodes set_sequence set_children].
    + rewrite lookup_delete_ne by done. eauto.
    + rewrite kids_delete, Hkq. done.
    + set_solver.
  - exists r'. split_and!; try done.
    + rewrite Hn'. cbn [rg_nodes r1 set_tombstones set_nodes set_sequence]. apply map_eq. intros id. apply option_eq. intros m.
      rewrite !map_lookup_filter_Some, lookup_delete_Some. cbn [fst]. rewrite elem_of_cons. naive_solver.
    + rewrite HT'. cbn [rg_tombstones r1 set_tombstones]. set_solver.
    + by rewrite Hs.
Qed.

(** Fewer nodes with the same visible markers show the same text. *)
Lemma compacted_text r r' :
  rga_wf r → rga_wf r' → known r' ⊆ known r → shown (si_links (rg_sequence r')) = shown (si_links (rg_sequence r)) →
  VisibleRunes (Some r') = VisibleRunes (Some r) ∧ RGA_String (Some r') = RGA_String (Some r).
Proof.
  intros [Hr Hd _ _ _ _] [Hr' Hd' _ _ _ _] Hsub Hs.
  destruct (queries_document r Hr Hd) as (Hpos & Hru & _), (queries_document r' Hr' Hd') as (Hpos' & Hru' & _).
  rewrite !shown_document in Hs by done. assert (document_runes (known r') (rg_tombstones r') = document_runes (known r) (rg_tombstones r)) as Heq.
  { rewrite !document_runes_node, <-Hs. symmetry. apply runes_stable; [done|]. intros id Hid. by apply document_known. }
  unfold VisibleRunes, RGA_String. by rewrite Hpos, Hru, Hpos', Hru', Hs, Heq.
Qed.

(** The version is not part of the invariant. *)
Lemma bump_wf r b : rga_wf r → rga_wf (bump_version r b).
Proof. destruct b; [|done]. intros [[? ? ? ? ? ?] ? ? ? ? ?]. by split. Qed.

Lemma bump_same r b :
  rg_nodes (bump_version r b) = rg_nodes r ∧ rg_tombstones (bump_version r b) = rg_tombstones r ∧
  rg_pending (bump_version r b) = rg_pending r ∧ rg_sequence (bump_version r b) = rg_sequence r.
Proof. by destruct b. Qed.

(** Compacting tombstones. A successful call removes exactly the named tombstones
    and their nodes, reports how many, and leaves the text and the invariant as they
    were. It fails, changing nothing, when a tag is invalid, when nodes are pending,
    or when a named tombstone is not an integrated leaf. *)
Theorem RGA_CompactTombstones_spec (r : RGA) (tags : list Position) (Hwf : rga_wf r) :
  let gone := rg_tombstones r ∩ list_to_set tags in
  match RGA_CompactTombstones (Some r) tags with
  | (Some r', Ok n) =>
      rga_wf r' ∧ VisibleRunes (Some r') = VisibleRunes (Some r) ∧ RGA_String (Some r') = RGA_String (Some r) ∧
      n = Z.of_nat (size gone) ∧ rg_tombstones r' = rg_tombstones r ∖ gone ∧
      rg_nodes r' = filter (λ e : Position * node, e.1 ∉ gone) (rg_nodes r) ∧ (∀ t, t ∈ gone → removable r t)
  | (Some r', Err e) =>
      r' = r ∧ e = ErrText TextCompaction ∧
      (forallb Valid tags = false ∨ rg_pending r ≠ ∅ ∨ ∃ t, t ∈ gone ∧ ¬ removable r t)
  | (None, _) => False
  end.
Proof.
  intros gone. unfold RGA_CompactTombstones. destruct (forallb Valid tags) eqn:Hv; cbn [negb]; [|by auto].
  case_bool_decide as Hp; [by auto|]. pose proof (wf_store r Hwf) as Hr.
  pose proof (compact_select_spec r ∅ [] tags Hr Hp (NoDup_nil_2)) as Hsel. destruct (compact_select r ∅ [] tags) as [compact|e].
  2: { destruct Hsel as (-> & t & Ht & HT & Hrm); [by intros ? ?%elem_of_nil|]. split_and!; try done. do 2 right.
       exists t. split; [|done]. apply elem_of_intersection. by rewrite elem_of_list_to_set. }
  destruct Hsel as (Hnd & Hin & Hrm); [by intros ? ?%elem_of_nil|].
  assert (∀ t, t ∈ compact ↔ t ∈ gone) as Hgone.
  { intros t. rewrite Hin. unfold gone. rewrite elem_of_nil, elem_of_intersection, elem_of_list_to_set. set_solver. }
  assert (∀ t, t ∈ compact → removable r t) as Hrm' by (intros t Ht; by destruct (Hrm t Ht) as [?%elem_of_nil|?]).
  destruct (compact_remove_loop_spec r compact Hr Hp Hnd) as (r' & -> & Hr' & Hn & HT & Hp' & Hc & Ho & Hi & _ & Hs).
  { intros t Ht. split; [by apply Hrm'|]. apply Hgone in Ht. set_solver. }
  assert (list_to_set compact = gone) as Hset by (apply set_eq; intros t; by rewrite elem_of_list_to_set, Hgone).
  rewrite Hset in HT. assert (rga_wf r') as Hwf'.
  { apply (shrink_wf r r'); try done; [rewrite Hn; apply map_filter_subseteq|set_solver]. }
  assert (len compact = Z.of_nat (size gone)) as Hlen.
  { rewrite <-Hset, size_list_to_set by done. done. }
  destruct (bump_same r' (0 <? len compact)) as (Hbn & HbT & Hbp & Hbs). pose proof (bump_wf r' (0 <? len compact) Hwf') as Hwfb.
  destruct (compacted_text r (bump_version r' (0 <? len compact)) Hwf Hwfb) as [Ht1 Ht2]; [|by rewrite Hbs|].
  { unfold known. rewrite Hbn, Hbp, Hp, Hp', !(right_id_L ∅ union), Hn. apply map_filter_subseteq. }
  rewrite Hbn, HbT, Hn. split_and!; try done; [|by setoid_rewrite <-Hgone].
  apply map_filter_ext. intros id n _. cbn [fst]. by rewrite Hgone.
Qed.

(** ** The plan of eligible subtrees *)

Abbreviation children_first := (Forest.children_first nd_parent).

(** ** Removing the plan *)

Lemma removeSelected_present gone ci p k :
  is_Some (ci.2 !! p) → stored ci p k →
  stores ci (removeSelected gone ci p) p (filter (λ c, gone c = false) k).
Proof.
  intros Hp Hk. destruct ci as [branches pairs]. unfold removeSelected. cbn [snd] in Hp.
  destruct k as [|c [|c' k]]; cbn [stored fst snd] in Hk; destruct Hk as [Hb Hs]; rewrite Hb, ?Hs.
  - split_and!; try done.
  - destruct (gone c) eqn:Hg.
    + rewrite filter_cons, decide_False by (by rewrite Hg). by apply stores_single.
    + rewrite filter_cons, decide_True by done. by split_and!.
  - by apply store_siblings_spec.
Qed.

Lemma removeSelected_absent gone ci p k :
  ci.2 !! p = None → ci.1 !! p = None ∨ ci.1 !! p = Some k → (∀ c, c ∈ k → gone c = true) →
  (removeSelected gone ci p).2 = ci.2 ∧ ∀ q, (removeSelected gone ci p).1 !! q = if decide (q = p) then None else ci.1 !! q.
Proof.
  intros Hp Hk Hgone. destruct ci as [branches pairs]. unfold removeSelected. cbn [fst snd] in *.
  destruct Hk as [Hb|Hb]; rewrite Hb.
  - unfold singleChild. rewrite Hp. simpl. split; [done|]. intros q. case_decide; [by subst|done].
  - rewrite filter_none by (intros c Hc; by rewrite Hgone). cbn [store_siblings fst snd]. split; [done|]. intros q. case_decide.
    + subst. apply lookup_delete_eq.
    + by apply lookup_delete_ne.
Qed.

Lemma removeSelected_other gone ci p q : q ≠ p → (removeSelected gone ci p).1 !! q = ci.1 !! q.
Proof.
  intros Hq. destruct ci as [branches pairs]. unfold removeSelected. destruct (branches !! p) as [siblings|]; cbn [fst].
  - unfold store_siblings. destruct (filter _ siblings) as [|c [|c' k]]; cbn [fst];
      by rewrite ?lookup_delete_ne, ?lookup_insert_ne by done.
  - destruct (singleChild pairs p) as [c|]; [|done]. by destruct (gone c).
Qed.

Section selected.
Context (nodes : gmap Position node) (T : gset Position) (index : sequenceIndex) (branches : gmap Position (list Position)).
Context (Htree : tree_ok nodes T index branches) (R : list Position).
Context (HR : ∀ t q, t ∈ R → q ∈ kids nodes t → q ∈ R).

Abbreviation gone := (λ child, bool_decide (child ∈ R)).

Lemma filter_gone (k : list Position) : filter (λ c, gone c = false) k = filter (.∉ R) k.
Proof using. apply list_filter_iff. intros c. apply bool_decide_eq_false. Qed.

(** The child index after the parents [done] were filtered. *)
Definition selected (done : list Position) (ci : child_index) : Prop :=
  (∀ q, is_Some (ci.2 !! q) ↔ is_Some (si_pairs index !! q) ∧ q ∉ R) ∧ positions_ok ci.2 ∧
  (∀ q, q ∉ R → q ∈ done → stored ci q (filter (.∉ R) (kids nodes q))) ∧
  (∀ q, q ∉ R → q ∉ done → stored ci q (kids nodes q)) ∧
  (∀ q, q ∈ R → q ∈ done → ci.1 !! q = None) ∧ (∀ q, q ∈ R → q ∉ done → ci.1 !! q = branches !! q).

Lemma stored_branches ci p k : stored ci p k → ci.1 !! p = None ∨ ci.1 !! p = Some k.
Proof using. destruct k as [|c [|c' k]]; intros [? _]; auto. Qed.

Lemma selected_step done ci p :
  selected done ci → p ∉ done → p = zeroTag ∨ is_Some (nodes !! p) → selected (done ++ [p]) (removeSelected gone ci p).
Proof using Htree HR.
  intros (Hdom & Hpos & Hkd & Hkn & Hgd & Hgn) Hp Hin. unfold selected. setoid_rewrite elem_of_app. setoid_rewrite list_elem_of_singleton.
  destruct (decide (p ∈ R)) as [HpR|HpR].
  - destruct (removeSelected_absent gone ci p (kids nodes p)) as [H2 H1].
    + apply eq_None_not_Some. rewrite Hdom. tauto.
    + rewrite (Hgn p HpR Hp). apply (stored_branches (branches, si_pairs index)), (tree_children _ _ _ _ Htree).
    + intros c Hc. apply bool_decide_eq_true. by apply (HR p).
    + assert (∀ q l, q ≠ p → stored ci q l → stored (removeSelected gone ci p) q l) as Hst.
      { intros q l Hq. unfold stored. rewrite H1, H2, decide_False by done. done. }
      rewrite H2. split_and!; try done.
      * intros q Hq [Hd| ->]; [|done]. apply Hst; [by intros ->|auto].
      * intros q Hq Hd. apply Hst; [tauto|]. apply Hkn; tauto.
      * intros q Hq Hd. rewrite H1. destruct (decide (q = p)); [done|]. apply Hgd; tauto.
      * intros q Hq Hd. rewrite H1, decide_False by tauto. apply Hgn; tauto.
  - destruct (removeSelected_present gone ci p (kids nodes p)) as (Hst & Hsto & Hdom' & Hpos').
    + apply Hdom. split; [|done]. by apply (tree_pairs (tree_links _ _ _ _ Htree)).
    + by apply Hkn.
    + rewrite filter_gone in Hst. assert (∀ q, q ∈ R → (removeSelected gone ci p).1 !! q = ci.1 !! q) as Hbr.
      { intros q Hq. apply removeSelected_other. by intros ->. }
      split_and!.
      * intros q. rewrite Hdom'. apply Hdom.
      * by apply Hpos'.
      * intros q Hq Hd. destruct (decide (q = p)) as [->|Hqp]; [done|]. apply Hsto; [done|]. apply Hkd; tauto.
      * intros q Hq Hd. apply Hsto; [tauto|]. apply Hkn; tauto.
      * intros q Hq [Hd| ->]; [|done]. rewrite Hbr by done. auto.
      * intros q Hq Hd. rewrite Hbr by done. apply Hgn; tauto.
Qed.

Lemma selected_fold ps done ci :
  selected done ci → NoDup (done ++ ps) → (∀ p, p ∈ ps → p = zeroTag ∨ is_Some (nodes !! p)) →
  selected (done ++ ps) (foldl (removeSelected gone) ci ps).
Proof using Htree HR.
  revert done ci. induction ps as [|p ps IH]; intros done ci Hsel Hnd Hps; cbn [foldl]; [by rewrite app_nil_r|].
  rewrite cons_middle, app_assoc in *. apply IH; [|done|intros q Hq; apply Hps; by right].
  apply selected_step; [done| |apply Hps; by left].
  apply NoDup_app in Hnd as ((_ & Hd & _)%NoDup_app & _). intros Hp. apply (Hd p Hp). by left.
Qed.
End selected.

(** The leaves are taken out of the sequence one after the other. *)
Lemma eligible_remove_spec r l :
  links_ok (rg_nodes r) (rg_tombstones r) (rg_sequence r) → NoDup l → children_first (rg_nodes r) l →
  (∀ t, t ∈ l → is_Some (rg_nodes r !! t) ∧ t ∈ rg_tombstones r) →
  ∃ sequence, eligible_remove r l =
      (set_tombstones (set_nodes (set_sequence r sequence (rg_branches r))
         (filter (λ e : Position * node, e.1 ∉ l) (rg_nodes r))) (rg_tombstones r ∖ list_to_set l), true) ∧
    links_ok (filter (λ e : Position * node, e.1 ∉ l) (rg_nodes r)) (rg_tombstones r ∖ list_to_set l) sequence ∧
    (∀ q, si_pairs sequence !! q = if decide (q ∈ l) then None else si_pairs (rg_sequence r) !! q) ∧
    shown (si_links sequence) = shown (si_links (rg_sequence r)).
Proof.
  revert r. induction l as [|t l IH]; intros r Hlinks Hnd Hcf Hl; cbn [eligible_remove].
  { exists (rg_sequence r). assert (filter (λ e : Position * node, e.1 ∉ []) (rg_nodes r) = rg_nodes r) as ->
      by (apply map_filter_id; intros id n _; apply not_elem_of_nil).
    rewrite list_to_set_nil, difference_empty_L. split_and!; try done. by destruct r. }
  apply NoDup_cons in Hnd as [Ht Hnd]. destruct (Hl t) as [[n Hn] HT]; [by left|].
  assert (kids (rg_nodes r) t = []) as Hk.
  { destruct (kids (rg_nodes r) t) as [|q k] eqn:E; [done|]. exfalso. apply (not_elem_of_nil q), (Hcf [] t l eq_refl). rewrite E. by left. }
  destruct (links_remove _ _ _ t n Hlinks Hn Hk) as (sequence & -> & Hlinks1 & Hp1 & Hs1).
  set (r1 := set_tombstones _ _). destruct (IH r1) as (sequence' & -> & Hlinks' & Hp' & Hs'); [done|done|..].
  - intros a t' b -> q Hq. cbn [r1 rg_nodes set_tombstones set_nodes set_sequence] in Hq. rewrite kids_delete in Hq.
    apply list_elem_of_filter in Hq as [Hqt Hq]. by apply (Hcf (t :: a) t' b eq_refl) in Hq as [?|?]%elem_of_cons.
  - intros q Hq. cbn [r1 rg_nodes rg_tombstones set_tombstones set_nodes set_sequence]. assert (q ≠ t) by (by intros ->).
    rewrite lookup_delete_ne by done. destruct (Hl q) as [? ?]; [by right|]. split; [done|set_solver].
  - exists sequence'. cbn [r1 rg_nodes rg_tombstones rg_sequence rg_branches set_tombstones set_nodes set_sequence] in *.
    assert (filter (λ e : Position * node, e.1 ∉ l) (delete t (rg_nodes r)) =
      filter (λ e : Position * node, e.1 ∉ t :: l) (rg_nodes r)) as Hf.
    { apply map_eq. intros id. apply option_eq. intros m. rewrite !map_lookup_filter_Some, lookup_delete_Some. cbn [fst].
      rewrite elem_of_cons. naive_solver. }
    assert ((rg_tombstones r ∖ {[t]}) ∖ list_to_set l = rg_tombstones r ∖ list_to_set (t :: l)) as HTl by set_solver.
    rewrite Hf, HTl in *. split_and!; try done.
    + intros q. rewrite Hp', Hp1. destruct (decide (q ∈ l)) as [Hq|Hq]; [by rewrite decide_True by (by right)|].
      destruct (decide (q = t)) as [->|Hqt].
      * rewrite lookup_delete_eq, decide_True by (by left). done.
      * rewrite lookup_delete_ne, decide_False by (rewrite ?elem_of_cons; naive_solver). done.
    + rewrite Hs'. by apply Hs1.
Qed.

(** Removing the plan keeps the store and the visible markers. *)
Lemma applyPlan_spec r l :
  store_ok r → rg_pending r = ∅ → NoDup l → children_first (rg_nodes r) l →
  (∀ t, t ∈ l → is_Some (rg_nodes r !! t) ∧ t ∈ rg_tombstones r) → (∀ t q, t ∈ l → q ∈ kids (rg_nodes r) t → q ∈ l) →
  ∃ r', applyEligibleCompactionPlanLocked r l = (r', true) ∧ store_ok r' ∧
    rg_nodes r' = filter (λ e : Position * node, e.1 ∉ l) (rg_nodes r) ∧
    rg_tombstones r' = rg_tombstones r ∖ list_to_set l ∧ rg_pending r' = ∅ ∧ rg_clock r' = rg_clock r ∧
    rg_options r' = rg_options r ∧ rg_replicaID r' = rg_replicaID r ∧
    shown (si_links (rg_sequence r')) = shown (si_links (rg_sequence r)).
Proof.
  intros Hr Hp Hnd Hcf Hl HR. pose proof (st_tree r Hr) as Htree. pose proof Htree as [Hlinks Hch Hpos].
  unfold applyEligibleCompactionPlanLocked.
  assert (forallb (λ tag, bool_decide (is_Some (rg_nodes r !! tag))) l = true) as ->.
  { apply forallb_forall. intros t Ht%list_elem_of_In. apply bool_decide_eq_true. by apply Hl. }
  cbn [negb]. set (parents := list_to_set _).
  destruct (eligible_remove_spec r l Hlinks Hnd Hcf Hl) as (sequence & -> & Hlinks' & Hpairs & Hs).
  set (nodes' := filter _ _) in *. set (T' := rg_tombstones r ∖ _) in *.
  cbn [rg_children set_children rg_branches rg_sequence set_tombstones set_nodes set_sequence].
  assert (∀ p, p ∈ elements parents ↔ ∃ t, t ∈ l ∧ t ∈ kids (rg_nodes r) p) as Hparents.
  { intros p. unfold parents. rewrite elem_of_elements, elem_of_list_to_set, list_elem_of_fmap. split.
    - intros (t & -> & Ht). exists t. split; [done|]. destruct (Hl t Ht) as [[n Hn] _]. rewrite Hn. apply elem_of_kids. eauto.
    - intros (t & Ht & (n & Hn & <-)%elem_of_kids). exists t. by rewrite Hn. }
  set (ci := foldl _ _ _).
  assert (selected (rg_nodes r) (rg_sequence r) (rg_branches r) l (elements parents) ci) as Hsel.
  { refine (selected_fold (rg_nodes r) (rg_tombstones r) (rg_sequence r) (rg_branches r) Htree l HR (elements parents) []
      (rg_branches r, si_pairs sequence) _ _ _).
    - split_and!; cbn [fst snd]; [| | |intros q Hq _| |done]; try (by intros ? ? ?%elem_of_nil).
      + intros q. rewrite Hpairs. destruct (decide (q ∈ l)) as [Hq|Hq]; [|tauto]. split; [by intros [? ?]|tauto].
      + intros q x Hx. rewrite Hpairs in Hx. destruct (decide (q ∈ l)); [done|]. by apply Hpos.
      + specialize (Hch q). unfold stored, singleChild in *. cbn [fst snd] in *. by rewrite Hpairs, decide_False.
    - apply NoDup_elements.
    - intros p (t & Ht & (n & Hn & <-)%elem_of_kids)%Hparents. by apply (tree_parent Hlinks t n). }
  destruct Hsel as (Hdom & Hpos' & Hkd & Hkn & Hgd & Hgn).
  assert (∀ q, stored ci q (kids nodes' q)) as Hst.
  { intros q. unfold nodes'. rewrite kids_filter. destruct (decide (q ∈ l)) as [Hq|Hq].
    - rewrite filter_none by (intros x Hx Hn; by apply Hn, (HR q)). split.
      + destruct (decide (q ∈ elements parents)) as [He|He]; [auto|]. rewrite Hgn by done.
        assert (kids (rg_nodes r) q = []) as Hk.
        { destruct (kids (rg_nodes r) q) as [|x k] eqn:E; [done|]. destruct He. apply Hparents. exists x.
          split; [apply (HR q); [done|]; rewrite E; by left|rewrite E; by left]. }
        specialize (Hch q). rewrite Hk in Hch. apply Hch.
      + unfold singleChild. assert (ci.2 !! q = None) as ->; [|done]. apply eq_None_not_Some. rewrite Hdom. tauto.
    - destruct (decide (q ∈ elements parents)) as [He|He]; [auto|]. rewrite filter_all; [auto|].
      intros x Hx Hxl. apply He, Hparents. eauto. }
  eexists. split; [reflexivity|].
  cbn [rg_nodes rg_tombstones rg_pending rg_clock rg_options rg_replicaID rg_sequence set_sequence set_tombstones set_nodes].
  split; [|done]. destruct Hr as [_ Hdj Hw Hne Hb Hwf].
  split; cbn [rg_nodes rg_tombstones rg_pending rg_sequence rg_branches rg_pendingBytes rg_waitingByParent set_sequence
    set_tombstones set_nodes]; try done.
  - split; [|cbn [si_pairs si_with_pairs]; by destruct ci|done]. apply links_pairs; [done|]. intros q. rewrite Hdom, Hpairs.
    destruct (decide (q ∈ l)) as [Hq|Hq]; [|tauto]. split; [tauto|by intros [? ?]].
  - change (nodes' ##ₘ rg_pending r). rewrite Hp. apply map_disjoint_empty_r.
  - intros id m Hm. apply Hwf. unfold known in *. change ((nodes' ∪ rg_pending r) !! id = Some m) in Hm.
    rewrite Hp, (right_id_L ∅ union) in *. by apply map_lookup_filter_Some in Hm as [? _].
Qed.

(** ** Eligible subtrees *)

Lemma eligible_candidate r t :
  store_ok r → rg_pending r = ∅ →
  eligibleCompactionCandidateLocked r t = true ↔ t ∈ rg_tombstones r ∧ is_Some (rg_nodes r !! t).
Proof.
  intros Hr Hp. unfold eligibleCompactionCandidateLocked. fold (waiting r t). assert (waiting r t = ∅) as ->.
  { apply set_eq. intros q. rewrite (st_waiting r Hr), Hp. split; [by intros (? & ? & _)|set_solver]. }
  rewrite size_empty. change (Z.of_nat 0 =? 0) with true. rewrite andb_true_r, !andb_true_iff, !bool_decide_eq_true.
  split; [tauto|]. intros [HT Hn]. split_and!; try done. unfold si_has, si_entry, si_pair.
  destruct (proj2 (tree_pairs (tree_links _ _ _ _ (st_tree r Hr)) t) (or_intror Hn)) as [x ->]. done.
Qed.

(** The plan is the set of candidates all of whose children are in it. *)
Lemma eligiblePlan_spec r tags :
  store_ok r → rg_pending r = ∅ →
  let plan := eligibleCompactionPlanLocked r tags in
  NoDup plan ∧ children_first (rg_nodes r) plan ∧
  (∀ t, t ∈ plan ↔ t ∈ tags ∧ t ∈ rg_tombstones r ∧ is_Some (rg_nodes r !! t) ∧ ∀ q, q ∈ kids (rg_nodes r) t → q ∈ plan).
Proof.
  intros Hr Hp. unfold eligibleCompactionPlanLocked. set (C := sortPositions _).
  assert (NoDup C) as HC by (unfold C, sortPositions; rewrite (sort_by_perm Compare); apply NoDup_remove_dups).
  assert (∀ t, t ∈ C ↔ t ∈ tags ∧ t ∈ rg_tombstones r ∧ is_Some (rg_nodes r !! t)) as HinC.
  { intros t. unfold C, sortPositions. rewrite (sort_by_perm Compare), elem_of_remove_dups, list_elem_of_filter.
    rewrite eligible_candidate by done. tauto. }
  assert (∀ t, t ∈ C → children_count (rg_children r) t = len (kids (rg_nodes r) t)) as Hcount.
  { intros t (_ & _ & Hn)%HinC. apply children_count_stored; [|apply (tree_children _ _ _ _ (st_tree r Hr))].
    apply (tree_pairs (tree_links _ _ _ _ (st_tree r Hr))). by right. }
  destruct (branch_plan (parent := nd_parent) (rg_nodes r) C (children_count (rg_children r))) as (Hnd & Hin & Hord);
    [done|by intros t (_ & _ & ?)%HinC|done|].
  split_and!; try done. intros t. rewrite Hin, HinC. tauto.
Qed.

(** [r'] is [r] without the tombstoned nodes [gone], showing the same text. *)
Definition compacted (r : RGA) (gone : gset Position) (r' : RGA) : Prop :=
  rga_wf r' ∧ VisibleRunes (Some r') = VisibleRunes (Some r) ∧ RGA_String (Some r') = RGA_String (Some r) ∧
  rg_tombstones r' = rg_tombstones r ∖ gone ∧
  rg_nodes r' = filter (λ e : Position * node, e.1 ∉ gone) (rg_nodes r).

Lemma eligible_compacted (r : RGA) (tags : list Position) (Hwf : rga_wf r) :
  match CompactEligibleTombstones (Some r) tags with
  | (Some r', Ok n) =>
      ∃ gone : gset Position, n = Z.of_nat (size gone) ∧
        (∀ t, t ∈ gone ↔ t ∈ tags ∧ t ∈ rg_tombstones r ∧ is_Some (rg_nodes r !! t) ∧
           ∀ q, q ∈ kids (rg_nodes r) t → q ∈ gone) ∧ compacted r gone r'
  | (Some r', Err e) => r' = r ∧ e = ErrText TextCompaction ∧ (forallb Valid tags = false ∨ rg_pending r ≠ ∅)
  | (None, _) => False
  end.
Proof.
  unfold CompactEligibleTombstones. destruct (forallb Valid tags) eqn:Hv; cbn [negb]; [|by auto].
  case_bool_decide as Hp; [by auto|]. pose proof (wf_store r Hwf) as Hr.
  destruct (eligiblePlan_spec r tags Hr Hp) as (Hnd & Hord & Hin). set (plan := eligibleCompactionPlanLocked r tags) in *.
  set (gone := list_to_set plan : gset Position).
  assert (∀ t, t ∈ plan ↔ t ∈ gone) as Hset by (intros t; unfold gone; by rewrite elem_of_list_to_set).
  assert (len plan = Z.of_nat (size gone)) as Hlen by (unfold gone; by rewrite size_list_to_set).
  assert (∀ t, t ∈ gone ↔ t ∈ tags ∧ t ∈ rg_tombstones r ∧ is_Some (rg_nodes r !! t) ∧
    ∀ q, q ∈ kids (rg_nodes r) t → q ∈ gone) as Hgone by (intros t; setoid_rewrite <-Hset; apply Hin).
  destruct (Z.eqb_spec (len plan) 0) as [Hz|Hz].
  - assert (gone = ∅) as He by (apply leibniz_equiv, size_empty_iff; lia).
    exists gone. unfold compacted. rewrite <-Hlen, Hz. split_and!; try done; [set_solver|]. symmetry. apply map_filter_id. intros id n _. rewrite He. set_solver.
  - destruct (applyPlan_spec r plan Hr Hp Hnd Hord) as (r' & -> & Hr' & Hn & HT & Hp' & Hc & Ho & Hi & Hs).
    { intros t (_ & ? & ? & _)%Hin. done. }
    { intros t q (_ & _ & _ & Hk)%Hin Hq. auto. }
    assert (rga_wf r') as Hwf'.
    { apply (shrink_wf r r'); try done; [rewrite Hn; apply map_filter_subseteq|rewrite HT; set_solver]. }
    destruct (bump_same r' true) as (Hbn & HbT & Hbp & Hbs). pose proof (bump_wf r' true Hwf') as Hwfb.
    destruct (compacted_text r (bump_version r' true) Hwf Hwfb) as [Ht1 Ht2]; [|by rewrite Hbs|].
    { unfold known. rewrite Hbn, Hbp, Hp, Hp', !(right_id_L ∅ union), Hn. apply map_filter_subseteq. }
    exists gone. unfold compacted. rewrite Hbn, HbT, Hn. split_and!; try done. apply map_filter_ext. intros id n _. cbn [fst]. by rewrite Hset.
Qed.

(** C29: compacting eligible tombstones. The call removes the largest set of named
    tombstones whose whole subtrees are named tombstones, in one pass, and leaves the
    text and the invariant as they were. It fails, changing nothing, only when a tag
    is invalid or nodes are pending. *)
Theorem CompactEligibleTombstones_spec (r : RGA) (tags : list Position) (Hwf : rga_wf r) :
  match CompactEligibleTombstones (Some r) tags with
  | (Some r', Ok n) =>
      ∃ gone : gset Position, n = Z.of_nat (size gone) ∧
        (∀ t, t ∈ gone ↔ t ∈ tags ∧ t ∈ rg_tombstones r ∧ is_Some (rg_nodes r !! t) ∧
           ∀ q, q ∈ kids (rg_nodes r) t → q ∈ gone) ∧
        rga_wf r' ∧ VisibleRunes (Some r') = VisibleRunes (Some r) ∧ RGA_String (Some r') = RGA_String (Some r) ∧
        rg_tombstones r' = rg_tombstones r ∖ gone ∧
        rg_nodes r' = filter (λ e : Position * node, e.1 ∉ gone) (rg_nodes r)
  | (Some r', Err e) => r' = r ∧ e = ErrText TextCompaction ∧ (forallb Valid tags = false ∨ rg_pending r ≠ ∅)
  | (None, _) => False
  end.
Proof. apply (eligible_compacted r tags Hwf). Qed.

(** ** Examples *)

(** ["abc"] with its last two runes deleted. *)
Definition tail_state : ptr RGA := (RGA_ApplyDelta (Some fresh_text) typed_tail (Some 5)).1.

Lemma tail_wf : ∃ r, tail_state = Some r ∧ rga_wf r.
Proof.
  destruct (example_applied typed_tail) as (r & Happ & H); [do 3 right; left|]. exists r.
  split; [unfold tail_state; by rewrite Happ|apply H].
Qed.

Lemma RGA_CompactTombstones_spec_witness :
  ∃ r', RGA_CompactTombstones tail_state [mkTag (str "b") 3 0; mkTag (str "b") 1 0] = (Some r', Ok 1) ∧
    RGA_String (Some r') = str "a".
Proof.
  assert ((RGA_CompactTombstones tail_state [mkTag (str "b") 3 0; mkTag (str "b") 1 0]).2 = Ok 1) as Hok by (vm_compute; reflexivity).
  assert (RGA_String tail_state = str "a") as Hs by (vm_compute; reflexivity).
  destruct tail_wf as (r & Hr & Hwf). rewrite Hr in Hok, Hs |- *.
  pose proof (RGA_CompactTombstones_spec r [mkTag (str "b") 3 0; mkTag (str "b") 1 0] Hwf) as H. cbv zeta in H.
  destruct (RGA_CompactTombstones _ _) as [[r'|] [n|e]]; cbn [snd] in Hok; [|discriminate Hok|destruct H|discriminate Hok].
  injection Hok as ->. exists r'. split; [reflexivity|]. destruct H as (_ & _ & -> & _). exact Hs.
Defined.

Lemma CompactEligibleTombstones_spec_witness :
  ∃ r', CompactEligibleTombstones tail_state [mkTag (str "b") 2 0; mkTag (str "b") 3 0] = (Some r', Ok 2) ∧
    RGA_String (Some r') = str "a".
Proof.
  assert ((CompactEligibleTombstones tail_state [mkTag (str "b") 2 0; mkTag (str "b") 3 0]).2 = Ok 2) as Hok by (vm_compute; reflexivity).
  assert (RGA_String tail_state = str "a") as Hs by (vm_compute; reflexivity).
  destruct tail_wf as (r & Hr & Hwf). rewrite Hr in Hok, Hs |- *.
  pose proof (CompactEligibleTombstones_spec r [mkTag (str "b") 2 0; mkTag (str "b") 3 0] Hwf) as H.
  destruct (CompactEligibleTombstones _ _) as [[r'|] [n|e]]; cbn [snd] in Hok; [|discriminate Hok|destruct H|discriminate Hok].
  injection Hok as ->. exists r'. split; [reflexivity|]. destruct H as (gone & _ & _ & _ & _ & -> & _). exact Hs.
Defined.
