(* ===== verification/Counter.v ===== *)
(** * Counters

    Models src/counter/gcounter.go and src/counter/pncounter.go: the grow-only
    counter and the positive-negative counter, their deltas, their joins and
    their canonical frames.

    A [map[string]uint64] is a [gmap]; a loop over one is a fold over an
    enumeration of its entries, and the theorems hold for every enumeration. *)

From S2P Require Import Prelude Tags Lattice Wire Frame.

Abbreviation counts_map := (gmap bytes Z).

(** ** Component maps *)

(** [validateCounts] *)
Definition validateCounts (counts : counts_map) : result unit :=
  if forallb (λ '(replicaID, _), Valid (mkTag replicaID 0 0)) (map_to_list counts)
  then Ok tt else Err ErrCounterInvalidReplicaID.

(** The body of [joinCountsChanged], and of the loops of the G-Counter joins:
    a component is raised to a greater value. *)
Definition join_entry (acc : counts_map * bool) (entry : bytes * Z) : counts_map * bool :=
  let '(target, changed) := acc in
  let '(replicaID, value) := entry in
  if lookupZ target replicaID <? value then (<[replicaID := value]> target, true)
  else (target, changed).

Definition join_entries (target : counts_map) (entries : list (bytes * Z)) : counts_map * bool :=
  foldl join_entry (target, false) entries.

(** [joinCountsChanged] *)
Definition joinCountsChanged (target source : counts_map) : counts_map * bool :=
  join_entries target (map_to_list source).

(** [joinCounts] *)
Definition joinCounts (target source : counts_map) : counts_map :=
  (joinCountsChanged target source).1.

(** [sumCounts], on unbounded integers. *)
Definition sumCounts (counts : counts_map) : Z :=
  foldl (λ total '(_, value), total + value) 0 (map_to_list counts).

(** ** Encoding *)

(** [keys] collected from a map and sorted by [sort.Strings]. *)
Definition sorted_keys {V} (m : gmap bytes V) : list bytes :=
  sort_by bytes_compare (map_to_list m).*1.

(** The size loop over the keys: bounded strings and a bounded payload. *)
Fixpoint countsSize (keys : list bytes) (counts : counts_map) (limits : DecoderLimits) (size : Z)
    : result Z :=
  match keys with
  | [] => Ok size
  | key :: keys' =>
      if MaxStringBytes limits <? len key then Err ErrFrameLimit
      else
        let additional := UvarintSize (len key) + len key + UvarintSize (lookupZ counts key) in
        if MaxPayload limits - size <? additional then Err ErrFrameLimit
        else countsSize keys' counts limits (size + additional)
  end.

(** The append loop over the keys. *)
Fixpoint appendCounts (payload : bytes) (keys : list bytes) (counts : counts_map) : bytes :=
  match keys with
  | [] => payload
  | key :: keys' =>
      let payload := AppendUvarint payload (len key) in
      let payload := payload ++ key in
      let payload := AppendUvarint payload (lookupZ counts key) in
      appendCounts payload keys' counts
  end.

(** [marshalCountsWithLimits] *)
Definition marshalCountsWithLimits (typeID : Z) (counts : counts_map) (limits : DecoderLimits)
    : result bytes :=
  if MaxElements limits <? Z.of_nat (size counts) then Err ErrFrameLimit
  else
    let keys := sorted_keys counts in
    match countsSize keys counts limits (UvarintSize (len keys)) with
    | Err e => Err e
    | Ok _ =>
        let payload := AppendUvarint [] (len keys) in
        let payload := appendCounts payload keys counts in
        MarshalFrame (mkFrame typeID [] payload 0 false)
    end.

(** [marshalCounts] *)
Definition marshalCounts (typeID : Z) (counts : counts_map) : result bytes :=
  marshalCountsWithLimits typeID counts DefaultLimits.

(** The body of the decoding loops: the accumulator is [counts] and [previous]. *)
Definition countsStep (payload : bytes) (maxElements maxStringBytes : Z) (i : Z)
    (acc : counts_map * bytes) (position : Z) : result ((counts_map * bytes) * Z) :=
  let '(counts, previous) := acc in
  if maxElements <=? Z.of_nat (size counts) then Err ErrInvalidFrame
  else match ReadBytes payload position maxStringBytes with
  | None => Err ErrInvalidFrame
  | Some (key, next) =>
      match ReadUvarint payload next with
      | None => Err ErrInvalidFrame
      | Some (value, next) =>
          if negb (Valid (mkTag key 0 0)) || ((0 <? i) && string_le key previous)
          then Err ErrInvalidFrame
          else Ok ((<[key := value]> counts, key), next)
      end
  end.

(** [pnCountsSection] *)
Definition pnCountsSection (counts : counts_map) (limits : DecoderLimits)
    : result (list bytes * Z) :=
  let keys := sorted_keys counts in
  match countsSize keys counts limits (UvarintSize (len keys)) with
  | Err e => Err e
  | Ok size => Ok (keys, size)
  end.

(** [appendPNCountsSection] *)
Definition appendPNCountsSection (payload : bytes) (keys : list bytes) (counts : counts_map) : bytes :=
  appendCounts (AppendUvarint payload (len keys)) keys counts.

(** [validatePNCounts] *)
Definition validatePNCounts (positive negative : counts_map) : result unit :=
  _ ← validateCounts positive; validateCounts negative.

(** [marshalPNCountsWithLimits] *)
Definition marshalPNCountsWithLimits (typeID : Z) (positive negative : counts_map)
    (limits : DecoderLimits) : result bytes :=
  match validatePNCounts positive negative with
  | Err e => Err e
  | Ok _ =>
      if (MaxElements limits <? Z.of_nat (size positive)) ||
         (MaxElements limits - Z.of_nat (size positive) <? Z.of_nat (size negative))
      then Err ErrFrameLimit
      else match pnCountsSection positive limits with
      | Err e => Err e
      | Ok (positiveKeys, positiveSize) =>
          match pnCountsSection negative limits with
          | Err e => Err e
          | Ok (negativeKeys, negativeSize) =>
              if MaxPayload limits - positiveSize <? negativeSize then Err ErrFrameLimit
              else
                let payload := appendPNCountsSection [] positiveKeys positive in
                let payload := appendPNCountsSection payload negativeKeys negative in
                MarshalFrame (mkFrame typeID [] payload 0 false)
          end
      end
  end.

(** [marshalPNCounts] *)
Definition marshalPNCounts (typeID : Z) (positive negative : counts_map) : result bytes :=
  marshalPNCountsWithLimits typeID positive negative DefaultLimits.

(** [unmarshalPNCountsSection] *)
Definition unmarshalPNCountsSection (payload : bytes) (position maxElements : Z)
    (limits : DecoderLimits) : result (counts_map * Z) :=
  match ReadUvarint payload position with
  | None => Err ErrInvalidFrame
  | Some (count, next) =>
      if maxElements <? 0 then Err ErrInvalidFrame
      else match read_loop (countsStep payload maxElements (MaxStringBytes limits))
                   (S (length payload)) 0 count next (∅, []) with
           | Err e => Err e
           | Ok ((counts, _), position) => Ok (counts, position)
           end
  end.

Section unmarshal.
Context `{F : Flate}.

(** [unmarshalCounts] *)
Definition unmarshalCounts (data : bytes) (expectedTypeID : Z) (limits : DecoderLimits)
    : result counts_map :=
  match UnmarshalFrame data limits with
  | Err e => Err e
  | Ok decoded =>
      if negb (TypeID decoded =? expectedTypeID) || negb (bool_decide (CodecID decoded = []))
      then Err ErrInvalidFrame
      else match ReadUvarint (Payload decoded) 0 with
      | None => Err ErrInvalidFrame
      | Some (count, next) =>
          match read_loop (countsStep (Payload decoded) (MaxElements limits) (MaxStringBytes limits))
                  (S (length (Payload decoded))) 0 count next (∅, []) with
          | Err e => Err e
          | Ok ((counts, _), pos) =>
              if negb (pos =? len (Payload decoded)) then Err ErrInvalidFrame else Ok counts
          end
      end
  end.

(** [unmarshalPNCounts] *)
Definition unmarshalPNCounts (data : bytes) (expectedTypeID : Z) (limits : DecoderLimits)
    : result (counts_map * counts_map) :=
  match UnmarshalFrame data limits with
  | Err e => Err e
  | Ok decoded =>
      if negb (TypeID decoded =? expectedTypeID) || negb (bool_decide (CodecID decoded = []))
      then Err ErrInvalidFrame
      else match unmarshalPNCountsSection (Payload decoded) 0 (MaxElements limits) limits with
      | Err e => Err e
      | Ok (positive, position) =>
          match unmarshalPNCountsSection (Payload decoded) position
                  (MaxElements limits - Z.of_nat (size positive)) limits with
          | Err e => Err e
          | Ok (negative, position) =>
              if negb (position =? len (Payload decoded)) then Err ErrInvalidFrame
              else Ok (positive, negative)
          end
      end
  end.
End unmarshal.

(** ** The grow-only counter *)

(** [GCounter] *)
Record GCounter := mkGCounter { gc_replicaID : bytes; gc_counts : counts_map }.

(** [GCounterDelta] *)
Record GCounterDelta := mkGCounterDelta { gd_counts : counts_map }.

#[export] Instance GCounter_eq_dec : EqDecision GCounter.
Proof. solve_decision. Defined.
#[export] Instance GCounterDelta_eq_dec : EqDecision GCounterDelta.
Proof. solve_decision. Defined.

(** [NewGCounter] *)
Definition NewGCounter (replicaID : bytes) : result GCounter :=
  if negb (Valid (mkTag replicaID 0 0)) then Err ErrCounterInvalidReplicaID
  else Ok (mkGCounter replicaID ∅).

(** [GCounter.Increment] *)
Definition GCounter_Increment (c : ptr GCounter) (amount : Z) : ptr GCounter * result GCounterDelta :=
  match c with
  | None => (None, Err ErrNilCounter)
  | Some g =>
      let current := lookupZ (gc_counts g) (gc_replicaID g) in
      if maxUint64 - current <? amount then (c, Err ErrCounterOverflow)
      else
        let next := current + amount in
        (Some (mkGCounter (gc_replicaID g) (<[gc_replicaID g := next]> (gc_counts g))),
         Ok (mkGCounterDelta {[gc_replicaID g := next]}))
  end.

(** The loop of [GCounter.Value]. *)
Fixpoint value_loop (total : Z) (entries : list (bytes * Z)) : result Z :=
  match entries with
  | [] => Ok total
  | (_, value) :: entries' =>
      if maxUint64 - total <? value then Err ErrCounterOverflow
      else value_loop (total + value) entries'
  end.

(** [GCounter.Value] *)
Definition GCounter_Value (c : ptr GCounter) : result Z :=
  match c with
  | None => Err ErrNilCounter
  | Some g => value_loop 0 (map_to_list (gc_counts g))
  end.

(** [GCounter.Counts] *)
Definition GCounter_Counts (c : ptr GCounter) : option counts_map := gc_counts <$> c.

Definition GCounter_set (g : GCounter) (counts : counts_map) : GCounter :=
  mkGCounter (gc_replicaID g) counts.

(** [GCounter.Merge]; the argument is copied before the receiver is locked, so
    merging a counter with itself reads the state it then joins into. *)
Definition GCounter_Merge (c : ptr GCounter) (other : peer GCounter) : ptr GCounter * result unit :=
  match c, other with
  | None, _ | _, PNil => (c, Err ErrNilCounter)
  | Some g, PSelf => (Some (GCounter_set g (joinCounts (gc_counts g) (gc_counts g))), Ok tt)
  | Some g, PObj o => (Some (GCounter_set g (joinCounts (gc_counts g) (gc_counts o))), Ok tt)
  end.

(** [GCounter.ApplyDeltaChanged] *)
Definition GCounter_ApplyDeltaChanged (c : ptr GCounter) (delta : GCounterDelta)
    : ptr GCounter * result bool :=
  match c with
  | None => (None, Err ErrNilCounter)
  | Some g =>
      match validateCounts (gd_counts delta) with
      | Err e => (c, Err e)
      | Ok _ =>
          let '(counts, changed) := joinCountsChanged (gc_counts g) (gd_counts delta) in
          (Some (GCounter_set g counts), Ok changed)
      end
  end.

(** [GCounter.ApplyDelta] *)
Definition GCounter_ApplyDelta (c : ptr GCounter) (delta : GCounterDelta)
    : ptr GCounter * result unit :=
  let '(c, r) := GCounter_ApplyDeltaChanged c delta in (c, _ ← r; Ok tt).

(** [GCounterDelta.Merge] *)
Definition GCounterDelta_Merge (d other : GCounterDelta) : result GCounterDelta :=
  _ ← validateCounts (gd_counts d);
  _ ← validateCounts (gd_counts other);
  Ok (mkGCounterDelta (joinCounts (gd_counts d) (gd_counts other))).

(** [GCounter.State] *)
Definition GCounter_State (c : ptr GCounter) : StateSnapshot :=
  match c with
  | None => mkSnapshot (str "gcounter") [] 0 0
  | Some g => mkSnapshot (str "gcounter") (gc_replicaID g) (Z.of_nat (size (gc_counts g))) 0
  end.

(** [GCounter.MarshalBinary] *)
Definition GCounter_MarshalBinary (c : ptr GCounter) : result bytes :=
  match c with
  | None => Err ErrNilCounter
  | Some g => marshalCounts TypeIDGCounterState (gc_counts g)
  end.

(** [GCounterDelta.MarshalBinary] *)
Definition GCounterDelta_MarshalBinary (d : GCounterDelta) : result bytes :=
  _ ← validateCounts (gd_counts d); marshalCounts TypeIDGCounterDelta (gd_counts d).

Section gcounter_unmarshal.
Context `{F : Flate}.

(** [UnmarshalGCounterDeltaWithLimits] *)
Definition UnmarshalGCounterDeltaWithLimits (data : bytes) (limits : DecoderLimits)
    : result GCounterDelta :=
  counts ← unmarshalCounts data TypeIDGCounterDelta limits; Ok (mkGCounterDelta counts).

(** [UnmarshalGCounterDelta] *)
Definition UnmarshalGCounterDelta (data : bytes) : result GCounterDelta :=
  UnmarshalGCounterDeltaWithLimits data DefaultLimits.

(** [GCounter.UnmarshalBinaryWithLimits] *)
Definition GCounter_UnmarshalBinaryWithLimits (c : ptr GCounter) (data : bytes)
    (limits : DecoderLimits) : ptr GCounter * result unit :=
  match c with
  | None => (None, Err ErrNilCounter)
  | Some g =>
      match unmarshalCounts data TypeIDGCounterState limits with
      | Err e => (c, Err e)
      | Ok counts => (Some (GCounter_set g counts), Ok tt)
      end
  end.

(** [GCounter.UnmarshalBinary] *)
Definition GCounter_UnmarshalBinary (c : ptr GCounter) (data : bytes) : ptr GCounter * result unit :=
  GCounter_UnmarshalBinaryWithLimits c data DefaultLimits.
End gcounter_unmarshal.

(** ** The positive-negative counter *)

(** [PNCounter] *)
Record PNCounter := mkPNCounter {
  pn_replicaID : bytes;
  pn_positive : counts_map;
  pn_negative : counts_map
}.

(** [PNCounterDelta] *)
Record PNCounterDelta := mkPNCounterDelta { pd_positive : counts_map; pd_negative : counts_map }.

#[export] Instance PNCounter_eq_dec : EqDecision PNCounter.
Proof. solve_decision. Defined.
#[export] Instance PNCounterDelta_eq_dec : EqDecision PNCounterDelta.
Proof. solve_decision. Defined.

(** [NewPNCounter] *)
Definition NewPNCounter (replicaID : bytes) : result PNCounter :=
  if negb (Valid (mkTag replicaID 0 0)) then Err ErrCounterInvalidReplicaID
  else Ok (mkPNCounter replicaID ∅ ∅).

(** [PNCounter.add] *)
Definition PNCounter_add (c : ptr PNCounter) (amount : Z) (positive : bool)
    : ptr PNCounter * result PNCounterDelta :=
  match c with
  | None => (None, Err ErrNilPNCounter)
  | Some p =>
      let counts := if positive then pn_positive p else pn_negative p in
      let current := lookupZ counts (pn_replicaID p) in
      if maxUint64 - current <? amount then (c, Err ErrCounterOverflow)
      else
        let next := current + amount in
        let counts := <[pn_replicaID p := next]> counts in
        if positive then
          (Some (mkPNCounter (pn_replicaID p) counts (pn_negative p)),
           Ok (mkPNCounterDelta {[pn_replicaID p := next]} ∅))
        else
          (Some (mkPNCounter (pn_replicaID p) (pn_positive p) counts),
           Ok (mkPNCounterDelta ∅ {[pn_replicaID p := next]}))
  end.

(** [PNCounter.Increment] *)
Definition PNCounter_Increment (c : ptr PNCounter) (amount : Z) := PNCounter_add c amount true.

(** [PNCounter.Decrement] *)
Definition PNCounter_Decrement (c : ptr PNCounter) (amount : Z) := PNCounter_add c amount false.

(** [PNCounter.Value] *)
Definition PNCounter_Value (c : ptr PNCounter) : result Z :=
  match c with
  | None => Err ErrNilPNCounter
  | Some p => Ok (sumCounts (pn_positive p) - sumCounts (pn_negative p))
  end.

(** [PNCounter.ValueInt64] *)
Definition PNCounter_ValueInt64 (c : ptr PNCounter) : result Z :=
  match PNCounter_Value c with
  | Err e => Err e
  | Ok value =>
      if negb ((- 2 ^ 63 <=? value) && (value <? 2 ^ 63)) then Err ErrCounterOverflow else Ok value
  end.

(** [PNCounter.PositiveCounts] and [PNCounter.NegativeCounts] *)
Definition PNCounter_PositiveCounts (c : ptr PNCounter) : option counts_map := pn_positive <$> c.
Definition PNCounter_NegativeCounts (c : ptr PNCounter) : option counts_map := pn_negative <$> c.

Definition PNCounter_join (p : PNCounter) (positive negative : counts_map) : PNCounter :=
  mkPNCounter (pn_replicaID p) (joinCounts (pn_positive p) positive)
    (joinCounts (pn_negative p) negative).

(** [PNCounter.Merge] *)
Definition PNCounter_Merge (c : ptr PNCounter) (other : peer PNCounter) : ptr PNCounter * result unit :=
  match c, other with
  | None, _ | _, PNil => (c, Err ErrNilPNCounter)
  | Some p, PSelf => (Some (PNCounter_join p (pn_positive p) (pn_negative p)), Ok tt)
  | Some p, PObj o => (Some (PNCounter_join p (pn_positive o) (pn_negative o)), Ok tt)
  end.

(** [PNCounter.ApplyDeltaChanged] *)
Definition PNCounter_ApplyDeltaChanged (c : ptr PNCounter) (delta : PNCounterDelta)
    : ptr PNCounter * result bool :=
  match c with
  | None => (None, Err ErrNilPNCounter)
  | Some p =>
      match validatePNCounts (pd_positive delta) (pd_negative delta) with
      | Err e => (c, Err e)
      | Ok _ =>
          let '(positive, changed) := joinCountsChanged (pn_positive p) (pd_positive delta) in
          let '(negative, changed') := joinCountsChanged (pn_negative p) (pd_negative delta) in
          (Some (mkPNCounter (pn_replicaID p) positive negative), Ok (changed' || changed))
      end
  end.

(** [PNCounter.ApplyDelta] *)
Definition PNCounter_ApplyDelta (c : ptr PNCounter) (delta : PNCounterDelta)
    : ptr PNCounter * result unit :=
  let '(c, r) := PNCounter_ApplyDeltaChanged c delta in (c, _ ← r; Ok tt).

(** [PNCounterDelta.Merge] *)
Definition PNCounterDelta_Merge (d other : PNCounterDelta) : result PNCounterDelta :=
  _ ← validatePNCounts (pd_positive d) (pd_negative d);
  _ ← validatePNCounts (pd_positive other) (pd_negative other);
  Ok (mkPNCounterDelta (joinCounts (pd_positive d) (pd_positive other))
        (joinCounts (pd_negative d) (pd_negative other))).

(** [PNCounter.State] *)
Definition PNCounter_State (c : ptr PNCounter) : StateSnapshot :=
  match c with
  | None => mkSnapshot (str "pncounter") [] 0 0
  | Some p => mkSnapshot (str "pncounter") (pn_replicaID p)
                (Z.of_nat (size (pn_positive p)) + Z.of_nat (size (pn_negative p))) 0
  end.

(** [PNCounter.MarshalBinary] *)
Definition PNCounter_MarshalBinary (c : ptr PNCounter) : result bytes :=
  match c with
  | None => Err ErrNilPNCounter
  | Some p => marshalPNCounts TypeIDPNCounterState (pn_positive p) (pn_negative p)
  end.

(** [PNCounterDelta.MarshalBinary] *)
Definition PNCounterDelta_MarshalBinary (d : PNCounterDelta) : result bytes :=
  _ ← validatePNCounts (pd_positive d) (pd_negative d);
  marshalPNCounts TypeIDPNCounterDelta (pd_positive d) (pd_negative d).

Section pncounter_unmarshal.
Context `{F : Flate}.

(** [UnmarshalPNCounterDeltaWithLimits] *)
Definition UnmarshalPNCounterDeltaWithLimits (data : bytes) (limits : DecoderLimits)
    : result PNCounterDelta :=
  '(positive, negative) ← unmarshalPNCounts data TypeIDPNCounterDelta limits;
  Ok (mkPNCounterDelta positive negative).

(** [UnmarshalPNCounterDelta] *)
Definition UnmarshalPNCounterDelta (data : bytes) : result PNCounterDelta :=
  UnmarshalPNCounterDeltaWithLimits data DefaultLimits.

(** [PNCounter.UnmarshalBinaryWithLimits] *)
Definition PNCounter_UnmarshalBinaryWithLimits (c : ptr PNCounter) (data : bytes)
    (limits : DecoderLimits) : ptr PNCounter * result unit :=
  match c with
  | None => (None, Err ErrNilPNCounter)
  | Some p =>
      match unmarshalPNCounts data TypeIDPNCounterState limits with
      | Err e => (c, Err e)
      | Ok (positive, negative) =>
          (Some (mkPNCounter (pn_replicaID p) positive negative), Ok tt)
      end
  end.

(** [PNCounter.UnmarshalBinary] *)
Definition PNCounter_UnmarshalBinary (c : ptr PNCounter) (data : bytes)
    : ptr PNCounter * result unit :=
  PNCounter_UnmarshalBinaryWithLimits c data DefaultLimits.
End pncounter_unmarshal.

(** ** Joins *)

(** Components are 64-bit unsigned values. *)
Definition counts_ok (counts : counts_map) : Prop := map_Forall (λ _ v, is_u64 v) counts.

(** Two component maps agree on every read. *)
Definition counts_equiv (m1 m2 : counts_map) : Prop := ∀ k, lookupZ m1 k = lookupZ m2 k.

#[export] Instance counts_equiv_equivalence : Equivalence counts_equiv.
Proof.
  split; [by intros m k|intros m1 m2 H k; by rewrite H|].
  intros m1 m2 m3 H1 H2 k. by rewrite H1.
Qed.

Lemma lookupZ_ok counts k : counts_ok counts → is_u64 (lookupZ counts k).
Proof.
  intros H. unfold lookupZ. destruct (counts !! k) as [v|] eqn:E; simpl; [|done]. by apply (H k).
Qed.

Lemma join_entries_cons t k v l :
  join_entries t ((k, v) :: l) =
  if lookupZ t k <? v then ((join_entries (<[k := v]> t) l).1, true) else join_entries t l.
Proof.
  unfold join_entries. simpl. case_match; [|done].
  assert (∀ t b, foldl join_entry (t, b) l =
    ((foldl join_entry (t, false) l).1, b || (foldl join_entry (t, false) l).2)) as Hb.
  { clear. induction l as [|[k v] l IH]; intros t b; simpl; [by rewrite orb_false_r|].
    case_match; [|by rewrite IH].
    rewrite (IH _ true). simpl. by rewrite orb_true_r. }
  by rewrite (Hb _ true).
Qed.

(** The result of a join loop does not depend on the order of the entries. *)
Lemma join_entries_lookup t l k :
  NoDup l.*1 →
  (join_entries t l).1 !! k =
  match (list_to_map l : counts_map) !! k with
  | Some v => if lookupZ t k <? v then Some v else t !! k
  | None => t !! k
  end.
Proof.
  revert t. induction l as [|[k0 v0] l IH]; intros t Hnd; simpl in *; [by rewrite lookup_empty|].
  apply NoDup_cons in Hnd as [Hk0 Hnd]. rewrite join_entries_cons.
  assert ((list_to_map l : counts_map) !! k0 = None) as Hnone by (by apply not_elem_of_list_to_map_1).
  rewrite lookup_insert. destruct (decide (k0 = k)) as [->|Hne].
  - destruct (lookupZ t k <? v0); simpl; rewrite IH, Hnone by done; [|done].
    by rewrite lookup_insert_eq.
  - destruct (lookupZ t k0 <? v0); simpl; rewrite IH by done; [|done].
    rewrite lookupZ_insert, lookup_insert_ne by done. by rewrite decide_False by done.
Qed.

Lemma joinCounts_lookup t s k :
  joinCounts t s !! k =
  match s !! k with
  | Some v => if lookupZ t k <? v then Some v else t !! k
  | None => t !! k
  end.
Proof.
  unfold joinCounts, joinCountsChanged.
  rewrite join_entries_lookup by apply NoDup_fst_map_to_list. by rewrite list_to_map_to_list.
Qed.

Lemma joinCounts_lookupZ t s k :
  counts_ok t → counts_ok s → lookupZ (joinCounts t s) k = lookupZ t k `max` lookupZ s k.
Proof.
  intros Ht Hs. pose proof (lookupZ_ok t k Ht) as Htk. pose proof (lookupZ_ok s k Hs) as Hsk.
  unfold lookupZ at 1. rewrite joinCounts_lookup. unfold is_u64, lookupZ in *.
  destruct (s !! k) as [v|]; simpl in *; [|lia].
  destruct (Z.ltb_spec (default 0 (t !! k)) v); simpl; lia.
Qed.

Lemma joinCounts_ok t s : counts_ok t → counts_ok s → counts_ok (joinCounts t s).
Proof.
  intros Ht Hs k v. rewrite joinCounts_lookup. destruct (s !! k) as [w|] eqn:E; [|by apply Ht].
  case_match; [|by apply Ht]. intros [= <-]. by apply (Hs k).
Qed.

(** The join reports a change exactly when it makes one. *)
Lemma join_entries_changed t l :
  NoDup l.*1 → (join_entries t l).2 = false ↔ (join_entries t l).1 = t.
Proof.
  revert t. induction l as [|[k v] l IH]; intros t Hnd; [done|].
  simpl in Hnd. apply NoDup_cons in Hnd as [Hk Hnd]. rewrite join_entries_cons.
  destruct (Z.ltb_spec (lookupZ t k) v); [|by apply IH]. simpl. split; [done|]. intros Heq.
  assert (lookupZ (join_entries (<[k:=v]> t) l).1 k = v) as Hv.
  { unfold lookupZ. rewrite join_entries_lookup by done.
    rewrite not_elem_of_list_to_map_1 by done. by rewrite lookup_insert_eq. }
  rewrite Heq in Hv. lia.
Qed.

#[export] Instance counts_lattice : Lattice counts_ok counts_equiv joinCounts.
Proof.
  split.
  - apply _.
  - intros. by apply joinCounts_ok.
  - intros x x' y y' ???? Hx Hy k. rewrite !joinCounts_lookupZ by done. by rewrite Hx, Hy.
  - intros x y ?? k. rewrite !joinCounts_lookupZ by done. apply Z.max_comm.
  - intros x y z ??? k. rewrite !joinCounts_lookupZ by auto using joinCounts_ok. lia.
  - intros x ? k. rewrite joinCounts_lookupZ by done. lia.
Qed.

(** ** Sums *)

Definition sum_entries (l : list (bytes * Z)) : Z := foldr (λ e t, e.2 + t) 0 l.

Lemma sum_entries_perm l1 l2 : l1 ≡ₚ l2 → sum_entries l1 = sum_entries l2.
Proof. induction 1; simpl; lia. Qed.

Lemma sumCounts_entries counts : sumCounts counts = sum_entries (map_to_list counts).
Proof.
  unfold sumCounts. assert (∀ l t, foldl (λ total '(_, value), total + value) t l =
    t + sum_entries l) as H; [|by rewrite H].
  induction l as [|[k v] l IH]; intros t; simpl; [lia|]. rewrite IH. lia.
Qed.

Lemma sumCounts_empty : sumCounts ∅ = 0.
Proof. by rewrite sumCounts_entries, map_to_list_empty. Qed.

Lemma sumCounts_fresh counts k v :
  counts !! k = None → sumCounts (<[k := v]> counts) = v + sumCounts counts.
Proof.
  intros H. rewrite !sumCounts_entries. by rewrite (sum_entries_perm _ _ (map_to_list_insert _ _ _ H)).
Qed.

Lemma sumCounts_delete counts k : sumCounts counts = lookupZ counts k + sumCounts (delete k counts).
Proof.
  unfold lookupZ. destruct (counts !! k) as [v|] eqn:E; simpl.
  - rewrite <-(insert_delete_id counts k v) at 1 by done.
    by rewrite sumCounts_fresh by apply lookup_delete_eq.
  - by rewrite delete_id.
Qed.

Lemma sumCounts_insert counts k v :
  sumCounts (<[k := v]> counts) = sumCounts counts - lookupZ counts k + v.
Proof.
  rewrite (sumCounts_delete counts k), (sumCounts_delete (<[k := v]> counts) k).
  rewrite lookupZ_insert, decide_True by done. rewrite delete_insert_eq. lia.
Qed.

Lemma sumCounts_equiv m1 m2 : counts_equiv m1 m2 → sumCounts m1 = sumCounts m2.
Proof.
  revert m2. induction m1 as [|k v m1 Hk IH] using map_ind; intros m2 Heq.
  - rewrite sumCounts_empty. symmetry. revert Heq.
    induction m2 as [|k v m2 Hk IH] using map_ind; intros Heq; [by rewrite sumCounts_empty|].
    assert (v = 0) as -> by (specialize (Heq k); rewrite lookupZ_insert, decide_True in Heq; done).
    rewrite sumCounts_fresh by done. rewrite IH; [done|]. intros k'. specialize (Heq k').
    rewrite lookupZ_insert in Heq. case_decide as Hkk; [|done]. subst k'.
    unfold lookupZ. by rewrite Hk, lookup_empty.
  - rewrite sumCounts_fresh by done. rewrite (sumCounts_delete m2 k).
    pose proof (Heq k) as Hv. rewrite lookupZ_insert, decide_True in Hv by done. rewrite <-Hv.
    f_equal. apply IH. intros k'. specialize (Heq k'). rewrite lookupZ_insert in Heq.
    unfold lookupZ in *. case_decide as Hkk; [subst k'; by rewrite Hk, lookup_delete_eq|].
    by rewrite lookup_delete_ne.
Qed.

Lemma sum_entries_nonneg l : Forall (λ e, is_u64 e.2) l → 0 <= sum_entries l.
Proof. unfold is_u64. induction 1; simpl; lia. Qed.

Lemma value_loop_sum total l :
  0 <= total <= maxUint64 → Forall (λ e, is_u64 e.2) l →
  value_loop total l =
  if total + sum_entries l <=? maxUint64 then Ok (total + sum_entries l)
  else Err ErrCounterOverflow.
Proof.
  intros Ht Hl. revert total Ht. induction Hl as [|[k v] l Hv Hl IH]; intros total Ht; simpl.
  - rewrite Z.add_0_r. guard_true. done.
  - pose proof (sum_entries_nonneg l Hl). simpl in Hv. unfold is_u64 in Hv.
    destruct (Z.ltb_spec (maxUint64 - total) v); [by guard_false|].
    rewrite IH by lia. by rewrite Z.add_assoc.
Qed.

Lemma counts_ok_entries counts : counts_ok counts → Forall (λ e, is_u64 e.2) (map_to_list counts).
Proof.
  intros H. apply Forall_forall. intros [k v] Hin%elem_of_map_to_list. by apply (H k).
Qed.

Lemma GCounter_Value_sum g :
  counts_ok (gc_counts g) →
  GCounter_Value (Some g) =
  if sumCounts (gc_counts g) <=? maxUint64 then Ok (sumCounts (gc_counts g))
  else Err ErrCounterOverflow.
Proof.
  intros Hok. simpl. rewrite value_loop_sum by (done || by apply counts_ok_entries).
  by rewrite sumCounts_entries.
Qed.

(** Reading a G-Counter. Whatever order the components are visited in,
    [Value] is their exact sum when it fits in 64 bits and the overflow error
    otherwise, never a wrapped sum. *)
Theorem GCounter_Value_exact (g : GCounter) (order : list (bytes * Z))
    (Hok : counts_ok (gc_counts g)) (Horder : order ≡ₚ map_to_list (gc_counts g)) :
  value_loop 0 order = GCounter_Value (Some g) ∧
  GCounter_Value (Some g) =
    if sumCounts (gc_counts g) <=? maxUint64 then Ok (sumCounts (gc_counts g))
    else Err ErrCounterOverflow.
Proof.
  split; [|by apply GCounter_Value_sum]. rewrite GCounter_Value_sum by done.
  rewrite value_loop_sum; [|done|rewrite Horder; by apply counts_ok_entries].
  rewrite (sum_entries_perm _ _ Horder). by rewrite sumCounts_entries.
Qed.

Lemma GCounter_Value_exact_witness :
  value_loop 0 [(str "b", 2); (str "a", 3)] = Ok 5 ∧
  value_loop 0 [(str "b", maxUint64); (str "a", 1)] = Err ErrCounterOverflow.
Proof.
  split.
  - rewrite (proj1 (GCounter_Value_exact
      (mkGCounter (str "a") {[str "a" := 3; str "b" := 2]}) [(str "b", 2); (str "a", 3)]
      ltac:(by apply map_Forall_to_list; repeat constructor) ltac:(vm_compute; solve_Permutation))).
    vm_compute. reflexivity.
  - rewrite (proj1 (GCounter_Value_exact
      (mkGCounter (str "a") {[str "a" := 1; str "b" := maxUint64]})
      [(str "b", maxUint64); (str "a", 1)]
      ltac:(by apply map_Forall_to_list; repeat constructor) ltac:(vm_compute; solve_Permutation))).
    vm_compute. reflexivity.
Defined.

(** Raising a component. *)
Lemma counts_raise counts id amount :
  counts_ok counts → is_u64 amount → lookupZ counts id + amount <= maxUint64 →
  let next := lookupZ counts id + amount in
  counts_ok (<[id := next]> counts) ∧
  sumCounts (<[id := next]> counts) = sumCounts counts + amount ∧
  counts_equiv (<[id := next]> counts) (joinCounts counts {[id := next]}).
Proof.
  intros Hok Hamount Hle next. pose proof (lookupZ_ok _ id Hok) as Hcur.
  assert (is_u64 next) as Hnext by (unfold is_u64, maxUint64, next in *; lia).
  split; [by apply map_Forall_insert_2|]. split; [rewrite sumCounts_insert; lia|].
  assert (counts_ok {[id := next]}) by (by apply map_Forall_singleton).
  intros k. rewrite joinCounts_lookupZ, lookupZ_insert, lookupZ_singleton by done.
  pose proof (lookupZ_ok _ k Hok) as Hk. unfold is_u64 in *. case_decide; [subst k|]; lia.
Qed.

(** Incrementing a G-Counter. When the local component has room, the sum
    grows by exactly the amount, no other component moves, and the returned
    delta carries the change: joining it into the previous state gives the new
    state. Otherwise the call reports the overflow and leaves the counter as it
    was. *)
Theorem GCounter_Increment_spec (g : GCounter) (amount : Z)
    (Hok : counts_ok (gc_counts g)) (Hamount : is_u64 amount) :
  if lookupZ (gc_counts g) (gc_replicaID g) + amount <=? maxUint64 then
    ∃ g' d, GCounter_Increment (Some g) amount = (Some g', Ok d) ∧
      gc_replicaID g' = gc_replicaID g ∧ counts_ok (gc_counts g') ∧
      sumCounts (gc_counts g') = sumCounts (gc_counts g) + amount ∧
      (∀ k, k ≠ gc_replicaID g → gc_counts g' !! k = gc_counts g !! k) ∧
      counts_equiv (gc_counts g') (joinCounts (gc_counts g) (gd_counts d))
  else GCounter_Increment (Some g) amount = (Some g, Err ErrCounterOverflow).
Proof.
  pose proof (lookupZ_ok _ (gc_replicaID g) Hok) as Hcur. unfold is_u64 in Hcur.
  pose proof (counts_raise (gc_counts g) (gc_replicaID g) amount Hok Hamount) as Hraise.
  unfold GCounter_Increment. destruct (Z.leb_spec (lookupZ (gc_counts g) (gc_replicaID g) + amount)
    maxUint64); [|by guard_true].
  guard_false. destruct Hraise as (Hok' & Hsum & Heq); [done|].
  eexists _, _. do 4 (split; [done|]). split; [|done]. intros k Hk. by apply lookup_insert_ne.
Qed.

Lemma GCounter_Increment_spec_witness :
  GCounter_Increment (Some (mkGCounter (str "a") {[str "a" := maxUint64]})) 1 =
  (Some (mkGCounter (str "a") {[str "a" := maxUint64]}), Err ErrCounterOverflow).
Proof.
  exact (GCounter_Increment_spec (mkGCounter (str "a") {[str "a" := maxUint64]}) 1
    ltac:(by apply map_Forall_singleton) ltac:(done)).
Defined.

(** ** Replication *)

(** What a G-Counter replica receives: another replica's state or a delta. *)
Inductive gcounter_msg := GCounterStateMsg (o : GCounter) | GCounterDeltaMsg (d : GCounterDelta).

Definition gcounter_receive (c : ptr GCounter) (m : gcounter_msg) : ptr GCounter * result unit :=
  match m with
  | GCounterStateMsg o => GCounter_Merge c (PObj o)
  | GCounterDeltaMsg d => GCounter_ApplyDelta c d
  end.

(** A replica that receives messages one after the other; the result is the
    first error. *)
Definition gcounter_run (c : ptr GCounter) (ms : list gcounter_msg) : ptr GCounter * result unit :=
  foldl (λ '(c, r) m, let '(c, r') := gcounter_receive c m in (c, _ ← r; r')) (c, Ok tt) ms.

Definition gcounter_msg_counts (m : gcounter_msg) : counts_map :=
  match m with GCounterStateMsg o => gc_counts o | GCounterDeltaMsg d => gd_counts d end.

(** Well-formed messages: 64-bit components, and valid replica IDs in deltas. *)
Definition gcounter_msg_ok (m : gcounter_msg) : Prop :=
  counts_ok (gcounter_msg_counts m) ∧
  match m with
  | GCounterStateMsg _ => True
  | GCounterDeltaMsg d => validateCounts (gd_counts d) = Ok tt
  end.

Lemma gcounter_receive_join g m :
  gcounter_msg_ok m →
  gcounter_receive (Some g) m =
  (Some (GCounter_set g (joinCounts (gc_counts g) (gcounter_msg_counts m))), Ok tt).
Proof.
  destruct m as [o|d]; [done|]. intros [_ Hv]. simpl.
  unfold GCounter_ApplyDelta, GCounter_ApplyDeltaChanged, joinCounts. rewrite Hv.
  by destruct (joinCountsChanged _ _).
Qed.

Lemma gcounter_run_deliver g ms :
  Forall gcounter_msg_ok ms →
  gcounter_run (Some g) ms =
  (Some (GCounter_set g (deliver joinCounts (gc_counts g) (gcounter_msg_counts <$> ms))), Ok tt).
Proof.
  intros Hms. unfold gcounter_run. revert g.
  induction Hms as [|m ms Hm Hms IH]; intros g; [by destruct g|].
  cbn [foldl]. rewrite gcounter_receive_join by done. cbn. apply IH.
Qed.

(** Joining into the empty state is reading. *)
Lemma joinCounts_empty_l m : counts_ok m → counts_equiv (joinCounts ∅ m) m.
Proof.
  intros Hm k. rewrite joinCounts_lookupZ by done. pose proof (lookupZ_ok m k Hm) as Hk.
  unfold lookupZ at 1. rewrite lookup_empty. unfold is_u64 in Hk. simpl. lia.
Qed.

Lemma counts_convergence m1 m2 ds1 ds2 :
  counts_ok m1 → counts_ok m2 → Forall counts_ok ds1 → Forall counts_ok ds2 →
  (∀ m, m ∈ m1 :: ds1 ↔ m ∈ m2 :: ds2) →
  counts_equiv (deliver joinCounts m1 ds1) (deliver joinCounts m2 ds2).
Proof.
  intros Hm1 Hm2 H1 H2 Hset.
  assert (counts_ok ∅) as H0 by apply map_Forall_empty.
  assert (∀ m ds, counts_ok m → Forall counts_ok ds →
    counts_equiv (deliver joinCounts m ds) (deliver joinCounts ∅ (m :: ds))) as Hd.
  { intros m ds Hm Hds. simpl.
    apply (deliver_proper counts_ok counts_equiv joinCounts); [done|by apply joinCounts_ok|done|].
    symmetry. by apply joinCounts_empty_l. }
  rewrite (Hd m1 ds1), (Hd m2 ds2) by done.
  apply (deliver_convergence counts_ok counts_equiv joinCounts);
    [apply _|done|by constructor|by constructor|done].
Qed.

(** G-Counters converge. Two replicas whose own states and received messages
    (state merges or deltas, in any order and with any repetition) hold the same
    components agree on every component and on [Value], and no delivery fails. *)
Theorem GCounter_convergence (ga gb : GCounter) (ma mb : list gcounter_msg)
    (Ha : counts_ok (gc_counts ga)) (Hb : counts_ok (gc_counts gb))
    (Hma : Forall gcounter_msg_ok ma) (Hmb : Forall gcounter_msg_ok mb)
    (Hsame : ∀ m, m ∈ gc_counts ga :: (gcounter_msg_counts <$> ma) ↔
                  m ∈ gc_counts gb :: (gcounter_msg_counts <$> mb)) :
  ∃ ga' gb', gcounter_run (Some ga) ma = (Some ga', Ok tt) ∧
    gcounter_run (Some gb) mb = (Some gb', Ok tt) ∧
    counts_equiv (gc_counts ga') (gc_counts gb') ∧
    GCounter_Value (Some ga') = GCounter_Value (Some gb').
Proof.
  assert (∀ ms, Forall gcounter_msg_ok ms → Forall counts_ok (gcounter_msg_counts <$> ms)) as Hc.
  { intros ms Hms. apply Forall_fmap. eapply Forall_impl; [exact Hms|]. by intros m [Hm _]. }
  rewrite !gcounter_run_deliver by done. eexists _, _. split; [done|]. split; [done|]. simpl.
  assert (counts_equiv (deliver joinCounts (gc_counts ga) (gcounter_msg_counts <$> ma))
    (deliver joinCounts (gc_counts gb) (gcounter_msg_counts <$> mb))) as Heq
    by (apply counts_convergence; auto).
  split; [done|].
  assert (∀ g ms, counts_ok (gc_counts g) → Forall gcounter_msg_ok ms → counts_ok (gc_counts
    (GCounter_set g (deliver joinCounts (gc_counts g) (gcounter_msg_counts <$> ms))))) as Hok.
  { intros g ms Hg Hms. simpl. apply (deliver_wf counts_ok counts_equiv joinCounts); auto. }
  pose proof (GCounter_Value_sum _ (Hok ga ma Ha Hma)) as Hva.
  pose proof (GCounter_Value_sum _ (Hok gb mb Hb Hmb)) as Hvb.
  simpl in Hva, Hvb. rewrite Hva, Hvb. by rewrite (sumCounts_equiv _ _ Heq).
Qed.

Lemma GCounter_convergence_witness :
  let d1 := GCounterDeltaMsg (mkGCounterDelta {[str "a" := 1]}) in
  let d2 := GCounterDeltaMsg (mkGCounterDelta {[str "b" := 2]}) in
  let ga := mkGCounter (str "a") ∅ in
  let gb := mkGCounter (str "b") ∅ in
  ∃ ga' gb', gcounter_run (Some ga) [d1; d2] = (Some ga', Ok tt) ∧
    gcounter_run (Some gb) [d2; d1; d2; d2] = (Some gb', Ok tt) ∧
    counts_equiv (gc_counts ga') (gc_counts gb') ∧
    GCounter_Value (Some ga') = GCounter_Value (Some gb').
Proof.
  intros d1 d2 ga gb. apply (GCounter_convergence ga gb [d1; d2] [d2; d1; d2; d2]).
  - done.
  - done.
  - repeat (apply Forall_cons; split); [by split; [apply map_Forall_singleton|]..|done].
  - repeat (apply Forall_cons; split); [by split; [apply map_Forall_singleton|]..|done].
  - intros m. unfold d1, d2, ga, gb. simpl. set_solver.
Defined.

(** ** Canonical bytes *)

(** One component: its length-prefixed replica ID and its value. *)
Definition entry_enc (e : bytes * Z) : bytes := bytes_enc e.1 ++ putUvarint e.2.

(** The components in the order of their replica IDs. *)
Definition counts_entries (counts : counts_map) : list (bytes * Z) :=
  (λ k, (k, lookupZ counts k)) <$> sorted_keys counts.

(** The canonical bytes of a component map. *)
Definition counts_enc (counts : counts_map) : bytes :=
  putUvarint (Z.of_nat (size counts)) ++ concat (entry_enc <$> counts_entries counts).

(** What a decoder demands of a component. *)
Definition entry_ok (maxStringBytes : Z) (e : bytes * Z) : Prop :=
  len_ok e.1 ∧ len e.1 <= maxStringBytes ∧ is_u64 e.2 ∧ Valid (mkTag e.1 0 0) = true.

(** A component map a decoder accepts. *)
Definition counts_valid (maxElements maxStringBytes : Z) (counts : counts_map) : Prop :=
  Z.of_nat (size counts) <= maxElements ∧
  map_Forall (λ k v, entry_ok maxStringBytes (k, v)) counts.

Lemma length_sorted_keys {V} (m : gmap bytes V) : length (sorted_keys m) = size m.
Proof.
  unfold sorted_keys. rewrite (Permutation_length (sort_by_perm bytes_compare _)).
  by rewrite length_fmap, length_map_to_list.
Qed.

Lemma sorted_keys_increasing {V} (m : gmap bytes V) : increasing bytes_compare (sorted_keys m).
Proof. apply sort_by_increasing; [apply _|]. apply NoDup_fst_map_to_list. Qed.

Lemma elem_of_sorted_keys {V} (m : gmap bytes V) k : k ∈ sorted_keys m ↔ is_Some (m !! k).
Proof.
  unfold sorted_keys. rewrite sort_by_perm, list_elem_of_fmap. split.
  - intros ([k' v] & -> & Hin%elem_of_map_to_list). simpl. eauto.
  - intros [v Hv]. exists (k, v). by rewrite elem_of_map_to_list.
Qed.

Lemma sorted_keys_list_to_map {V} (l : list (bytes * V)) :
  increasing bytes_compare l.*1 → sorted_keys (list_to_map l : gmap bytes V) = l.*1.
Proof.
  intros Hl. unfold sorted_keys. apply (increasing_sort_by bytes_compare); [done|].
  symmetry. apply fmap_Permutation, map_to_list_to_map.
  by apply (increasing_NoDup bytes_compare).
Qed.

Lemma counts_entries_list_to_map l :
  increasing bytes_compare l.*1 → counts_entries (list_to_map l) = l.
Proof.
  intros Hl. unfold counts_entries. rewrite sorted_keys_list_to_map by done.
  assert (NoDup l.*1) as Hnd by (by apply (increasing_NoDup bytes_compare)).
  rewrite <-list_fmap_compose. rewrite <-(list_fmap_id l) at 2. apply list_fmap_ext.
  intros i [k v] Hi. simpl. unfold lookupZ.
  rewrite (elem_of_list_to_map_1 l k v) by (done || by eapply list_elem_of_lookup_2). done.
Qed.

Lemma counts_entries_keys counts : (counts_entries counts).*1 = sorted_keys counts.
Proof. unfold counts_entries. rewrite <-list_fmap_compose. apply list_fmap_id. Qed.

Lemma list_to_map_counts_entries counts : list_to_map (counts_entries counts) = counts.
Proof.
  apply map_eq. intros k. destruct (counts !! k) as [v|] eqn:E.
  - apply elem_of_list_to_map_1.
    + rewrite counts_entries_keys. apply (increasing_NoDup bytes_compare), sorted_keys_increasing.
    + apply list_elem_of_fmap. exists k. unfold lookupZ. rewrite E. split; [done|].
      apply elem_of_sorted_keys. eauto.
  - apply not_elem_of_list_to_map_1. rewrite counts_entries_keys, elem_of_sorted_keys, E. by intros [].
Qed.

Lemma length_counts_entries counts : length (counts_entries counts) = size counts.
Proof. unfold counts_entries. by rewrite length_fmap, length_sorted_keys. Qed.

Lemma appendCounts_enc payload keys counts :
  appendCounts payload keys counts =
  payload ++ concat (entry_enc <$> ((λ k, (k, lookupZ counts k)) <$> keys)).
Proof.
  revert payload. induction keys as [|k keys IH]; intros payload; [by rewrite app_nil_r|].
  simpl. rewrite IH. unfold AppendUvarint, entry_enc, bytes_enc. simpl.
  by rewrite <-!app_assoc.
Qed.

Lemma entry_enc_len e : 1 <= len (entry_enc e).
Proof.
  unfold entry_enc. rewrite len_app. pose proof (putUvarint_pos e.2).
  pose proof (len_nonneg (bytes_enc e.1)). lia.
Qed.

Section counts_loop.
Context (payload : bytes) (maxElements maxStringBytes : Z).

(** An entry accepted after the entries [l]. *)
Definition next_entry (l : list (bytes * Z)) (e : bytes * Z) : Prop :=
  len l < maxElements ∧ entry_ok maxStringBytes e ∧
  ∀ k, last l.*1 = Some k → bytes_compare k e.1 < 0.

Definition counts_acc (l : list (bytes * Z)) : counts_map * bytes :=
  (list_to_map l, default [] (last l.*1)).

Lemma accepted_entries l :
  accepted next_entry l ↔
  increasing bytes_compare l.*1 ∧ Forall (entry_ok maxStringBytes) l ∧
  (l = [] ∨ len l <= maxElements).
Proof.
  split.
  - induction 1 as [|l e Hl (IH1 & IH2 & IH3) (He1 & He2 & He3)].
    + split; [constructor|]. by split; [constructor|left].
    + rewrite fmap_app. simpl. split; [by apply increasing_snoc_iff; [apply _|]|].
      split; [by apply Forall_app; split; [|constructor]|]. right. rewrite len_app. unfold len in *.
      simpl. lia.
  - induction l as [|e l IH] using rev_ind; intros (Hinc & Hok & Hlen); [constructor|].
    rewrite fmap_app in Hinc. apply increasing_snoc_iff in Hinc as [Hinc Hlast]; [|apply _].
    apply Forall_app in Hok as [Hok He]. apply Forall_inv in He.
    assert (len l < maxElements).
    { destruct Hlen as [Hlen|Hlen]; [by destruct l|]. rewrite len_app in Hlen. unfold len in *.
      simpl in *. lia. }
    constructor; [|done]. apply IH. split; [done|]. split; [done|]. right. lia.
Qed.

Lemma counts_acc_size l :
  increasing bytes_compare l.*1 → Z.of_nat (size (counts_acc l).1) = len l.
Proof.
  intros Hl. simpl. rewrite map_size_list_to_map; [done|].
  by apply (increasing_NoDup bytes_compare).
Qed.

Lemma counts_acc_snoc l e :
  accepted next_entry l → next_entry l e →
  counts_acc (l ++ [e]) = (<[e.1 := e.2]> (counts_acc l).1, e.1).
Proof.
  intros Hl He. assert (accepted next_entry (l ++ [e])) as Hle by by constructor.
  apply accepted_entries in Hle as (Hinc & _).
  apply (increasing_NoDup bytes_compare) in Hinc. rewrite fmap_app in Hinc. simpl in Hinc.
  unfold counts_acc. rewrite fmap_app. simpl. rewrite last_snoc. simpl. f_equal.
  destruct e as [k v]. apply list_to_map_snoc. simpl in *.
  apply NoDup_app in Hinc as (_ & Hdis & _). intros Hin. apply (Hdis k Hin). set_solver.
Qed.

Lemma counts_order l (e : bytes * Z) :
  accepted next_entry l →
  (0 <? len l) && string_le e.1 (counts_acc l).2 = false ↔
  ∀ k, last l.*1 = Some k → bytes_compare k e.1 < 0.
Proof.
  intros Hl. unfold string_le, counts_acc. simpl.
  rewrite (cmp_anti bytes_compare (default [] (last l.*1)) e.1).
  destruct (last l.*1) as [k|] eqn:E; simpl.
  - assert ((0 <? len l) = true) as ->.
    { apply Z.ltb_lt. destruct l; [done|]. rewrite len_cons. pose proof (len_nonneg l). lia. }
    simpl. rewrite Z.leb_gt. split; [intros ? k' [= <-]; lia|]. intros H. specialize (H k eq_refl). lia.
  - apply last_None, fmap_nil_inv in E as ->. done.
Qed.

Lemma countsStep_ok l e pos rest :
  accepted next_entry l → next_entry l e → remaining payload pos (entry_enc e ++ rest) →
  countsStep payload maxElements maxStringBytes (len l) (counts_acc l) pos =
    Ok (counts_acc (l ++ [e]), pos + len (entry_enc e)).
Proof.
  intros Hl He Hr. pose proof (proj1 (accepted_entries l) Hl) as (Hinc & _).
  pose proof (counts_acc_size l Hinc) as Hsize. rewrite counts_acc_snoc by done.
  pose proof (counts_order l e Hl) as Hord.
  destruct (counts_acc l) as [counts previous]; simpl in *.
  destruct He as (Hlt & (Hok & Hmax & Hu & Hv) & Hlast). unfold countsStep. guard_false.
  unfold entry_enc in Hr. rewrite <-app_assoc in Hr.
  apply (ReadBytes_ok _ _ maxStringBytes) in Hr as [R1 Hr]; [|done..]. rewrite R1.
  apply ReadUvarint_ok in Hr as [R2 Hr]; [|done]. rewrite R2.
  rewrite (proj2 Hord Hlast). rewrite Hv. simpl. unfold entry_enc. rewrite len_app.
  do 2 f_equal. fold (UvarintSize e.2). lia.
Qed.

Lemma countsStep_inv l pos acc' pos' :
  accepted next_entry l → 0 <= pos <= len payload →
  countsStep payload maxElements maxStringBytes (len l) (counts_acc l) pos = Ok (acc', pos') →
  ∃ e rest, next_entry l e ∧ acc' = counts_acc (l ++ [e]) ∧ pos' = pos + len (entry_enc e) ∧
    remaining payload pos (entry_enc e ++ rest).
Proof.
  intros Hl Hp. pose proof (proj1 (accepted_entries l) Hl) as (Hinc & _).
  pose proof (counts_acc_size l Hinc) as Hsize.
  pose proof (λ e, counts_order l e Hl) as Hord. pose proof (λ e, counts_acc_snoc l e Hl) as Hsnoc.
  destruct (counts_acc l) as [counts previous]; simpl in *. unfold countsStep.
  destruct (Z.leb_spec maxElements (Z.of_nat (size counts))); [done|].
  destruct (ReadBytes payload pos maxStringBytes) as [[k n1]|] eqn:R1; [|done].
  destruct (ReadUvarint payload n1) as [[v n2]|] eqn:R2; [|done].
  destruct (_ || _) eqn:G; [done|]. intros [= <- <-]. apply orb_false_iff in G as [Gv Gord].
  apply negb_false_iff in Gv. specialize (Hord (k, v)). simpl in Hord. pose proof (proj1 Hord Gord) as Hlast.
  apply ReadBytes_inv in R1 as (Hok & Hmax & -> & r1 & [_ Hr1] & Hr1').
  apply ReadUvarint_inv in R2 as (Hu & -> & r2 & [_ Hr2] & Hr2').
  assert (next_entry l (k, v)) as Hnext by (split; [lia|done]).
  exists (k, v), r2. split; [done|]. split; [by rewrite Hsnoc|]. unfold entry_enc. simpl.
  split; [rewrite len_app; fold (UvarintSize v); lia|].
  split; [done|]. rewrite <-app_assoc. destruct Hr1' as [_ Hr1']. by rewrite <-Hr2, Hr1'.
Qed.
End counts_loop.

Lemma counts_section_iff payload position maxElements limits counts pos' :
  0 <= position → maxElements <= maxInt →
  unmarshalPNCountsSection payload position maxElements limits = Ok (counts, pos') ↔
  0 <= maxElements ∧ counts_valid maxElements (MaxStringBytes limits) counts ∧
  pos' = position + len (counts_enc counts) ∧
  ∃ rest, remaining payload position (counts_enc counts ++ rest).
Proof.
  intros Hpos Hint. unfold unmarshalPNCountsSection.
  pose proof (read_loop_iff payload (countsStep payload maxElements (MaxStringBytes limits))
    entry_enc (next_entry maxElements (MaxStringBytes limits)) counts_acc entry_enc_len
    (countsStep_ok payload maxElements (MaxStringBytes limits))
    (countsStep_inv payload maxElements (MaxStringBytes limits))) as Hloop. split.
  - destruct (ReadUvarint payload position) as [[count next]|] eqn:R; [|done].
    apply ReadUvarint_inv in R as (Hu & -> & r & [Hp1 Hr1] & Hr2). unfold is_u64 in Hu.
    destruct (Z.ltb_spec maxElements 0); [done|].
    destruct (read_loop _ _ _ _ _ _) as [[[m prev] p]|] eqn:L; [|done]. intros [= -> ->].
    apply (Hloop count) in L as (l & rest & Hacc & <- & Habs & -> & Hr); [|lia|by destruct Hr2].
    apply accepted_entries in Hacc as (Hinc & Hok & Hlen). injection Habs as -> ->.
    assert (Z.of_nat (size (list_to_map l : counts_map)) = len l) as Hsize
      by by apply counts_acc_size.
    unfold counts_valid, counts_enc. rewrite counts_entries_list_to_map, Hsize by done.
    split; [done|]. split; [split|].
    + destruct Hlen as [->|Hlen]; [by rewrite len_nil|lia].
    + intros k v Hkv%elem_of_list_to_map_2. by rewrite Forall_forall in Hok; apply Hok.
    + rewrite len_app. fold (UvarintSize (len l)). split; [lia|]. exists rest.
      rewrite <-app_assoc. split; [done|]. rewrite Hr1. destruct Hr2 as [_ Hr2], Hr as [_ Hr].
      by rewrite <-Hr2, Hr.
  - intros (H0 & [Hsize Hok] & -> & rest & Hr). unfold counts_enc in Hr.
    rewrite <-app_assoc in Hr.
    apply ReadUvarint_ok in Hr as [R Hr]; [|unfold is_u64, maxInt in *; lia]. rewrite R.
    guard_false. pose proof (sorted_keys_increasing counts) as Hinc.
    rewrite (proj2 (Hloop (Z.of_nat (size counts)) _ (counts_acc (counts_entries counts))
      (position + UvarintSize (Z.of_nat (size counts)) +
       len (concat (entry_enc <$> counts_entries counts))) ltac:(lia) (proj1 Hr))).
    + unfold counts_acc. rewrite list_to_map_counts_entries. unfold counts_enc. rewrite len_app.
      do 2 f_equal. fold (UvarintSize (Z.of_nat (size counts))). lia.
    + exists (counts_entries counts), rest.
      assert (len (counts_entries counts) = Z.of_nat (size counts)) as Hlen
        by (unfold len; by rewrite length_counts_entries).
      split; [|done]. apply accepted_entries. rewrite counts_entries_keys.
      split; [done|]. split; [|right; lia]. apply Forall_forall. intros [k v] Hin.
      apply Hok. rewrite <-(list_to_map_counts_entries counts).
      apply elem_of_list_to_map_1; [|done]. rewrite counts_entries_keys.
      by apply (increasing_NoDup bytes_compare).
Qed.

Lemma unmarshalCounts_section `{F : Flate} data typeID limits :
  unmarshalCounts data typeID limits =
  match UnmarshalFrame data limits with
  | Err e => Err e
  | Ok f =>
      if negb (TypeID f =? typeID) || negb (bool_decide (CodecID f = [])) then Err ErrInvalidFrame
      else '(counts, pos) ← unmarshalPNCountsSection (Payload f) 0 (MaxElements limits) limits;
           if negb (pos =? len (Payload f)) then Err ErrInvalidFrame else Ok counts
  end.
Proof.
  unfold unmarshalCounts. destruct (UnmarshalFrame data limits) as [f|] eqn:Hf; [|done].
  apply unmarshal_peek in Hf as [Hv _]. unfold limits_valid in Hv. breflect.
  destruct (_ || _); [done|]. unfold unmarshalPNCountsSection.
  destruct (ReadUvarint (Payload f) 0) as [[count next]|]; [|done]. guard_false.
  by destruct (read_loop _ _ _ _ _ _) as [[[counts prev] pos]|].
Qed.

(** A decoded component map is the one whose canonical bytes are the payload. *)
Lemma unmarshalCounts_iff `{F : Flate} data typeID limits counts :
  limits_int limits →
  unmarshalCounts data typeID limits = Ok counts ↔
  ∃ f, UnmarshalFrame data limits = Ok f ∧ TypeID f = typeID ∧ CodecID f = [] ∧
    Payload f = counts_enc counts ∧
    counts_valid (MaxElements limits) (MaxStringBytes limits) counts.
Proof.
  intros Hint. rewrite unmarshalCounts_section.
  destruct (UnmarshalFrame data limits) as [f|] eqn:Hf; [|naive_solver].
  apply unmarshal_peek in Hf as [Hv _]. unfold limits_valid in Hv. breflect.
  pose proof (counts_section_iff (Payload f) 0 (MaxElements limits) limits counts) as Hsec.
  split.
  - destruct (_ || _) eqn:G; [done|]. breflect.
    rewrite bind_Ok. intros ([counts' pos] & Hs & Hpos).
    destruct (Z.eqb_spec pos (len (Payload f))) as [->|]; [|done]. injection Hpos as ->.
    apply Hsec in Hs as (_ & Hval & Hl & rest & Hr); [|lia|destruct Hint; lia].
    exists f. do 3 (split; [done|]). split; [|done].
    apply remaining_len in Hr as Hlr. rewrite len_app in Hlr.
    destruct rest as [|b rest]; [|rewrite len_cons in Hlr; pose proof (len_nonneg rest); lia].
    rewrite app_nil_r in Hr. by destruct Hr.
  - intros (f' & [= <-] & HT & HC & HP & Hval). guard_false.
    rewrite (proj2 (Hsec (len (Payload f)) ltac:(lia) ltac:(destruct Hint; lia))); simpl.
    + by rewrite Z.eqb_refl.
    + split; [lia|]. split; [done|]. split; [rewrite HP; lia|]. exists [].
      rewrite HP, app_nil_r. apply remaining_start.
Qed.

Lemma countsSize_iff keys counts limits size n :
  countsSize keys counts limits size = Ok n ↔
  Forall (λ k, len k <= MaxStringBytes limits) keys ∧
  n = size + len (concat (entry_enc <$> ((λ k, (k, lookupZ counts k)) <$> keys))) ∧
  (keys = [] ∨ n <= MaxPayload limits).
Proof.
  revert size. induction keys as [|k keys IH]; intros size; simpl.
  - rewrite len_nil. split; [intros [= ->]; split; [constructor|]; auto with lia|].
    intros (_ & -> & _). f_equal. lia.
  - rewrite Forall_cons. set (tail := concat _) in *.
    assert (len (entry_enc (k, lookupZ counts k) ++ tail) =
      UvarintSize (len k) + len k + UvarintSize (lookupZ counts k) + len tail) as ->.
    { unfold entry_enc. rewrite !len_app, len_bytes_enc. done. }
    pose proof (len_nonneg tail). split.
    + guards. rewrite IH. intros (Hf & -> & Hn). split; [done|]. split; [lia|]. right.
      destruct Hn as [->|]; [|lia]. unfold tail in *. simpl in *. rewrite len_nil in *. lia.
    + intros ([Hk Hf] & -> & [|Hn]); [done|]. guard_false. guard_false.
      apply IH. split; [done|]. split; [lia|]. right. lia.
Qed.

Lemma counts_enc_section counts :
  appendPNCountsSection [] (sorted_keys counts) counts = counts_enc counts.
Proof.
  unfold appendPNCountsSection, AppendUvarint. rewrite appendCounts_enc. unfold counts_enc, len.
  by rewrite length_sorted_keys.
Qed.

Lemma appendPNCountsSection_app payload counts :
  appendPNCountsSection payload (sorted_keys counts) counts = payload ++ counts_enc counts.
Proof.
  rewrite <-counts_enc_section. unfold appendPNCountsSection, AppendUvarint.
  rewrite !appendCounts_enc. by rewrite app_nil_l, <-app_assoc.
Qed.

Lemma Forall_sorted_keys {V} (P : bytes → Prop) (m : gmap bytes V) :
  Forall P (sorted_keys m) ↔ map_Forall (λ k _, P k) m.
Proof.
  rewrite Forall_forall. setoid_rewrite elem_of_sorted_keys. unfold map_Forall, is_Some. naive_solver.
Qed.

Lemma counts_size_iff counts limits n :
  countsSize (sorted_keys counts) counts limits (UvarintSize (len (sorted_keys counts))) = Ok n ↔
  map_Forall (λ k _, len k <= MaxStringBytes limits) counts ∧ n = len (counts_enc counts) ∧
  (counts = ∅ ∨ n <= MaxPayload limits).
Proof.
  rewrite countsSize_iff, Forall_sorted_keys. fold (counts_entries counts).
  assert (UvarintSize (len (sorted_keys counts)) + len (concat (entry_enc <$> counts_entries counts))
    = len (counts_enc counts)) as ->.
  { unfold counts_enc. rewrite len_app. unfold len at 1. by rewrite length_sorted_keys. }
  assert (sorted_keys counts = [] ↔ counts = ∅) as ->; [|done].
  rewrite <-length_zero_iff_nil, length_sorted_keys. apply map_size_empty_iff.
Qed.

Lemma marshalCounts_iff typeID counts data :
  marshalCounts typeID counts = Ok data ↔
  Z.of_nat (size counts) <= MaxElements DefaultLimits ∧
  map_Forall (λ k _, len k <= MaxStringBytes DefaultLimits) counts ∧
  MarshalFrame (mkFrame typeID [] (counts_enc counts) 0 false) = Ok data.
Proof.
  unfold marshalCounts, marshalCountsWithLimits.
  fold (appendPNCountsSection [] (sorted_keys counts) counts). rewrite counts_enc_section.
  pose proof (counts_size_iff counts DefaultLimits) as Hsize. split.
  - guards. destruct (countsSize _ _ _ _) as [n|] eqn:Hs; [|done].
    apply counts_size_iff in Hs as (? & _). done.
  - intros (? & ? & Hm). guard_false.
    rewrite (proj2 (Hsize (len (counts_enc counts)))); [done|]. split; [done|]. split; [done|].
    right. by apply MarshalFrame_payload in Hm.
Qed.

Lemma validateCounts_Ok counts :
  validateCounts counts = Ok tt ↔ map_Forall (λ k _, Valid (mkTag k 0 0) = true) counts.
Proof.
  unfold validateCounts. rewrite map_Forall_to_list, Forall_forall.
  destruct (forallb _ _) eqn:E.
  - rewrite forallb_forall in E. split; [|done]. intros _ [k v] Hin.
    apply (E (k, v)). by apply list_elem_of_In.
  - split; [done|]. intros H. apply not_true_iff_false in E. contradict E. apply forallb_forall.
    intros [k v] Hin%list_elem_of_In. apply (H _ Hin).
Qed.

Lemma entries_ok counts :
  map_Forall (λ k v, entry_ok (MaxStringBytes DefaultLimits) (k, v)) counts ↔
  counts_ok counts ∧ map_Forall (λ k _, Valid (mkTag k 0 0) = true) counts ∧
  map_Forall (λ k _, len k <= MaxStringBytes DefaultLimits) counts.
Proof.
  unfold entry_ok. split.
  - intros H. split_and!; intros k v Hk; by destruct (H k v Hk) as (?&?&?&?).
  - intros (H1 & H2 & H3) k v Hk. pose proof (H3 k v Hk).
    split; [by apply (limits_string_ok _ DefaultLimits)|].
    split; [done|]. split; [by apply (H1 k)|by apply (H2 k v)].
Qed.

Lemma counts_codec `{F : Flate} typeID counts data :
  is_u64 typeID →
  (counts_ok counts ∧ validateCounts counts = Ok tt ∧ marshalCounts typeID counts = Ok data) ↔
  (unmarshalCounts data typeID DefaultLimits = Ok counts ∧
   PeekFrameFormatVersion data DefaultLimits = Ok FormatVersion).
Proof.
  intros Ht. rewrite marshalCounts_iff, validateCounts_Ok, unmarshalCounts_iff by done. split.
  - intros (Hok & Hv & Hs & Hl & Hm). apply unmarshal_MarshalFrame in Hm; [|done]. simpl in Hm.
    split; [|by apply unmarshal_peek in Hm as [_ ->]]. eexists. split; [exact Hm|]. simpl.
    do 3 (split; [done|]). split; [done|]. by apply entries_ok.
  - intros [(f & Hf & HT & HC & HP & [Hs Hval]) Hpeek].
    pose proof (unmarshal_peek _ _ _ Hf) as [_ Hpeek']. rewrite Hpeek in Hpeek'.
    injection Hpeek' as Hver. apply unmarshal_v1_marshal in Hf as (_ & _ & _ & Hm); [|done].
    rewrite HT, HC, HP in Hm.
    by apply entries_ok in Hval as (?&?&?).
Qed.

(** The G-Counter's canonical bytes. A v1 state frame decodes to a counter's
    components exactly when that counter, with valid components, encodes to
    that frame: encoding loses nothing, and every state has one encoding,
    independent of the order in which its map is visited. *)
Theorem GCounter_codec `{F : Flate} (g h : GCounter) (data : bytes) :
  (counts_ok (gc_counts g) ∧ validateCounts (gc_counts g) = Ok tt ∧
   GCounter_MarshalBinary (Some g) = Ok data) ↔
  (GCounter_UnmarshalBinary (Some h) data = (Some (GCounter_set h (gc_counts g)), Ok tt) ∧
   PeekFrameFormatVersion data DefaultLimits = Ok FormatVersion).
Proof.
  simpl. rewrite counts_codec by done.
  unfold GCounter_UnmarshalBinary, GCounter_UnmarshalBinaryWithLimits, GCounter_set.
  destruct (unmarshalCounts data TypeIDGCounterState DefaultLimits) as [counts|e]; naive_solver.
Qed.

(** ** PN-Counter properties *)

Definition pncounter_ok (p : PNCounter) : Prop :=
  counts_ok (pn_positive p) ∧ counts_ok (pn_negative p).

(** A PN-Counter's value. An increment (decrement) that does not overflow its
    64-bit component raises (lowers) the value by exactly the amount, for any
    sign of the value, and joining the returned delta into the previous state
    reproduces the step; an overflowing one is refused and changes nothing. *)
Theorem PNCounter_add_spec (p : PNCounter) (amount : Z) (positive : bool)
    (Hok : pncounter_ok p) (Hamount : is_u64 amount) :
  let counts := if positive then pn_positive p else pn_negative p in
  if lookupZ counts (pn_replicaID p) + amount <=? maxUint64 then
    ∃ p' d v, PNCounter_add (Some p) amount positive = (Some p', Ok d) ∧ pncounter_ok p' ∧
      PNCounter_Value (Some p) = Ok v ∧
      PNCounter_Value (Some p') = Ok (if positive then v + amount else v - amount) ∧
      counts_equiv (pn_positive p') (joinCounts (pn_positive p) (pd_positive d)) ∧
      counts_equiv (pn_negative p') (joinCounts (pn_negative p) (pd_negative d))
  else PNCounter_add (Some p) amount positive = (Some p, Err ErrCounterOverflow).
Proof.
  intros counts. destruct Hok as [Hpos Hneg].
  assert (counts_ok counts) as Hc by (unfold counts; by destruct positive).
  pose proof (lookupZ_ok counts (pn_replicaID p) Hc) as Hcur.
  pose proof (counts_raise counts (pn_replicaID p) amount Hc Hamount) as Hraise.
  unfold PNCounter_add. fold counts. set (cur := lookupZ counts (pn_replicaID p)) in *.
  unfold is_u64 in Hamount, Hcur. destruct (Z.leb_spec (cur + amount) maxUint64).
  - destruct Hraise as (Hok' & Hsum & Heq); [done|]. guard_false.
    subst counts. destruct positive; eexists _, _, _; (split; [done|]); split; try done;
      (split; [done|]); simpl; rewrite Hsum; (split; [f_equal; lia|]); split; try done;
      intros k; unfold lookupZ; by rewrite joinCounts_lookup, lookup_empty.
  - guard_true. done.
Qed.

Lemma PNCounter_add_spec_witness :
  PNCounter_Decrement (Some (mkPNCounter (str "a") {[str "a" := 3]} {[str "a" := maxUint64]})) 1 =
  (Some (mkPNCounter (str "a") {[str "a" := 3]} {[str "a" := maxUint64]}), Err ErrCounterOverflow).
Proof.
  exact (PNCounter_add_spec (mkPNCounter (str "a") {[str "a" := 3]} {[str "a" := maxUint64]})
    1 false ltac:(by split; apply map_Forall_singleton) ltac:(done)).
Defined.

(** What a PN-Counter replica receives. *)
Inductive pncounter_msg := PNStateMsg (o : PNCounter) | PNDeltaMsg (d : PNCounterDelta).

Definition pncounter_receive (c : ptr PNCounter) (m : pncounter_msg) : ptr PNCounter * result unit :=
  match m with
  | PNStateMsg o => PNCounter_Merge c (PObj o)
  | PNDeltaMsg d => PNCounter_ApplyDelta c d
  end.

Definition pncounter_run (c : ptr PNCounter) (ms : list pncounter_msg) : ptr PNCounter * result unit :=
  foldl (λ '(c, r) m, let '(c, r') := pncounter_receive c m in (c, _ ← r; r')) (c, Ok tt) ms.

Definition pncounter_msg_counts (m : pncounter_msg) : counts_map * counts_map :=
  match m with
  | PNStateMsg o => (pn_positive o, pn_negative o)
  | PNDeltaMsg d => (pd_positive d, pd_negative d)
  end.

Definition pncounter_msg_ok (m : pncounter_msg) : Prop :=
  counts_ok (pncounter_msg_counts m).1 ∧ counts_ok (pncounter_msg_counts m).2 ∧
  match m with
  | PNStateMsg _ => True
  | PNDeltaMsg d => validatePNCounts (pd_positive d) (pd_negative d) = Ok tt
  end.

Lemma pncounter_receive_join p m :
  pncounter_msg_ok m →
  pncounter_receive (Some p) m =
  (Some (PNCounter_join p (pncounter_msg_counts m).1 (pncounter_msg_counts m).2), Ok tt).
Proof.
  destruct m as [o|d]; [done|]. intros (_ & _ & Hv). simpl.
  unfold PNCounter_ApplyDelta, PNCounter_ApplyDeltaChanged, PNCounter_join, joinCounts. rewrite Hv.
  by destruct (joinCountsChanged _ _), (joinCountsChanged _ _).
Qed.

Lemma pncounter_run_deliver p ms :
  Forall pncounter_msg_ok ms →
  pncounter_run (Some p) ms =
  (Some (mkPNCounter (pn_replicaID p)
     (deliver joinCounts (pn_positive p) (pncounter_msg_counts <$> ms).*1)
     (deliver joinCounts (pn_negative p) (pncounter_msg_counts <$> ms).*2)), Ok tt).
Proof.
  intros Hms. unfold pncounter_run. revert p.
  induction Hms as [|m ms Hm Hms IH]; intros p; [by destruct p|].
  cbn [foldl]. rewrite pncounter_receive_join by done. cbn. apply IH.
Qed.

(** PN-Counters converge. Replicas whose own states and received messages hold
    the same component maps, in any order and with any repetition, agree on every
    component, on [Value] and on [ValueInt64]. *)
Theorem PNCounter_convergence (pa pb : PNCounter) (ma mb : list pncounter_msg)
    (Ha : pncounter_ok pa) (Hb : pncounter_ok pb)
    (Hma : Forall pncounter_msg_ok ma) (Hmb : Forall pncounter_msg_ok mb)
    (Hsame : ∀ m, m ∈ (pn_positive pa, pn_negative pa) :: (pncounter_msg_counts <$> ma) ↔
                  m ∈ (pn_positive pb, pn_negative pb) :: (pncounter_msg_counts <$> mb)) :
  ∃ pa' pb', pncounter_run (Some pa) ma = (Some pa', Ok tt) ∧
    pncounter_run (Some pb) mb = (Some pb', Ok tt) ∧
    counts_equiv (pn_positive pa') (pn_positive pb') ∧
    counts_equiv (pn_negative pa') (pn_negative pb') ∧
    PNCounter_Value (Some pa') = PNCounter_Value (Some pb') ∧
    PNCounter_ValueInt64 (Some pa') = PNCounter_ValueInt64 (Some pb').
Proof.
  assert (∀ ms, Forall pncounter_msg_ok ms → Forall counts_ok (pncounter_msg_counts <$> ms).*1 ∧
    Forall counts_ok (pncounter_msg_counts <$> ms).*2) as Hc.
  { intros ms Hms. rewrite !Forall_fmap. split; (eapply Forall_impl; [exact Hms|]);
      intros m Hm; simpl; apply Hm. }
  assert (∀ {B} (f : counts_map * counts_map → B) x, x ∈ f <$> (pn_positive pa, pn_negative pa) ::
    (pncounter_msg_counts <$> ma) ↔ x ∈ f <$> (pn_positive pb, pn_negative pb) ::
    (pncounter_msg_counts <$> mb)) as Hset.
  { intros B f x. rewrite !list_elem_of_fmap. by setoid_rewrite Hsame. }
  rewrite !pncounter_run_deliver by done. eexists _, _. split; [done|]. split; [done|].
  cbn [pn_positive pn_negative]. destruct Ha, Hb.
  assert (counts_equiv (deliver joinCounts (pn_positive pa) (pncounter_msg_counts <$> ma).*1)
    (deliver joinCounts (pn_positive pb) (pncounter_msg_counts <$> mb).*1)) as Hp
    by (apply counts_convergence; [done|done|by apply Hc|by apply Hc|apply (Hset _ fst)]).
  assert (counts_equiv (deliver joinCounts (pn_negative pa) (pncounter_msg_counts <$> ma).*2)
    (deliver joinCounts (pn_negative pb) (pncounter_msg_counts <$> mb).*2)) as Hn
    by (apply counts_convergence; [done|done|by apply Hc|by apply Hc|apply (Hset _ snd)]).
  unfold PNCounter_ValueInt64. simpl.
  by rewrite (sumCounts_equiv _ _ Hp), (sumCounts_equiv _ _ Hn).
Qed.

Lemma PNCounter_convergence_witness :
  let d1 := PNDeltaMsg (mkPNCounterDelta {[str "a" := 1]} ∅) in
  let d2 := PNDeltaMsg (mkPNCounterDelta ∅ {[str "b" := 2]}) in
  let pa := mkPNCounter (str "a") ∅ ∅ in
  let pb := mkPNCounter (str "b") ∅ ∅ in
  ∃ pa' pb', pncounter_run (Some pa) [d1; d2] = (Some pa', Ok tt) ∧
    pncounter_run (Some pb) [d2; d1; d2] = (Some pb', Ok tt) ∧
    counts_equiv (pn_positive pa') (pn_positive pb') ∧
    counts_equiv (pn_negative pa') (pn_negative pb') ∧
    PNCounter_Value (Some pa') = PNCounter_Value (Some pb') ∧
    PNCounter_ValueInt64 (Some pa') = PNCounter_ValueInt64 (Some pb').
Proof.
  intros d1 d2 pa pb. apply (PNCounter_convergence pa pb [d1; d2] [d2; d1; d2]).
  - done.
  - done.
  - repeat (apply Forall_cons; split); [by split; [|split]; try apply map_Forall_singleton..|done].
  - repeat (apply Forall_cons; split); [by split; [|split]; try apply map_Forall_singleton..|done].
  - intros m. unfold d1, d2, pa, pb. simpl. set_solver.
Defined.

(** The pairs of component maps a decoder accepts. *)
Definition pn_valid (limits : DecoderLimits) (positive negative : counts_map) : Prop :=
  counts_valid (MaxElements limits) (MaxStringBytes limits) positive ∧
  counts_valid (MaxElements limits - Z.of_nat (size positive)) (MaxStringBytes limits) negative.

Lemma unmarshalPNCounts_iff `{F : Flate} data typeID limits positive negative :
  limits_int limits →
  unmarshalPNCounts data typeID limits = Ok (positive, negative) ↔
  ∃ f, UnmarshalFrame data limits = Ok f ∧ TypeID f = typeID ∧ CodecID f = [] ∧
    Payload f = counts_enc positive ++ counts_enc negative ∧ pn_valid limits positive negative.
Proof.
  intros Hint. unfold unmarshalPNCounts, pn_valid.
  destruct (UnmarshalFrame data limits) as [f|] eqn:Hf; [|naive_solver].
  apply unmarshal_peek in Hf as [Hv _]. unfold limits_valid in Hv. breflect.
  pose proof (λ p m n, counts_section_iff (Payload f) p m limits n) as Hsec.
  assert (MaxElements limits <= maxInt) as HmE by (destruct Hint; lia). split.
  - destruct (_ || _) eqn:G; [done|]. breflect.
    destruct (unmarshalPNCountsSection _ 0 _ _) as [[pos p1]|] eqn:S1; [|done].
    apply Hsec in S1 as (_ & Hval1 & -> & r1 & Hr1); [|lia|done].
    pose proof (remaining_app _ _ _ _ Hr1) as Hr1'.
    destruct (unmarshalPNCountsSection _ _ _ _) as [[neg p2]|] eqn:S2; [|done].
    apply Hsec in S2 as (_ & Hval2 & -> & r2 & Hr2); [|destruct Hr1'; lia|lia].
    destruct (negb _) eqn:G2; [done|]. breflect. intros [= -> ->]. exists f.
    do 3 (split; [done|]). split; [|done].
    pose proof (remaining_len _ _ _ Hr2) as Hl2. rewrite len_app in Hl2.
    destruct r2 as [|b r2]; [|rewrite len_cons in Hl2; pose proof (len_nonneg r2); lia].
    rewrite app_nil_r in Hr2. destruct Hr1 as [_ Hr1], Hr1' as [_ Hr1'], Hr2 as [_ Hr2].
    change (slice_from (Payload f) 0) with (Payload f) in Hr1. rewrite Hr1. f_equal.
    by rewrite <-Hr1', Hr2.
  - intros (f' & [= <-] & HT & HC & HP & Hval1 & Hval2). guard_false.
    assert (remaining (Payload f) 0 (counts_enc positive ++ counts_enc negative ++ [])) as Hr
      by (rewrite HP, app_nil_r; apply remaining_start).
    pose proof (remaining_app _ _ _ _ Hr) as Hr'. pose proof (proj1 Hr') as Hp'.
    pose proof (remaining_app _ _ _ _ Hr') as Hend%remaining_nil. destruct Hval1 as [Hs1 Hval1].
    rewrite (proj2 (Hsec 0 _ positive (0 + len (counts_enc positive)) ltac:(lia) HmE))
      by (split; [lia|]; split; [done|]; eauto).
    rewrite (proj2 (Hsec (0 + len (counts_enc positive)) (MaxElements limits - Z.of_nat (size positive))
      negative (0 + len (counts_enc positive) + len (counts_enc negative)) ltac:(lia) ltac:(lia)))
      by (split; [lia|]; eauto).
    guard_false. done.
Qed.

Lemma marshalPNCounts_iff typeID positive negative data :
  marshalPNCounts typeID positive negative = Ok data ↔
  validatePNCounts positive negative = Ok tt ∧
  Z.of_nat (size positive) + Z.of_nat (size negative) <= MaxElements DefaultLimits ∧
  map_Forall (λ k _, len k <= MaxStringBytes DefaultLimits) positive ∧
  map_Forall (λ k _, len k <= MaxStringBytes DefaultLimits) negative ∧
  MarshalFrame (mkFrame typeID [] (counts_enc positive ++ counts_enc negative) 0 false) = Ok data.
Proof.
  unfold marshalPNCounts, marshalPNCountsWithLimits, pnCountsSection.
  destruct (validatePNCounts positive negative) as [[]|]; [|naive_solver].
  pose proof (len_nonneg (counts_enc positive)). pose proof (len_nonneg (counts_enc negative)). split.
  - guards.
    destruct (countsSize (sorted_keys positive) _ _ _) as [n1|] eqn:S1; [|done].
    destruct (countsSize (sorted_keys negative) _ _ _) as [n2|] eqn:S2; [|done].
    apply counts_size_iff in S1 as (? & -> & _). apply counts_size_iff in S2 as (? & -> & _).
    rewrite counts_enc_section, appendPNCountsSection_app. case_match; [done|].
    intros Hm. do 4 (split; [done || lia|]). done.
  - intros (_ & Hs & Hl1 & Hl2 & Hm). guard_false.
    pose proof (MarshalFrame_payload _ _ Hm) as Hmax. cbn [Payload] in Hmax. rewrite len_app in Hmax.
    rewrite (proj2 (counts_size_iff positive DefaultLimits (len (counts_enc positive)))),
      (proj2 (counts_size_iff negative DefaultLimits (len (counts_enc negative))))
      by (split; [done|]; split; [done|right; lia]).
    rewrite counts_enc_section, appendPNCountsSection_app. guard_false. done.
Qed.

Lemma validatePNCounts_Ok positive negative :
  validatePNCounts positive negative = Ok tt ↔
  validateCounts positive = Ok tt ∧ validateCounts negative = Ok tt.
Proof.
  unfold validatePNCounts. rewrite bind_Ok.
  destruct (validateCounts positive) as [[]|]; naive_solver.
Qed.

(** The PN-Counter's canonical bytes. A v1 state frame decodes to a counter's
    two component maps exactly when that counter, with 64-bit components,
    encodes to that frame. *)
Theorem PNCounter_codec `{F : Flate} (p q : PNCounter) (data : bytes) :
  (pncounter_ok p ∧ PNCounter_MarshalBinary (Some p) = Ok data) ↔
  (PNCounter_UnmarshalBinary (Some q) data =
     (Some (mkPNCounter (pn_replicaID q) (pn_positive p) (pn_negative p)), Ok tt) ∧
   PeekFrameFormatVersion data DefaultLimits = Ok FormatVersion).
Proof.
  assert (PNCounter_UnmarshalBinary (Some q) data =
    (Some (mkPNCounter (pn_replicaID q) (pn_positive p) (pn_negative p)), Ok tt) ↔
    unmarshalPNCounts data TypeIDPNCounterState DefaultLimits =
      Ok (pn_positive p, pn_negative p)) as ->.
  { unfold PNCounter_UnmarshalBinary, PNCounter_UnmarshalBinaryWithLimits.
    destruct (unmarshalPNCounts _ _ _) as [[pos neg]|e]; naive_solver. }
  simpl. rewrite marshalPNCounts_iff, validatePNCounts_Ok, !validateCounts_Ok.
  rewrite unmarshalPNCounts_iff by done. unfold pncounter_ok. split.
  - intros ([Hok1 Hok2] & [Hv1 Hv2] & Hs & Hl1 & Hl2 & Hm).
    apply unmarshal_MarshalFrame in Hm; [|done]. cbn [TypeID CodecID Payload] in Hm.
    split; [|by apply unmarshal_peek in Hm as [_ ->]]. eexists. split; [exact Hm|].
    cbn [TypeID CodecID Payload]. do 3 (split; [done|]).
    split; (split; [lia|]); by apply entries_ok.
  - intros [(f & Hf & HT & HC & HP & [Hs1 Hval1] & [Hs2 Hval2]) Hpeek].
    pose proof (unmarshal_peek _ _ _ Hf) as [_ Hpeek']. rewrite Hpeek in Hpeek'.
    injection Hpeek' as Hver. apply unmarshal_v1_marshal in Hf as (_ & _ & _ & Hm); [|done].
    rewrite HT, HC, HP in Hm.
    apply entries_ok in Hval1 as (?&?&?), Hval2 as (?&?&?).
    split_and!; try done. lia.
Qed.

