(* ===== verification/Codec.v ===== *)
(** * Element codecs

    Models src/set/codec.go and src/internal/codecguard/guard.go: an application
    codec for the elements of a set, bound once to its identifier and called
    behind a guard that turns a panic into an error.

    The codec itself is application code: a value of [ElementCodec]. *)

From S2P Require Import Prelude.

(** A call into application code returns or panics. *)
Inductive call (A : Type) : Type :=
| Returns (r : result A)
| Panics.
Arguments Returns {A} _.
Arguments Panics {A}.

(** [codecguard.ID], [codecguard.Marshal] and [codecguard.Unmarshal] *)
Definition guarded {A} (c : call A) : result A :=
  match c with Returns r => r | Panics => Err ErrCodecPanic end.

(** [ElementCodec] *)
Record ElementCodec (T : Type) := mkElementCodec {
  codec_ID : call bytes;
  codec_Marshal : T → call bytes;
  codec_Unmarshal : bytes → call T
}.
Arguments mkElementCodec {T} _ _ _.
Arguments codec_ID {T} _.
Arguments codec_Marshal {T} _ _.
Arguments codec_Unmarshal {T} _ _.

(** [boundElementCodec] *)
Record boundElementCodec (T : Type) := mkBound { bound_value : ElementCodec T; bound_id : bytes }.
Arguments mkBound {T} _ _.
Arguments bound_value {T} _.
Arguments bound_id {T} _.

(** [bindElementCodec]; a nil interface or a nil pointer in one is [None]. *)
Definition bindElementCodec {T} (codec : ptr (ElementCodec T)) : result (boundElementCodec T) :=
  match codec with
  | None => Err ErrSetInvalidCodec
  | Some codec =>
      match guarded (codec_ID codec) with
      | Err _ => Err ErrSetInvalidCodec
      | Ok id => if blank id then Err ErrSetInvalidCodec else Ok (mkBound codec id)
      end
  end.

(** [boundElementCodec.marshal] *)
Definition bound_marshal {T} (codec : boundElementCodec T) (value : T) : result bytes :=
  guarded (codec_Marshal (bound_value codec) value).

(** [boundElementCodec.unmarshal] *)
Definition bound_unmarshal {T} (codec : boundElementCodec T) (data : bytes) : result T :=
  guarded (codec_Unmarshal (bound_value codec) data).

(** What sets rely on from an application codec: decoding the bytes of a value
    gives the value back. *)
Class CodecOk {T} (codec : boundElementCodec T) : Prop :=
  codec_roundtrip x b : bound_marshal codec x = Ok b → bound_unmarshal codec b = Ok x.

Lemma codec_inj `{CodecOk T codec} x y b :
  bound_marshal codec x = Ok b → bound_marshal codec y = Ok b → x = y.
Proof.
  intros Hx%codec_roundtrip Hy%codec_roundtrip. congruence.
Qed.

(** The codec of byte strings, the canonical instance. *)
Definition raw_codec : boundElementCodec bytes :=
  mkBound (mkElementCodec (Returns (Ok (str "raw"))) (λ v, Returns (Ok v)) (λ d, Returns (Ok d)))
    (str "raw").

#[export] Instance raw_codec_ok : CodecOk raw_codec.
Proof. intros x b [= <-]. done. Qed.
