(* ===== verification/GSet.v ===== *)
(** * Grow-only sets

    Models src/set/gset.go. A [map[T]struct{}] is a [gset]; a nil map is
    distinguished from an empty one where the code does (deltas). *)

From S2P Require Import Prelude Tags Lattice Wire Frame Codec.

Section gset_model.
Context {T : Type} `{Countable T}.

(** [GSet] *)
Record GSet := mkGSet {
  gs_replicaID : bytes;
  gs_codec : boundElementCodec T;
  gs_elements : gset T
}.

(** [GSetDelta] *)
Record GSetDelta := mkGSetDelta { gsd_elements : option (gset T) }.

(** [NewGSet] *)
Definition NewGSet (replicaID : bytes) (codec : ptr (ElementCodec T)) : result GSet :=
  if negb (Valid (mkTag replicaID 0 0)) then Err ErrSetInvalidReplicaID
  else match bindElementCodec codec with
       | Err e => Err e
       | Ok bound => Ok (mkGSet replicaID bound ∅)
       end.

Definition GSet_set (s : GSet) (elements : gset T) : GSet :=
  mkGSet (gs_replicaID s) (gs_codec s) elements.

(** [GSet.Add] *)
Definition GSet_Add (s : ptr GSet) (element : T) : ptr GSet * result GSetDelta :=
  match s with
  | None => (None, Err ErrNilGSet)
  | Some g => (Some (GSet_set g ({[element]} ∪ gs_elements g)),
               Ok (mkGSetDelta (Some {[element]})))
  end.

(** [GSet.Contains] *)
Definition GSet_Contains (s : ptr GSet) (element : T) : bool :=
  match s with None => false | Some g => bool_decide (element ∈ gs_elements g) end.

(** [GSet.Elements], up to order *)
Definition GSet_Elements (s : ptr GSet) : list T :=
  match s with None => [] | Some g => elements (gs_elements g) end.

(** [GSet.join] *)
Definition GSet_join (s : GSet) (incoming : gset T) : GSet :=
  if bool_decide (incoming = ∅) then s
  else GSet_set s (foldl (λ acc element, {[element]} ∪ acc) (gs_elements s) (elements incoming)).

(** [GSet.subsumes] *)
Definition GSet_subsumes (s : GSet) (incoming : gset T) : bool :=
  forallb (λ element, bool_decide (element ∈ gs_elements s)) (elements incoming).

(** [GSet.Merge] *)
Definition GSet_Merge (s : ptr GSet) (other : peer GSet) : ptr GSet * result unit :=
  match s, other with
  | None, _ | _, PNil => (s, Err ErrNilGSet)
  | Some g, PSelf => (s, Ok tt)
  | Some g, PObj o =>
      if negb (bool_decide (bound_id (gs_codec g) = bound_id (gs_codec o)))
      then (s, Err ErrSetCodecMismatch)
      else (Some (GSet_join g (gs_elements o)), Ok tt)
  end.

(** [GSet.ApplyDelta] *)
Definition GSet_ApplyDelta (s : ptr GSet) (delta : GSetDelta) : ptr GSet * result unit :=
  match s with
  | None => (None, Err ErrNilGSet)
  | Some g =>
      match gsd_elements delta with
      | None => (s, Err ErrInvalidGSet)
      | Some incoming =>
          if GSet_subsumes g incoming then (s, Ok tt)
          else (Some (GSet_join g incoming), Ok tt)
      end
  end.

(** [GSetDelta.Merge] *)
Definition GSetDelta_Merge (d other : GSetDelta) : result GSetDelta :=
  match gsd_elements d, gsd_elements other with
  | Some a, Some b =>
      Ok (mkGSetDelta (Some (foldl (λ acc element, {[element]} ∪ acc) a (elements b))))
  | _, _ => Err ErrInvalidGSet
  end.

(** [GSet.State] *)
Definition GSet_State (s : ptr GSet) : StateSnapshot :=
  match s with
  | None => mkSnapshot (str "gset") [] 0 0
  | Some g => mkSnapshot (str "gset") (gs_replicaID g) (Z.of_nat (size (gs_elements g))) 0
  end.

(** ** Encoding *)

(** The loop that encodes the elements in the order the map yields them. *)
Fixpoint gsetEncode (codec : boundElementCodec T) (limits : DecoderLimits) (order : list T)
    : result (list bytes) :=
  match order with
  | [] => Ok []
  | element :: order' =>
      match bound_marshal codec element with
      | Err e => Err (ErrWrap ErrSetInvalidCodec e)
      | Ok value =>
          if MaxStringBytes limits <? len value then Err ErrFrameLimit
          else match gsetEncode codec limits order' with
               | Err e => Err e
               | Ok encoded => Ok (value :: encoded)
               end
      end
  end.

(** The size loop over the sorted encodings, with its check for duplicates. *)
Fixpoint gsetSize (previous : option bytes) (encoded : list bytes) (limits : DecoderLimits)
    (payloadSize : Z) : result Z :=
  match encoded with
  | [] => Ok payloadSize
  | value :: encoded' =>
      if bool_decide (previous = Some value) then Err ErrSetInvalidCodec
      else
        let additional := UvarintSize (len value) + len value in
        if MaxPayload limits - payloadSize <? additional then Err ErrFrameLimit
        else gsetSize (Some value) encoded' limits (payloadSize + additional)
  end.

(** [appendBytes] *)
Definition appendBytes (dst value : bytes) : bytes := AppendUvarint dst (len value) ++ value.

(** [marshalGSetWithCodec], for an order in which the map is visited. *)
Definition marshalGSetOrder (typeID : Z) (codec : boundElementCodec T) (order : list T)
    (limits : DecoderLimits) : result bytes :=
  if MaxElements limits <? len order then Err ErrFrameLimit
  else match gsetEncode codec limits order with
  | Err e => Err e
  | Ok encoded =>
      let encoded := sort_by bytes_compare encoded in
      match gsetSize None encoded limits (UvarintSize (len encoded)) with
      | Err e => Err e
      | Ok payloadSize =>
          MarshalFrameWithPayload typeID (bound_id codec) payloadSize
            (exactWriter (foldl appendBytes (AppendUvarint [] (len encoded)) encoded) payloadSize)
      end
  end.

Definition marshalGSetWithCodec (typeID : Z) (codec : boundElementCodec T) (members : gset T)
    (limits : DecoderLimits) : result bytes :=
  marshalGSetOrder typeID codec (elements members) limits.

(** [marshalGSet] *)
Definition marshalGSet (typeID : Z) (codec : ptr (ElementCodec T)) (members : gset T)
    (limits : DecoderLimits) : result bytes :=
  bound ← bindElementCodec codec; marshalGSetWithCodec typeID bound members limits.

(** [GSet.MarshalBinary] *)
Definition GSet_MarshalBinary (s : ptr GSet) : result bytes :=
  match s with
  | None => Err ErrNilGSet
  | Some g => marshalGSetWithCodec TypeIDGSetState (gs_codec g) (gs_elements g) DefaultLimits
  end.

(** [GSetDelta.MarshalBinary] *)
Definition GSetDelta_MarshalBinary (d : GSetDelta) (codec : ptr (ElementCodec T)) : result bytes :=
  match gsd_elements d with
  | None => Err ErrInvalidGSet
  | Some members => marshalGSet TypeIDGSetDelta codec members DefaultLimits
  end.

(** The body of the decoding loop. *)
Definition gsetStep (codec : boundElementCodec T) (payload : bytes) (maxStringBytes : Z) (i : Z)
    (acc : gset T * bytes) (pos : Z) : result ((gset T * bytes) * Z) :=
  let '(members, previous) := acc in
  match ReadBytes payload pos maxStringBytes with
  | None => Err ErrInvalidFrame
  | Some (encoded, next) =>
      if (0 <? i) && (0 <=? bytes_compare previous encoded) then Err ErrInvalidFrame
      else match bound_unmarshal codec encoded with
      | Err e => Err (ErrWrap ErrSetInvalidCodec e)
      | Ok element =>
          match bound_marshal codec element with
          | Err _ => Err ErrSetInvalidCodec
          | Ok canonical =>
              if negb (bool_decide (canonical = encoded)) then Err ErrSetInvalidCodec
              else if bool_decide (element ∈ members) then Err ErrInvalidFrame
              else Ok (({[element]} ∪ members, encoded), next)
          end
      end
  end.

Section gset_unmarshal.
Context `{F : Flate}.

(** [unmarshalGSetWithCodec] *)
Definition unmarshalGSetWithCodec (data : bytes) (expectedTypeID : Z) (codec : boundElementCodec T)
    (limits : DecoderLimits) : result (gset T) :=
  match UnmarshalFrame data limits with
  | Err e => Err e
  | Ok decoded =>
      if negb (TypeID decoded =? expectedTypeID) ||
         negb (bool_decide (CodecID decoded = bound_id codec))
      then Err ErrSetCodecMismatch
      else match ReadUvarint (Payload decoded) 0 with
      | None => Err ErrInvalidFrame
      | Some (count, pos) =>
          if MaxElements limits <? count then Err ErrInvalidFrame
          else match read_loop (gsetStep codec (Payload decoded) (MaxStringBytes limits))
                       (S (length (Payload decoded))) 0 count pos (∅, []) with
          | Err e => Err e
          | Ok ((members, _), pos) =>
              if negb (pos =? len (Payload decoded)) then Err ErrInvalidFrame else Ok members
          end
      end
  end.

(** [unmarshalGSet] *)
Definition unmarshalGSet (data : bytes) (expectedTypeID : Z) (codec : ptr (ElementCodec T))
    (limits : DecoderLimits) : result (gset T) :=
  bound ← bindElementCodec codec; unmarshalGSetWithCodec data expectedTypeID bound limits.

(** [UnmarshalGSetDeltaWithLimits] *)
Definition UnmarshalGSetDeltaWithLimits (data : bytes) (codec : ptr (ElementCodec T))
    (limits : DecoderLimits) : result GSetDelta :=
  members ← unmarshalGSet data TypeIDGSetDelta codec limits; Ok (mkGSetDelta (Some members)).

(** [UnmarshalGSetDelta] *)
Definition UnmarshalGSetDelta (data : bytes) (codec : ptr (ElementCodec T)) : result GSetDelta :=
  UnmarshalGSetDeltaWithLimits data codec DefaultLimits.

(** [GSet.UnmarshalBinaryWithLimits] *)
Definition GSet_UnmarshalBinaryWithLimits (s : ptr GSet) (data : bytes) (limits : DecoderLimits)
    : ptr GSet * result unit :=
  match s with
  | None => (None, Err ErrNilGSet)
  | Some g =>
      match unmarshalGSetWithCodec data TypeIDGSetState (gs_codec g) limits with
      | Err e => (s, Err e)
      | Ok members => (Some (GSet_set g members), Ok tt)
      end
  end.

(** [GSet.UnmarshalBinary] *)
Definition GSet_UnmarshalBinary (s : ptr GSet) (data : bytes) : ptr GSet * result unit :=
  GSet_UnmarshalBinaryWithLimits s data DefaultLimits.
End gset_unmarshal.
End gset_model.

Arguments GSet T {_ _}.
Arguments GSetDelta T {_ _}.

Section gset_codec.
Context {T : Type} `{Countable T} (codec : boundElementCodec T).

(** An element with its encoding, within the string limit. *)
Definition member_ok (limits : DecoderLimits) (e : T * bytes) : Prop :=
  bound_marshal codec e.1 = Ok e.2 ∧ len e.2 <= MaxStringBytes limits.

(** The canonical payload for elements sorted by their encodings. *)
Definition gset_payload (l : list (T * bytes)) : bytes :=
  putUvarint (len l) ++ concat (bytes_enc <$> l.*2).

Lemma gsetEncode_iff limits order encoded :
  gsetEncode codec limits order = Ok encoded ↔
  ∃ l, l.*1 = order ∧ l.*2 = encoded ∧ Forall (member_ok limits) l.
Proof.
  revert encoded. induction order as [|x order IH]; intros encoded; simpl.
  - split; [intros [= <-]; by exists []|]. intros ([|[]] & ? & <- & _); by simplify_eq.
  - split.
    + destruct (bound_marshal codec x) as [b|] eqn:Eb; [|done]. guards.
      destruct (gsetEncode codec limits order) as [bs|]; [|done]. intros [= <-].
      destruct (proj1 (IH bs) eq_refl) as (l & <- & <- & Hl).
      exists ((x, b) :: l). by repeat constructor.
    + intros ([|[x' b] l] & [= -> <-] & <- & [[Hb Hlen] Hl]%Forall_cons). simpl in *.
      rewrite Hb. guard_false. by rewrite (proj2 (IH l.*2)) by eauto.
Qed.

Lemma gsetSize_iff previous encoded limits payloadSize n :
  StronglySorted (cmp_le bytes_compare) (option_list previous ++ encoded) →
  gsetSize previous encoded limits payloadSize = Ok n ↔
  increasing bytes_compare (option_list previous ++ encoded) ∧
  n = payloadSize + len (concat (bytes_enc <$> encoded)) ∧
  (encoded = [] ∨ n <= MaxPayload limits).
Proof.
  revert previous payloadSize. induction encoded as [|b encoded IH]; intros previous size Hs;
    rewrite ?fmap_cons; cbn [gsetSize concat].
  - simpl. rewrite len_nil, Z.add_0_r. split; [intros [= ->]|by intros (_ & -> & _)].
    split; [destruct previous; repeat constructor|]. auto.
  - assert (StronglySorted (cmp_le bytes_compare) (b :: encoded)) as Hs'
      by (destruct previous; simpl in Hs; [by apply StronglySorted_inv in Hs as []|done]).
    assert (increasing bytes_compare (option_list previous ++ b :: encoded) ↔
      previous ≠ Some b ∧ increasing bytes_compare (b :: encoded)) as ->.
    { destruct previous as [p|]; simpl in *; [|naive_solver].
      apply StronglySorted_inv in Hs as [_ [Hpb Hp]%Forall_cons]. unfold cmp_le in Hpb. split.
      - intros [Hi [Hlt _]%Forall_cons]%StronglySorted_inv. split; [|done]. intros [= ->].
        rewrite (cmp_refl bytes_compare) in Hlt. lia.
      - intros [Hne Hi]. constructor; [done|].
        assert (bytes_compare p b < 0) as Hlt.
        { assert (bytes_compare p b ≠ 0); [|lia]. intros ->%(cmp_eq bytes_compare). done. }
        constructor; [done|]. apply StronglySorted_inv in Hi as [_ Hi].
        eapply Forall_impl; [exact Hi|]. intros c Hc. by apply (cmp_trans bytes_compare p b c). }
    pose proof (len_nonneg (concat (bytes_enc <$> encoded))).
    rewrite len_app, len_bytes_enc. split.
    + case_bool_decide; [done|]. guards. rewrite (IH (Some b)) by done.
      intros (Hi & -> & Hn). split; [done|]. split; [lia|]. right.
      destruct Hn as [->|]; [simpl; rewrite len_nil|]; lia.
    + intros ([Hne Hi] & -> & [|Hn]); [done|]. rewrite bool_decide_false by done. guard_false.
      apply (IH (Some b)); [done|]. split; [done|]. split; [lia|]. right. lia.
Qed.

Lemma appendBytes_fold dst encoded :
  foldl appendBytes dst encoded = dst ++ concat (bytes_enc <$> encoded).
Proof.
  revert dst. induction encoded as [|b encoded IH]; intros dst; simpl; [by rewrite app_nil_r|].
  rewrite IH. unfold appendBytes, AppendUvarint, bytes_enc. by rewrite <-!app_assoc.
Qed.

(** What the encoder accepts and produces, for any order of the elements. *)
Lemma marshalGSetOrder_iff typeID order data :
  marshalGSetOrder typeID codec order DefaultLimits = Ok data ↔
  ∃ l, l.*1 ≡ₚ order ∧ increasing bytes_compare l.*2 ∧ Forall (member_ok DefaultLimits) l ∧
    len order <= MaxElements DefaultLimits ∧
    MarshalFrame (mkFrame typeID (bound_id codec) (gset_payload l) 0 false) = Ok data.
Proof.
  unfold marshalGSetOrder. cbv zeta.
  assert (∀ l n, n = len (gset_payload l) →
    MarshalFrameWithPayload typeID (bound_id codec) n (exactWriter (foldl appendBytes
      (AppendUvarint [] (len l.*2)) l.*2) n) =
    MarshalFrame (mkFrame typeID (bound_id codec) (gset_payload l) 0 false)) as Hw.
  { intros l n ->. rewrite appendBytes_fold, len_fmap. apply exactWriter_copy. }
  assert (∀ l, UvarintSize (len l.*2) + len (concat (bytes_enc <$> l.*2)) = len (gset_payload l)) as Hlen.
  { intros l. unfold gset_payload. by rewrite len_app, len_fmap. }
  split.
  - guards. destruct (gsetEncode codec DefaultLimits order) as [encoded|] eqn:He; [|done].
    apply gsetEncode_iff in He as (l0 & <- & <- & Hl0).
    destruct (fmap_perm_inv _ _ _ (sort_by_perm bytes_compare l0.*2)) as (l & Hsort & Hp).
    rewrite Hsort.
    pose proof (sort_by_sorted bytes_compare l0.*2) as Hs. rewrite Hsort in Hs.
    destruct (gsetSize _ _ _ _) as [n|] eqn:Hn; [|done].
    apply gsetSize_iff in Hn as (Hi & -> & _); [|done]. rewrite Hw by apply Hlen. intros Hm.
    exists l. split; [by rewrite Hp|]. split; [done|]. split; [by rewrite <-Hp|]. done.
  - intros (l & Hp & Hi & Hl & Hmax & Hm). guard_false.
    symmetry in Hp. apply fmap_perm_inv in Hp as (l0 & -> & Hp0).
    rewrite (proj2 (gsetEncode_iff DefaultLimits l0.*1 l0.*2))
      by (exists l0; split; [done|]; split; [done|]; by rewrite <-Hp0).
    rewrite (increasing_sort_by bytes_compare l.*2 l0.*2) by (done || by rewrite Hp0).
    pose proof (MarshalFrame_payload _ _ Hm) as Hpl. cbn [Payload] in Hpl.
    rewrite (proj2 (gsetSize_iff None l.*2 DefaultLimits (UvarintSize (len l.*2))
      (len (gset_payload l)) ltac:(simpl; by apply increasing_weaken))); [by rewrite Hw|].
    split; [done|]. split; [by rewrite Hlen|by right].
Qed.
End gset_codec.

Section gset_decode.
Context {T : Type} `{Countable T} (codec : boundElementCodec T).
Context (payload : bytes) (limits : DecoderLimits).

(** An element the decoder accepts after the elements [l]. *)
Definition next_member (l : list (T * bytes)) (e : T * bytes) : Prop :=
  member_ok codec limits e ∧ len_ok e.2 ∧ bound_unmarshal codec e.2 = Ok e.1 ∧
  ∀ b, last l.*2 = Some b → bytes_compare b e.2 < 0.

Definition gset_acc (l : list (T * bytes)) : gset T * bytes :=
  (list_to_set l.*1, default [] (last l.*2)).

Lemma accepted_members l :
  accepted next_member l ↔
  increasing bytes_compare l.*2 ∧
  Forall (λ e, member_ok codec limits e ∧ len_ok e.2 ∧ bound_unmarshal codec e.2 = Ok e.1) l.
Proof.
  split.
  - induction 1 as [|l e Hl [IH1 IH2] (He1 & He2 & He3 & He4)]; [by split; constructor|].
    rewrite fmap_app. simpl. split; [by apply increasing_snoc_iff; [apply _|]|].
    apply Forall_app. split; [done|]. by apply Forall_singleton.
  - induction l as [|e l IH] using rev_ind; intros [Hinc Hok]; [constructor|].
    rewrite fmap_app in Hinc. apply increasing_snoc_iff in Hinc as [Hinc Hlast]; [|apply _].
    apply Forall_app in Hok as [Hok He]. apply Forall_inv in He as (?&?&?).
    constructor; [by apply IH|]. done.
Qed.

(** Distinct encodings come from distinct elements. *)
Lemma members_NoDup l :
  increasing bytes_compare l.*2 → Forall (λ e, bound_marshal codec e.1 = Ok e.2) l → NoDup l.*1.
Proof.
  intros Hi%(increasing_NoDup bytes_compare) Hl. induction Hl as [|[x b] l Hx Hl IH]; [constructor|].
  simpl in *. apply NoDup_cons in Hi as [Hb Hi]. constructor; [|by apply IH].
  intros ([x' b'] & -> & Hin)%list_elem_of_fmap. simpl in *. apply Hb.
  rewrite Forall_forall in Hl. specialize (Hl _ Hin). simpl in Hl.
  apply list_elem_of_fmap. exists (x', b'). split; [simpl; congruence|done].
Qed.

Lemma accepted_fresh l e : accepted next_member l → next_member l e → e.1 ∉ l.*1.
Proof.
  intros Hl He. assert (accepted next_member (l ++ [e])) as [Hi Hok]%accepted_members by by constructor.
  assert (NoDup (l ++ [e]).*1) as Hnd.
  { apply members_NoDup; [done|]. eapply Forall_impl; [exact Hok|]. by intros ? [[? _] _]. }
  rewrite fmap_app in Hnd. apply NoDup_app in Hnd as (_ & Hd & _). intros Hin.
  apply (Hd _ Hin). by left.
Qed.

Lemma gset_acc_snoc l e : gset_acc (l ++ [e]) = ({[e.1]} ∪ (gset_acc l).1, e.2).
Proof.
  unfold gset_acc. rewrite !fmap_app. simpl. rewrite last_snoc. simpl. f_equal.
  rewrite list_to_set_app_L. set_solver.
Qed.

Lemma gsetStep_ok l e pos rest :
  accepted next_member l → next_member l e → remaining payload pos (bytes_enc e.2 ++ rest) →
  gsetStep codec payload (MaxStringBytes limits) (len l) (gset_acc l) pos =
    Ok (gset_acc (l ++ [e]), pos + len (bytes_enc e.2)).
Proof.
  intros Hl He Hr. pose proof (accepted_fresh l e Hl He) as Hfresh. rewrite gset_acc_snoc.
  destruct He as ([Hm Hmax] & Hok & Hu & Hlast). unfold gsetStep, gset_acc.
  apply (ReadBytes_ok _ _ (MaxStringBytes limits)) in Hr as [-> _]; [|done..].
  rewrite <-(len_fmap snd l), (proj2 (order_guard bytes_compare [] l.*2 e.2)) by done.
  rewrite Hu, Hm. rewrite bool_decide_true by done. simpl. rewrite bool_decide_false; [done|].
  by rewrite elem_of_list_to_set.
Qed.

Lemma gsetStep_inv l pos acc' pos' :
  accepted next_member l → 0 <= pos <= len payload →
  gsetStep codec payload (MaxStringBytes limits) (len l) (gset_acc l) pos = Ok (acc', pos') →
  ∃ e rest, next_member l e ∧ acc' = gset_acc (l ++ [e]) ∧ pos' = pos + len (bytes_enc e.2) ∧
    remaining payload pos (bytes_enc e.2 ++ rest).
Proof.
  intros Hl Hp. unfold gsetStep, gset_acc at 1.
  destruct (ReadBytes _ _ _) as [[b next]|] eqn:R; [|done].
  apply ReadBytes_inv in R as (Hok & Hmax & -> & rest & Hr & _).
  rewrite <-(len_fmap snd l). destruct (_ && _) eqn:G; [done|].
  rewrite (order_guard bytes_compare [] l.*2 b) in G.
  destruct (bound_unmarshal codec b) as [x|] eqn:Hu; [|done].
  destruct (bound_marshal codec x) as [b'|] eqn:Hm; [|done].
  destruct (negb _) eqn:G2; [done|]. breflect. subst b'. case_bool_decide; [done|].
  intros [= <- <-]. exists (x, b), rest. rewrite gset_acc_snoc. done.
Qed.
End gset_decode.

Section gset_theorems.
Context {T : Type} `{Countable T} `{F : Flate}.

(** A decoded set is the one whose canonical bytes are the payload. *)
Lemma unmarshalGSet_iff data typeID codec limits (members : gset T) :
  limits_int limits →
  unmarshalGSetWithCodec data typeID codec limits = Ok members ↔
  ∃ f l, UnmarshalFrame data limits = Ok f ∧ TypeID f = typeID ∧ CodecID f = bound_id codec ∧
    Payload f = gset_payload l ∧ members = list_to_set l.*1 ∧ len l <= MaxElements limits ∧
    accepted (next_member codec limits) l.
Proof.
  intros Hint. unfold unmarshalGSetWithCodec.
  destruct (UnmarshalFrame data limits) as [f|] eqn:Hf; [|naive_solver].
  pose proof (read_loop_iff (Payload f) (gsetStep codec (Payload f) (MaxStringBytes limits))
    (λ e, bytes_enc e.2) (next_member codec limits) gset_acc (λ e, bytes_enc_pos e.2)
    (gsetStep_ok codec (Payload f) limits) (gsetStep_inv codec (Payload f) limits)) as Hloop.
  assert (∀ l : list (T * bytes), (λ e, bytes_enc e.2) <$> l = bytes_enc <$> l.*2) as Hcat
    by (intros l; by rewrite <-list_fmap_compose).
  split.
  - destruct (_ || _) eqn:G; [done|]. breflect.
    destruct (ReadUvarint _ 0) as [[count pos]|] eqn:R; [|done].
    apply ReadUvarint_inv in R as (Hu & -> & r & [_ Hr1] & Hr2). unfold is_u64 in Hu.
    destruct (Z.ltb_spec (MaxElements limits) count); [done|].
    destruct (read_loop _ _ _ _ _ _) as [[[m prev] p]|] eqn:L; [|done].
    apply (Hloop count) in L as (l & rest & Hacc & <- & Habs & -> & Hr); [|lia|by destruct Hr2].
    destruct (negb _) eqn:G2; [done|]. breflect. intros [= ->]. injection Habs as -> ->.
    exists f, l. rewrite Hcat in *. do 3 (split; [done|]). split; [|done].
    pose proof (remaining_len _ _ _ Hr) as Hlr. rewrite len_app in Hlr.
    destruct rest as [|b rest]; [|rewrite len_cons in Hlr; pose proof (len_nonneg rest); lia].
    rewrite app_nil_r in Hr. destruct Hr2 as [_ Hr2], Hr as [_ Hr].
    change (slice_from (Payload f) 0) with (Payload f) in Hr1. rewrite Hr1. unfold gset_payload.
    by rewrite <-Hr2, Hr.
  - intros (f' & l & [= <-] & HT & HC & HP & -> & Hmax & Hacc). guard_false.
    assert (remaining (Payload f) 0 (putUvarint (len l) ++ concat (bytes_enc <$> l.*2) ++ [])) as Hr
      by (rewrite HP, app_nil_r; apply remaining_start).
    apply ReadUvarint_ok in Hr as [R Hr].
    2: { unfold is_u64, limits_int, maxInt in *. pose proof (len_nonneg l). lia. }
    rewrite R. guard_false. pose proof (remaining_app _ _ _ _ Hr) as Hend%remaining_nil.
    change (∅ : gset T, []) with (gset_acc (T:=T) []).
    rewrite (proj2 (Hloop (len l) _ (gset_acc l) (0 + UvarintSize (len l) +
      len (concat (bytes_enc <$> l.*2))) (len_nonneg l) (proj1 Hr))).
    + simpl. guard_false. done.
    + exists l, []. rewrite Hcat. done.
Qed.

(** The G-Set's canonical bytes. For an element codec that decodes what it
    encodes, a v1 state frame decodes to a set exactly when that set encodes to
    that frame, in whatever order its elements are visited: encoding loses
    nothing and is canonical. *)
Theorem GSet_codec (s r : GSet T) (order : list T) (data : bytes)
    (Hcodec : CodecOk (gs_codec s)) (Hsame : gs_codec r = gs_codec s)
    (Horder : order ≡ₚ elements (gs_elements s)) :
  marshalGSetOrder TypeIDGSetState (gs_codec s) order DefaultLimits = Ok data ↔
  (GSet_UnmarshalBinary (Some r) data = (Some (GSet_set r (gs_elements s)), Ok tt) ∧
   PeekFrameFormatVersion data DefaultLimits = Ok FormatVersion).
Proof.
  assert (GSet_UnmarshalBinary (Some r) data = (Some (GSet_set r (gs_elements s)), Ok tt) ↔
    unmarshalGSetWithCodec data TypeIDGSetState (gs_codec s) DefaultLimits =
      Ok (gs_elements s)) as ->.
  { unfold GSet_UnmarshalBinary, GSet_UnmarshalBinaryWithLimits, GSet_set. rewrite Hsame.
    destruct (unmarshalGSetWithCodec _ _ _ _); naive_solver. }
  rewrite marshalGSetOrder_iff, unmarshalGSet_iff by done. split.
  - intros (l & Hp & Hi & Hl & Hmax & Hm). apply unmarshal_MarshalFrame in Hm; [|done].
    split; [|by apply unmarshal_peek in Hm as [_ ->]]. eexists _, l. split; [exact Hm|].
    cbn [TypeID CodecID Payload]. do 3 (split; [done|]).
    rewrite Horder in Hp. split; [apply set_eq; intros x; by rewrite elem_of_list_to_set, Hp, elem_of_elements|].
    assert (len l = len order) as ->.
    { unfold len. f_equal. rewrite <-(length_fmap fst l), Hp. by rewrite Horder. }
    split; [done|]. apply accepted_members. split; [done|]. eapply Forall_impl; [exact Hl|].
    intros e [He1 He2]. split; [done|]. split; [by apply (limits_string_ok _ DefaultLimits)|].
    by apply codec_roundtrip.
  - intros [(f & l & Hf & HT & HC & HP & Hs & Hmax & [Hi Hok]%accepted_members) Hpeek].
    pose proof (unmarshal_peek _ _ _ Hf) as [_ Hpeek']. rewrite Hpeek in Hpeek'.
    injection Hpeek' as Hver. apply unmarshal_v1_marshal in Hf as (_ & _ & _ & Hm); [|done].
    rewrite HT, HC, HP in Hm.
    assert (l.*1 ≡ₚ order) as Hp.
    { rewrite Horder, Hs, elements_list_to_set; [done|]. apply (members_NoDup (gs_codec s)); [done|].
      eapply Forall_impl; [exact Hok|]. by intros ? [[? _] _]. }
    exists l. split; [done|]. split; [done|].
    split; [eapply Forall_impl; [exact Hok|]; by intros ? [? _]|]. split; [|done].
    unfold len in *. by rewrite <-Hp, length_fmap.
Qed.
End gset_theorems.

Lemma GSet_codec_witness :
  let s := mkGSet (T:=bytes) (str "a") raw_codec {[str "x"; str "y"]} in
  let r := mkGSet (T:=bytes) (str "b") raw_codec ∅ in
  @GSet_UnmarshalBinary bytes _ _ marker_flate (Some r) (sealed (GSet_MarshalBinary (Some s))) =
  (Some (GSet_set r {[str "x"; str "y"]}), Ok tt).
Proof.
  intros s r. refine (proj1 (proj1 (@GSet_codec bytes _ _ marker_flate s r
    (elements (gs_elements s)) (sealed (GSet_MarshalBinary (Some s))) raw_codec_ok eq_refl
    (reflexivity _)) _)). vm_compute. reflexivity.
Defined.

(** ** Replication *)

Section gset_replication.
Context {T : Type} `{Countable T}.

Lemma foldl_union (a : gset T) (l : list T) :
  foldl (λ acc element, {[element]} ∪ acc) a l = a ∪ list_to_set l.
Proof. revert a. induction l as [|x l IH]; intros a; simpl; [set_solver|]. rewrite IH. set_solver. Qed.

Lemma GSet_join_union (s : GSet T) (incoming : gset T) :
  GSet_join s incoming = GSet_set s (gs_elements s ∪ incoming).
Proof.
  unfold GSet_join, GSet_set. case_bool_decide as Hi.
  - subst. destruct s. simpl. f_equal. set_solver.
  - f_equal. rewrite foldl_union, list_to_set_elements_L. done.
Qed.

Lemma GSet_subsumes_spec (s : GSet T) (incoming : gset T) :
  GSet_subsumes s incoming = true ↔ incoming ⊆ gs_elements s.
Proof.
  unfold GSet_subsumes. rewrite forallb_forall. setoid_rewrite bool_decide_eq_true.
  setoid_rewrite <-list_elem_of_In. setoid_rewrite elem_of_elements. done.
Qed.

(** What a G-Set replica receives. *)
Inductive gset_msg := GSetStateMsg (o : GSet T) | GSetDeltaMsg (d : GSetDelta T).

Definition gset_receive (s : ptr (GSet T)) (m : gset_msg) : ptr (GSet T) * result unit :=
  match m with
  | GSetStateMsg o => GSet_Merge s (PObj o)
  | GSetDeltaMsg d => GSet_ApplyDelta s d
  end.

Definition gset_run (s : ptr (GSet T)) (ms : list gset_msg) : ptr (GSet T) * result unit :=
  foldl (λ '(s, r) m, let '(s, r') := gset_receive s m in (s, _ ← r; r')) (s, Ok tt) ms.

(** The elements a message carries to a replica whose codec is [id]; a message
    for another codec or a nil delta carries none. *)
Definition gset_msg_elements (id : bytes) (m : gset_msg) : option (gset T) :=
  match m with
  | GSetStateMsg o => if bool_decide (id = bound_id (gs_codec o)) then Some (gs_elements o) else None
  | GSetDeltaMsg d => gsd_elements d
  end.

Lemma gset_receive_union s m :
  (gset_receive (Some s) m).1 =
  Some (GSet_set s (gs_elements s ∪ default ∅ (gset_msg_elements (bound_id (gs_codec s)) m))) ∧
  is_ok (gset_receive (Some s) m).2 = bool_decide (is_Some (gset_msg_elements (bound_id (gs_codec s)) m)).
Proof.
  assert (GSet_set s (gs_elements s ∪ ∅) = s) as Hid.
  { destruct s. unfold GSet_set. simpl. f_equal. set_solver. }
  destruct m as [o|d]; simpl.
  - case_bool_decide; simpl; [by rewrite GSet_join_union|by rewrite Hid].
  - destruct (gsd_elements d) as [incoming|]; simpl; [|by rewrite Hid].
    destruct (GSet_subsumes s incoming) eqn:Hs; simpl; [|by rewrite GSet_join_union].
    apply GSet_subsumes_spec in Hs. split; [|done].
    replace (gs_elements s ∪ incoming) with (gs_elements s ∪ ∅) by set_solver. by rewrite Hid.
Qed.

(** G-Sets are unions. After any sequence of state merges and deltas a replica
    holds exactly its own elements and those of the accepted messages, so the
    order and the repetition of deliveries are irrelevant; a message for another
    codec or a nil delta is refused and changes nothing. *)
Theorem GSet_run_union (s : GSet T) (ms : list gset_msg) :
  ∃ r, gset_run (Some s) ms = (Some (GSet_set s (gs_elements s ∪
         ⋃ (default ∅ ∘ gset_msg_elements (bound_id (gs_codec s)) <$> ms))), r) ∧
    (is_ok r = true ↔ Forall (λ m, is_Some (gset_msg_elements (bound_id (gs_codec s)) m)) ms).
Proof.
  set (id := bound_id (gs_codec s)). induction ms as [|m ms IH] using rev_ind.
  - exists (Ok tt). split; [|by split]. unfold gset_run, GSet_set. simpl. destruct s. simpl.
    do 3 f_equal. set_solver.
  - destruct IH as (r & Hrun & Hr). unfold gset_run in *. rewrite foldl_app, Hrun. simpl.
    set (s' := GSet_set s _). pose proof (gset_receive_union s' m) as [Hm1 Hm2].
    change (bound_id (gs_codec s')) with id in *.
    destruct (gset_receive (Some s') m) as [s1 r1]. simpl in *. eexists. split.
    + f_equal. rewrite Hm1. unfold s', GSet_set. simpl. do 2 f_equal.
      rewrite fmap_app, union_list_app_L. simpl. set_solver.
    + rewrite Forall_app, Forall_singleton, <-Hr. destruct r; simpl; [|naive_solver].
      rewrite Hm2, bool_decide_eq_true. naive_solver.
Qed.
End gset_replication.
