(* ===== verification/ORSet.v ===== *)
(** * Observed-remove sets

    Models src/set/orset.go. [map[T]map[Tag]struct{}] is a [gmap] of [gset]s; the
    loops over maps are folds over their entries. A method that reads the
    physical clock takes the time as an argument.

    The per-instance lock order of [Merge] ([lockORSetMerge]) has no counterpart:
    a merge is one transition. A plan entry of the encoder carries its own tags,
    where the code keeps the tags of all entries in one array and a range of it
    per entry. *)

From S2P Require Import Prelude Tags Clock Lattice Wire Frame Codec GSet.

Section orset_model.
Context {T : Type} `{Countable T}.

Abbreviation adds_map := (gmap T (gset Tag)).

(** [ORSet] *)
Record ORSet := mkORSet {
  os_replicaID : bytes;
  os_clock : ptr HLC;
  os_codec : boundElementCodec T;
  os_elements : adds_map;
  os_tombstones : gset Tag
}.

(** [ORSetDelta] *)
Record ORSetDelta := mkORSetDelta { od_adds : adds_map; od_tombstones : gset Tag }.

(** [NewORSetFromClock] *)
Definition NewORSetFromClock (clockState : ClockState) (codec : ptr (ElementCodec T)) : result ORSet :=
  match bindElementCodec codec with
  | Err e => Err e
  | Ok bound =>
      match NewHLCFromState clockState with
      | Err e => Err e
      | Ok hlc => Ok (mkORSet (cs_ReplicaID clockState) (Some hlc) bound ∅ ∅)
      end
  end.

(** [NewORSet] *)
Definition NewORSet (replicaID : bytes) (codec : ptr (ElementCodec T)) : result ORSet :=
  NewORSetFromClock (mkClockState replicaID 0 0) codec.

(** [ORSet.ClockState] *)
Definition ORSet_ClockState (s : ptr ORSet) : ClockState :=
  match s with None => zeroClockState | Some o => HLC_Snapshot (os_clock o) end.

(** ** Tags of a state *)

(** The live tags in the order the nested maps yield them. *)
Definition live_tags (adds : adds_map) : list Tag :=
  concat ((λ '(_, tags), elements tags) <$> map_to_list adds).

(** [frontierForState] *)
Definition frontierForState (adds : adds_map) (tombstones : gset Tag) : gmap bytes Tag :=
  foldl frontier_step (foldl frontier_step ∅ (live_tags adds)) (elements tombstones).

(** [greatestStateTag] *)
Definition greatestStateTag (adds : adds_map) (tombstones : gset Tag) : option Tag :=
  foldl greatest_step (foldl greatest_step None (live_tags adds)) (elements tombstones).

(** [greatestFrontierTag] *)
Definition greatestFrontierTag (frontier : gmap bytes Tag) : option Tag :=
  foldl greatest_step None (map_to_list frontier).*2.

(** [ORSet.Frontier] *)
Definition ORSet_Frontier (s : ptr ORSet) : option (gmap bytes Tag) :=
  (λ o, frontierForState (os_elements o) (os_tombstones o)) <$> s.

(** [tagsToSortedSlice] *)
Definition tagsToSortedSlice (tags : gset Tag) : list Tag := sort_by Compare (elements tags).

(** [ORSet.TombstoneTags] *)
Definition ORSet_TombstoneTags (s : ptr ORSet) : list Tag :=
  match s with None => [] | Some o => tagsToSortedSlice (os_tombstones o) end.

(** ** Validation *)

(** [validateState] *)
Definition validateState (adds : adds_map) (tombstones : gset Tag) : result unit :=
  if forallb Valid (live_tags adds) && forallb Valid (elements tombstones)
  then Ok tt else Err ErrSetInvalidDelta.

(** The loops of [validateDeltaState] over [seen]. *)
Fixpoint seen_loop (seen : gset Tag) (tags : list Tag) : result (gset Tag) :=
  match tags with
  | [] => Ok seen
  | tag :: tags' =>
      if bool_decide (tag ∈ seen) then Err ErrSetInvalidDelta else seen_loop ({[tag]} ∪ seen) tags'
  end.

(** [validateDeltaState] *)
Definition validateDeltaState (adds : adds_map) (tombstones : gset Tag) : result unit :=
  match validateState adds tombstones with
  | Err e => Err e
  | Ok _ =>
      let trackTags := bool_decide (1 < size adds)%nat ||
        (bool_decide (0 < size adds)%nat && bool_decide (0 < size tombstones)%nat) in
      if negb trackTags then Ok tt
      else match seen_loop ∅ (live_tags adds) with
           | Err e => Err e
           | Ok seen =>
               match seen_loop seen (elements tombstones) with
               | Err e => Err e
               | Ok _ => Ok tt
               end
           end
  end.

(** [validFrontier] *)
Definition validFrontier (frontier : gmap bytes Tag) : bool :=
  forallb (λ '(replicaID, tag),
    negb (bool_decide (replicaID = [])) && bool_decide (replicaID = ReplicaID tag) && Valid tag)
    (map_to_list frontier).

(** ** Joins *)

(** The body of the add loop of [joinState]. *)
Definition join_tag (tombstones : gset Tag) (element : T) (adds : adds_map) (tag : Tag) : adds_map :=
  if bool_decide (tag ∈ tombstones) then adds
  else <[element := {[tag]} ∪ default ∅ (adds !! element)]> adds.

Definition join_adds (tombstones : gset Tag) (adds : adds_map) (source : list (T * gset Tag)) : adds_map :=
  foldl (λ adds '(element, tags), foldl (join_tag tombstones element) adds (elements tags)) adds source.

(** The pruning loop of [joinState]: tombstoned tags go, then empty elements. *)
Definition prune_tags (tombstones tags : gset Tag) : option (gset Tag) :=
  let tags := filter (.∉ tombstones) tags in
  if bool_decide (tags = ∅) then None else Some tags.

Definition prune_adds (tombstones : gset Tag) (adds : adds_map) : adds_map :=
  omap (prune_tags tombstones) adds.

(** [joinState], on the pair of maps it updates. *)
Definition joinState (destination source : adds_map * gset Tag) : adds_map * gset Tag :=
  let '(destinationAdds, destinationTombstones) := destination in
  let '(sourceAdds, sourceTombstones) := source in
  let tombstones := foldl (λ acc tag, {[tag]} ∪ acc) destinationTombstones (elements sourceTombstones) in
  let adds := join_adds tombstones destinationAdds (map_to_list sourceAdds) in
  if bool_decide (size sourceTombstones = 0%nat) then (adds, tombstones)
  else (prune_adds tombstones adds, tombstones).

(** [subsumesState] *)
Definition subsumesState (destination source : adds_map * gset Tag) : bool :=
  let '(destinationAdds, destinationTombstones) := destination in
  let '(sourceAdds, sourceTombstones) := source in
  forallb (λ tag, bool_decide (tag ∈ destinationTombstones)) (elements sourceTombstones) &&
  forallb (λ '(element, tags),
    let destinationTags := default ∅ (destinationAdds !! element) in
    forallb (λ tag, bool_decide (tag ∈ destinationTombstones) || bool_decide (tag ∈ destinationTags))
      (elements tags)) (map_to_list sourceAdds).

(** ** Operations *)

Definition os_state (o : ORSet) : adds_map * gset Tag := (os_elements o, os_tombstones o).
Definition od_state (d : ORSetDelta) : adds_map * gset Tag := (od_adds d, od_tombstones d).

Definition os_with (o : ORSet) (hlc : ptr HLC) (state : adds_map * gset Tag) : ORSet :=
  mkORSet (os_replicaID o) hlc (os_codec o) state.1 state.2.

(** [ORSet.Add] *)
Definition ORSet_Add (s : ptr ORSet) (element : T) (now : option Z) : ptr ORSet * result ORSetDelta :=
  match s with
  | None => (None, Err ErrNilORSet)
  | Some o =>
      match Now (os_clock o) now with
      | (hlc, Err e) => (Some (os_with o hlc (os_state o)), Err e)
      | (hlc, Ok tag) =>
          if bool_decide (tag ∈ os_tombstones o)
          then (Some (os_with o hlc (os_state o)), Err ErrSetInvalidDelta)
          else
            let tags := {[tag]} ∪ default ∅ (os_elements o !! element) in
            (Some (os_with o hlc (<[element := tags]> (os_elements o), os_tombstones o)),
             Ok (mkORSetDelta {[element := {[tag]}]} ∅))
      end
  end.

(** [ORSet.Remove] *)
Definition ORSet_Remove (s : ptr ORSet) (element : T) : ptr ORSet * result ORSetDelta :=
  match s with
  | None => (None, Err ErrNilORSet)
  | Some o =>
      let observed := default ∅ (os_elements o !! element) in
      if bool_decide (size observed = 0%nat) then (s, Ok (mkORSetDelta ∅ ∅))
      else
        let tombstones := foldl (λ acc tag, {[tag]} ∪ acc) (os_tombstones o) (elements observed) in
        (Some (os_with o (os_clock o) (delete element (os_elements o), tombstones)),
         Ok (mkORSetDelta ∅ observed))
  end.

(** [ORSet.Compact] *)
Definition ORSet_Compact (s : ptr ORSet) (stableFrontier : gmap bytes Tag) : ptr ORSet * result Z :=
  match s with
  | None => (None, Err ErrNilORSet)
  | Some o =>
      if negb (validFrontier stableFrontier) then (s, Err ErrSetInvalidFrontier)
      else
        let stable tag := match stableFrontier !! ReplicaID tag with
          | Some acknowledged => Compare tag acknowledged <=? 0
          | None => false
          end in
        (Some (os_with o (os_clock o)
           (os_elements o, filter (λ tag, stable tag = false) (os_tombstones o))),
         Ok (Z.of_nat (size (filter (λ tag, stable tag = true) (os_tombstones o)))))
  end.

(** The loop of [ORSet.CompactTombstones]. *)
Definition compact_step (acc : gset Tag * Z) (tag : Tag) : gset Tag * Z :=
  let '(tombstones, removed) := acc in
  if bool_decide (tag ∈ tombstones) then (tombstones ∖ {[tag]}, removed + 1)
  else (tombstones, removed).

(** [ORSet.CompactTombstones] *)
Definition ORSet_CompactTombstones (s : ptr ORSet) (acknowledged : list Tag) : ptr ORSet * result Z :=
  match s with
  | None => (None, Err ErrNilORSet)
  | Some o =>
      if negb (forallb Valid acknowledged) then (s, Err ErrSetInvalidFrontier)
      else
        let '(tombstones, removed) := foldl compact_step (os_tombstones o, 0) acknowledged in
        (Some (os_with o (os_clock o) (os_elements o, tombstones)), Ok removed)
  end.

(** [ORSet.Contains] *)
Definition ORSet_Contains (s : ptr ORSet) (element : T) : bool :=
  match s with
  | None => false
  | Some o => bool_decide (0 < size (default ∅ (os_elements o !! element)))%nat
  end.

(** [ORSet.Elements], up to order *)
Definition ORSet_Elements (s : ptr ORSet) : list T :=
  match s with None => [] | Some o => (map_to_list (os_elements o)).*1 end.

(** The part [Merge] and [ApplyDelta] share: skip what is already represented,
    else witness the greatest tag and join. *)
Definition ORSet_receive (o : ORSet) (source : adds_map * gset Tag) (now : option Z)
    : ptr ORSet * result unit :=
  if subsumesState (os_state o) source then (Some o, Ok tt)
  else match greatestStateTag source.1 source.2 with
  | None => (Some (os_with o (os_clock o) (joinState (os_state o) source)), Ok tt)
  | Some tag =>
      match Witness (os_clock o) tag now with
      | (hlc, Err e) => (Some (os_with o hlc (os_state o)), Err e)
      | (hlc, Ok _) => (Some (os_with o hlc (joinState (os_state o) source)), Ok tt)
      end
  end.

(** [ORSet.Merge] *)
Definition ORSet_Merge (s : ptr ORSet) (other : peer ORSet) (now : option Z) : ptr ORSet * result unit :=
  match s, other with
  | None, _ | _, PNil => (s, Err ErrNilORSet)
  | Some o, PSelf => (s, Ok tt)
  | Some o, PObj source =>
      if negb (bool_decide (bound_id (os_codec o) = bound_id (os_codec source)))
      then (s, Err ErrSetCodecMismatch)
      else match validateState (os_elements source) (os_tombstones source) with
           | Err e => (s, Err e)
           | Ok _ => ORSet_receive o (os_state source) now
           end
  end.

(** [ORSet.ApplyDelta] *)
Definition ORSet_ApplyDelta (s : ptr ORSet) (delta : ORSetDelta) (now : option Z)
    : ptr ORSet * result unit :=
  match s with
  | None => (None, Err ErrNilORSet)
  | Some o =>
      match validateDeltaState (od_adds delta) (od_tombstones delta) with
      | Err e => (s, Err e)
      | Ok _ => ORSet_receive o (od_state delta) now
      end
  end.

(** [ORSetDelta.Merge] *)
Definition ORSetDelta_Merge (d other : ORSetDelta) : result ORSetDelta :=
  _ ← validateDeltaState (od_adds d) (od_tombstones d);
  _ ← validateDeltaState (od_adds other) (od_tombstones other);
  let '(adds, tombstones) := joinState (od_state d) (od_state other) in
  Ok (mkORSetDelta adds tombstones).

(** [ORSet.State] *)
Definition ORSet_State (s : ptr ORSet) : StateSnapshot :=
  match s with
  | None => mkSnapshot (str "orset") [] 0 0
  | Some o => mkSnapshot (str "orset") (os_replicaID o) (Z.of_nat (size (os_elements o)))
                (Z.of_nat (size (os_tombstones o)))
  end.
End orset_model.

Arguments joinState : simpl never.
Arguments ORSet T {_ _}.
Arguments ORSetDelta T {_ _}.

(** ** The lattice of states *)

Section orset_lattice.
Context {T : Type} `{Countable T}.
Abbreviation adds_map := (gmap T (gset Tag)).
Abbreviation state := (adds_map * gset Tag)%type.

(** Tag [t] keeps element [e] in the set. *)
Definition live (adds : adds_map) (e : T) (t : Tag) : Prop := t ∈ default ∅ (adds !! e).

(** No element without tags. *)
Definition no_empty (adds : adds_map) : Prop := map_Forall (λ _ tags, tags ≠ ∅) adds.

(** States as replicas hold them: no element without tags, no tombstoned live tag. *)
Definition st_wf (s : state) : Prop := no_empty s.1 ∧ ∀ e t, live s.1 e t → t ∉ s.2.

Lemma adds_ext (a b : adds_map) :
  no_empty a → no_empty b → (∀ e t, live a e t ↔ live b e t) → a = b.
Proof.
  intros Ha Hb Heq. apply map_eq. intros e. specialize (Heq e). unfold live in Heq.
  specialize (Ha e). specialize (Hb e).
  destruct (a !! e) as [x|], (b !! e) as [y|]; simpl in *; [| | |done].
  - f_equal. by apply set_eq.
  - exfalso. apply (Ha x eq_refl). apply set_eq. set_solver.
  - exfalso. apply (Hb y eq_refl). apply set_eq. set_solver.
Qed.

Lemma live_join_tag tombs e (a : adds_map) tag e' t :
  live (join_tag tombs e a tag) e' t ↔ live a e' t ∨ (e' = e ∧ t = tag ∧ tag ∉ tombs).
Proof.
  unfold join_tag, live. case_bool_decide; [naive_solver|]. rewrite lookup_insert.
  case_decide; simpl; [subst|naive_solver]. set_solver.
Qed.

Lemma live_join_tags tombs e (a : adds_map) tags e' t :
  live (foldl (join_tag tombs e) a tags) e' t ↔ live a e' t ∨ (e' = e ∧ t ∈ tags ∧ t ∉ tombs).
Proof.
  revert a. induction tags as [|tag tags IH]; intros a; simpl; [set_solver|].
  rewrite IH, live_join_tag, elem_of_cons. naive_solver.
Qed.

Lemma live_join_adds tombs (a : adds_map) source e t :
  live (join_adds tombs a source) e t ↔
  live a e t ∨ ((t ∉ tombs) ∧ ∃ tags, (e, tags) ∈ source ∧ t ∈ tags).
Proof.
  revert a. unfold join_adds. induction source as [|[e0 tags0] source IH]; intros a; simpl; [set_solver|].
  rewrite IH, live_join_tags, elem_of_elements. setoid_rewrite elem_of_cons. naive_solver.
Qed.

Lemma no_empty_join_tag tombs e (a : adds_map) tag : no_empty a → no_empty (join_tag tombs e a tag).
Proof.
  intros Ha. unfold join_tag. case_bool_decide; [done|]. apply map_Forall_insert_2; [set_solver|done].
Qed.

Lemma no_empty_join_adds tombs (a : adds_map) source : no_empty a → no_empty (join_adds tombs a source).
Proof.
  revert a. unfold join_adds. induction source as [|[e tags] source IH]; intros a Ha; simpl; [done|].
  apply IH. clear IH. revert a Ha. induction (elements tags) as [|tag l IH]; simpl; [done|].
  intros a Ha. by apply IH, no_empty_join_tag.
Qed.

Lemma live_map_to_list (a : adds_map) e t :
  live a e t ↔ ∃ tags, (e, tags) ∈ map_to_list a ∧ t ∈ tags.
Proof.
  unfold live. setoid_rewrite elem_of_map_to_list. destruct (a !! e) as [tags|]; simpl; set_solver.
Qed.

Lemma live_prune tombs (a : adds_map) e t : live (prune_adds tombs a) e t ↔ live a e t ∧ t ∉ tombs.
Proof.
  unfold live, prune_adds. rewrite lookup_omap. destruct (a !! e) as [tags|]; simpl; [|set_solver].
  unfold prune_tags. case_bool_decide as Hf; simpl; [|set_solver].
  split; [set_solver|]. intros Ht. assert (t ∈ filter (.∉ tombs) tags) by set_solver. set_solver.
Qed.

Lemma no_empty_prune tombs (a : adds_map) : no_empty (prune_adds tombs a).
Proof.
  intros e tags. unfold prune_adds. rewrite lookup_omap. intros (tags' & _ & Hp)%bind_Some.
  unfold prune_tags in Hp. case_bool_decide; [done|]. by injection Hp as <-.
Qed.

Lemma joinState_tombs (d s : state) : (joinState d s).2 = d.2 ∪ s.2.
Proof.
  destruct d as [da dt], s as [sa ts]. unfold joinState. rewrite foldl_union, list_to_set_elements_L.
  by case_bool_decide.
Qed.

Lemma joinState_live (d s : state) e t :
  st_wf d → live (joinState d s).1 e t ↔ (live d.1 e t ∨ live s.1 e t) ∧ t ∉ d.2 ∪ s.2.
Proof.
  destruct d as [da dt], s as [sa ts]. intros [_ Hd]. unfold joinState.
  rewrite foldl_union, list_to_set_elements_L. simpl in *.
  case_bool_decide as Hs; simpl; rewrite ?live_prune, live_join_adds, <-live_map_to_list.
  - apply size_empty_inv, leibniz_equiv in Hs as ->. specialize (Hd e t). set_solver.
  - naive_solver.
Qed.

Lemma joinState_wf (d s : state) : st_wf d → st_wf (joinState d s).
Proof.
  intros Hd. split.
  - destruct d as [da dt], s as [sa ts], Hd as [Hd _]. unfold joinState.
    case_bool_decide; simpl; [by apply no_empty_join_adds|apply no_empty_prune].
  - intros e t. rewrite joinState_live, joinState_tombs by done. naive_solver.
Qed.

Lemma st_ext (a b : state) :
  st_wf a → st_wf b → (∀ e t, live a.1 e t ↔ live b.1 e t) → a.2 = b.2 → a = b.
Proof.
  destruct a as [aa ta], b as [ab tb]. simpl. intros [Ha _] [Hb _] Hl ->. f_equal. by apply adds_ext.
Qed.

(** The join of states, on well-formed states, is a semilattice with equality. *)
#[export] Instance orset_lattice : Lattice st_wf (=) joinState.
Proof.
  split.
  - apply _.
  - intros. by apply joinState_wf.
  - intros x x' y y' _ _ _ _ -> ->. done.
  - intros x y Hx Hy. apply st_ext; [by apply joinState_wf..| |].
    + intros e t. rewrite !joinState_live by done. set_solver.
    + rewrite !joinState_tombs. set_solver.
  - intros x y z Hx Hy Hz.
    apply st_ext; [by repeat apply joinState_wf|by apply joinState_wf| |].
    + intros e t. rewrite !joinState_live, !joinState_tombs by (done || by apply joinState_wf). set_solver.
    + rewrite !joinState_tombs. set_solver.
  - intros x Hx. apply st_ext; [by apply joinState_wf|done| |].
    + intros e t. rewrite joinState_live by done. destruct Hx as [_ Hx]. specialize (Hx e t). set_solver.
    + rewrite joinState_tombs. set_solver.
Qed.

Lemma subsumesState_spec (d s : state) :
  subsumesState d s = true ↔ s.2 ⊆ d.2 ∧ ∀ e t, live s.1 e t → t ∈ d.2 ∨ live d.1 e t.
Proof.
  destruct d as [da dt], s as [sa ts]. unfold subsumesState.
  rewrite andb_true_iff, !forallb_forall. setoid_rewrite <-list_elem_of_In.
  setoid_rewrite elem_of_elements. setoid_rewrite bool_decide_eq_true.
  setoid_rewrite live_map_to_list at 1. apply and_iff_compat_l. split.
  - intros Hs e t (tags & Hin & Ht). specialize (Hs _ Hin). rewrite forallb_forall in Hs.
    specialize (Hs t). rewrite <-list_elem_of_In, elem_of_elements, orb_true_iff, !bool_decide_eq_true in Hs.
    by apply Hs.
  - intros Hs [e tags] Hin. apply forallb_forall. intros t. rewrite <-list_elem_of_In, elem_of_elements.
    rewrite orb_true_iff, !bool_decide_eq_true. intros Ht. apply (Hs e t). eauto.
Qed.

(** The fast path of [Merge] and [ApplyDelta] skips joins that change nothing. *)
Lemma subsumesState_join (d s : state) : st_wf d → subsumesState d s = true → joinState d s = d.
Proof.
  intros Hd [Ht Hl]%subsumesState_spec. apply st_ext; [by apply joinState_wf|done| |].
  - intros e t. rewrite joinState_live by done. destruct Hd as [_ Hd].
    specialize (Hd e t). specialize (Hl e t). set_solver.
  - rewrite joinState_tombs. set_solver.
Qed.
End orset_lattice.

(** ** Tags and the clock *)

Section orset_invariant.
Context {T : Type} `{Countable T}.
Abbreviation state := (gmap T (gset Tag) * gset Tag)%type.

(** The tags a state knows, live or removed. *)
Definition known (s : state) (t : Tag) : Prop := (∃ e, live s.1 e t) ∨ t ∈ s.2.

Lemma elem_of_live_tags (adds : gmap T (gset Tag)) t : t ∈ live_tags adds ↔ ∃ e, live adds e t.
Proof.
  unfold live_tags. rewrite list_elem_of_In, in_concat. setoid_rewrite <-list_elem_of_In.
  setoid_rewrite list_elem_of_fmap. setoid_rewrite live_map_to_list. split.
  - intros (l & ([e tags] & -> & Hin) & Ht). exists e, tags. by rewrite <-elem_of_elements.
  - intros (e & tags & Hin & Ht). exists (elements tags). rewrite elem_of_elements.
    split; [|done]. by exists (e, tags).
Qed.

Lemma known_tags (s : state) t : known s t ↔ t ∈ live_tags s.1 ++ elements s.2.
Proof. unfold known. by rewrite elem_of_app, elem_of_live_tags, elem_of_elements. Qed.

(** [greatestStateTag] finds a known tag that no known tag exceeds. *)
Lemma greatestStateTag_spec (s : state) :
  match greatestStateTag s.1 s.2 with
  | None => ∀ t, ¬ known s t
  | Some m => known s m ∧ ∀ t, known s t → Compare t m <= 0
  end.
Proof.
  unfold greatestStateTag. rewrite <-foldl_app.
  pose proof (greatest_fold None (live_tags s.1 ++ elements s.2)) as Hg.
  destruct (foldl _ _ _) as [m|]; setoid_rewrite known_tags.
  - destruct Hg as [[|Hm] Hmax]; [done|]. split; [done|]. intros t Ht. apply Hmax. by right.
  - destruct Hg as [_ ->]. set_solver.
Qed.

Lemma known_join (d s : state) t : st_wf d → known (joinState d s) t → known d t ∨ known s t.
Proof.
  intros Hd. unfold known. rewrite joinState_tombs. setoid_rewrite joinState_live; [|done]. set_solver.
Qed.

(** Every known tag is a valid mutation identifier. *)
Definition tags_ok (s : state) : Prop := ∀ t, known s t → Valid t = true ∧ tag_wf t.

(** The clock is not behind any known tag. *)
Definition clock_covers (hlc : ptr HLC) (s : state) : Prop :=
  match hlc with
  | None => False
  | Some h => hlc_wf h ∧ ∀ t, known s t → ts_le t (hlc_tag h)
  end.

(** The invariant of a replica. *)
Definition orset_wf (o : ORSet T) : Prop :=
  st_wf (os_state o) ∧ tags_ok (os_state o) ∧ clock_covers (os_clock o) (os_state o).

(** The clock keeps its identity and does not go back. *)
Definition clock_advances (c c' : ptr HLC) : Prop :=
  ∃ h h', c = Some h ∧ c' = Some h' ∧ replicaID h' = replicaID h ∧ ts_le (hlc_tag h) (hlc_tag h').

Lemma clock_advances_refl hlc (s : state) : clock_covers hlc s → clock_advances hlc hlc.
Proof. destruct hlc as [h|]; [|done]. intros _. exists h, h. unfold ts_le. split_and!; [done..|]. lia. Qed.

Lemma validateState_Ok (s : state) :
  validateState s.1 s.2 = Ok tt ↔ ∀ t, known s t → Valid t = true.
Proof.
  unfold validateState. setoid_rewrite known_tags. setoid_rewrite elem_of_app.
  destruct (forallb Valid (live_tags s.1) && forallb Valid (elements s.2)) eqn:E.
  - apply andb_true_iff in E as [E1 E2]. rewrite forallb_forall in E1, E2.
    split; [|done]. intros _ t [Ht|Ht]; [apply E1|apply E2]; by apply list_elem_of_In.
  - split; [done|]. intros Hall. apply not_true_iff_false in E. contradict E.
    apply andb_true_iff. rewrite !forallb_forall. setoid_rewrite <-list_elem_of_In. split; auto.
Qed.

Lemma clock_covers_advance h h1 (s s' : state) :
  clock_covers (Some h) s → hlc_wf h1 → ts_le (hlc_tag h) (hlc_tag h1) →
  (∀ t, known s' t → known s t ∨ ts_le t (hlc_tag h1)) → clock_covers (Some h1) s'.
Proof.
  intros [_ Hc] Hwf Hle Hk. split; [done|]. intros t [Ht|Ht]%Hk; [|done].
  specialize (Hc t Ht). unfold ts_le in *. lia.
Qed.

Lemma os_state_with (o : ORSet T) hlc (s : state) : os_state (os_with o hlc s) = s.
Proof. by destruct s. Qed.

Lemma orset_wf_with (o : ORSet T) hlc (s : state) :
  st_wf s → tags_ok s → clock_covers hlc s → orset_wf (os_with o hlc s).
Proof. unfold orset_wf. by rewrite os_state_with. Qed.

(** Receiving a well-formed state keeps the invariant; when it succeeds the new
    state is the join, and when it fails nothing changes. *)
Lemma ORSet_receive_spec (o : ORSet T) (source : state) now :
  orset_wf o → tags_ok source → now_wf now →
  ∃ o' r, ORSet_receive o source now = (Some o', r) ∧ orset_wf o' ∧
    clock_advances (os_clock o) (os_clock o') ∧
    match r with
    | Ok _ => os_state o' = joinState (os_state o) source
    | Err e => o' = o ∧ e = ErrClockExhausted ∧ exhausted (os_clock o) now (known source)
    end.
Proof.
  intros (Hst & Htags & Hclk) Hsrc Hnow. unfold ORSet_receive.
  destruct (subsumesState (os_state o) source) eqn:Hsub.
  { eexists _, _. split; [done|]. split; [done|].
    split; [by eapply clock_advances_refl|]. symmetry. by apply subsumesState_join. }
  assert (st_wf (joinState (os_state o) source)) as Hst' by by apply joinState_wf.
  assert (tags_ok (joinState (os_state o) source)) as Htags'.
  { intros t [Ht|Ht]%known_join; [by apply Htags|by apply Hsrc|done]. }
  pose proof (greatestStateTag_spec source) as Hg. destruct (os_clock o) as [h|] eqn:Hh; [|done].
  destruct (greatestStateTag source.1 source.2) as [m|].
  - destruct Hg as [Hm Hmax]. destruct (Hsrc m Hm) as [Hval Hmwf].
    destruct (Witness (Some h) m now) as [h1 [[]|e]] eqn:Hw.
    + apply Witness_spec in Hw as (h2 & -> & Hwf2 & Hid & Hlt & Hm2); [|by destruct Hclk|done..].
      eexists _, _. split; [done|]. rewrite os_state_with. split.
      2: { split; [|done]. exists h, h2. split_and!; [done..|]. unfold ts_le, ts_lt in *. lia. }
      apply orset_wf_with; [done..|].
      eapply clock_covers_advance; [exact Hclk|done|unfold ts_le, ts_lt in *; lia|].
      intros t [Ht|Ht]%known_join; [by left| |done]. right. specialize (Hmax t Ht).
      apply ts_le_Compare in Hmax. unfold ts_le, ts_lt in *. lia.
    + apply Witness_refused in Hw as (-> & -> & Hex); [|done]. eexists _, _. split; [done|].
      assert (os_with o (Some h) (os_state o) = o) as -> by (rewrite <-Hh; by destruct o).
      split; [by rewrite <-Hh in Hclk|]. rewrite Hh. split; [by eapply clock_advances_refl|].
      split; [done|]. split; [done|]. eapply exhausted_mono; [|exact Hex]. by intros t ->.
  - eexists _, _. split; [done|]. rewrite os_state_with.
    split; [|by split; [eapply clock_advances_refl|]]. apply orset_wf_with; [done..|].
    eapply clock_covers_advance; [exact Hclk|by destruct Hclk|unfold ts_le; lia|].
    intros t [Ht|Ht]%known_join; [by left|by destruct (Hg t)|done].
Qed.
End orset_invariant.

Section orset_theorems.
Context {T : Type} `{Countable T}.
Abbreviation state := (gmap T (gset Tag) * gset Tag)%type.

Lemma ORSet_Contains_live (o : ORSet T) e :
  ORSet_Contains (Some o) e = true ↔ ∃ t, live (os_elements o) e t.
Proof.
  simpl. unfold live. rewrite bool_decide_eq_true. split.
  - intros Hs. apply size_pos_elem_of in Hs. done.
  - intros [t Ht]. destruct (decide (size (default ∅ (os_elements o !! e)) = 0%nat)) as [Hz|]; [|lia].
    apply size_empty_inv in Hz. set_solver.
Qed.

Lemma known_singleton (e : T) tag t : known ({[e := {[tag]}]}, ∅) t ↔ t = tag.
Proof.
  unfold known, live. simpl. setoid_rewrite lookup_singleton. split.
  - intros [[e' Ht]|Ht]; [case_decide|]; set_solver.
  - intros ->. left. exists e. rewrite decide_True by done. set_solver.
Qed.

(** The states of [Add] and its delta. *)
Lemma ORSet_Add_spec (o : ORSet T) e now :
  orset_wf o → now_wf now →
  match ORSet_Add (Some o) e now with
  | (Some o', Ok d) =>
      ∃ tag, d = mkORSetDelta {[e := {[tag]}]} ∅ ∧ ReplicaID <$> Some tag = replicaID <$> os_clock o ∧
        Valid tag = true ∧ tag_wf tag ∧ ¬ known (os_state o) tag ∧
        (∀ t, known (os_state o) t → Compare t tag < 0) ∧
        os_state o' = joinState (os_state o) (od_state d) ∧ orset_wf o' ∧
        ∃ h h', os_clock o = Some h ∧ os_clock o' = Some h' ∧ replicaID h' = replicaID h ∧
          tag = hlc_tag h' ∧ ts_lt (hlc_tag h) tag
  | (Some o', Err err) => o' = o ∧ err = ErrClockExhausted ∧ exhausted (os_clock o) now (λ _, False)
  | (None, _) => False
  end.
Proof.
  intros (Hst & Htags & Hclk) Hnow. unfold ORSet_Add.
  destruct (os_clock o) as [h|] eqn:Hh; [|done].
  destruct (Now (Some h) now) as [h1 [tag|err]] eqn:Hn.
  - apply Now_spec in Hn as (h2 & -> & Hwf2 & -> & Hid & Hlt); [|by destruct Hclk|done].
    assert (∀ t, known (os_state o) t → Compare t (hlc_tag h2) < 0) as Hfresh.
    { intros t Ht. apply ts_lt_Compare. destruct Hclk as [_ Hc]. specialize (Hc t Ht).
      by eapply ts_le_lt_trans. }
    assert (¬ known (os_state o) (hlc_tag h2)) as Hnew.
    { intros Hk%Hfresh. rewrite (cmp_refl Compare) in Hk. lia. }
    rewrite bool_decide_false by (intros Hin; apply Hnew; by right).
    assert (Valid (hlc_tag h2) = true ∧ tag_wf (hlc_tag h2)) as [Hv Hw] by (destruct Hwf2 as (?&?&?); by split).
    set (tag := hlc_tag h2) in *.
    assert ((<[e := {[tag]} ∪ default ∅ (os_elements o !! e)]> (os_elements o), os_tombstones o) =
      joinState (os_state o) ({[e := {[tag]}]}, ∅)) as Hjoin.
    { unfold joinState, os_state. rewrite elements_empty, bool_decide_true by done. simpl.
      unfold join_adds. rewrite map_to_list_singleton. simpl. rewrite elements_singleton. simpl.
      unfold join_tag. by rewrite bool_decide_false by (intros Hin; apply Hnew; by right). }
    exists tag. split; [done|]. split; [by simpl; f_equal|]. do 4 (split; [done|]).
    rewrite Hjoin, os_state_with. split; [done|]. split.
    2: by exists h, h2.
    apply orset_wf_with; [by apply joinState_wf| |].
    + intros t [Ht|Ht]%known_join; [by apply Htags| |done]. by apply known_singleton in Ht as ->.
    + eapply clock_covers_advance; [exact Hclk|done|unfold tag, ts_le, ts_lt in *; lia|].
      intros t [Ht|Ht]%known_join; [by left| |done]. right. apply known_singleton in Ht as ->.
      unfold tag, ts_le. lia.
  - apply Now_refused in Hn as (-> & -> & Hex). split; [|done]. rewrite <-Hh. by destruct o.
Qed.

(** Every tag is live under at most the element that owns it. *)
Definition owned (own : Tag → option T) (s : state) : Prop :=
  ∀ e t, live s.1 e t → own t = Some e.

Lemma owned_join own (d s : state) : st_wf d → owned own d → owned own s → owned own (joinState d s).
Proof. intros Hwf Hd Hs e t. rewrite joinState_live by done. intros [[|] _]; auto. Qed.

Lemma ORSet_Remove_spec (o : ORSet T) own e :
  orset_wf o → owned own (os_state o) →
  ∃ o' d, ORSet_Remove (Some o) e = (Some o', Ok d) ∧ orset_wf o' ∧
    os_codec o' = os_codec o ∧ os_clock o' = os_clock o ∧
    od_state d = (∅, default ∅ (os_elements o !! e)) ∧
    os_state o' = joinState (os_state o) (od_state d) ∧
    (∀ t, known (od_state d) t → known (os_state o) t) ∧
    os_elements o' = delete e (os_elements o).
Proof.
  intros (Hst & Htags & Hclk) Hown. unfold ORSet_Remove. set (obs := default ∅ (os_elements o !! e)).
  assert (∀ t, t ∈ obs → known (os_state o) t) as Hobs by (intros t Ht; left; by exists e).
  assert (∀ t, known (∅ : gmap T (gset Tag), obs) t → known (os_state o) t) as Hk.
  { intros t [[e' Hl]|Ht]; [|by apply Hobs]. unfold live in Hl. simpl in Hl.
    rewrite lookup_empty in Hl. set_solver. }
  assert (st_wf (delete e (os_elements o), os_tombstones o ∪ obs)) as Hst'.
  { split; [by apply map_Forall_delete, Hst|]. intros e' t. unfold live. simpl.
    rewrite lookup_delete. case_decide as He; [set_solver|]. intros Hl.
    destruct Hst as [_ Hd]. pose proof (Hd e' t Hl). apply not_elem_of_union. split; [done|].
    intros Ht. apply He. specialize (Hown e t Ht) as H1. specialize (Hown e' t Hl) as H2. congruence. }
  assert ((delete e (os_elements o), os_tombstones o ∪ obs) =
    joinState (os_state o) (∅, obs)) as Hjoin.
  { apply st_ext; [done|by apply joinState_wf| |by rewrite joinState_tombs].
    intros e' t. rewrite joinState_live by done. unfold live. simpl. rewrite lookup_delete, lookup_empty.
    destruct Hst' as [_ Hd']. specialize (Hd' e' t). unfold live in Hd'. simpl in Hd'.
    rewrite lookup_delete in Hd'. case_decide as He; [subst e'; fold obs|]; simpl in *; set_solver. }
  case_bool_decide as Hs.
  - apply size_empty_inv, leibniz_equiv in Hs. eexists _, _. split; [done|].
    change (od_state (mkORSetDelta ∅ ∅)) with (∅ : gmap T (gset Tag), ∅ : gset Tag).
    rewrite Hs in *. do 4 (split; [done|]).
    assert (delete e (os_elements o) = os_elements o) as Hdel.
    { apply delete_id. destruct Hst as [Hne _]. unfold obs in Hs.
      destruct (os_elements o !! e) as [tags|] eqn:E; [|done]. exfalso. by apply (Hne e tags). }
    rewrite <-Hjoin, Hdel. split; [unfold os_state; f_equal; set_solver|]. done.
  - eexists _, _. split; [done|]. rewrite foldl_union, list_to_set_elements_L, Hjoin.
    split; [|by rewrite os_state_with, <-Hjoin].
    apply orset_wf_with; [by apply joinState_wf| |].
    + intros t [Ht|Ht]%known_join; [by apply Htags|by apply Htags, Hk|done].
    + destruct (os_clock o) as [h|]; [|done]. destruct Hclk as [Hh Hc]. split; [done|].
      intros t [Ht|Ht]%known_join; auto.
Qed.

(** Adding. On a well-formed replica [Add] can only fail because the clock is
    exhausted, and then changes nothing. Otherwise its tag is valid, carries the
    clock's replica ID and is greater than every tag the replica knows, live or
    removed; the element is in the set afterwards, the invariant holds, and the
    returned delta carries exactly the change. *)
Theorem ORSet_Add_fresh (o : ORSet T) (e : T) (now : option Z)
    (Hwf : orset_wf o) (Hnow : now_wf now) :
  match ORSet_Add (Some o) e now with
  | (Some o', Ok d) =>
      ORSet_Contains (Some o') e = true ∧ orset_wf o' ∧
      os_state o' = joinState (os_state o) (od_state d) ∧
      ∃ tag, od_state d = ({[e := {[tag]}]}, ∅) ∧ Valid tag = true ∧
        ReplicaID <$> Some tag = replicaID <$> os_clock o ∧
        ∀ t, known (os_state o) t → Compare t tag < 0
  | (Some o', Err err) => o' = o ∧ err = ErrClockExhausted ∧ exhausted (os_clock o) now (λ _, False)
  | (None, _) => False
  end.
Proof.
  pose proof (ORSet_Add_spec o e now Hwf Hnow) as Hadd.
  destruct (ORSet_Add (Some o) e now) as [[o'|] [d|err]]; try done.
  destruct Hadd as (tag & -> & Hid & Hv & Hw & Hnew & Hlt & Hst & Hwf' & _).
  split; [|split; [done|]; split; [done|]; by exists tag].
  apply ORSet_Contains_live. exists tag. change (os_elements o') with (os_state o').1. rewrite Hst.
  apply joinState_live; [apply Hwf|]. split.
  - right. unfold live. simpl. rewrite lookup_singleton_eq. set_solver.
  - simpl. intros [Ht|Ht]%elem_of_union; [|set_solver]. apply Hnew. by right.
Qed.

(** A delta of one addition, or of removals only, is received or the clock refuses it. *)
Definition receives (P : ORSet T → Prop) (o : ORSet T) (out : ptr (ORSet T) * result unit) : Prop :=
  match out with
  | (Some o', Ok _) => P o'
  | (Some o', Err e) => o' = o ∧ e = ErrClockExhausted
  | (None, _) => False
  end.

Lemma receives_mono (P Q : ORSet T → Prop) o out : (∀ o', P o' → Q o') → receives P o out → receives Q o out.
Proof. destruct out as [[o'|] [u|e]]; simpl; auto. Qed.

Lemma ApplyDelta_small (o : ORSet T) d now :
  orset_wf o → tags_ok (od_state d) → (size (od_adds d) = 1%nat ∧ od_tombstones d = ∅ ∨ od_adds d = ∅) → now_wf now →
  receives (λ o', os_state o' = joinState (os_state o) (od_state d)) o (ORSet_ApplyDelta (Some o) d now).
Proof.
  intros Ho Hd Hsmall Hnow. assert (validateDeltaState (od_adds d) (od_tombstones d) = Ok tt) as Hv.
  { unfold validateDeltaState. change (validateState (od_adds d) (od_tombstones d)) with (validateState (od_state d).1 (od_state d).2).
    rewrite (proj2 (validateState_Ok (od_state d))) by (by intros t [? _]%Hd).
    destruct Hsmall as [[Hs ->]| ->]; [rewrite Hs, size_empty|rewrite map_size_empty]; done. }
  unfold ORSet_ApplyDelta. rewrite Hv. destruct (ORSet_receive_spec o (od_state d) now) as (o' & r & -> & _ & _ & Hr); [done..|].
  destruct r as [u|e]; [done|]. by destruct Hr as (-> & -> & _).
Qed.

(** C35: add wins, remove is observed. A remove at one replica takes the element
    out there and keeps out every add it had observed, however often redelivered;
    an add elsewhere that it had not observed survives it: after the two
    replicas exchange their deltas both hold the element. Each [ApplyDelta] of the
    exchange does that, or changes nothing and reports an exhausted clock. *)
Theorem ORSet_add_wins (a b a' b' : ORSet T) (own : Tag → option T) (e : T) (now : option Z)
    (da db : ORSetDelta T) (source : state)
    (Ha : orset_wf a) (Hb : orset_wf b) (Hown : owned own (os_state b)) (Hnow : now_wf now)
    (Hadd : ORSet_Add (Some a) e now = (Some a', Ok da))
    (Hremove : ORSet_Remove (Some b) e = (Some b', Ok db))
    (Hunseen : ∀ t, live (od_adds da) e t → ¬ known (os_state b) t)
    (Hseen : ∀ t, live source.1 e t → live (os_elements b) e t) :
  ORSet_Contains (Some b') e = false ∧
  ORSet_Contains (Some (os_with b' (os_clock b') (joinState (os_state b') source))) e = false ∧
  ORSet_Contains (Some (os_with b' (os_clock b') (joinState (os_state b') (od_state da)))) e = true ∧
  ORSet_Contains (Some (os_with a' (os_clock a') (joinState (os_state a') (od_state db)))) e = true ∧
  ∀ now', now_wf now' →
    receives (λ b2, ORSet_Contains (Some b2) e = true) b' (ORSet_ApplyDelta (Some b') da now') ∧
    receives (λ a2, ORSet_Contains (Some a2) e = true) a' (ORSet_ApplyDelta (Some a') db now').
Proof.
  pose proof (ORSet_Add_spec a e now Ha Hnow) as Hspec. rewrite Hadd in Hspec.
  destruct Hspec as (tag & -> & _ & Hv & Htw & Hnew & _ & Hst & Hwfa' & _).
  destruct (ORSet_Remove_spec b own e Hb Hown) as (b1 & d1 & Hrem & Hwfb' & _ & _ & Hd & Hstb & Hkd & Hdel).
  rewrite Hremove in Hrem. injection Hrem as <- <-.
  assert (live ({[e := {[tag]}]} : gmap T (gset Tag)) e tag) as Hlt.
  { unfold live. rewrite lookup_singleton_eq. set_solver. }
  assert (¬ known (os_state b) tag) as Hub by by apply Hunseen.
  assert (os_tombstones b' = os_tombstones b ∪ default ∅ (os_elements b !! e)) as Htb.
  { change (os_tombstones b') with (os_state b').2. by rewrite Hstb, joinState_tombs, Hd. }
  assert (∀ t, ¬ live (os_elements b') e t) as Hout.
  { intros t. rewrite Hdel. unfold live. rewrite lookup_delete_eq. set_solver. }
  assert (∀ (o : ORSet T) s1, live (joinState (os_state o) s1).1 e tag →
    ∀ o2, os_state o2 = joinState (os_state o) s1 → ORSet_Contains (Some o2) e = true) as Hread.
  { intros o s1 Hl o2 Ho2. apply ORSet_Contains_live. exists tag. change (os_elements o2) with (os_state o2).1. by rewrite Ho2. }
  assert (live (joinState (os_state b') ({[e := {[tag]}]}, ∅)).1 e tag) as Hinb.
  { apply joinState_live; [apply Hwfb'|]. split; [by right|]. simpl. rewrite Htb.
    intros Hin. apply Hub. unfold known. simpl. rewrite !elem_of_union in Hin.
    destruct Hin as [[Hin|Hin]|Hin]; [by right| |set_solver]. left. by exists e. }
  assert (live (joinState (os_state a') (od_state db)).1 e tag) as Hina.
  { apply joinState_live; [apply Hwfa'|]. rewrite Hd. split.
    - left. change (os_elements a') with (os_state a').1. rewrite Hst. apply joinState_live; [apply Ha|].
      split; [by right|]. simpl. intros Hin. apply Hnew. right. set_solver.
    - change (os_tombstones a') with (os_state a').2. rewrite Hst, joinState_tombs. simpl.
      rewrite !not_elem_of_union. split_and!; [|set_solver|].
      + intros Hin. apply Hnew. by right.
      + intros Hin. apply Hub. left. by exists e. }
  split_and!; [rewrite <-!not_true_iff_false, !ORSet_Contains_live; unfold os_with; simpl..| | |].
  - intros [t Ht]. by eapply Hout.
  - intros [t Ht]. rewrite joinState_live in Ht by apply Hwfb'.
    destruct Ht as [[Ht|Ht] Hn]; [by eapply Hout|]. apply Hn. simpl. rewrite Htb. apply Hseen in Ht. set_solver.
  - by apply (Hread b' _ Hinb), os_state_with.
  - by apply (Hread a' _ Hina), os_state_with.
  - intros now' Hnow'. split.
    + eapply receives_mono; [|apply ApplyDelta_small; [done| |left; split; [apply map_size_singleton|done]|done]].
      * by apply Hread.
      * by intros t ->%known_singleton.
    + eapply receives_mono; [|apply ApplyDelta_small; [done| |right; by injection Hd|done]].
      * by apply Hread.
      * intros t Ht%Hkd. by apply Hb.
Qed.

(** ** Compaction *)

Lemma compact_fold (tombs : gset Tag) (n : Z) (l : list Tag) :
  foldl compact_step (tombs, n) l =
  (tombs ∖ list_to_set l, n + Z.of_nat (size tombs) - Z.of_nat (size (tombs ∖ list_to_set l))).
Proof.
  revert tombs n. induction l as [|t l IH]; intros tombs n; simpl.
  - f_equal; [set_solver|]. rewrite difference_empty_L. lia.
  - case_bool_decide as Ht; rewrite IH.
    + assert (tombs ∖ {[t]} ∖ list_to_set l = tombs ∖ ({[t]} ∪ list_to_set l)) as -> by set_solver.
      f_equal. rewrite (size_difference tombs {[t]}) by set_solver. rewrite size_singleton.
      assert (size tombs ≠ 0%nat); [|lia]. intros Hz%size_empty_inv. set_solver.
    + assert (tombs ∖ ({[t]} ∪ list_to_set l) = tombs ∖ list_to_set l) as -> by set_solver. done.
Qed.

Lemma compact_wf (o : ORSet T) ack o' res :
  orset_wf o → ORSet_CompactTombstones (Some o) ack = (Some o', res) →
  orset_wf o' ∧ os_clock o' = os_clock o ∧
  (∀ t, known (os_state o') t → known (os_state o) t) ∧ os_elements o' = os_elements o.
Proof.
  intros Hwf. unfold ORSet_CompactTombstones. destruct (negb _); [by intros [= <- <-]|].
  rewrite compact_fold. intros [= <- <-]. destruct Hwf as ([Hne Hd] & Htags & Hclk).
  assert (∀ t, known (os_elements o, os_tombstones o ∖ list_to_set ack) t →
    known (os_state o) t) as Hk by (unfold known; simpl; set_solver).
  split; [|done]. apply orset_wf_with.
  - split; [done|]. intros e t Ht. specialize (Hd e t Ht). simpl in *. set_solver.
  - intros t Ht. by apply Htags, Hk.
  - destruct (os_clock o) as [h|]; [|done]. destruct Hclk as [Hh Hc]. split; [done|]. auto.
Qed.

(** Compaction. [CompactTombstones] drops exactly the listed tombstones,
    reports how many it dropped, keeps every element and its tags, and keeps the
    invariant; an invalid tag in the list is refused before anything changes. *)
Theorem ORSet_CompactTombstones_spec (o : ORSet T) (acknowledged : list Tag) (Hwf : orset_wf o) :
  match ORSet_CompactTombstones (Some o) acknowledged with
  | (Some o', Ok removed) =>
      Forall (λ t, Valid t = true) acknowledged ∧ os_elements o' = os_elements o ∧
      os_tombstones o' = os_tombstones o ∖ list_to_set acknowledged ∧
      removed = Z.of_nat (size (os_tombstones o)) - Z.of_nat (size (os_tombstones o')) ∧
      orset_wf o'
  | (Some o', Err err) =>
      ¬ Forall (λ t, Valid t = true) acknowledged ∧ o' = o ∧ err = ErrSetInvalidFrontier
  | (None, _) => False
  end.
Proof.
  pose proof (compact_wf o acknowledged) as Hcw. unfold ORSet_CompactTombstones in *.
  assert (forallb Valid acknowledged = true ↔ Forall (λ t, Valid t = true) acknowledged) as Hall.
  { rewrite forallb_forall, Forall_forall. by setoid_rewrite <-list_elem_of_In. }
  destruct (forallb Valid acknowledged); simpl in *; [|split; [naive_solver|done]].
  rewrite compact_fold in *. split; [by apply Hall|]. split; [done|]. split; [done|].
  split; [simpl; lia|]. by eapply Hcw.
Qed.
End orset_theorems.

(** ** Replication *)

Section orset_replication.
Context {T : Type} `{Countable T}.
Abbreviation state := (gmap T (gset Tag) * gset Tag)%type.

(** What a replica receives: another replica's state, or a delta. *)
Inductive orset_msg := OSStateMsg (o : ORSet T) | OSDeltaMsg (d : ORSetDelta T).

Definition msg_state (m : orset_msg) : state :=
  match m with OSStateMsg o => os_state o | OSDeltaMsg d => od_state d end.

Definition orset_receive (s : ptr (ORSet T)) (m : orset_msg) (now : option Z)
    : ptr (ORSet T) * result unit :=
  match m with
  | OSStateMsg o => ORSet_Merge s (PObj o) now
  | OSDeltaMsg d => ORSet_ApplyDelta s d now
  end.

(** A replica that receives messages at given physical times; the result is
    the first error. *)
Definition orset_run (s : ptr (ORSet T)) (ms : list (orset_msg * option Z))
    : ptr (ORSet T) * result unit :=
  foldl (λ '(s, r) '(m, now), let '(s, r') := orset_receive s m now in (s, _ ← r; r')) (s, Ok tt) ms.

Definition msg_ok (m : orset_msg) : Prop := st_wf (msg_state m) ∧ tags_ok (msg_state m).

Lemma orset_receive_spec (o : ORSet T) m now :
  orset_wf o → tags_ok (msg_state m) → now_wf now →
  ∃ o' r, orset_receive (Some o) m now = (Some o', r) ∧ orset_wf o' ∧
    clock_advances (os_clock o) (os_clock o') ∧
    (r = Ok tt → os_state o' = joinState (os_state o) (msg_state m)) ∧
    (r ≠ Ok tt → o' = o).
Proof.
  intros Ho Hm Hnow. assert (clock_advances (os_clock o) (os_clock o)) as Hrefl
    by (eapply clock_advances_refl, Ho). destruct m as [o1|d]; simpl in *.
  - case_bool_decide; simpl; [|by eexists _, _].
    destruct (validateState _ _) as [[]|]; [|by eexists _, _].
    destruct (ORSet_receive_spec o (os_state o1) now) as (o' & r & Hr & ? & ? & Hres); [done..|].
    exists o', r. split; [done|]. do 2 (split; [done|]). destruct r as [[]|]; naive_solver.
  - destruct (validateDeltaState _ _) as [[]|]; [|by eexists _, _].
    destruct (ORSet_receive_spec o (od_state d) now) as (o' & r & Hr & ? & ? & Hres); [done..|].
    exists o', r. split; [done|]. do 2 (split; [done|]). destruct r as [[]|]; naive_solver.
Qed.

Lemma orset_run_deliver (o : ORSet T) ms s' :
  orset_wf o → Forall (λ m, msg_ok m.1 ∧ now_wf m.2) ms → orset_run (Some o) ms = (s', Ok tt) →
  ∃ o', s' = Some o' ∧ orset_wf o' ∧
    os_state o' = deliver joinState (os_state o) (msg_state <$> ms.*1).
Proof.
  intros Ho Hms. revert s'. induction ms as [|[m now] ms IH] using rev_ind; intros s'.
  { intros [= <-]. by exists o. }
  apply Forall_app in Hms as [Hms [[[_ Htags] Hnow] _]%Forall_cons].
  unfold orset_run. rewrite foldl_app. fold (orset_run (Some o) ms).
  destruct (orset_run (Some o) ms) as [s1 r1]. simpl. intros Hrun.
  destruct (orset_receive s1 m now) as [s2 r2] eqn:Hrec. injection Hrun as <- Hr.
  destruct r1 as [[]|]; [|done]. simpl in Hr. subst r2.
  destruct (IH Hms s1 eq_refl) as (o1 & -> & Hwf1 & Hst1).
  destruct (orset_receive_spec o1 m now) as (o2 & r & Hr & Hwf2 & _ & Hok & _); [done..|].
  rewrite Hrec in Hr. injection Hr as -> <-. exists o2. split; [done|]. split; [done|].
  rewrite (Hok eq_refl), Hst1, !fmap_app. unfold deliver. by rewrite foldl_app.
Qed.

Lemma st_wf_empty : st_wf (∅ : gmap T (gset Tag), ∅ : gset Tag).
Proof. split; [apply map_Forall_empty|]. intros e t. unfold live. simpl. rewrite lookup_empty. set_solver. Qed.

Lemma joinState_empty_l (s : state) : st_wf s → joinState (∅, ∅) s = s.
Proof.
  intros Hs. apply st_ext; [apply joinState_wf, st_wf_empty|done| |rewrite joinState_tombs; set_solver].
  intros e t. rewrite joinState_live by apply st_wf_empty. destruct Hs as [_ Hs]. specialize (Hs e t).
  unfold live at 1. simpl. rewrite lookup_empty. set_solver.
Qed.

(** C2: OR-Sets converge. Two replicas whose own states and successfully received
    messages (states or deltas, in any order and with any repetition) carry the
    same updates hold identical states: the same elements under the same tags
    and the same tombstones. *)
Theorem ORSet_convergence (oa ob oa' ob' : ORSet T) (ma mb : list (orset_msg * option Z))
    (Ha : orset_wf oa) (Hb : orset_wf ob)
    (Hma : Forall (λ m, msg_ok m.1 ∧ now_wf m.2) ma) (Hmb : Forall (λ m, msg_ok m.1 ∧ now_wf m.2) mb)
    (Hruna : orset_run (Some oa) ma = (Some oa', Ok tt))
    (Hrunb : orset_run (Some ob) mb = (Some ob', Ok tt))
    (Hsame : ∀ s, s ∈ os_state oa :: (msg_state <$> ma.*1) ↔ s ∈ os_state ob :: (msg_state <$> mb.*1)) :
  os_elements oa' = os_elements ob' ∧ os_tombstones oa' = os_tombstones ob'.
Proof.
  apply orset_run_deliver in Hruna as (? & [= <-] & _ & Hsa); [|done..].
  apply orset_run_deliver in Hrunb as (? & [= <-] & _ & Hsb); [|done..].
  assert (∀ ms, Forall (λ m, msg_ok m.1 ∧ now_wf m.2) ms → Forall st_wf (msg_state <$> ms.*1)) as Hwf.
  { intros ms Hms. rewrite !Forall_fmap. eapply Forall_impl; [exact Hms|]. by intros m [[? _] _]. }
  assert (os_state oa' = os_state ob') as Heq; [|by injection Heq].
  rewrite Hsa, Hsb. rewrite <-(joinState_empty_l (os_state oa)), <-(joinState_empty_l (os_state ob))
    by (apply Ha || apply Hb).
  change (deliver joinState (∅, ∅) (os_state oa :: (msg_state <$> ma.*1)) =
          deliver joinState (∅, ∅) (os_state ob :: (msg_state <$> mb.*1))).
  apply (deliver_convergence st_wf (=) joinState); [apply _|apply st_wf_empty| | |done].
  - constructor; [apply Ha|by apply Hwf].
  - constructor; [apply Hb|by apply Hwf].
Qed.

(** ** A network of replicas *)

(** The replicas by ID, and every message ever sent; a message may be received
    late, many times or never. [added] is the log of the additions: the replica, the
    element and the delta [Add] returned. *)
Record net := mkNet { nodes : gmap bytes (ORSet T); pool : list orset_msg; added : list (bytes * T * ORSetDelta T) }.

Inductive net_step (n : net) : net → Prop :=
| net_add r o e now o' res :
    nodes n !! r = Some o → now_wf now → ORSet_Add (Some o) e now = (Some o', res) →
    net_step n (mkNet (<[r := o']> (nodes n))
      (match res with Ok d => OSDeltaMsg d :: pool n | Err _ => pool n end)
      (match res with Ok d => (r, e, d) :: added n | Err _ => added n end))
| net_remove r o e o' res :
    nodes n !! r = Some o → ORSet_Remove (Some o) e = (Some o', res) →
    net_step n (mkNet (<[r := o']> (nodes n))
      (match res with Ok d => OSDeltaMsg d :: pool n | Err _ => pool n end) (added n))
| net_send r o :
    nodes n !! r = Some o → net_step n (mkNet (nodes n) (OSStateMsg o :: pool n) (added n))
| net_receive r o m now o' res :
    nodes n !! r = Some o → m ∈ pool n → now_wf now →
    orset_receive (Some o) m now = (Some o', res) →
    net_step n (mkNet (<[r := o']> (nodes n)) (pool n) (added n))
| net_compact r o acknowledged o' res :
    nodes n !! r = Some o → ORSet_CompactTombstones (Some o) acknowledged = (Some o', res) →
    net_step n (mkNet (<[r := o']> (nodes n)) (pool n) (added n)).

(** Replicas start empty, each with a clock of its own ID. *)
Definition net_init (n : net) : Prop :=
  pool n = [] ∧ added n = [] ∧
  ∀ r o, nodes n !! r = Some o →
    os_state o = (∅, ∅) ∧ ∃ h, os_clock o = Some h ∧ hlc_wf h ∧ replicaID h = r.

Inductive net_reachable : net → Prop :=
| net_start n : net_init n → net_reachable n
| net_next n n' : net_reachable n → net_step n n' → net_reachable n'.

(** A state whose tags are all recorded in the history [own] of issued tags,
    under the element they were issued for. *)
Definition recorded (own : gmap Tag T) (s : state) : Prop :=
  st_wf s ∧ tags_ok s ∧ owned (own !!.) s ∧ ∀ t, known s t → is_Some (own !! t).

(** Every issued tag is behind the clock of the replica that issued it. *)
Definition issued (own : gmap Tag T) (ns : gmap bytes (ORSet T)) : Prop :=
  ∀ t, is_Some (own !! t) → ∃ o h, ns !! ReplicaID t = Some o ∧ os_clock o = Some h ∧
    ts_le t (hlc_tag h).

(** The additions issued the tags of [own], each its own. *)
Inductive logged (own : gmap Tag T) (log : list (bytes * T * ORSetDelta T)) : Prop :=
| logged_tags tags :
    NoDup tags → (∀ t, is_Some (own !! t) ↔ t ∈ tags) →
    Forall2 (λ a t, ∃ e, a = (ReplicaID t, e, mkORSetDelta {[e := {[t]}]} ∅) ∧ own !! t = Some e) log tags →
    logged own log.

Lemma logged_add own log r e t :
  logged own log → own !! t = None → ReplicaID t = r → logged (<[t := e]> own) ((r, e, mkORSetDelta {[e := {[t]}]} ∅) :: log).
Proof.
  intros [tags Hnd Hdom Hall] Ht <-.
  assert (t ∉ tags) as Hn by (rewrite <-Hdom, Ht; by intros [? ?]). apply (logged_tags _ _ (t :: tags)).
  - by constructor.
  - intros u. rewrite elem_of_cons, <-Hdom, lookup_insert. case_decide as Heq; [by subst u; split; [left|eauto]|].
    split; [by right|]. by intros [->|?].
  - constructor; [exists e; by rewrite lookup_insert_eq|]. apply Forall2_same_length_lookup in Hall as [Hlen Hall].
    apply Forall2_same_length_lookup. split; [done|]. intros i a u Ha Hu. destruct (Hall i a u Ha Hu) as (e' & -> & He).
    apply list_elem_of_lookup_2 in Hu. exists e'. rewrite lookup_insert_ne by (by intros ->). done.
Qed.

Definition net_inv (own : gmap Tag T) (n : net) : Prop :=
  (∀ r o, nodes n !! r = Some o →
    orset_wf o ∧ recorded own (os_state o) ∧ replicaID <$> os_clock o = Some r) ∧
  (∀ m, m ∈ pool n → recorded own (msg_state m)) ∧
  issued own (nodes n) ∧ logged own (added n).

Lemma recorded_mono own own' (s : state) : own ⊆ own' → recorded own s → recorded own' s.
Proof.
  intros Hsub (Hst & Htags & Hown & Hk). split_and!; try done.
  - intros e t Hl. by eapply lookup_weaken, Hsub; apply Hown.
  - intros t [e He]%Hk. exists e. by eapply lookup_weaken.
Qed.

Lemma recorded_join own (d s : state) :
  recorded own d → recorded own s → recorded own (joinState d s).
Proof.
  intros (Hst & Htags & Hown & Hk) (Hst' & Htags' & Hown' & Hk').
  split; [by apply joinState_wf|]. split; [|split; [by apply owned_join|]].
  - intros t [Ht|Ht]%known_join; auto.
  - intros t [Ht|Ht]%known_join; auto.
Qed.

(** Replacing one replica by its next state, and the history by a longer one. *)
Lemma net_inv_update own own' n r o o' pool' log' :
  net_inv own n → nodes n !! r = Some o → own ⊆ own' →
  orset_wf o' → recorded own' (os_state o') → clock_advances (os_clock o) (os_clock o') →
  (∀ t, is_Some (own' !! t) → is_Some (own !! t) ∨
    (ReplicaID t = r ∧ ∃ h, os_clock o' = Some h ∧ ts_le t (hlc_tag h))) →
  (∀ m, m ∈ pool' → m ∈ pool n ∨ recorded own' (msg_state m)) → logged own' log' →
  net_inv own' (mkNet (<[r := o']> (nodes n)) pool' log').
Proof.
  intros (Hnodes & Hpool & Hiss & _) Hr Hsub Hwf Hrec (h & h' & Hh & Hh' & Hid & Hle) Hnew Hp Hlog.
  split; [|split; [|split; [|exact Hlog]]]; clear Hlog; simpl.
  - intros r1 o1. rewrite lookup_insert. case_decide as Heq.
    + intros [= <-]. subst r1. split; [done|]. split; [done|]. rewrite Hh'. simpl. rewrite Hid.
      destruct (Hnodes r o Hr) as (_ & _ & Ho). by rewrite Hh in Ho.
    + intros Ho1. destruct (Hnodes r1 o1 Ho1) as (?&?&?). split; [done|]. split; [|done].
      by eapply recorded_mono.
  - intros m [Hm|Hm]%Hp; [|done]. eapply recorded_mono; [done|]. by apply Hpool.
  - intros t [Ht|[<- (h1 & Hh1 & Hle1)]]%Hnew.
    + destruct (Hiss t Ht) as (o1 & h1 & Ho1 & Hh1 & Hle1). rewrite lookup_insert.
      case_decide as Heq; [|by exists o1, h1]. exists o', h'. split; [done|]. split; [done|].
      rewrite <-Heq, Hr in Ho1. injection Ho1 as <-. rewrite Hh in Hh1. injection Hh1 as <-.
      unfold ts_le in *. lia.
    + exists o', h1. by rewrite lookup_insert_eq.
Qed.

Lemma recorded_add own e tag :
  own !! tag = Some e → Valid tag = true → tag_wf tag → recorded own ({[e := {[tag]}]}, ∅).
Proof.
  intros Hown Hv Hw. split_and!.
  - split; [apply map_Forall_singleton; set_solver|]. intros e' t _. simpl. set_solver.
  - intros t ->%known_singleton. done.
  - intros e' t. unfold live. simpl. rewrite lookup_singleton. case_decide; set_solver.
  - intros t ->%known_singleton. eauto.
Qed.

Lemma recorded_remove own (s : state) (obs : gset Tag) :
  recorded own s → (∀ t, known (∅ : gmap T (gset Tag), obs) t → known s t) → recorded own (∅, obs).
Proof.
  intros (Hst & Htags & Hown & Hk) Hobs. split_and!; auto.
  - split; [apply map_Forall_empty|]. intros e t. unfold live. simpl. rewrite lookup_empty. set_solver.
  - intros t Ht. by apply Htags, Hobs.
  - intros e t. unfold live. simpl. rewrite lookup_empty. set_solver.
Qed.

Lemma net_inv_step own n n' : net_inv own n → net_step n n' → ∃ own', net_inv own' n'.
Proof.
  intros Hinv Hstep. pose proof Hinv as (Hnodes & Hpool & Hiss & Hlog).
  assert (∀ r o, nodes n !! r = Some o → orset_wf o ∧ recorded own (os_state o) ∧
    clock_advances (os_clock o) (os_clock o)) as Hnode.
  { intros r o Hr. destruct (Hnodes r o Hr) as (Hwf & Hrec & _). split; [done|]. split; [done|].
    eapply clock_advances_refl, Hwf. }
  destruct Hstep as [r o e now o' res Hr Hnow Hop|r o e o' res Hr Hop|r o Hr
    |r o m now o' res Hr Hm Hnow Hop|r o ack o' res Hr Hop];
    destruct (Hnode r o Hr) as (Hwf & Hrec & Hrefl).
  - pose proof (ORSet_Add_spec o e now Hwf Hnow) as Hadd. rewrite Hop in Hadd.
    destruct res as [d|err]; [|destruct Hadd as [-> _]; exists own; eapply net_inv_update; eauto].
    destruct Hadd as (tag & -> & Htid & Hv & Hw & _ & _ & Hst & Hwf' & h & h' & Hh & Hh' & Hid & -> & Hlt).
    destruct (Hnodes r o Hr) as (_ & _ & Hor). rewrite Hh in Hor. injection Hor as Hor.
    assert (own !! hlc_tag h' = None) as Hfresh.
    { apply eq_None_not_Some. intros (o1 & h1 & Ho1 & Hh1 & Hle)%Hiss. simpl in Ho1.
      rewrite Hid, Hor, Hr in Ho1. injection Ho1 as <-. rewrite Hh in Hh1. injection Hh1 as <-.
      unfold ts_le, ts_lt in *. lia. }
    set (own' := <[hlc_tag h' := e]> own). assert (own ⊆ own') as Hsub by by apply insert_subseteq.
    assert (recorded own' ({[e := {[hlc_tag h']}]}, ∅)) as Hdelta
      by (apply recorded_add; [apply lookup_insert_eq|done..]).
    exists own'. eapply net_inv_update; [exact Hinv|exact Hr|done|done| | | | |].
    + rewrite Hst. apply recorded_join; [by eapply recorded_mono|done].
    + exists h, h'. split_and!; [done..|]. unfold ts_le, ts_lt in *. lia.
    + intros t. unfold own'. rewrite lookup_insert. case_decide as Heq; [|by left]. subst t.
      intros _. right. split; [simpl; congruence|]. exists h'. split; [done|]. unfold ts_le. lia.
    + intros m [->|Hm]%elem_of_cons; [by right|by left].
    + apply logged_add; [done|done|simpl; congruence].
  - destruct (ORSet_Remove_spec o (own !!.) e) as (o1 & d & Hrem & Hwf' & _ & Hclk & Hd & Hst & Hk & _);
      [done|apply Hrec|]. rewrite Hop in Hrem. injection Hrem as <- ->.
    assert (recorded own (od_state d)) as Hdelta.
    { rewrite Hd in *. by eapply recorded_remove. }
    exists own. eapply net_inv_update; [exact Hinv|exact Hr|done|done| |by rewrite Hclk|by left| |done].
    + rewrite Hst. by apply recorded_join.
    + intros m [->|Hm]%elem_of_cons; [by right|by left].
  - exists own. split_and!; [done| |done|done]. intros m [->|Hm]%elem_of_cons; [done|by apply Hpool].
  - destruct (Hpool m Hm) as (? & Htags & _).
    destruct (orset_receive_spec o m now) as (o1 & r1 & Hrcv & Hwf' & Hadv & Hok & Herr); [done..|].
    rewrite Hop in Hrcv. injection Hrcv as -> ->. exists own.
    eapply net_inv_update; [exact Hinv|exact Hr|done|done| |done|by left|by left|done].
    destruct (decide (r1 = Ok tt)) as [Hr1|Hr1]; [|by rewrite (Herr Hr1)].
    rewrite (Hok Hr1). apply recorded_join; [done|]. by apply Hpool.
  - pose proof (compact_wf o ack o' res Hwf Hop) as (Hwf' & Hclk & Hk & Hel). exists own.
    eapply net_inv_update; [exact Hinv|exact Hr|done|done| |by rewrite Hclk|by left|by left|done].
    destruct Hrec as (_ & _ & Hown & Hdom). split; [apply Hwf'|]. split; [apply Hwf'|]. split.
    + intros e t Hl. apply Hown. change (os_state o').1 with (os_elements o') in Hl. by rewrite Hel in Hl.
    + intros t Ht. by apply Hdom, Hk.
Qed.

(** C34: a network of OR-Set replicas. From empty replicas with distinct IDs,
    however adds, removes, sends, deliveries (late, repeated, reordered, lost)
    and compactions interleave: every replica keeps its invariant (no live
    tombstoned tag, no element without tags, valid tags, a clock ahead of all of
    them). Every successful addition returned a delta of one tag, of its replica and
    for its element, and no two additions, at one replica or at two, share their tag.
    A tag that is live anywhere was issued by an addition of the element it is live
    under, so a tag stands for the same element wherever it is live. *)
Theorem ORSet_network_safe (n : net) (Hreach : net_reachable n) :
  (∀ r o, nodes n !! r = Some o → orset_wf o) ∧
  (∀ r1 r2 o1 o2 e1 e2 t, nodes n !! r1 = Some o1 → nodes n !! r2 = Some o2 →
    live (os_elements o1) e1 t → live (os_elements o2) e2 t → e1 = e2) ∧
  (∀ i r e d, added n !! i = Some (r, e, d) →
    ∃ t, od_state d = ({[e := {[t]}]}, ∅) ∧ ReplicaID t = r ∧
      ∀ j r' e' d', added n !! j = Some (r', e', d') → known (od_state d') t → i = j) ∧
  (∀ r o e t, nodes n !! r = Some o → live (os_elements o) e t →
    ∃ i r' d, added n !! i = Some (r', e, d) ∧ od_state d = ({[e := {[t]}]}, ∅)).
Proof.
  assert (∃ own, net_inv own n) as (own & Hnodes & _ & _ & [tags Hnd Hdom Hlog]).
  { induction Hreach as [n (Hpool & Hadded & Hinit)|n n' _ [own IH] Hstep]; [|by eapply net_inv_step].
    assert (∀ t : Tag, ¬ known (∅ : gmap T (gset Tag), ∅ : gset Tag) t) as Hnone.
    { intros t [[e Hl]|Ht]; [|set_solver]. unfold live in Hl. simpl in Hl.
      rewrite lookup_empty in Hl. set_solver. }
    exists ∅. split_and!.
    - intros r o Hr. destruct (Hinit r o Hr) as (Hst & h & Hh & Hwf & Hid).
      unfold orset_wf. rewrite Hst, Hh. simpl. rewrite Hid.
      assert (recorded ∅ (∅ : gmap T (gset Tag), ∅ : gset Tag)) as Hrec.
      { split; [apply st_wf_empty|]. split; [by intros t ?%Hnone|]. split; [|by intros t ?%Hnone].
        intros e t Hl. destruct (Hnone t). left. by exists e. }
      split; [|done]. split; [apply Hrec|]. split; [apply Hrec|].
      split; [done|by intros t ?%Hnone].
    - rewrite Hpool. set_solver.
    - intros t [e He]. by rewrite lookup_empty in He.
    - rewrite Hadded. apply (logged_tags _ _ []); [constructor| |constructor]. intros t. rewrite lookup_empty, elem_of_nil.
      split; [by intros [? ?]|done]. }
  rewrite Forall2_same_length_lookup in Hlog. destruct Hlog as [Hlen Hlog].
  split; [intros r o Hr; by apply (Hnodes r o Hr)|]. split_and!.
  2: { intros i r e d Hi. destruct (lookup_lt_is_Some_2 tags i) as [t Ht]; [rewrite <-Hlen; by eapply lookup_lt_Some|].
       destruct (Hlog i _ t Hi Ht) as (e0 & [= -> <- ->] & _). exists t. split_and!; [done..|].
       intros j r' e' d' Hj Hk. destruct (lookup_lt_is_Some_2 tags j) as [u Hu]; [rewrite <-Hlen; by eapply lookup_lt_Some|].
       destruct (Hlog j _ u Hj Hu) as (e1 & [= -> <- ->] & _). apply known_singleton in Hk as ->. by eapply NoDup_lookup. }
  2: { intros r o e t Hr Hl. destruct (Hnodes r o Hr) as (_ & (_ & _ & Hown & _) & _). specialize (Hown e t Hl). simpl in Hown.
       destruct (proj1 (list_elem_of_lookup tags t)) as [i Hi]; [apply Hdom; eauto|].
       destruct (lookup_lt_is_Some_2 (added n) i) as [a Ha]; [rewrite Hlen; by eapply lookup_lt_Some|].
       destruct (Hlog i a t Ha Hi) as (e0 & -> & He). rewrite Hown in He. injection He as <-. eauto 6. }
  intros r1 r2 o1 o2 e1 e2 t H1 H2 Hl1 Hl2.
  destruct (Hnodes r1 o1 H1) as (_ & (_ & _ & Hown1 & _) & _).
  destruct (Hnodes r2 o2 H2) as (_ & (_ & _ & Hown2 & _) & _).
  specialize (Hown1 e1 t Hl1). specialize (Hown2 e2 t Hl2). simpl in *. congruence.
Qed.
End orset_replication.

(** ** Witnesses *)

Section orset_witness.
Context {T : Type} `{Countable T}.

Lemma orset_wf_empty id h (codec : boundElementCodec T) :
  hlc_wf h → orset_wf (mkORSet id (Some h) codec ∅ ∅).
Proof.
  intros Hh. assert (∀ t, ¬ known (∅ : gmap T (gset Tag), ∅ : gset Tag) t) as Hnone.
  { intros t [[e Hl]|Ht]; [|set_solver]. unfold live in Hl. simpl in Hl.
    rewrite lookup_empty in Hl. set_solver. }
  split; [apply st_wf_empty|]. split; [by intros t ?%Hnone|]. split; [done|by intros t ?%Hnone].
Qed.

Lemma orset_wf_single id h (codec : boundElementCodec T) e tag :
  hlc_wf h → Valid tag = true → tag_wf tag → ts_le tag (hlc_tag h) →
  orset_wf (mkORSet id (Some h) codec {[e := {[tag]}]} ∅).
Proof.
  intros Hh Hv Hw Hle. destruct (recorded_add {[tag := e]} e tag) as (Hst & Htags & _);
    [apply lookup_singleton_eq|done|done|].
  split; [done|]. split; [done|]. split; [done|]. by intros t ->%known_singleton.
Qed.
End orset_witness.

Definition w_hlc (id : bytes) : HLC := mkHLC id 5 0.
Definition w_empty (id : bytes) : ORSet bytes := mkORSet id (Some (w_hlc id)) raw_codec ∅ ∅.
Definition w_tag : Tag := mkTag (str "c") 3 0.
Definition w_single (id : bytes) : ORSet bytes :=
  mkORSet id (Some (w_hlc id)) raw_codec {[str "x" := {[w_tag]}]} ∅.
Definition w_delta (e : bytes) (t : Tag) : ORSetDelta bytes := mkORSetDelta {[e := {[t]}]} ∅.

Lemma w_empty_wf id : Valid (mkTag id 5 0) = true → orset_wf (w_empty id).
Proof. intros. by apply orset_wf_empty. Qed.

Lemma w_single_wf id : Valid (mkTag id 5 0) = true → orset_wf (w_single id).
Proof. intros. apply orset_wf_single; [done..|]. unfold ts_le. simpl. lia. Qed.

Lemma w_delta_ok e t : Valid t = true → tag_wf t → msg_ok (OSDeltaMsg (w_delta e t)).
Proof.
  intros Hv Hw. destruct (recorded_add {[t := e]} e t) as (Hst & Htags & _);
    [apply lookup_singleton_eq|done|done|]. by split.
Qed.

Lemma ORSet_Add_fresh_witness :
  ∃ o' d, ORSet_Add (Some (w_single (str "a"))) (str "y") (Some 9) = (Some o', Ok d) ∧
    ORSet_Contains (Some o') (str "y") = true.
Proof.
  pose proof (ORSet_Add_fresh (w_single (str "a")) (str "y") (Some 9)
    (w_single_wf (str "a") eq_refl) ltac:(done)) as Hadd.
  destruct (ORSet_Add (Some (w_single (str "a"))) (str "y") (Some 9)) as [[o'|] [d|err]] eqn:Ha;
    [|exfalso..].
  - exists o', d. split; [done|]. exact (proj1 Hadd).
  - discriminate Ha.
  - done.
  - done.
Defined.

Definition w_added := ORSet_Add (Some (w_empty (str "a"))) (str "x") (Some 9).
Definition w_removed := ORSet_Remove (Some (w_single (str "b"))) (str "x").

Lemma ORSet_add_wins_witness :
  let a := returned_state (w_empty []) w_added in
  let d := returned_value (mkORSetDelta ∅ ∅) w_removed in
  ORSet_Contains (Some (returned_state (w_empty []) w_removed)) (str "x") = false ∧
  ORSet_Contains (Some (os_with a (os_clock a) (joinState (os_state a) (od_state d)))) (str "x") = true ∧
  receives (λ a2, ORSet_Contains (Some a2) (str "x") = true) a (ORSet_ApplyDelta (Some a) d (Some 20)).
Proof.
  edestruct (ORSet_add_wins (w_empty (str "a")) (w_single (str "b"))
    (returned_state (w_empty []) w_added) (returned_state (w_empty []) w_removed)
    (λ _, Some (str "x")) (str "x") (Some 9) (w_delta (str "x") (mkTag (str "a") 9 0))
    (returned_value (mkORSetDelta ∅ ∅) w_removed) (∅, ∅)
    (w_empty_wf (str "a") eq_refl) (w_single_wf (str "b") eq_refl)) as (H1 & _ & _ & H2 & H3).
  - intros e t. unfold live. simpl. rewrite lookup_singleton. case_decide; [by subst|set_solver].
  - done.
  - reflexivity.
  - reflexivity.
  - intros t. unfold live. simpl. rewrite lookup_singleton_eq. simpl. intros ->%elem_of_singleton.
    by intros ?%known_singleton.
  - intros t. unfold live. simpl. rewrite lookup_empty. set_solver.
  - split; [exact H1|]. split; [exact H2|].
    destruct (H3 (Some 20)) as [_ H4]; [vm_compute; split; congruence|]. exact H4.
Defined.

Lemma ORSet_CompactTombstones_spec_witness :
  let o := returned_state (w_empty []) (ORSet_Remove (Some (w_single (str "a"))) (str "x")) in
  ∃ o' n, ORSet_CompactTombstones (Some o) [w_tag] = (Some o', Ok n) ∧ orset_wf o'.
Proof.
  intros o. assert (orset_wf o) as Hwf.
  { destruct (ORSet_Remove_spec (w_single (str "a")) (λ _, Some (str "x")) (str "x")) as
      (o' & d & Hr & Hwf' & _); [by apply w_single_wf| |].
    - intros e t. unfold live. simpl. rewrite lookup_singleton. case_decide; [by subst|set_solver].
    - unfold o. by rewrite Hr. }
  pose proof (ORSet_CompactTombstones_spec o [w_tag] Hwf) as Hc.
  destruct (ORSet_CompactTombstones (Some o) [w_tag]) as [[o'|] [n|err]]; [|exfalso..].
  - exists o', n. split; [done|]. apply Hc.
  - destruct Hc as [Hc _]. apply Hc. by apply Forall_singleton.
  - done.
  - done.
Defined.

Lemma ORSet_convergence_witness :
  let d1 := OSDeltaMsg (w_delta (str "x") (mkTag (str "a") 6 0)) in
  let d2 := OSDeltaMsg (w_delta (str "y") (mkTag (str "b") 7 0)) in
  ∃ oa ob, orset_run (Some (w_empty (str "a"))) [(d1, Some 8); (d2, Some 9)] = (Some oa, Ok tt) ∧
    orset_run (Some (w_empty (str "b"))) [(d2, Some 3); (d1, Some 3); (d2, Some 4)] = (Some ob, Ok tt) ∧
    os_elements oa = os_elements ob.
Proof.
  intros d1 d2. eexists _, _. split; [reflexivity|]. split; [reflexivity|].
  assert (msg_ok d1 ∧ msg_ok d2) as [Hd1 Hd2] by by split; apply w_delta_ok.
  refine (proj1 (ORSet_convergence (w_empty (str "a")) (w_empty (str "b")) _ _
    [(d1, Some 8); (d2, Some 9)] [(d2, Some 3); (d1, Some 3); (d2, Some 4)]
    (w_empty_wf (str "a") eq_refl) (w_empty_wf (str "b") eq_refl) _ _ eq_refl eq_refl _)).
  - repeat (apply Forall_cons; split); done.
  - repeat (apply Forall_cons; split); done.
  - intros s. simpl. set_solver.
Defined.

Definition w_net : net :=
  mkNet {[str "a" := w_empty (str "a"); str "b" := w_empty (str "b")]} [] [].

Lemma w_net_reachable : net_reachable w_net.
Proof.
  apply net_start. split; [done|]. split; [done|]. intros r o Hr. unfold w_net in Hr. cbn [nodes] in Hr.
  apply lookup_insert_Some in Hr as [[<- <-]|[_ Hr]].
  - split; [done|]. by exists (w_hlc (str "a")).
  - apply lookup_singleton_Some in Hr as [<- <-]. split; [done|]. by exists (w_hlc (str "b")).
Qed.

(** Both replicas add the same element at the same time. *)
Lemma w_net_added :
  ∃ n da db, net_reachable n ∧ added n = [(str "b", str "x", db); (str "a", str "x", da)].
Proof.
  assert (∃ o, ORSet_Add (Some (w_empty (str "a"))) (str "x") (Some 9) = (Some o, Ok (w_delta (str "x") (mkTag (str "a") 9 0))))
    as [oa Ha] by (eexists; reflexivity).
  assert (∃ o, ORSet_Add (Some (w_empty (str "b"))) (str "x") (Some 9) = (Some o, Ok (w_delta (str "x") (mkTag (str "b") 9 0))))
    as [ob Hb] by (eexists; reflexivity).
  eexists _, _, _. split.
  - eapply net_next; [eapply net_next; [exact w_net_reachable|]|].
    + eapply (net_add _ (str "a")); cycle 2; [exact Ha| |done]. cbn [nodes w_net]. by rewrite lookup_insert_eq.
    + eapply (net_add _ (str "b")); cycle 2; [exact Hb| |done]. cbn [nodes w_net]. rewrite !lookup_insert_ne by discriminate. apply lookup_singleton_eq.
  - reflexivity.
Qed.

Lemma ORSet_network_safe_witness :
  ∃ n da db t, net_reachable n ∧ added n = [(str "b", str "x", db); (str "a", str "x", da)] ∧
    od_state da = ({[str "x" := {[t]}]}, ∅) ∧ ReplicaID t = str "a" ∧ ¬ known (od_state db) t.
Proof.
  destruct w_net_added as (n & da & db & Hn & Hlog).
  destruct (ORSet_network_safe n Hn) as (_ & _ & Htags & _).
  destruct (Htags 1%nat (str "a") (str "x") da) as (t & Hd & Hr & Huniq); [by rewrite Hlog|].
  exists n, da, db, t. split; [exact Hn|]. split; [exact Hlog|]. split; [exact Hd|]. split; [exact Hr|].
  intros Hk. assert (1%nat = 0%nat) by (eapply Huniq; [by rewrite Hlog|exact Hk]). discriminate.
Defined.
