(* ===== verification/ORSetCodec.v ===== *)
(** * Canonical frames of observed-remove sets

    Models the encoder and decoder of src/set/orset.go: elements sorted by their
    encoded bytes, tags sorted within each element, tombstones sorted, all within
    the decoder limits. *)

From S2P Require Import Prelude Tags Clock Lattice Wire Frame Codec GSet ORSet.

Section orset_codec_model.
Context {T : Type} `{Countable T}.
Abbreviation adds_map := (gmap T (gset Tag)).

(** [orSetMarshalPlan]: the entries in the order the map yields them, each with
    its tags, and the tombstones. *)
Record orSetMarshalPlan := mkPlan {
  plan_entries : list (T * list Tag);
  plan_tombstones : list Tag
}.

(** [newORSetMarshalPlan], for an order in which the maps are visited. *)
Definition planOrder (order : list (T * list Tag)) (tombstones : list Tag)
    (adds : adds_map) (tombs : gset Tag) : result orSetMarshalPlan :=
  match validateState adds tombs with
  | Err e => Err e
  | Ok _ => Ok (mkPlan order tombstones)
  end.

Definition adds_order (adds : adds_map) : list (T * list Tag) :=
  (λ '(element, tags), (element, elements tags)) <$> map_to_list adds.

Definition newORSetMarshalPlan (adds : adds_map) (tombs : gset Tag) : result orSetMarshalPlan :=
  planOrder (adds_order adds) (elements tombs) adds tombs.

(** [frontierForORSetMarshalPlan] *)
Definition frontierForORSetMarshalPlan (plan : orSetMarshalPlan) : gmap bytes Tag :=
  foldl frontier_step (foldl frontier_step ∅ (concat (plan_entries plan).*2)) (plan_tombstones plan).

(** The loop that encodes the entries of a plan. *)
Fixpoint orsetEncode (codec : boundElementCodec T) (limits : DecoderLimits)
    (entries : list (T * list Tag)) : result (list (bytes * list Tag)) :=
  match entries with
  | [] => Ok []
  | (element, tags) :: entries' =>
      match bound_marshal codec element with
      | Err e => Err (ErrWrap ErrSetInvalidCodec e)
      | Ok encoded =>
          if MaxStringBytes limits <? len encoded then Err ErrFrameLimit
          else if bool_decide (tags = []) then Err ErrSetInvalidDelta
          else match orsetEncode codec limits entries' with
               | Err e => Err e
               | Ok rest => Ok ((encoded, sort_by Compare tags) :: rest)
               end
      end
  end.

(** The check for equal neighbours after sorting. *)
Fixpoint duplicate_key {A} (entries : list (bytes * A)) : bool :=
  match entries with
  | (k1, _) :: (((k2, _) :: _) as entries') => bool_decide (k1 = k2) || duplicate_key entries'
  | _ => false
  end.

(** [orSetCountAsUint64] *)
Definition orSetCountAsUint64 (value : Z) : option Z := if value <? 0 then None else Some value.

(** The size loop over the tags of an element or the tombstones; the state is
    [payloadSize] and [tagCount]. *)
Fixpoint tagsSize (limits : DecoderLimits) (tags : list Tag) (acc : Z * Z) : result (Z * Z) :=
  match tags with
  | [] => Ok acc
  | tag :: tags' =>
      let '(payloadSize, tagCount) := acc in
      if tagCount =? MaxTags limits then Err ErrFrameLimit
      else if MaxStringBytes limits <? len (ReplicaID tag) then Err ErrFrameLimit
      else if MaxPayload limits - payloadSize <? TagSize tag then Err ErrFrameLimit
      else tagsSize limits tags' (payloadSize + TagSize tag, tagCount + 1)
  end.

(** The size loop over the entries. *)
Fixpoint entriesSize (limits : DecoderLimits) (entries : list (bytes * list Tag)) (acc : Z * Z)
    : result (Z * Z) :=
  match entries with
  | [] => Ok acc
  | (encoded, tags) :: entries' =>
      let '(payloadSize, tagCount) := acc in
      match orSetCountAsUint64 (len tags) with
      | None => Err ErrSetInvalidDelta
      | Some tagCountForElement =>
          let additional := UvarintSize (len encoded) + len encoded + UvarintSize tagCountForElement in
          if MaxPayload limits - payloadSize <? additional then Err ErrFrameLimit
          else match tagsSize limits tags (payloadSize + additional, tagCount) with
               | Err e => Err e
               | Ok acc => entriesSize limits entries' acc
               end
      end
  end.

(** The appends of one entry. *)
Definition appendEntry (payload : bytes) (entry : bytes * list Tag) : bytes :=
  let payload := appendBytes payload entry.1 in
  let payload := AppendUvarint payload (len entry.2) in
  foldl AppendTag payload entry.2.

(** [marshalORSetPlanWithLimits] *)
Definition marshalORSetPlanWithLimits (typeID : Z) (codec : boundElementCodec T)
    (plan : orSetMarshalPlan) (limits : DecoderLimits) : result bytes :=
  if blank (bound_id codec) || (MaxCodecID limits <? len (bound_id codec)) then Err ErrSetInvalidCodec
  else match orsetEncode codec limits (plan_entries plan) with
  | Err e => Err e
  | Ok entries =>
      let entries := sort_by (λ l r, bytes_compare l.1 r.1) entries in
      if duplicate_key entries then Err ErrSetInvalidCodec
      else if MaxElements limits <? len entries then Err ErrFrameLimit
      else match entriesSize limits entries (UvarintSize (len entries), 0) with
      | Err e => Err e
      | Ok (payloadSize, tagCount) =>
          let tags := sort_by Compare (plan_tombstones plan) in
          let additional := UvarintSize (len tags) in
          if MaxPayload limits - payloadSize <? additional then Err ErrFrameLimit
          else match tagsSize limits tags (payloadSize + additional, tagCount) with
          | Err e => Err e
          | Ok (payloadSize, _) =>
              let payload := AppendUvarint [] (len entries) in
              let payload := foldl appendEntry payload entries in
              let payload := AppendUvarint payload (len tags) in
              let payload := foldl AppendTag payload tags in
              MarshalFrameWithPayload typeID (bound_id codec) payloadSize
                (exactWriter payload payloadSize)
          end
      end
  end.

(** [marshalORSetPlan] *)
Definition marshalORSetPlan (typeID : Z) (codec : boundElementCodec T) (plan : orSetMarshalPlan)
    : result bytes :=
  marshalORSetPlanWithLimits typeID codec plan DefaultLimits.

(** [marshalORSetWithLimits] *)
Definition marshalORSetWithLimits (typeID : Z) (codec : ptr (ElementCodec T)) (adds : adds_map)
    (tombs : gset Tag) (limits : DecoderLimits) : result bytes :=
  bound ← bindElementCodec codec;
  plan ← newORSetMarshalPlan adds tombs;
  marshalORSetPlanWithLimits typeID bound plan limits.

(** [marshalORSet] *)
Definition marshalORSet (typeID : Z) (codec : ptr (ElementCodec T)) (adds : adds_map)
    (tombs : gset Tag) : result bytes :=
  marshalORSetWithLimits typeID codec adds tombs DefaultLimits.

(** [ORSet.MarshalBinary] *)
Definition ORSet_MarshalBinary (s : ptr (ORSet T)) : result bytes :=
  match s with
  | None => Err ErrNilORSet
  | Some o =>
      plan ← newORSetMarshalPlan (os_elements o) (os_tombstones o);
      marshalORSetPlan TypeIDORSetState (os_codec o) plan
  end.

(** [ORSet.MarshalBinaryWithClockState] *)
Definition ORSet_MarshalBinaryWithClockState (s : ptr (ORSet T)) : result (bytes * ClockState) :=
  match s with
  | None => Err ErrNilORSet
  | Some o =>
      match os_clock o with
      | None => Err ErrNilORSet
      | Some _ =>
          plan ← newORSetMarshalPlan (os_elements o) (os_tombstones o);
          encoded ← marshalORSetPlan TypeIDORSetState (os_codec o) plan;
          Ok (encoded, HLC_Snapshot (os_clock o))
      end
  end.

(** [ORSetDelta.MarshalBinary] *)
Definition ORSetDelta_MarshalBinary (d : ORSetDelta T) (codec : ptr (ElementCodec T)) : result bytes :=
  marshalORSet TypeIDORSetDelta codec (od_adds d) (od_tombstones d).

(** ** Decoding *)

(** [orSetLimit] *)
Definition orSetLimit (value : Z) : option Z := if value <=? 0 then None else Some value.

(** [orSetMapCapacity] *)
Definition orSetMapCapacity (value : Z) : option Z := if maxInt <? value then None else Some value.

(** The body of the loop over the tags of one element: the accumulator is
    [tags], [liveTags], [previousTag] and [tagCount]. *)
Definition liveTagStep (payload : bytes) (maxStringBytes : Z) (j : Z)
    (acc : gset Tag * gset Tag * Tag * Z) (pos : Z) : result ((gset Tag * gset Tag * Tag * Z) * Z) :=
  let '(tags, liveTags, previousTag, tagCount) := acc in
  match ReadTag payload pos maxStringBytes with
  | None => Err ErrInvalidFrame
  | Some (tag, next) =>
      if (0 <? j) && (0 <=? Compare previousTag tag) then Err ErrInvalidFrame
      else if bool_decide (tag ∈ liveTags) then Err ErrInvalidFrame
      else Ok (({[tag]} ∪ tags, {[tag]} ∪ liveTags, tag, tagCount + 1), next)
  end.

(** The body of the loop over the elements: the accumulator is [adds],
    [liveTags], [previousElement] and [tagCount]. *)
Definition elementStep (codec : boundElementCodec T) (payload : bytes) (maxTags maxStringBytes : Z)
    (i : Z) (acc : adds_map * gset Tag * bytes * Z) (pos : Z)
    : result ((adds_map * gset Tag * bytes * Z) * Z) :=
  let '(adds, liveTags, previousElement, tagCount) := acc in
  match ReadBytes payload pos maxStringBytes with
  | None => Err ErrInvalidFrame
  | Some (elementBytes, next) =>
      if (0 <? i) && (0 <=? bytes_compare previousElement elementBytes) then Err ErrInvalidFrame
      else match bound_unmarshal codec elementBytes with
      | Err e => Err (ErrWrap ErrSetInvalidCodec e)
      | Ok element =>
          match bound_marshal codec element with
          | Err _ => Err ErrSetInvalidCodec
          | Ok canonical =>
              if negb (bool_decide (canonical = elementBytes)) then Err ErrSetInvalidCodec
              else if bool_decide (is_Some (adds !! element)) then Err ErrInvalidFrame
              else match ReadUvarint payload next with
              | None => Err ErrInvalidFrame
              | Some (count, next) =>
                  if (count =? 0) || (maxTags - tagCount <? count) then Err ErrInvalidFrame
                  else match orSetMapCapacity count with
                  | None => Err ErrInvalidFrame
                  | Some _ =>
                      match read_loop (liveTagStep payload maxStringBytes) (S (length payload)) 0 count
                              next (∅, liveTags, zeroTag, tagCount) with
                      | Err e => Err e
                      | Ok ((tags, liveTags, _, tagCount), pos) =>
                          Ok ((<[element := tags]> adds, liveTags, elementBytes, tagCount), pos)
                      end
                  end
              end
          end
      end
  end.

(** The body of the loop over the tombstones: the accumulator is [tombstones]
    and [previousTombstone]. *)
Definition tombstoneStep (payload : bytes) (maxStringBytes : Z) (liveTags : gset Tag) (i : Z)
    (acc : gset Tag * Tag) (pos : Z) : result ((gset Tag * Tag) * Z) :=
  let '(tombstones, previousTombstone) := acc in
  match ReadTag payload pos maxStringBytes with
  | None => Err ErrInvalidFrame
  | Some (tag, next) =>
      if (0 <? i) && (0 <=? Compare previousTombstone tag) then Err ErrInvalidFrame
      else if bool_decide (tag ∈ liveTags) then Err ErrInvalidFrame
      else Ok (({[tag]} ∪ tombstones, tag), next)
  end.

(** The payload part of [unmarshalORSetWithCodec]. *)
Definition decodeORSet (payload : bytes) (codec : boundElementCodec T) (limits : DecoderLimits)
    : result (adds_map * gset Tag) :=
  match orSetLimit (MaxElements limits), orSetLimit (MaxTags limits) with
  | Some maxElements, Some maxTags =>
      match ReadUvarint payload 0 with
      | None => Err ErrInvalidFrame
      | Some (elementCount, pos) =>
          if maxElements <? elementCount then Err ErrInvalidFrame
          else match orSetMapCapacity elementCount with
          | None => Err ErrInvalidFrame
          | Some _ =>
              match read_loop (elementStep codec payload maxTags (MaxStringBytes limits))
                      (S (length payload)) 0 elementCount pos (∅, ∅, [], 0) with
              | Err e => Err e
              | Ok ((adds, liveTags, _, tagCount), pos) =>
                  match ReadUvarint payload pos with
                  | None => Err ErrInvalidFrame
                  | Some (tombstoneCount, pos) =>
                      if maxTags - tagCount <? tombstoneCount then Err ErrInvalidFrame
                      else match orSetMapCapacity tombstoneCount with
                      | None => Err ErrInvalidFrame
                      | Some _ =>
                          match read_loop (tombstoneStep payload (MaxStringBytes limits) liveTags)
                                  (S (length payload)) 0 tombstoneCount pos (∅, zeroTag) with
                          | Err e => Err e
                          | Ok ((tombstones, _), pos) =>
                              if negb (pos =? len payload) then Err ErrInvalidFrame
                              else Ok (adds, tombstones)
                          end
                      end
                  end
              end
          end
      end
  | _, _ => Err ErrInvalidFrame
  end.

Section orset_unmarshal.
Context `{F : Flate}.

(** [unmarshalORSetWithCodec] *)
Definition unmarshalORSetWithCodec (data : bytes) (expectedTypeID : Z) (codec : boundElementCodec T)
    (limits : DecoderLimits) : result (adds_map * gset Tag) :=
  match UnmarshalFrame data limits with
  | Err e => Err e
  | Ok decoded =>
      if negb (TypeID decoded =? expectedTypeID) ||
         negb (bool_decide (CodecID decoded = bound_id codec))
      then Err ErrSetCodecMismatch
      else decodeORSet (Payload decoded) codec limits
  end.

(** [unmarshalORSet] *)
Definition unmarshalORSet (data : bytes) (expectedTypeID : Z) (codec : ptr (ElementCodec T))
    (limits : DecoderLimits) : result (adds_map * gset Tag) :=
  bound ← bindElementCodec codec; unmarshalORSetWithCodec data expectedTypeID bound limits.

(** [UnmarshalORSetDeltaWithLimits] *)
Definition UnmarshalORSetDeltaWithLimits (data : bytes) (codec : ptr (ElementCodec T))
    (limits : DecoderLimits) : result (ORSetDelta T) :=
  '(adds, tombstones) ← unmarshalORSet data TypeIDORSetDelta codec limits;
  Ok (mkORSetDelta adds tombstones).

(** [UnmarshalORSetDelta] *)
Definition UnmarshalORSetDelta (data : bytes) (codec : ptr (ElementCodec T)) : result (ORSetDelta T) :=
  UnmarshalORSetDeltaWithLimits data codec DefaultLimits.

(** [ORSet.UnmarshalBinaryWithLimits] *)
Definition ORSet_UnmarshalBinaryWithLimits (s : ptr (ORSet T)) (data : bytes) (limits : DecoderLimits)
    (now : option Z) : ptr (ORSet T) * result unit :=
  match s with
  | None => (None, Err ErrNilORSet)
  | Some o =>
      match unmarshalORSetWithCodec data TypeIDORSetState (os_codec o) limits with
      | Err e => (s, Err e)
      | Ok state =>
          match greatestStateTag state.1 state.2 with
          | None => (Some (os_with o (os_clock o) state), Ok tt)
          | Some tag =>
              match Witness (os_clock o) tag now with
              | (hlc, Err e) => (Some (os_with o hlc (os_state o)), Err e)
              | (hlc, Ok _) => (Some (os_with o hlc state), Ok tt)
              end
          end
      end
  end.

(** [ORSet.UnmarshalBinary] *)
Definition ORSet_UnmarshalBinary (s : ptr (ORSet T)) (data : bytes) (now : option Z)
    : ptr (ORSet T) * result unit :=
  ORSet_UnmarshalBinaryWithLimits s data DefaultLimits now.
End orset_unmarshal.
End orset_codec_model.

Arguments orSetMarshalPlan T : clear implicits.

(** ** Decoding loops *)

Section orset_loops.
Context {T : Type} `{Countable T} (payload : bytes) (limits : DecoderLimits).

(** The accumulator of the loop over one element's tags. *)
Definition live_acc (seen : gset Tag) (n : Z) (l : list Tag) : gset Tag * gset Tag * Tag * Z :=
  (list_to_set l, list_to_set l ∪ seen, default zeroTag (last l), n + len l).

Lemma live_acc_snoc seen n l t :
  live_acc seen n (l ++ [t]) =
  ({[t]} ∪ list_to_set l, {[t]} ∪ (list_to_set l ∪ seen), t, n + len l + 1).
Proof.
  unfold live_acc. rewrite last_snoc, list_to_set_app_L, len_app. simpl. unfold len at 2. simpl.
  f_equal; [|lia]. f_equal. f_equal; set_solver.
Qed.

Lemma liveTagStep_ok seen n l t pos rest :
  accepted (next_tag (MaxStringBytes limits) seen) l → next_tag (MaxStringBytes limits) seen l t →
  remaining payload pos (tag_enc t ++ rest) →
  liveTagStep payload (MaxStringBytes limits) (len l) (live_acc seen n l) pos =
    Ok (live_acc seen n (l ++ [t]), pos + len (tag_enc t)).
Proof.
  intros [Hinc _]%accepted_tags ((Hw & Hv & Hok & Hmax) & Hseen & Hlast) Hr. rewrite live_acc_snoc.
  pose proof (increasing_fresh Compare l t Hinc Hlast) as Hfresh. unfold liveTagStep, live_acc.
  apply (ReadTag_ok _ _ (MaxStringBytes limits)) in Hr as [-> _]; [|done..].
  rewrite (proj2 (order_guard Compare zeroTag l t)) by done.
  rewrite bool_decide_false by set_solver. by rewrite len_tag_enc.
Qed.

Lemma liveTagStep_inv seen n l pos acc' pos' :
  accepted (next_tag (MaxStringBytes limits) seen) l → 0 <= pos <= len payload →
  liveTagStep payload (MaxStringBytes limits) (len l) (live_acc seen n l) pos = Ok (acc', pos') →
  ∃ t rest, next_tag (MaxStringBytes limits) seen l t ∧ acc' = live_acc seen n (l ++ [t]) ∧
    pos' = pos + len (tag_enc t) ∧ remaining payload pos (tag_enc t ++ rest).
Proof.
  intros Hacc Hp. unfold liveTagStep, live_acc at 1.
  destruct (ReadTag _ _ _) as [[t next]|] eqn:R; [|done].
  apply ReadTag_inv in R as (Hw & Hv & Hok & Hmax & -> & rest & Hr & _).
  destruct (_ && _) eqn:G; [done|]. rewrite (order_guard Compare zeroTag l t) in G.
  case_bool_decide; [done|]. intros [= <- <-]. exists t, rest. rewrite live_acc_snoc, len_tag_enc.
  split; [|done]. split; [done|]. split; [set_solver|done].
Qed.

(** The tags of one element: sorted, acceptable and not seen before. *)
Lemma liveTags_iff seen n count pos acc' pos' :
  0 <= count → 0 <= pos <= len payload →
  read_loop (liveTagStep payload (MaxStringBytes limits)) (S (length payload)) 0 count pos
    (∅, seen, zeroTag, n) = Ok (acc', pos') ↔
  ∃ l rest, (increasing Compare l ∧ Forall (λ t, tag_ok (MaxStringBytes limits) t ∧ t ∉ seen) l) ∧
    len l = count ∧ acc' = live_acc seen n l ∧ pos' = pos + len (concat (tag_enc <$> l)) ∧
    remaining payload pos (concat (tag_enc <$> l) ++ rest).
Proof.
  intros Hc Hp. setoid_rewrite <-accepted_tags.
  assert ((∅, seen, zeroTag, n) = live_acc seen n []) as ->.
  { unfold live_acc. simpl. rewrite len_nil, Z.add_0_r. do 3 f_equal. set_solver. }
  apply (read_loop_iff payload _ tag_enc (next_tag (MaxStringBytes limits) seen) (live_acc seen n)
    tag_enc_pos (liveTagStep_ok seen n) (liveTagStep_inv seen n)); done.
Qed.

Definition tomb_acc (l : list Tag) : gset Tag * Tag := (list_to_set l, default zeroTag (last l)).

Lemma tombstones_iff seen count pos acc' pos' :
  0 <= count → 0 <= pos <= len payload →
  read_loop (tombstoneStep payload (MaxStringBytes limits) seen) (S (length payload)) 0 count pos
    (∅, zeroTag) = Ok (acc', pos') ↔
  ∃ l rest, (increasing Compare l ∧ Forall (λ t, tag_ok (MaxStringBytes limits) t ∧ t ∉ seen) l) ∧
    len l = count ∧ acc' = tomb_acc l ∧ pos' = pos + len (concat (tag_enc <$> l)) ∧
    remaining payload pos (concat (tag_enc <$> l) ++ rest).
Proof.
  intros Hc Hp. setoid_rewrite <-accepted_tags.
  change (∅ : gset Tag, zeroTag) with (tomb_acc []).
  assert (∀ l t, tomb_acc (l ++ [t]) = ({[t]} ∪ list_to_set l, t)) as Hsnoc.
  { intros l t. unfold tomb_acc. rewrite last_snoc, list_to_set_app_L. simpl. f_equal. set_solver. }
  apply (read_loop_iff payload _ tag_enc (next_tag (MaxStringBytes limits) seen) tomb_acc
    tag_enc_pos); [| |done|done].
  - intros l t p rest _ ((Hw & Hv & Hok & Hmax) & Hseen & Hlast) Hr. rewrite Hsnoc.
    unfold tombstoneStep, tomb_acc.
    apply (ReadTag_ok _ _ (MaxStringBytes limits)) in Hr as [-> _]; [|done..].
    rewrite (proj2 (order_guard Compare zeroTag l t)) by done.
    rewrite bool_decide_false by done. by rewrite len_tag_enc.
  - intros l p a p' _ _. unfold tombstoneStep, tomb_acc at 1.
    destruct (ReadTag _ _ _) as [[t next]|] eqn:R; [|done].
    apply ReadTag_inv in R as (Hw & Hv & Hok & Hmax & -> & rest & Hr & _).
    destruct (_ && _) eqn:G; [done|]. rewrite (order_guard Compare zeroTag l t) in G.
    case_bool_decide; [done|]. intros [= <- <-]. exists t, rest. by rewrite Hsnoc, len_tag_enc.
Qed.
End orset_loops.

(** ** Decoded elements *)

Section orset_elements.
Context {T : Type} `{Countable T} (codec : boundElementCodec T) (limits : DecoderLimits).

(** An element with its encoding and its sorted tags. *)
Abbreviation encoded_entry := (T * bytes * list Tag)%type.

Definition orset_enc (e : encoded_entry) : bytes :=
  bytes_enc e.1.2 ++ putUvarint (len e.2) ++ concat (tag_enc <$> e.2).

Definition all_tags (l : list encoded_entry) : list Tag := concat l.*2.

Definition adds_of (l : list encoded_entry) : gmap T (gset Tag) :=
  list_to_map ((λ e : encoded_entry, (e.1.1, list_to_set e.2)) <$> l).

Definition orset_entry_ok (e : encoded_entry) : Prop :=
  member_ok codec limits e.1 ∧ e.2 ≠ [] ∧ increasing Compare e.2 ∧
  Forall (tag_ok (MaxStringBytes limits)) e.2.

Definition next_orset_entry (l : list encoded_entry) (e : encoded_entry) : Prop :=
  (orset_entry_ok e ∧ len_ok e.1.2 ∧ bound_unmarshal codec e.1.2 = Ok e.1.1) ∧
  (∀ k, last l.*1.*2 = Some k → bytes_compare k e.1.2 < 0) ∧
  (∀ t, t ∈ e.2 → t ∉ all_tags l) ∧ len (all_tags l) + len e.2 <= MaxTags limits.

Definition elem_acc (l : list encoded_entry) : gmap T (gset Tag) * gset Tag * bytes * Z :=
  (adds_of l, list_to_set (all_tags l), default [] (last l.*1.*2), len (all_tags l)).

Lemma all_tags_app l e : all_tags (l ++ [e]) = all_tags l ++ e.2.
Proof. unfold all_tags. rewrite fmap_app, concat_app. simpl. by rewrite app_nil_r. Qed.

Lemma accepted_orset_entries l :
  0 <= MaxTags limits →
  accepted next_orset_entry l ↔
  increasing bytes_compare l.*1.*2 ∧
  Forall (λ e, orset_entry_ok e ∧ len_ok e.1.2 ∧ bound_unmarshal codec e.1.2 = Ok e.1.1) l ∧
  NoDup (all_tags l) ∧ len (all_tags l) <= MaxTags limits.
Proof.
  intros Hmax. split.
  - induction 1 as [|l e Hl (IH1 & IH2 & IH3 & IH4) (He1 & He2 & He3 & He4)].
    { split; [constructor|]. split; [constructor|]. split; [constructor|done]. }
    rewrite all_tags_app, len_app, !fmap_app. simpl.
    split; [by apply increasing_snoc_iff; [apply _|]|].
    split; [apply Forall_app; split; [done|]; by apply Forall_singleton|]. split; [|lia].
    destruct He1 as [(_ & _ & Hi & _) _]. apply NoDup_app. split; [done|].
    split; [|by apply (increasing_NoDup Compare)]. intros t Ht Ht'. by apply (He3 t).
  - induction l as [|e l IH] using rev_ind; intros (Hinc & Hok & Hnd & Hlen); [constructor|].
    rewrite !fmap_app in Hinc. apply increasing_snoc_iff in Hinc as [Hinc Hlast]; [|apply _].
    apply Forall_app in Hok as [Hok He]. apply Forall_inv in He.
    rewrite all_tags_app in *. rewrite len_app in Hlen. apply NoDup_app in Hnd as (Hnd & Hd & _).
    pose proof (len_nonneg e.2). constructor; [apply IH; repeat split; auto; lia|].
    split; [done|]. split; [done|]. split; [|done]. intros t Ht Ht'. by apply (Hd t).
Qed.

Lemma accepted_entry_fresh l e :
  0 <= MaxTags limits → accepted next_orset_entry l → next_orset_entry l e → adds_of l !! e.1.1 = None.
Proof.
  intros Hmax Hl He. assert (accepted next_orset_entry (l ++ [e])) as (Hi & Hok & _)%accepted_orset_entries
    by (by constructor || done); [|done].
  assert (NoDup (l ++ [e]).*1.*1) as Hnd.
  { apply (members_NoDup codec); [done|]. apply Forall_fmap.
    eapply Forall_impl; [exact Hok|]. by intros ? [[[? _] _] _]. }
  rewrite !fmap_app in Hnd. apply NoDup_app in Hnd as (_ & Hd & _).
  apply not_elem_of_list_to_map_1. rewrite <-list_fmap_compose. intros Hin.
  apply (Hd e.1.1); [|by left]. by rewrite <-list_fmap_compose.
Qed.

Lemma adds_of_snoc l e :
  adds_of l !! e.1.1 = None → adds_of (l ++ [e]) = <[e.1.1 := list_to_set e.2]> (adds_of l).
Proof.
  intros Hn. unfold adds_of. rewrite fmap_app, list_to_map_app. simpl.
  rewrite insert_empty. apply map_eq. intros x.
  destruct (decide (x = e.1.1)) as [->|Hx].
  - rewrite lookup_insert_eq. unfold adds_of in Hn. rewrite lookup_union_r by done.
    by rewrite lookup_singleton_eq.
  - rewrite lookup_insert_ne by done. rewrite lookup_union_l; [done|]. by rewrite lookup_singleton_ne.
Qed.

Lemma elem_acc_snoc l e :
  adds_of l !! e.1.1 = None →
  elem_acc (l ++ [e]) =
  (<[e.1.1 := list_to_set e.2]> (adds_of l), list_to_set e.2 ∪ list_to_set (all_tags l), e.1.2,
   len (all_tags l) + len e.2).
Proof.
  intros Hn. unfold elem_acc. rewrite adds_of_snoc, all_tags_app, len_app, !fmap_app by done. simpl.
  rewrite last_snoc, list_to_set_app_L. simpl. do 3 f_equal. set_solver.
Qed.

Lemma orset_enc_pos e : 1 <= len (orset_enc e).
Proof.
  unfold orset_enc. rewrite len_app. pose proof (bytes_enc_pos e.1.2).
  pose proof (len_nonneg (putUvarint (len e.2) ++ concat (tag_enc <$> e.2))). lia.
Qed.

Lemma elementStep_ok payload l e pos rest :
  limits_int limits → 0 <= MaxTags limits → accepted (next_orset_entry) l → next_orset_entry l e →
  remaining payload pos (orset_enc e ++ rest) →
  elementStep codec payload (MaxTags limits) (MaxStringBytes limits) (len l) (elem_acc l) pos =
    Ok (elem_acc (l ++ [e]), pos + len (orset_enc e)).
Proof.
  intros Hint Hmax Hl He Hr. pose proof (accepted_entry_fresh l e Hmax Hl He) as Hfresh.
  rewrite elem_acc_snoc by done.
  destruct He as ((([Hm Hb] & Hne & Hi & Hts) & Hok & Hu) & Hlast & Hnew & Hcount).
  unfold elementStep, elem_acc. unfold orset_enc in *. rewrite <-!app_assoc in Hr.
  apply (ReadBytes_ok _ _ (MaxStringBytes limits)) in Hr as [-> Hr]; [|done..].
  rewrite <-(len_fmap fst l), <-(len_fmap snd l.*1), (proj2 (order_guard bytes_compare [] l.*1.*2 e.1.2))
    by done.
  rewrite Hu, Hm, bool_decide_true by done. cbn [negb].
  rewrite (bool_decide_false (is_Some _)) by (rewrite Hfresh; by intros [??]).
  assert (0 < len e.2 <= maxInt) as Hlen.
  { destruct e as [x [|t ts]]; [done|]. simpl in *. rewrite len_cons in *. unfold limits_int in Hint.
    pose proof (len_nonneg ts). pose proof (len_nonneg (all_tags l)). lia. }
  apply ReadUvarint_ok in Hr as [-> Hr]; [|unfold is_u64, maxInt in *; lia]. guard_false.
  unfold orSetMapCapacity. guard_false.
  rewrite (proj2 (liveTags_iff payload limits (list_to_set (all_tags l)) (len (all_tags l)) (len e.2) _
    (live_acc (list_to_set (all_tags l)) (len (all_tags l)) e.2)
    (pos + len (bytes_enc e.1.2) + UvarintSize (len e.2) + len (concat (tag_enc <$> e.2)))
    (len_nonneg e.2) (proj1 Hr))).
  - unfold live_acc. do 2 f_equal. rewrite !len_app. unfold UvarintSize. lia.
  - exists e.2, rest. split; [|done]. split; [done|]. rewrite Forall_forall in Hts |- *.
    intros t Ht. split; [by apply Hts|]. rewrite elem_of_list_to_set. by apply Hnew.
Qed.

Lemma elementStep_inv payload l pos acc' pos' :
  accepted next_orset_entry l → 0 <= pos <= len payload →
  elementStep codec payload (MaxTags limits) (MaxStringBytes limits) (len l) (elem_acc l) pos =
    Ok (acc', pos') →
  ∃ e rest, next_orset_entry l e ∧ acc' = elem_acc (l ++ [e]) ∧ pos' = pos + len (orset_enc e) ∧
    remaining payload pos (orset_enc e ++ rest).
Proof.
  intros Hl Hp. unfold elementStep, elem_acc at 1.
  destruct (ReadBytes _ _ _) as [[b next]|] eqn:R; [|done].
  apply ReadBytes_inv in R as (Hok & Hb & -> & r1 & Hr1 & Hr1').
  rewrite <-(len_fmap fst l), <-(len_fmap snd l.*1). destruct (_ && _) eqn:G; [done|].
  rewrite (order_guard bytes_compare [] l.*1.*2 b) in G.
  destruct (bound_unmarshal codec b) as [x|] eqn:Hu; [|done].
  destruct (bound_marshal codec x) as [b'|] eqn:Hm; [|done].
  destruct (negb _) eqn:G2; [done|]. breflect. subst b'. case_bool_decide as Hx; [done|].
  destruct (ReadUvarint _ _) as [[count p]|] eqn:R; [|done].
  apply ReadUvarint_inv in R as (Hcount & -> & r2 & Hr2 & Hr2').
  unfold orSetMapCapacity. destruct (_ || _) eqn:G3; [done|]. breflect. guard_step.
  destruct (read_loop _ _ _ _ _ _) as [[[[[tags seen] prev] n] p]|] eqn:L; [|done].
  apply liveTags_iff in L as (ts & rest & [Hi Hts] & <- & Habs & -> & Hr3);
    [|unfold is_u64 in Hcount; lia|apply Hr2'].
  intros [= <- <-]. injection Habs as -> -> -> ->. rewrite Forall_forall in Hts.
  exists (x, b, ts), rest. rewrite elem_acc_snoc by (simpl; by apply eq_None_not_Some). split; [|split; [done|]].
  - split; [|split; [done|]].
    + split; [|done]. split; [done|]. split; [by destruct ts|]. split; [done|].
      apply Forall_forall. intros t Ht. by apply Hts.
    + simpl. split; [|lia]. intros t Ht. apply Hts in Ht as [_ Ht]. by rewrite elem_of_list_to_set in Ht.
  - unfold orset_enc. cbn [fst snd]. rewrite !len_app. split; [unfold UvarintSize; lia|].
    rewrite <-!app_assoc. eapply remaining_cons; [exact Hr1|]. eapply remaining_cons; [exact Hr2|done].
Qed.

(** The canonical payload of sorted elements and sorted tombstones. *)
Definition orset_payload (l : list encoded_entry) (ts : list Tag) : bytes :=
  putUvarint (len l) ++ concat (orset_enc <$> l) ++ putUvarint (len ts) ++ concat (tag_enc <$> ts).

Lemma elements_loop payload count pos acc' pos' :
  limits_int limits → 0 <= MaxTags limits → 0 <= count → 0 <= pos <= len payload →
  read_loop (elementStep codec payload (MaxTags limits) (MaxStringBytes limits)) (S (length payload)) 0
    count pos (∅, ∅, [], 0) = Ok (acc', pos') ↔
  ∃ l rest, accepted next_orset_entry l ∧ len l = count ∧ acc' = elem_acc l ∧
    pos' = pos + len (concat (orset_enc <$> l)) ∧ remaining payload pos (concat (orset_enc <$> l) ++ rest).
Proof.
  intros Hint Hmax Hc Hp.
  apply (read_loop_iff payload _ orset_enc next_orset_entry elem_acc orset_enc_pos
    (λ l e p r, elementStep_ok payload l e p r Hint Hmax) (elementStep_inv payload)); done.
Qed.

(** The sorted tombstones a decoder accepts after the elements [l]. *)
Definition tombs_ok (l : list encoded_entry) (ts : list Tag) : Prop :=
  increasing Compare ts ∧
  Forall (λ t, tag_ok (MaxStringBytes limits) t ∧ t ∉ (list_to_set (all_tags l) : gset Tag)) ts ∧
  len (all_tags l) + len ts <= MaxTags limits.

Lemma decodeORSet_iff payload adds tombs :
  limits_int limits → 0 < MaxElements limits → 0 < MaxTags limits →
  decodeORSet payload codec limits = Ok (adds, tombs) ↔
  ∃ l ts, payload = orset_payload l ts ∧ adds = adds_of l ∧ tombs = list_to_set ts ∧
    len l <= MaxElements limits ∧ accepted next_orset_entry l ∧ tombs_ok l ts.
Proof.
  intros Hint Hme Hmt. unfold decodeORSet, orSetLimit, orSetMapCapacity.
  do 2 guard_false. unfold limits_int in Hint. split.
  - destruct (ReadUvarint _ 0) as [[count pos]|] eqn:R; [|done].
    apply ReadUvarint_inv in R as (Hu & -> & r1 & Hr1 & Hr1'). do 2 guard_step.
    destruct (read_loop _ _ _ _ _ _) as [[[[[a seen] prev] n] p]|] eqn:L; [|done].
    apply elements_loop in L as (l & rest & Hacc & <- & Habs & -> & Hr2);
      [|done|lia|unfold is_u64 in Hu; lia|apply Hr1']. injection Habs as -> -> -> ->.
    destruct (ReadUvarint _ _) as [[count p]|] eqn:R; [|done].
    apply ReadUvarint_inv in R as (Hu' & -> & r3 & Hr3 & Hr3'). do 2 guard_step.
    destruct (read_loop _ _ _ _ _ _) as [[[tm prev'] p]|] eqn:L'; [|done].
    apply tombstones_iff in L' as (ts & rest' & [Hi Hts] & <- & Habs & -> & Hr4);
      [|unfold is_u64 in Hu'; lia|apply Hr3']. injection Habs as -> ->.
    guard_step. breflect. intros [= <- <-]. exists l, ts. split; [|repeat (split; [done|]); lia].
    pose proof (remaining_app _ _ _ _ Hr4) as Hend. assert (rest' = []) as ->.
    { apply (remaining_unique payload (len payload)); [congruence|by apply remaining_nil]. }
    rewrite app_nil_r in Hr4. apply (remaining_unique payload 0); [apply remaining_start|].
    unfold orset_payload. eapply remaining_cons; [exact Hr1|]. eapply remaining_cons; [exact Hr2|].
    eapply remaining_cons; [exact Hr3|done].
  - intros (l & ts & Hpay & -> & -> & Hlen & Hacc & Hi & Hts & Hn).
    pose proof (remaining_start payload) as Hr. rewrite Hpay in Hr at 2. unfold orset_payload in Hr.
    pose proof (len_nonneg l). pose proof (len_nonneg ts). pose proof (len_nonneg (all_tags l)).
    apply ReadUvarint_ok in Hr as [-> Hr]; [|unfold is_u64, maxInt in *; lia]. do 2 guard_false.
    pose proof (remaining_app _ _ _ _ Hr) as Hr'.
    rewrite (proj2 (elements_loop payload (len l) _ (elem_acc l)
      (0 + UvarintSize (len l) + len (concat (orset_enc <$> l))) Hint ltac:(lia) ltac:(lia) (proj1 Hr)));
      [|by eexists l, _].
    unfold elem_acc. apply ReadUvarint_ok in Hr' as [-> Hr']; [|unfold is_u64, maxInt in *; lia].
    do 2 guard_false. rewrite <-(app_nil_r (concat (tag_enc <$> ts))) in Hr'.
    pose proof (remaining_app _ _ _ _ Hr') as Hend%remaining_nil.
    rewrite (proj2 (tombstones_iff payload limits _ (len ts) _ (tomb_acc ts)
      (0 + UvarintSize (len l) + len (concat (orset_enc <$> l)) + UvarintSize (len ts) +
       len (concat (tag_enc <$> ts))) ltac:(lia) (proj1 Hr'))); [|by exists ts, []].
    unfold tomb_acc. by guard_false.
Qed.
End orset_elements.

(** ** The encoder *)

Section orset_encoder.
Context {T : Type} `{Countable T} (codec : boundElementCodec T).

(** What the encoder keeps of an entry. *)
Definition keyed (e : T * bytes * list Tag) : bytes * list Tag := (e.1.2, e.2).

Definition keyed_enc (x : bytes * list Tag) : bytes :=
  bytes_enc x.1 ++ putUvarint (len x.2) ++ concat (tag_enc <$> x.2).

Lemma keyed_keys l : (keyed <$> l).*1 = l.*1.*2.
Proof. by rewrite <-!list_fmap_compose. Qed.

Lemma keyed_concat l : concat (keyed_enc <$> (keyed <$> l)) = concat (orset_enc <$> l).
Proof. by rewrite <-list_fmap_compose. Qed.

(** An entry visited by the encoder and the entry it becomes. *)
Definition encodes (limits : DecoderLimits) (x : T * list Tag) (e : T * bytes * list Tag) : Prop :=
  x.1 = e.1.1 ∧ member_ok codec limits e.1 ∧ x.2 ≠ [] ∧ e.2 = sort_by Compare x.2.

Lemma orsetEncode_iff limits order out :
  orsetEncode codec limits order = Ok out ↔
  ∃ l, Forall2 (encodes limits) order l ∧ out = keyed <$> l.
Proof.
  revert out. induction order as [|[x tags] order IH]; intros out; simpl.
  - split; [intros [= <-]; by exists []|]. by intros (l & ->%Forall2_nil_inv_l & ->).
  - split.
    + destruct (bound_marshal codec x) as [b|] eqn:Eb; [|done]. guards.
      destruct (orsetEncode codec limits order) as [rest|]; [|done]. intros [= <-].
      destruct (proj1 (IH rest) eq_refl) as (l & Hl & ->).
      exists ((x, b, sort_by Compare tags) :: l). by repeat constructor.
    + intros (l & ([[y b] ts] & l' & (Hy & [Hm Hb] & Hne & Hts) & Hl & ->)%Forall2_cons_inv_l & ->).
      simpl in *. subst. rewrite Hm. guard_false. rewrite bool_decide_false by done.
      by rewrite (proj2 (IH (keyed <$> l'))) by eauto.
Qed.

Lemma duplicate_key_false {A} (es : list (bytes * A)) :
  StronglySorted (cmp_le bytes_compare) es.*1 →
  duplicate_key es = false ↔ increasing bytes_compare es.*1.
Proof.
  intros Hs. split.
  - induction es as [|[k a] es IH]; simpl in *; [constructor|].
    apply StronglySorted_inv in Hs as [Hs Hk]. destruct es as [|[k' a'] es]; [repeat constructor|].
    simpl in Hs, Hk, IH. intros [Hne Hd]%orb_false_iff. specialize (IH Hs Hd). simpl.
    apply bool_decide_eq_false in Hne. constructor; [done|].
    apply Forall_cons in Hk as [Hk _]. unfold cmp_le in Hk.
    assert (bytes_compare k k' < 0) as Hlt.
    { assert (bytes_compare k k' ≠ 0); [|lia]. by intros ->%(cmp_eq bytes_compare). }
    constructor; [done|]. apply StronglySorted_inv in IH as [_ IH]. eapply Forall_impl; [exact IH|].
    intros c Hc. by apply (cmp_trans bytes_compare k k' c).
  - intros Hi%(increasing_NoDup bytes_compare). clear Hs.
    induction es as [|[k a] [|[k' a'] es] IH]; [done..|]. simpl in *.
    apply NoDup_cons in Hi as [Hk Hi]. apply orb_false_iff. split; [|by apply IH].
    apply bool_decide_eq_false. intros ->. apply Hk. by left.
Qed.

Lemma tagsSize_iff limits tags size count r :
  count <= MaxTags limits → size <= MaxPayload limits →
  tagsSize limits tags (size, count) = Ok r ↔
  r = (size + len (concat (tag_enc <$> tags)), count + len tags) ∧
  Forall (λ t, len (ReplicaID t) <= MaxStringBytes limits) tags ∧
  r.2 <= MaxTags limits ∧ r.1 <= MaxPayload limits.
Proof.
  revert size count. induction tags as [|t tags IH]; intros size count Hc Hs;
    rewrite ?fmap_cons; cbn [tagsSize concat].
  - simpl. rewrite !len_nil, !Z.add_0_r. split; [intros [= <-]|by intros [-> _]].
    repeat split; [constructor|done..].
  - rewrite len_app, len_tag_enc, len_cons, Forall_cons. pose proof (len_nonneg tags).
    pose proof (len_nonneg (concat (tag_enc <$> tags))). split.
    + guards. rewrite IH by lia. intros (-> & Hf & Hr). simpl in *.
      split; [f_equal; lia|]. split; [done|lia].
    + intros (-> & [Ht Hf] & Hr). simpl in Hr. do 3 guard_false. apply IH; [lia..|].
      split; [f_equal; lia|]. simpl. split; [done|lia].
Qed.

Lemma entriesSize_iff limits es size count r :
  count <= MaxTags limits → size <= MaxPayload limits →
  entriesSize limits es (size, count) = Ok r ↔
  r = (size + len (concat (keyed_enc <$> es)), count + len (concat es.*2)) ∧
  Forall (Forall (λ t, len (ReplicaID t) <= MaxStringBytes limits)) es.*2 ∧
  r.2 <= MaxTags limits ∧ r.1 <= MaxPayload limits.
Proof.
  revert size count. induction es as [|[b tags] es IH]; intros size count Hc Hs;
    rewrite ?fmap_cons; cbn [entriesSize concat].
  - simpl. rewrite !len_nil, !Z.add_0_r. split; [intros [= <-]|by intros [-> _]].
    repeat split; [constructor|done..].
  - cbn [snd]. unfold orSetCountAsUint64. pose proof (len_nonneg tags). rewrite Forall_cons.
    guard_false. rewrite !len_app. unfold keyed_enc at 1. cbn [fst snd].
    rewrite !len_app, len_bytes_enc. unfold UvarintSize.
    pose proof (len_nonneg (concat (keyed_enc <$> es))).
    pose proof (len_nonneg (concat es.*2)). pose proof (len_nonneg (concat (tag_enc <$> tags))).
    split.
    + guards. destruct (tagsSize _ _ _) as [[s n]|] eqn:E; [|done].
      apply tagsSize_iff in E as ([= -> ->] & Hf & Hn & Hm); [|lia..]. simpl in Hn, Hm.
      rewrite IH by lia. intros (-> & Hfs & Hr). simpl in *. split; [f_equal; lia|]. split; [done|lia].
    + intros (-> & [Hf Hfs] & Hr). simpl in Hr. guard_false.
      match goal with |- context [tagsSize _ _ (?s, _)] =>
        rewrite (proj2 (tagsSize_iff limits tags s count (s + len (concat (tag_enc <$> tags)), _)
          Hc ltac:(lia))) by (split; [reflexivity|]; simpl; split; [done|lia]) end.
      apply IH; [lia..|]. split; [f_equal; lia|]. simpl. split; [done|lia].
Qed.

Lemma appendEntry_fold dst es : foldl appendEntry dst es = dst ++ concat (keyed_enc <$> es).
Proof.
  revert dst. induction es as [|[b tags] es IH]; intros dst; simpl; [by rewrite app_nil_r|].
  rewrite IH. unfold appendEntry, appendBytes, AppendUvarint, keyed_enc, bytes_enc. simpl.
  by rewrite AppendTag_fold, <-!app_assoc.
Qed.

(** An order in which the entries of a map, and the tags of each entry, can be
    visited. *)
Definition visits (order : list (T * list Tag)) (adds : gmap T (gset Tag)) : Prop :=
  NoDup order.*1 ∧ Forall (λ x, NoDup x.2) order ∧
  list_to_map ((λ x, (x.1, list_to_set x.2)) <$> order) = adds.

Definition entry_set (e : T * bytes * list Tag) : T * gset Tag := (e.1.1, list_to_set e.2).

(** A sorted entry the encoder can write. *)
Definition writable (e : T * bytes * list Tag) : Prop :=
  member_ok codec DefaultLimits e.1 ∧ e.2 ≠ [] ∧ increasing Compare e.2 ∧
  Forall (λ t, len (ReplicaID t) <= MaxStringBytes DefaultLimits) e.2.

Lemma encodes_sets limits order l :
  Forall2 (encodes limits) order l →
  entry_set <$> l = (λ x : T * list Tag, (x.1, list_to_set x.2)) <$> order.
Proof.
  induction 1 as [|x e order l (Hx & _ & _ & Hs) _ IH]; [done|]. rewrite !fmap_cons, IH. f_equal.
  unfold entry_set. rewrite Hx, Hs. f_equal. apply list_to_set_perm_L, sort_by_any_perm.
Qed.

Lemma sets_encode order l :
  entry_set <$> l = (λ x : T * list Tag, (x.1, list_to_set x.2)) <$> order →
  Forall (λ x, NoDup x.2) order → Forall writable l → Forall2 (encodes DefaultLimits) order l.
Proof.
  revert order. induction l as [|e l IH]; intros [|x order]; [constructor|done..|].
  rewrite !fmap_cons. intros [= Hx Hs Heq] [Hnd Hnds]%Forall_cons [(Hm & Hne & Hi & _) Hl]%Forall_cons.
  constructor; [|by apply IH].
  assert (e.2 ≡ₚ x.2) as Hp.
  { apply list_to_set_perm_inv; [by apply (increasing_NoDup Compare)|done|done]. }
  split; [done|]. split; [done|]. split; [|symmetry; by apply (increasing_sort_by Compare)].
  intros Hnil. rewrite Hnil in Hp. by apply Permutation_nil_r in Hp.
Qed.

Lemma encodes_keys limits order l : Forall2 (encodes limits) order l → l.*1.*1 = order.*1.
Proof. by induction 1 as [|x e order l [Hx _] _ IH]; [|rewrite !fmap_cons, IH, Hx]. Qed.

Lemma encodes_sorted limits order l :
  Forall2 (encodes limits) order l → Forall (λ x, NoDup x.2) order →
  Forall (λ e, member_ok codec limits e.1 ∧ e.2 ≠ [] ∧ increasing Compare e.2) l.
Proof.
  induction 1 as [|x e order l (Hx & Hm & Hne & Hs) _ IH]; [constructor|].
  intros [Hnd Hnds]%Forall_cons. constructor; [|by apply IH]. split; [done|]. rewrite Hs.
  split; [|by apply (sort_by_increasing Compare)].
  intros Hnil. pose proof (sort_by_any_perm Compare x.2) as Hp. rewrite Hnil in Hp.
  by apply Permutation_nil_l in Hp.
Qed.

Lemma writable_keys (l : list (T * bytes * list Tag)) :
  increasing bytes_compare l.*1.*2 → Forall writable l → NoDup l.*1.*1.
Proof.
  intros Hi Hw. apply (members_NoDup codec); [done|]. apply Forall_fmap.
  eapply Forall_impl; [exact Hw|]. by intros ? [[? _] _].
Qed.

(** Every sorted form of a visited map is one the encoder reaches. *)
Lemma visits_encode order adds (l : list (T * bytes * list Tag)) :
  visits order adds → adds_of l = adds → increasing bytes_compare l.*1.*2 → Forall writable l →
  ∃ l0, l0 ≡ₚ l ∧ Forall2 (encodes DefaultLimits) order l0.
Proof.
  intros (Hnd & Hnds & Hadds) Hl Hi Hw.
  pose proof (writable_keys l Hi Hw) as Hndl.
  assert ((λ x : T * list Tag, (x.1, list_to_set x.2)) <$> order ≡ₚ entry_set <$> l) as Hp.
  { rewrite <-(map_to_list_to_map (M:=gmap T) (entry_set <$> l))
      by (rewrite <-list_fmap_compose; by rewrite <-list_fmap_compose in Hndl).
    rewrite <-(map_to_list_to_map (M:=gmap T) ((λ x : T * list Tag, (x.1, list_to_set x.2)) <$> order))
      by (by rewrite <-list_fmap_compose).
    by rewrite Hadds, <-Hl. }
  apply fmap_perm_inv in Hp as (l0 & Heq & Hp). exists l0. split; [done|].
  apply sets_encode; [done|done|]. by rewrite <-Hp.
Qed.

Lemma adds_of_perm (l l' : list (T * bytes * list Tag)) : NoDup l.*1.*1 → l ≡ₚ l' → adds_of l = adds_of l'.
Proof.
  intros Hnd Hp. apply list_to_map_proper; [|by rewrite Hp].
  rewrite <-list_fmap_compose. by rewrite <-list_fmap_compose in Hnd.
Qed.

Lemma len_orset_payload (l : list (T * bytes * list Tag)) ts :
  len (orset_payload l ts) =
  UvarintSize (len l) + len (concat (orset_enc <$> l)) + UvarintSize (len ts) + len (concat (tag_enc <$> ts)).
Proof. unfold orset_payload, UvarintSize. rewrite !len_app. lia. Qed.

(** The sizes and the bytes written for sorted entries. *)
Lemma writeORSet_iff typeID (l : list (T * bytes * list Tag)) ts data :
  len l <= MaxElements DefaultLimits →
  match entriesSize DefaultLimits (keyed <$> l) (UvarintSize (len (keyed <$> l)), 0) with
  | Err e => Err e
  | Ok (payloadSize, tagCount) =>
      if MaxPayload DefaultLimits - payloadSize <? UvarintSize (len ts) then Err ErrFrameLimit
      else match tagsSize DefaultLimits ts (payloadSize + UvarintSize (len ts), tagCount) with
      | Err e => Err e
      | Ok (payloadSize, _) =>
          MarshalFrameWithPayload typeID (bound_id codec) payloadSize
            (exactWriter (foldl AppendTag (AppendUvarint (foldl appendEntry
              (AppendUvarint [] (len (keyed <$> l))) (keyed <$> l)) (len ts)) ts) payloadSize)
      end
  end = Ok data ↔
  Forall (λ e : T * bytes * list Tag,
    Forall (λ t, len (ReplicaID t) <= MaxStringBytes DefaultLimits) e.2) l ∧
  Forall (λ t, len (ReplicaID t) <= MaxStringBytes DefaultLimits) ts ∧
  len (all_tags l) + len ts <= MaxTags DefaultLimits ∧
  MarshalFrame (mkFrame typeID (bound_id codec) (orset_payload l ts) 0 false) = Ok data.
Proof.
  intros Hmax. assert ((keyed <$> l).*2 = l.*2) as Hks by (by rewrite <-list_fmap_compose).
  rewrite appendEntry_fold, AppendTag_fold, len_fmap, keyed_concat. unfold AppendUvarint.
  cbn [app]. rewrite <-!app_assoc. fold (orset_payload l ts).
  pose proof (len_orset_payload l ts) as Hlen. pose proof (len_nonneg ts). pose proof (len_nonneg l).
  pose proof (len_nonneg (concat (orset_enc <$> l))). pose proof (len_nonneg (concat (tag_enc <$> ts))).
  pose proof (len_nonneg (all_tags l)). assert (MaxElements DefaultLimits = 1048576) as Hme by done.
  assert (UvarintSize (len l) <= MaxPayload DefaultLimits) as Hu.
  { transitivity 10; [|done]. apply UvarintSize_bounds. unfold is_u64. lia. }
  pose proof (putUvarint_pos (len ts)) as Hpos. change (len (putUvarint (len ts))) with (UvarintSize (len ts)) in Hpos.
  split.
  - destruct (entriesSize _ _ _) as [[s n]|] eqn:E; [|done].
    apply entriesSize_iff in E as ([= -> ->] & Hf & Hn & Hm); [|done..].
    rewrite Hks, keyed_concat in *. fold (all_tags l) in *. rewrite Forall_fmap in Hf. guards. cbn [fst snd] in *.
    destruct (tagsSize _ _ _) as [[s n]|] eqn:E; [|done].
    apply tagsSize_iff in E as ([= -> ->] & Hf' & Hn' & Hm'); [|lia..]. cbn [fst snd] in *.
    rewrite <-Hlen. unfold MarshalFrameWithPayload. rewrite exactWriter_copy. done.
  - intros (Hf & Hf' & Hn & Hm). pose proof (MarshalFrame_payload _ _ Hm) as Hp. cbn [Payload] in Hp.
    rewrite (proj2 (entriesSize_iff DefaultLimits (keyed <$> l) (UvarintSize (len l)) 0
      (UvarintSize (len l) + len (concat (orset_enc <$> l)), len (all_tags l)) ltac:(done) Hu)).
    2: { rewrite keyed_concat, Hks. split; [done|]. split; [by apply Forall_fmap|]. cbn [fst snd]. lia. }
    guard_false. set (before := UvarintSize (len l) + len (concat (orset_enc <$> l)) + UvarintSize (len ts)).
    assert (len (all_tags l) <= MaxTags DefaultLimits ∧ before <= MaxPayload DefaultLimits) as [Hn' Hp']
      by (unfold before; lia).
    rewrite (proj2 (tagsSize_iff DefaultLimits ts before (len (all_tags l))
      (len (orset_payload l ts), len (all_tags l) + len ts) Hn' Hp')).
    2: { split; [by rewrite Hlen|]. split; [done|]. cbn [fst snd]. lia. }
    unfold MarshalFrameWithPayload. rewrite exactWriter_copy. done.
Qed.

Lemma marshalORSetPlan_iff typeID order ts0 adds (tombs : gset Tag) data :
  visits order adds → NoDup ts0 → list_to_set ts0 = tombs →
  marshalORSetPlan typeID codec (mkPlan order ts0) = Ok data ↔
  blank (bound_id codec) = false ∧
  ∃ l ts, (adds_of l = adds ∧ list_to_set ts = tombs) ∧
    (increasing bytes_compare l.*1.*2 ∧ increasing Compare ts) ∧
    Forall writable l ∧ Forall (λ t, len (ReplicaID t) <= MaxStringBytes DefaultLimits) ts ∧
    len l <= MaxElements DefaultLimits ∧ len (all_tags l) + len ts <= MaxTags DefaultLimits ∧
    MarshalFrame (mkFrame typeID (bound_id codec) (orset_payload l ts) 0 false) = Ok data.
Proof.
  intros (Hnd & Hnds & Hadds) Hts0 Htombs. unfold marshalORSetPlan, marshalORSetPlanWithLimits.
  cbn [plan_entries plan_tombstones]. pose proof (sort_by_perm Compare ts0) as Hpts. split.
  - guard_step. destruct (orsetEncode _ _ _) as [es|] eqn:E; [|done].
    apply orsetEncode_iff in E as (l0 & Hl0 & ->).
    destruct (fmap_perm_inv _ _ _ (sort_by_any_perm (λ l r, bytes_compare l.1 r.1) (keyed <$> l0)))
      as (l & Hsort & Hp).
    pose proof (sort_by_key_sorted bytes_compare fst (keyed <$> l0)) as Hs. rewrite Hsort in Hs |- *.
    cbv zeta. guard_step. rewrite (duplicate_key_false _ Hs) in G0. guard_step. rewrite len_fmap in G1.
    breflect. rewrite writeORSet_iff by done. intros (Hf & Hf' & Hn & Hm). split; [done|].
    pose proof (encodes_sets _ _ _ Hl0) as Hsets.
    exists l, (sort_by Compare ts0). split; [|split; [|split; [|done]]].
    + split; [|by rewrite Hpts]. rewrite <-Hadds, <-Hsets. symmetry. apply (adds_of_perm l0); [|done].
      by rewrite (encodes_keys _ _ _ Hl0).
    + split; [|by apply (sort_by_increasing Compare)]. by rewrite keyed_keys in G0.
    + pose proof (encodes_sorted _ _ _ Hl0 Hnds) as Hw. rewrite Hp in Hw.
      rewrite Forall_forall in Hw, Hf |- *. intros e He. destruct (Hw e He) as (?&?&?).
      do 3 (split; [done|]). by apply Hf.
  - intros (Hb & l & ts & [Hl Hts] & [Hi Hi'] & Hw & Hf & Hmax & Hn & Hm).
    destruct (visits_encode order adds l) as (l0 & Hp & Hl0); [done..|].
    assert (len (bound_id codec) <= MaxCodecID DefaultLimits) as Hid.
    { unfold MarshalFrame, MarshalFrameWithPayload in Hm. rewrite marshal_v1_iff in Hm. naive_solver. }
    guard_false. rewrite (proj2 (orsetEncode_iff DefaultLimits order (keyed <$> l0))) by eauto.
    assert (sort_by (λ l r, bytes_compare l.1 r.1) (keyed <$> l0) = keyed <$> l) as ->.
    { apply (increasing_sort_by_key bytes_compare fst); [by rewrite keyed_keys|by rewrite Hp]. }
    assert (sort_by Compare ts0 = ts) as ->.
    { apply (increasing_sort_by Compare); [done|].
      apply list_to_set_perm_inv; [by apply (increasing_NoDup Compare)|done|congruence]. }
    cbv zeta. rewrite <-keyed_keys in Hi.
    rewrite (proj2 (duplicate_key_false _ (increasing_weaken bytes_compare _ Hi)) Hi).
    rewrite len_fmap. guard_false. rewrite <-(len_fmap keyed l). apply writeORSet_iff; [done|].
    split; [|done]. eapply Forall_impl; [exact Hw|]. by intros e (_ & _ & _ & ?).
Qed.
End orset_encoder.

(** ** Canonical bytes *)

Section orset_theorems.
Context {T : Type} `{Countable T} `{F : Flate}.

Lemma visits_adds_order (adds : gmap T (gset Tag)) : visits (adds_order adds) adds.
Proof.
  unfold visits, adds_order. rewrite <-!list_fmap_compose. split; [|split].
  - rewrite (list_fmap_ext _ fst) by (by intros ? []). apply NoDup_fst_map_to_list.
  - apply Forall_fmap, Forall_forall. intros [x tags] _. apply NoDup_elements.
  - rewrite (list_fmap_ext _ id), list_fmap_id; [apply list_to_map_to_list|].
    intros ? [x tags] _. simpl. by rewrite list_to_set_elements_L.
Qed.

Lemma adds_of_live (l : list (T * bytes * list Tag)) x t :
  NoDup l.*1.*1 → live (adds_of l) x t ↔ ∃ e, e ∈ l ∧ e.1.1 = x ∧ t ∈ e.2.
Proof.
  intros Hnd. unfold live, adds_of.
  assert (∀ X, adds_of l !! x = Some X ↔ ∃ e, e ∈ l ∧ (x, X) = (e.1.1, list_to_set e.2)) as Hl.
  { intros X. unfold adds_of. rewrite <-elem_of_list_to_map.
    - rewrite list_elem_of_fmap. naive_solver.
    - rewrite <-list_fmap_compose. by rewrite <-list_fmap_compose in Hnd. }
  unfold adds_of in Hl. destruct (list_to_map _ !! x) as [X|]; simpl; split.
  - destruct (proj1 (Hl X) eq_refl) as (e & He & [= -> ->]). rewrite elem_of_list_to_set. eauto.
  - intros (e & He & <- & Ht). specialize (Hl (list_to_set e.2)) as [_ Hl].
    injection (Hl ltac:(by exists e)) as ->. by apply elem_of_list_to_set.
  - set_solver.
  - intros (e & He & <- & Ht). by specialize (proj2 (Hl (list_to_set e.2)) ltac:(by exists e)).
Qed.

Lemma all_tags_live (l : list (T * bytes * list Tag)) t :
  NoDup l.*1.*1 → t ∈ all_tags l → ∃ x, live (adds_of l) x t.
Proof.
  intros Hnd (ts & Hts & Ht)%list_elem_of_In%in_concat.
  apply list_elem_of_In, list_elem_of_fmap in Hts as (e & -> & Hin). apply list_elem_of_In in Ht.
  exists e.1.1. apply adds_of_live; eauto.
Qed.

Lemma live_singleton (x : T) X e t : live {[x := X]} e t ↔ e = x ∧ t ∈ X.
Proof.
  unfold live. destruct (decide (e = x)) as [->|Hne].
  - rewrite lookup_singleton_eq. simpl. naive_solver.
  - rewrite lookup_singleton_ne by done. simpl. set_solver.
Qed.

(** No tag belongs to two elements. *)
Definition tags_unshared (adds : gmap T (gset Tag)) : Prop :=
  ∀ e e' t, live adds e t → live adds e' t → e = e'.

Lemma all_tags_NoDup (l : list (T * bytes * list Tag)) :
  NoDup l.*1.*1 → Forall (λ e, NoDup e.2) l → tags_unshared (adds_of l) → NoDup (all_tags l).
Proof.
  intros Hnd Hnds Hun.
  assert (∀ e e' t, e ∈ l → e' ∈ l → t ∈ e.2 → t ∈ e'.2 → e.1.1 = e'.1.1) as Hun'.
  { intros e e' t He He' Ht Ht'. apply (Hun _ _ t); apply adds_of_live; eauto. }
  clear Hun. induction l as [|e l IH]; [constructor|].
  rewrite !fmap_cons in Hnd. apply NoDup_cons in Hnd as [He Hnd]. apply Forall_cons in Hnds as [Hde Hnds].
  change (all_tags (e :: l)) with (e.2 ++ all_tags l). apply NoDup_app. split; [done|]. split.
  - intros t Ht (ts & Hts & Ht')%list_elem_of_In%in_concat.
    apply list_elem_of_In, list_elem_of_fmap in Hts as (e' & -> & Hin). apply list_elem_of_In in Ht'.
    apply He. rewrite (Hun' e e' t) by (done || by constructor). by do 2 apply list_elem_of_fmap_2.
  - apply IH; [done..|]. intros e1 e2 t ??. apply Hun'; by right.
Qed.

Lemma unmarshalORSet_iff data typeID (codec : boundElementCodec T) limits st :
  unmarshalORSetWithCodec data typeID codec limits = Ok st ↔
  ∃ f, UnmarshalFrame data limits = Ok f ∧ TypeID f = typeID ∧ CodecID f = bound_id codec ∧
    decodeORSet (Payload f) codec limits = Ok st.
Proof.
  unfold unmarshalORSetWithCodec. destruct (UnmarshalFrame data limits) as [f|]; [|naive_solver]. split.
  - guards. eauto.
  - intros (f' & [= <-] & HT & HC & Hd). by guard_false.
Qed.

(** Writable entries are those the decoder accepts, for unshared valid tags. *)
Lemma writable_accepted codec (l : list (T * bytes * list Tag)) tombs :
  CodecOk codec → tags_ok (adds_of l, tombs) → tags_unshared (adds_of l) →
  increasing bytes_compare l.*1.*2 → Forall (writable codec) l →
  len (all_tags l) <= MaxTags DefaultLimits → accepted (next_orset_entry codec DefaultLimits) l.
Proof.
  intros Hc Hok Hun Hi Hw Hlen. apply accepted_orset_entries; [done|].
  pose proof (writable_keys codec l Hi Hw) as Hnd. split; [done|]. rewrite Forall_forall in Hw. split; [|split; [|done]].
  - apply Forall_forall. intros e He. destruct (Hw e He) as ([Hm Hb] & Hne & Hie & Hts).
    split; [|split; [by apply (limits_string_ok _ DefaultLimits)|by apply codec_roundtrip]].
    do 3 (split; [done|]). rewrite Forall_forall in Hts |- *. intros t Ht.
    assert (known (adds_of l, tombs) t) as Hk.
    { left. exists e.1.1. apply adds_of_live; eauto. }
    apply Hok in Hk as [??]. do 2 (split; [done|]). split; [|by apply Hts].
    by apply (limits_string_ok _ DefaultLimits), Hts.
  - apply all_tags_NoDup; [done| |done]. apply Forall_forall. intros e He.
    by apply (increasing_NoDup Compare), (Hw e He).
Qed.

(** The canonical bytes of a state, in whatever order it is visited. *)
Lemma orset_codec_iff (o : ORSet T) (order : list (T * list Tag)) (tombstones : list Tag) (data : bytes)
    (Hcodec : CodecOk (os_codec o)) (Hid : blank (bound_id (os_codec o)) = false)
    (Hst : st_wf (os_state o)) (Hok : tags_ok (os_state o)) (Hun : tags_unshared (os_elements o))
    (Horder : visits order (os_elements o)) (Hnd : NoDup tombstones)
    (Htombs : list_to_set tombstones = os_tombstones o) :
  (plan ← planOrder order tombstones (os_elements o) (os_tombstones o);
   marshalORSetPlan TypeIDORSetState (os_codec o) plan) = Ok data ↔
  (unmarshalORSetWithCodec data TypeIDORSetState (os_codec o) DefaultLimits = Ok (os_state o) ∧
   PeekFrameFormatVersion data DefaultLimits = Ok FormatVersion).
Proof.
  assert (validateState (os_elements o) (os_tombstones o) = Ok tt) as Hv.
  { apply (validateState_Ok (os_state o)). intros t Ht. apply (Hok t Ht). }
  unfold planOrder. rewrite Hv. simpl.
  rewrite unmarshalORSet_iff, (decoded_v1_iff _ _ _ (λ p, decodeORSet p _ _ = Ok (os_state o))) by done.
  rewrite (marshalORSetPlan_iff (os_codec o) _ _ _ _ _ _ Horder Hnd Htombs).
  unfold os_state. setoid_rewrite (decodeORSet_iff (os_codec o) DefaultLimits); [|done..]. split.
  - intros (_ & l & ts & [Hl Hts] & [Hi Hi'] & Hw & Hf & Hmax & Hn & Hm).
    exists (orset_payload l ts). split; [|done]. exists l, ts. do 4 (split; [done|]).
    unfold os_state in Hok. rewrite <-Hl in Hok, Hun. pose proof (len_nonneg ts).
    split; [eapply writable_accepted; try done; lia|]. split; [done|]. split; [|done].
    rewrite Forall_forall in Hf |- *. intros t Ht.
    assert (t ∈ os_tombstones o) as Hin by (rewrite <-Hts; by apply elem_of_list_to_set).
    destruct (Hok t (or_intror Hin)) as [??]. specialize (Hf t Ht). split.
    + do 2 (split; [done|]). split; [|done]. by apply (limits_string_ok _ DefaultLimits).
    + intros Hlive%elem_of_list_to_set.
      apply all_tags_live in Hlive as [x Hx]; [|by apply (writable_keys (os_codec o))].
      rewrite Hl in Hx. by apply (proj2 Hst x t).
  - intros (payload & (l & ts & -> & -> & -> & Hmax & Hacc & Hts) & Hm).
    apply accepted_orset_entries in Hacc as (Hi & Hes & _ & _); [|done]. destruct Hts as (Hi' & Hts & Hn).
    split; [done|]. exists l, ts. do 2 (split; [done|]). split; [|split; [|done]].
    + eapply Forall_impl; [exact Hes|]. intros e [(Hm1 & Hne & Hie & Hte) _]. do 3 (split; [done|]).
      eapply Forall_impl; [exact Hte|]. by intros t (_ & _ & _ & ?).
    + eapply Forall_impl; [exact Hts|]. by intros t [(_ & _ & _ & ?) _].
Qed.

(** The OR-Set's canonical bytes. For an element codec that decodes what it
    encodes and a well-formed state, whose tags each belong to one element, the
    encoder produces a frame, in whatever order the maps are visited, exactly
    when the decoder reads that v1 frame back as that state: encoding loses
    nothing, and each state has one encoding. *)
Theorem ORSet_codec (o : ORSet T) (order : list (T * list Tag)) (tombstones : list Tag) (data : bytes)
    (Hcodec : CodecOk (os_codec o)) (Hid : blank (bound_id (os_codec o)) = false)
    (Hst : st_wf (os_state o)) (Hok : tags_ok (os_state o)) (Hun : tags_unshared (os_elements o))
    (Horder : visits order (os_elements o)) (Hnd : NoDup tombstones)
    (Htombs : list_to_set tombstones = os_tombstones o) :
  (plan ← planOrder order tombstones (os_elements o) (os_tombstones o);
   marshalORSetPlan TypeIDORSetState (os_codec o) plan) = Ok data ↔
  (unmarshalORSetWithCodec data TypeIDORSetState (os_codec o) DefaultLimits = Ok (os_state o) ∧
   PeekFrameFormatVersion data DefaultLimits = Ok FormatVersion).
Proof. by apply orset_codec_iff. Qed.
End orset_theorems.

Lemma ORSet_codec_witness :
  let tag n := mkTag (str "a") n 0 in
  let o := mkORSet (T:=bytes) (str "a") None raw_codec {[str "x" := {[tag 1; tag 2]}]} {[tag 3]} in
  @unmarshalORSetWithCodec bytes _ _ marker_flate (sealed (ORSet_MarshalBinary (Some o)))
    TypeIDORSetState raw_codec DefaultLimits = Ok (os_state o).
Proof.
  intros tag o. refine (proj1 (proj1 (@ORSet_codec bytes _ _ marker_flate o (adds_order (os_elements o))
    (elements (os_tombstones o)) (sealed (ORSet_MarshalBinary (Some o))) raw_codec_ok eq_refl
    _ _ _ (visits_adds_order _) (NoDup_elements _) (list_to_set_elements_L _)) _)).
  - split.
    + apply map_Forall_singleton. set_solver.
    + intros e t [_ Ht]%live_singleton. simpl. set_solver.
  - intros t Hk. assert (t = tag 1 ∨ t = tag 2 ∨ t = tag 3) as Ht.
    { destruct Hk as [[e [_ Ht]%live_singleton]|Ht]; simpl in Ht; set_solver. }
    by destruct Ht as [-> |[-> | ->]].
  - by intros e e' t [-> _]%live_singleton [-> _]%live_singleton.
  - vm_compute. reflexivity.
Defined.
