(* ===== verification/Register.v ===== *)
(** * Last-writer-wins and max registers

    Models src/register/register.go. [LWW.Set] draws its tag from the clock and
    then takes the register's lock; both happen here in one transition. *)

From S2P Require Import Prelude Tags Clock Lattice Tagged.

(** [LWW] *)
Record LWW := mkLWW {
  lw_clock : ptr HLC;
  lw_replicaID : bytes;
  lw_tag : Tag;
  lw_value : bytes;
  lw_hasValue : bool
}.

Definition LWW_with_clock (r : LWW) (c : ptr HLC) : LWW :=
  mkLWW c (lw_replicaID r) (lw_tag r) (lw_value r) (lw_hasValue r).
Definition LWW_store (r : LWW) (tag : Tag) (value : bytes) : LWW :=
  mkLWW (lw_clock r) (lw_replicaID r) tag value true.

(** [NewLWWFromClock] *)
Definition NewLWWFromClock (state : ClockState) : result LWW :=
  if negb (Valid (mkTag (cs_ReplicaID state) 0 0)) then Err ErrRegisterInvalidReplicaID
  else match NewHLCFromState state with
       | Err e => Err e
       | Ok hlc => Ok (mkLWW (Some hlc) (cs_ReplicaID state) zeroTag [] false)
       end.

(** [NewLWW] *)
Definition NewLWW (replicaID : bytes) : result LWW := NewLWWFromClock (mkClockState replicaID 0 0).

(** [LWW.ClockState] *)
Definition LWW_ClockState (r : ptr LWW) : ClockState :=
  match r with
  | None => zeroClockState
  | Some l => match lw_clock l with None => zeroClockState | Some _ => HLC_Snapshot (lw_clock l) end
  end.

(** [LWW.Set] *)
Definition LWW_Set (r : ptr LWW) (value : bytes) (now : option Z) : ptr LWW * result unit :=
  match r with
  | None => (None, Err ErrNilLWW)
  | Some l =>
      match lw_clock l with
      | None => (r, Err ErrNilLWW)
      | Some _ =>
          match Now (lw_clock l) now with
          | (hlc, Err e) => (Some (LWW_with_clock l hlc), Err e)
          | (hlc, Ok tag) =>
              let l := LWW_with_clock l hlc in
              if negb (lw_hasValue l) || (Compare (lw_tag l) tag <? 0)
              then (Some (LWW_store l tag value), Ok tt)
              else (Some l, Ok tt)
          end
      end
  end.

(** [LWW.Get] *)
Definition LWW_Get (r : ptr LWW) : option bytes :=
  match r with
  | None => None
  | Some l => if negb (lw_hasValue l) then None else Some (lw_value l)
  end.

(** [LWW.Merge] *)
Definition LWW_Merge (r : ptr LWW) (other : peer LWW) (now : option Z) : ptr LWW * result unit :=
  match r, other with
  | None, _ | _, PNil => (r, Err ErrNilLWW)
  | Some _, PSelf => (r, Ok tt)
  | Some l, PObj o =>
      let '(tag, value, hasValue) := (lw_tag o, lw_value o, lw_hasValue o) in
      if negb hasValue then (r, Ok tt)
      else if lw_hasValue l && bool_decide (lw_tag l = tag) && negb (bool_decide (lw_value l = value))
      then (r, Err ErrRegisterTagConflict)
      else match Witness (lw_clock l) tag now with
           | (hlc, Err e) => (Some (LWW_with_clock l hlc), Err e)
           | (hlc, Ok _) =>
               let l := LWW_with_clock l hlc in
               if negb (lw_hasValue l) || (Compare (lw_tag l) tag <? 0)
               then (Some (LWW_store l tag value), Ok tt)
               else (Some l, Ok tt)
           end
  end.

(** [LWW.State] *)
Definition LWW_State (r : ptr LWW) : StateSnapshot :=
  match r with
  | None => mkSnapshot (str "lww-register") [] 0 0
  | Some l => mkSnapshot (str "lww-register") (lw_replicaID l) (if lw_hasValue l then 1 else 0) 0
  end.

(** [Max] *)
Record Max := mkMax { mx_value : Z; mx_hasValue : bool }.

(** [NewMax] *)
Definition NewMax : Max := mkMax 0 false.

(** [Max.Set] *)
Definition Max_Set (r : ptr Max) (value : Z) : ptr Max * result unit :=
  match r with
  | None => (None, Err ErrNilMax)
  | Some m =>
      if negb (mx_hasValue m) || (mx_value m <? value) then (Some (mkMax value true), Ok tt) else (r, Ok tt)
  end.

(** [Max.Get] *)
Definition Max_Get (r : ptr Max) : Z * bool :=
  match r with None => (0, false) | Some m => (mx_value m, mx_hasValue m) end.

(** [Max.Merge] *)
Definition Max_Merge (r : ptr Max) (other : peer Max) : ptr Max * result unit :=
  match r, other with
  | None, _ | _, PNil => (r, Err ErrNilMax)
  | Some _, PSelf => (r, Ok tt)
  | Some _, PObj o => if negb (mx_hasValue o) then (r, Ok tt) else Max_Set r (mx_value o)
  end.

(** [Max.State] *)
Definition Max_State (r : ptr Max) : StateSnapshot :=
  match r with
  | None => mkSnapshot (str "max-register") [] 0 0
  | Some m => mkSnapshot (str "max-register") [] (if mx_hasValue m then 1 else 0) 0
  end.

(** ** The LWW register holds the greatest write *)

(** The register's write: its tag and value. *)
Definition lw_entry (r : LWW) : option (Tag * bytes) :=
  if lw_hasValue r then Some (lw_tag r, lw_value r) else None.

(** The clock is ahead of the value's tag. *)
Definition lww_wf (r : LWW) : Prop :=
  ∃ h, lw_clock r = Some h ∧ hlc_wf h ∧
    ∀ e, lw_entry r = Some e → ts_le e.1 (hlc_tag h) ∧ Valid e.1 = true ∧ tag_wf e.1.

(** Receiving another register's state at a physical time. *)
Definition lww_receive (r : ptr LWW) (m : LWW * option Z) : ptr LWW * result unit :=
  LWW_Merge r (PObj m.1) m.2.

Lemma LWW_Set_spec r value now r' :
  lww_wf r → now_wf now → LWW_Set (Some r) value now = (Some r', Ok tt) →
  lww_wf r' ∧ LWW_Get (Some r') = Some value ∧
  ∀ e, lw_entry r = Some e → Compare e.1 (lw_tag r') < 0.
Proof.
  intros (h & Hh & Hwf & He) Hnow. unfold LWW_Set. rewrite Hh.
  destruct (Now (Some h) now) as [h' [tag|]] eqn:E; [|done].
  pose proof E as (h1 & -> & Hwf1 & -> & Hid & Hlt)%Now_spec; [|done..].
  assert (∀ e, lw_entry r = Some e → Compare e.1 (hlc_tag h1) < 0) as Hcmp.
  { intros e [Hle _]%He. apply ts_lt_Compare. by eapply ts_le_lt_trans. }
  assert (negb (lw_hasValue r) || (Compare (lw_tag r) (hlc_tag h1) <? 0) = true) as Hg.
  { unfold lw_entry in Hcmp. destruct (lw_hasValue r); [|done]. simpl.
    apply Z.ltb_lt. by apply (Hcmp (lw_tag r, lw_value r)). }
  cbn [LWW_with_clock lw_hasValue lw_tag]. rewrite Hg. intros [= <-].
  split; [|split; [done|]; intros e He'; by apply Hcmp].
  exists h1. split; [done|]. split; [done|]. intros e [= <-]. simpl. unfold ts_le.
  split; [lia|]. by destruct Hwf1 as (? & ? & ?).
Qed.

(** A successful merge keeps the later of the two writes. *)
Lemma LWW_Merge_spec r o now r' :
  lww_wf r → lww_wf o → now_wf now → LWW_Merge (Some r) (PObj o) now = (r', Ok tt) →
  ∃ l, r' = Some l ∧ lww_wf l ∧ lw_entry l = later fst (lw_entry r) (lw_entry o).
Proof.
  intros (h & Hh & Hwf & He) (ho & _ & _ & Ho) Hnow. unfold LWW_Merge.
  destruct (lw_hasValue o) eqn:Hv; simpl.
  2: { intros [= <-]. exists r. split; [done|]. split; [by exists h|].
       assert (lw_entry o = None) as -> by (unfold lw_entry; by rewrite Hv). by destruct (lw_entry r). }
  destruct (_ && _ && _) eqn:G; [done|]. rewrite Hh.
  destruct (Ho (lw_tag o, lw_value o)) as (_ & Hval & Htwf); [by unfold lw_entry; rewrite Hv|].
  destruct (Witness (Some h) (lw_tag o) now) as [h' [[]|]] eqn:E; [|done].
  apply Witness_spec in E as (h1 & -> & Hwf1 & Hid & Hlt & Hlt'); [|done..].
  assert (lw_entry o = Some (lw_tag o, lw_value o)) as Heo by (unfold lw_entry; by rewrite Hv).
  cbn [LWW_with_clock lw_hasValue lw_tag].
  assert (∀ e, lw_entry r = Some e → ts_le e.1 (hlc_tag h1) ∧ Valid e.1 = true ∧ tag_wf e.1) as He'.
  { intros e (Hle & ? & ?)%He. split; [unfold ts_le, ts_lt in *; lia|done]. }
  destruct (_ || _) eqn:G2; intros [= <-]; (eexists; split; [done|]; split).
  - exists h1. split; [done|]. split; [done|]. intros e [= <-]. simpl. split; [|done].
    unfold ts_le, ts_lt in *. lia.
  - rewrite Heo. unfold lw_entry. simpl. destruct (lw_hasValue r); [|done]. simpl in *. by rewrite G2.
  - exists h1. split; [done|]. split; [done|]. exact He'.
  - rewrite Heo. unfold lw_entry, LWW_with_clock. simpl. destruct (lw_hasValue r); [|done]. simpl in *.
    by rewrite G2.
Qed.

(** LWW registers converge on the last write. Two registers whose own writes
    and successfully merged states carry the same writes, in any order and with
    any repetition, read the same value, provided no two writes share a tag.
    A successful [Set] makes its value the one that is read, under a tag above
    the one it replaces. *)
Theorem LWW_convergence (own : Tag → option (Tag * bytes)) (ra rb : LWW) (ma mb : list (LWW * option Z))
    (ra' rb' : LWW)
    (Ha : lww_wf ra) (Hb : lww_wf rb)
    (Hma : Forall (λ m, lww_wf m.1 ∧ now_wf m.2) ma) (Hmb : Forall (λ m, lww_wf m.1 ∧ now_wf m.2) mb)
    (Hown : Forall (written fst own) (lw_entry <$> ra :: rb :: ma.*1 ++ mb.*1))
    (Hruna : run lww_receive (Some ra) ma = (Some ra', Ok tt))
    (Hrunb : run lww_receive (Some rb) mb = (Some rb', Ok tt))
    (Hsame : ∀ e, e ∈ lw_entry <$> ra :: ma.*1 ↔ e ∈ lw_entry <$> rb :: mb.*1) :
  LWW_Get (Some ra') = LWW_Get (Some rb') ∧
  ∀ value now r, now_wf now → LWW_Set (Some ra') value now = (Some r, Ok tt) →
    LWW_Get (Some r) = Some value ∧ ∀ e, lw_entry ra' = Some e → Compare e.1 (lw_tag r) < 0.
Proof.
  assert (∀ s m s', lww_wf s → lww_wf m.1 ∧ now_wf m.2 → lww_receive (Some s) m = (s', Ok tt) →
    ∃ t, s' = Some t ∧ lww_wf t ∧ lw_entry t = later fst (lw_entry s) (lw_entry m.1)) as Hrec.
  { intros s m s' Hs [Hm Hnow]. by apply LWW_Merge_spec. }
  pose proof (run_deliver lww_receive _ _ _ _ _ Hrec) as Hrun.
  destruct (Hrun ra ma (Some ra')) as (? & [= <-] & Hwf & Hsa); [done..|].
  destruct (Hrun rb mb (Some rb')) as (? & [= <-] & _ & Hsb); [done..|].
  assert (lw_entry ra' = lw_entry rb') as Heq.
  { rewrite Hsa, Hsb.
    change (deliver (later fst) (later fst None (lw_entry ra)) (lw_entry ∘ fst <$> ma) =
            deliver (later fst) (later fst None (lw_entry rb)) (lw_entry ∘ fst <$> mb)).
    rewrite (list_fmap_compose fst lw_entry ma), (list_fmap_compose fst lw_entry mb).
    change (deliver (later fst) None (lw_entry <$> ra :: ma.*1) =
            deliver (later fst) None (lw_entry <$> rb :: mb.*1)).
    rewrite Forall_fmap, !Forall_cons, Forall_app in Hown. destruct Hown as (?&?&?&?).
    apply (deliver_convergence (written fst own) (=) (later fst)); [apply _|done| | |done];
      apply Forall_fmap; by constructor. }
  split; [|intros value now r Hnow Hset; by destruct (LWW_Set_spec _ _ _ _ Hwf Hnow Hset) as (_ & ? & ?)].
  unfold LWW_Get, lw_entry in *. destruct (lw_hasValue ra'), (lw_hasValue rb'); simpl; congruence.
Qed.

(** A register holding one write, and the register that merges a later one. *)
Definition w_lww (id : string) (wall : Z) : LWW :=
  mkLWW (Some (mkHLC (str id) wall 0)) (str id) (mkTag (str id) wall 0) (str id) true.
Definition w_lww_tags : list (Tag * bytes) := omap lw_entry [w_lww "a" 1; w_lww "b" 2].

Lemma w_lww_wf id wall : Valid (mkTag (str id) wall 0) = true → is_u64 wall → lww_wf (w_lww id wall).
Proof.
  intros Hv Hw. exists (mkHLC (str id) wall 0). split; [done|]. split; [done|].
  intros e [= <-]. simpl. split; [unfold ts_le; simpl; lia|]. done.
Qed.

Lemma LWW_convergence_witness :
  let merged id wall o owall := default (w_lww id wall)
    (lww_receive (Some (w_lww id wall)) (w_lww o owall, Some 9)).1 in
  LWW_Get (Some (merged "a" 1 "b" 2)) = LWW_Get (Some (merged "b" 2 "a" 1)).
Proof.
  intros merged.
  refine (proj1 (LWW_convergence (λ t, list_find (λ e, e.1 = t) w_lww_tags ≫= λ p, Some p.2)
    (w_lww "a" 1) (w_lww "b" 2) [(w_lww "b" 2, Some 9)] [(w_lww "a" 1, Some 9)]
    (merged "a" 1 "b" 2) (merged "b" 2 "a" 1) _ _ _ _ _ _ _ _)).
  - by apply w_lww_wf.
  - by apply w_lww_wf.
  - apply Forall_singleton. split; [by apply w_lww_wf|done].
  - apply Forall_singleton. split; [by apply w_lww_wf|done].
  - repeat (apply Forall_cons; split; [intros x [= <-]; by vm_compute|]). constructor.
  - by vm_compute.
  - by vm_compute.
  - intros e. simpl. set_solver.
Defined.

(** ** The max register *)

(** Any sequence of writes and merges leaves the greatest value seen. *)
Inductive max_op := MaxSet (value : Z) | MaxMerge (o : Max).

Definition max_receive (r : ptr Max) (op : max_op) : ptr Max * result unit :=
  match op with MaxSet v => Max_Set r v | MaxMerge o => Max_Merge r (PObj o) end.

Definition mx_entry (m : Max) : option Z := if mx_hasValue m then Some (mx_value m) else None.
Definition max_join (a b : option Z) : option Z := union_with (λ x y, Some (x `max` y)) a b.

#[export] Instance max_lattice : Lattice (λ _ : option Z, True) (=@{option Z}) max_join.
Proof.
  split.
  - apply eq_equivalence.
  - done.
  - by intros x x' y y' _ _ _ _ -> ->.
  - intros [x|] [y|] _ _; [|done..]. simpl. by rewrite Z.max_comm.
  - intros [x|] [y|] [z|] _ _ _; [|done..]. simpl. by rewrite Z.max_assoc.
  - intros [x|] _; [|done]. simpl. by rewrite Z.max_id.
Qed.

(** The value an operation brings. *)
Definition max_carries (op : max_op) : option Z :=
  match op with MaxSet v => Some v | MaxMerge o => mx_entry o end.

Lemma max_receive_joins (m : Max) op :
  ∃ t, max_receive (Some m) op = (Some t, Ok tt) ∧ mx_entry t = max_join (mx_entry m) (max_carries op).
Proof.
  assert (∀ v, ∃ t, Max_Set (Some m) v = (Some t, Ok tt) ∧ mx_entry t = max_join (mx_entry m) (Some v)) as Hset.
  { intros v. unfold Max_Set, mx_entry. destruct m as [x [|]]; simpl; [|by eexists].
    destruct (Z.ltb_spec x v); eexists; (split; [done|]); simpl; f_equal; lia. }
  destruct op as [v|o]; simpl; [apply Hset|]. unfold mx_entry at 3.
  destruct (mx_hasValue o); simpl; [apply Hset|]. exists m. split; [done|]. by destruct (mx_entry m).
Qed.

Lemma max_run (m : Max) ops :
  ∃ t, run max_receive (Some m) ops = (Some t, Ok tt) ∧
    mx_entry t = deliver max_join (mx_entry m) (max_carries <$> ops).
Proof.
  induction ops as [|op ops (t & Ht & Hd)] using rev_ind; [by exists m|].
  destruct (max_receive_joins t op) as (t' & Ht' & Hd'). exists t'. unfold run. rewrite foldl_app.
  fold (run max_receive (Some m) ops). rewrite Ht. simpl. rewrite Ht'. split; [done|].
  rewrite Hd', Hd, fmap_app. unfold deliver. by rewrite foldl_app.
Qed.

(** A max register holds the greatest value written. Two registers that saw
    the same values, written locally or merged, in any order and with any
    repetition, hold the same value; no write or merge of a non-nil register
    fails. *)
Theorem Max_convergence (ma mb : Max) (oa ob : list max_op)
    (Hsame : ∀ e, e ∈ mx_entry ma :: (max_carries <$> oa) ↔ e ∈ mx_entry mb :: (max_carries <$> ob)) :
  ∃ ma' mb', run max_receive (Some ma) oa = (Some ma', Ok tt) ∧
    run max_receive (Some mb) ob = (Some mb', Ok tt) ∧ mx_entry ma' = mx_entry mb'.
Proof.
  destruct (max_run ma oa) as (ma' & Ha & Hda). destruct (max_run mb ob) as (mb' & Hb & Hdb).
  exists ma', mb'. split; [done|]. split; [done|]. rewrite Hda, Hdb.
  assert (∀ e, max_join None e = e) as Hnone by (by intros []).
  rewrite <-(Hnone (mx_entry ma)), <-(Hnone (mx_entry mb)).
  change (deliver max_join None (mx_entry ma :: (max_carries <$> oa)) =
          deliver max_join None (mx_entry mb :: (max_carries <$> ob))).
  apply (deliver_convergence (λ _, True) (=) max_join); [apply _|done| | |done]; by apply Forall_true.
Qed.

Lemma Max_convergence_witness :
  ∃ ma' mb', run max_receive (Some NewMax) [MaxSet 4; MaxMerge (mkMax 7 true)] = (Some ma', Ok tt) ∧
    run max_receive (Some NewMax) [MaxSet 7; MaxSet 4; MaxSet 7] = (Some mb', Ok tt) ∧
    mx_entry ma' = mx_entry mb'.
Proof. apply Max_convergence. intros e. simpl. set_solver. Defined.
