(* ===== verification/TagIndex.v ===== *)
(** * Entries indexed by their tags

    The loops that the last-writer-wins types of src/lww share: installing
    incoming entries beside an index from tags to keys, and removing the entries
    of requested tags. The map runs them over its entries, the set over its
    elements. *)

From S2P Require Import Prelude Tags Lattice Tagged.

Section tag_index.
Context {K V : Type} `{Countable K} (etag : V → Tag).

(** [owner, exists := owners[tag]; exists && owner != key] *)
Definition other_owner (owners : gmap Tag K) (tag : Tag) (key : K) : bool :=
  match owners !! tag with Some owner => negb (bool_decide (owner = key)) | None => false end.

(** The tags of the entries, in the order the map yields them. *)
Definition entry_tags (entries : gmap K V) : list Tag :=
  (λ e : K * V, etag e.2) <$> map_to_list entries.

(** One iteration of the loop that installs the incoming entries. *)
Definition apply_entry (acc : gmap K V * gmap Tag K) (e : K * V)
    : gmap K V * gmap Tag K :=
  let '(entries, tags) := acc in
  let '(key, incoming) := e in
  match entries !! key with
  | None => (<[key := incoming]> entries, <[etag incoming := key]> tags)
  | Some current =>
      if Compare (etag current) (etag incoming) <? 0
      then (<[key := incoming]> entries, <[etag incoming := key]> (delete (etag current) tags))
      else acc
  end.

(** The loop of [validateMapEntries] and [validateSetEntries], visiting the
    entries in a given order; [bad] is the type's own condition on an entry and
    [invalid] its error. *)
Fixpoint validate_order (bad : K → V → bool) (invalid : error) (owners : gmap Tag K) (order : list (K * V))
    : result unit :=
  match order with
  | [] => Ok tt
  | (key, entry) :: order' =>
      if bad key entry then Err invalid
      else if other_owner owners (etag entry) key then Err ErrLWWTagConflict
      else validate_order bad invalid (<[etag entry := key]> owners) order'
  end.

(** The loop of [CompactTombstones] that builds [byTag]. *)
Fixpoint compact_index (byTag : gmap Tag K) (order : list (K * V)) : result (gmap Tag K) :=
  match order with
  | [] => Ok byTag
  | (key, entry) :: order' =>
      if other_owner byTag (etag entry) key
      then Err ErrUnsafeCompaction
      else compact_index (<[etag entry := key]> byTag) order'
  end.

(** One removal. *)
Definition compact_remove (acc : gmap K V * gmap Tag K) (key : K)
    : gmap K V * gmap Tag K :=
  let '(entries, tags) := acc in
  (delete key entries, delete (match entries !! key with Some e => etag e | None => zeroTag end) tags).

(** ** The index *)

(** The index maps each retained tag to the key that carries it. *)
Definition index_ok (es : (gmap K V)) (tags : gmap Tag K) : Prop :=
  ∀ t k, tags !! t = Some k ↔ ∃ e, es !! k = Some e ∧ etag e = t.

(** No two keys carry the same tag. *)
Definition tags_distinct (es : (gmap K V)) : Prop :=
  ∀ k1 k2 e1 e2, es !! k1 = Some e1 → es !! k2 = Some e2 → etag e1 = etag e2 → k1 = k2.

Lemma index_distinct es tags : index_ok es tags → tags_distinct es.
Proof.
  intros Hi k1 k2 e1 e2 H1 H2 Heq.
  assert (tags !! etag e1 = Some k1) as Ht1 by (apply Hi; eauto).
  assert (tags !! etag e1 = Some k2) as Ht2 by (apply Hi; eauto). congruence.
Qed.

Lemma other_owner_false owners tag key :
  other_owner owners tag key = false ↔ ∀ o, owners !! tag = Some o → o = key.
Proof.
  unfold other_owner. destruct (owners !! tag) as [o|]; [|naive_solver].
  rewrite negb_false_iff, bool_decide_eq_true. naive_solver.
Qed.

Lemma index_insert es tags k e :
  index_ok es tags → (∀ o, tags !! etag e = Some o → o = k) →
  index_ok (<[k := e]> es)
    (<[etag e := k]> (match es !! k with Some c => delete (etag c) tags | None => tags end)).
Proof.
  intros Hi Hk. set (tags' := match es !! k with Some c => delete (etag c) tags | None => tags end).
  assert (∀ t k', tags' !! t = Some k' ↔ k' ≠ k ∧ tags !! t = Some k') as Ht.
  { intros t k'. unfold tags'. destruct (es !! k) as [c|] eqn:E.
    - rewrite lookup_delete_Some. split; intros [Hne Hlk]; (split; [|done]).
      + intros ->. apply Hi in Hlk as (c' & Hc' & <-). congruence.
      + intros <-. assert (tags !! etag c = Some k) by (apply Hi; eauto). congruence.
    - split; [|by intros [_ ?]]. intros Hlk. split; [|done]. intros ->.
      apply Hi in Hlk as (c' & Hc' & _). congruence. }
  intros t k'. rewrite lookup_insert_Some, Ht. setoid_rewrite lookup_insert_Some. split.
  - intros [[<- <-]|[Hne [Hk' Hlk]]]; [eauto|]. apply Hi in Hlk as (e' & He' & <-). eauto.
  - intros (e' & [[<- <-]|[Hne He']] & <-); [by left|]. right.
    assert (tags !! etag e' = Some k') as Hlk by (apply Hi; eauto).
    split; [|done]. intros Heq. rewrite <-Heq in Hlk. by apply Hk in Hlk.
Qed.

Lemma apply_entry_index es tags k e :
  index_ok es tags → (∀ o, tags !! etag e = Some o → o = k) →
  index_ok (apply_entry (es, tags) (k, e)).1 (apply_entry (es, tags) (k, e)).2.
Proof.
  intros Hi Hk. pose proof (index_insert es tags k e Hi Hk) as Hins. simpl.
  destruct (es !! k) as [c|]; [destruct (_ <? 0)|]; done.
Qed.

Lemma apply_entry_entries es tags l :
  (foldl apply_entry (es, tags) l).1 = foldl (upsert (newer etag)) es l.
Proof.
  revert es tags. induction l as [|[k e] l IH]; intros es tags; [done|]. simpl.
  unfold upsert at 2, newer at 2. simpl.
  destruct (es !! k) as [c|]; [destruct (_ <? 0)|]; apply IH.
Qed.

Lemma apply_entries_index es tags l :
  index_ok es tags → NoDup l.*1 →
  (∀ k e o, (k, e) ∈ l → tags !! etag e = Some o → o = k) →
  (∀ k1 k2 e1 e2, (k1, e1) ∈ l → (k2, e2) ∈ l → etag e1 = etag e2 → k1 = k2) →
  index_ok (foldl apply_entry (es, tags) l).1 (foldl apply_entry (es, tags) l).2.
Proof.
  revert es tags. induction l as [|[k e] l IH]; intros es tags Hi Hnd Hown Hdis; [done|].
  simpl in Hnd. apply NoDup_cons in Hnd as [Hk Hnd].
  pose proof (apply_entry_index es tags k e Hi (λ o, Hown k e o (list_elem_of_here _ _))) as Hi'.
  change (foldl apply_entry (es, tags) ((k, e) :: l)) with (foldl apply_entry (apply_entry (es, tags) (k, e)) l).
  assert (∀ t o, (apply_entry (es, tags) (k, e)).2 !! t = Some o → o = k ∧ t = etag e ∨ tags !! t = Some o) as Ht.
  { intros t o. simpl. destruct (es !! k) as [c|]; [destruct (_ <? 0)|]; simpl.
    - rewrite lookup_insert_Some, lookup_delete_Some. naive_solver.
    - by right.
    - rewrite lookup_insert_Some. naive_solver. }
  destruct (apply_entry (es, tags) (k, e)) as [es' tags']. simpl in *. apply IH; [done|done|..].
  - intros k' e' o Hin [[-> Heq]|Hlk]%Ht; [|by apply (Hown k' e'); [right|]].
    symmetry. apply (Hdis k' k e' e); [by right|by left|done].
  - intros k1 k2 e1 e2 H1 H2. apply Hdis; by right.
Qed.

Lemma greatest_entry_tag (es : gmap K V) :
  match foldl greatest_step None (entry_tags es) with
  | None => es = ∅
  | Some t => (∃ k e, es !! k = Some e ∧ etag e = t) ∧ ∀ k e, es !! k = Some e → Compare (etag e) t <= 0
  end.
Proof.
  pose proof (greatest_fold None (entry_tags es)) as Hg.
  assert (∀ t, t ∈ entry_tags es ↔ ∃ k e, es !! k = Some e ∧ etag e = t) as Hin.
  { intros t. unfold entry_tags. rewrite list_elem_of_fmap. split.
    - intros ([k e] & -> & Hin). rewrite elem_of_map_to_list in Hin. eauto.
    - intros (k & e & He & <-). exists (k, e). by rewrite elem_of_map_to_list. }
  destruct (foldl _ _ _) as [t|].
  - destruct Hg as [[|Ht] Hmax]; [done|]. split; [by apply Hin|]. intros k e He. apply Hmax. right.
    apply Hin. eauto.
  - destruct Hg as [_ Hg]. unfold entry_tags in Hg. apply fmap_nil_inv, map_to_list_empty_iff in Hg. done.
Qed.

Lemma compact_index_Ok byTag order :
  NoDup order.*1 →
  (∀ k1 k2 e1 e2, (k1, e1) ∈ order → (k2, e2) ∈ order → etag e1 = etag e2 → k1 = k2) →
  (∀ k e, (k, e) ∈ order → byTag !! etag e = None) →
  ∃ byTag', compact_index byTag order = Ok byTag' ∧
    ∀ t k, byTag' !! t = Some k ↔ byTag !! t = Some k ∨ ∃ e, (k, e) ∈ order ∧ etag e = t.
Proof.
  revert byTag. induction order as [|[k e] order IH]; intros byTag Hnd Hdis Hnew; simpl.
  { exists byTag. split; [done|]. intros t k. split; [by left|]. intros [?|(e & He & _)]; [done|].
    by apply elem_of_nil in He. }
  simpl in Hnd. apply NoDup_cons in Hnd as [Hk Hnd].
  pose proof (Hnew k e (list_elem_of_here _ _)) as Hfresh.
  rewrite (proj2 (other_owner_false _ _ _)) by (by rewrite Hfresh).
  destruct (IH (<[etag e := k]> byTag)) as (byTag' & -> & Hb); [done|..].
  - intros k1 k2 e1 e2 H1 H2. apply Hdis; by right.
  - intros k' e' Hin. rewrite lookup_insert_ne; [apply (Hnew k'); by right|].
    intros Heq. apply Hk, list_elem_of_fmap. exists (k', e'). split; [|done]. simpl.
    apply (Hdis k k' e e'); [by left|by right|done].
  - exists byTag'. split; [done|]. intros t k'. rewrite Hb, lookup_insert_Some. setoid_rewrite elem_of_cons.
    split.
    + intros [[[<- <-]|[_ ?]]|(e' & He' & <-)]; [right; exists e; auto|by left|right; exists e'; auto].
    + intros [Hlk|(e' & [[= -> ->]|He'] & <-)]; [left; right|left; left|right]; [|done|eauto].
      split; [|done]. intros <-. congruence.
Qed.

(** The keys a requested tag list removes. *)
Definition requested (byTag : gmap Tag K) (seen : gset Tag) (tags : list Tag) (k : K) : Prop :=
  ∃ t, t ∈ tags ∧ (t ∉ seen) ∧ byTag !! t = Some k.

Lemma requested_cons byTag seen t tags k :
  requested byTag seen (t :: tags) k ↔
  ((t ∉ seen) ∧ byTag !! t = Some k) ∨ requested byTag ({[t]} ∪ seen) tags k.
Proof.
  unfold requested. split.
  - intros (t' & Hin & Hns & Hlk). destruct (decide (t' = t)) as [->|Hne]; [by left|]. right.
    apply elem_of_cons in Hin as [->|Hin]; [done|]. exists t'. split; [done|]. split; [|done].
    rewrite elem_of_union, elem_of_singleton. by intros [?|?].
  - intros [[Hns Hlk]|(t' & Hin & Hns & Hlk)]; [exists t; split; [by left|done]|].
    exists t'. split; [by right|]. split; [|done]. intros ?. apply Hns, elem_of_union. by right.
Qed.

Lemma requested_seen byTag seen t tags k :
  t ∈ seen → requested byTag seen (t :: tags) k ↔ requested byTag seen tags k.
Proof.
  intros Ht. rewrite requested_cons. assert ({[t]} ∪ seen = seen) as -> by set_solver. naive_solver.
Qed.

Lemma compact_remove_fold es tags keys :
  index_ok es tags → (∀ k, k ∈ keys → is_Some (es !! k)) → NoDup keys →
  index_ok (foldl compact_remove (es, tags) keys).1 (foldl compact_remove (es, tags) keys).2 ∧
  (∀ k, (foldl compact_remove (es, tags) keys).1 !! k = if decide (k ∈ keys) then None else es !! k) ∧
  size es = (length keys + size (foldl compact_remove (es, tags) keys).1)%nat.
Proof.
  revert es tags. induction keys as [|k keys IH]; intros es tags Hi Hin Hnd; [done|].
  apply NoDup_cons in Hnd as [Hk Hnd]. simpl.
  destruct (Hin k (list_elem_of_here _ _)) as [e He]. rewrite He.
  destruct (IH (delete k es) (delete (etag e) tags)) as (IH1 & IH2 & IH3); [| |done|].
  - intros t k'. rewrite lookup_delete_Some, (Hi t k'). setoid_rewrite lookup_delete_Some. split.
    + intros (Hne & e' & He' & Ht). exists e'. split; [|done]. split; [|done].
      intros <-. rewrite He in He'. injection He' as <-. done.
    + intros (e' & [Hne He'] & Ht). split; [|eauto]. intros <-. apply Hne.
      apply (index_distinct _ _ Hi k k' e e'); congruence.
  - intros k' Hk'. rewrite lookup_delete_ne by (intros ->; done). apply Hin. by right.
  - split; [done|]. split; [|rewrite (map_size_delete_Some k es) in IH3 by eauto;
      assert (size es ≠ 0%nat) by (apply map_size_ne_0_lookup; eauto); lia].
    intros k'. rewrite IH2. destruct (decide (k' = k)) as [->|Hne].
    + rewrite lookup_delete_eq. rewrite (decide_True (P:=k ∈ k :: keys)) by (by left). by case_decide.
    + rewrite lookup_delete_ne by done. destruct (decide (k' ∈ keys)).
      * by rewrite decide_True by (by right).
      * rewrite decide_False; [done|]. by intros [?|?]%elem_of_cons.
Qed.

Lemma compact_index_of es tags :
  index_ok es tags → ∃ byTag, compact_index ∅ (map_to_list es) = Ok byTag ∧ index_ok es byTag.
Proof.
  intros Hi. pose proof (index_distinct _ _ Hi) as Hd.
  destruct (compact_index_Ok ∅ (map_to_list es)) as (byTag & Hok & Hb).
  - apply NoDup_fst_map_to_list.
  - intros k1 k2 e1 e2 H1%elem_of_map_to_list H2%elem_of_map_to_list. by apply Hd.
  - intros k e _. apply lookup_empty.
  - exists byTag. split; [done|]. intros t k. rewrite Hb, lookup_empty.
    setoid_rewrite elem_of_map_to_list. naive_solver.
Qed.

Lemma requested_index es byTag tags k :
  index_ok es byTag → requested byTag ∅ tags k ↔ ∃ e, es !! k = Some e ∧ etag e ∈ tags.
Proof.
  intros Hi. unfold requested. split.
  - intros (t & Hin & _ & (e & He & <-)%Hi). eauto.
  - intros (e & He & Hin). exists (etag e). split; [done|]. split; [set_solver|]. apply Hi. eauto.
Qed.

End tag_index.

(** ** Selecting the entries of requested tags *)

Section selection.
Context {K V : Type} `{Countable K} (epresent : V → bool).

(** The loop over the requested tags. *)
Fixpoint compact_keys (entries : gmap K V) (byTag : gmap Tag K) (seen : gset Tag)
    (compact : list K) (tags : list Tag) : result (list K) :=
  match tags with
  | [] => Ok compact
  | tag :: tags' =>
      if bool_decide (tag ∈ seen) then compact_keys entries byTag seen compact tags'
      else match byTag !! tag with
      | None => compact_keys entries byTag ({[tag]} ∪ seen) compact tags'
      | Some key =>
          if match entries !! key with Some e => epresent e | None => false end
          then Err ErrUnsafeCompaction
          else compact_keys entries byTag ({[tag]} ∪ seen) (compact ++ [key]) tags'
      end
  end.

Lemma compact_keys_spec es byTag seen c tags :
  (∀ t t' k, byTag !! t = Some k → byTag !! t' = Some k → t = t') →
  NoDup c → (∀ k, k ∈ c → ¬ requested byTag seen tags k) →
  match compact_keys es byTag seen c tags with
  | Ok c' => NoDup c' ∧ (∀ k, k ∈ c' ↔ k ∈ c ∨ requested byTag seen tags k) ∧
      ∀ k e, requested byTag seen tags k → es !! k = Some e → epresent e = false
  | Err err => err = ErrUnsafeCompaction ∧
      ∃ k e, requested byTag seen tags k ∧ es !! k = Some e ∧ epresent e = true
  end.
Proof.
  intros Hinj. revert seen c. induction tags as [|t tags IH]; intros seen c Hnd Hc; simpl.
  { assert (∀ k, ¬ requested byTag seen [] k) as Hno by (intros k (t & Ht & _); by apply elem_of_nil in Ht).
    split; [done|]. split; [|by intros k e ?%Hno]. intros k. split; [by left|]. by intros [?|?%Hno]. }
  case_bool_decide as Hin.
  { assert (∀ k, k ∈ c → ¬ requested byTag seen tags k) as Hc'
      by (intros k Hkc Hr; apply (Hc k Hkc); by apply requested_seen).
    specialize (IH seen c Hnd Hc'). destruct (compact_keys _ _ _ _ _) as [c'|err];
      by setoid_rewrite requested_seen. }
  setoid_rewrite requested_cons in Hc.
  destruct (byTag !! t) as [k|] eqn:Hk.
  - destruct (match es !! k with Some e => epresent e | None => false end) eqn:Hpres.
    { split; [done|]. destruct (es !! k) as [e|] eqn:He; [|done]. exists k, e. rewrite requested_cons. auto. }
    assert (¬ requested byTag ({[t]} ∪ seen) tags k) as Hnk.
    { intros (t' & _ & Hns & Hlk). apply Hns, elem_of_union_l, elem_of_singleton. by apply (Hinj _ _ k). }
    specialize (IH ({[t]} ∪ seen) (c ++ [k])).
    assert (NoDup (c ++ [k])) as Hnd'.
    { apply NoDup_app. split; [done|]. split; [|apply NoDup_singleton].
      intros k' Hk' ->%list_elem_of_singleton. apply (Hc k); auto. }
    assert (∀ k', k' ∈ c ++ [k] → ¬ requested byTag ({[t]} ∪ seen) tags k') as Hc'.
    { intros k' [Hk'| ->%list_elem_of_singleton]%elem_of_app; [|done]. intros Hr. apply (Hc k' Hk'). by right. }
    specialize (IH Hnd' Hc'). destruct (compact_keys _ _ _ _ _) as [c'|err].
    + destruct IH as (? & Hk' & Hp). split; [done|]. setoid_rewrite requested_cons. split.
      * intros k'. rewrite Hk, Hk', elem_of_app, list_elem_of_singleton. split; [naive_solver|].
        intros [?|[[_ [= ->]]|?]]; auto.
      * intros k' e. rewrite Hk. intros [[_ [= <-]]|Hr] He; [by rewrite He in Hpres|by apply (Hp k')].
    + destruct IH as (? & k' & e & ? & ? & ?). split; [done|]. exists k', e. rewrite requested_cons. auto.
  - specialize (IH ({[t]} ∪ seen) c Hnd). 
    assert (∀ k, k ∈ c → ¬ requested byTag ({[t]} ∪ seen) tags k) as Hc'
      by (intros k Hkc Hr; apply (Hc k Hkc); by right).
    specialize (IH Hc'). destruct (compact_keys _ _ _ _ _) as [c'|err]; setoid_rewrite requested_cons; rewrite Hk; [|naive_solver].
    destruct IH as (? & Hk' & Hp). split; [done|]. split.
    * intros k'. rewrite Hk'. naive_solver.
    * intros k' e [[_ ?]|Hr] He; [done|by apply (Hp k')].
Qed.
End selection.
