(* ===== verification/TagStore.v ===== *)
(** * Indexed entries under a clock

    What the last-writer-wins map and set of src/lww have in common: entries with
    their index and the clock that tags the writes. A received set of entries is
    joined, a local write gets the greatest tag, and compaction removes exactly
    the requested entries; each keeps the invariant [store_wf]. *)

From S2P Require Import Prelude Tags Clock Lattice Tagged TagIndex.

Section validation.
Context {K V : Type} `{Countable K} (etag : V → Tag) (bad : K → V → bool) (invalid : error).

(** Whether entries are valid does not depend on the order of the loop. *)
Lemma validate_order_Ok owners order :
  NoDup order.*1 →
  validate_order etag bad invalid owners order = Ok tt ↔
  Forall (λ e, bad e.1 e.2 = false) order ∧
  (∀ k e o, (k, e) ∈ order → owners !! etag e = Some o → o = k) ∧
  (∀ k1 k2 e1 e2, (k1, e1) ∈ order → (k2, e2) ∈ order → etag e1 = etag e2 → k1 = k2).
Proof.
  revert owners. induction order as [|[k e] order IH]; intros owners Hnd; simpl.
  { split; [|done]. intros _. split; [constructor|]. split; intros *; by rewrite elem_of_nil. }
  simpl in Hnd. apply NoDup_cons in Hnd as [Hk Hnd]. rewrite Forall_cons. simpl.
  destruct (bad k e) eqn:G; [split; [done|]; by intros ([? _] & _)|].
  destruct (other_owner owners (etag e) k) eqn:G2.
  { split; [done|]. intros (_ & Hown & _). rewrite (proj2 (other_owner_false _ _ _)) in G2; [done|].
    intros o. apply Hown. by left. }
  rewrite other_owner_false in G2. rewrite IH by done. split.
  - intros (Hf & Hown & Hdis). split; [done|]. split.
    + intros k' e' o [[= -> ->]|Hin]%elem_of_cons Hlk; [by apply G2|].
      destruct (decide (etag e' = etag e)) as [Heq|Hne].
      * rewrite Heq in Hlk. apply G2 in Hlk as ->. apply (Hown k' e' k Hin). rewrite Heq. apply lookup_insert_eq.
      * apply (Hown k' e' o Hin). by rewrite lookup_insert_ne.
    + assert (∀ k' e', (k', e') ∈ order → etag e' = etag e → k' = k) as Hk'.
      { intros k' e' Hin Heq. symmetry. apply (Hown k' e' k Hin). rewrite Heq. apply lookup_insert_eq. }
      intros k1 k2 e1 e2 [[= -> ->]|H1]%elem_of_cons [[= -> ->]|H2]%elem_of_cons Heq; [done|..|by eapply Hdis].
      * symmetry. by eapply Hk'.
      * by eapply Hk'.
  - intros ([_ Hf] & Hown & Hdis). split; [done|]. split.
    + intros k' e' o Hin. rewrite lookup_insert. case_decide as Heq.
      * intros [= <-]. apply (Hdis k k' e e'); [by left|by right|done].
      * intros Hlk. apply (Hown k' e'); [by right|done].
    + intros k1 k2 e1 e2 H1 H2. apply Hdis; by right.
Qed.

Lemma validate_entries_Ok (es : gmap K V) :
  validate_order etag bad invalid ∅ (map_to_list es) = Ok tt ↔
  map_Forall (λ k e, bad k e = false) es ∧ tags_distinct etag es.
Proof.
  rewrite validate_order_Ok by apply NoDup_fst_map_to_list.
  rewrite map_Forall_to_list. setoid_rewrite lookup_empty. setoid_rewrite elem_of_map_to_list.
  unfold tags_distinct. split.
  - intros (Hf & _ & Hd). split; [|done]. eapply Forall_impl; [exact Hf|]. by intros [].
  - intros [Hf Hd]. split; [|done]. eapply Forall_impl; [exact Hf|]. by intros [].
Qed.

End validation.

Section indexing.
Context {K V : Type} `{Countable K} (etag : V → Tag).

(** The loop of [ensureMapTagsCompatible] and [ensureSetTagsCompatible]. *)
Lemma tags_compatible (tags : gmap Tag K) (es : gmap K V) :
  existsb (λ e, other_owner tags (etag e.2) e.1) (map_to_list es) = false ↔
  ∀ k e o, es !! k = Some e → tags !! etag e = Some o → o = k.
Proof.
  rewrite <-not_true_iff_false, existsb_exists. split.
  - intros Hno k e o Hk. apply other_owner_false, not_true_iff_false. intros Ho. apply Hno.
    exists (k, e). split; [|done]. by apply list_elem_of_In, elem_of_map_to_list.
  - intros Hall ([k e] & Hin%list_elem_of_In & Ho). apply elem_of_map_to_list in Hin. simpl in Ho.
    rewrite (proj2 (other_owner_false _ _ _)) in Ho; [done|]. intros o. by apply Hall.
Qed.

(** The loop of [mapTagIndex] and [setTagIndex] builds the index. *)
Lemma tag_index_ok (es : gmap K V) :
  tags_distinct etag es → index_ok etag es (foldl (λ tags e, <[etag e.2 := e.1]> tags) ∅ (map_to_list es)).
Proof.
  intros Hd. assert (∀ k1 k2 e1 e2, (k1, e1) ∈ map_to_list es → (k2, e2) ∈ map_to_list es →
    etag e1 = etag e2 → k1 = k2) as Hd' by (intros k1 k2 e1 e2; rewrite !elem_of_map_to_list; apply Hd).
  intros t k. setoid_rewrite <-(elem_of_map_to_list es). revert Hd'. clear Hd.
  induction (map_to_list es) as [|[k0 e0] l IH] using rev_ind; intros Hd.
  { cbn [foldl]. rewrite lookup_empty. setoid_rewrite elem_of_nil. naive_solver. }
  rewrite foldl_snoc, lookup_insert_Some, IH.
  2: { intros k1 k2 e1 e2 H1 H2. apply Hd; apply elem_of_app; by left. }
  setoid_rewrite elem_of_app. setoid_rewrite list_elem_of_singleton. cbn [fst snd]. split.
  - intros [[<- <-]|[_ (e & He & <-)]]; eauto.
  - intros (e & [He|[= -> ->]] & <-); [|by left].
    destruct (decide (etag e0 = etag e)) as [Heq|Hne]; [left|right; eauto]. split; [done|].
    apply (Hd k0 k e0 e); [apply elem_of_app; right; by left|apply elem_of_app; by left|done].
Qed.

(** Entries that are subsumed add nothing to the join. *)
Lemma subsumed_join (conflict : V → V → bool) (es inc : gmap K V) :
  forallb (λ e, match es !! e.1 with
    | None => false
    | Some current => negb (Compare (etag current) (etag e.2) <? 0) && negb (conflict current e.2)
    end) (map_to_list inc) = true →
  join_later etag es inc = es.
Proof.
  rewrite forallb_forall. intros Hs. apply map_eq. intros k.
  rewrite join_later_lookup. destruct (inc !! k) as [e|] eqn:E; [|by destruct (es !! k)].
  specialize (Hs (k, e)). rewrite <-list_elem_of_In, elem_of_map_to_list in Hs. specialize (Hs E). simpl in *.
  destruct (es !! k) as [c|]; [|done]. apply andb_true_iff in Hs as [Hs%negb_true_iff _]. simpl. by rewrite Hs.
Qed.
End indexing.

Section store.
Context {K V : Type} `{Countable K} (etag : V → Tag) (epresent : V → bool) (ok : K → V → Prop).

(** The entries are acceptable and not above the clock, and the index is their
    inverse. *)
Definition store_wf (clock : ptr HLC) (es : gmap K V) (tags : gmap Tag K) : Prop :=
  ∃ h, clock = Some h ∧ hlc_wf h ∧
    map_Forall (λ k e, ok k e ∧ ts_le (etag e) (hlc_tag h)) es ∧ index_ok etag es tags.

(** Joining one newer entry is an insertion. *)
Lemma join_later_newest (es : gmap K V) k e :
  (∀ k' c, es !! k' = Some c → Compare (etag c) (etag e) < 0) → join_later etag es {[k := e]} = <[k := e]> es.
Proof.
  intros Hgt. apply map_eq. intros k'. rewrite join_later_lookup, lookup_insert, lookup_singleton.
  case_decide as Hk; [subst k'|by destruct (es !! k')]. unfold later.
  destruct (es !! k) as [c|] eqn:Hc; [|done]. by rewrite (proj2 (Z.ltb_lt _ _) (Hgt k c Hc)).
Qed.

(** Compaction finds its index, and either removes exactly the entries of the
    requested tags or meets one that is present. *)
Lemma store_compact c (es : gmap K V) tags req :
  store_wf c es tags →
  ∃ byTag, compact_index etag ∅ (map_to_list es) = Ok byTag ∧
  match compact_keys epresent es byTag ∅ [] req with
  | Ok keys =>
      let r := foldl (compact_remove etag) (es, tags) keys in
      store_wf c r.1 r.2 ∧ r.1 = filter (λ ke, etag ke.2 ∉ req) es ∧
      len keys = Z.of_nat (size es) - Z.of_nat (size r.1) ∧
      ∀ k e, es !! k = Some e → etag e ∈ req → epresent e = false
  | Err err => err = ErrUnsafeCompaction ∧ ∃ k e, es !! k = Some e ∧ etag e ∈ req ∧ epresent e = true
  end.
Proof.
  intros (h & Hc & Hh & Hes & Hi). destruct (compact_index_of etag _ _ Hi) as (byTag & -> & Hb).
  exists byTag. split; [done|].
  assert (∀ t t' k, byTag !! t = Some k → byTag !! t' = Some k → t = t') as Hinj
    by (intros t t' k (e & He & <-)%Hb (e' & He' & <-)%Hb; congruence).
  pose proof (compact_keys_spec epresent es byTag ∅ [] req Hinj NoDup_nil_2
    ltac:(by intros k ?%elem_of_nil)) as Hk.
  pose proof (λ k, requested_index etag _ _ req k Hb) as Hreq.
  destruct (compact_keys _ _ _ _ _) as [keys|err]; setoid_rewrite Hreq in Hk.
  2:{ destruct Hk as (-> & k & e & (e' & He' & Hin) & He & Hp). split; [done|]. exists k, e.
      split; [done|]. split; [congruence|done]. }
  destruct Hk as (Hnd & Hkeys & Hdead).
  assert (∀ k, k ∈ keys ↔ ∃ e, es !! k = Some e ∧ etag e ∈ req) as Hin
    by (intros k; rewrite Hkeys, elem_of_nil; naive_solver).
  destruct (compact_remove_fold etag _ _ keys Hi) as (Hi' & Hlk & Hsz); [|done|].
  { intros k (e & ? & _)%Hin. eauto. }
  destruct (foldl (compact_remove etag) _ keys) as [es' ts]. cbn [fst snd] in *.
  assert (es' = filter (λ ke : K * V, etag ke.2 ∉ req) es) as ->.
  { apply map_eq. intros k. rewrite Hlk. symmetry.
    destruct (decide (k ∈ keys)) as [(e & He & Ht)%Hin|Hn].
    - apply map_lookup_filter_None. right. intros e' He' Hno. apply Hno. simpl. congruence.
    - destruct (es !! k) as [e|] eqn:He; [|apply map_lookup_filter_None; by left].
      apply map_lookup_filter_Some. split; [done|]. intros Ht. apply Hn, Hin. eauto. }
  split_and!; [|done|unfold len; lia|].
  - exists h. split_and!; [done|done| |done]. intros k e [He _]%map_lookup_filter_Some. by apply Hes.
  - intros k e He Ht. apply (Hdead k e); eauto.
Qed.
(** Acceptable entries carry real tags. *)
Hypothesis ok_tag : ∀ k e, ok k e → Valid (etag e) = true ∧ tag_wf (etag e).

(** The clock witnesses the greatest received tag, then the entries are installed:
    they are joined and the invariant stays. A refusing clock is unchanged. *)
Lemma store_receive c es tags inc now t :
  store_wf c es tags → map_Forall ok inc → now_wf now → tags_distinct etag inc →
  (∀ k e o, inc !! k = Some e → tags !! etag e = Some o → o = k) →
  foldl greatest_step None (entry_tags etag inc) = Some t →
  match Witness c t now with
  | (c', Ok _) =>
      let r := foldl (apply_entry etag) (es, tags) (map_to_list inc) in
      store_wf c' r.1 r.2 ∧ r.1 = join_later etag es inc
  | (c', Err _) => c' = c
  end.
Proof.
  intros (h & -> & Hwf & Hent & Hidx) Hinc Hnow Hdis Hcomp Hgr.
  pose proof (greatest_entry_tag etag inc) as Hg. rewrite Hgr in Hg.
  destruct Hg as [(k0 & e0 & Hk0 & <-) Hmax]. destruct (ok_tag k0 e0 (Hinc k0 e0 Hk0)) as [_ Htwf].
  destruct (Witness (Some h) (etag e0) now) as [c' [[]|e]] eqn:Hw; [|by apply Witness_error_unchanged in Hw].
  apply Witness_spec in Hw as (h1 & -> & Hwf1 & _ & Hlt & Hlt'); [|done..].
  cbv zeta. rewrite apply_entry_entries. split; [|done]. exists h1. split; [done|]. split; [done|]. split.
  - intros k e. fold (join_later etag es inc). rewrite join_later_lookup.
    assert (∀ e, es !! k = Some e → ok k e ∧ ts_le (etag e) (hlc_tag h1)) as Hold.
    { intros c [? Hle]%Hent. split; [done|]. unfold ts_le, ts_lt in *. lia. }
    assert (∀ e, inc !! k = Some e → ok k e ∧ ts_le (etag e) (hlc_tag h1)) as Hnew.
    { intros c Hc. split; [by apply Hinc|]. pose proof (ts_le_Compare _ _ (Hmax k c Hc)).
      unfold ts_le, ts_lt in *. lia. }
    unfold later. destruct (es !! k), (inc !! k); [case_match|..]; intros [= <-]; auto.
  - rewrite <-(apply_entry_entries etag es tags). apply apply_entries_index; [done|apply NoDup_fst_map_to_list|..].
    + intros k e o. rewrite elem_of_map_to_list. apply Hcomp.
    + intros k1 k2 e1 e2. rewrite !elem_of_map_to_list. apply Hdis.
Qed.

(** A tag the clock issues is above every entry and not in the index. *)
Lemma store_now c es tags now :
  store_wf c es tags → now_wf now →
  match Now c now with
  | (c', Ok t) =>
      Valid t = true ∧ tag_wf t ∧ tags !! t = None ∧ (∀ k e, es !! k = Some e → Compare (etag e) t < 0) ∧
      ∀ k e, ok k e → etag e = t →
        store_wf c' (<[k := e]> es)
          (<[t := k]> (delete (match es !! k with None => zeroTag | Some c => etag c end) tags))
  | (c', Err e) => c' = c ∧ e = ErrClockExhausted ∧ exhausted c now (λ _, False)
  end.
Proof.
  intros (h & -> & Hwf & Hent & Hidx) Hnow. destruct (Now (Some h) now) as [c' [t|e]] eqn:E.
  2: { by apply Now_refused in E. }
  apply Now_spec in E as (h1 & -> & Hwf1 & -> & _ & Hlt); [|done..].
  assert (∀ k e, es !! k = Some e → Compare (etag e) (hlc_tag h1) < 0) as Hgt.
  { intros k e [_ Hle]%Hent. apply ts_lt_Compare. by eapply ts_le_lt_trans. }
  assert (tags !! hlc_tag h1 = None) as Hfresh.
  { apply eq_None_not_Some. intros [o (c & Hc & Heq)%Hidx]. apply Hgt in Hc.
    rewrite Heq, (cmp_refl Compare) in Hc. lia. }
  destruct Hwf1 as (Hw1 & Hw2 & Hw3). split_and!; [done..|]. intros k e He Htag.
  exists h1. split; [done|]. split; [done|]. split.
  - intros k' c. rewrite lookup_insert_Some. intros [[<- <-]|[_ [? Hle]%Hent]].
    + split; [done|]. rewrite Htag. unfold ts_le. lia.
    + split; [done|]. unfold ts_le, ts_lt in *. lia.
  - assert (delete (match es !! k with None => zeroTag | Some c => etag c end) tags =
      match es !! k with Some c => delete (etag c) tags | None => tags end) as ->.
    { destruct (es !! k); [done|]. apply delete_id, eq_None_not_Some.
      intros [o (c & [[Hv _]%ok_tag _]%Hent & Hz)%Hidx]. by rewrite Hz in Hv. }
    rewrite <-Htag. apply index_insert; [done|]. by rewrite Htag, Hfresh.
Qed.
End store.

(** ** Replication *)

Section replication.
Context {S M K V : Type} `{Countable K} `{EqDecision V} (etag : V → Tag).
Context (receive : ptr S → M → ptr S * result unit) (wf : S → Prop) (msg_ok : M → Prop).
Context (entries : S → gmap K V) (carries : M → gmap K V).

(** A message is joined completely or changes nothing. *)
Hypothesis receive_spec : ∀ s m, wf s → msg_ok m →
  ∃ s' r, receive (Some s) m = (Some s', r) ∧ wf s' ∧
    match r with
    | Ok _ => entries s' = join_later etag (entries s) (carries m)
    | Err _ => s' = s
    end.

Lemma store_convergence (own : Tag → option (K * V)) (a b a' b' : S) (ma mb : list M) :
  wf a → wf b → Forall msg_ok ma → Forall msg_ok mb →
  Forall (all_written etag own) (entries a :: entries b :: (carries <$> ma ++ mb)) →
  run receive (Some a) ma = (Some a', Ok tt) → run receive (Some b) mb = (Some b', Ok tt) →
  (∀ k e, carried (entries a :: (carries <$> ma)) k e ↔ carried (entries b :: (carries <$> mb)) k e) →
  entries a' = entries b' ∧ ∀ msg e s', msg_ok msg → receive (Some a') msg = (s', Err e) → s' = Some a'.
Proof.
  intros Ha Hb Hma Hmb Hown Hruna Hrunb Hsame.
  assert (∀ s m s', wf s → msg_ok m → receive (Some s) m = (s', Ok tt) →
    ∃ t, s' = Some t ∧ wf t ∧ entries t = join_later etag (entries s) (carries m)) as Hrec.
  { intros s m s' Hs Hm Hr. destruct (receive_spec s m Hs Hm) as (t & r & Hr' & Ht & Hj).
    rewrite Hr in Hr'. injection Hr' as -> <-. eauto. }
  pose proof (run_deliver receive _ _ _ _ _ Hrec) as Hrun.
  destruct (Hrun a ma (Some a')) as (? & [= <-] & Hwf & Hsa); [done..|].
  destruct (Hrun b mb (Some b')) as (? & [= <-] & _ & Hsb); [done..|]. split.
  - rewrite Hsa, Hsb. rewrite fmap_app, !Forall_cons, Forall_app in Hown. destruct Hown as (?&?&?&?).
    apply (writes_converge etag own); [by constructor|by constructor|done].
  - intros msg e s' Hmsg Hr. destruct (receive_spec a' msg Hwf Hmsg) as (t & r & Hr' & _ & Hj).
    rewrite Hr in Hr'. injection Hr' as -> <-. by rewrite Hj.
Qed.
End replication.
