(* ===== verification/LWWMap.v ===== *)
(** * Last-writer-wins maps

    Models src/lww/lww.go and src/lww/wire.go for the map. A deleted key keeps an
    entry with its delete tag. Besides the entries a map keeps an index from tags
    to keys. Where a loop over a map can return one of several errors, the
    definition visits the entries in a given order. *)

From S2P Require Import Prelude Tags Clock Lattice Tagged TagIndex Wire SortedCodec Frame.

(** [mapEntry] *)
Record mapEntry := mkMapEntry { me_tag : Tag; me_present : bool; me_value : bytes }.

#[export] Instance mapEntry_eq_dec : EqDecision mapEntry.
Proof. solve_decision. Defined.

(** [MapDelta] *)
Record MapDelta := mkMapDelta { mpd_entries : gmap bytes mapEntry }.

(** [MapOptions] *)
Record MapOptions := mkMapOptions { MaxEntries : Z; MaxKeyBytes : Z; MaxValueBytes : Z }.

(** [DefaultMapOptions] *)
Definition DefaultMapOptions : MapOptions := mkMapOptions (Z.shiftl 1 20) (Z.shiftl 1 20) (Z.shiftl 1 20).

(** [MapOptions.valid] *)
Definition MapOptions_valid (o : MapOptions) : bool :=
  (0 <? MaxEntries o) && (0 <? MaxKeyBytes o) && (0 <? MaxValueBytes o).

(** [Map] *)
Record LWWMap := mkLWWMap {
  lm_replicaID : bytes;
  lm_clock : ptr HLC;
  lm_options : MapOptions;
  lm_entries : gmap bytes mapEntry;
  lm_tags : gmap Tag bytes
}.

Definition LWWMap_with (m : LWWMap) (c : ptr HLC) (entries : gmap bytes mapEntry) (tags : gmap Tag bytes)
    : LWWMap := mkLWWMap (lm_replicaID m) c (lm_options m) entries tags.

(** [NewMapFromClockWithOptions] *)
Definition NewMapFromClockWithOptions (state : ClockState) (options : MapOptions) : result LWWMap :=
  if negb (Valid (mkTag (cs_ReplicaID state) 0 0)) then Err ErrLWWInvalidReplicaID
  else if negb (MapOptions_valid options) then Err ErrLWWResourceLimit
  else match NewHLCFromState state with
       | Err e => Err e
       | Ok hlc => Ok (mkLWWMap (cs_ReplicaID state) (Some hlc) options ∅ ∅)
       end.

(** [NewMapFromClock], [NewMapWithOptions], [NewMap] *)
Definition NewMapFromClock (state : ClockState) : result LWWMap :=
  NewMapFromClockWithOptions state DefaultMapOptions.
Definition NewMapWithOptions (replicaID : bytes) (options : MapOptions) : result LWWMap :=
  NewMapFromClockWithOptions (mkClockState replicaID 0 0) options.
Definition NewMap (replicaID : bytes) : result LWWMap := NewMapWithOptions replicaID DefaultMapOptions.

(** [Map.ClockState] *)
Definition LWWMap_ClockState (m : ptr LWWMap) : ClockState :=
  match m with
  | None => zeroClockState
  | Some m => match lm_clock m with None => zeroClockState | Some _ => HLC_Snapshot (lm_clock m) end
  end.

(** ** Validation *)

(** The condition on one entry in [validateMapEntries]. *)
Definition badMapEntry (key : bytes) (entry : mapEntry) : bool :=
  blank key || negb (Valid (me_tag entry)) || (negb (me_present entry) && negb (len (me_value entry) =? 0)).

(** [validateMapEntries] *)
Definition validateMapEntries (entries : gmap bytes mapEntry) : result unit :=
  validate_order me_tag badMapEntry ErrLWWInvalidDelta ∅ (map_to_list entries).

(** [validateMapWrite] *)
Definition validateMapWrite (key value : bytes) (present : bool) (options : MapOptions) : result unit :=
  if blank key || (MaxKeyBytes options <? len key) then Err ErrLWWInvalidKey
  else if present && (MaxValueBytes options <? len value) then Err ErrLWWResourceLimit
  else Ok tt.

(** The loop of [validateMapEntriesWithOptions]. *)
Fixpoint validateMapOptionsOrder (options : MapOptions) (order : list (bytes * mapEntry)) : result unit :=
  match order with
  | [] => Ok tt
  | (key, entry) :: order' =>
      match validateMapWrite key (me_value entry) (me_present entry) options with
      | Err e => Err e
      | Ok _ => validateMapOptionsOrder options order'
      end
  end.

(** [validateMapEntriesWithOptions] *)
Definition validateMapEntriesWithOptions (entries : gmap bytes mapEntry) (options : MapOptions)
    : result unit := validateMapOptionsOrder options (map_to_list entries).

(** [ensureMapTagsCompatible] *)
Definition ensureMapTagsCompatible (tags : gmap Tag bytes) (entries : gmap bytes mapEntry) : result unit :=
  if existsb (λ e : bytes * mapEntry, other_owner tags (me_tag e.2) e.1) (map_to_list entries)
  then Err ErrLWWTagConflict else Ok tt.

(** [mapEntriesConflict] *)
Definition mapEntriesConflict (l r : mapEntry) : bool :=
  bool_decide (me_tag l = me_tag r) &&
  (negb (eqb (me_present l) (me_present r)) || negb (bool_decide (me_value l = me_value r))).

(** The loop that looks for a conflicting entry. *)
Definition conflicts (existing incoming : gmap bytes mapEntry) : bool :=
  existsb (λ e : bytes * mapEntry, match existing !! e.1 with
    | Some current => mapEntriesConflict current e.2 | None => false end) (map_to_list incoming).

(** [mapEntriesSubsumed] *)
Definition mapEntriesSubsumed (existing incoming : gmap bytes mapEntry) : bool :=
  forallb (λ e : bytes * mapEntry, match existing !! e.1 with
    | None => false
    | Some current => negb (Compare (me_tag current) (me_tag e.2) <? 0) && negb (mapEntriesConflict current e.2)
    end) (map_to_list incoming).

(** [newMapEntries] *)
Definition newMapEntries (incoming existing : gmap bytes mapEntry) : Z :=
  len (filter (λ e : bytes * mapEntry, existing !! e.1 = None) (map_to_list incoming)).

(** [greatestMapTag] *)
Definition greatestMapTag (entries : gmap bytes mapEntry) : option Tag :=
  foldl greatest_step None (entry_tags me_tag entries).

(** [mapFrontier] *)
Definition mapFrontier (entries : gmap bytes mapEntry) : gmap bytes Tag :=
  foldl frontier_step ∅ (entry_tags me_tag entries).

(** [mapTagIndex] *)
Definition mapTagIndex (entries : gmap bytes mapEntry) : result (gmap Tag bytes) :=
  match validateMapEntries entries with
  | Err e => Err e
  | Ok _ => Ok (foldl (λ tags e, <[me_tag e.2 := e.1]> tags) ∅ (map_to_list entries))
  end.

(** ** Operations *)

(** [Map.writeDelta] *)
Definition LWWMap_writeDelta (m : ptr LWWMap) (key value : bytes) (present : bool) (now : option Z)
    : ptr LWWMap * result MapDelta :=
  match m with
  | None => (None, Err ErrNilMap)
  | Some lm =>
      match lm_clock lm with
      | None => (m, Err ErrNilMap)
      | Some _ =>
          match validateMapWrite key value present (lm_options lm) with
          | Err e => (m, Err e)
          | Ok _ =>
              let current := lm_entries lm !! key in
              if bool_decide (current = None) &&
                 (MaxEntries (lm_options lm) <=? Z.of_nat (size (lm_entries lm)))
              then (m, Err ErrLWWResourceLimit)
              else match Now (lm_clock lm) now with
              | (hlc, Err e) => (Some (LWWMap_with lm hlc (lm_entries lm) (lm_tags lm)), Err e)
              | (hlc, Ok tag) =>
                  if other_owner (lm_tags lm) tag key
                  then (Some (LWWMap_with lm hlc (lm_entries lm) (lm_tags lm)), Err ErrLWWTagConflict)
                  else
                    let incoming := mkMapEntry tag present (if present then value else []) in
                    let delta := mkMapDelta {[key := incoming]} in
                    let currentTag := match current with None => zeroTag | Some c => me_tag c end in
                    if match current with None => true | Some c => Compare (me_tag c) tag <? 0 end
                    then (Some (LWWMap_with lm hlc (<[key := incoming]> (lm_entries lm))
                                 (<[tag := key]> (delete currentTag (lm_tags lm)))), Ok delta)
                    else (Some (LWWMap_with lm hlc (lm_entries lm) (lm_tags lm)), Ok delta)
              end
          end
      end
  end.

(** [Map.SetWithDelta], [Map.DeleteWithDelta], [Map.Set], [Map.Delete] *)
Definition LWWMap_SetWithDelta (m : ptr LWWMap) (key value : bytes) (now : option Z) :=
  LWWMap_writeDelta m key value true now.
Definition LWWMap_DeleteWithDelta (m : ptr LWWMap) (key : bytes) (now : option Z) :=
  LWWMap_writeDelta m key [] false now.
Definition LWWMap_Set (m : ptr LWWMap) (key value : bytes) (now : option Z) : ptr LWWMap * result unit :=
  let '(m, r) := LWWMap_SetWithDelta m key value now in (m, _ ← r; Ok tt).
Definition LWWMap_Delete (m : ptr LWWMap) (key : bytes) (now : option Z) : ptr LWWMap * result unit :=
  let '(m, r) := LWWMap_DeleteWithDelta m key now in (m, _ ← r; Ok tt).

(** [Map.Get] *)
Definition LWWMap_Get (m : ptr LWWMap) (key : bytes) : option bytes :=
  match m with
  | None => None
  | Some m =>
      match lm_entries m !! key with
      | None => None
      | Some entry => if negb (me_present entry) then None else Some (me_value entry)
      end
  end.

(** [Map.HasEntry], [Map.EntryCount] *)
Definition LWWMap_HasEntry (m : ptr LWWMap) (key : bytes) : bool :=
  match m with None => false | Some m => bool_decide (is_Some (lm_entries m !! key)) end.
Definition LWWMap_EntryCount (m : ptr LWWMap) : Z :=
  match m with None => 0 | Some m => Z.of_nat (size (lm_entries m)) end.

(** [sortedMapKeys] *)
Definition sortedMapKeys (entries : gmap bytes mapEntry) : list bytes :=
  sort_by bytes_compare (map_to_list entries).*1.

(** [Map.EntryKeys], [Map.Keys] *)
Definition LWWMap_EntryKeys (m : ptr LWWMap) : list bytes :=
  match m with None => [] | Some m => sortedMapKeys (lm_entries m) end.
Definition LWWMap_Keys (m : ptr LWWMap) : list bytes :=
  match m with
  | None => []
  | Some m => sort_by bytes_compare
      (filter (λ e : bytes * mapEntry, me_present e.2 = true) (map_to_list (lm_entries m))).*1
  end.

(** [Map.applyOwnedMapEntries] *)
Definition applyOwnedMapEntries (m : LWWMap) (entries : gmap bytes mapEntry) (now : option Z)
    : ptr LWWMap * result unit :=
  match validateMapEntries entries with
  | Err e => (Some m, Err e)
  | Ok _ =>
  match validateMapEntriesWithOptions entries (lm_options m) with
  | Err e => (Some m, Err e)
  | Ok _ =>
  match ensureMapTagsCompatible (lm_tags m) entries with
  | Err e => (Some m, Err e)
  | Ok _ =>
      if conflicts (lm_entries m) entries then (Some m, Err ErrLWWTagConflict)
      else if mapEntriesSubsumed (lm_entries m) entries then (Some m, Ok tt)
      else if MaxEntries (lm_options m) <? Z.of_nat (size (lm_entries m)) + newMapEntries entries (lm_entries m)
      then (Some m, Err ErrLWWResourceLimit)
      else
        let '(hlc, r) := match greatestMapTag entries with
          | None => (lm_clock m, Ok tt)
          | Some tag => Witness (lm_clock m) tag now
          end in
        match r with
        | Err e => (Some (LWWMap_with m hlc (lm_entries m) (lm_tags m)), Err e)
        | Ok _ =>
            let '(es, tags) := foldl (apply_entry me_tag) (lm_entries m, lm_tags m) (map_to_list entries) in
            (Some (LWWMap_with m hlc es tags), Ok tt)
        end
  end end end.

(** [Map.ApplyDelta] *)
Definition LWWMap_ApplyDelta (m : ptr LWWMap) (delta : MapDelta) (now : option Z) : ptr LWWMap * result unit :=
  match m with
  | None => (None, Err ErrNilMap)
  | Some lm =>
      match lm_clock lm with
      | None => (m, Err ErrNilMap)
      | Some _ => applyOwnedMapEntries lm (mpd_entries delta) now
      end
  end.

(** [Map.Merge] *)
Definition LWWMap_Merge (m : ptr LWWMap) (other : peer LWWMap) (now : option Z) : ptr LWWMap * result unit :=
  match m, other with
  | None, _ | _, PNil => (m, Err ErrNilMap)
  | Some _, PSelf => (m, Ok tt)
  | Some lm, PObj o =>
      match validateMapEntries (lm_entries o) with
      | Err e => (m, Err e)
      | Ok _ => applyOwnedMapEntries lm (lm_entries o) now
      end
  end.

(** [Map.State] *)
Definition LWWMap_State (m : ptr LWWMap) : StateSnapshot :=
  match m with
  | None => mkSnapshot (str "lww-map") [] 0 0
  | Some m =>
      let present := len (filter (λ e : bytes * mapEntry, me_present e.2 = true) (map_to_list (lm_entries m))) in
      mkSnapshot (str "lww-map") (lm_replicaID m) present (Z.of_nat (size (lm_entries m)) - present)
  end.

(** [Map.Frontier], [Map.TombstoneTags] *)
Definition LWWMap_Frontier (m : ptr LWWMap) : option (gmap bytes Tag) :=
  (λ m, mapFrontier (lm_entries m)) <$> m.
Definition LWWMap_TombstoneTags (m : ptr LWWMap) : list Tag :=
  match m with
  | None => []
  | Some m => sort_by Compare ((λ e : bytes * mapEntry, me_tag e.2) <$>
      filter (λ e : bytes * mapEntry, me_present e.2 = false) (map_to_list (lm_entries m)))
  end.

(** [Map.CompactTombstones] *)
Definition LWWMap_CompactTombstones (m : ptr LWWMap) (tags : list Tag) : ptr LWWMap * result Z :=
  match m with
  | None => (None, Err ErrNilMap)
  | Some lm =>
      if negb (forallb Valid tags) then (m, Err ErrUnsafeCompaction)
      else match compact_index me_tag ∅ (map_to_list (lm_entries lm)) with
      | Err e => (m, Err e)
      | Ok byTag =>
          match compact_keys me_present (lm_entries lm) byTag ∅ [] tags with
          | Err e => (m, Err e)
          | Ok compact =>
              let '(es, ts) := foldl (compact_remove me_tag) (lm_entries lm, lm_tags lm) compact in
              (Some (LWWMap_with lm (lm_clock lm) es ts), Ok (len compact))
          end
      end
  end.

(** One iteration of the loop of [MapDelta.Merge]. *)
Fixpoint delta_merge (merged : gmap bytes mapEntry) (order : list (bytes * mapEntry))
    : result (gmap bytes mapEntry) :=
  match order with
  | [] => Ok merged
  | (key, incoming) :: order' =>
      match merged !! key with
      | None => delta_merge (<[key := incoming]> merged) order'
      | Some current =>
          if mapEntriesConflict current incoming then Err ErrLWWTagConflict
          else delta_merge (if Compare (me_tag current) (me_tag incoming) <? 0
                            then <[key := incoming]> merged else merged) order'
      end
  end.

(** [MapDelta.Merge] *)
Definition MapDelta_Merge (d other : MapDelta) : result MapDelta :=
  _ ← validateMapEntries (mpd_entries d);
  _ ← validateMapEntries (mpd_entries other);
  merged ← delta_merge (mpd_entries d) (map_to_list (mpd_entries other));
  _ ← validateMapEntries merged;
  Ok (mkMapDelta merged).

(** [MapDelta.Keys] *)
Definition MapDelta_Keys (d : MapDelta) : list bytes := sortedMapKeys (mpd_entries d).

(** [MapDelta.ValidateValues] and [Map.ValidateValues], visiting the entries in
    the map's order; the callback is the application's. *)
Fixpoint validate_values (validate : bytes → bytes → result unit) (order : list (bytes * mapEntry))
    : result unit :=
  match order with
  | [] => Ok tt
  | (key, entry) :: order' =>
      if me_present entry then _ ← validate key (me_value entry); validate_values validate order'
      else validate_values validate order'
  end.
Definition MapDelta_ValidateValues (d : MapDelta) (validate : ptr (bytes → bytes → result unit)) : result unit :=
  match validate with
  | None => Err ErrLWWInvalidDelta
  | Some validate =>
      _ ← validateMapEntries (mpd_entries d); validate_values validate (map_to_list (mpd_entries d))
  end.
Definition LWWMap_ValidateValues (m : ptr LWWMap) (validate : ptr (bytes → bytes → result unit)) : result unit :=
  match m, validate with
  | Some m, Some validate => validate_values validate (map_to_list (lm_entries m))
  | _, _ => Err ErrNilMap
  end.
