(* ===== verification/LWWMapTheory.v ===== *)
(** * Last-writer-wins maps converge

    Properties of the maps of LWWMap.v: the tag index mirrors the entries, a
    write is read back, replicas converge, and compaction removes exactly the
    requested delete markers. *)

From S2P Require Import Prelude Tags Clock Lattice Tagged TagIndex TagStore Wire Frame LWWMap.

Abbreviation entries_map := (gmap bytes mapEntry).

(** ** Well-formed maps *)

(** An entry a replica may hold. *)
Definition entry_wf (key : bytes) (e : mapEntry) : Prop :=
  blank key = false ∧ Valid (me_tag e) = true ∧ tag_wf (me_tag e) ∧ (me_present e = false → me_value e = []).

Definition lwwmap_wf (m : LWWMap) : Prop := store_wf me_tag entry_wf (lm_clock m) (lm_entries m) (lm_tags m).

Lemma entry_wf_tag k e : entry_wf k e → Valid (me_tag e) = true ∧ tag_wf (me_tag e).
Proof. by intros (_ & ? & ? & _). Qed.

Lemma badMapEntry_false k e :
  badMapEntry k e = false ↔ blank k = false ∧ Valid (me_tag e) = true ∧ (me_present e = false → me_value e = []).
Proof.
  assert ((len (me_value e) =? 0) = true ↔ me_value e = []) as Hl.
  { rewrite Z.eqb_eq. destruct (me_value e); [done|]. rewrite len_cons. pose proof (len_nonneg l). split; [lia|done]. }
  unfold badMapEntry. rewrite !orb_false_iff, negb_false_iff.
  destruct (me_present e), (len (me_value e) =? 0); naive_solver.
Qed.

Lemma validateMapEntries_Ok es :
  validateMapEntries es = Ok tt ↔
  map_Forall (λ k e, blank k = false ∧ Valid (me_tag e) = true ∧ (me_present e = false → me_value e = [])) es ∧
  tags_distinct me_tag es.
Proof.
  unfold validateMapEntries. rewrite validate_entries_Ok. unfold map_Forall. by setoid_rewrite badMapEntry_false.
Qed.

(** ** Receiving entries *)

Lemma LWWMap_with_same m c : lm_clock m = c → LWWMap_with m c (lm_entries m) (lm_tags m) = m.
Proof. intros <-. by destruct m. Qed.

Lemma ensureMapTagsCompatible_Ok tags es :
  ensureMapTagsCompatible tags es = Ok tt ↔
  ∀ k e o, es !! k = Some e → tags !! me_tag e = Some o → o = k.
Proof. rewrite <-tags_compatible. unfold ensureMapTagsCompatible. by destruct (existsb _ _). Qed.

(** Receiving well-formed entries keeps the invariant; when it succeeds the
    entries are joined, and when it fails nothing changes. *)
Lemma applyOwned_spec m es now :
  lwwmap_wf m → map_Forall entry_wf es → now_wf now →
  ∃ m' r, applyOwnedMapEntries m es now = (Some m', r) ∧ lwwmap_wf m' ∧
    match r with
    | Ok _ => lm_entries m' = join_later me_tag (lm_entries m) es
    | Err _ => m' = m
    end.
Proof.
  intros Hm Hes Hnow. unfold applyOwnedMapEntries.
  destruct (validateMapEntries es) as [[]|] eqn:Hv; [|by eexists _, _].
  apply validateMapEntries_Ok in Hv as [_ Hdis].
  destruct (validateMapEntriesWithOptions es (lm_options m)) as [[]|]; [|by eexists _, _].
  destruct (ensureMapTagsCompatible _ _) as [[]|] eqn:Hcomp; [|by eexists _, _].
  destruct (conflicts _ _); [by eexists _, _|].
  destruct (mapEntriesSubsumed _ _) eqn:Hsub.
  { eexists _, _. split; [done|]. split; [done|]. symmetry. by eapply subsumed_join. }
  destruct (_ <? _); [by eexists _, _|].
  pose proof (store_receive me_tag entry_wf entry_wf_tag (lm_clock m) (lm_entries m) (lm_tags m) es now) as Hrec. unfold greatestMapTag.
  destruct (foldl greatest_step None _) as [t|] eqn:Hg.
  2: { pose proof (greatest_entry_tag me_tag es) as He. rewrite Hg in He. by rewrite He in Hsub. }
  specialize (Hrec t Hm Hes Hnow Hdis (proj1 (ensureMapTagsCompatible_Ok _ _) Hcomp) eq_refl).
  destruct (Witness _ t now) as [c' [[]|e]]; [|subst c'; rewrite LWWMap_with_same by done; by eexists _, _].
  destruct (foldl (apply_entry me_tag) _ _) as [es' tags']. destruct Hrec as [Hwf Hj].
  by eexists _, _.
Qed.

(** ** Writing *)

(** A write to an LWW map is read back. A write that is accepted sets (or
    deletes) exactly its key, under a tag above every tag the map holds; its
    delta joined into the previous entries gives the new ones, and the index
    stays the inverse of the entries. A refused write changes nothing and is
    refused only for its key, for a resource limit, or by an exhausted clock:
    a well-formed map never reports a tag conflict. *)
Theorem LWWMap_writeDelta_spec (m : LWWMap) (key value : bytes) (present : bool) (now : option Z)
    (Hm : lwwmap_wf m) (Hnow : now_wf now) :
  match LWWMap_writeDelta (Some m) key value present now with
  | (Some m', Ok d) =>
      lwwmap_wf m' ∧ LWWMap_Get (Some m') key = (if present then Some value else None) ∧
      (∀ k, k ≠ key → LWWMap_Get (Some m') k = LWWMap_Get (Some m) k) ∧
      lm_entries m' = join_later me_tag (lm_entries m) (mpd_entries d) ∧
      (∀ k k' e c, mpd_entries d !! k = Some e → lm_entries m !! k' = Some c →
         Compare (me_tag c) (me_tag e) < 0)
  | (m', Err e) =>
      m' = Some m ∧
      ((e = ErrLWWInvalidKey ∧ (blank key = true ∨ MaxKeyBytes (lm_options m) < len key)) ∨
       (e = ErrLWWResourceLimit ∧ ((present = true ∧ MaxValueBytes (lm_options m) < len value) ∨
          (lm_entries m !! key = None ∧ MaxEntries (lm_options m) <= LWWMap_EntryCount (Some m)))) ∨
       (e = ErrClockExhausted ∧ exhausted (lm_clock m) now (λ _, False)))
  | (None, Ok _) => False
  end.
Proof.
  pose proof (store_now me_tag entry_wf entry_wf_tag _ _ _ now Hm Hnow) as Htag.
  pose proof Hm as (h & Hh & _). unfold LWWMap_writeDelta. rewrite Hh in *.
  unfold validateMapWrite. destruct (blank key || _) eqn:G1.
  { split; [done|]. left. split; [done|]. breflect. by destruct G1 as [?|?%Z.ltb_lt]; [left|right]. }
  apply orb_false_iff in G1 as [Hb Hlen]. destruct (present && _) eqn:G2.
  { split; [done|]. right. left. breflect. auto. }
  destruct (bool_decide (lm_entries m !! key = None) && _) eqn:G3.
  { split; [done|]. right. left. apply andb_true_iff in G3 as [G3%bool_decide_eq_true G4%Z.leb_le]. auto. }
  destruct (Now (Some h) now) as [c' [tag|e]].
  2: { destruct Htag as (-> & -> & ?). rewrite LWWMap_with_same by done. auto. }
  destruct Htag as (Hv & Htwf & Hfresh & Hgt & Hwf).
  rewrite (proj2 (other_owner_false _ _ _)) by (rewrite Hfresh; done).
  set (e := mkMapEntry tag present (if present then value else [])).
  assert (match lm_entries m !! key with None => true | Some c => Compare (me_tag c) tag <? 0 end = true) as ->.
  { destruct (lm_entries m !! key) as [c|] eqn:Hc; [|done]. apply Z.ltb_lt. by apply (Hgt key). }
  cbn [LWWMap_Get lm_entries LWWMap_with]. split; [|split; [|split; [|split]]].
  - apply (Hwf key e); [|done]. split_and!; try done. unfold e. simpl. by destruct present.
  - rewrite lookup_insert_eq. unfold e. simpl. by destruct present.
  - intros k Hk. by rewrite lookup_insert_ne.
  - symmetry. by apply join_later_newest.
  - simpl. intros k k' e' c [<- <-]%lookup_singleton_Some Hc. by apply (Hgt k').
Qed.

(** A map with one entry, written at [wall] by [id]. *)
Definition w_entry_map (id : string) (wall : Z) (present : bool) (value : bytes) : LWWMap :=
  let e := mkMapEntry (mkTag (str id) wall 0) present value in
  mkLWWMap (str id) (Some (mkHLC (str id) wall 0)) DefaultMapOptions {[str "k" := e]} {[me_tag e := str "k"]}.

Abbreviation w_map id wall := (w_entry_map id wall true (str id)).

Lemma w_map_wf id wall present value :
  Valid (mkTag (str id) wall 0) = true → is_u64 wall → (present = false → value = []) →
  lwwmap_wf (w_entry_map id wall present value).
Proof.
  intros Hv Hw Hp. exists (mkHLC (str id) wall 0). split; [done|]. split; [done|]. split.
  - apply map_Forall_singleton. split; [done|]. unfold ts_le. simpl. lia.
  - intros t k. simpl. setoid_rewrite lookup_singleton_Some. naive_solver.
Qed.

Lemma LWWMap_writeDelta_spec_witness :
  let write := LWWMap_writeDelta (Some (w_map "a" 5)) (str "j") (str "v") true (Some 3) in
  match write.2 with Ok _ => true | Err _ => false end = true ∧
  match write with (Some m, Ok _) => LWWMap_Get (Some m) (str "j") = Some (str "v") | _ => True end.
Proof.
  intros write. split; [vm_compute; reflexivity|].
  pose proof (LWWMap_writeDelta_spec (w_map "a" 5) (str "j") (str "v") true (Some 3)
    (w_map_wf "a" 5 true (str "a") eq_refl ltac:(done) ltac:(done)) ltac:(done)) as Hspec.
  fold write in Hspec. destruct write as [[m|] [d|e]]; [|done..]. exact (proj1 (proj2 Hspec)).
Defined.

(** ** Convergence *)

Inductive map_msg := MapStateMsg (m : LWWMap) | MapDeltaMsg (d : MapDelta).

Definition map_receive (m : ptr LWWMap) (msg : map_msg * option Z) : ptr LWWMap * result unit :=
  match msg.1 with
  | MapStateMsg o => LWWMap_Merge m (PObj o) msg.2
  | MapDeltaMsg d => LWWMap_ApplyDelta m d msg.2
  end.

Definition map_carries (msg : map_msg * option Z) : entries_map :=
  match msg.1 with MapStateMsg o => lm_entries o | MapDeltaMsg d => mpd_entries d end.

Definition map_msg_ok (msg : map_msg * option Z) : Prop :=
  map_Forall entry_wf (map_carries msg) ∧ now_wf msg.2.

Lemma map_receive_spec m msg :
  lwwmap_wf m → map_msg_ok msg →
  ∃ m' r, map_receive (Some m) msg = (Some m', r) ∧ lwwmap_wf m' ∧
    match r with
    | Ok _ => lm_entries m' = join_later me_tag (lm_entries m) (map_carries msg)
    | Err _ => m' = m
    end.
Proof.
  intros Hm [Hes Hnow]. destruct msg as [[o|d] now]; unfold map_receive, map_carries in *; simpl in *.
  - destruct (validateMapEntries (lm_entries o)) as [[]|]; [|by eexists _, _]. by apply applyOwned_spec.
  - pose proof Hm as (h & -> & _). by apply applyOwned_spec.
Qed.

(** LWW maps converge, atomically. Two maps whose own entries and successfully
    received states and deltas carry the same writes, in any order, with any
    repetition and split into messages in any way, hold identical entries, so they read the same at every key,
    provided no two writes share a tag. Every received message either is joined
    completely or changes nothing, neither the entries nor the index nor the
    clock. *)
Theorem LWWMap_convergence (own : Tag → option (bytes * mapEntry)) (a b a' b' : LWWMap)
    (ma mb : list (map_msg * option Z))
    (Ha : lwwmap_wf a) (Hb : lwwmap_wf b) (Hma : Forall map_msg_ok ma) (Hmb : Forall map_msg_ok mb)
    (Hown : Forall (all_written me_tag own) (lm_entries a :: lm_entries b :: (map_carries <$> ma ++ mb)))
    (Hruna : run map_receive (Some a) ma = (Some a', Ok tt))
    (Hrunb : run map_receive (Some b) mb = (Some b', Ok tt))
    (Hsame : ∀ k e, carried (lm_entries a :: (map_carries <$> ma)) k e ↔ carried (lm_entries b :: (map_carries <$> mb)) k e) :
  lm_entries a' = lm_entries b' ∧ (∀ k, LWWMap_Get (Some a') k = LWWMap_Get (Some b') k) ∧
  ∀ msg e m', map_msg_ok msg → map_receive (Some a') msg = (m', Err e) → m' = Some a'.
Proof.
  destruct (store_convergence me_tag map_receive lwwmap_wf map_msg_ok lm_entries map_carries map_receive_spec
    own a b a' b' ma mb) as [Heq Hatomic]; [done..|].
  split; [done|]. split; [|done]. intros k. unfold LWWMap_Get. by rewrite Heq.
Qed.

Definition w_map_own (t : Tag) : option (bytes * mapEntry) :=
  if decide (t = mkTag (str "a") 1 0) then Some (str "k", mkMapEntry t true (str "a"))
  else if decide (t = mkTag (str "b") 2 0) then Some (str "k", mkMapEntry t true (str "b")) else None.

Lemma LWWMap_convergence_witness :
  let merged x i y j := default (w_map x i) (map_receive (Some (w_map x i)) (MapStateMsg (w_map y j), Some 9)).1 in
  LWWMap_Get (Some (merged "a" 1 "b" 2)) (str "k") = LWWMap_Get (Some (merged "b" 2 "a" 1)) (str "k").
Proof.
  intros merged.
  refine (proj1 (proj2 (LWWMap_convergence w_map_own (w_map "a" 1) (w_map "b" 2)
    (merged "a" 1 "b" 2) (merged "b" 2 "a" 1)
    [(MapStateMsg (w_map "b" 2), Some 9)] [(MapStateMsg (w_map "a" 1), Some 9)] _ _ _ _ _ _ _ _)) (str "k")).
  - by apply w_map_wf.
  - by apply w_map_wf.
  - apply Forall_singleton. split; [|done]. by apply map_Forall_singleton.
  - apply Forall_singleton. split; [|done]. by apply map_Forall_singleton.
  - repeat (apply Forall_cons; split; [by apply map_Forall_singleton; vm_compute|]). constructor.
  - vm_compute. reflexivity.
  - vm_compute. reflexivity.
  - intros es. simpl. set_solver.
Defined.

(** ** Compaction *)

(** The tag [t] belongs to a live value of [es]. *)
Definition live_tag (es : entries_map) (t : Tag) : Prop :=
  ∃ k e, es !! k = Some e ∧ me_tag e = t ∧ me_present e = true.

(** [m'] is [m] without the entries of the delete markers [tags]. *)
Definition compacted_map (m : LWWMap) (tags : list Tag) (m' : LWWMap) : Prop :=
  lwwmap_wf m' ∧ lm_entries m' = filter (λ ke, me_tag ke.2 ∉ tags) (lm_entries m) ∧
  ∀ k, LWWMap_Get (Some m') k = LWWMap_Get (Some m) k.

Lemma LWWMap_compacted (m : LWWMap) (tags : list Tag) (Hm : lwwmap_wf m) :
  match LWWMap_CompactTombstones (Some m) tags with
  | (Some m', Ok n) =>
      (∀ t, t ∈ tags → Valid t = true ∧ ¬ live_tag (lm_entries m) t) ∧ compacted_map m tags m' ∧
      n = Z.of_nat (size (lm_entries m)) - Z.of_nat (size (lm_entries m'))
  | (m', Err e) =>
      (∃ t, t ∈ tags ∧ (Valid t = false ∨ live_tag (lm_entries m) t)) ∧ m' = Some m ∧ e = ErrUnsafeCompaction
  | (None, Ok _) => False
  end.
Proof.
  unfold LWWMap_CompactTombstones. destruct (forallb Valid tags) eqn:Hv; cbn [negb].
  2:{ split; [|done]. apply forallb_false in Hv as (t & Ht & ?). eauto. }
  destruct (store_compact me_tag me_present entry_wf _ _ _ tags Hm) as (byTag & -> & Hk).
  destruct (compact_keys _ _ _ _ _) as [keys|err].
  2:{ destruct Hk as (-> & k & e & He & Hin & Hp). split; [|done]. exists (me_tag e). split; [done|]. right.
      by exists k, e. }
  destruct (foldl (compact_remove me_tag) _ keys) as [es ts]. destruct Hk as (Hwf & Hes & Hn & Hdead).
  cbn [fst snd] in *. subst es. unfold compacted_map. cbn [lm_entries LWWMap_with]. split_and!; [|done|done| |done].
  - intros t Ht. split; [by apply (forallb_elem _ _ _ Hv)|]. intros (k & e & He & <- & Hp).
    by rewrite (Hdead k e) in Hp.
  - intros k. unfold LWWMap_Get. cbn [lm_entries LWWMap_with]. rewrite map_lookup_filter.
    destruct (lm_entries m !! k) as [e|] eqn:He; [|done]. simpl. case_guard as Ht; simpl; [done|].
    rewrite (Hdead k e He); [done|]. done.
Qed.

(** Compacting an LWW map. A successful compaction removes exactly the
    entries whose tags were requested, reports how many, keeps the map
    well-formed, and no key reads differently afterwards. It is refused, with
    nothing changed, exactly when a requested tag is malformed or belongs to a
    live value. *)
Theorem LWWMap_CompactTombstones_spec (m : LWWMap) (tags : list Tag) (Hm : lwwmap_wf m) :
  match LWWMap_CompactTombstones (Some m) tags with
  | (Some m', Ok n) =>
      (∀ t, t ∈ tags → Valid t = true ∧ ¬ live_tag (lm_entries m) t) ∧
      lwwmap_wf m' ∧
      lm_entries m' = filter (λ ke, me_tag ke.2 ∉ tags) (lm_entries m) ∧
      n = Z.of_nat (size (lm_entries m)) - Z.of_nat (size (lm_entries m')) ∧
      ∀ k, LWWMap_Get (Some m') k = LWWMap_Get (Some m) k
  | (m', Err e) =>
      (∃ t, t ∈ tags ∧ (Valid t = false ∨ live_tag (lm_entries m) t)) ∧
      m' = Some m ∧ e = ErrUnsafeCompaction
  | (None, Ok _) => False
  end.
Proof.
  pose proof (LWWMap_compacted m tags Hm) as H. destruct (LWWMap_CompactTombstones _ _) as [[m'|] [n|e]]; try done.
  destruct H as (? & (? & ? & ?) & ?). auto.
Qed.

(** A map that deleted its key forgets the delete marker, and only the marker. *)
Lemma LWWMap_CompactTombstones_spec_witness :
  let compact := LWWMap_CompactTombstones (Some (w_entry_map "a" 5 false [])) [mkTag (str "a") 5 0] in
  match compact.2 with Ok n => n =? 1 | Err _ => false end = true ∧
  match compact with (Some m, Ok _) => lwwmap_wf m | _ => True end.
Proof.
  intros compact. split; [vm_compute; reflexivity|].
  pose proof (LWWMap_CompactTombstones_spec (w_entry_map "a" 5 false []) [mkTag (str "a") 5 0]
    (w_map_wf "a" 5 false [] eq_refl ltac:(done) ltac:(done))) as Hspec.
  fold compact in Hspec. destruct compact as [[m|] [n|e]]; [|done..]. exact (proj1 (proj2 Hspec)).
Defined.
