(* ===== verification/LWWMapCodec.v ===== *)
(** * Canonical frames of last-writer-wins maps

    Models the codec of src/lww/wire.go: a map is written as its entries in key
    order, each with its tag, a presence flag and, when present, its value. The
    decoder also enforces the receiver's [MapOptions], when it has any. *)

From S2P Require Import Prelude Tags Clock Tagged TagIndex Wire SortedCodec Frame LWWMap LWWMapTheory.

(** ** Encoding *)

(** [addMapRawSize], [addMapBytesSize] *)
Definition addMapRawSize (payloadSize additional : Z) (limits : DecoderLimits) : result Z :=
  if (additional <? 0) || (MaxPayload limits - payloadSize <? additional) then Err ErrFrameLimit
  else Ok (payloadSize + additional).
Definition addMapBytesSize (payloadSize valueLength : Z) (limits : DecoderLimits) : result Z :=
  if MaxStringBytes limits <? valueLength then Err ErrFrameLimit
  else addMapRawSize payloadSize (UvarintSize valueLength + valueLength) limits.

(** [entries[key]] *)
Definition map_entry (entries : gmap bytes mapEntry) (key : bytes) : mapEntry :=
  default (mkMapEntry zeroTag false []) (entries !! key).

(** One iteration of the loop of [marshalMapWithLimits] that computes the
    payload's size, and the loop. *)
Definition addMapEntrySize (limits : DecoderLimits) (payloadSize : Z) (key : bytes) (entry : mapEntry) : result Z :=
  payloadSize ← addMapBytesSize payloadSize (len key) limits;
  if MaxStringBytes limits <? len (ReplicaID (me_tag entry)) then Err ErrFrameLimit
  else
    payloadSize ← addMapRawSize payloadSize (TagSize (me_tag entry) + UvarintSize 0) limits;
    if me_present entry then addMapBytesSize payloadSize (len (me_value entry)) limits
    else Ok payloadSize.
Fixpoint mapPayloadSize (entries : gmap bytes mapEntry) (limits : DecoderLimits) (keys : list bytes)
    (payloadSize : Z) : result Z :=
  match keys with
  | [] => Ok payloadSize
  | key :: keys' =>
      payloadSize ← addMapEntrySize limits payloadSize key (map_entry entries key);
      mapPayloadSize entries limits keys' payloadSize
  end.

(** One iteration of the loop that writes the payload. *)
Definition appendMapEntry (entries : gmap bytes mapEntry) (output key : bytes) : bytes :=
  let entry := map_entry entries key in
  let output := AppendUvarint output (len key) ++ key in
  let output := AppendTag output (me_tag entry) in
  if me_present entry
  then AppendUvarint (AppendUvarint output 1) (len (me_value entry)) ++ me_value entry
  else AppendUvarint output 0.

(** [marshalMapWithLimits], [marshalMap] *)
Definition marshalMapWithLimits (typeID : Z) (entries : gmap bytes mapEntry) (limits : DecoderLimits)
    : result bytes :=
  if negb (typeID =? TypeIDLWWMapState) && negb (typeID =? TypeIDLWWMapDelta) then Err ErrInvalidFrame
  else
    _ ← validateMapEntries entries;
    if (MaxElements limits <? Z.of_nat (size entries)) || (MaxTags limits <? Z.of_nat (size entries))
    then Err ErrFrameLimit
    else
      let keys := sortedMapKeys entries in
      payloadSize ← mapPayloadSize entries limits keys (UvarintSize (len keys));
      MarshalFrameWithPayload typeID [] payloadSize
        (exactWriter (foldl (appendMapEntry entries) (AppendUvarint [] (len keys)) keys) payloadSize).
Definition marshalMap (typeID : Z) (entries : gmap bytes mapEntry) : result bytes :=
  marshalMapWithLimits typeID entries DefaultLimits.

(** [Map.MarshalBinary], [MapDelta.MarshalBinary], [Map.MarshalBinaryWithClockState] *)
Definition LWWMap_MarshalBinary (m : ptr LWWMap) : result bytes :=
  match m with
  | None => Err ErrNilMap
  | Some m => marshalMap TypeIDLWWMapState (lm_entries m)
  end.
Definition MapDelta_MarshalBinary (d : MapDelta) : result bytes := marshalMap TypeIDLWWMapDelta (mpd_entries d).
Definition LWWMap_MarshalBinaryWithClockState (m : ptr LWWMap) : result (bytes * ClockState) :=
  match m with
  | None => Err ErrNilMap
  | Some m =>
      match lm_clock m with
      | None => Err ErrNilMap
      | Some _ =>
          encoded ← marshalMap TypeIDLWWMapState (lm_entries m);
          Ok (encoded, HLC_Snapshot (lm_clock m))
      end
  end.

(** ** Decoding *)

(** [minMapEntryBytes] *)
Definition minMapEntryBytes : Z := 7.

(** [readMapBytes] *)
Definition readMapBytes (data : bytes) (position frameLimit optionLimit : Z) : result (bytes * Z) :=
  match ReadUvarint data position with
  | None => Err ErrInvalidFrame
  | Some (length, next) =>
      if (len data <? next) || (frameLimit <? 0) || (len data - next <? length) || (frameLimit <? length)
      then Err ErrInvalidFrame
      else if (0 <? optionLimit) && (optionLimit <? length) then Err ErrLWWResourceLimit
      else Ok (slice data next (next + length), next + length)
  end.

(** The presence flag and the value of an entry, within that loop. *)
Definition readMapValue (payload : bytes) (maxStringBytes valueLimit position : Z) : result (bool * bytes * Z) :=
  match ReadUvarint payload position with
  | None => Err ErrInvalidFrame
  | Some (present, position) =>
      if 1 <? present then Err ErrInvalidFrame
      else if present =? 1
      then '(value, position) ← readMapBytes payload position maxStringBytes valueLimit; Ok (true, value, position)
      else Ok (false, [], position)
  end.

(** One iteration of the entry loop of [unmarshalMapWithOptions]. *)
Definition mapEntryStep (payload : bytes) (maxStringBytes keyLimit valueLimit : Z) (index : Z)
    (acc : gmap bytes mapEntry * bytes) (position : Z) : result ((gmap bytes mapEntry * bytes) * Z) :=
  let '(entries, previous) := acc in
  '(key, position) ← readMapBytes payload position maxStringBytes keyLimit;
  if bool_decide (key = []) || ((0 <? index) && (0 <=? bytes_compare previous key)) then Err ErrInvalidFrame
  else match ReadTag payload position maxStringBytes with
  | None => Err ErrInvalidFrame
  | Some (tag, position) =>
      '(present, value, position) ← readMapValue payload maxStringBytes valueLimit position;
      let entry := mkMapEntry tag present value in
      match validateMapEntries {[key := entry]} with
      | Err _ => Err ErrInvalidFrame
      | Ok _ => Ok ((<[key := entry]> entries, key), position)
      end
  end.

(** [keyLimit] and [valueLimit]: zero stands for no limit. *)
Definition keyLimit (options : ptr MapOptions) : Z :=
  match options with Some o => MaxKeyBytes o | None => 0 end.
Definition valueLimit (options : ptr MapOptions) : Z :=
  match options with Some o => MaxValueBytes o | None => 0 end.

(** [options != nil && count > uint64(options.MaxEntries)] *)
Definition exceedsEntries (options : ptr MapOptions) (count : Z) : bool :=
  match options with Some o => MaxEntries o <? count | None => false end.

(** The payload part of [unmarshalMapWithOptions]. *)
Definition decodeMapEntries (payload : bytes) (limits : DecoderLimits) (options : ptr MapOptions)
    : result (gmap bytes mapEntry) :=
  match ReadUvarint payload 0 with
  | None => Err ErrInvalidFrame
  | Some (count, position) =>
      if (MaxElements limits <? count) || (MaxTags limits <? count) then Err ErrInvalidFrame
      else if exceedsEntries options count
      then Err ErrLWWResourceLimit
      else if (len payload - position) `div` minMapEntryBytes <? count then Err ErrInvalidFrame
      else
        '(entries, _, position) ← read_loop
          (mapEntryStep payload (MaxStringBytes limits) (keyLimit options) (valueLimit options))
          (S (length payload)) 0 count position (∅, []);
        if negb (position =? len payload) then Err ErrInvalidFrame
        else match validateMapEntries entries with
             | Err _ => Err ErrInvalidFrame
             | Ok _ => Ok entries
             end
  end.

Section decode.
Context `{F : Flate}.

(** [unmarshalMapWithOptions], [unmarshalMap] *)
Definition unmarshalMapWithOptions (data : bytes) (expectedType : Z) (limits : DecoderLimits)
    (options : ptr MapOptions) : result (gmap bytes mapEntry) :=
  if match options with Some o => negb (MapOptions_valid o) | None => false end then Err ErrLWWResourceLimit
  else
    decoded ← UnmarshalFrame data limits;
    if negb (TypeID decoded =? expectedType) || negb (bool_decide (CodecID decoded = []))
    then Err ErrInvalidFrame
    else decodeMapEntries (Payload decoded) limits options.
Definition unmarshalMap (data : bytes) (expectedType : Z) (limits : DecoderLimits)
    : result (gmap bytes mapEntry) := unmarshalMapWithOptions data expectedType limits None.

(** [UnmarshalMapDelta], [UnmarshalMapDeltaWithLimits], [UnmarshalMapDeltaWithOptions] *)
Definition UnmarshalMapDeltaWithLimits (data : bytes) (limits : DecoderLimits) : result MapDelta :=
  entries ← unmarshalMap data TypeIDLWWMapDelta limits; Ok (mkMapDelta entries).
Definition UnmarshalMapDelta (data : bytes) : result MapDelta := UnmarshalMapDeltaWithLimits data DefaultLimits.
Definition UnmarshalMapDeltaWithOptions (data : bytes) (limits : DecoderLimits) (options : MapOptions)
    : result MapDelta :=
  if negb (MapOptions_valid options) then Err ErrLWWResourceLimit
  else entries ← unmarshalMapWithOptions data TypeIDLWWMapDelta limits (Some options); Ok (mkMapDelta entries).

(** [Map.UnmarshalBinaryWithLimits], [Map.UnmarshalBinary] *)
Definition LWWMap_UnmarshalBinaryWithLimits (m : ptr LWWMap) (data : bytes) (limits : DecoderLimits)
    (now : option Z) : ptr LWWMap * result unit :=
  match m with
  | None => (None, Err ErrNilMap)
  | Some lm =>
      match lm_clock lm with
      | None => (m, Err ErrNilMap)
      | Some _ =>
          match unmarshalMapWithOptions data TypeIDLWWMapState limits (Some (lm_options lm)) with
          | Err e => (m, Err e)
          | Ok entries =>
              if MaxEntries (lm_options lm) <? Z.of_nat (size entries) then (m, Err ErrLWWResourceLimit)
              else match validateMapEntriesWithOptions entries (lm_options lm) with
              | Err e => (m, Err e)
              | Ok _ =>
                  match mapTagIndex entries with
                  | Err e => (m, Err e)
                  | Ok tags =>
                      match greatestMapTag entries with
                      | None => (Some (LWWMap_with lm (lm_clock lm) entries tags), Ok tt)
                      | Some tag =>
                          match Witness (lm_clock lm) tag now with
                          | (hlc, Err e) => (Some (LWWMap_with lm hlc (lm_entries lm) (lm_tags lm)), Err e)
                          | (hlc, Ok _) => (Some (LWWMap_with lm hlc entries tags), Ok tt)
                          end
                      end
                  end
              end
          end
      end
  end.
Definition LWWMap_UnmarshalBinary (m : ptr LWWMap) (data : bytes) (now : option Z) : ptr LWWMap * result unit :=
  LWWMap_UnmarshalBinaryWithLimits m data DefaultLimits now.
End decode.

(** ** What the decoder accepts *)

(** A receiver limit, where zero means none. *)
Definition within (optionLimit : Z) (s : bytes) : Prop := optionLimit <= 0 ∨ len s <= optionLimit.

Lemma readMapBytes_Ok data pos frameLimit optionLimit s next :
  frameLimit <= maxInt →
  readMapBytes data pos frameLimit optionLimit = Ok (s, next) ↔
  ReadBytes data pos frameLimit = Some (s, next) ∧ within optionLimit s.
Proof.
  intros Hf. unfold readMapBytes, ReadBytes, uint64AsInt, within.
  destruct (ReadUvarint data pos) as [[n p]|] eqn:R; [|by split; [|intros [? _]; repeat case_match]].
  apply ReadUvarint_inv in R as (Hu & -> & rest & _ & Hr). unfold is_u64 in Hu.
  pose proof (remaining_len _ _ _ Hr). pose proof (len_nonneg rest). destruct Hr as [Hp _].
  assert ((len data <? pos + UvarintSize n) = false) as -> by (apply Z.ltb_ge; lia). cbn [orb].
  destruct (Z.ltb_spec frameLimit 0); cbn [orb]; [by split; [|intros [? _]]|].
  destruct (Z.ltb_spec maxInt n), (Z.ltb_spec frameLimit n), (Z.ltb_spec (len data - (pos + UvarintSize n)) n);
    cbn [orb]; try lia; try by split; [|intros [? _]].
  assert (∀ s next, Some (slice data (pos + UvarintSize n) (pos + UvarintSize n + n), pos + UvarintSize n + n) =
    Some (s, next) → len s = n) as Hlen.
  { intros s' next' [= <- _]. unfold slice, len in *. rewrite length_take, length_drop. lia. }
  destruct (Z.ltb_spec 0 optionLimit), (Z.ltb_spec optionLimit n); cbn [andb]; split;
    try by intros [= <- <-]; split; [done|rewrite (Hlen _ _ eq_refl); lia].
  - done.
  - intros [Hs Hw]. rewrite (Hlen _ _ Hs) in Hw. lia.
  - intros [[= <- <-] _]. done.
  - intros [[= <- <-] _]. done.
  - intros [[= <- <-] _]. done.
Qed.

(** The encoding of an entry. *)
Definition value_enc (present : bool) (value : bytes) : bytes :=
  if present then putUvarint 1 ++ bytes_enc value else putUvarint 0.
Definition lww_enc (e : bytes * mapEntry) : bytes :=
  bytes_enc e.1 ++ tag_enc (me_tag e.2) ++ value_enc (me_present e.2) (me_value e.2).

Lemma validate_single k e :
  validateMapEntries {[k := e]} = Ok tt ↔
  blank k = false ∧ Valid (me_tag e) = true ∧ (me_present e = false → me_value e = []).
Proof.
  rewrite validateMapEntries_Ok, map_Forall_singleton. split; [by intros [? _]|]. intros ?. split; [done|].
  by intros k1 k2 e1 e2 [<- <-]%lookup_singleton_Some [<- <-]%lookup_singleton_Some.
Qed.

Section decoder.
Context (payload : bytes) (limits : DecoderLimits) (keyMax valueMax : Z) (Hint : limits_int limits).

Definition value_ok (present : bool) (value : bytes) : Prop :=
  if present then len value <= MaxStringBytes limits ∧ within valueMax value else value = [].

Definition lww_entry_ok (e : bytes * mapEntry) : Prop :=
  entry_wf e.1 e.2 ∧
  (len e.1 <= MaxStringBytes limits ∧ within keyMax e.1) ∧
  len (ReplicaID (me_tag e.2)) <= MaxStringBytes limits ∧
  value_ok (me_present e.2) (me_value e.2).

Lemma readMapValue_Ok pos r :
  readMapValue payload (MaxStringBytes limits) valueMax pos = Ok r ↔
  ∃ present value rest, value_ok present value ∧
    r = (present, value, pos + len (value_enc present value)) ∧
    remaining payload pos (value_enc present value ++ rest).
Proof.
  assert (MaxStringBytes limits <= maxInt) as Hms by apply Hint. unfold readMapValue, value_ok, value_enc. split.
  - destruct (ReadUvarint _ _) as [[p next]|] eqn:R; [|done].
    apply ReadUvarint_inv in R as (Hu & -> & r1 & Hr1 & _). unfold is_u64 in Hu. guard_step. guard_step; breflect.
    + subst p. destruct (readMapBytes _ _ _ _) as [[v next]|] eqn:R; [|done]. intros [= <-].
      apply readMapBytes_Ok in R as [(_ & ? & -> & r2 & Hr2 & _)%ReadBytes_inv ?]; [|done].
      exists true, v, r2. rewrite len_app, <-app_assoc. split; [done|]. split; [f_equal; unfold UvarintSize; lia|].
      eapply remaining_cons; [exact Hr1|done].
    + intros [= <-]. assert (p = 0) as -> by lia. exists false, [], r1. done.
  - intros (present & v & rest & Hv & -> & Hr). destruct present.
    + destruct Hv as [Hv Hw]. rewrite <-app_assoc in Hr. apply ReadUvarint_ok in Hr as [-> Hr]; [|done].
      apply (ReadBytes_ok _ _ (MaxStringBytes limits)) in Hr as [Hr _]; [|by apply (limits_string_ok _ limits)|done].
      cbn [Z.ltb Z.eqb Z.compare Pos.compare Pos.compare_cont Pos.eqb].
      rewrite (proj2 (readMapBytes_Ok _ _ _ valueMax _ _ Hms) (conj Hr Hw)). cbn.
      rewrite len_app. unfold UvarintSize. do 2 f_equal. lia.
    + apply ReadUvarint_ok in Hr as [-> Hr]; [|done]. subst v. done.
Qed.

Lemma mapEntryStep_iff i m prev pos r :
  0 <= pos <= len payload →
  mapEntryStep payload (MaxStringBytes limits) keyMax valueMax i (m, prev) pos = Ok r ↔
  ∃ e rest, lww_entry_ok e ∧ ((0 <? i) && (0 <=? bytes_compare prev e.1) = false) ∧
    r = ((<[e.1 := e.2]> m, e.1), pos + len (lww_enc e)) ∧ remaining payload pos (lww_enc e ++ rest).
Proof.
  intros Hp. assert (MaxStringBytes limits <= maxInt) as Hms by apply Hint. unfold mapEntryStep, lww_enc. split.
  - destruct (readMapBytes _ _ _ _) as [[k next]|] eqn:R; [|done]. cbn [mbind result_bind].
    apply readMapBytes_Ok in R as [(_ & Hmax & -> & r1 & Hr1 & _)%ReadBytes_inv Hk]; [|done].
    destruct (_ || _) eqn:G; [done|]. apply orb_false_iff in G as [_ Ho].
    destruct (ReadTag _ _ _) as [[t next]|] eqn:R; [|done].
    apply ReadTag_inv in R as (Htw & Htv & _ & Htm & -> & r2 & Hr2 & _).
    destruct (readMapValue _ _ _ _) as [v|] eqn:R; [|done].
    apply readMapValue_Ok in R as (b & v' & r3 & Hv & -> & Hr3). cbn [mbind result_bind].
    destruct (validateMapEntries _) as [[]|] eqn:V; [|done]. apply validate_single in V as (Hb & _ & Hp').
    intros [= <-]. exists (k, mkMapEntry t b v'), r3. cbn [fst snd me_tag me_present me_value].
    rewrite !len_app, <-!app_assoc, len_tag_enc. split; [done|]. split; [done|]. split; [f_equal; lia|].
    eapply remaining_cons; [exact Hr1|]. eapply remaining_cons; [exact Hr2|]. by rewrite len_tag_enc.
  - intros ([k [t b v]] & rest & ((Hb & Htv & Htw & Hp') & (Hmax & Hk) & Htm & Hv) & Ho & -> & Hr).
    cbn [fst snd me_tag me_present me_value] in *. rewrite <-!app_assoc in Hr.
    apply (ReadBytes_ok _ _ (MaxStringBytes limits)) in Hr as [R Hr]; [|by apply (limits_string_ok _ limits)|done].
    rewrite (proj2 (readMapBytes_Ok _ _ _ keyMax _ _ Hms) (conj R Hk)). cbn [mbind result_bind].
    rewrite Ho, bool_decide_false by (by intros ->). cbn [orb].
    apply (ReadTag_ok _ _ (MaxStringBytes limits)) in Hr as [-> Hr]; [|done..|by apply (limits_string_ok _ limits)|done].
    rewrite (proj2 (readMapValue_Ok _ _)) by (exists b, v, rest; split_and!; [done|reflexivity|done]).
    cbn [mbind result_bind]. rewrite (proj2 (validate_single k _)) by done.
    rewrite !len_app, len_tag_enc. do 2 f_equal. lia.
Qed.

Lemma lww_enc_pos e : 1 <= len (lww_enc e).
Proof.
  unfold lww_enc. rewrite !len_app, len_bytes_enc. pose proof (putUvarint_pos (len e.1)).
  pose proof (len_nonneg e.1). pose proof (len_nonneg (tag_enc (me_tag e.2))).
  pose proof (len_nonneg (value_enc (me_present e.2) (me_value e.2))). unfold UvarintSize. lia.
Qed.

(** No encoded entry is shorter than [minMapEntryBytes]. *)
Lemma lww_enc_min e : lww_entry_ok e → minMapEntryBytes <= len (lww_enc e).
Proof.
  intros ((Hb & Hv & _) & _). unfold lww_enc, minMapEntryBytes. rewrite !len_app, len_bytes_enc, len_tag_enc.
  assert (∀ n, 1 <= UvarintSize n) as Hu by apply putUvarint_pos.
  pose proof (nonblank_len _ Hb). apply negb_true_iff, nonblank_len in Hv.
  assert (1 <= len (value_enc (me_present e.2) (me_value e.2))).
  { unfold value_enc. destruct (me_present e.2); [|by apply putUvarint_pos]. rewrite len_app.
    pose proof (putUvarint_pos 1). pose proof (len_nonneg (bytes_enc (me_value e.2))). lia. }
  unfold TagSize. pose proof (Hu (len e.1)). pose proof (Hu (len (ReplicaID (me_tag e.2)))).
  pose proof (Hu (WallTime (me_tag e.2))). pose proof (Hu (Logical (me_tag e.2))). lia.
Qed.

Lemma lww_encs_min l :
  Forall lww_entry_ok l → minMapEntryBytes * len l <= len (concat (lww_enc <$> l)).
Proof.
  induction 1 as [|e l He Hl IH]; [done|]. rewrite fmap_cons. cbn [concat].
  rewrite len_app, len_cons. pose proof (lww_enc_min e He). lia.
Qed.
End decoder.

(** ** Payloads *)

(** The canonical payload of the entries. *)
Definition lww_entries (es : entries_map) : list (bytes * mapEntry) := sorted_entries bytes_compare es.
Definition lww_payload (es : entries_map) : bytes :=
  putUvarint (len (lww_entries es)) ++ concat (lww_enc <$> lww_entries es).

(** The entries the decoder accepts. *)
Definition lww_valid (limits : DecoderLimits) (options : ptr MapOptions) (es : entries_map) : Prop :=
  map_Forall (λ k e, lww_entry_ok limits (keyLimit options) (valueLimit options) (k, e)) es ∧ tags_distinct me_tag es ∧
  Z.of_nat (size es) <= MaxElements limits ∧ Z.of_nat (size es) <= MaxTags limits ∧
  exceedsEntries options (Z.of_nat (size es)) = false.

Lemma lww_valid_validate limits options es : lww_valid limits options es → validateMapEntries es = Ok tt.
Proof.
  intros (Hf & Hd & _). apply validateMapEntries_Ok. split; [|done]. eapply map_Forall_impl; [exact Hf|].
  intros k e ((? & ? & _ & ?) & _). done.
Qed.

Lemma decodeMapEntries_iff payload limits options es :
  limits_int limits →
  decodeMapEntries payload limits options = Ok es ↔ payload = lww_payload es ∧ lww_valid limits options es.
Proof.
  intros Hint. unfold decodeMapEntries. split.
  - destruct (ReadUvarint _ 0) as [[count pos]|] eqn:R; [|done].
    apply ReadUvarint_inv in R as (Hu & -> & r1 & Hr1 & Hr1'). do 3 guard_step. breflect.
    destruct (read_loop _ _ _ _ _ _) as [[[c prev] p]|] eqn:L; [|done]. cbn [mbind result_bind].
    apply (map_loop_iff bytes_compare payload _ lww_enc (lww_entry_ok limits (keyLimit options) (valueLimit options))
      [] lww_enc_pos (mapEntryStep_iff payload limits _ _ Hint))
      in L as (r2 & Hc & <- & -> & -> & Hr2); [|apply Hu|apply Hr1'].
    guard_step. breflect. destruct (validateMapEntries c) as [[]|] eqn:V; [|done]. intros [= <-].
    apply validateMapEntries_Ok in V as [_ Hd]. split; [|done].
    pose proof (remaining_app _ _ _ _ Hr2) as Hend. assert (r2 = []) as ->.
    { apply (remaining_unique payload (len payload)); [congruence|by apply remaining_nil]. }
    rewrite app_nil_r in Hr2. apply (remaining_unique payload 0); [apply remaining_start|].
    unfold lww_payload, lww_entries. rewrite !len_sorted_entries. by eapply remaining_cons; [exact Hr1|].
  - intros [Hpay Hv]. pose proof (lww_valid_validate _ _ _ Hv) as V. destruct Hv as (Hf & Hd & Hn & Hn' & Ho).
    pose proof (remaining_start payload) as Hr. rewrite Hpay in Hr at 2.
    unfold lww_payload, lww_entries in Hr. rewrite len_sorted_entries in Hr. unfold limits_int in Hint.
    apply ReadUvarint_ok in Hr as [-> Hr]; [|unfold is_u64, maxInt in *; lia]. rewrite Ho.
    pose proof (remaining_len _ _ _ Hr) as Hlen.
    rewrite <-(app_nil_r (concat _)) in Hr. pose proof (remaining_app _ _ _ _ Hr) as Hend%remaining_nil.
    assert (minMapEntryBytes * Z.of_nat (size es) <= len payload - (0 + UvarintSize (Z.of_nat (size es)))) as Hmin.
    { rewrite <-(len_sorted_entries bytes_compare es) at 1.
      transitivity (len (concat (lww_enc <$> sorted_entries bytes_compare es))); [|lia].
      apply (lww_encs_min limits (keyLimit options) (valueLimit options)). by apply Forall_sorted_entries. }
    apply Z.div_le_lower_bound in Hmin; [|done]. guard_false. guard_false.
    erewrite (map_loop_ok bytes_compare payload _ lww_enc
      (lww_entry_ok limits (keyLimit options) (valueLimit options)) [] lww_enc_pos
      (mapEntryStep_iff payload limits _ _ Hint)) by done.
    cbn [mbind result_bind]. guard_false. by rewrite V.
Qed.

(** ** The encoder *)

Lemma map_entry_lookup es k e : es !! k = Some e → map_entry es k = e.
Proof. unfold map_entry. by intros ->. Qed.

Lemma appendMapEntry_fold es output l :
  Forall (λ e : bytes * mapEntry, es !! e.1 = Some e.2) l →
  foldl (appendMapEntry es) output l.*1 = output ++ concat (lww_enc <$> l).
Proof.
  intros Hl. revert output. induction Hl as [|[k e] l He Hl IH]; intros output; simpl; [by rewrite app_nil_r|].
  cbn [fst snd] in He. rewrite IH. unfold appendMapEntry, lww_enc, value_enc. rewrite (map_entry_lookup _ _ _ He).
  rewrite AppendTag_enc. unfold AppendUvarint, bytes_enc. cbn [fst snd].
  destruct (me_present e); by rewrite <-!app_assoc.
Qed.

(** The strings of an entry fit the limits. *)
Definition lww_strings (limits : DecoderLimits) (e : bytes * mapEntry) : Prop :=
  len e.1 <= MaxStringBytes limits ∧ len (ReplicaID (me_tag e.2)) <= MaxStringBytes limits ∧
  (me_present e.2 = true → len (me_value e.2) <= MaxStringBytes limits).

Lemma addMapRawSize_Ok n a limits r :
  0 <= a → addMapRawSize n a limits = Ok r ↔ r = n + a ∧ n + a <= MaxPayload limits.
Proof.
  intros Ha. unfold addMapRawSize. split; [guards; intros [= <-]; lia|]. intros [-> ?]. by guard_false.
Qed.

Lemma addMapBytesSize_Ok n s limits r :
  addMapBytesSize n (len s) limits = Ok r ↔
  r = n + len (bytes_enc s) ∧ n + len (bytes_enc s) <= MaxPayload limits ∧ len s <= MaxStringBytes limits.
Proof.
  unfold addMapBytesSize. rewrite len_bytes_enc. pose proof (len_nonneg s).
  pose proof (putUvarint_pos (len s)). fold (UvarintSize (len s)) in *.
  destruct (Z.ltb_spec (MaxStringBytes limits) (len s)); [by split; [|lia]|].
  rewrite addMapRawSize_Ok by lia. naive_solver.
Qed.

Lemma addMapEntrySize_iff limits n k e r :
  n <= MaxPayload limits →
  addMapEntrySize limits n k e = Ok r ↔
  r = n + len (lww_enc (k, e)) ∧ r <= MaxPayload limits ∧ lww_strings limits (k, e).
Proof.
  intros Hn. unfold addMapEntrySize, lww_strings, lww_enc, value_enc. cbn [fst snd].
  pose proof (len_nonneg (bytes_enc k)). pose proof (len_nonneg (tag_enc (me_tag e))) as Ht.
  pose proof (len_nonneg (bytes_enc (me_value e))).
  rewrite !len_app, len_tag_enc in *. change (UvarintSize 0) with 1. rewrite bind_Ok.
  setoid_rewrite addMapBytesSize_Ok. destruct (Z.ltb_spec (MaxStringBytes limits) (len (ReplicaID (me_tag e)))).
  { split; [by intros (? & _ & ?)|lia]. }
  destruct (me_present e); rewrite ?len_app; change (len (putUvarint 1)) with 1; change (len (putUvarint 0)) with 1;
    setoid_rewrite bind_Ok; setoid_rewrite addMapRawSize_Ok; [|lia| |lia].
  - setoid_rewrite addMapBytesSize_Ok. split.
    + intros (? & (-> & ? & ?) & ? & (-> & ?) & -> & ? & ?). split_and!; lia.
    + intros (-> & ? & ? & ? & ?). eexists. split; [split; [done|]; split; [lia|done]|].
      eexists. split; [split; [done|lia]|]. split; [lia|]. split; [lia|auto].
  - split.
    + intros (? & (-> & ? & ?) & ? & (-> & ?) & [= <-]). split_and!; [lia..|done].
    + intros (-> & ? & ? & ? & ?). eexists. split; [split; [done|]; split; [lia|done]|].
      eexists. split; [split; [done|lia]|]. f_equal. lia.
Qed.

Lemma mapPayloadSize_iff es limits l n r :
  Forall (λ e : bytes * mapEntry, es !! e.1 = Some e.2) l → n <= MaxPayload limits →
  mapPayloadSize es limits l.*1 n = Ok r ↔
  r = n + len (concat (lww_enc <$> l)) ∧ r <= MaxPayload limits ∧ Forall (lww_strings limits) l.
Proof.
  intros Hl. revert n. induction Hl as [|[k e] l He Hl IH]; intros n Hn;
    rewrite ?fmap_cons, ?fmap_nil; cbn [mapPayloadSize concat fst].
  - rewrite len_nil, Z.add_0_r. split; [intros [= ->]; by repeat split|by intros [-> _]].
  - cbn [fst snd] in He. rewrite (map_entry_lookup _ _ _ He), Forall_cons, len_app, bind_Ok.
    pose proof (len_nonneg (concat (lww_enc <$> l))). split.
    + intros (m & (-> & ? & ?)%addMapEntrySize_iff & (-> & ? & ?)%IH); [|done..]. split; [lia|]. split; [lia|done].
    + intros (-> & ? & ? & ?). exists (n + len (lww_enc (k, e))). split.
      * apply addMapEntrySize_iff; [done|]. split; [done|]. split; [lia|done].
      * apply IH; [lia|]. split; [lia|]. split; [lia|done].
Qed.

Lemma len_lww_payload es :
  len (lww_payload es) = UvarintSize (len (lww_entries es)) + len (concat (lww_enc <$> lww_entries es)).
Proof. unfold lww_payload. by rewrite len_app. Qed.

Lemma marshalMap_iff typeID es data :
  typeID = TypeIDLWWMapState ∨ typeID = TypeIDLWWMapDelta →
  marshalMap typeID es = Ok data ↔
  validateMapEntries es = Ok tt ∧ Z.of_nat (size es) <= MaxElements DefaultLimits ∧
  Z.of_nat (size es) <= MaxTags DefaultLimits ∧
  map_Forall (λ k e, lww_strings DefaultLimits (k, e)) es ∧
  MarshalFrame (mkFrame typeID [] (lww_payload es) 0 false) = Ok data.
Proof.
  intros Ht. unfold marshalMap, marshalMapWithLimits.
  assert (negb (typeID =? TypeIDLWWMapState) && negb (typeID =? TypeIDLWWMapDelta) = false) as ->
    by (by destruct Ht as [-> | ->]).
  destruct (validateMapEntries es) as [[]|]; [|naive_solver]. cbn [mbind result_bind].
  unfold sortedMapKeys. rewrite <-(sorted_entries_keys bytes_compare es). fold (lww_entries es).
  assert (Forall (λ e : bytes * mapEntry, es !! e.1 = Some e.2) (lww_entries es)) as Hes.
  { apply Forall_forall. by intros [k x] Hx%elem_of_sorted_entries. }
  rewrite len_fmap, appendMapEntry_fold by done.
  pose proof (len_sorted_entries bytes_compare es) as Hl. fold (lww_entries es) in Hl.
  pose proof (len_lww_payload es) as Hlen. pose proof (len_nonneg (concat (lww_enc <$> lww_entries es))).
  rewrite <-(Forall_sorted_entries bytes_compare (lww_strings DefaultLimits)). fold (lww_entries es).
  split.
  - guard_step. breflect. rewrite bind_Ok. intros (n & Hn & Hm).
    apply mapPayloadSize_iff in Hn as (-> & Hn & Hs); [|done|].
    2:{ transitivity 10; [|done]. apply UvarintSize_bounds. unfold is_u64. change (MaxElements DefaultLimits) with 1048576 in *. lia. }
    rewrite <-Hlen in Hm. split_and!; [done..|]. rewrite <-Hm. symmetry. apply exactWriter_copy.
  - intros (_ & ? & ? & Hs & Hm). guard_false. pose proof (MarshalFrame_payload _ _ Hm) as Hp. cbn [Payload] in Hp.
    assert (UvarintSize (len (lww_entries es)) <= MaxPayload DefaultLimits) as Hu by lia.
    rewrite (proj2 (mapPayloadSize_iff es DefaultLimits (lww_entries es) _ (len (lww_payload es)) Hes Hu))
      by (split; [done|]; split; [lia|done]).
    cbn [mbind result_bind]. rewrite <-Hm. apply exactWriter_copy.
Qed.

(** ** Canonical bytes *)

(** The tags of the entries are 64-bit. *)
Definition lww_widths (es : entries_map) : Prop := map_Forall (λ _ e, tag_wf (me_tag e)) es.

(** What one encoder call and one decoder call without options agree on. *)
Lemma lww_canonical es data typeID :
  typeID = TypeIDLWWMapState ∨ typeID = TypeIDLWWMapDelta →
  (lww_widths es ∧ marshalMap typeID es = Ok data) ↔
  ∃ payload, decodeMapEntries payload DefaultLimits None = Ok es ∧
    MarshalFrame (mkFrame typeID [] payload 0 false) = Ok data.
Proof.
  intros Ht. rewrite marshalMap_iff, validateMapEntries_Ok by done.
  setoid_rewrite (decodeMapEntries_iff _ DefaultLimits); [|done]. split.
  - intros (Hw & [Hv Hd] & Hn & Hn' & Hs & Hm). exists (lww_payload es). split; [|done]. split; [done|].
    split; [|done]. intros k e He. destruct (Hv k e He) as (? & ? & ?), (Hs k e He) as (? & ? & Hx).
    pose proof (Hw k e He : tag_wf _) as Hwf. split; [done|]. split; [split; [done|by left]|]. split; [done|].
    unfold value_ok. cbn [fst snd] in *. destruct (me_present e); [split; [by apply Hx|by left]|auto].
  - intros (p & (-> & Hf & Hd & Hn & Hn' & _) & Hm). split; [|split; [split; [|done]|split; [done|split; [done|split; [|done]]]]].
    + intros k e He. apply (Hf k e He).
    + intros k e He. destruct (Hf k e He) as ((? & ? & _ & ?) & _). done.
    + intros k e He. destruct (Hf k e He) as (_ & [? _] & ? & Hv). unfold lww_strings, value_ok in *. cbn [fst snd] in *.
      split_and!; [done..|]. intros Hp. rewrite Hp in Hv. apply Hv.
Qed.

(** The LWW-Map's canonical bytes. A v1 delta frame decodes to entries exactly
    when those entries encode to that frame: encoding loses nothing, and every
    set of entries has one encoding. *)
Theorem LWWMap_codec `{F : Flate} (d : MapDelta) (data : bytes) :
  (lww_widths (mpd_entries d) ∧ MapDelta_MarshalBinary d = Ok data) ↔
  (UnmarshalMapDelta data = Ok d ∧ PeekFrameFormatVersion data DefaultLimits = Ok FormatVersion).
Proof.
  unfold MapDelta_MarshalBinary. rewrite lww_canonical by auto. symmetry.
  rewrite <-(decoded_v1_iff data TypeIDLWWMapDelta [] (λ p, decodeMapEntries p DefaultLimits None = Ok (mpd_entries d))) by done.
  apply and_iff_compat_r. unfold UnmarshalMapDelta, UnmarshalMapDeltaWithLimits, unmarshalMap, unmarshalMapWithOptions.
  rewrite bind_Ok. split.
  - intros (es & (f & Hf & Hd)%bind_Ok & [= <-]). exists f. revert Hd. guards. done.
  - intros (f & Hf & Ht & Hc & Hd). exists (mpd_entries d). split; [|by destruct d]. apply bind_Ok.
    exists f. split; [done|]. by guard_false.
Qed.
