(* ===== verification/MVRegister.v ===== *)
(** * Multi-value registers

    Models src/register/mvregister.go: a register keeps every value whose write
    no other known write has observed. A causal context maps each replica to the
    number of its writes that are known; a missing key counts as zero. The two
    maps of a delta may be nil (the zero delta), those of a register that a
    constructor returned are not. *)

From S2P Require Import Prelude Tags Lattice Wire SortedCodec Frame.

(** [mvDot] *)
Record mvDot := mkDot { dot_replicaID : bytes; dot_counter : Z }.

#[export] Instance mvDot_eq_dec : EqDecision mvDot.
Proof. solve_decision. Defined.
#[export] Instance mvDot_countable : Countable mvDot.
Proof.
  refine (inj_countable' (λ d, (dot_replicaID d, dot_counter d)) (λ p, mkDot p.1 p.2) _). by intros [].
Defined.

(** [MVEntry] *)
Record MVEntry := mkMVEntry { mve_ReplicaID : bytes; mve_Counter : Z; mve_Value : bytes }.

(** [MVRegister] *)
Record MVRegister := mkMVRegister {
  mv_replicaID : bytes;
  mv_ctx : gmap bytes Z;
  mv_vals : gmap mvDot bytes
}.

(** [MVRegisterDelta] *)
Record MVRegisterDelta := mkMVRegisterDelta {
  md_context : ptr (gmap bytes Z);
  md_values : ptr (gmap mvDot bytes)
}.

Definition zeroMVRegisterDelta : MVRegisterDelta := mkMVRegisterDelta None None.

(** [validMVDot] *)
Definition validMVDot (dot : mvDot) : bool :=
  negb (blank (dot_replicaID dot)) && negb (dot_counter dot =? 0).

(** [mvContextCovers] *)
Definition mvContextCovers (context : gmap bytes Z) (dot : mvDot) : bool :=
  dot_counter dot <=? lookupZ context (dot_replicaID dot).

(** [compareMVDot] *)
Definition compareMVDot (l r : mvDot) : Z :=
  if string_lt (dot_replicaID l) (dot_replicaID r) then -1
  else if string_lt (dot_replicaID r) (dot_replicaID l) then 1
  else if dot_counter l <? dot_counter r then -1
  else if dot_counter r <? dot_counter l then 1
  else 0.

(** [validateMVState] *)
Definition validateMVState (context : ptr (gmap bytes Z)) (values : ptr (gmap mvDot bytes)) : result unit :=
  match context, values with
  | Some context, Some values =>
      if negb (forallb (λ e : bytes * Z, Valid (mkTag e.1 0 0) && negb (e.2 =? 0)) (map_to_list context))
      then Err ErrInvalidMVRegister
      else if negb (forallb (λ e : mvDot * bytes, validMVDot e.1 && mvContextCovers context e.1)
                      (map_to_list values))
      then Err ErrInvalidMVRegister
      else Ok tt
  | _, _ => Err ErrInvalidMVRegister
  end.

(** The first loop of [joinMVState], over the left values. *)
Fixpoint join_left (rightContext : gmap bytes Z) (rightValues : gmap mvDot bytes)
    (entries : list (mvDot * bytes)) (merged : gmap mvDot bytes) : result (gmap mvDot bytes) :=
  match entries with
  | [] => Ok merged
  | (dot, leftValue) :: entries' =>
      match rightValues !! dot with
      | Some rightValue =>
          if negb (bool_decide (leftValue = rightValue)) then Err ErrRegisterTagConflict
          else join_left rightContext rightValues entries' (<[dot := leftValue]> merged)
      | None =>
          join_left rightContext rightValues entries'
            (if negb (mvContextCovers rightContext dot) then <[dot := leftValue]> merged else merged)
      end
  end.

(** The second loop, over the right values. *)
Definition join_right_step (leftContext : gmap bytes Z) (leftValues : gmap mvDot bytes)
    (merged : gmap mvDot bytes) (entry : mvDot * bytes) : gmap mvDot bytes :=
  if bool_decide (is_Some (leftValues !! entry.1)) then merged
  else if negb (mvContextCovers leftContext entry.1) then <[entry.1 := entry.2]> merged
  else merged.

(** The loop over the right context. *)
Definition join_context_step (merged : gmap bytes Z) (entry : bytes * Z) : gmap bytes Z :=
  if lookupZ merged entry.1 <? entry.2 then <[entry.1 := entry.2]> merged else merged.

(** [joinMVState], visiting the maps in the given orders. *)
Definition joinMVOrder (leftContext : gmap bytes Z) (leftValues : gmap mvDot bytes)
    (rightContext : gmap bytes Z) (rightValues : gmap mvDot bytes)
    (lefts rights : list (mvDot * bytes)) (contexts : list (bytes * Z))
    : result (gmap bytes Z * gmap mvDot bytes) :=
  match join_left rightContext rightValues lefts ∅ with
  | Err e => Err e
  | Ok mergedValues =>
      let mergedValues := foldl (join_right_step leftContext leftValues) mergedValues rights in
      Ok (foldl join_context_step leftContext contexts, mergedValues)
  end.

Definition joinMVState (leftContext : gmap bytes Z) (leftValues : gmap mvDot bytes)
    (rightContext : gmap bytes Z) (rightValues : gmap mvDot bytes)
    : result (gmap bytes Z * gmap mvDot bytes) :=
  joinMVOrder leftContext leftValues rightContext rightValues
    (map_to_list leftValues) (map_to_list rightValues) (map_to_list rightContext).

(** ** Operations *)

(** [sortedMVDots] *)
Definition sortedMVDots (values : gmap mvDot bytes) : list mvDot :=
  sort_by compareMVDot (map_to_list values).*1.

(** [mvEntries] *)
Definition mvEntries (values : gmap mvDot bytes) : list MVEntry :=
  (λ dot, mkMVEntry (dot_replicaID dot) (dot_counter dot) (default [] (values !! dot))) <$>
    sortedMVDots values.

(** [NewMVRegister] *)
Definition NewMVRegister (replicaID : bytes) : result MVRegister :=
  if negb (Valid (mkTag replicaID 0 0)) then Err ErrRegisterInvalidReplicaID
  else Ok (mkMVRegister replicaID ∅ ∅).

(** [MVRegister.Set] *)
Definition MVRegister_Set (r : ptr MVRegister) (value : bytes) : ptr MVRegister * result MVRegisterDelta :=
  match r with
  | None => (None, Err ErrNilMVRegister)
  | Some reg =>
      let current := lookupZ (mv_ctx reg) (mv_replicaID reg) in
      if current =? maxUint64 then (r, Err ErrMVRegisterOverflow)
      else
        let next := current + 1 in
        let context := <[mv_replicaID reg := next]> (mv_ctx reg) in
        let values := {[mkDot (mv_replicaID reg) next := value]} in
        (Some (mkMVRegister (mv_replicaID reg) context values),
         Ok (mkMVRegisterDelta (Some context) (Some values)))
  end.

(** [MVRegister.Values] *)
Definition MVRegister_Values (r : ptr MVRegister) : list MVEntry :=
  match r with None => [] | Some reg => mvEntries (mv_vals reg) end.

(** [MVRegister.Value]: with one entry, the loop returns it. *)
Definition MVRegister_Value (r : ptr MVRegister) : option bytes :=
  match r with
  | None => None
  | Some reg =>
      if negb (Z.of_nat (size (mv_vals reg)) =? 1) then None
      else snd <$> head (map_to_list (mv_vals reg))
  end.

(** [MVRegister.join] *)
Definition MVRegister_join (reg : MVRegister) (context : gmap bytes Z) (values : gmap mvDot bytes)
    : ptr MVRegister * result unit :=
  match validateMVState (Some (mv_ctx reg)) (Some (mv_vals reg)) with
  | Err e => (Some reg, Err e)
  | Ok _ =>
      match joinMVState (mv_ctx reg) (mv_vals reg) context values with
      | Err e => (Some reg, Err e)
      | Ok (context, values) => (Some (mkMVRegister (mv_replicaID reg) context values), Ok tt)
      end
  end.

(** [MVRegister.Merge] *)
Definition MVRegister_Merge (r : ptr MVRegister) (other : peer MVRegister) : ptr MVRegister * result unit :=
  match r, other with
  | None, _ | _, PNil => (r, Err ErrNilMVRegister)
  | Some _, PSelf => (r, Ok tt)
  | Some reg, PObj o =>
      match validateMVState (Some (mv_ctx o)) (Some (mv_vals o)) with
      | Err e => (r, Err e)
      | Ok _ => MVRegister_join reg (mv_ctx o) (mv_vals o)
      end
  end.

(** [MVRegister.subsumes] *)
Definition MVRegister_subsumes (reg : MVRegister) (context : gmap bytes Z) (values : gmap mvDot bytes)
    : result bool :=
  if existsb (λ e : mvDot * bytes, match mv_vals reg !! e.1 with
       | Some current => negb (bool_decide (current = e.2)) | None => false end) (map_to_list values)
  then Err ErrRegisterTagConflict
  else Ok (forallb (λ e : bytes * Z, negb (lookupZ (mv_ctx reg) e.1 <? e.2)) (map_to_list context)).

(** [MVRegister.ApplyDelta] *)
Definition MVRegister_ApplyDelta (r : ptr MVRegister) (delta : MVRegisterDelta)
    : ptr MVRegister * result unit :=
  match r with
  | None => (None, Err ErrNilMVRegister)
  | Some reg =>
      match validateMVState (md_context delta) (md_values delta) with
      | Err e => (r, Err e)
      | Ok _ =>
          let context := default ∅ (md_context delta) in
          let values := default ∅ (md_values delta) in
          match MVRegister_subsumes reg context values with
          | Err e => (r, Err e)
          | Ok true => (r, Ok tt)
          | Ok false => MVRegister_join reg context values
          end
      end
  end.

(** [MVRegisterDelta.Merge] *)
Definition MVRegisterDelta_Merge (d other : MVRegisterDelta) : result MVRegisterDelta :=
  _ ← validateMVState (md_context d) (md_values d);
  _ ← validateMVState (md_context other) (md_values other);
  '(context, values) ← joinMVState (default ∅ (md_context d)) (default ∅ (md_values d))
    (default ∅ (md_context other)) (default ∅ (md_values other));
  Ok (mkMVRegisterDelta (Some context) (Some values)).

(** [MVRegisterDelta.Values] *)
Definition MVRegisterDelta_Values (d : MVRegisterDelta) : list MVEntry :=
  mvEntries (default ∅ (md_values d)).

(** [MVRegister.State] *)
Definition MVRegister_State (r : ptr MVRegister) : StateSnapshot :=
  match r with
  | None => mkSnapshot (str "mv-register") [] 0 0
  | Some reg => mkSnapshot (str "mv-register") (mv_replicaID reg) (Z.of_nat (size (mv_vals reg))) 0
  end.

(** ** Encoding *)

(** [appendMVBytes] *)
Definition appendMVBytes (dst value : bytes) : bytes := AppendUvarint dst (len value) ++ value.

(** The size loop over the sorted replicas. *)
Fixpoint mvContextSize (replicas : list bytes) (context : gmap bytes Z) (limits : DecoderLimits)
    (payloadSize : Z) : result Z :=
  match replicas with
  | [] => Ok payloadSize
  | replicaID :: replicas' =>
      if MaxStringBytes limits <? len replicaID then Err ErrFrameLimit
      else
        let additional := UvarintSize (len replicaID) + len replicaID +
          UvarintSize (lookupZ context replicaID) in
        if MaxPayload limits - payloadSize <? additional then Err ErrFrameLimit
        else mvContextSize replicas' context limits (payloadSize + additional)
  end.

(** The size loop over the sorted dots. *)
Fixpoint mvDotsSize (dots : list mvDot) (values : gmap mvDot bytes) (limits : DecoderLimits)
    (payloadSize : Z) : result Z :=
  match dots with
  | [] => Ok payloadSize
  | dot :: dots' =>
      let value := default [] (values !! dot) in
      if (MaxStringBytes limits <? len (dot_replicaID dot)) || (MaxStringBytes limits <? len value)
      then Err ErrFrameLimit
      else
        let additional := UvarintSize (len (dot_replicaID dot)) + len (dot_replicaID dot) +
          UvarintSize (dot_counter dot) + UvarintSize (len value) + len value in
        if MaxPayload limits - payloadSize <? additional then Err ErrFrameLimit
        else mvDotsSize dots' values limits (payloadSize + additional)
  end.

(** The appends of one replica and of one dot. *)
Definition appendMVContext (context : gmap bytes Z) (payload : bytes) (replicaID : bytes) : bytes :=
  let payload := appendMVBytes payload replicaID in
  AppendUvarint payload (lookupZ context replicaID).
Definition appendMVValue (values : gmap mvDot bytes) (payload : bytes) (dot : mvDot) : bytes :=
  let payload := appendMVBytes payload (dot_replicaID dot) in
  let payload := AppendUvarint payload (dot_counter dot) in
  appendMVBytes payload (default [] (values !! dot)).

(** [marshalMVRegister] *)
Definition marshalMVRegister (typeID : Z) (context : ptr (gmap bytes Z)) (values : ptr (gmap mvDot bytes))
    (limits : DecoderLimits) : result bytes :=
  match validateMVState context values with
  | Err e => Err e
  | Ok _ =>
      let context := default ∅ context in
      let values := default ∅ values in
      if (MaxElements limits <? Z.of_nat (size context)) ||
         (MaxElements limits - Z.of_nat (size context) <? Z.of_nat (size values))
      then Err ErrFrameLimit
      else
        let replicas := sort_by bytes_compare (map_to_list context).*1 in
        let dots := sortedMVDots values in
        let payloadSize := UvarintSize (len replicas) in
        match mvContextSize replicas context limits payloadSize with
        | Err e => Err e
        | Ok payloadSize =>
            let additional := UvarintSize (len dots) in
            if MaxPayload limits - payloadSize <? additional then Err ErrFrameLimit
            else match mvDotsSize dots values limits (payloadSize + additional) with
            | Err e => Err e
            | Ok payloadSize =>
                let payload := AppendUvarint [] (len replicas) in
                let payload := foldl (appendMVContext context) payload replicas in
                let payload := AppendUvarint payload (len dots) in
                let payload := foldl (appendMVValue values) payload dots in
                MarshalFrameWithPayload typeID [] payloadSize (exactWriter payload payloadSize)
            end
        end
  end.

(** [MVRegister.MarshalBinary] *)
Definition MVRegister_MarshalBinary (r : ptr MVRegister) : result bytes :=
  match r with
  | None => Err ErrNilMVRegister
  | Some reg =>
      marshalMVRegister TypeIDMVRegisterState (Some (mv_ctx reg)) (Some (mv_vals reg)) DefaultLimits
  end.

(** [MVRegisterDelta.MarshalBinary] *)
Definition MVRegisterDelta_MarshalBinary (d : MVRegisterDelta) : result bytes :=
  marshalMVRegister TypeIDMVRegisterDelta (md_context d) (md_values d) DefaultLimits.

(** ** Decoding *)

(** The body of the loop over the context; the accumulator is [context] and
    [previousReplica]. *)
Definition mvContextStep (payload : bytes) (maxStringBytes : Z) (index : Z) (acc : gmap bytes Z * bytes)
    (pos : Z) : result ((gmap bytes Z * bytes) * Z) :=
  let '(context, previousReplica) := acc in
  match ReadBytes payload pos maxStringBytes with
  | None => Err ErrInvalidFrame
  | Some (replicaID, next) =>
      match ReadUvarint payload next with
      | None => Err ErrInvalidFrame
      | Some (counter, next) =>
          if negb (Valid (mkTag replicaID 0 0)) || (counter =? 0) ||
             ((0 <? index) && string_le replicaID previousReplica)
          then Err ErrInvalidFrame
          else Ok ((<[replicaID := counter]> context, replicaID), next)
      end
  end.

Definition zeroDot : mvDot := mkDot [] 0.

(** The body of the loop over the values; the accumulator is [values] and
    [previousDot]. *)
Definition mvValueStep (payload : bytes) (maxStringBytes : Z) (context : gmap bytes Z) (index : Z)
    (acc : gmap mvDot bytes * mvDot) (pos : Z) : result ((gmap mvDot bytes * mvDot) * Z) :=
  let '(values, previousDot) := acc in
  match ReadBytes payload pos maxStringBytes with
  | None => Err ErrInvalidFrame
  | Some (replicaBytes, next) =>
      match ReadUvarint payload next with
      | None => Err ErrInvalidFrame
      | Some (counter, next) =>
          match ReadBytes payload next maxStringBytes with
          | None => Err ErrInvalidFrame
          | Some (value, next) =>
              let dot := mkDot replicaBytes counter in
              if negb (validMVDot dot) || negb (mvContextCovers context dot) ||
                 ((0 <? index) && (0 <=? compareMVDot previousDot dot))
              then Err ErrInvalidFrame
              else Ok ((<[dot := value]> values, dot), next)
          end
      end
  end.

(** The payload part of [unmarshalMVRegister]. *)
Definition decodeMVRegister (payload : bytes) (limits : DecoderLimits)
    : result (gmap bytes Z * gmap mvDot bytes) :=
  match ReadUvarint payload 0 with
  | None => Err ErrInvalidFrame
  | Some (contextCount, pos) =>
      if MaxElements limits <? contextCount then Err ErrInvalidFrame
      else match read_loop (mvContextStep payload (MaxStringBytes limits)) (S (length payload)) 0
                   contextCount pos (∅, []) with
      | Err e => Err e
      | Ok ((context, _), pos) =>
          match ReadUvarint payload pos with
          | None => Err ErrInvalidFrame
          | Some (valueCount, next) =>
              if MaxElements limits - contextCount <? valueCount then Err ErrInvalidFrame
              else match read_loop (mvValueStep payload (MaxStringBytes limits) context)
                           (S (length payload)) 0 valueCount next (∅, zeroDot) with
              | Err e => Err e
              | Ok ((values, _), pos) =>
                  if negb (pos =? len payload) then Err ErrInvalidFrame else Ok (context, values)
              end
          end
      end
  end.

Section mv_unmarshal.
Context `{F : Flate}.

(** [unmarshalMVRegister] *)
Definition unmarshalMVRegister (data : bytes) (expectedTypeID : Z) (limits : DecoderLimits)
    : result (gmap bytes Z * gmap mvDot bytes) :=
  match UnmarshalFrame data limits with
  | Err e => Err e
  | Ok decoded =>
      if negb (TypeID decoded =? expectedTypeID) || negb (bool_decide (CodecID decoded = []))
      then Err ErrInvalidFrame
      else decodeMVRegister (Payload decoded) limits
  end.

(** [UnmarshalMVRegisterDeltaWithLimits] *)
Definition UnmarshalMVRegisterDeltaWithLimits (data : bytes) (limits : DecoderLimits)
    : result MVRegisterDelta :=
  '(context, values) ← unmarshalMVRegister data TypeIDMVRegisterDelta limits;
  Ok (mkMVRegisterDelta (Some context) (Some values)).

(** [UnmarshalMVRegisterDelta] *)
Definition UnmarshalMVRegisterDelta (data : bytes) : result MVRegisterDelta :=
  UnmarshalMVRegisterDeltaWithLimits data DefaultLimits.

(** [MVRegister.UnmarshalBinaryWithLimits] *)
Definition MVRegister_UnmarshalBinaryWithLimits (r : ptr MVRegister) (data : bytes)
    (limits : DecoderLimits) : ptr MVRegister * result unit :=
  match r with
  | None => (None, Err ErrNilMVRegister)
  | Some reg =>
      match unmarshalMVRegister data TypeIDMVRegisterState limits with
      | Err e => (r, Err e)
      | Ok (context, values) => (Some (mkMVRegister (mv_replicaID reg) context values), Ok tt)
      end
  end.

(** [MVRegister.UnmarshalBinary] *)
Definition MVRegister_UnmarshalBinary (r : ptr MVRegister) (data : bytes) : ptr MVRegister * result unit :=
  MVRegister_UnmarshalBinaryWithLimits r data DefaultLimits.
End mv_unmarshal.

(** ** The order on dots *)

Lemma compareMVDot_cases l r :
  compareMVDot l r =
  if bool_decide (dot_replicaID l = dot_replicaID r)
  then (if dot_counter l <? dot_counter r then -1 else if dot_counter r <? dot_counter l then 1 else 0)
  else bytes_compare (dot_replicaID l) (dot_replicaID r).
Proof.
  unfold compareMVDot, string_lt. rewrite (cmp_anti bytes_compare (dot_replicaID l) (dot_replicaID r)).
  pose proof (cmp_eq bytes_compare (dot_replicaID l) (dot_replicaID r)) as He.
  pose proof (cmp_range bytes_compare (dot_replicaID l) (dot_replicaID r)).
  case_bool_decide as Hr.
  - rewrite (proj2 He Hr). done.
  - assert (bytes_compare (dot_replicaID l) (dot_replicaID r) ≠ 0) by tauto. repeat guard_step; breflect; lia.
Qed.

#[export] Instance compareMVDot_comparator : Comparator compareMVDot.
Proof.
  split.
  - intros l r. rewrite compareMVDot_cases.
    pose proof (cmp_range bytes_compare (dot_replicaID l) (dot_replicaID r)). repeat guard_step; lia.
  - intros l r. rewrite compareMVDot_cases. destruct l as [i m], r as [j n]. simpl.
    pose proof (cmp_eq bytes_compare i j). case_bool_decide; [subst|naive_solver].
    split; [|intros [= ->]; by rewrite Z.ltb_irrefl].
    guards; try done. intros _. f_equal. lia.
  - intros l r. rewrite !compareMVDot_cases.
    rewrite (cmp_anti bytes_compare (dot_replicaID l) (dot_replicaID r)).
    destruct (decide (dot_replicaID l = dot_replicaID r)).
    + rewrite !bool_decide_true by done. repeat guard_step; breflect; lia.
    + by rewrite !bool_decide_false by congruence.
  - intros [i m] [j n] [k o]. rewrite !compareMVDot_cases. simpl.
    pose proof (cmp_trans bytes_compare i j k) as Ht. pose proof (cmp_refl bytes_compare i) as Hi.
    pose proof (cmp_anti bytes_compare i j) as Ha.
    repeat case_bool_decide; subst; try done; try lia.
    repeat guard_step; breflect; lia.
Qed.

(** ** The join *)

(** Two value maps that agree on the dots they share. *)
Definition mv_agree (lv rv : gmap mvDot bytes) : Prop :=
  ∀ d v w, lv !! d = Some v → rv !! d = Some w → v = w.

(** A value survives a join when both sides have it or the side without it has
    not observed it. *)
Definition mv_survives (lc : gmap bytes Z) (lv : gmap mvDot bytes) (rc : gmap bytes Z)
    (rv : gmap mvDot bytes) (d : mvDot) : option bytes :=
  match lv !! d, rv !! d with
  | Some v, Some _ => Some v
  | Some v, None => if mvContextCovers rc d then None else Some v
  | None, Some v => if mvContextCovers lc d then None else Some v
  | None, None => None
  end.

Lemma join_left_Ok rc rv entries merged :
  (∀ d v w, (d, v) ∈ entries → rv !! d = Some w → v = w) →
  join_left rc rv entries merged =
  Ok (foldl (upsert (λ d _ _, bool_decide (is_Some (rv !! d)) || negb (mvContextCovers rc d)))
    merged entries).
Proof.
  revert merged. induction entries as [|[d v] entries IH]; intros merged Hag; [done|].
  assert (∀ d v w, (d, v) ∈ entries → rv !! d = Some w → v = w) as Hag'
    by (intros d' v' w Hin; apply (Hag d' v' w); by right).
  simpl. unfold upsert at 2. simpl. destruct (rv !! d) as [w|] eqn:E.
  - rewrite (bool_decide_true (v = w)) by (apply (Hag d v w); [by left|done]). simpl. by apply IH.
  - simpl. rewrite IH by done. done.
Qed.

Lemma join_left_Err rc rv entries merged d v w :
  (d, v) ∈ entries → rv !! d = Some w → v ≠ w →
  join_left rc rv entries merged = Err ErrRegisterTagConflict.
Proof.
  intros Hin Hw Hne. revert merged. induction entries as [|[d' v'] entries IH]; intros merged.
  { by apply elem_of_nil in Hin. }
  simpl. apply elem_of_cons in Hin as [[= <- <-]|Hin].
  - rewrite Hw. by rewrite bool_decide_false.
  - destruct (rv !! d') as [w'|]; [|by apply IH]. destruct (negb _); [done|]. by apply IH.
Qed.

Lemma join_left_error rc rv entries merged e :
  join_left rc rv entries merged = Err e → e = ErrRegisterTagConflict.
Proof.
  revert merged. induction entries as [|[d v] entries IH]; intros merged; simpl; [done|].
  destruct (rv !! d) as [w|]; [|apply IH]. destruct (negb _); [by intros [= <-]|apply IH].
Qed.

(** The join in any order of visiting the maps: it fails exactly on a conflict,
    keeps the surviving values and takes the maximum of the contexts. *)
Lemma joinMVOrder_spec lc lv rc rv lefts rights contexts :
  lefts ≡ₚ map_to_list lv → rights ≡ₚ map_to_list rv → contexts ≡ₚ map_to_list rc →
  match joinMVOrder lc lv rc rv lefts rights contexts with
  | Ok (c, m) => mv_agree lv rv ∧ (∀ d, m !! d = mv_survives lc lv rc rv d) ∧
      ∀ k, c !! k = match rc !! k with
                    | Some n => if lookupZ lc k <? n then Some n else lc !! k
                    | None => lc !! k end
  | Err e => ¬ mv_agree lv rv ∧ e = ErrRegisterTagConflict
  end.
Proof.
  intros Hl Hr Hc. assert (∀ d v, (d, v) ∈ lefts ↔ lv !! d = Some v) as Hin.
  { intros d v. by rewrite Hl, elem_of_map_to_list. }
  unfold joinMVOrder. destruct (join_left rc rv lefts ∅) as [m|e] eqn:E.
  - assert (mv_agree lv rv) as Hag.
    { intros d v w Hv Hw. destruct (decide (v = w)) as [|Hne]; [done|].
      by rewrite (join_left_Err rc rv lefts ∅ d v w) in E by (by rewrite ?Hin). }
    split; [done|]. rewrite join_left_Ok in E by (intros d v w Hd; apply Hag; by apply Hin).
    injection E as <-. split.
    + intros d. unfold mv_survives.
      rewrite (foldl_pointwise _ (upsert (λ d _ _, negb (bool_decide (is_Some (lv !! d))) &&
        negb (mvContextCovers lc d)))).
      2: { intros m [d' v']. unfold join_right_step, upsert. simpl. by case_bool_decide. }
      rewrite (upsert_map_lookup _ _ rv) by done. rewrite (upsert_map_lookup _ _ lv) by done.
      rewrite lookup_empty.
      destruct (rv !! d) as [w|], (lv !! d) as [v|]; simpl; by repeat case_match.
    + intros k. apply (upsert_map_lookup (λ _ o n, default 0 o <? n)). done.
  - split; [|by apply join_left_error in E]. intros Hag. rewrite join_left_Ok in E; [done|].
    intros d v w Hd. apply Hag. by apply Hin.
Qed.
