(* ===== verification/MVNetwork.v ===== *)
(** * What a multi-value register shows

    A network of the registers of MVRegister.v, with every write recorded in a
    log: its dot, its value and the causal context the writer had observed. A
    register shows exactly the writes it knows that no other write it knows has
    observed. *)

From S2P Require Import Prelude Tags MVRegister.

Abbreviation ctx := (gmap bytes Z).

(** The writes of the network. *)
Definition mv_log : Type := gmap mvDot (bytes * ctx).

(** A context covers a write. *)
Definition covered (c : ctx) (d : mvDot) : Prop :=
  0 < dot_counter d <= lookupZ c (dot_replicaID d).

Definition ctx_le (c c' : ctx) : Prop := ∀ k, lookupZ c k <= lookupZ c' k.

(** The specification: among the writes a context covers, [d] is visible with
    value [v] when no other covered write had observed it. *)
Definition mv_visible (L : gmap mvDot (bytes * ctx)) (c : ctx) (d : mvDot) (v : bytes) : Prop :=
  covered c d ∧ (∃ cd, L !! d = Some (v, cd)) ∧
  ∀ d' v' c', L !! d' = Some (v', c') → covered c d' → d' ≠ d → ¬ covered c' d.

Definition ctx_ok (c : ctx) : Prop :=
  map_Forall (λ k n, Valid (mkTag k 0 0) = true ∧ 0 < n <= maxUint64) c.

(** Every write observed at most what was written before it. *)
Definition log_ok (L : gmap mvDot (bytes * ctx)) : Prop :=
  ∀ d v c, L !! d = Some (v, c) →
    0 < dot_counter d ∧ ctx_ok c ∧ lookupZ c (dot_replicaID d) = dot_counter d ∧
    ∀ d', covered c d' → ∃ v' c', L !! d' = Some (v', c') ∧ ctx_le c' c ∧ (d' ≠ d → ¬ covered c' d).

(** A state that represents the writes its context covers. *)
Definition represents (L : gmap mvDot (bytes * ctx)) (c : ctx) (m : gmap mvDot bytes) : Prop :=
  ctx_ok c ∧ (∀ d, covered c d → ∃ v' c', L !! d = Some (v', c') ∧ ctx_le c' c) ∧
  ∀ d v, m !! d = Some v ↔ mv_visible L c d v.

(** ** One step *)

Lemma lookupZ_ctx_ok c k : ctx_ok c → 0 <= lookupZ c k <= maxUint64.
Proof.
  intros Hc. unfold lookupZ. destruct (c !! k) as [n|] eqn:E; simpl; [|done].
  apply Hc in E as [_ ?]. lia.
Qed.

Lemma covered_ctx_le c c' d : ctx_le c c' → covered c d → covered c' d.
Proof. intros Hle [? ?]. specialize (Hle (dot_replicaID d)). split; lia. Qed.

Lemma mvContextCovers_covered c d : 0 < dot_counter d → mvContextCovers c d = true ↔ covered c d.
Proof. intros Hd. unfold mvContextCovers, covered. rewrite Z.leb_le. lia. Qed.

Lemma represents_valid L c m :
  represents L c m → validateMVState (Some c) (Some m) = Ok tt.
Proof.
  intros (Hc & Hcl & Hm). unfold validateMVState.
  assert (forallb (λ e : bytes * Z, Valid (mkTag e.1 0 0) && negb (e.2 =? 0)) (map_to_list c) = true) as ->.
  { apply forallb_forall. intros [k n] Hin%list_elem_of_In%elem_of_map_to_list. apply Hc in Hin as [Hv ?].
    simpl. rewrite Hv. apply negb_true_iff, Z.eqb_neq. lia. }
  assert (forallb (λ e : mvDot * bytes, validMVDot e.1 && mvContextCovers c e.1) (map_to_list m) = true) as ->.
  { apply forallb_forall. intros [d v] Hin%list_elem_of_In%elem_of_map_to_list.
    apply Hm in Hin as [Hcov _]. simpl. destruct Hcov as [Hd Hle].
    assert (Valid (mkTag (dot_replicaID d) 0 0) = true) as Hv.
    { unfold lookupZ in Hle. destruct (c !! dot_replicaID d) as [n|] eqn:E; simpl in Hle; [|lia].
      by apply Hc in E as [-> _]. }
    unfold validMVDot, mvContextCovers. unfold Valid in Hv. simpl in Hv. rewrite Hv. simpl.
    apply andb_true_iff. split; [apply negb_true_iff, Z.eqb_neq; lia|by apply Z.leb_le]. }
  done.
Qed.

Lemma survives_visible L c1 m1 c2 m2 c :
  represents L c1 m1 → represents L c2 m2 → (∀ d, covered c d ↔ covered c1 d ∨ covered c2 d) →
  ∀ d v, mv_survives c1 m1 c2 m2 d = Some v ↔ mv_visible L c d v.
Proof.
  intros (Hc1 & Hcl1 & Hm1) (Hc2 & Hcl2 & Hm2) Hcov d v.
  assert (∀ c0, (∀ d', covered c0 d' → ∃ v' c', L !! d' = Some (v', c') ∧ ctx_le c' c0) →
    0 < dot_counter d → mvContextCovers c0 d = false →
    ∀ d' v' c', L !! d' = Some (v', c') → covered c0 d' → ¬ covered c' d) as Hun.
  { intros c0 Hcl Hd Hnc d' v' c' HL Hd' Hcd. apply Hcl in Hd' as (? & ? & HL' & Hle).
    rewrite HL in HL'. injection HL' as <- <-. apply (covered_ctx_le _ _ _ Hle) in Hcd.
    apply mvContextCovers_covered in Hcd; [congruence|done]. }
  unfold mv_survives. split.
  - destruct (m1 !! d) as [v1|] eqn:E1, (m2 !! d) as [v2|] eqn:E2; [..|done].
    + intros [= <-]. apply Hm1 in E1 as (Hd & HL & H1). apply Hm2 in E2 as (_ & _ & H2).
      split; [apply Hcov; by left|]. split; [done|].
      intros d' v' c' HL' [Hd'|Hd']%Hcov; [by apply (H1 d' v')|by apply (H2 d' v')].
    + apply Hm1 in E1 as (Hd & HL & H1). destruct (mvContextCovers c2 d) eqn:E; [done|].
      intros [= <-]. split; [apply Hcov; by left|]. split; [done|].
      intros d' v' c' HL' [Hd'|Hd']%Hcov; [by apply (H1 d' v')|].
      intros _. apply (Hun c2 Hcl2 (proj1 Hd) E d' v'); done.
    + apply Hm2 in E2 as (Hd & HL & H2). destruct (mvContextCovers c1 d) eqn:E; [done|].
      intros [= <-]. split; [apply Hcov; by right|]. split; [done|].
      intros d' v' c' HL' [Hd'|Hd']%Hcov; [|by apply (H2 d' v')].
      intros _. apply (Hun c1 Hcl1 (proj1 Hd) E d' v'); done.
  - intros (Hd & HL & Hmax). pose proof Hd as [Hpos _].
    assert (covered c1 d → m1 !! d = Some v) as H1.
    { intros Hd1. apply Hm1. split; [done|]. split; [done|]. intros d' v' c' HL' Hd'.
      apply (Hmax d' v'); [done|]. apply Hcov. by left. }
    assert (covered c2 d → m2 !! d = Some v) as H2.
    { intros Hd2. apply Hm2. split; [done|]. split; [done|]. intros d' v' c' HL' Hd'.
      apply (Hmax d' v'); [done|]. apply Hcov. by right. }
    destruct (mvContextCovers c1 d) eqn:E1.
    + apply mvContextCovers_covered in E1; [|done]. rewrite (H1 E1). destruct (m2 !! d) eqn:E2; [done|].
      destruct (mvContextCovers c2 d) eqn:E; [|done]. apply mvContextCovers_covered in E; [|done].
      by specialize (H2 E).
    + assert (¬ covered c1 d) as Hn by (intros Hn%mvContextCovers_covered; [congruence|done]).
      apply Hcov in Hd as [|Hd2]; [done|]. rewrite (H2 Hd2).
      destruct (m1 !! d) as [v1|] eqn:E; [|done]. by apply Hm1 in E as [? _].
Qed.

(** Joining two states represents the writes either of them knows. *)
Lemma represents_join L c1 m1 c2 m2 :
  represents L c1 m1 → represents L c2 m2 →
  ∃ c m, joinMVState c1 m1 c2 m2 = Ok (c, m) ∧ represents L c m ∧
    ∀ k, lookupZ c k = lookupZ c1 k `max` lookupZ c2 k.
Proof.
  intros (Hc1 & Hcl1 & Hm1) (Hc2 & Hcl2 & Hm2).
  pose proof (joinMVOrder_spec c1 m1 c2 m2 (map_to_list m1) (map_to_list m2) (map_to_list c2)
    (reflexivity _) (reflexivity _) (reflexivity _)) as Hj.
  fold (joinMVState c1 m1 c2 m2) in Hj. destruct (joinMVState c1 m1 c2 m2) as [[c m]|e].
  2: { destruct Hj as [[] _]. intros d v w [_ [[? Hv] _]]%Hm1 [_ [[? Hw] _]]%Hm2. congruence. }
  destruct Hj as (_ & Hm & Hc). exists c, m. split; [done|].
  assert (∀ k, lookupZ c k = lookupZ c1 k `max` lookupZ c2 k) as Hmax.
  { intros k. pose proof (lookupZ_ctx_ok c1 k Hc1). pose proof (lookupZ_ctx_ok c2 k Hc2).
    unfold lookupZ in *. rewrite Hc. destruct (c2 !! k) as [n|]; simpl in *; [|lia].
    destruct (Z.ltb_spec (default 0 (c1 !! k)) n); simpl; lia. }
  assert (∀ d, covered c d ↔ covered c1 d ∨ covered c2 d) as Hcov.
  { intros d. unfold covered. rewrite Hmax. lia. }
  split; [|done]. split; [|split].
  - intros k n. rewrite Hc. destruct (c2 !! k) as [n'|] eqn:E; [|by apply Hc1].
    case_match; [|by apply Hc1]. intros [= <-]. by apply Hc2.
  - intros d [Hd|Hd]%Hcov; [apply Hcl1 in Hd|apply Hcl2 in Hd]; destruct Hd as (v & c' & HL & Hle);
      exists v, c'; (split; [done|]); intros k; specialize (Hle k); rewrite Hmax; lia.
  - intros d v. rewrite Hm. by apply survives_visible.
Qed.

Section write.
Context (L : gmap mvDot (bytes * ctx)) (c : ctx) (id value : bytes).

(** The dot and the context of the next write at [id]. *)
Let n := lookupZ c id + 1.
Let dot := mkDot id n.
Let c' : ctx := <[id := n]> c.
Let L' : gmap mvDot (bytes * ctx) := <[dot := (value, c')]> L.

Hypothesis Hlog : log_ok L.
Hypothesis Hc : ctx_ok c.
Hypothesis Hcl : ∀ d, covered c d → ∃ v' c', L !! d = Some (v', c') ∧ ctx_le c' c.
Hypothesis Hid : Valid (mkTag id 0 0) = true.
Hypothesis Hmax : lookupZ c id ≠ maxUint64.

(** The writer knows its own writes. *)
Hypothesis Hown : ∀ d, is_Some (L !! d) → dot_replicaID d = id → covered c d.

Lemma write_fresh : L !! dot = None.
Proof.
  apply eq_None_not_Some. intros Hd%Hown; [|done]. unfold covered, dot, n in Hd. simpl in Hd. lia.
Qed.

Lemma write_ctx k : lookupZ c' k = if decide (id = k) then n else lookupZ c k.
Proof. apply lookupZ_insert. Qed.

Lemma write_ctx_le : ctx_le c c'.
Proof. intros k. rewrite write_ctx. case_decide; [subst; unfold n|]; lia. Qed.

Lemma write_covered d : covered c' d ↔ d = dot ∨ covered c d.
Proof.
  pose proof (lookupZ_ctx_ok c id Hc). unfold covered. rewrite write_ctx. destruct d as [k m]. simpl.
  case_decide as Hk; [subst k|]; split.
  - intros ?. destruct (decide (m = n)) as [->|]; [by left|]. right. lia.
  - intros [[= ->]|?]; unfold n in *; lia.
  - by right.
  - intros [[= ??]|?]; [congruence|done].
Qed.

Lemma uncovered_write d v c0 : L !! d = Some (v, c0) → ¬ covered c0 dot.
Proof.
  intros HL Hd. apply Hlog in HL as (_ & _ & _ & Hcl0). apply Hcl0 in Hd as (? & ? & HL & _).
  by rewrite write_fresh in HL.
Qed.

Lemma write_ctx_ok : ctx_ok c'.
Proof.
  pose proof (lookupZ_ctx_ok c id Hc). apply map_Forall_insert_2; [|done]. split; [done|].
  unfold n. lia.
Qed.

Lemma write_closed c0 d :
  (∀ d, covered c0 d → ∃ v' c', L !! d = Some (v', c') ∧ ctx_le c' c0) → covered c0 d →
  ∃ v' c', L' !! d = Some (v', c') ∧ ctx_le c' c0.
Proof.
  intros Hcl0 Hd. apply Hcl0 in Hd as (v0 & c1 & HL & Hle). exists v0, c1. split; [|done].
  unfold L'. rewrite lookup_insert_ne; [done|]. intros <-. by rewrite write_fresh in HL.
Qed.

Lemma write_log_ok : log_ok L'.
Proof.
  intros d v c0. unfold L'. rewrite lookup_insert. case_decide as Hd.
  - intros [= <- <-]. subst d. pose proof (lookupZ_ctx_ok c id Hc).
    split; [unfold n; simpl; lia|]. split; [apply write_ctx_ok|].
    split; [rewrite write_ctx; by rewrite decide_True|].
    intros d' [->|Hd']%write_covered.
    + exists value, c'. rewrite lookup_insert_eq. split; [done|]. split; [by intros k|done].
    + destruct (write_closed c d' Hcl Hd') as (v' & c1 & HL & Hle). exists v', c1.
      split; [done|]. split; [intros k; etrans; [apply Hle|apply write_ctx_le]|]. intros _ [_ Hn].
      specialize (Hle id). simpl in Hn. unfold n in Hn. lia.
  - intros HL. pose proof HL as (Hpos & Hok & Hct & Hcl0)%Hlog. do 3 (split; [done|]).
    intros d' Hd'. destruct (Hcl0 d' Hd') as (v' & c1 & HL' & ? & ?). exists v', c1.
    rewrite lookup_insert_ne; [done|]. intros <-. by rewrite write_fresh in HL'.
Qed.

(** The writer's new state. *)
Lemma write_represents : represents L' c' {[dot := value]}.
Proof.
  split; [apply write_ctx_ok|]. split.
  - intros d [->|Hd]%write_covered.
    + exists value, c'. unfold L'. rewrite lookup_insert_eq. split; [done|]. by intros k.
    + destruct (write_closed c d Hcl Hd) as (v' & c1 & HL & Hle). exists v', c1. split; [done|].
      intros k. etrans; [apply Hle|apply write_ctx_le].
  - intros d v. rewrite lookup_singleton_Some. split.
    + intros [<- <-]. split; [apply write_covered; by left|].
      split; [exists c'; unfold L'; by rewrite lookup_insert_eq|].
      intros d' v' c1. unfold L'. rewrite lookup_insert. case_decide; [done|]. intros HL _ _.
      by apply (uncovered_write d' v').
    + intros (Hd & [cd HL] & Hvis). apply write_covered in Hd as [->|Hd].
      * unfold L' in HL. rewrite lookup_insert_eq in HL. by injection HL as <- _.
      * destruct (decide (dot = d)) as [->|Hne].
        { unfold L' in HL. rewrite lookup_insert_eq in HL. by injection HL as <- _. }
        destruct (Hvis dot value c'); [unfold L'; by rewrite lookup_insert_eq|..|done|].
        -- apply write_covered. by left.
        -- apply write_covered. by right.
Qed.

(** The write is invisible to every other state. *)
Lemma represents_write c0 m : represents L c0 m → represents L' c0 m.
Proof.
  intros (Hc0 & Hcl0 & Hm). assert (¬ covered c0 dot) as Hn.
  { intros Hd. apply Hcl0 in Hd as (? & ? & HL & _). by rewrite write_fresh in HL. }
  assert (∀ d, covered c0 d → L' !! d = L !! d) as HL.
  { intros d Hd. unfold L'. rewrite lookup_insert_ne; [done|]. by intros ->. }
  split; [done|]. split; [intros d; by apply write_closed|]. intros d v. rewrite Hm. unfold mv_visible.
  split; intros (Hd & Hv & Hvis); (split; [done|]).
  - rewrite HL by done. split; [done|]. intros d' v' c1 HL' Hd'. apply (Hvis d' v'); [|done].
    by rewrite <-HL.
  - rewrite HL in Hv by done. split; [done|]. intros d' v' c1 HL' Hd'. apply (Hvis d' v'); [|done].
    by rewrite HL.
Qed.
End write.

(** ** The network *)

#[local] Arguments validateMVState : simpl never.

Inductive mv_msg := MVStateMsg (r : MVRegister) | MVDeltaMsg (d : MVRegisterDelta).

Definition mv_receive (r : ptr MVRegister) (m : mv_msg) : ptr MVRegister * result unit :=
  match m with
  | MVStateMsg o => MVRegister_Merge r (PObj o)
  | MVDeltaMsg d => MVRegister_ApplyDelta r d
  end.

(** The registers by replica, every message ever sent, and the writes. *)
Record mv_net := mkMVNet {
  mv_nodes : gmap bytes MVRegister;
  mv_pool : list mv_msg;
  mv_writes : gmap mvDot (bytes * ctx)
}.

Inductive mv_net_step (n : mv_net) : mv_net → Prop :=
| mv_write id r r' value delta :
    mv_nodes n !! id = Some r → MVRegister_Set (Some r) value = (Some r', Ok delta) →
    mv_net_step n (mkMVNet (<[id := r']> (mv_nodes n)) (MVDeltaMsg delta :: mv_pool n)
      (<[mkDot id (lookupZ (mv_ctx r') id) := (value, mv_ctx r')]> (mv_writes n)))
| mv_send id r :
    mv_nodes n !! id = Some r →
    mv_net_step n (mkMVNet (mv_nodes n) (MVStateMsg r :: mv_pool n) (mv_writes n))
| mv_deliver id r m r' res :
    mv_nodes n !! id = Some r → m ∈ mv_pool n → mv_receive (Some r) m = (Some r', res) →
    mv_net_step n (mkMVNet (<[id := r']> (mv_nodes n)) (mv_pool n) (mv_writes n)).

Definition mv_net_init (n : mv_net) : Prop :=
  map_Forall (λ id r, NewMVRegister id = Ok r) (mv_nodes n) ∧ mv_pool n = [] ∧ mv_writes n = ∅.

Inductive mv_reachable : mv_net → Prop :=
| mv_reach_init n : mv_net_init n → mv_reachable n
| mv_reach_step n n' : mv_reachable n → mv_net_step n n' → mv_reachable n'.

Definition node_ok (L : gmap mvDot (bytes * ctx)) (id : bytes) (r : MVRegister) : Prop :=
  mv_replicaID r = id ∧ Valid (mkTag id 0 0) = true ∧ represents L (mv_ctx r) (mv_vals r) ∧
  ∀ d, is_Some (L !! d) → dot_replicaID d = id → covered (mv_ctx r) d.

Definition msg_represents (L : gmap mvDot (bytes * ctx)) (m : mv_msg) : Prop :=
  match m with
  | MVStateMsg r => represents L (mv_ctx r) (mv_vals r)
  | MVDeltaMsg d => ∃ c v, md_context d = Some c ∧ md_values d = Some v ∧ represents L c v
  end.

Definition mv_inv (n : mv_net) : Prop :=
  log_ok (mv_writes n) ∧ map_Forall (node_ok (mv_writes n)) (mv_nodes n) ∧
  Forall (msg_represents (mv_writes n)) (mv_pool n).

(** Every message of the network is accepted; the receiver then knows what the
    message knows. *)
Lemma mv_receive_ok L id r m :
  node_ok L id r → msg_represents L m →
  ∃ r', mv_receive (Some r) m = (Some r', Ok tt) ∧ node_ok L id r' ∧
    ctx_le (mv_ctx r) (mv_ctx r') ∧
    ctx_le (match m with MVStateMsg o => mv_ctx o | MVDeltaMsg d => default ∅ (md_context d) end) (mv_ctx r').
Proof.
  intros (Hid & Hv & Hr & Hown) Hm.
  assert (∀ c v, represents L c v → ∃ r', MVRegister_join r c v = (Some r', Ok tt) ∧ node_ok L id r' ∧
    ctx_le (mv_ctx r) (mv_ctx r') ∧ ctx_le c (mv_ctx r')) as Hjoin.
  { intros c v Hcv. destruct (represents_join L _ _ _ _ Hr Hcv) as (c' & v' & Hj & Hr' & Hmax).
    exists (mkMVRegister (mv_replicaID r) c' v'). unfold MVRegister_join.
    rewrite (represents_valid L) by done. rewrite Hj. split; [done|].
    assert (ctx_le (mv_ctx r) c') by (intros k; rewrite Hmax; lia).
    split; [|split; [done|intros k; simpl; rewrite Hmax; lia]].
    split; [done|]. split; [done|]. split; [done|]. intros d Hd Hdi.
    eapply covered_ctx_le; [done|]. by apply Hown. }
  destruct m as [o|d]; simpl in *.
  - rewrite (represents_valid L) by done. by apply Hjoin.
  - destruct Hm as (c & v & Hc & Hvs & Hcv). rewrite Hc, Hvs. simpl. rewrite (represents_valid L) by done.
    unfold MVRegister_subsumes. destruct (existsb _ _) eqn:E.
    { apply existsb_exists in E as ([d' w] & Hin%list_elem_of_In%elem_of_map_to_list & Hconf).
      simpl in Hconf. destruct (mv_vals r !! d') as [w'|] eqn:E'; [|done].
      apply Hr in E' as (_ & [? HL1] & _). apply Hcv in Hin as (_ & [? HL2] & _).
      rewrite bool_decide_true in Hconf by congruence. done. }
    destruct (forallb _ _) eqn:Ef; [|by apply Hjoin]. exists r. split; [done|]. split; [done|].
    split; [by intros k|]. rewrite forallb_forall in Ef. intros k. unfold lookupZ at 1.
    destruct (c !! k) as [x|] eqn:Ek; simpl; [|apply lookupZ_ctx_ok, Hr].
    specialize (Ef (k, x)). simpl in Ef. rewrite negb_true_iff, Z.ltb_ge in Ef. apply Ef.
    by apply list_elem_of_In, elem_of_map_to_list.
Qed.

Lemma mv_inv_step n n' : mv_inv n → mv_net_step n n' → mv_inv n'.
Proof.
  intros (Hlog & Hnodes & Hpool) Hstep. destruct Hstep as [id r r' value delta Hr Hset|id r Hr|id r m r' res Hr Hm Hrec].
  - pose proof (Hnodes id r Hr) as (Hid & Hv & Hrep & Hown). pose proof Hrep as (Hc & Hcl & _).
    unfold MVRegister_Set in Hset. destruct (Z.eqb_spec (lookupZ (mv_ctx r) (mv_replicaID r)) maxUint64)
      as [|Hmax]; [done|]. injection Hset as <- <-. subst id.
    unfold mv_inv. cbn [mv_nodes mv_pool mv_writes mv_ctx]. rewrite lookupZ_insert, decide_True by done. split; [by apply write_log_ok|]. split.
    + intros id' r'. rewrite lookup_insert_Some. intros [[<- <-]|[Hne Hr']].
      * split; [done|]. split; [done|]. split; [by apply write_represents|]. simpl.
        intros d. rewrite lookup_insert_is_Some. intros [<-|[_ Hd]] Hdi;
          refine (proj2 (write_covered _ _ Hc Hmax _) _); [by left|]. right. by apply Hown.
      * destruct (Hnodes id' r' Hr') as (Hid' & Hv' & Hrep' & Hown'). split; [done|]. split; [done|].
        split; [by apply represents_write|]. intros d. rewrite lookup_insert_is_Some.
        intros [<-|[_ Hd]] Hdi; [done|]. by apply Hown'.
    + constructor; [eexists _, _; split; [done|]; split; [done|]; by apply write_represents|].
      eapply Forall_impl; [exact Hpool|]. intros [o|d]; simpl.
      * by apply represents_write.
      * intros (c & v & ? & ? & ?). exists c, v. do 2 (split; [done|]). by apply represents_write.
  - split; [done|]. split; [done|]. constructor; [|done]. by destruct (Hnodes id r Hr) as (_ & _ & ? & _).
  - rewrite Forall_forall in Hpool.
    destruct (mv_receive_ok _ id r m (Hnodes id r Hr) (Hpool m Hm)) as (r'' & Hrec' & Hok & _).
    rewrite Hrec in Hrec'. injection Hrec' as <- ->.
    split; [done|]. split; [by apply map_Forall_insert_2|by apply Forall_forall].
Qed.

Lemma mv_inv_reachable n : mv_reachable n → mv_inv n.
Proof.
  induction 1 as [n (Hn & Hp & Hw)|n n' _ IH Hs]; [|by eapply mv_inv_step].
  unfold mv_inv. rewrite Hp, Hw. split; [by intros d v c ?|]. split; [|constructor].
  intros id r Hr. apply Hn in Hr. unfold NewMVRegister in Hr.
  destruct (Valid _) eqn:Hv; [|done]. injection Hr as <-.
  assert (∀ d, ¬ covered ∅ d) as Hnone by (intros d; unfold covered, lookupZ; rewrite lookup_empty; simpl; lia).
  split; [done|]. split; [done|]. split; [|by intros d [? ?]].
  split; [done|]. split; [by intros d ?%Hnone|]. intros d v. split; [done|]. by intros [?%Hnone _].
Qed.

(** C6: what a multi-value register shows. In every network of registers, after
    any writes, state exchanges and deliveries, lost, repeated or out of order:
    a register's values are exactly the writes it knows that no other write it
    knows had observed; every message ever sent is accepted, never refused as a
    conflict, and only adds knowledge; registers that know the same writes show
    the same values. *)
Theorem MVRegister_shows_maximal (n : mv_net) (id : bytes) (r : MVRegister)
    (Hn : mv_reachable n) (Hr : mv_nodes n !! id = Some r) :
  (∀ d v, mv_vals r !! d = Some v ↔ mv_visible (mv_writes n) (mv_ctx r) d v) ∧
  (∀ m, m ∈ mv_pool n → ∃ r', mv_receive (Some r) m = (Some r', Ok tt) ∧ ctx_le (mv_ctx r) (mv_ctx r')) ∧
  (∀ id' r', mv_nodes n !! id' = Some r' → (∀ d, covered (mv_ctx r) d ↔ covered (mv_ctx r') d) →
     MVRegister_Values (Some r) = MVRegister_Values (Some r')).
Proof.
  apply mv_inv_reachable in Hn as (Hlog & Hnodes & Hpool). pose proof (Hnodes id r Hr) as Hok.
  pose proof Hok as (_ & _ & (_ & _ & Hm) & _). split; [done|]. split.
  - intros m Hin. rewrite Forall_forall in Hpool.
    destruct (mv_receive_ok _ id r m Hok (Hpool m Hin)) as (r' & ? & _ & ? & _). eauto.
  - intros id' r' Hr' Hcov. apply Hnodes in Hr' as (_ & _ & (_ & _ & Hm') & _). simpl. f_equal.
    apply map_eq. intros d. apply option_eq. intros v. rewrite Hm, Hm'. unfold mv_visible.
    by setoid_rewrite Hcov.
Qed.

(** Two concurrent writes, one of them delivered to the other writer. *)
Definition w_mv (id : string) (c : ctx) (v : gmap mvDot bytes) : MVRegister := mkMVRegister (str id) c v.
Definition w_dot (id : string) : mvDot := mkDot (str id) 1.
Definition w_ctx (id : string) : ctx := {[str id := 1]}.
Definition w_val (id : string) : gmap mvDot bytes := {[w_dot id := str id]}.
Definition w_mvdelta (id : string) : MVRegisterDelta := mkMVRegisterDelta (Some (w_ctx id)) (Some (w_val id)).
Definition w_both : MVRegister := w_mv "a" (<[str "b" := 1]> (w_ctx "a")) (<[w_dot "b" := str "b"]> (w_val "a")).
Definition w_net : mv_net := mkMVNet
  (<[str "a" := w_both]> (<[str "b" := w_mv "b" (w_ctx "b") (w_val "b")]>
    (<[str "a" := w_mv "a" (w_ctx "a") (w_val "a")]> {[str "a" := w_mv "a" ∅ ∅; str "b" := w_mv "b" ∅ ∅]})))
  [MVDeltaMsg (w_mvdelta "b"); MVDeltaMsg (w_mvdelta "a")]
  (<[w_dot "b" := (str "b", w_ctx "b")]> (<[w_dot "a" := (str "a", w_ctx "a")]> ∅)).

Lemma MVRegister_shows_maximal_witness :
  mv_visible (mv_writes w_net) (mv_ctx w_both) (w_dot "a") (str "a") ∧
  mv_visible (mv_writes w_net) (mv_ctx w_both) (w_dot "b") (str "b").
Proof.
  assert (mv_reachable w_net) as Hn.
  { eapply mv_reach_step; [|refine (mv_deliver (mkMVNet _ _ _) (str "a") (w_mv "a" (w_ctx "a") (w_val "a"))
      (MVDeltaMsg (w_mvdelta "b")) w_both (Ok tt) _ _ _); [vm_compute; reflexivity|by left|vm_compute; reflexivity]].
    eapply mv_reach_step; [|refine (mv_write (mkMVNet _ _ _) (str "b") (w_mv "b" ∅ ∅)
      (w_mv "b" (w_ctx "b") (w_val "b")) (str "b") (w_mvdelta "b") _ _); vm_compute; reflexivity].
    eapply mv_reach_step; [|refine (mv_write (mkMVNet _ _ _) (str "a") (w_mv "a" ∅ ∅)
      (w_mv "a" (w_ctx "a") (w_val "a")) (str "a") (w_mvdelta "a") _ _); vm_compute; reflexivity].
    apply mv_reach_init. split; [|done]. apply map_Forall_insert_2; [done|]. by apply map_Forall_singleton. }
  pose proof (proj1 (MVRegister_shows_maximal w_net (str "a") w_both Hn eq_refl)) as Hv.
  split; apply Hv; reflexivity.
Defined.
