(* ===== verification/MVRegisterCodec.v ===== *)
(** * Canonical frames of multi-value registers

    The encoder and decoder of MVRegister.v against the sorted entries of the two
    maps: the context in replica order, the values in dot order. *)

From S2P Require Import Prelude Tags Wire SortedCodec Frame MVRegister.

Definition mv_ctx_enc (e : bytes * Z) : bytes := bytes_enc e.1 ++ putUvarint e.2.
Definition mv_val_enc (e : mvDot * bytes) : bytes :=
  bytes_enc (dot_replicaID e.1) ++ putUvarint (dot_counter e.1) ++ bytes_enc e.2.

Definition ctx_entries (context : gmap bytes Z) : list (bytes * Z) :=
  sorted_entries bytes_compare context.
Definition val_entries (values : gmap mvDot bytes) : list (mvDot * bytes) :=
  sorted_entries compareMVDot values.

(** The canonical payload of a state. *)
Definition mv_payload (context : gmap bytes Z) (values : gmap mvDot bytes) : bytes :=
  putUvarint (len (ctx_entries context)) ++ concat (mv_ctx_enc <$> ctx_entries context) ++
  putUvarint (len (val_entries values)) ++ concat (mv_val_enc <$> val_entries values).

Section mv_decode.
Context (payload : bytes) (limits : DecoderLimits).

Definition ctx_entry_ok (e : bytes * Z) : Prop :=
  (Valid (mkTag e.1 0 0) = true ∧ e.2 ≠ 0) ∧ is_u64 e.2 ∧ len_ok e.1 ∧ len e.1 <= MaxStringBytes limits.

Definition val_entry_ok (context : gmap bytes Z) (e : mvDot * bytes) : Prop :=
  (validMVDot e.1 = true ∧ mvContextCovers context e.1 = true) ∧ is_u64 (dot_counter e.1) ∧
  (len_ok (dot_replicaID e.1) ∧ len (dot_replicaID e.1) <= MaxStringBytes limits) ∧
  len_ok e.2 ∧ len e.2 <= MaxStringBytes limits.

Lemma string_le_guard i new prev :
  (0 <? i) && string_le new prev = (0 <? i) && (0 <=? bytes_compare prev new).
Proof.
  unfold string_le. rewrite (cmp_anti bytes_compare prev new).
  f_equal. destruct (Z.leb_spec (- bytes_compare prev new) 0), (Z.leb_spec 0 (bytes_compare prev new)); lia.
Qed.

Lemma mvContextStep_iff i m prev pos r :
  0 <= pos <= len payload →
  mvContextStep payload (MaxStringBytes limits) i (m, prev) pos = Ok r ↔
  ∃ e rest, ctx_entry_ok e ∧ ((0 <? i) && (0 <=? bytes_compare prev e.1) = false) ∧
    r = ((<[e.1 := e.2]> m, e.1), pos + len (mv_ctx_enc e)) ∧ remaining payload pos (mv_ctx_enc e ++ rest).
Proof.
  intros Hp. unfold mvContextStep, mv_ctx_enc. split.
  - destruct (ReadBytes _ _ _) as [[k next]|] eqn:R; [|done].
    apply ReadBytes_inv in R as (Hok & Hmax & -> & r1 & Hr1 & _).
    destruct (ReadUvarint _ _) as [[v next]|] eqn:R; [|done].
    apply ReadUvarint_inv in R as (Hu & -> & r2 & Hr2 & _). rewrite string_le_guard.
    destruct (_ || _) eqn:G; [done|]. apply orb_false_iff in G as [G Ho]. breflect. intros [= <-].
    exists (k, v), r2. cbn [fst snd]. rewrite len_app, <-app_assoc. split; [done|]. split; [done|].
    split; [f_equal; unfold UvarintSize; lia|]. eapply remaining_cons; [exact Hr1|done].
  - intros ([k v] & rest & ((Hv & Hz) & Hu & Hok & Hmax) & Ho & -> & Hr). cbn [fst snd] in *.
    rewrite <-app_assoc in Hr. apply (ReadBytes_ok _ _ (MaxStringBytes limits)) in Hr as [-> Hr]; [|done..].
    apply ReadUvarint_ok in Hr as [-> Hr]; [|done]. rewrite string_le_guard, Ho, Hv. simpl.
    rewrite (proj2 (Z.eqb_neq v 0) Hz). rewrite len_app. unfold UvarintSize. by rewrite Z.add_assoc.
Qed.

Lemma mvValueStep_iff context i m prev pos r :
  0 <= pos <= len payload →
  mvValueStep payload (MaxStringBytes limits) context i (m, prev) pos = Ok r ↔
  ∃ e rest, val_entry_ok context e ∧ ((0 <? i) && (0 <=? compareMVDot prev e.1) = false) ∧
    r = ((<[e.1 := e.2]> m, e.1), pos + len (mv_val_enc e)) ∧ remaining payload pos (mv_val_enc e ++ rest).
Proof.
  intros Hp. unfold mvValueStep, mv_val_enc. split.
  - destruct (ReadBytes _ _ _) as [[k next]|] eqn:R; [|done].
    apply ReadBytes_inv in R as (Hok & Hmax & -> & r1 & Hr1 & _).
    destruct (ReadUvarint _ _) as [[n next]|] eqn:R; [|done].
    apply ReadUvarint_inv in R as (Hu & -> & r2 & Hr2 & _).
    destruct (ReadBytes _ _ _) as [[v next]|] eqn:R; [|done].
    apply ReadBytes_inv in R as (Hok' & Hmax' & -> & r3 & Hr3 & _).
    destruct (_ || _) eqn:G; [done|]. apply orb_false_iff in G as [G Ho]. breflect. intros [= <-].
    exists (mkDot k n, v), r3. cbn [fst snd dot_replicaID dot_counter]. rewrite !len_app, <-!app_assoc.
    split; [done|]. split; [done|]. split; [f_equal; unfold UvarintSize; lia|].
    eapply remaining_cons; [exact Hr1|]. eapply remaining_cons; [exact Hr2|done].
  - intros ([[k n] v] & rest & ((Hv & Hz) & Hu & (Hok & Hmax) & Hok' & Hmax') & Ho & -> & Hr).
    cbn [fst snd dot_replicaID dot_counter] in *. rewrite <-!app_assoc in Hr.
    apply (ReadBytes_ok _ _ (MaxStringBytes limits)) in Hr as [-> Hr]; [|done..].
    apply ReadUvarint_ok in Hr as [-> Hr]; [|done].
    apply (ReadBytes_ok _ _ (MaxStringBytes limits)) in Hr as [-> Hr]; [|done..].
    rewrite Ho, Hv, Hz. simpl. rewrite !len_app. unfold UvarintSize. by rewrite !Z.add_assoc.
Qed.
End mv_decode.

Lemma mv_ctx_enc_pos e : 1 <= len (mv_ctx_enc e).
Proof. unfold mv_ctx_enc. rewrite len_app. pose proof (putUvarint_pos e.2). pose proof (len_nonneg (bytes_enc e.1)). lia. Qed.

Lemma mv_val_enc_pos e : 1 <= len (mv_val_enc e).
Proof.
  unfold mv_val_enc. rewrite !len_app. pose proof (putUvarint_pos (dot_counter e.1)).
  pose proof (len_nonneg (bytes_enc (dot_replicaID e.1))). pose proof (len_nonneg (bytes_enc e.2)). lia.
Qed.

(** A state the decoder accepts. *)
Definition mv_valid (limits : DecoderLimits) (context : gmap bytes Z) (values : gmap mvDot bytes) : Prop :=
  map_Forall (λ k v, ctx_entry_ok limits (k, v)) context ∧
  map_Forall (λ d v, val_entry_ok limits context (d, v)) values ∧
  Z.of_nat (size context) + Z.of_nat (size values) <= MaxElements limits.

Lemma decodeMVRegister_iff payload limits context values :
  limits_int limits →
  decodeMVRegister payload limits = Ok (context, values) ↔
  payload = mv_payload context values ∧ mv_valid limits context values.
Proof.
  intros Hint. unfold decodeMVRegister, limits_int in *.
  split.
  - destruct (ReadUvarint _ 0) as [[count pos]|] eqn:R; [|done].
    apply ReadUvarint_inv in R as (Hu & -> & r1 & Hr1 & Hr1'). guard_step. breflect.
    destruct (read_loop _ _ _ _ _ _) as [[[c prev] p]|] eqn:L; [|done].
    apply (map_loop_iff bytes_compare payload _ mv_ctx_enc (ctx_entry_ok limits) [] mv_ctx_enc_pos
      (mvContextStep_iff payload limits)) in L as (r2 & Hc & <- & -> & -> & Hr2); [|apply Hu|apply Hr1'].
    destruct (ReadUvarint _ _) as [[count p]|] eqn:R; [|done].
    apply ReadUvarint_inv in R as (Hu' & -> & r3 & Hr3 & Hr3'). guard_step. breflect.
    destruct (read_loop _ _ _ _ _ _) as [[[v prev'] p]|] eqn:L; [|done].
    apply (map_loop_iff compareMVDot payload _ mv_val_enc (val_entry_ok limits c) zeroDot mv_val_enc_pos
      (mvValueStep_iff payload limits c)) in L as (r4 & Hv & <- & -> & -> & Hr4); [|apply Hu'|apply Hr3'].
    guard_step. breflect. intros [= <- <-]. split; [|split; [done|]; split; [done|lia]].
    pose proof (remaining_app _ _ _ _ Hr4) as Hend. assert (r4 = []) as ->.
    { apply (remaining_unique payload (len payload)); [congruence|by apply remaining_nil]. }
    rewrite app_nil_r in Hr4. apply (remaining_unique payload 0); [apply remaining_start|].
    unfold mv_payload, ctx_entries, val_entries. rewrite !len_sorted_entries.
    eapply remaining_cons; [exact Hr1|]. eapply remaining_cons; [exact Hr2|].
    eapply remaining_cons; [exact Hr3|done].
  - intros (Hpay & Hc & Hv & Hn). pose proof (remaining_start payload) as Hr. rewrite Hpay in Hr at 2.
    unfold mv_payload, ctx_entries, val_entries in Hr. rewrite !len_sorted_entries in Hr.
    apply ReadUvarint_ok in Hr as [-> Hr]; [|unfold is_u64, maxInt in *; lia]. guard_false.
    pose proof (remaining_app _ _ _ _ Hr) as Hr'.
    erewrite (map_loop_ok bytes_compare payload _ mv_ctx_enc (ctx_entry_ok limits) [] mv_ctx_enc_pos
      (mvContextStep_iff payload limits)) by done.
    apply ReadUvarint_ok in Hr' as [-> Hr']; [|unfold is_u64, maxInt in *; lia]. guard_false.
    rewrite <-(app_nil_r (concat (mv_val_enc <$> _))) in Hr'.
    pose proof (remaining_app _ _ _ _ Hr') as Hend%remaining_nil.
    erewrite (map_loop_ok compareMVDot payload _ mv_val_enc (val_entry_ok limits context) zeroDot
      mv_val_enc_pos (mvValueStep_iff payload limits context)) by done.
    by guard_false.
Qed.

(** ** The encoder *)

Lemma appendMVContext_fold context payload l :
  Forall (λ e : bytes * Z, lookupZ context e.1 = e.2) l →
  foldl (appendMVContext context) payload l.*1 = payload ++ concat (mv_ctx_enc <$> l).
Proof.
  intros Hl. revert payload. induction Hl as [|e l He Hl IH]; intros payload; simpl; [by rewrite app_nil_r|].
  rewrite IH. unfold appendMVContext, appendMVBytes, AppendUvarint, mv_ctx_enc, bytes_enc.
  by rewrite He, <-!app_assoc.
Qed.

Lemma appendMVValue_fold values payload l :
  Forall (λ e : mvDot * bytes, values !! e.1 = Some e.2) l →
  foldl (appendMVValue values) payload l.*1 = payload ++ concat (mv_val_enc <$> l).
Proof.
  intros Hl. revert payload. induction Hl as [|e l He Hl IH]; intros payload; simpl; [by rewrite app_nil_r|].
  rewrite IH. unfold appendMVValue, appendMVBytes, AppendUvarint, mv_val_enc, bytes_enc.
  rewrite He. simpl. by rewrite <-!app_assoc.
Qed.

Lemma mvContextSize_iff context limits l size n :
  Forall (λ e : bytes * Z, lookupZ context e.1 = e.2) l → size <= MaxPayload limits →
  mvContextSize l.*1 context limits size = Ok n ↔
  n = size + len (concat (mv_ctx_enc <$> l)) ∧ n <= MaxPayload limits ∧
  Forall (λ e, len e.1 <= MaxStringBytes limits) l.
Proof.
  intros Hl. revert size. induction Hl as [|e l He Hl IH]; intros size Hs;
    rewrite ?fmap_cons, ?fmap_nil; cbn [mvContextSize concat].
  - rewrite len_nil, Z.add_0_r. split; [intros [= ->]; by repeat split|by intros [-> _]].
  - rewrite len_app, Forall_cons, He. unfold mv_ctx_enc at 1. rewrite len_app, len_bytes_enc.
    pose proof (len_nonneg (concat (mv_ctx_enc <$> l))). unfold UvarintSize. split.
    + guards. rewrite IH by lia. intros (-> & ? & ?). split; [lia|]. split; [lia|done].
    + intros (-> & Hn & Hk & Hks). do 2 guard_false. apply IH; [lia|]. split; [lia|]. split; [lia|done].
Qed.

Lemma mvDotsSize_iff values limits l size n :
  Forall (λ e : mvDot * bytes, values !! e.1 = Some e.2) l → size <= MaxPayload limits →
  mvDotsSize l.*1 values limits size = Ok n ↔
  n = size + len (concat (mv_val_enc <$> l)) ∧ n <= MaxPayload limits ∧
  Forall (λ e, len (dot_replicaID e.1) <= MaxStringBytes limits ∧ len e.2 <= MaxStringBytes limits) l.
Proof.
  intros Hl. revert size. induction Hl as [|e l He Hl IH]; intros size Hs;
    rewrite ?fmap_cons, ?fmap_nil; cbn [mvDotsSize concat].
  - rewrite len_nil, Z.add_0_r. split; [intros [= ->]; by repeat split|by intros [-> _]].
  - rewrite len_app, Forall_cons, He. change (default [] (Some e.2)) with e.2. unfold mv_val_enc at 1. rewrite !len_app, !len_bytes_enc.
    pose proof (len_nonneg (concat (mv_val_enc <$> l))). unfold UvarintSize. split.
    + guards. rewrite IH by lia. intros (-> & ? & ?). split; [lia|]. split; [lia|done].
    + intros (-> & Hn & [Hk Hk'] & Hks). do 2 guard_false. apply IH; [lia|]. split; [lia|]. split; [lia|done].
Qed.

Lemma len_mv_payload c v :
  len (mv_payload c v) =
  UvarintSize (len (ctx_entries c)) + len (concat (mv_ctx_enc <$> ctx_entries c)) +
  UvarintSize (len (val_entries v)) + len (concat (mv_val_enc <$> val_entries v)).
Proof. unfold mv_payload, UvarintSize. rewrite !len_app. lia. Qed.

Lemma marshalMVRegister_iff typeID c v data :
  marshalMVRegister typeID (Some c) (Some v) DefaultLimits = Ok data ↔
  validateMVState (Some c) (Some v) = Ok tt ∧
  Z.of_nat (size c) + Z.of_nat (size v) <= MaxElements DefaultLimits ∧
  map_Forall (λ k _, len k <= MaxStringBytes DefaultLimits) c ∧
  map_Forall (λ d x, len (dot_replicaID d) <= MaxStringBytes DefaultLimits ∧
    len x <= MaxStringBytes DefaultLimits) v ∧
  MarshalFrame (mkFrame typeID [] (mv_payload c v) 0 false) = Ok data.
Proof.
  unfold marshalMVRegister. destruct (validateMVState (Some c) (Some v)) as [[]|]; [|naive_solver].
  cbv zeta. change (default ∅ (Some c)) with c. change (default ∅ (Some v)) with v.
  unfold sortedMVDots. rewrite <-(sorted_entries_keys bytes_compare c), <-(sorted_entries_keys compareMVDot v).
  fold (ctx_entries c) (val_entries v).
  assert (Forall (λ e : bytes * Z, lookupZ c e.1 = e.2) (ctx_entries c)) as Hc.
  { apply Forall_forall. intros [k x] Hx%elem_of_sorted_entries. unfold lookupZ. simpl. by rewrite Hx. }
  assert (Forall (λ e : mvDot * bytes, v !! e.1 = Some e.2) (val_entries v)) as Hv.
  { apply Forall_forall. by intros [k x] Hx%elem_of_sorted_entries. }
  assert (∀ n, n = len (mv_payload c v) → MarshalFrameWithPayload typeID [] n
    (exactWriter (foldl (appendMVValue v) (AppendUvarint (foldl (appendMVContext c)
      (AppendUvarint [] (len (ctx_entries c).*1)) (ctx_entries c).*1) (len (val_entries v).*1))
      (val_entries v).*1) n) = MarshalFrame (mkFrame typeID [] (mv_payload c v) 0 false)) as Hw.
  { intros n ->. rewrite appendMVContext_fold, appendMVValue_fold, !len_fmap by done.
    unfold AppendUvarint. cbn [app]. rewrite <-!app_assoc. apply exactWriter_copy. }
  pose proof (len_mv_payload c v) as Hlen. rewrite !len_fmap in *.
  pose proof (len_sorted_entries bytes_compare c) as Hlc. pose proof (len_sorted_entries compareMVDot v) as Hlv.
  fold (ctx_entries c) in Hlc. fold (val_entries v) in Hlv.
  pose proof (putUvarint_pos (len (val_entries v))). pose proof (len_nonneg (concat (mv_val_enc <$> val_entries v))).
  pose proof (len_nonneg (concat (mv_ctx_enc <$> ctx_entries c))).
  split.
  - guards. assert (UvarintSize (len (ctx_entries c)) <= MaxPayload DefaultLimits) as Hs.
    { transitivity 10; [|done]. apply UvarintSize_bounds. unfold is_u64. change (MaxElements DefaultLimits) with 1048576 in *. lia. }
    destruct (mvContextSize _ _ _ _) as [n|] eqn:E; [|done].
    apply mvContextSize_iff in E as (-> & Hn & Hk); [|done..]. guards.
    destruct (mvDotsSize _ _ _ _) as [n|] eqn:E; [|done].
    apply mvDotsSize_iff in E as (-> & Hn' & Hk'); [|done|lia]. rewrite Hw by lia. intros Hm.
    split; [done|]. split; [lia|]. apply Forall_sorted_entries in Hk, Hk'. done.
  - intros (_ & Hsize & Hk & Hk' & Hm). pose proof (MarshalFrame_payload _ _ Hm) as Hp. cbn [Payload] in Hp.
    guard_false. rewrite <-(Forall_sorted_entries bytes_compare (λ e, len e.1 <= _)) in Hk.
    rewrite <-(Forall_sorted_entries compareMVDot (λ e, len (dot_replicaID e.1) <= _ ∧ len e.2 <= _)) in Hk'.
    set (n0 := UvarintSize (len (ctx_entries c))) in *. set (n1 := len (concat (mv_ctx_enc <$> ctx_entries c))) in *.
    set (n2 := UvarintSize (len (val_entries v))) in *.
    assert (0 <= n2) by (change (0 <= len (putUvarint (len (val_entries v)))); lia).
    assert (n0 <= MaxPayload DefaultLimits ∧ n0 + n1 + n2 <= MaxPayload DefaultLimits) as [Hn0 Hn2] by lia.
    rewrite (proj2 (mvContextSize_iff c DefaultLimits (ctx_entries c) n0 (n0 + n1) Hc Hn0))
      by (split; [done|]; split; [lia|done]).
    guard_false.
    rewrite (proj2 (mvDotsSize_iff v DefaultLimits (val_entries v) (n0 + n1 + n2) (len (mv_payload c v)) Hv Hn2))
      by (split; [lia|]; split; [lia|done]).
    by rewrite Hw.
Qed.

(** ** Canonical bytes *)

(** The counters of a state are 64-bit. *)
Definition mv_widths (c : gmap bytes Z) (v : gmap mvDot bytes) : Prop :=
  map_Forall (λ _ n, is_u64 n) c ∧ map_Forall (λ d _, is_u64 (dot_counter d)) v.

Lemma validateMVState_Ok c v :
  validateMVState (Some c) (Some v) = Ok tt ↔
  map_Forall (λ k n, Valid (mkTag k 0 0) = true ∧ n ≠ 0) c ∧
  map_Forall (λ d _, validMVDot d = true ∧ mvContextCovers c d = true) v.
Proof.
  rewrite !map_Forall_to_list. unfold validateMVState.
  assert (∀ (A : Type) (f : A → bool) l, forallb f l = true ↔ Forall (λ x, f x = true) l) as Hf.
  { intros A f l. rewrite forallb_forall, Forall_forall. by setoid_rewrite list_elem_of_In. }
  split.
  - guards. intros _. rewrite Hf in *. split; (eapply Forall_impl; [eassumption|]); intros [k x] Hx;
      simpl in *; breflect; done.
  - intros [Hc Hv]. rewrite !(proj2 (Hf _ _ _)); [done|..].
    + eapply Forall_impl; [exact Hv|]. intros [d x] [Hd Hd']. simpl in *. by rewrite Hd, Hd'.
    + eapply Forall_impl; [exact Hc|]. intros [k n] [Hk Hn]. simpl in *. rewrite Hk. simpl.
      by apply negb_true_iff, Z.eqb_neq.
Qed.

(** The MV-Register's canonical bytes. A v1 state frame decodes to a context
    and values exactly when they encode to that frame: encoding loses nothing,
    and every state has one encoding. *)
Theorem MVRegister_codec `{F : Flate} (r s : MVRegister) (data : bytes) :
  (mv_widths (mv_ctx r) (mv_vals r) ∧ MVRegister_MarshalBinary (Some r) = Ok data) ↔
  (MVRegister_UnmarshalBinary (Some s) data =
     (Some (mkMVRegister (mv_replicaID s) (mv_ctx r) (mv_vals r)), Ok tt) ∧
   PeekFrameFormatVersion data DefaultLimits = Ok FormatVersion).
Proof.
  set (c := mv_ctx r). set (v := mv_vals r).
  assert (MVRegister_UnmarshalBinary (Some s) data = (Some (mkMVRegister (mv_replicaID s) c v), Ok tt) ↔
    ∃ f, UnmarshalFrame data DefaultLimits = Ok f ∧ TypeID f = TypeIDMVRegisterState ∧ CodecID f = [] ∧
      decodeMVRegister (Payload f) DefaultLimits = Ok (c, v)) as ->.
  { unfold MVRegister_UnmarshalBinary, MVRegister_UnmarshalBinaryWithLimits, unmarshalMVRegister.
    destruct (UnmarshalFrame data DefaultLimits) as [f|]; [|naive_solver]. split.
    - guards. destruct (decodeMVRegister _ _) as [[c' v']|] eqn:E; [|done]. intros [= -> ->]. eauto.
    - intros (f' & [= <-] & HT & HC & Hd). guard_false. by rewrite Hd. }
  rewrite (decoded_v1_iff _ _ _ (λ p, decodeMVRegister p _ = Ok (c, v))) by done.
  setoid_rewrite (decodeMVRegister_iff _ DefaultLimits); [|done]. simpl. fold c v.
  rewrite marshalMVRegister_iff, validateMVState_Ok. split.
  - intros ([Hwc Hwv] & [Hc Hv] & Hn & Hkc & Hkv & Hm). exists (mv_payload c v). split; [|done].
    split; [done|]. split; [|split; [|done]].
    + intros k n Hk. split; [by apply Hc|]. split; [by apply (Hwc k)|].
      specialize (Hkc k n Hk). split; [by apply (limits_string_ok _ DefaultLimits)|done].
    + intros d x Hd. split; [by apply (Hv d x)|]. split; [by apply (Hwv d x)|].
      destruct (Hkv d x Hd). split; (split; [by apply (limits_string_ok _ DefaultLimits)|done]).
  - intros (p & (-> & Hc & Hv & Hn) & Hm). split.
    + split; [intros k n Hk; apply (Hc k n Hk)|intros d x Hd; apply (Hv d x Hd)].
    + split; [split; [intros k n Hk; apply (Hc k n Hk)|intros d x Hd; apply (Hv d x Hd)]|].
      split; [done|]. split; [intros k n Hk; apply (Hc k n Hk)|]. split; [|done].
      intros d x Hd. by destruct (Hv d x Hd) as (_ & _ & [_ ?] & _ & ?).
Qed.
