(* ===== verification/TombstoneGC.v ===== *)
(** * Tombstone collection

    src/tombstonegc: the coordinator that collects exact acknowledgements of
    tombstones from the members of a replication group, and the bounded local
    collector. What they collect from is the class [TombstoneTarget], the Go
    interface of the same name with its optional [CompactEligibleTombstones]. *)

From S2P Require Import Prelude Tags.

(** ** Targets *)

(** The methods of a target. [tt_CompactEligibleTombstones] is [None] for a type
    that does not have the optional method. *)
Class TombstoneTarget (T : Type) := {
  tt_TombstoneTags : T → list Tag;
  tt_CompactTombstones : T → list Tag → T * result Z;
  tt_CompactEligibleTombstones : option (T → list Tag → T * result Z);
}.

(** The type switch that ends [AcknowledgeAndCompactTarget] and [Collect]. *)
Definition compact_target `{TombstoneTarget T} (target : T) (tags : list Tag) : T * result Z :=
  match tt_CompactEligibleTombstones with
  | Some compactEligible => compactEligible target tags
  | None => tt_CompactTombstones target tags
  end.

(** ** The coordinator *)

Record Membership := mkMembership { mb_GroupID : bytes; mb_Epoch : Z; mb_Members : list bytes }.
Definition zeroMembership : Membership := mkMembership [] 0 [].

Record AcknowledgementStats := mkAckStats {
  as_GroupID : bytes; as_Epoch : Z; as_Members : Z; as_Tags : Z; as_Entries : Z }.

Record Coordinator := mkCoordinator {
  co_groupID : bytes;
  co_epoch : Z;
  co_members : gset bytes;
  co_acknowledgements : gmap bytes (gset Tag);
  co_acknowledgementCounts : gmap Tag Z;
  co_acknowledgementEntries : Z;
}.

(** The acknowledgement table of a new membership. *)
Definition co_clear (groupID : bytes) (epoch : Z) (members : gset bytes) : Coordinator :=
  mkCoordinator groupID epoch members ∅ ∅ 0.

(** [validateTombstones] *)
Definition validateTombstones (tombstones : list Tag) : result unit :=
  if forallb Valid tombstones then Ok tt else Err (ErrGC InvalidTag).

(** [validateMembers] *)
Fixpoint members_loop (memberSet : gset bytes) (members : list bytes) : result (gset bytes) :=
  match members with
  | [] => Ok memberSet
  | member :: members' =>
      if blank member then Err (ErrGC InvalidMembership)
      else if bool_decide (member ∈ memberSet) then Err (ErrGC InvalidMembership)
      else members_loop ({[member]} ∪ memberSet) members'
  end.
Definition validateMembers (members : list bytes) : result (gset bytes) :=
  match members with [] => Err (ErrGC InvalidMembership) | _ => members_loop ∅ members end.

(** [sortedMembers] *)
Definition sortedMembers (memberSet : gset bytes) : list bytes := sort_by bytes_compare (elements memberSet).

(** [NewCoordinator] *)
Definition NewCoordinator (groupID : bytes) (members : list bytes) : result Coordinator :=
  if blank groupID then Err (ErrGC InvalidGroup)
  else memberSet ← validateMembers members; Ok (co_clear groupID 1 memberSet).

(** [NewCoordinatorAtMembership] *)
Definition NewCoordinatorAtMembership (membership : Membership) : result Coordinator :=
  if mb_Epoch membership =? 0 then Err (ErrGC InvalidMembership)
  else if bool_decide (mb_GroupID membership = []) then Err (ErrGC InvalidGroup)
  else members ← validateMembers (mb_Members membership);
    Ok (co_clear (mb_GroupID membership) (mb_Epoch membership) members).

(** [Coordinator.Membership] *)
Definition Coordinator_Membership (c : ptr Coordinator) : Membership :=
  match c with
  | None => zeroMembership
  | Some c => mkMembership (co_groupID c) (co_epoch c) (sortedMembers (co_members c))
  end.

(** [Coordinator.AcknowledgementStats] *)
Definition Coordinator_AcknowledgementStats (c : ptr Coordinator) : AcknowledgementStats :=
  match c with
  | None => mkAckStats [] 0 0 0 0
  | Some c => mkAckStats (co_groupID c) (co_epoch c) (Z.of_nat (size (co_members c)))
      (Z.of_nat (size (co_acknowledgementCounts c))) (co_acknowledgementEntries c)
  end.

(** [Coordinator.ReplaceMembership] *)
Definition ReplaceMembership (c : ptr Coordinator) (members : list bytes) : ptr Coordinator * result Membership :=
  match c with
  | None => (None, Err (ErrGC InvalidMembership))
  | Some co =>
      match validateMembers members with
      | Err e => (c, Err e)
      | Ok memberSet =>
          if co_epoch co =? maxUint64 then (c, Err (ErrGC InvalidMembership))
          else
            let co := co_clear (co_groupID co) (co_epoch co + 1) memberSet in
            (Some co, Ok (mkMembership (co_groupID co) (co_epoch co) (sortedMembers memberSet)))
      end
  end.

(** [sameMembers] *)
Definition sameMembers (left right : gset bytes) : bool :=
  bool_decide (size left = size right) && forallb (λ member, bool_decide (member ∈ right)) (elements left).

(** [Coordinator.InstallMembership] *)
Definition InstallMembership (c : ptr Coordinator) (membership : Membership) : ptr Coordinator * result unit :=
  match c with
  | None => (None, Err (ErrGC InvalidMembership))
  | Some co =>
      if mb_Epoch membership =? 0 then (c, Err (ErrGC InvalidMembership))
      else match validateMembers (mb_Members membership) with
      | Err e => (c, Err e)
      | Ok members =>
          if negb (bool_decide (mb_GroupID membership = co_groupID co))
          then (c, Err (ErrGC MembershipGroupMismatch))
          else if mb_Epoch membership <? co_epoch co then (c, Err (ErrGC MembershipRollback))
          else if mb_Epoch membership =? co_epoch co
          then (c, if sameMembers (co_members co) members then Ok tt else Err (ErrGC MembershipRollback))
          else (Some (co_clear (co_groupID co) (mb_Epoch membership) members), Ok tt)
      end
  end.

(** The loop of [acknowledgeLocked]. *)
Definition ack_tag (member : bytes) (c : Coordinator) (tag : Tag) : Coordinator :=
  let acknowledged := default ∅ (co_acknowledgements c !! member) in
  if bool_decide (tag ∈ acknowledged) then c
  else mkCoordinator (co_groupID c) (co_epoch c) (co_members c)
    (<[member := {[tag]} ∪ acknowledged]> (co_acknowledgements c))
    (<[tag := default 0 (co_acknowledgementCounts c !! tag) + 1]> (co_acknowledgementCounts c))
    (co_acknowledgementEntries c + 1).

(** A member's table is made before its first tag is recorded. *)
Definition ack_table (member : bytes) (c : Coordinator) : Coordinator :=
  match co_acknowledgements c !! member with
  | Some _ => c
  | None => mkCoordinator (co_groupID c) (co_epoch c) (co_members c) (<[member := ∅]> (co_acknowledgements c))
      (co_acknowledgementCounts c) (co_acknowledgementEntries c)
  end.

(** [Coordinator.acknowledgeLocked] *)
Definition acknowledgeLocked (c : Coordinator) (groupID member : bytes) (epoch : Z) (tombstones : list Tag)
    : Coordinator * result unit :=
  if negb (bool_decide (groupID = co_groupID c)) then (c, Err (ErrGC GroupMismatch))
  else if negb (epoch =? co_epoch c) then (c, Err (ErrGC StaleMembership))
  else if bool_decide (member ∉ co_members c) then (c, Err (ErrGC UnknownMember))
  else (foldl (ack_tag member) (ack_table member c) tombstones, Ok tt).

(** [Coordinator.Acknowledge] *)
Definition Coordinator_Acknowledge (c : ptr Coordinator) (groupID member : bytes) (epoch : Z) (tombstones : list Tag)
    : ptr Coordinator * result unit :=
  match c with
  | None => (None, Err (ErrGC InvalidMembership))
  | Some co =>
      match validateTombstones tombstones with
      | Err e => (c, Err e)
      | Ok _ => let '(co, res) := acknowledgeLocked co groupID member epoch tombstones in (Some co, res)
      end
  end.

(** [Coordinator.prunesAllAcknowledgementTagsLocked] *)
Definition prunesAllAcknowledgementTagsLocked (c : Coordinator) (tags : list Tag) : bool :=
  let counts := co_acknowledgementCounts c in
  if len tags <? Z.of_nat (size counts) then false
  else if forallb (λ tag, bool_decide (is_Some (counts !! tag))) tags
  then bool_decide (size (list_to_set tags : gset Tag) = size counts)
  else false.

(** The loop of [PruneAcknowledgements]. *)
Definition prune_tag (acc : gmap bytes (gset Tag) * gmap Tag Z * Z) (tag : Tag)
    : gmap bytes (gset Tag) * gmap Tag Z * Z :=
  let '(acknowledgements, counts, removed) := acc in
  ((λ acknowledged, acknowledged ∖ {[tag]}) <$> acknowledgements, delete tag counts,
   removed + Z.of_nat (size (filter (λ e : bytes * gset Tag, tag ∈ e.2) acknowledgements))).

(** [Coordinator.PruneAcknowledgements] *)
Definition PruneAcknowledgements (c : ptr Coordinator) (groupID : bytes) (epoch : Z) (tags : list Tag)
    : ptr Coordinator * result Z :=
  match c with
  | None => (None, Err (ErrGC InvalidMembership))
  | Some co =>
      match validateTombstones tags with
      | Err e => (c, Err e)
      | Ok _ =>
          if negb (bool_decide (groupID = co_groupID co)) then (c, Err (ErrGC GroupMismatch))
          else if negb (epoch =? co_epoch co) then (c, Err (ErrGC StaleMembership))
          else if prunesAllAcknowledgementTagsLocked co tags
          then (Some (co_clear (co_groupID co) (co_epoch co) (co_members co)), Ok (co_acknowledgementEntries co))
          else
            let '(acknowledgements, counts, removed) :=
              foldl prune_tag (co_acknowledgements co, co_acknowledgementCounts co, 0) tags in
            (Some (mkCoordinator (co_groupID co) (co_epoch co) (co_members co) acknowledgements counts
               (co_acknowledgementEntries co - removed)), Ok removed)
      end
  end.

(** [Coordinator.stableTombstonesLocked] *)
Definition stableTombstonesLocked (c : Coordinator) (candidates : list Tag) : list Tag :=
  filter (λ tag, default 0 (co_acknowledgementCounts c !! tag) = Z.of_nat (size (co_members c))) candidates.

(** [Coordinator.AcknowledgeAndCompactTarget]; a [None] target is a nil interface. *)
Definition AcknowledgeAndCompactTarget `{TombstoneTarget T} (c : ptr Coordinator) (groupID member : bytes) (epoch : Z)
    (tombstones : list Tag) (target : option T) : ptr Coordinator * option T * result Z :=
  match target with
  | None => (c, target, Err (ErrGC NilTarget))
  | Some t =>
      match c with
      | None => (c, target, Err (ErrGC InvalidMembership))
      | Some co =>
          match validateTombstones tombstones with
          | Err e => (c, target, Err e)
          | Ok _ =>
              let candidates := tt_TombstoneTags t in
              match acknowledgeLocked co groupID member epoch tombstones with
              | (co, Err e) => (Some co, target, Err e)
              | (co, Ok _) =>
                  let '(t, res) := compact_target t (stableTombstonesLocked co candidates) in
                  (Some co, Some t, res)
              end
          end
      end
  end.

(** ** The simple collector *)

Record SimplePolicy := mkSimplePolicy { sp_MinRetained : Z; sp_MaxBatch : Z }.
Definition MaxSimpleBatch : Z := 8192.

(** [DefaultSimplePolicy] *)
Definition DefaultSimplePolicy : SimplePolicy := mkSimplePolicy 256 64.

Record SimpleCollector := mkSimpleCollector { sc_policy : SimplePolicy }.

(** [NewSimpleCollector] *)
Definition NewSimpleCollector (policy : SimplePolicy) : result SimpleCollector :=
  if (sp_MinRetained policy <? 0) || (sp_MaxBatch policy <=? 0) || (MaxSimpleBatch <? sp_MaxBatch policy)
  then Err (ErrGC InvalidSimplePolicy)
  else Ok (mkSimpleCollector policy).

(** [SimpleCollector.Policy] *)
Definition SimpleCollector_Policy (c : ptr SimpleCollector) : SimplePolicy :=
  match c with None => mkSimplePolicy 0 0 | Some c => sc_policy c end.

(** The loops of [canonicalSimpleTombstones]: an adjacent pair out of order, an
    adjacent pair of equal tags, and the tags without adjacent repetitions. *)
Fixpoint adjacent (p : Tag → Tag → bool) (tags : list Tag) : bool :=
  match tags with
  | a :: (b :: _) as rest => p a b || adjacent p rest
  | _ => false
  end.
Fixpoint unique_loop (last : Tag) (tags : list Tag) : list Tag :=
  match tags with
  | [] => []
  | tag :: tags' => if bool_decide (last = tag) then unique_loop last tags' else tag :: unique_loop tag tags'
  end.

(** [canonicalSimpleTombstones] *)
Definition canonicalSimpleTombstones (tags : list Tag) : list Tag :=
  let tags := if adjacent (λ a b, 0 <=? Compare a b) tags then sort_by Compare tags else tags in
  match tags with
  | first :: rest =>
      if len tags <? 2 then tags
      else if adjacent (λ a b, bool_decide (a = b)) tags then first :: unique_loop first rest
      else tags
  | [] => tags
  end.

(** [SimpleCollector.Collect] *)
Definition SimpleCollector_Collect `{TombstoneTarget T} (c : ptr SimpleCollector) (target : option T)
    : option T * result Z :=
  match c with
  | None => (target, Err (ErrGC NilSimpleCollector))
  | Some c =>
      match target with
      | None => (target, Err (ErrGC NilTarget))
      | Some t =>
          let tags := tt_TombstoneTags t in
          match validateTombstones tags with
          | Err e => (target, Err e)
          | Ok _ =>
              let tags := canonicalSimpleTombstones tags in
              if len tags <=? sp_MinRetained (sc_policy c) then (target, Ok 0)
              else
                let count := len tags - sp_MinRetained (sc_policy c) in
                let count := if sp_MaxBatch (sc_policy c) <? count then sp_MaxBatch (sc_policy c) else count in
                let '(t, res) := compact_target t (take (Z.to_nat count) tags) in
                (Some t, res)
          end
      end
  end.
