(* ===== verification/TombstoneGCTheory.v ===== *)
(** * Tombstone collection: theory

    The coordinator refines a ledger, the plain set of (member, tag) pairs that
    were acknowledged in the current epoch. What it lets a target collect was
    acknowledged by every member, in every interleaving of concurrent calls. *)

From S2P Require Import Prelude Tags TombstoneGC.

(** ** The ledger *)

Abbreviation acks := (gset (bytes * Tag)).

(** The state the coordinator stands for. *)
Record ledger := mkLedger { lg_group : bytes; lg_epoch : Z; lg_members : gset bytes; lg_acks : acks }.

(** The pairs about a tag, and how often the coordinator counts it. *)
Definition about (R : acks) (t : Tag) : acks := filter (λ p : bytes * Tag, p.2 = t) R.
Definition count_of (R : acks) (t : Tag) : option Z :=
  if decide (about R t = ∅) then None else Some (Z.of_nat (size (about R t))).

Record represents (c : Coordinator) (l : ledger) : Prop := {
  rep_group : co_groupID c = lg_group l;
  rep_epoch : co_epoch c = lg_epoch l;
  rep_members : co_members c = lg_members l;
  rep_acks : ∀ m t, (m, t) ∈ lg_acks l ↔ t ∈ default ∅ (co_acknowledgements c !! m);
  rep_counts : ∀ t, co_acknowledgementCounts c !! t = count_of (lg_acks l) t;
  rep_entries : co_acknowledgementEntries c = Z.of_nat (size (lg_acks l));
  rep_known : ∀ m t, (m, t) ∈ lg_acks l → m ∈ lg_members l;
}.

(** Acknowledging and pruning, on the ledger. *)
Definition acked_pairs (m : bytes) (tags : list Tag) : acks := list_to_set ((m,.) <$> tags).
Definition pruned (tags : list Tag) (R : acks) : acks := filter (λ p : bytes * Tag, p.2 ∉ tags) R.

(** A tag every member acknowledged. *)
Definition acked_by_all (l : ledger) (t : Tag) : Prop := set_Forall (λ m, (m, t) ∈ lg_acks l) (lg_members l).
#[export] Instance acked_by_all_dec l t : Decision (acked_by_all l t).
Proof. unfold acked_by_all. apply _. Defined.

Lemma elem_of_about R t m t' : (m, t') ∈ about R t ↔ t' = t ∧ (m, t') ∈ R.
Proof. unfold about. by rewrite elem_of_filter. Qed.

Lemma elem_of_acked m tags m' t : (m', t) ∈ acked_pairs m tags ↔ m' = m ∧ t ∈ tags.
Proof.
  unfold acked_pairs. rewrite elem_of_list_to_set, list_elem_of_fmap. split.
  - intros (t' & [= -> ->] & ?). done.
  - intros [-> ?]. eauto.
Qed.

Lemma clear_represents g e members : represents (co_clear g e members) (mkLedger g e members ∅).
Proof. by split. Qed.

(** ** Acknowledging *)

Lemma ack_table_represents m c l : represents c l → represents (ack_table m c) l.
Proof.
  intros Hrep. unfold ack_table. destruct (co_acknowledgements c !! m) as [ts|] eqn:Hm; [done|].
  destruct Hrep as [Hg He Hme Ha Hc Hn Hk]. split; try done. intros m' t. cbn. rewrite Ha.
  destruct (decide (m' = m)) as [->|]; [rewrite lookup_insert_eq, Hm; done|by rewrite lookup_insert_ne].
Qed.

Lemma about_add R m t t' : (m, t) ∉ R →
  count_of ({[(m, t)]} ∪ R) t' = if decide (t' = t) then Some (default 0 (count_of R t) + 1) else count_of R t'.
Proof.
  intros Hnew. unfold count_of. destruct (decide (t' = t)) as [->|Hne].
  - assert (about ({[(m, t)]} ∪ R) t = {[(m, t)]} ∪ about R t) as -> by (unfold about; set_solver).
    rewrite decide_False by set_solver. rewrite size_union, size_singleton.
    + destruct (decide (about R t = ∅)) as [He|]; [rewrite He, size_empty; done|]. cbn [default]. f_equal.
      change (default 0 (Some ?n)) with n. unfold id. lia.
    + unfold about. set_solver.
  - assert (about ({[(m, t)]} ∪ R) t' = about R t') as -> by (unfold about; set_solver). done.
Qed.

Lemma ack_tag_represents m c g e ms R t : represents c (mkLedger g e ms R) → m ∈ ms →
  represents (ack_tag m c t) (mkLedger g e ms ({[(m, t)]} ∪ R)).
Proof.
  intros [Hg He Hme Ha Hc Hn Hk] Hm. cbn [lg_group lg_epoch lg_members lg_acks] in *.
  unfold ack_tag. case_bool_decide as Ht.
  { replace ({[(m, t)]} ∪ R) with R; [by split|]. rewrite <-Ha in Ht. set_solver. }
  rewrite <-Ha in Ht. split; try done; cbn.
  - intros m' t'. rewrite elem_of_union, elem_of_singleton, Ha. destruct (decide (m' = m)) as [->|].
    + rewrite lookup_insert_eq. cbn. set_solver.
    + rewrite lookup_insert_ne by done. naive_solver.
  - intros t'. rewrite about_add by done. destruct (decide (t' = t)) as [->|].
    + by rewrite lookup_insert_eq, Hc.
    + by rewrite lookup_insert_ne.
  - rewrite size_union, size_singleton by set_solver. lia.
  - intros m' t'. rewrite elem_of_union, elem_of_singleton. naive_solver.
Qed.

Lemma ack_tags_represents m tags c g e ms R : represents c (mkLedger g e ms R) → m ∈ ms →
  represents (foldl (ack_tag m) c tags) (mkLedger g e ms (R ∪ acked_pairs m tags)).
Proof.
  intros Hrep Hm. revert c R Hrep. induction tags as [|t tags IH]; intros c R Hrep; cbn [foldl].
  - replace (R ∪ acked_pairs m []) with R; [done|]. unfold acked_pairs. set_solver.
  - replace (R ∪ acked_pairs m (t :: tags)) with (({[(m, t)]} ∪ R) ∪ acked_pairs m tags).
    + apply IH. by apply ack_tag_represents.
    + unfold acked_pairs. set_solver.
Qed.

(** ** Counting *)

Lemma size_set_map_on `{Countable A, Countable B} (f : A → B) (X : gset A) :
  (∀ x y, x ∈ X → y ∈ X → f x = f y → x = y) → size (set_map f X : gset B) = size X.
Proof.
  intros Hinj. unfold set_map. rewrite size_list_to_set; [by rewrite length_fmap|].
  apply NoDup_fmap_2_strong; [|apply NoDup_elements]. intros x y Hx%elem_of_elements Hy%elem_of_elements. auto.
Qed.

(** The members that acknowledged a tag. *)
Definition ackers (R : acks) (t : Tag) : gset bytes := set_map fst (about R t).

Lemma elem_of_ackers R t m : m ∈ ackers R t ↔ (m, t) ∈ R.
Proof.
  unfold ackers. rewrite elem_of_map. split.
  - intros ([m' t'] & -> & [-> ?]%elem_of_about). done.
  - intros Hm. exists (m, t). split; [done|]. by apply elem_of_about.
Qed.

Lemma size_ackers R t : size (ackers R t) = size (about R t).
Proof. apply size_set_map_on. intros [m1 t1] [m2 t2] [-> _]%elem_of_about [-> _]%elem_of_about. by intros [= ->]. Qed.

Lemma count_of_Some R t : is_Some (count_of R t) ↔ ∃ m, (m, t) ∈ R.
Proof.
  unfold count_of. destruct (decide (about R t = ∅)) as [He|He]; split; [by intros []| |..].
  - intros [m Hm]. assert ((m, t) ∈ about R t) as Hin by (by apply elem_of_about).
    rewrite He in Hin. by apply not_elem_of_empty in Hin.
  - intros _. apply set_choose_L in He as [[m t'] [-> ?]%elem_of_about]. eauto.
  - eauto.
Qed.

Lemma count_of_default R t : default 0 (count_of R t) = Z.of_nat (size (about R t)).
Proof. unfold count_of. destruct (decide _) as [He|]; [by rewrite He, size_empty|done]. Qed.

(** A tag is stable when every member acknowledged it. *)
Lemma stable_spec c l cands t : represents c l →
  t ∈ stableTombstonesLocked c cands ↔ t ∈ cands ∧ acked_by_all l t.
Proof.
  intros [Hg He Hme Ha Hc Hn Hk]. unfold stableTombstonesLocked. rewrite list_elem_of_filter.
  rewrite Hc, Hme, count_of_default, <-size_ackers, Nat2Z.inj_iff.
  assert (ackers (lg_acks l) t ⊆ lg_members l) as Hsub by (intros m Hm%elem_of_ackers; eauto).
  split.
  - intros [Hs Ht]. split; [done|]. intros m Hm. apply elem_of_ackers. by rewrite (set_subseteq_size_eq _ _ Hsub) by lia.
  - intros [Ht Hall]. split; [|done]. f_equal. apply set_eq. intros m. split; [apply Hsub|].
    intros Hm. by apply elem_of_ackers, Hall.
Qed.

(** ** Pruning *)

(** The two tables of the coordinator hold the pairs [R]. *)
Definition tables (acknowledgements : gmap bytes (gset Tag)) (counts : gmap Tag Z) (R : acks) : Prop :=
  (∀ m t, (m, t) ∈ R ↔ t ∈ default ∅ (acknowledgements !! m)) ∧ ∀ t, counts !! t = count_of R t.

Lemma elem_of_pruned tags R m t : (m, t) ∈ pruned tags R ↔ (m, t) ∈ R ∧ t ∉ tags.
Proof. unfold pruned. rewrite elem_of_filter. cbn. tauto. Qed.

Lemma pruned_cons t tags R : pruned (t :: tags) R = pruned tags (pruned [t] R).
Proof. apply set_eq. intros [m t']. rewrite !elem_of_pruned. set_solver. Qed.

Lemma count_pruned t t' R : count_of (pruned [t] R) t' = if decide (t' = t) then None else count_of R t'.
Proof.
  unfold count_of. destruct (decide (t' = t)) as [->|].
  - rewrite decide_True; [done|]. apply set_eq. intros [m t'']. rewrite elem_of_about, elem_of_pruned. set_solver.
  - assert (about (pruned [t] R) t' = about R t') as ->; [|done].
    apply set_eq. intros [m t'']. rewrite !elem_of_about, elem_of_pruned. set_solver.
Qed.

Lemma prune_tag_spec acknowledgements counts R n t : tables acknowledgements counts R →
  ∃ acknowledgements' counts', tables acknowledgements' counts' (pruned [t] R) ∧
  prune_tag (acknowledgements, counts, n) t =
    (acknowledgements', counts', n + Z.of_nat (size R) - Z.of_nat (size (pruned [t] R))).
Proof.
  intros [Ha Hc]. eexists _, _. split; [split|].
  3: { cbn [prune_tag]. do 2 f_equal. rewrite <-(size_dom (D := gset bytes)).
    assert (dom (filter (λ e : bytes * gset Tag, t ∈ e.2) acknowledgements) = ackers R t) as ->.
    { apply set_eq. intros m. rewrite elem_of_dom, elem_of_ackers, Ha. split.
      - intros [ts [Hm Ht]%map_lookup_filter_Some]. by rewrite Hm.
      - intros Ht. destruct (acknowledgements !! m) as [ts|] eqn:Hm; [|by apply not_elem_of_empty in Ht].
        exists ts. by apply map_lookup_filter_Some. }
    assert (pruned [t] R ## about R t) as Hdis.
    { intros [m t']. rewrite elem_of_pruned, elem_of_about. set_solver. }
    assert (R = pruned [t] R ∪ about R t) as HR.
    { apply set_eq. intros [m t']. rewrite elem_of_union, elem_of_pruned, elem_of_about.
      destruct (decide (t' = t)); set_solver. }
    rewrite size_ackers. rewrite HR at 2. rewrite size_union by done. lia. }
  - intros m t'. rewrite elem_of_pruned, Ha, lookup_fmap.
    destruct (acknowledgements !! m) as [ts|]; cbn; set_solver.
  - intros t'. rewrite count_pruned. destruct (decide (t' = t)) as [->|]; [apply lookup_delete_eq|].
    by rewrite lookup_delete_ne.
Qed.

Lemma prune_tags_spec tags acknowledgements counts R n : tables acknowledgements counts R →
  ∃ acknowledgements' counts', tables acknowledgements' counts' (pruned tags R) ∧
  foldl prune_tag (acknowledgements, counts, n) tags =
    (acknowledgements', counts', n + Z.of_nat (size R) - Z.of_nat (size (pruned tags R))).
Proof.
  revert acknowledgements counts R n. induction tags as [|t tags IH]; intros acknowledgements counts R n Htab.
  - assert (pruned [] R = R) as -> by (apply set_eq; intros [m t]; rewrite elem_of_pruned; set_solver).
    exists acknowledgements, counts. split; [done|]. cbn [foldl]. f_equal. lia.
  - destruct (prune_tag_spec acknowledgements counts R n t Htab) as (a1 & c1 & Htab1 & Heq). cbn [foldl]. rewrite Heq.
    destruct (IH a1 c1 (pruned [t] R) (n + Z.of_nat (size R) - Z.of_nat (size (pruned [t] R))) Htab1)
      as (a2 & c2 & Htab2 & ->).
    exists a2, c2. rewrite pruned_cons. split; [done|]. f_equal. lia.
Qed.

Lemma prunesAll_spec c l tags : represents c l → prunesAllAcknowledgementTagsLocked c tags = true →
  pruned tags (lg_acks l) = ∅.
Proof.
  intros [Hg He Hme Ha Hc Hn Hk]. unfold prunesAllAcknowledgementTagsLocked.
  destruct (_ <? _); [done|]. destruct (forallb _ _) eqn:Hall; [|done]. intros Hs%bool_decide_eq_true.
  assert ((list_to_set tags : gset Tag) ⊆ dom (co_acknowledgementCounts c)) as Hsub.
  { intros t Ht%elem_of_list_to_set. apply elem_of_dom. rewrite forallb_forall in Hall.
    specialize (Hall t). rewrite <-list_elem_of_In in Hall. by apply Hall, bool_decide_eq_true in Ht. }
  apply set_subseteq_size_eq in Hsub; [|rewrite size_dom; lia].
  apply set_eq. intros [m t]. rewrite elem_of_pruned. split; [|by intros ?%not_elem_of_empty]. intros [Hm []].
  rewrite <-(elem_of_list_to_set (C := gset Tag)), Hsub, elem_of_dom, Hc. apply count_of_Some. eauto.
Qed.

(** ** The reference operations *)

Inductive co_op :=
| OpAcknowledge (groupID member : bytes) (epoch : Z) (tombstones : list Tag)
| OpPrune (groupID : bytes) (epoch : Z) (tags : list Tag)
| OpReplace (members : list bytes)
| OpInstall (membership : Membership).

Inductive co_reply :=
| ReplyUnit (res : result unit)
| ReplyCount (res : result Z)
| ReplyMembership (res : result Membership).

(** One call of the coordinator. *)
Definition co_step (c : ptr Coordinator) (op : co_op) : ptr Coordinator * co_reply :=
  match op with
  | OpAcknowledge g m e ts => let '(c, res) := Coordinator_Acknowledge c g m e ts in (c, ReplyUnit res)
  | OpPrune g e ts => let '(c, res) := PruneAcknowledgements c g e ts in (c, ReplyCount res)
  | OpReplace ms => let '(c, res) := ReplaceMembership c ms in (c, ReplyMembership res)
  | OpInstall mb => let '(c, res) := InstallMembership c mb in (c, ReplyUnit res)
  end.

(** The members of a valid view. *)
Definition members_ok (members : list bytes) : Prop :=
  members ≠ [] ∧ NoDup members ∧ Forall (λ m, blank m = false) members.
#[export] Instance members_ok_dec members : Decision (members_ok members).
Proof. unfold members_ok. apply _. Defined.

Definition lg_view (l : ledger) : Membership := mkMembership (lg_group l) (lg_epoch l) (sortedMembers (lg_members l)).

(** The same call on the ledger. *)
Definition ledger_step (l : ledger) (op : co_op) : ledger * co_reply :=
  match op with
  | OpAcknowledge g m e ts =>
      if negb (forallb Valid ts) then (l, ReplyUnit (Err (ErrGC InvalidTag)))
      else if decide (g ≠ lg_group l) then (l, ReplyUnit (Err (ErrGC GroupMismatch)))
      else if decide (e ≠ lg_epoch l) then (l, ReplyUnit (Err (ErrGC StaleMembership)))
      else if decide (m ∉ lg_members l) then (l, ReplyUnit (Err (ErrGC UnknownMember)))
      else (mkLedger (lg_group l) (lg_epoch l) (lg_members l) (lg_acks l ∪ acked_pairs m ts), ReplyUnit (Ok tt))
  | OpPrune g e ts =>
      if negb (forallb Valid ts) then (l, ReplyCount (Err (ErrGC InvalidTag)))
      else if decide (g ≠ lg_group l) then (l, ReplyCount (Err (ErrGC GroupMismatch)))
      else if decide (e ≠ lg_epoch l) then (l, ReplyCount (Err (ErrGC StaleMembership)))
      else (mkLedger (lg_group l) (lg_epoch l) (lg_members l) (pruned ts (lg_acks l)),
            ReplyCount (Ok (Z.of_nat (size (lg_acks l)) - Z.of_nat (size (pruned ts (lg_acks l))))))
  | OpReplace ms =>
      if decide (¬ members_ok ms ∨ lg_epoch l = maxUint64) then (l, ReplyMembership (Err (ErrGC InvalidMembership)))
      else let l' := mkLedger (lg_group l) (lg_epoch l + 1) (list_to_set ms) ∅ in (l', ReplyMembership (Ok (lg_view l')))
  | OpInstall mb =>
      if decide (mb_Epoch mb = 0 ∨ ¬ members_ok (mb_Members mb)) then (l, ReplyUnit (Err (ErrGC InvalidMembership)))
      else if decide (mb_GroupID mb ≠ lg_group l) then (l, ReplyUnit (Err (ErrGC MembershipGroupMismatch)))
      else if decide (lg_epoch l < mb_Epoch mb)
      then (mkLedger (lg_group l) (mb_Epoch mb) (list_to_set (mb_Members mb)) ∅, ReplyUnit (Ok tt))
      else if decide (mb_Epoch mb = lg_epoch l ∧ list_to_set (mb_Members mb) = lg_members l) then (l, ReplyUnit (Ok tt))
      else (l, ReplyUnit (Err (ErrGC MembershipRollback)))
  end.

Definition co_run (c : ptr Coordinator) (ops : list co_op) : ptr Coordinator * list co_reply :=
  foldl (λ acc op, let '(c, reply) := co_step acc.1 op in (c, acc.2 ++ [reply])) (c, []) ops.
Definition ledger_run (l : ledger) (ops : list co_op) : ledger * list co_reply :=
  foldl (λ acc op, let '(l, reply) := ledger_step acc.1 op in (l, acc.2 ++ [reply])) (l, []) ops.

Lemma members_loop_spec acc members :
  members_loop acc members =
    if decide (NoDup members ∧ Forall (λ m, blank m = false ∧ m ∉ acc) members)
    then Ok (acc ∪ list_to_set members) else Err (ErrGC InvalidMembership).
Proof.
  revert acc. induction members as [|m members IH]; intros acc; cbn [members_loop].
  - rewrite decide_True by (split; constructor). f_equal. set_solver.
  - destruct (blank m) eqn:Hm.
    { rewrite decide_False; [done|]. intros [_ [[? _] _]%Forall_cons]. congruence. }
    case_bool_decide as Hin.
    { rewrite decide_False; [done|]. intros [_ [[_ ?] _]%Forall_cons]. done. }
    rewrite IH. replace ({[m]} ∪ acc ∪ list_to_set members) with (acc ∪ list_to_set (m :: members)) by set_solver.
    apply decide_ext. rewrite NoDup_cons, Forall_cons, !Forall_forall. set_solver.
Qed.

Lemma validateMembers_spec members :
  validateMembers members = if decide (members_ok members) then Ok (list_to_set members) else Err (ErrGC InvalidMembership).
Proof.
  unfold validateMembers, members_ok. destruct members as [|m members].
  { rewrite decide_False; [done|]. by intros []. }
  rewrite members_loop_spec. replace (∅ ∪ _) with (list_to_set (m :: members) : gset bytes) by set_solver.
  apply decide_ext. rewrite !Forall_forall. set_solver.
Qed.

Lemma sameMembers_spec l r : sameMembers l r = bool_decide (r = l).
Proof.
  unfold sameMembers. symmetry. case_bool_decide as Heq; [subst|].
  - rewrite bool_decide_true by done. symmetry. apply forallb_forall. intros m Hm%list_elem_of_In%elem_of_elements.
    by apply bool_decide_eq_true.
  - case_bool_decide as Hs; [|done]. destruct (forallb _ _) eqn:Hall; [|done]. destruct Heq. symmetry.
    apply set_subseteq_size_eq; [|lia]. intros m Hm%elem_of_elements%list_elem_of_In. rewrite forallb_forall in Hall.
    by apply Hall, bool_decide_eq_true in Hm.
Qed.

(** Decides the reference guard the code's guard was just decided for. *)
Ltac decided := first [rewrite decide_True by tauto | rewrite decide_False by tauto]; cbn.

(** One call of the coordinator is the same call on the ledger. *)
Lemma co_step_refines c l op : represents c l →
  ∃ c', co_step (Some c) op = (Some c', (ledger_step l op).2) ∧ represents c' (ledger_step l op).1.
Proof.
  intros Hrep. pose proof Hrep as [Hg He Hme Ha Hc Hn Hk]. destruct op as [g m e ts|g e ts|ms|mb]; cbn.
  - unfold validateTombstones. destruct (forallb Valid ts); cbn; [|eauto].
    unfold acknowledgeLocked. rewrite Hg, He, Hme. case_bool_decide; cbn; decided; [|eauto].
    destruct (Z.eqb_spec e (lg_epoch l)); cbn; decided; [|eauto]. case_bool_decide; decided; [eauto|].
    eexists. split; [done|]. destruct l. apply ack_tags_represents; [|done].
    by apply ack_table_represents.
  - unfold validateTombstones. destruct (forallb Valid ts); cbn; [|eauto].
    rewrite Hg, He, Hme. case_bool_decide; cbn; decided; [|eauto].
    destruct (Z.eqb_spec e (lg_epoch l)); cbn; decided; [|eauto].
    destruct (prunesAllAcknowledgementTagsLocked c ts) eqn:Hp.
    + rewrite (prunesAll_spec c l ts Hrep Hp), size_empty, Hn, Z.sub_0_r. eexists. split; [done|]. apply clear_represents.
    + destruct (prune_tags_spec ts _ _ (lg_acks l) 0 (conj Ha Hc)) as (a' & c' & [Ha' Hc'] & ->). cbn.
      eexists. split; [done|]. split; try done; cbn; [lia|]. intros m t [? _]%elem_of_pruned. eauto.
  - rewrite validateMembers_spec. destruct (decide (members_ok ms)); [|decided; eauto].
    rewrite He. destruct (Z.eqb_spec (lg_epoch l) maxUint64); decided; [eauto|]. rewrite Hg.
    eexists. split; [done|]. apply clear_represents.
  - destruct (Z.eqb_spec (mb_Epoch mb) 0); [decided; eauto|].
    rewrite validateMembers_spec. destruct (decide (members_ok (mb_Members mb))); [|decided; eauto]. decided.
    rewrite Hg, He, Hme. case_bool_decide; cbn; decided; [|eauto].
    destruct (Z.ltb_spec (mb_Epoch mb) (lg_epoch l)).
    { do 2 (rewrite decide_False by lia). eauto. }
    destruct (Z.eqb_spec (mb_Epoch mb) (lg_epoch l)).
    + rewrite decide_False by lia. rewrite sameMembers_spec. case_bool_decide; decided; eauto.
    + rewrite decide_True by lia. eexists. split; [done|]. apply clear_represents.
Qed.

Lemma co_run_refines c l ops replies : represents c l →
  ∃ c', foldl (λ acc op, let '(c, reply) := co_step acc.1 op in (c, acc.2 ++ [reply])) (Some c, replies) ops =
      (Some c', (foldl (λ acc op, let '(l, reply) := ledger_step acc.1 op in (l, acc.2 ++ [reply])) (l, replies) ops).2) ∧
    represents c' (foldl (λ acc op, let '(l, reply) := ledger_step acc.1 op in (l, acc.2 ++ [reply])) (l, replies) ops).1.
Proof.
  revert c l replies. induction ops as [|op ops IH]; intros c l replies Hrep; cbn [foldl]; [eauto|].
  destruct (co_step_refines c l op Hrep) as (c1 & Heq & Hrep1). cbn [fst snd]. rewrite Heq.
  destruct (ledger_step l op) as [l1 reply]. by apply IH.
Qed.

(** The counts the coordinator reports. *)
Lemma stats_spec c l : represents c l →
  Coordinator_AcknowledgementStats (Some c) =
    mkAckStats (lg_group l) (lg_epoch l) (Z.of_nat (size (lg_members l)))
      (Z.of_nat (size (set_map snd (lg_acks l) : gset Tag))) (Z.of_nat (size (lg_acks l))).
Proof.
  intros [Hg He Hme Ha Hc Hn Hk]. unfold Coordinator_AcknowledgementStats. rewrite Hg, He, Hme, Hn.
  rewrite <-(size_dom (D := gset Tag)). do 3 f_equal. apply set_eq. intros t.
  rewrite elem_of_dom, Hc, count_of_Some, elem_of_map. split.
  - intros [m Hm]. by exists (m, t).
  - intros ([m t'] & -> & Hm). eauto.
Qed.

(** C18: the coordinator refines the ledger of acknowledged pairs. From a new
    coordinator, every sequence of acknowledgements, prunings and membership
    changes returns the replies of the ledger; afterwards the view, the
    statistics and the tombstones reported as stable are those of the ledger, so
    the incremental counts and the full-prune shortcut are exact. *)
Theorem Coordinator_refines_ledger (groupID : bytes) (members : list bytes) (c : Coordinator) (ops : list co_op)
    (Hnew : NewCoordinator groupID members = Ok c) :
  let '(l', replies) := ledger_run (mkLedger groupID 1 (list_to_set members) ∅) ops in
  ∃ c', co_run (Some c) ops = (Some c', replies) ∧
    Coordinator_Membership (Some c') = lg_view l' ∧
    Coordinator_AcknowledgementStats (Some c') =
      mkAckStats (lg_group l') (lg_epoch l') (Z.of_nat (size (lg_members l')))
        (Z.of_nat (size (set_map snd (lg_acks l') : gset Tag))) (Z.of_nat (size (lg_acks l'))) ∧
    ∀ candidates, stableTombstonesLocked c' candidates = filter (acked_by_all l') candidates.
Proof.
  unfold NewCoordinator in Hnew. destruct (blank groupID); [done|]. rewrite validateMembers_spec in Hnew.
  destruct (decide (members_ok members)); [|done]. injection Hnew as <-.
  destruct (co_run_refines _ _ ops [] (clear_represents groupID 1 (list_to_set members))) as (c' & Hrun & Hrep).
  fold (ledger_run (mkLedger groupID 1 (list_to_set members) ∅) ops) in Hrun, Hrep.
  destruct (ledger_run _ _) as [l' replies]. exists c'. split; [done|]. pose proof Hrep as [Hg He Hme _ _ _ _]. split_and!.
  - unfold Coordinator_Membership, lg_view. by rewrite Hg, He, Hme.
  - by apply stats_spec.
  - intros candidates. induction candidates as [|t candidates IH]; [done|].
    pose proof (stable_spec c' l' [t] t Hrep) as Ht. unfold stableTombstonesLocked in *. rewrite !filter_cons.
    rewrite filter_cons, list_elem_of_singleton in Ht.
    destruct (decide (default 0 _ = _)) as [|Hn], (decide (acked_by_all l' t)) as [|Ha]; [by rewrite IH| | |done].
    + destruct Ha. apply Ht. by left.
    + assert (t ∈ []) as Hin by (by apply Ht). by apply not_elem_of_nil in Hin.
Qed.

(** ** What a target promises *)

(** [tt_ids] are the tombstones a target holds and [tt_view] what it shows.
    Compacting some tags removes tombstones among them only, reports how many, and
    shows the same; a refusal changes nothing. *)
Class TombstoneTargetLaws (T : Type) `{!TombstoneTarget T} := {
  tt_ok : T → Prop;
  tt_ids : T → gset Tag;
  tt_shown : Type;
  tt_view : T → tt_shown;
  tt_tags_valid target t : tt_ok target → t ∈ tt_ids target → Valid t = true;
  tt_tags_increasing target : tt_ok target → increasing Compare (tt_TombstoneTags target);
  tt_tags_ids target t : tt_ok target → t ∈ tt_TombstoneTags target ↔ t ∈ tt_ids target;
  tt_compact_spec target tags : tt_ok target →
    let '(target', res) := compact_target target tags in
    match res with
    | Ok n => tt_ok target' ∧ tt_view target' = tt_view target ∧ ∃ gone, gone ⊆ tt_ids target ∧
        (∀ t, t ∈ gone → t ∈ tags) ∧ tt_ids target' = tt_ids target ∖ gone ∧ n = Z.of_nat (size gone)
    | Err _ => target' = target
    end;
}.

(** ** Concurrent calls

    [AcknowledgeAndCompactTarget] holds the membership lock for reading from its
    first read of the target to the end of the compaction, and the
    acknowledgement lock only while it records and decides. Between its three
    parts other calls record and prune acknowledgements and the target changes;
    only a membership change waits for every such call to end. *)

Section interleaving.
Context {T : Type} `{!TombstoneTarget T} `{!TombstoneTargetLaws T}.

(** A call that has listed the target's tombstones, or decided which to compact. *)
Inductive call :=
| Listed (groupID member : bytes) (epoch : Z) (tombstones candidates : list Tag)
| Decided (stable : list Tag).

(** [sy_log] is the history: every acknowledgement the coordinator accepted, with
    its epoch. *)
Record system := mkSystem {
  sy_co : Coordinator; sy_target : T; sy_calls : gmap nat call; sy_log : gset (Z * bytes * Tag) }.

Definition logged (epoch : Z) (member : bytes) (tags : list Tag) : gset (Z * bytes * Tag) :=
  list_to_set ((λ t, (epoch, member, t)) <$> tags).

(** What an accepted call adds to the history, and whether it takes the membership
    lock for writing. *)
Definition op_log (op : co_op) (reply : co_reply) : gset (Z * bytes * Tag) :=
  match op, reply with OpAcknowledge _ m e ts, ReplyUnit (Ok _) => logged e m ts | _, _ => ∅ end.
Definition changes_view (op : co_op) : bool :=
  match op with OpReplace _ | OpInstall _ => true | _ => false end.

(** [collects] marks the steps that compact the target. *)
Inductive sys_step : system → bool → system → Prop :=
| step_op co t calls log op co' reply :
    co_step (Some co) op = (Some co', reply) → (changes_view op = true → calls = ∅) →
    sys_step (mkSystem co t calls log) false (mkSystem co' t calls (log ∪ op_log op reply))
| step_list co t calls log k g m e ts :
    calls !! k = None → validateTombstones ts = Ok tt →
    sys_step (mkSystem co t calls log) false
      (mkSystem co t (<[k := Listed g m e ts (tt_TombstoneTags t)]> calls) log)
| step_refused co t calls log k g m e ts cands co' err :
    calls !! k = Some (Listed g m e ts cands) → acknowledgeLocked co g m e ts = (co', Err err) →
    sys_step (mkSystem co t calls log) false (mkSystem co' t (delete k calls) log)
| step_decide co t calls log k g m e ts cands co' :
    calls !! k = Some (Listed g m e ts cands) → acknowledgeLocked co g m e ts = (co', Ok tt) →
    sys_step (mkSystem co t calls log) false
      (mkSystem co' t (<[k := Decided (stableTombstonesLocked co' cands)]> calls) (log ∪ logged e m ts))
| step_collect co t calls log k stable t' res :
    calls !! k = Some (Decided stable) → compact_target t stable = (t', res) →
    sys_step (mkSystem co t calls log) true (mkSystem co t' (delete k calls) log)
| step_target co t calls log t' :
    tt_ok t' → sys_step (mkSystem co t calls log) false (mkSystem co t' calls log).

Inductive sys_reachable (groupID : bytes) (members : list bytes) : system → Prop :=
| sys_init co t : NewCoordinator groupID members = Ok co → tt_ok t →
    sys_reachable groupID members (mkSystem co t ∅ ∅)
| sys_next s b s' : sys_reachable groupID members s → sys_step s b s' → sys_reachable groupID members s'.

(** The coordinator stands for a ledger of the history's current epoch, and what
    the calls in flight have decided on was acknowledged by every member. *)
Definition sys_inv (s : system) : Prop :=
  tt_ok (sy_target s) ∧ ∃ l, represents (sy_co s) l ∧
    (∀ m t, (m, t) ∈ lg_acks l → (lg_epoch l, m, t) ∈ sy_log s) ∧
    (∀ e m t, (e, m, t) ∈ sy_log s → e <= lg_epoch l) ∧
    ∀ k stable t m, sy_calls s !! k = Some (Decided stable) → t ∈ stable → m ∈ lg_members l → (lg_epoch l, m, t) ∈ sy_log s.

Lemma elem_of_logged e m ts e' m' t : (e', m', t) ∈ logged e m ts ↔ e' = e ∧ m' = m ∧ t ∈ ts.
Proof.
  unfold logged. rewrite elem_of_list_to_set, list_elem_of_fmap. split.
  - intros (t' & [= -> -> ->] & ?). done.
  - intros (-> & -> & ?). eauto.
Qed.

Lemma acknowledgeLocked_spec c l g m e ts c' res : represents c l → acknowledgeLocked c g m e ts = (c', res) →
  match res with
  | Ok _ => e = lg_epoch l ∧ represents c' (mkLedger (lg_group l) (lg_epoch l) (lg_members l) (lg_acks l ∪ acked_pairs m ts))
  | Err _ => c' = c
  end.
Proof.
  intros Hrep. pose proof Hrep as [Hg He Hme _ _ _ _]. unfold acknowledgeLocked. rewrite He, Hme.
  destruct (negb (bool_decide _)); [by intros [= <- <-]|]. destruct (Z.eqb_spec e (lg_epoch l)); [|by intros [= <- <-]].
  cbn [negb]. case_bool_decide; [by intros [= <- <-]|]. intros [= <- <-]. split; [done|]. destruct l.
  apply ack_tags_represents; [|done]. by apply ack_table_represents.
Qed.

(** A call adds what it logs to the ledger, and only a change of view changes the
    members or the epoch. *)
Lemma ledger_step_log l op l' reply : ledger_step l op = (l', reply) →
  (∀ m t, (m, t) ∈ lg_acks l' → (lg_epoch l', m, t) ∈ op_log op reply ∨ lg_epoch l' = lg_epoch l ∧ (m, t) ∈ lg_acks l) ∧
  (changes_view op = false → lg_epoch l' = lg_epoch l ∧ lg_members l' = lg_members l) ∧
  lg_epoch l <= lg_epoch l' ∧ (∀ e m t, (e, m, t) ∈ op_log op reply → e <= lg_epoch l').
Proof.
  destruct op as [g m e ts|g e ts|ms|mb]; unfold ledger_step; intros Heq; split_and!;
    repeat match goal with H : (if ?b then _ else _) = _ |- _ => destruct b end; injection Heq as <- <-;
    cbn [lg_acks lg_epoch lg_members op_log]; try done; try lia; try (intros m' t' Hin; by right).
  - intros m' t' [Hin|[-> Hin]%elem_of_acked]%elem_of_union; [by right|]. left. apply elem_of_logged.
    split; [symmetry; by apply dec_stable|done].
  - intros e' m' t' (-> & _)%elem_of_logged. assert (e = lg_epoch l) by (by apply dec_stable). lia.
  - intros m' t' [Hin _]%elem_of_pruned. by right.
Qed.

Lemma sys_inv_step s b s' : sys_inv s → sys_step s b s' → sys_inv s'.
Proof.
  intros (Ht & l & Hrep & Hlog & Hmax & Hdec) Hstep.
  destruct Hstep as [co t calls log op co' reply Hop Hcalls|co t calls log k g m e ts Hk Hv
    |co t calls log k g m e ts cands co' err Hk Hack|co t calls log k g m e ts cands co' Hk Hack
    |co t calls log k stable t' res Hk Hc|co t calls log t' Ht']; cbn [sy_co sy_target sy_calls sy_log] in *.
  - split; [done|]. destruct (co_step_refines co l op Hrep) as (co1 & Heq & Hrep1). rewrite Hop in Heq.
    injection Heq as <- ->. destruct (ledger_step l op) as [l' reply] eqn:Hl. cbn [fst snd] in *.
    destruct (ledger_step_log l op l' reply Hl) as (Hnew & Hview & Hle & Hop'). exists l'. split_and!; [done| | |].
    + intros m t' Hin. apply elem_of_union. destruct (Hnew m t' Hin) as [?|[-> ?]]; auto.
    + intros e m t' [Hin|Hin]%elem_of_union; [|by eapply Hop']. specialize (Hmax e m t' Hin). lia.
    + intros k stable t' m Hk Hst Hm. cbn in Hk. destruct (changes_view op); [by rewrite (Hcalls eq_refl) in Hk|].
      destruct (Hview eq_refl) as [He Hme]. rewrite Hme in Hm. rewrite He. apply elem_of_union. left. eauto.
  - split; [done|]. exists l. split_and!; [done..|]. intros k' stable t' m'. cbn.
    rewrite lookup_insert_Some. intros [[_ ?]|[_ Hk']]; [done|]. eauto.
  - pose proof (acknowledgeLocked_spec _ _ _ _ _ _ _ _ Hrep Hack) as ->. split; [done|]. exists l.
    split_and!; [done..|]. intros k' stable t' m'. cbn. rewrite lookup_delete_Some. intros [_ Hk']. eauto.
  - destruct (acknowledgeLocked_spec _ _ _ _ _ _ _ _ Hrep Hack) as [-> Hrep']. split; [done|]. eexists. split; [done|].
    assert (∀ m' t', (m', t') ∈ lg_acks l ∪ acked_pairs m ts → (lg_epoch l, m', t') ∈ log ∪ logged (lg_epoch l) m ts) as Hall.
    { intros m' t' [Hin|[-> Hin]%elem_of_acked]%elem_of_union; apply elem_of_union; [left; auto|right].
      by apply elem_of_logged. }
    split_and!; [done| |]; cbn [lg_epoch lg_members sy_log sy_calls].
    { intros e' m' t' [Hin|(-> & _)%elem_of_logged]%elem_of_union; [eauto|lia]. }
    intros k' stable t' m'. rewrite lookup_insert_Some. intros [[_ [= <-]]|[_ Hk']] Hst Hm; [|apply elem_of_union; left; eauto].
    apply (stable_spec co' _ cands t' Hrep') in Hst as [_ Hst]. by apply Hall, Hst.
  - pose proof (tt_compact_spec t stable Ht) as Hspec. rewrite Hc in Hspec. split.
    + destruct res; [by destruct Hspec|by subst].
    + exists l. split_and!; [done..|]. intros k' stable' t1 m'. cbn. rewrite lookup_delete_Some. intros [_ Hk']. eauto.
  - split; [done|]. exists l. done.
Qed.

Lemma sys_reachable_inv groupID members s : sys_reachable groupID members s → sys_inv s.
Proof.
  induction 1 as [co t Hnew Ht|]; [|by eapply sys_inv_step]. split; [done|].
  unfold NewCoordinator in Hnew. destruct (blank groupID); [done|]. rewrite validateMembers_spec in Hnew.
  destruct (decide (members_ok members)); [|done]. injection Hnew as <-. eexists. split; [apply clear_represents|]. done.
Qed.

(** C8: collection is safe under concurrency. In every reachable interleaving of
    acknowledgements, prunings, membership changes, calls that collect and changes
    of the target, a step that compacts the target removes only tombstones that
    every current member has acknowledged in the current epoch, where
    acknowledgements of earlier views name earlier epochs, and the target shows what it showed before. *)
Theorem Coordinator_collects_acknowledged (groupID : bytes) (members : list bytes) (s s' : system)
    (Hreach : sys_reachable groupID members s) (Hstep : sys_step s true s') :
  tt_view (sy_target s') = tt_view (sy_target s) ∧ tt_ids (sy_target s') ⊆ tt_ids (sy_target s) ∧
  (∀ t m, t ∈ tt_ids (sy_target s) → t ∉ tt_ids (sy_target s') → m ∈ co_members (sy_co s) →
     (co_epoch (sy_co s), m, t) ∈ sy_log s) ∧
  ∀ e m t, (e, m, t) ∈ sy_log s → e <= co_epoch (sy_co s).
Proof.
  destruct (sys_reachable_inv _ _ _ Hreach) as (Ht & l & Hrep & _ & Hmax & Hdec).
  inversion Hstep as [| | | |co t calls log k stable t' res Hk Hc|]; subst. cbn [sy_co sy_target sy_calls sy_log] in *.
  pose proof (tt_compact_spec t stable Ht) as Hspec. rewrite Hc in Hspec.
  rewrite (rep_epoch _ _ Hrep), (rep_members _ _ Hrep). destruct res as [n|e].
  - destruct Hspec as (_ & Hv & gone & Hsub & Hin & -> & _). split_and!; [done|set_solver| |done].
    intros x m Hx Hno Hm. eapply Hdec; [done| |done]. apply Hin. set_solver.
  - subst t'. split_and!; [done|done| |done]. intros x m Hx []. done.
Qed.
End interleaving.

(** ** The simple collector *)

Lemma adjacent_false tags : adjacent (λ a b, 0 <=? Compare a b) tags = false → increasing Compare tags.
Proof.
  intros Hadj. apply Sorted_StronglySorted; [intros x y z; apply (cmp_trans Compare)|]. revert Hadj.
  induction tags as [|a [|b tags] IH]; cbn [adjacent]; intros Hadj; [repeat constructor..|].
  apply orb_false_iff in Hadj as [Hab Hadj]. constructor; [by apply IH|]. constructor. by apply Z.leb_gt.
Qed.

Lemma unique_loop_same first tags : adjacent (λ a b, bool_decide (a = b)) (first :: tags) = false →
  unique_loop first tags = tags.
Proof.
  revert first. induction tags as [|tag tags IH]; intros first; [done|]. cbn [adjacent unique_loop].
  destruct (bool_decide (first = tag)); [done|]. intros H. f_equal. by apply IH.
Qed.

Lemma unique_loop_spec last tags : StronglySorted (cmp_le Compare) (last :: tags) →
  increasing Compare (last :: unique_loop last tags) ∧ ∀ t, t ∈ last :: unique_loop last tags ↔ t ∈ last :: tags.
Proof.
  revert last. induction tags as [|tag tags IH]; intros last Hs; cbn [unique_loop].
  { split; [repeat constructor|done]. }
  case_bool_decide as Heq; [subst|].
  - apply StronglySorted_inv in Hs as [Hs _]. destruct (IH tag Hs) as [Hi Hin]. split; [done|].
    intros t. rewrite Hin. set_solver.
  - apply StronglySorted_inv in Hs as [Hs Hle]. destruct (IH tag Hs) as [Hi Hin]. split.
    + constructor; [done|]. apply Forall_forall. intros t. rewrite Hin, elem_of_cons. apply Forall_cons in Hle as [Hle _].
      assert (Compare last tag < 0) as Hlt.
      { unfold cmp_le in Hle. assert (Compare last tag ≠ 0); [|lia]. by intros ?%(cmp_eq Compare). }
      apply StronglySorted_inv in Hs as [_ Hs]. rewrite Forall_forall in Hs.
      intros [->|Ht]; [done|]. apply (cmp_lt_le_trans Compare last tag t Hlt). by apply Hs.
    + intros t. rewrite elem_of_cons, Hin, !elem_of_cons. done.
Qed.

(** Whatever list a target returns, the canonical one has the same tags, strictly
    increasing. *)
Lemma canonical_spec tags :
  increasing Compare (canonicalSimpleTombstones tags) ∧ ∀ t, t ∈ canonicalSimpleTombstones tags ↔ t ∈ tags.
Proof.
  unfold canonicalSimpleTombstones.
  assert (StronglySorted (cmp_le Compare) (if adjacent (λ a b, 0 <=? Compare a b) tags then sort_by Compare tags else tags)) as Hs.
  { destruct (adjacent _ tags) eqn:Hadj; [apply (sort_by_sorted Compare)|].
    by apply (increasing_weaken Compare), adjacent_false. }
  assert (∀ t, t ∈ (if adjacent (λ a b, 0 <=? Compare a b) tags then sort_by Compare tags else tags) ↔ t ∈ tags) as Hin.
  { intros t. destruct (adjacent _ tags); [by rewrite (sort_by_perm Compare)|done]. }
  destruct (if adjacent _ tags then _ else _) as [|first rest].
  { split; [constructor|]. intros t. by rewrite <-Hin. }
  destruct (unique_loop_spec first rest Hs) as [Hi Hu].
  assert ((if len (first :: rest) <? 2 then first :: rest
    else if adjacent (λ a b, bool_decide (a = b)) (first :: rest) then first :: unique_loop first rest else first :: rest)
    = first :: unique_loop first rest) as ->.
  { destruct (Z.ltb_spec (len (first :: rest)) 2) as [Hlen|].
    - destruct rest; [done|]. rewrite !len_cons in Hlen. pose proof (len_nonneg rest). lia.
    - destruct (adjacent _ _) eqn:Hadj; [done|]. by rewrite unique_loop_same. }
  split; [done|]. intros t. by rewrite Hu, Hin.
Qed.

Lemma size_list_to_set_le `{Countable A} (l : list A) : (size (list_to_set l : gset A) <= length l)%nat.
Proof.
  induction l as [|x l IH]; cbn; [by rewrite size_empty|]. rewrite size_union_alt, size_singleton.
  assert (size ((list_to_set l : gset A) ∖ {[x]}) <= size (list_to_set l : gset A))%nat; [|lia].
  apply subseteq_size. set_solver.
Qed.

(** The tags below one of the first [n] of an increasing list. *)
Lemma below_taken (l : list Tag) (ids : gset Tag) n t :
  increasing Compare l → (∀ u, u ∈ l ↔ u ∈ ids) → t ∈ take n l → (size (filter (λ u, (Compare u t < 0)%Z) ids) < n)%nat.
Proof.
  intros Hl Hids (a & b & Hab)%list_elem_of_split.
  assert (length a < n)%nat as Ha.
  { pose proof (length_take l n) as Hn. rewrite Hab, length_app in Hn. cbn in Hn. lia. }
  assert (l = a ++ t :: b ++ drop n l) as Hsplit by (rewrite <-(take_drop n l) at 1; by rewrite Hab, <-app_assoc).
  apply (Nat.le_lt_trans _ (length a)); [|done].
  transitivity (size (list_to_set a : gset Tag)); [|apply size_list_to_set_le].
  apply subseteq_size. intros u [Hu Hin%Hids]%elem_of_filter. rewrite elem_of_list_to_set.
  rewrite Hsplit in Hl, Hin. apply elem_of_app in Hin as [?|Hin]; [done|]. exfalso.
  assert (increasing Compare (t :: b ++ drop n l)) as [_ Hb]%StronglySorted_inv by (by eapply StronglySorted_app_1_r).
  apply elem_of_cons in Hin as [->|Hin]; [rewrite (cmp_refl Compare) in Hu; lia|].
  rewrite Forall_forall in Hb. specialize (Hb u Hin). cbn in Hb. rewrite (cmp_anti Compare u t) in Hb. lia.
Qed.

(** The simple collector is bounded. A collection asks for at most [MaxBatch] of
    the smallest tombstones, removes only tombstones it asked for, keeps at least
    [MinRetained] of them, and leaves what the target shows alone; when it fails the
    target is unchanged. *)
Theorem SimpleCollector_Collect_spec {T} `{!TombstoneTarget T} `{!TombstoneTargetLaws T} (policy : SimplePolicy)
    (c : SimpleCollector) (target : T) (Hnew : NewSimpleCollector policy = Ok c) (Hok : tt_ok target) :
  ∃ target' res, SimpleCollector_Collect (Some c) (Some target) = (Some target', res) ∧
    match res with
    | Ok n => ∃ gone : gset Tag, n = Z.of_nat (size gone) ∧ n <= sp_MaxBatch policy ∧
        gone ⊆ tt_ids target ∧ tt_ids target' = tt_ids target ∖ gone ∧ tt_view target' = tt_view target ∧
        sp_MinRetained policy `min` Z.of_nat (size (tt_ids target)) <= Z.of_nat (size (tt_ids target')) ∧
        (∀ t, t ∈ gone → Z.of_nat (size (filter (λ u, Compare u t < 0) (tt_ids target))) < sp_MaxBatch policy)
    | Err e => target' = target
    end.
Proof.
  unfold NewSimpleCollector in Hnew. destruct (_ || _ || _) eqn:Hpol; [done|]. injection Hnew as <-. breflect.
  unfold SimpleCollector_Collect, validateTombstones. cbn [sc_policy].
  assert (forallb Valid (tt_TombstoneTags target) = true) as ->.
  { apply forallb_forall. intros t Ht%list_elem_of_In. by eapply tt_tags_valid, tt_tags_ids. }
  destruct (canonical_spec (tt_TombstoneTags target)) as [Hinc Hin]. set (l := canonicalSimpleTombstones _) in *.
  assert (∀ u, u ∈ l ↔ u ∈ tt_ids target) as Hids by (intros u; by rewrite Hin, tt_tags_ids).
  assert (len l = Z.of_nat (size (tt_ids target))) as Hlen.
  { unfold len. f_equal. rewrite <-(size_list_to_set (C := gset Tag) l) by (by apply (increasing_NoDup Compare)).
    f_equal. apply set_eq. intros u. by rewrite elem_of_list_to_set. }
  destruct (Z.leb_spec (len l) (sp_MinRetained policy)).
  { eexists _, _. split; [done|]. exists ∅. split_and!; [done|lia|set_solver|set_solver|done|lia|set_solver]. }
  set (count := if sp_MaxBatch policy <? _ then _ else _).
  assert (0 <= count <= sp_MaxBatch policy ∧ count <= len l - sp_MinRetained policy) as Hcount.
  { unfold count. destruct (Z.ltb_spec (sp_MaxBatch policy) (len l - sp_MinRetained policy)); lia. }
  pose proof (tt_compact_spec target (take (Z.to_nat count) l) Hok) as Hspec.
  destruct (compact_target _ _) as [target' res]. eexists _, _. split; [done|]. destruct res as [n|e]; [|done].
  destruct Hspec as (_ & Hv & gone & Hsub & Hgone & Hids' & Hn).
  assert (size gone <= Z.to_nat count)%nat as Hsize.
  { transitivity (size (list_to_set (take (Z.to_nat count) l) : gset Tag)).
    - apply subseteq_size. intros t Ht. rewrite elem_of_list_to_set. auto.
    - etrans; [apply size_list_to_set_le|]. rewrite length_take. lia. }
  exists gone. split_and!; [done|lia|done|done|done| |].
  - rewrite Hids', size_difference by done. lia.
  - intros t Ht. pose proof (below_taken l (tt_ids target) _ t Hinc Hids (Hgone t Ht)). lia.
Qed.

(** ** Example *)

Definition two_members : Coordinator := co_clear (str "g") 1 (list_to_set [str "a"; str "b"]).

(** Two members acknowledge a tag, which is then pruned. *)
Lemma Coordinator_refines_ledger_witness :
  let t := mkTag (str "r") 1 0 in
  let ops := [OpAcknowledge (str "g") (str "a") 1 [t]; OpAcknowledge (str "g") (str "b") 1 [t; t]; OpPrune (str "g") 1 [t]] in
  ∃ c c', NewCoordinator (str "g") [str "a"; str "b"] = Ok c ∧
    co_run (Some c) ops = (Some c', [ReplyUnit (Ok tt); ReplyUnit (Ok tt); ReplyCount (Ok 2)]) ∧
    stableTombstonesLocked c' [t] = [].
Proof.
  intros t ops. assert (NewCoordinator (str "g") [str "a"; str "b"] = Ok two_members) as Hnew by (vm_compute; reflexivity).
  pose proof (Coordinator_refines_ledger (str "g") [str "a"; str "b"] two_members ops Hnew) as H.
  destruct (ledger_run _ ops) as [l' replies] eqn:Hl. destruct H as (c' & Hrun & _ & _ & Hst).
  assert (replies = [ReplyUnit (Ok tt); ReplyUnit (Ok tt); ReplyCount (Ok 2)]) as Hr.
  { change replies with (l', replies).2. rewrite <-Hl. vm_compute. reflexivity. }
  assert (filter (acked_by_all l') [t] = []) as Hf.
  { change l' with (l', replies).1. rewrite <-Hl. vm_compute. reflexivity. }
  exists two_members, c'. split; [exact Hnew|]. rewrite Hrun, Hst, Hr, Hf. split; reflexivity.
Defined.
