(* ===== verification/TombstoneTargets.v ===== *)
(** * Collectable types

    The OR-Set, the LWW map and the text RGA as targets of tombstone collection:
    their methods implement the interface and keep its promises. *)

From S2P Require Import Prelude Tags Forest Clock Codec ORSet TagIndex LWWMap LWWMapTheory RGA RGAOrder RGAStore RGATheory RGAText RGACompact.
From S2P Require Import TombstoneGC TombstoneGCTheory.

(** A nil pointer holds nothing. *)
Definition ptr_all {A} (P : A → Prop) (p : ptr A) : Prop := match p with None => True | Some a => P a end.

Lemma sorted_tags (ids : gset Tag) :
  increasing Compare (sort_by Compare (elements ids)) ∧ ∀ t, t ∈ sort_by Compare (elements ids) ↔ t ∈ ids.
Proof.
  split; [apply (sort_by_increasing Compare), NoDup_elements|].
  intros t. by rewrite (sort_by_perm Compare), elem_of_elements.
Qed.

(** ** OR-Set *)

Section orset_target.
Context {T : Type} `{Countable T}.

#[export] Instance orset_target : TombstoneTarget (ptr (ORSet T)) := {|
  tt_TombstoneTags := ORSet_TombstoneTags;
  tt_CompactTombstones := ORSet_CompactTombstones;
  tt_CompactEligibleTombstones := None
|}.

Definition orset_ids (s : ptr (ORSet T)) : gset Tag := match s with None => ∅ | Some o => os_tombstones o end.

#[export] Program Instance orset_target_laws : TombstoneTargetLaws (ptr (ORSet T)) := {|
  tt_ok := ptr_all orset_wf;
  tt_ids := orset_ids;
  tt_view := λ s, os_elements <$> s
|}.
Next Obligation. intros [o|] t Ho Ht; [|by apply not_elem_of_empty in Ht]. by apply Ho; right. Qed.
Next Obligation. intros [o|] Ho; [apply sorted_tags|constructor]. Qed.
Next Obligation. intros [o|] t Ho; [apply sorted_tags|]. cbn. by rewrite elem_of_nil. Qed.
Next Obligation.
  intros [o|] tags Ho; [|done]. pose proof (compact_wf o tags) as Hw. unfold compact_target. cbn [tt_CompactEligibleTombstones tt_CompactTombstones orset_target].
  unfold ORSet_CompactTombstones in *. destruct (negb _); [done|]. rewrite compact_fold in *.
  specialize (Hw _ _ Ho eq_refl) as (Hwf & _ & _ & _). split; [done|]. split; [done|].
  exists (os_tombstones o ∩ list_to_set tags). cbn. split_and!; [set_solver|set_solver|set_solver|].
  rewrite size_difference_alt. pose proof (subseteq_size (os_tombstones o ∩ list_to_set tags) (os_tombstones o)).
  assert (os_tombstones o ∩ list_to_set tags ⊆ os_tombstones o) by set_solver. intuition lia.
Qed.

(** [Coordinator.AcknowledgeAndCompact] *)
Definition AcknowledgeAndCompact (c : ptr Coordinator) (groupID member : bytes) (epoch : Z) (tombstones : list Tag)
    (target : ptr (ORSet T)) : ptr Coordinator * ptr (ORSet T) * result Z :=
  match target with
  | None => (c, target, Err ErrNilORSet)
  | Some _ =>
      let '(c, target', res) := AcknowledgeAndCompactTarget c groupID member epoch tombstones (Some target) in
      (c, default target target', res)
  end.

(** [Coordinator.AcknowledgeSetAndCompact] *)
Definition AcknowledgeSetAndCompact (c : ptr Coordinator) (groupID member : bytes) (epoch : Z)
    (acknowledged target : ptr (ORSet T)) : ptr Coordinator * ptr (ORSet T) * result Z :=
  match acknowledged with
  | None => (c, target, Err ErrNilORSet)
  | Some _ => AcknowledgeAndCompact c groupID member epoch (ORSet_TombstoneTags acknowledged) target
  end.
End orset_target.

(** ** LWW map *)

#[export] Instance lwwmap_target : TombstoneTarget (ptr LWWMap) := {|
  tt_TombstoneTags := LWWMap_TombstoneTags;
  tt_CompactTombstones := LWWMap_CompactTombstones;
  tt_CompactEligibleTombstones := None
|}.

(** The tags of the delete markers. *)
Definition markers (es : gmap bytes mapEntry) : list Tag :=
  (λ e : bytes * mapEntry, me_tag e.2) <$> filter (λ e : bytes * mapEntry, me_present e.2 = false) (map_to_list es).

Lemma elem_of_markers es t : t ∈ markers es ↔ ∃ k e, es !! k = Some e ∧ me_tag e = t ∧ me_present e = false.
Proof.
  unfold markers. rewrite list_elem_of_fmap. split.
  - intros ([k e] & -> & [Hp He%elem_of_map_to_list]%list_elem_of_filter). eauto.
  - intros (k & e & He & <- & Hp). exists (k, e). split; [done|]. apply list_elem_of_filter.
    by rewrite elem_of_map_to_list.
Qed.

Lemma NoDup_markers es tags : index_ok me_tag es tags → NoDup (markers es).
Proof.
  intros Hd%index_distinct. apply NoDup_fmap_2_strong; [|apply NoDup_filter, NoDup_map_to_list].
  intros [k1 e1] [k2 e2] [_ H1%elem_of_map_to_list]%list_elem_of_filter [_ H2%elem_of_map_to_list]%list_elem_of_filter Heq.
  assert (k1 = k2) as -> by (by eapply Hd). congruence.
Qed.

Lemma NoDup_entry_tags (es : gmap bytes mapEntry) : tags_distinct me_tag es →
  NoDup ((λ e : bytes * mapEntry, me_tag e.2) <$> map_to_list es).
Proof.
  intros Hd. apply NoDup_fmap_2_strong; [|apply NoDup_map_to_list].
  intros [k1 e1] [k2 e2] H1%elem_of_map_to_list H2%elem_of_map_to_list Heq.
  assert (k1 = k2) as -> by (by eapply Hd). congruence.
Qed.

(** The entries of the tags [tags] are as many as their tags. *)
Lemma removed_entries (es : gmap bytes mapEntry) (tags : list Tag) : tags_distinct me_tag es →
  ∃ gone : gset Tag, (∀ t, t ∈ gone ↔ t ∈ tags ∧ ∃ k e, es !! k = Some e ∧ me_tag e = t) ∧
    Z.of_nat (size es) - Z.of_nat (size (filter (λ ke : bytes * mapEntry, me_tag ke.2 ∉ tags) es)) = Z.of_nat (size gone).
Proof.
  intros Hd. set (out := filter (λ ke : bytes * mapEntry, me_tag ke.2 ∈ tags) es).
  assert (tags_distinct me_tag out) as Hd'.
  { intros k1 k2 e1 e2 [H1 _]%map_lookup_filter_Some [H2 _]%map_lookup_filter_Some. by apply Hd. }
  exists (list_to_set ((λ e : bytes * mapEntry, me_tag e.2) <$> map_to_list out)). split.
  - intros t. rewrite elem_of_list_to_set, list_elem_of_fmap. split.
    + intros ([k e] & -> & [He Ht]%elem_of_map_to_list%map_lookup_filter_Some). eauto.
    + intros (Ht & k & e & He & <-). exists (k, e). split; [done|].
      apply elem_of_map_to_list, map_lookup_filter_Some. done.
  - rewrite size_list_to_set by (by apply NoDup_entry_tags). rewrite length_fmap, length_map_to_list.
    rewrite <-(map_filter_union_complement (λ ke : bytes * mapEntry, me_tag ke.2 ∈ tags) es) at 1.
    rewrite map_size_disj_union by apply map_disjoint_filter_complement. fold out. lia.
Qed.

#[export] Program Instance lwwmap_target_laws : TombstoneTargetLaws (ptr LWWMap) := {|
  tt_ok := ptr_all lwwmap_wf;
  tt_ids := λ m, match m with None => ∅ | Some m => list_to_set (markers (lm_entries m)) end;
  tt_view := λ m, (λ m, filter (λ ke : bytes * mapEntry, me_present ke.2 = true) (lm_entries m)) <$> m
|}.
Next Obligation.
  intros [m|] t Hm Ht; [|by apply not_elem_of_empty in Ht].
  apply elem_of_list_to_set, elem_of_markers in Ht as (k & e & He & <- & _).
  destruct Hm as (h & _ & _ & Hes & _). apply (Hes k e He).
Qed.
Next Obligation.
  intros [m|] Hm; [|constructor]. destruct Hm as (h & _ & _ & _ & Hi).
  by eapply (sort_by_increasing Compare), NoDup_markers.
Qed.
Next Obligation.
  intros [m|] t Hm; [|cbn; by rewrite elem_of_nil]. cbn. rewrite (sort_by_perm Compare), elem_of_list_to_set. done.
Qed.
Next Obligation.
  intros [m|] tags Hm; [|done]. pose proof Hm as (h & _ & _ & _ & Hi). pose proof (LWWMap_compacted m tags Hm) as H.
  unfold compact_target. cbn [tt_CompactEligibleTombstones tt_CompactTombstones lwwmap_target].
  destruct (LWWMap_CompactTombstones _ _) as [[m'|] [n|e]]; [|by destruct H as (_ & [= ->] & _)|done|by destruct H as (_ & ? & _)].
  destruct H as (Hdead & (Hwf & Hes & _) & Hn). split; [done|]. split.
  { cbn. f_equal. rewrite Hes, map_filter_filter. apply map_filter_ext. intros k e He. cbn. split; [by intros []|].
    intros Hp. split; [done|]. intros Ht. destruct (Hdead _ Ht) as [_ []]. exists k, e. done. }
  destruct (removed_entries (lm_entries m) tags) as (gone & Hgone & Hsize); [by eapply index_distinct|].
  rewrite <-Hes in Hsize. exists gone. split_and!; [| | |lia].
  - intros t (Ht & k & e & He & <-)%Hgone. apply elem_of_list_to_set, elem_of_markers. exists k, e. split_and!; [done..|].
    destruct (me_present e) eqn:Hp; [|done]. destruct (Hdead _ Ht) as [_ []]. exists k, e. done.
  - intros t (Ht & _)%Hgone. done.
  - apply set_eq. intros t. cbn. rewrite elem_of_difference, !elem_of_list_to_set, !elem_of_markers, Hgone, Hes.
    setoid_rewrite map_lookup_filter_Some. cbn. naive_solver.
Qed.

(** ** Text *)

#[export] Instance rga_target : TombstoneTarget (ptr RGA) := {|
  tt_TombstoneTags := RGA_TombstoneTags;
  tt_CompactTombstones := RGA_CompactTombstones;
  tt_CompactEligibleTombstones := Some CompactEligibleTombstones
|}.

#[export] Program Instance rga_target_laws : TombstoneTargetLaws (ptr RGA) := {|
  tt_ok := ptr_all rga_wf;
  tt_ids := λ r, match r with None => ∅ | Some r => rg_tombstones r end;
  tt_view := λ r, (VisibleRunes r, RGA_String r)
|}.
Next Obligation. intros [r|] t Hr Ht; [|by apply not_elem_of_empty in Ht]. by apply (wf_tombstones r Hr). Qed.
Next Obligation. intros [r|] Hr; [apply sorted_tags|constructor]. Qed.
Next Obligation. intros [r|] t Hr; [apply sorted_tags|]. cbn. by rewrite elem_of_nil. Qed.
Next Obligation.
  intros [r|] tags Hr; [|done]. pose proof (eligible_compacted r tags Hr) as H.
  unfold compact_target. cbn [tt_CompactEligibleTombstones rga_target].
  destruct (CompactEligibleTombstones _ _) as [[r'|] [n|e]]; [|by destruct H as [-> _]|done..].
  destruct H as (gone & Hn & Hgone & Hwf & Hv & Hs & Ht & _). split; [done|]. split; [cbn -[VisibleRunes RGA_String]; congruence|].
  exists gone. split_and!; [|by intros t (? & _)%Hgone|done|done]. by intros t (_ & ? & _)%Hgone.
Qed.

(** ** Examples

    The text ["abc"] with its last two runes deleted, in a group of two members:
    one has acknowledged both tombstones, the other reports them and collects. *)

Definition gone_tags : list Tag := [mkTag (str "b") 2 0; mkTag (str "b") 3 0].
Definition acked_once : Coordinator := (acknowledgeLocked two_members (str "g") (str "a") 1 gone_tags).1.
Definition acked_twice : Coordinator := (acknowledgeLocked acked_once (str "g") (str "b") 1 gone_tags).1.

(** The state in which the second member's call has decided what to collect. *)
Definition deciding (t : ptr RGA) : system :=
  mkSystem acked_twice t {[0%nat := Decided (stableTombstonesLocked acked_twice (tt_TombstoneTags t))]}
    (logged 1 (str "a") gone_tags ∪ logged 1 (str "b") gone_tags).

Lemma acked_pair c m : (acknowledgeLocked c (str "g") m 1 gone_tags).2 = Ok tt →
  acknowledgeLocked c (str "g") m 1 gone_tags = ((acknowledgeLocked c (str "g") m 1 gone_tags).1, Ok tt).
Proof. intros <-. apply surjective_pairing. Qed.

Lemma tail_ok : tt_ok tail_state.
Proof. destruct tail_wf as (r & -> & Hwf). exact Hwf. Qed.

Lemma deciding_reachable (t : ptr RGA) : tt_ok t → sys_reachable (str "g") [str "a"; str "b"] (deciding t).
Proof.
  intros Ht. set (listed := Listed (str "g") (str "b") 1 gone_tags (tt_TombstoneTags t)).
  assert (sys_reachable (str "g") [str "a"; str "b"] (mkSystem two_members t ∅ ∅)) as H0.
  { apply sys_init; [reflexivity|exact Ht]. }
  assert (validateTombstones gone_tags = Ok tt) as Hv by (vm_compute; reflexivity).
  assert (co_step (Some two_members) (OpAcknowledge (str "g") (str "a") 1 gone_tags) = (Some acked_once, ReplyUnit (Ok tt))) as Hack.
  { cbn [co_step Coordinator_Acknowledge]. rewrite Hv, (acked_pair two_members (str "a")) by (vm_compute; reflexivity). reflexivity. }
  pose proof (sys_next _ _ _ _ _ H0 (step_op _ t ∅ ∅ _ _ _ Hack ltac:(discriminate))) as H1.
  pose proof (sys_next _ _ _ _ _ H1 (step_list _ t ∅ _ 0%nat (str "g") (str "b") 1 gone_tags (lookup_empty _) Hv)) as H2.
  assert (acknowledgeLocked acked_once (str "g") (str "b") 1 gone_tags = (acked_twice, Ok tt)) as Hack2
    by (apply acked_pair; vm_compute; reflexivity).
  pose proof (sys_next _ _ _ _ _ H2 (step_decide _ t _ _ 0%nat _ _ _ _ _ _ (lookup_insert_eq ∅ 0%nat listed) Hack2)) as H3.
  rewrite insert_insert_eq, insert_empty, (left_id_L ∅ union) in H3. exact H3.
Qed.

Lemma Coordinator_collects_acknowledged_witness :
  ∃ s', sys_step (deciding tail_state) true s' ∧ RGA_TombstoneTags (sy_target s') = [] ∧ RGA_String (sy_target s') = str "a".
Proof.
  pose proof (deciding_reachable tail_state tail_ok) as Hreach. set (t := tail_state) in Hreach |- *.
  assert (RGA_TombstoneTags (compact_target t (stableTombstonesLocked acked_twice (tt_TombstoneTags t))).1 = []) as Ht
    by (vm_compute; reflexivity).
  assert (RGA_String t = str "a") as Hs by (vm_compute; reflexivity). clearbody t.
  destruct (compact_target t _) as [t' res] eqn:Hc.
  assert (sys_step (deciding t) true (mkSystem acked_twice t' (delete 0%nat (sy_calls (deciding t))) (sy_log (deciding t)))) as Hstep.
  { exact (step_collect _ t _ _ 0%nat _ t' res (lookup_singleton_eq _ _) Hc). }
  destruct (Coordinator_collects_acknowledged _ _ _ _ Hreach Hstep) as (Hv & _).
  eexists. split; [exact Hstep|]. split; [exact Ht|]. rewrite <-Hs. exact (f_equal snd Hv).
Defined.

Lemma SimpleCollector_Collect_spec_witness :
  ∃ r', SimpleCollector_Collect (Some (mkSimpleCollector (mkSimplePolicy 0 8))) (Some tail_state) = (Some r', Ok 2) ∧
    RGA_String r' = str "a".
Proof.
  pose proof tail_ok as Hok. set (t := tail_state) in Hok |- *. set (c := mkSimpleCollector (mkSimplePolicy 0 8)).
  assert ((SimpleCollector_Collect (Some c) (Some t)).2 = Ok 2) as Hres by (vm_compute; reflexivity).
  assert (RGA_String t = str "a") as Hs by (vm_compute; reflexivity). clearbody t.
  destruct (SimpleCollector_Collect_spec (mkSimplePolicy 0 8) c t eq_refl Hok) as (r' & res & Heq & H).
  rewrite Heq in Hres |- *. cbn [snd] in Hres. subst res. exists r'. split; [reflexivity|].
  destruct H as (gone & _ & _ & _ & _ & Hv & _). rewrite <-Hs. exact (f_equal snd Hv).
Defined.
