(* ===== verification/Sha256.v ===== *)
(** * SHA-256

    [crypto/sha256.Sum256] of Go's standard library, which src/merkle and
    src/replica use for digests (FIPS 180-4, sections 4 to 6). *)

From S2P Require Import Prelude.

Section sha256.

(** Words are 32-bit integers. *)
Definition u32 (x : Z) : Z := Z.land x 0xffffffff.
Definition rotr (n x : Z) : Z := u32 (Z.lor (Z.shiftr x n) (Z.shiftl x (32 - n))).
Definition not32 (x : Z) : Z := Z.lxor x 0xffffffff.

Definition Ch (x y z : Z) : Z := Z.lxor (Z.land x y) (Z.land (not32 x) z).
Definition Maj (x y z : Z) : Z := Z.lxor (Z.lxor (Z.land x y) (Z.land x z)) (Z.land y z).
Definition Sigma0 (x : Z) : Z := Z.lxor (Z.lxor (rotr 2 x) (rotr 13 x)) (rotr 22 x).
Definition Sigma1 (x : Z) : Z := Z.lxor (Z.lxor (rotr 6 x) (rotr 11 x)) (rotr 25 x).
Definition sigma0 (x : Z) : Z := Z.lxor (Z.lxor (rotr 7 x) (rotr 18 x)) (Z.shiftr x 3).
Definition sigma1 (x : Z) : Z := Z.lxor (Z.lxor (rotr 17 x) (rotr 19 x)) (Z.shiftr x 10).

(** The constants of the standard are the first 32 bits of the fractional parts
    of roots of primes. [root_bits e k x n] completes the [k] low bits of [x] to
    the integer part of the [e]-th root of [n]. *)
Definition prime_b (n : Z) : bool := forallb (λ d, negb (n `mod` d =? 0)) (seqZ 2 (n - 2)).
Definition first_primes (n : nat) : list Z := take n (filter (λ p, prime_b p = true) (seqZ 2 310)).
Fixpoint root_bits (e : Z) (k : nat) (x n : Z) : Z :=
  match k with
  | O => x
  | S k' => let y := x + 2 ^ Z.of_nat k' in root_bits e k' (if y ^ e <=? n then y else x) n
  end.
Definition root_fraction (e p : Z) : Z := u32 (root_bits e 40 0 (p * 2 ^ (32 * e))).

Definition K256 : list Z := Eval vm_compute in root_fraction 3 <$> first_primes 64.

(** The eight working variables. *)
Record hash_state := mkState { ha : Z; hb : Z; hc : Z; hd : Z; he : Z; hf : Z; hg : Z; hh : Z }.

Definition H256 : hash_state := Eval vm_compute in
  match root_fraction 2 <$> first_primes 8 with
  | [a; b; c; d; e; f; g; h] => mkState a b c d e f g h
  | _ => mkState 0 0 0 0 0 0 0 0
  end.

(** Big-endian words and bytes. *)
Definition word_of (b0 b1 b2 b3 : byte) : Z :=
  Z.shiftl (byteZ b0) 24 + Z.shiftl (byteZ b1) 16 + Z.shiftl (byteZ b2) 8 + byteZ b3.
Fixpoint words_of (s : bytes) : list Z :=
  match s with
  | b0 :: b1 :: b2 :: b3 :: s' => word_of b0 b1 b2 b3 :: words_of s'
  | _ => []
  end.
Definition word_bytes (w : Z) : bytes :=
  [Zbyte (Z.shiftr w 24); Zbyte (Z.shiftr w 16); Zbyte (Z.shiftr w 8); Zbyte w].
Definition state_bytes (h : hash_state) : bytes :=
  word_bytes (ha h) ++ word_bytes (hb h) ++ word_bytes (hc h) ++ word_bytes (hd h) ++
  word_bytes (he h) ++ word_bytes (hf h) ++ word_bytes (hg h) ++ word_bytes (hh h).

(** The padded message: a one bit, zeros, and the length in bits. *)
Definition pad (s : bytes) : bytes :=
  let n := len s in
  s ++ Byte.x80 :: replicate (Z.to_nat ((55 - n) `mod` 64)) Byte.x00 ++
    word_bytes (Z.shiftr (8 * n) 32) ++ word_bytes (8 * n).

(** One round, with its constant and schedule word. *)
Definition round (h : hash_state) (kw : Z * Z) : hash_state :=
  let t1 := u32 (hh h + Sigma1 (he h) + Ch (he h) (hf h) (hg h) + kw.1 + kw.2) in
  let t2 := u32 (Sigma0 (ha h) + Maj (ha h) (hb h) (hc h)) in
  mkState (u32 (t1 + t2)) (ha h) (hb h) (hc h) (u32 (hd h + t1)) (he h) (hf h) (hg h).

(** The schedule, latest word first. *)
Fixpoint expand (n : nat) (ws : list Z) : list Z :=
  match n with
  | O => ws
  | S n' => expand n'
      (u32 (sigma1 (nth 1 ws 0) + nth 6 ws 0 + sigma0 (nth 14 ws 0) + nth 15 ws 0) :: ws)
  end.
Definition schedule (block : list Z) : list Z := rev (expand 48 (rev block)).

Definition block_step (h : hash_state) (block : list Z) : hash_state :=
  let h' := foldl round h (zip K256 (schedule block)) in
  mkState (u32 (ha h + ha h')) (u32 (hb h + hb h')) (u32 (hc h + hc h')) (u32 (hd h + hd h'))
    (u32 (he h + he h')) (u32 (hf h + hf h')) (u32 (hg h + hg h')) (u32 (hh h + hh h')).

(** The padded message is a whole number of 16-word blocks. *)
Fixpoint blocks (n : nat) (ws : list Z) (h : hash_state) : hash_state :=
  match n with
  | O => h
  | S n' => blocks n' (drop 16 ws) (block_step h (take 16 ws))
  end.

Definition Sum256 (s : bytes) : bytes :=
  let ws := words_of (pad s) in
  state_bytes (blocks (length ws / 16) ws H256).
End sha256.

(** A digest is 32 bytes. *)
Definition sha256_Size : Z := 32.

Lemma len_Sum256 s : len (Sum256 s) = sha256_Size.
Proof. done. Qed.

(** The test vectors of the standard. *)
Example sha256_abc :
  words_of (Sum256 (str "abc")) =
    [0xba7816bf; 0x8f01cfea; 0x414140de; 0x5dae2223; 0xb00361a3; 0x96177a9c; 0xb410ff61; 0xf20015ad].
Proof. vm_compute. reflexivity. Qed.

Example sha256_two_blocks :
  words_of (Sum256 (str "abcdbcdecdefdefgefghfghighijhijkijkljklmklmnlmnomnopnopq")) =
    [0x248d6a61; 0xd20638b8; 0xe5c02693; 0x0c3e6039; 0xa33ce459; 0x64ff2167; 0xf6ecedd4; 0x19db06c1].
Proof. vm_compute. reflexivity. Qed.
