(* ===== verification/Merkle.v ===== *)
(** * Merkle digests

    src/merkle/tree.go: a map of keys to digests with a deterministic root, which
    replicas compare before they exchange states. The root is cached per
    generation of the map. *)

From S2P Require Import Prelude Tags Wire SortedCodec Frame Sha256.

(** ** The tree *)

(** [[sha256.Size]byte] is a list of 32 bytes. *)
Definition zeroDigest : bytes := replicate 32 Init.Byte.x00.

Record Tree := mkTree {
  tr_entries : gmap bytes bytes;
  tr_generation : Z;
  tr_cachedRoot : bytes;
  tr_cachedRootFor : Z;
  tr_hasCachedRoot : bool;
}.

(** [NewTree] *)
Definition NewTree : Tree := mkTree ∅ 0 zeroDigest 0 false.

(** The map changes and [invalidateRootLocked] runs. *)
Definition invalidateRootLocked (t : Tree) (entries : gmap bytes bytes) : Tree :=
  mkTree entries (u64 (tr_generation t + 1)) (tr_cachedRoot t) (tr_cachedRootFor t) false.

(** [Tree.InsertDigest] *)
Definition Tree_InsertDigest (t : ptr Tree) (key digest : bytes) : ptr Tree :=
  match t with
  | None => None
  | Some tr =>
      if bool_decide (tr_entries tr !! key = Some digest) then t
      else Some (invalidateRootLocked tr (<[key := digest]> (tr_entries tr)))
  end.

(** [Tree.Insert] *)
Definition Tree_Insert (t : ptr Tree) (key value : bytes) : ptr Tree := Tree_InsertDigest t key (Sum256 value).

(** [Tree.Delete] *)
Definition Tree_Delete (t : ptr Tree) (key : bytes) : ptr Tree :=
  match t with
  | None => None
  | Some tr =>
      if bool_decide (tr_entries tr !! key = None) then t
      else Some (invalidateRootLocked tr (delete key (tr_entries tr)))
  end.

(** [Tree.InsertState] *)
Definition Tree_InsertState `{Flate} (t : ptr Tree) (key state : bytes) : ptr Tree * result unit :=
  match UnmarshalFrame state DefaultLimits with
  | Err _ => (t, Err ErrMerkleInvalidState)
  | Ok _ => (Tree_Insert t key state, Ok tt)
  end.

(** [Tree.Entries] *)
Definition Tree_Entries (t : ptr Tree) : list (bytes * bytes) :=
  match t with None => [] | Some tr => sorted_entries bytes_compare (tr_entries tr) end.

(** ** Roots *)

(** [emptyRoot] *)
Definition emptyRoot : bytes := Sum256 [Zbyte 2].

(** A leaf and an inner node, with their domain separators. *)
Definition leaf_bytes (entry : bytes * bytes) : bytes :=
  Zbyte 0 :: putUvarint (len entry.1) ++ entry.1 ++ entry.2.
Definition inner_bytes (left right : bytes) : bytes := Zbyte 1 :: left ++ right.

(** One level of [rootForEntries]; an odd node is paired with a zero digest. *)
Fixpoint pair_up (leaves : list bytes) : list bytes :=
  match leaves with
  | [] => []
  | [l] => [Sum256 (inner_bytes l zeroDigest)]
  | l :: r :: leaves' => Sum256 (inner_bytes l r) :: pair_up leaves'
  end.

(** The loop of [rootForEntries]. *)
Fixpoint root_loop (fuel : nat) (leaves : list bytes) : bytes :=
  match fuel, leaves with
  | S fuel', _ :: _ :: _ => root_loop fuel' (pair_up leaves)
  | _, leaf :: _ => leaf
  | _, [] => zeroDigest
  end.

(** [rootForEntries] *)
Definition rootForEntries (entries : list (bytes * bytes)) : bytes :=
  match entries with
  | [] => emptyRoot
  | _ =>
      let leaves := (λ e, Sum256 (leaf_bytes e)) <$> sort_by (λ l r, bytes_compare l.1 r.1) entries in
      root_loop (length leaves) leaves
  end.

(** [snapshotEntries] *)
Definition snapshotEntries (source : gmap bytes bytes) : list (bytes * bytes) := map_to_list source.

(** The parts of [Tree.Root] under its two locks: read the cache or take a
    snapshot; install the root when the generation is still that of the snapshot. *)
Definition root_read (t : Tree) : bytes + (list (bytes * bytes) * Z) :=
  if tr_hasCachedRoot t && (tr_cachedRootFor t =? tr_generation t) then inl (tr_cachedRoot t)
  else inr (snapshotEntries (tr_entries t), tr_generation t).
Definition root_install (t : Tree) (root : bytes) (generation : Z) : Tree :=
  if tr_generation t =? generation
  then mkTree (tr_entries t) (tr_generation t) root generation true
  else t.

(** [Tree.Root], when no other call comes between its parts. *)
Definition Tree_Root (t : ptr Tree) : ptr Tree * bytes :=
  match t with
  | None => (None, emptyRoot)
  | Some tr =>
      match root_read tr with
      | inl root => (t, root)
      | inr (entries, generation) =>
          let root := rootForEntries entries in (Some (root_install tr root generation), root)
      end
  end.

(** ** Differences *)

(** The keys on one side only, and the keys with two digests. *)
Definition only_in (left right : gmap bytes bytes) : list bytes :=
  sort_by bytes_compare (filter (λ e : bytes * bytes, right !! e.1 = None) (map_to_list left)).*1.
Definition changed_in (left right : gmap bytes bytes) : list bytes :=
  sort_by bytes_compare
    (filter (λ e : bytes * bytes, right !! e.1 ≠ None ∧ right !! e.1 ≠ Some e.2) (map_to_list left)).*1.

Record difference := mkDifference { leftOnly : list bytes; rightOnly : list bytes; different : list bytes }.

(** [Diff], with the trees it leaves; both arguments may be one tree. *)
Definition Diff (left : ptr Tree) (right : peer Tree) : ptr Tree * peer Tree * difference :=
  let '(left', leftRoot) := Tree_Root (Some (default NewTree left)) in
  let '(right', rightRoot) :=
    match right with
    | PNil => Tree_Root (Some NewTree)
    | PSelf => Tree_Root left'
    | PObj r => Tree_Root (Some r)
    end in
  let leftEntries := tr_entries (default NewTree left') in
  let rightEntries := tr_entries (default NewTree right') in
  let left := match left with None => None | Some _ => match right with PSelf => right' | _ => left' end end in
  let right := match right, right' with PObj _, Some r => PObj r | _, _ => right end in
  (left, right,
   if bool_decide (leftRoot = rightRoot) then mkDifference [] [] []
   else mkDifference (only_in leftEntries rightEntries) (only_in rightEntries leftEntries) (changed_in leftEntries rightEntries)).
