(* ===== verification/MerkleTheory.v ===== *)
(** * Merkle digests: theory

    A root commits to the entries: two trees with one root have the same entries,
    or the messages hashed for the two roots contain a SHA-256 collision or a
    message with the zero digest. The cached root is the root of the entries in
    every interleaving. *)

From S2P Require Import Prelude Tags Wire SortedCodec Frame Sha256 Merkle.

#[local] Opaque Sum256.

(** ** The hashed messages *)

(** What would break the hash function among the messages [P]. *)
Definition broken_in (P : bytes → Prop) : Prop :=
  (∃ x y, P x ∧ P y ∧ x ≠ y ∧ Sum256 x = Sum256 y) ∨ ∃ x, P x ∧ Sum256 x = zeroDigest.

Lemma broken_mono (P Q : bytes → Prop) : (∀ x, P x → Q x) → broken_in P → broken_in Q.
Proof. intros HPQ [(x & y & Hx & Hy & H)|(x & Hx & H)]; [left; exists x, y|right; exists x]; auto. Qed.

(** The messages of the level above, given the digests of a level. *)
Fixpoint inner_messages (X : list bytes) : list bytes :=
  match X with
  | [] => []
  | [l] => [inner_bytes l zeroDigest]
  | l :: r :: X' => inner_bytes l r :: inner_messages X'
  end.

(** Two elements at a time. *)
Lemma pairs_ind {A} (P : list A → Prop) :
  P [] → (∀ x, P [x]) → (∀ x y l, P l → P (x :: y :: l)) → ∀ l, P l.
Proof.
  intros H0 H1 H2. fix IH 1. intros [|x [|y l]]; [done|apply H1|apply H2, IH].
Qed.

Lemma pair_up_messages X : pair_up X = Sum256 <$> inner_messages X.
Proof. induction X as [|x|x y X IH] using pairs_ind; [reflexivity..|]. cbn [pair_up inner_messages fmap list_fmap]. by rewrite IH. Qed.

Lemma length_inner X : (2 * length (inner_messages X) <= length X + 1)%nat.
Proof. induction X as [|x|x y X IH] using pairs_ind; cbn [inner_messages length]; lia. Qed.

(** The messages of the levels over [ms], and all that [rootForEntries] hashes. *)
Definition level (ms : list bytes) : list bytes := inner_messages (Sum256 <$> ms).
Definition levels (n : nat) (ms : list bytes) : list bytes := Nat.iter n level ms.
Fixpoint root_messages (fuel : nat) (ms : list bytes) : list bytes :=
  ms ++ match fuel, ms with S fuel', _ :: _ :: _ => root_messages fuel' (level ms) | _, _ => [] end.
Definition messages (entries : gmap bytes bytes) : list bytes :=
  match sorted_entries bytes_compare entries with
  | [] => [[Zbyte 2]]
  | l => root_messages (length l) (leaf_bytes <$> l)
  end.

Lemma levels_S n ms : levels (S n) ms = level (levels n ms).
Proof. done. Qed.
Lemma levels_shift n ms : levels (S n) ms = levels n (level ms).
Proof. apply Nat.iter_succ_r. Qed.

(** The loop returns the single digest of a top level. *)
Lemma root_loop_levels fuel ms : ms ≠ [] → (length ms <= fuel)%nat →
  ∃ n, Sum256 <$> levels n ms = [root_loop fuel (Sum256 <$> ms)] ∧
    ∀ j x, (j <= n)%nat → x ∈ levels j ms → x ∈ root_messages fuel ms.
Proof.
  revert ms. induction fuel as [|fuel IH]; intros ms Hne Hlen; [by destruct ms; cbn in Hlen; [|lia]|].
  destruct ms as [|a [|b ms]]; [done|..].
  - exists 0%nat. split; [reflexivity|]. intros j x Hj. assert (j = 0%nat) as -> by lia. exact (λ H, H).
  - pose proof (length_inner (Sum256 <$> a :: b :: ms)) as Hl. rewrite length_fmap in Hl.
    destruct (IH (level (a :: b :: ms))) as (n & Hn & Hin).
    { intros Hnil. discriminate Hnil. }
    { unfold level. cbn [length] in *. lia. }
    exists (S n). split.
    + rewrite levels_shift, Hn. f_equal. rewrite fmap_cons, fmap_cons. cbn [root_loop].
      by rewrite pair_up_messages.
    + intros [|j] x Hj Hx; cbn [root_messages]; apply elem_of_app; [by left|right].
      rewrite levels_shift in Hx. apply (Hin j); [lia|done].
Qed.

(** ** Commitment *)

Lemma digests_inj (A B : list bytes) : Sum256 <$> A = Sum256 <$> B → A = B ∨ broken_in (λ x, x ∈ A ∨ x ∈ B).
Proof.
  revert B. induction A as [|a A IH]; intros [|b B]; [by left|discriminate..|].
  rewrite !fmap_cons. intros [Hab HAB]%cons_eq. destruct (decide (a = b)) as [->|Hne].
  - destruct (IH B HAB) as [->|Hb]; [by left|right]. eapply broken_mono; [|exact Hb]. intros x. rewrite !elem_of_cons. tauto.
  - right. left. exists a, b. rewrite !elem_of_cons. tauto.
Qed.

Lemma digest_length x : length (Sum256 x) = 32%nat.
Proof. pose proof (len_Sum256 x) as H. unfold len, sha256_Size in H. lia. Qed.

Lemma inner_inj l r l' r' : length l = length l' → inner_bytes l r = inner_bytes l' r' → l = l' ∧ r = r'.
Proof. intros Hl [_ Heq]%cons_eq. by apply app_inj_1 in Heq. Qed.

(** One level determines the digests of the level below. *)
Lemma level_inj (M N : list bytes) : level M = level N → Sum256 <$> M = Sum256 <$> N ∨ broken_in (λ x, x ∈ M ∨ x ∈ N).
Proof.
  revert N. induction M as [|a|a a' M IH] using pairs_ind; intros N; destruct N as [|b [|b' N]]; unfold level;
    rewrite ?fmap_cons; cbn [inner_messages]; try discriminate; [by left|..]; intros [Heq Hrest]%cons_eq;
    apply inner_inj in Heq as [H1 H2]; try (by rewrite !digest_length).
  - left. by rewrite H1.
  - right. right. exists b'. split; [|done]. rewrite !elem_of_cons. tauto.
  - right. right. exists a'. split; [|done]. rewrite !elem_of_cons. tauto.
  - rewrite H1, H2. destruct (IH N Hrest) as [->|Hb]; [by left|right]. eapply broken_mono; [|exact Hb].
    intros x. rewrite !elem_of_cons. tauto.
Qed.

Definition is_leaf (x : bytes) : Prop := ∃ e, x = leaf_bytes e.

(** No message of an upper level is a leaf. *)
Lemma level_not_leaf (M : list bytes) x : x ∈ level M → ¬ is_leaf x.
Proof.
  unfold level. generalize (Sum256 <$> M). intros X.
  induction X as [|a|a b X IH] using pairs_ind; cbn [inner_messages]; rewrite ?elem_of_cons, ?elem_of_nil.
  - done.
  - intros [->|[]] (e & He). discriminate He.
  - intros [->|Hx]; [|by apply IH]. intros (e & He). discriminate He.
Qed.

Lemma levels_inj n m (M N : list bytes) : Forall is_leaf M → Forall is_leaf N → M ≠ [] → N ≠ [] →
  Sum256 <$> levels n M = Sum256 <$> levels m N →
  M = N ∨ broken_in (λ x, (∃ j, (j <= n)%nat ∧ x ∈ levels j M) ∨ ∃ j, (j <= m)%nat ∧ x ∈ levels j N).
Proof.
  intros HM HN HM0 HN0. revert m. induction n as [|n IH]; intros m Heq.
  all: destruct (digests_inj _ _ Heq) as [Hlv|Hb]; [|right; eapply broken_mono; [|exact Hb]; intros x [?|?]; [left|right]; eauto].
  - destruct m as [|m]; [by left|]. destruct M as [|x M]; [done|]. exfalso.
    apply (level_not_leaf (levels m N) x); [rewrite <-levels_S, <-Hlv; by left|]. by apply Forall_cons in HM as [? _].
  - destruct m as [|m].
    { destruct N as [|x N]; [done|]. exfalso. apply (level_not_leaf (levels n M) x); [rewrite <-levels_S, Hlv; by left|].
      by apply Forall_cons in HN as [? _]. }
    rewrite !levels_S in Hlv. destruct (level_inj _ _ Hlv) as [Hd|Hb].
    + destruct (IH m Hd) as [?|Hb]; [by left|right]. eapply broken_mono; [|exact Hb].
      intros x [(j & ? & ?)|(j & ? & ?)]; [left|right]; exists j; (split; [lia|done]).
    + right. eapply broken_mono; [|exact Hb]. intros x [?|?]; [left; exists n|right; exists m]; (split; [lia|done]).
Qed.

(** Keys are as long as a Go string can be. *)
Definition keys_ok (entries : gmap bytes bytes) : Prop := map_Forall (λ k _, len_ok k) entries.

Lemma leaf_inj e e' : len_ok e.1 → len_ok e'.1 → leaf_bytes e = leaf_bytes e' → e = e'.
Proof.
  destruct e as [k d], e' as [k' d']. cbn [fst]. intros Hk Hk' [_ Heq]%cons_eq. cbn [fst snd] in Heq.
  change (putUvarint (len k) ++ k ++ d = putUvarint (len k') ++ k' ++ d') in Heq.
  rewrite !app_assoc in Heq. by apply bytes_enc_app_inj in Heq as [-> ->].
Qed.

Lemma leaves_inj (l l' : list (bytes * bytes)) :
  Forall (λ e, len_ok e.1) l → Forall (λ e, len_ok e.1) l' → leaf_bytes <$> l = leaf_bytes <$> l' → l = l'.
Proof.
  revert l'. induction l as [|e l IH]; intros [|e' l']; [done|discriminate..|].
  rewrite !fmap_cons. intros [He Hl]%Forall_cons [He' Hl']%Forall_cons [H1 H2]%cons_eq.
  f_equal; [by apply leaf_inj|by apply IH].
Qed.

Lemma Forall_leaf (l : list (bytes * bytes)) : Forall is_leaf (leaf_bytes <$> l).
Proof. apply Forall_fmap, Forall_true. intros e. by exists e. Qed.

(** The root of a map. *)
Definition root_of (entries : gmap bytes bytes) : bytes := rootForEntries (snapshotEntries entries).

Lemma sorted_nonempty (E : gmap bytes bytes) : E ≠ ∅ → leaf_bytes <$> sorted_entries bytes_compare E ≠ [].
Proof.
  intros HE Hnil%fmap_nil_inv. pose proof (sorted_entries_perm bytes_compare E) as Hp. rewrite Hnil in Hp.
  apply Permutation_nil_l in Hp. by apply HE, map_to_list_empty_iff.
Qed.

Lemma root_of_levels (E : gmap bytes bytes) : E ≠ ∅ →
  ∃ n, Sum256 <$> levels n (leaf_bytes <$> sorted_entries bytes_compare E) = [root_of E] ∧
    ∀ j x, (j <= n)%nat → x ∈ levels j (leaf_bytes <$> sorted_entries bytes_compare E) → x ∈ messages E.
Proof.
  intros HE. unfold root_of, rootForEntries, messages, snapshotEntries.
  assert (map_to_list E ≠ []) as Hne by (by intros ?%map_to_list_empty_iff).
  fold (sorted_entries bytes_compare E).
  pose proof (sorted_nonempty E HE) as Hs.
  destruct (map_to_list E) as [|e0 l0]; [done|]. destruct (sorted_entries bytes_compare E) as [|e l]; [done|].
  destruct (root_loop_levels (length (e :: l)) (leaf_bytes <$> e :: l)) as (n & Hn & Hin); [done|by rewrite length_fmap|].
  exists n. split; [|done]. rewrite Hn. f_equal. rewrite length_fmap. f_equal.
  rewrite <-list_fmap_compose. reflexivity.
Qed.

Lemma upper_not_empty n (M : list bytes) x : Forall is_leaf M → x ∈ levels n M → x ≠ [Zbyte 2].
Proof.
  intros HM Hx ->. destruct n as [|n].
  - rewrite Forall_forall in HM. destruct (HM _ Hx) as (e & He). discriminate He.
  - rewrite levels_S in Hx. revert Hx. unfold level. generalize (Sum256 <$> levels n M). intros X.
    induction X as [|a|a b X IH] using pairs_ind; cbn [inner_messages]; rewrite ?elem_of_cons, ?elem_of_nil.
    + done.
    + intros [Heq|[]]. discriminate Heq.
    + intros [Heq|Hx]; [discriminate Heq|by apply IH].
Qed.

Lemma root_commits (E1 E2 : gmap bytes bytes) : keys_ok E1 → keys_ok E2 → root_of E1 = root_of E2 →
  E1 = E2 ∨ broken_in (λ x, x ∈ messages E1 ∨ x ∈ messages E2).
Proof.
  assert (∀ E : gmap bytes bytes, E ≠ ∅ → root_of ∅ = root_of E → ∃ x, x ∈ messages E ∧ x ≠ [Zbyte 2] ∧ Sum256 x = Sum256 [Zbyte 2]) as Hempty.
  { intros E HE Heq. destruct (root_of_levels E HE) as (n & Hn & Hin).
    destruct (levels n _) as [|x l] eqn:Hl; [discriminate Hn|]. exists x.
    assert (x ∈ levels n (leaf_bytes <$> sorted_entries bytes_compare E)) as Hx by (rewrite Hl; by left).
    split; [by apply (Hin n)|]. split; [by eapply upper_not_empty; [apply Forall_leaf|exact Hx]|].
    rewrite fmap_cons in Hn. apply cons_eq in Hn as [-> _]. exact (eq_sym Heq). }
  intros HE1 HE2 Heq. destruct (decide (E1 = ∅)) as [->|H1], (decide (E2 = ∅)) as [->|H2]; [by left|..].
  - destruct (Hempty E2 H2 Heq) as (x & Hx & Hne & Hc). right. left. exists x, [Zbyte 2].
    split_and!; [by right|left; by left|done|done].
  - destruct (Hempty E1 H1 (eq_sym Heq)) as (x & Hx & Hne & Hc). right. left. exists x, [Zbyte 2].
    split_and!; [by left|right; by left|done|done].
  - destruct (root_of_levels E1 H1) as (n & Hn & Hin1), (root_of_levels E2 H2) as (m & Hm & Hin2).
    rewrite Heq, <-Hm in Hn. apply levels_inj in Hn; [|apply Forall_leaf|apply Forall_leaf|by apply sorted_nonempty|by apply sorted_nonempty].
    destruct Hn as [Hl|Hb].
    + left. rewrite <-(list_to_map_sorted bytes_compare E1), <-(list_to_map_sorted bytes_compare E2). f_equal.
      apply leaves_inj; [by apply Forall_sorted_entries..|done].
    + right. eapply broken_mono; [|exact Hb]. intros x [(j & ? & ?)|(j & ? & ?)]; [left|right]; eauto.
Qed.

(** ** The cached root

    Calls of [Root] run between writes: each takes a snapshot with the generation
    it belongs to, hashes without a lock, and installs its root afterwards. *)

Inductive tree_write := WInsert (key value : bytes) | WInsertDigest (key digest : bytes) | WDelete (key : bytes).

Definition write (t : ptr Tree) (w : tree_write) : ptr Tree :=
  match w with
  | WInsert k v => Tree_Insert t k v
  | WInsertDigest k d => Tree_InsertDigest t k d
  | WDelete k => Tree_Delete t k
  end.

Abbreviation root_calls := (gmap nat (list (bytes * bytes) * Z)).

(** [tree_run n t calls]: after [n] writes the tree is [t], and the calls of [Root]
    in flight hold the snapshots [calls]. *)
Inductive tree_run : nat → Tree → root_calls → Prop :=
| run_new : tree_run 0 NewTree ∅
| run_write n t calls w t' : tree_run n t calls → write (Some t) w = Some t' → tree_run (S n) t' calls
| run_read n t calls k entries generation :
    tree_run n t calls → calls !! k = None → root_read t = inr (entries, generation) →
    tree_run n t (<[k := (entries, generation)]> calls)
| run_install n t calls k entries generation :
    tree_run n t calls → calls !! k = Some (entries, generation) →
    tree_run n (root_install t (rootForEntries entries) generation) (delete k calls).

(** The generation counts the writes that changed something; a snapshot of the
    current generation is a snapshot of the current entries. *)
Definition tree_inv (n : nat) (t : Tree) (calls : root_calls) : Prop :=
  0 <= tr_generation t <= Z.of_nat n ∧
  (tr_hasCachedRoot t = true → tr_cachedRootFor t = tr_generation t → tr_cachedRoot t = root_of (tr_entries t)) ∧
  ∀ k entries generation, calls !! k = Some (entries, generation) →
    generation <= tr_generation t ∧ (generation = tr_generation t → rootForEntries entries = root_of (tr_entries t)).

Lemma invalidate_inv n t calls entries : Z.of_nat (S n) < 2 ^ 64 → tree_inv n t calls →
  tree_inv (S n) (invalidateRootLocked t entries) calls.
Proof.
  intros Hn (Hg & _ & Hcalls). unfold tree_inv. cbn [invalidateRootLocked tr_generation tr_hasCachedRoot].
  rewrite u64_small by (unfold is_u64; lia). split_and!; [lia|lia|done|].
  intros k es g Hk. destruct (Hcalls k es g Hk) as [Hle _]. split; lia.
Qed.

Lemma tree_run_inv n t calls : Z.of_nat n < 2 ^ 64 → tree_run n t calls → tree_inv n t calls.
Proof.
  intros Hn Hrun. induction Hrun as [|n t calls w t' Hrun IH Hw|n t calls k es g Hrun IH Hk Hr|n t calls k es g Hrun IH Hk].
  - split_and!; [done..|]. by intros k es g Hk%lookup_empty_Some.
  - specialize (IH ltac:(lia)). assert (tree_inv (S n) t calls) as Hsame by (destruct IH as (? & ? & ?); split_and!; [lia|lia|done..]).
    assert (∀ k d t1, Tree_InsertDigest (Some t) k d = Some t1 → tree_inv (S n) t1 calls) as Hins.
    { intros k d t1. cbn [Tree_InsertDigest]. case_bool_decide; intros H1; apply (inj Some) in H1 as <-; [done|].
      by apply invalidate_inv. }
    destruct w as [k v|k d|k]; cbn [write] in Hw; [by eapply Hins|by eapply Hins|].
    cbn [Tree_Delete] in Hw. case_bool_decide; apply (inj Some) in Hw as <-; [done|]. by apply invalidate_inv.
  - destruct (IH Hn) as (Hg & Hc & Hcalls). split_and!; [lia|lia|done|]. intros k' es' g'.
    rewrite lookup_insert_Some. intros [[_ [= <- <-]]|[_ Hk']]; [|by apply Hcalls in Hk'].
    unfold root_read in Hr. destruct (_ && _); [done|]. injection Hr as <- <-. done.
  - destruct (IH Hn) as (Hg & Hc & Hcalls). destruct (Hcalls k es g Hk) as [Hle Hroot]. unfold root_install.
    assert (∀ k' es' g', delete k calls !! k' = Some (es', g') →
      g' <= tr_generation t ∧ (g' = tr_generation t → rootForEntries es' = root_of (tr_entries t))) as Hdel.
    { intros k' es' g'. rewrite lookup_delete_Some. intros [_ Hk']. by apply Hcalls in Hk'. }
    destruct (Z.eqb_spec (tr_generation t) g) as [<-|].
    + unfold tree_inv. cbn [tr_generation tr_cachedRoot tr_entries]. split_and!; [lia|lia| |done]. intros _ _. by apply Hroot.
    + split_and!; [lia|lia|done|done].
Qed.

(** A tree whose next call of [Root] returns the root of its entries. *)
Lemma Root_current n t calls : Z.of_nat n < 2 ^ 64 → tree_run n t calls →
  ∃ t', Tree_Root (Some t) = (Some t', root_of (tr_entries t)) ∧ tr_entries t' = tr_entries t.
Proof.
  intros Hn Hrun. destruct (tree_run_inv n t calls Hn Hrun) as (_ & Hc & _). unfold Tree_Root, root_read.
  destruct (tr_hasCachedRoot t && _) eqn:Hcached.
  - apply andb_true_iff in Hcached as [Hh He%Z.eqb_eq]. rewrite (Hc Hh He). by exists t.
  - eexists. split; [reflexivity|]. unfold root_install. by rewrite Z.eqb_refl.
Qed.

(** C10: a root commits to the entries. In every interleaving of writes and calls of
    [Root], two trees with the same entries have the same root, and two trees with
    the same root have the same entries, unless the messages hashed for the two
    roots contain a collision or a message with the zero digest. *)
Theorem Merkle_root_commits (n1 n2 : nat) (t1 t2 : Tree) (calls1 calls2 : root_calls)
    (Hrun1 : tree_run n1 t1 calls1) (Hrun2 : tree_run n2 t2 calls2) (Hn1 : Z.of_nat n1 < 2 ^ 64) (Hn2 : Z.of_nat n2 < 2 ^ 64)
    (Hk1 : keys_ok (tr_entries t1)) (Hk2 : keys_ok (tr_entries t2)) :
  (tr_entries t1 = tr_entries t2 → (Tree_Root (Some t1)).2 = (Tree_Root (Some t2)).2) ∧
  ((Tree_Root (Some t1)).2 = (Tree_Root (Some t2)).2 →
     tr_entries t1 = tr_entries t2 ∨ broken_in (λ x, x ∈ messages (tr_entries t1) ∨ x ∈ messages (tr_entries t2))).
Proof.
  destruct (Root_current n1 t1 calls1 Hn1 Hrun1) as (t1' & -> & _), (Root_current n2 t2 calls2 Hn2 Hrun2) as (t2' & -> & _).
  cbn [snd]. split; [by intros ->|]. by apply root_commits.
Qed.

Lemma elem_of_only_in (E1 E2 : gmap bytes bytes) k : k ∈ only_in E1 E2 ↔ is_Some (E1 !! k) ∧ E2 !! k = None.
Proof.
  unfold only_in. rewrite (sort_by_perm bytes_compare), list_elem_of_fmap. split.
  - intros ([k' d] & -> & [Hn Hd%elem_of_map_to_list]%list_elem_of_filter). eauto.
  - intros [[d Hd] Hn]. exists (k, d). split; [done|]. apply list_elem_of_filter. by rewrite elem_of_map_to_list.
Qed.

Lemma elem_of_changed_in (E1 E2 : gmap bytes bytes) k :
  k ∈ changed_in E1 E2 ↔ ∃ d1 d2, E1 !! k = Some d1 ∧ E2 !! k = Some d2 ∧ d1 ≠ d2.
Proof.
  unfold changed_in. rewrite (sort_by_perm bytes_compare), list_elem_of_fmap. split.
  - intros ([k' d] & -> & [[Hn Hd'] Hd%elem_of_map_to_list]%list_elem_of_filter). cbn in *.
    destruct (E2 !! k') as [d'|] eqn:He; [|done]. exists d, d'. split_and!; [done..|congruence].
  - intros (d1 & d2 & H1 & H2 & Hne). exists (k, d1). split; [done|]. apply list_elem_of_filter.
    rewrite elem_of_map_to_list. cbn. split; [|done]. rewrite H2. split; [done|congruence].
Qed.

Lemma sorted_filtered (P : bytes * bytes → Prop) `{!∀ e, Decision (P e)} (E : gmap bytes bytes) :
  increasing bytes_compare (sort_by bytes_compare (filter P (map_to_list E)).*1).
Proof.
  apply (sort_by_increasing bytes_compare). eapply sublist_NoDup; [apply (NoDup_fst_map_to_list E)|].
  apply fmap_sublist, sublist_filter.
Qed.

(** [Diff] reports, in increasing order, exactly the keys only one tree has and
    the keys the trees bind to different digests, unless it was misled by equal
    roots of different entries, which the hashed messages then exhibit as a
    collision or a zero digest. *)
Theorem Merkle_Diff_spec (n1 n2 : nat) (t1 t2 : Tree) (calls1 calls2 : root_calls)
    (Hrun1 : tree_run n1 t1 calls1) (Hrun2 : tree_run n2 t2 calls2) (Hn1 : Z.of_nat n1 < 2 ^ 64) (Hn2 : Z.of_nat n2 < 2 ^ 64)
    (Hk1 : keys_ok (tr_entries t1)) (Hk2 : keys_ok (tr_entries t2)) :
  let '(t1', t2', d) := Diff (Some t1) (PObj t2) in
  increasing bytes_compare (leftOnly d) ∧ increasing bytes_compare (rightOnly d) ∧ increasing bytes_compare (different d) ∧
  ((∀ k, k ∈ leftOnly d ↔ is_Some (tr_entries t1 !! k) ∧ tr_entries t2 !! k = None) ∧
   (∀ k, k ∈ rightOnly d ↔ is_Some (tr_entries t2 !! k) ∧ tr_entries t1 !! k = None) ∧
   (∀ k, k ∈ different d ↔ ∃ d1 d2, tr_entries t1 !! k = Some d1 ∧ tr_entries t2 !! k = Some d2 ∧ d1 ≠ d2) ∨
   d = mkDifference [] [] [] ∧ broken_in (λ x, x ∈ messages (tr_entries t1) ∨ x ∈ messages (tr_entries t2))).
Proof.
  unfold Diff. change (default NewTree (Some t1)) with t1.
  destruct (Root_current n1 t1 calls1 Hn1 Hrun1) as (t1' & -> & He1), (Root_current n2 t2 calls2 Hn2 Hrun2) as (t2' & -> & He2).
  change (default NewTree (Some t1')) with t1'. change (default NewTree (Some t2')) with t2'. rewrite He1, He2.
  case_bool_decide as Hroot; cbn [leftOnly rightOnly different].
  - split_and!; [constructor..|]. destruct (root_commits _ _ Hk1 Hk2 Hroot) as [Heq|Hb]; [left|by right]. rewrite Heq.
    split_and!; intros k; rewrite elem_of_nil; split; try done.
    + by intros [[d ->] ?].
    + by intros [[d ->] ?].
    + intros (d1 & d2 & H1 & H2 & []). congruence.
  - split_and!; [apply sorted_filtered..|]. left.
    split_and!; intros k; [apply elem_of_only_in..|apply elem_of_changed_in].
Qed.

(** ** Examples *)

Definition inserted (t : Tree) (key : string) (value : string) : Tree :=
  default NewTree (Tree_Insert (Some t) (str key) (str value)).
Definition tree_ab : Tree := inserted (inserted NewTree "a" "1") "b" "2".
Definition tree_ba : Tree := inserted (inserted NewTree "b" "2") "a" "1".
Definition tree_ac : Tree := inserted (inserted NewTree "a" "1") "b" "3".

Lemma inserted_run n t calls key value : tree_run n t calls → tree_run (S n) (inserted t key value) calls.
Proof.
  intros Hrun. apply (run_write n t calls (WInsert (str key) (str value))); [done|].
  unfold inserted. cbn [write Tree_Insert Tree_InsertDigest]. case_bool_decide; reflexivity.
Qed.

Lemma example_keys (t : Tree) : forallb (λ e, len e.1 <=? maxInt) (map_to_list (tr_entries t)) = true → keys_ok (tr_entries t).
Proof.
  rewrite forallb_forall. intros H k d Hd. specialize (H (k, d)). rewrite <-list_elem_of_In, elem_of_map_to_list in H.
  by apply H, Z.leb_le in Hd.
Qed.

Lemma Merkle_root_commits_witness : (Tree_Root (Some tree_ab)).2 = (Tree_Root (Some tree_ba)).2.
Proof.
  apply (Merkle_root_commits 2 2 tree_ab tree_ba ∅ ∅).
  - do 2 apply inserted_run. exact run_new.
  - do 2 apply inserted_run. exact run_new.
  - reflexivity.
  - reflexivity.
  - apply example_keys. vm_compute. reflexivity.
  - apply example_keys. vm_compute. reflexivity.
  - vm_compute. reflexivity.
Defined.

Lemma Merkle_Diff_spec_witness : (Diff (Some tree_ab) (PObj tree_ac)).2 = mkDifference [] [] [str "b"] ∧
  increasing bytes_compare (different (Diff (Some tree_ab) (PObj tree_ac)).2).
Proof.
  assert ((Diff (Some tree_ab) (PObj tree_ac)).2 = mkDifference [] [] [str "b"]) as Hd by (vm_compute; reflexivity).
  assert (tree_run 2 tree_ab ∅) as Hab by (do 2 apply inserted_run; exact run_new).
  assert (tree_run 2 tree_ac ∅) as Hac by (do 2 apply inserted_run; exact run_new).
  assert (keys_ok (tr_entries tree_ab)) as Hkab by (apply example_keys; vm_compute; reflexivity).
  assert (keys_ok (tr_entries tree_ac)) as Hkac by (apply example_keys; vm_compute; reflexivity).
  split; [exact Hd|].
  pose proof (Merkle_Diff_spec 2 2 tree_ab tree_ac ∅ ∅ Hab Hac eq_refl eq_refl Hkab Hkac) as H.
  destruct (Diff (Some tree_ab) (PObj tree_ac)) as [[t1 t2] d]. destruct H as (_ & _ & H & _). exact H.
Defined.
