(* ===== verification/Batch.v ===== *)
(** * Delta batches

    src/delta/batch.go: bounded batches of encoded delta frames with a canonical
    envelope, and the coalescer that queues deltas or joins them into one, whose
    join runs outside its lock. *)

From S2P Require Import Prelude Tags Wire Frame.

(** [Batch] is its items. *)
Definition Batch : Type := list bytes.

(** [MergeFunc]; a nil function is [None]. The joins of the delta types are pure. *)
Definition MergeFunc : Type := bytes → bytes → result bytes.

Section batch.
Context `{F : Flate}.

Definition batchMagic : bytes := str "DBAT".
Definition maxMergeRetries : Z := 16.

(** [isDeltaType], [isDeltaFrame], [validateBatchItem] *)
Definition isDeltaType (typeID : Z) : bool := bool_decide (is_Some (FrameTypeForDelta typeID)).
Definition isDeltaFrame (item : bytes) : bool :=
  match UnmarshalFrame item DefaultLimits with Ok decoded => isDeltaType (TypeID decoded) | Err _ => false end.
Definition validateBatchItem (item : bytes) (remaining : Z) : result unit :=
  if (len item =? 0) || (remaining <? len item) then Err (ErrDelta DeltaLimit)
  else if negb (isDeltaFrame item) then Err (ErrDelta DeltaInvalid)
  else Ok tt.

(** The validation loop of [NewBatch] and [MarshalBinary]; returns the total. *)
Fixpoint batch_total (maxBytes total : Z) (items : list bytes) : result Z :=
  match items with
  | [] => Ok total
  | item :: items' =>
      _ ← validateBatchItem item (maxBytes - total); batch_total maxBytes (total + len item) items'
  end.

(** [NewBatch] *)
Definition NewBatch (items : list bytes) (maxBytes : Z) : result Batch :=
  if maxBytes <=? 0 then Err (ErrDelta DeltaLimit)
  else _ ← batch_total maxBytes 0 items; Ok items.

(** [Batch.MarshalBinary] *)
Definition Batch_MarshalBinary (b : Batch) (maxBytes : Z) : result bytes :=
  if maxBytes <=? 0 then Err (ErrDelta DeltaLimit)
  else
    _ ← batch_total maxBytes 0 b;
    Ok (foldl (λ encoded item, AppendUvarint encoded (len item) ++ item) (AppendUvarint batchMagic (len b)) b).

(** The body of the loop of [UnmarshalBatch]. *)
Definition batchStep (data : bytes) (maxBytes : Z) (i : Z) (acc : list bytes * Z) (pos : Z)
    : result ((list bytes * Z) * Z) :=
  let '(items, total) := acc in
  match ReadBytes data pos (maxBytes - total) with
  | None => Err (ErrDelta DeltaInvalid)
  | Some (item, next) =>
      if len item =? 0 then Err (ErrDelta DeltaInvalid)
      else if negb (isDeltaFrame item) then Err (ErrDelta DeltaInvalid)
      else Ok ((items ++ [item], total + len item), next)
  end.

(** [UnmarshalBatch] *)
Definition UnmarshalBatch (data : bytes) (maxItems maxBytes : Z) : result Batch :=
  let magicLen := len batchMagic in
  if (maxItems <=? 0) || (maxBytes <=? 0) || (len data <? magicLen) then Err (ErrDelta DeltaLimit)
  else if ((maxInt - magicLen - 10) / 10 <? maxItems) || (maxInt - magicLen - 10 - maxItems * 10 <? maxBytes) ||
          (maxBytes + magicLen + 10 + maxItems * 10 <? len data)
  then Err (ErrDelta DeltaLimit)
  else if negb (bool_decide (slice data 0 magicLen = batchMagic)) then Err (ErrDelta DeltaInvalid)
  else match ReadUvarint data magicLen with
  | None => Err (ErrDelta DeltaInvalid)
  | Some (count, pos) =>
      if maxItems <? count then Err (ErrDelta DeltaInvalid)
      else match read_loop (batchStep data maxBytes) (S (length data)) 0 count pos ([], 0) with
      | Err _ => Err (ErrDelta DeltaInvalid)
      | Ok ((items, _), pos) =>
          if negb (pos =? len data) then Err (ErrDelta DeltaInvalid) else Ok items
      end
  end.

(** ** The coalescer *)

Record Coalescer := mkCoalescer {
  cl_maxItems : Z; cl_maxBytes : Z; cl_merge : option MergeFunc;
  cl_typeID : Z; cl_codecID : bytes;
  cl_items : list bytes; cl_total : Z; cl_generation : Z }.

(** The fields a critical section writes; every write advances the generation. *)
Definition cl_update (c : Coalescer) (typeID : Z) (codecID : bytes) (items : list bytes) (total : Z) : Coalescer :=
  mkCoalescer (cl_maxItems c) (cl_maxBytes c) (cl_merge c) typeID codecID items total (u64 (cl_generation c + 1)).

(** [NewCoalescer] *)
Definition NewCoalescer (maxItems maxBytes : Z) (merge : option MergeFunc) : result Coalescer :=
  if (maxItems <=? 0) || (maxBytes <=? 0) then Err (ErrDelta DeltaLimit)
  else Ok (mkCoalescer maxItems maxBytes merge 0 [] [] 0 0).

(** [Add] before its loop. *)
Definition add_check (maxBytes : Z) (item : bytes) : result Frame :=
  if (len item =? 0) || (maxBytes <? len item) then Err (ErrDelta DeltaLimit)
  else
    decoded ← UnmarshalFrame item DefaultLimits;
    if negb (isDeltaType (TypeID decoded)) then Err (ErrDelta DeltaInvalid) else Ok decoded.

(** The first critical section of the loop: it finishes the call, or hands out
    the tail to be joined, with the generation it belongs to. *)
Inductive add_entry :=
| AddDone (c : Coalescer) (res : result unit)
| AddMerge (merge : MergeFunc) (tail : bytes) (generation typeID : Z) (codecID : bytes).

Definition add_enter (c : Coalescer) (decoded : Frame) (item : bytes) : add_entry :=
  match last (cl_items c) with
  | None => AddDone (cl_update c (TypeID decoded) (CodecID decoded) [item] (len item)) (Ok tt)
  | Some tail =>
      if negb (TypeID decoded =? cl_typeID c) || negb (bool_decide (CodecID decoded = cl_codecID c))
      then AddDone c (Err (ErrDelta DeltaTypeMismatch))
      else match cl_merge c with
      | None =>
          if (len (cl_items c) =? cl_maxItems c) || (cl_maxBytes c - cl_total c <? len item)
          then AddDone c (Err (ErrDelta DeltaLimit))
          else AddDone (cl_update c (cl_typeID c) (cl_codecID c) (cl_items c ++ [item]) (cl_total c + len item)) (Ok tt)
      | Some merge => AddMerge merge tail (cl_generation c) (cl_typeID c) (cl_codecID c)
      end
  end.

(** The join, outside the lock, with the type and the codec read under it. *)
Definition add_join (merge : MergeFunc) (typeID : Z) (codecID tail item : bytes) : result bytes :=
  merged ← merge tail item;
  mergedFrame ← UnmarshalFrame merged DefaultLimits;
  if negb (TypeID mergedFrame =? typeID) || negb (bool_decide (CodecID mergedFrame = codecID))
  then Err (ErrDelta DeltaTypeMismatch) else Ok merged.

(** The second critical section: [None] when the generation has moved on. *)
Definition add_commit (c : Coalescer) (merged : bytes) (generation : Z) : option (Coalescer * result unit) :=
  if negb (cl_generation c =? generation) then None
  else
    let tail := default [] (last (cl_items c)) in
    if cl_maxBytes c - (cl_total c - len tail) <? len merged then Some (c, Err (ErrDelta DeltaLimit))
    else Some (cl_update c (cl_typeID c) (cl_codecID c) (removelast (cl_items c) ++ [merged])
                 (cl_total c + (len merged - len tail)), Ok tt).

(** The loop of [Add] when no other call comes between its sections. *)
Fixpoint add_loop (retries : nat) (c : Coalescer) (decoded : Frame) (item : bytes) : Coalescer * result unit :=
  match add_enter c decoded item with
  | AddDone c res => (c, res)
  | AddMerge merge tail generation typeID codecID =>
      match add_join merge typeID codecID tail item with
      | Err e => (c, Err e)
      | Ok merged =>
          match add_commit c merged generation with
          | Some (c, res) => (c, res)
          | None => match retries with
                    | O => (c, Err (ErrDelta DeltaMergeRetry))
                    | S retries' => add_loop retries' c decoded item
                    end
          end
      end
  end.

(** [Coalescer.Add] *)
Definition Coalescer_Add (c : ptr Coalescer) (item : bytes) : ptr Coalescer * result unit :=
  match c with
  | None => (None, Err (ErrDelta DeltaInvalid))
  | Some co =>
      match add_check (cl_maxBytes co) item with
      | Err e => (c, Err e)
      | Ok decoded => let '(co, res) := add_loop (Z.to_nat (maxMergeRetries - 1)) co decoded item in (Some co, res)
      end
  end.

(** [Coalescer.Drain] *)
Definition Coalescer_Drain (c : ptr Coalescer) : ptr Coalescer * Batch :=
  match c with
  | None => (None, [])
  | Some co => (Some (cl_update co 0 [] [] 0), cl_items co)
  end.

(** [Coalescer.Len] *)
Definition Coalescer_Len (c : ptr Coalescer) : Z * Z :=
  match c with None => (0, 0) | Some co => (len (cl_items co), cl_total co) end.

(** ** The envelope *)

(** An item that fits after the items [l]. *)
Definition next_item (maxBytes : Z) (l : list bytes) (item : bytes) : Prop :=
  0 < len item ∧ isDeltaFrame item = true ∧ len (concat l) + len item <= maxBytes.

Definition batch_abs (l : list bytes) : list bytes * Z := (l, len (concat l)).

Lemma batch_abs_snoc l item : (l ++ [item], len (concat l) + len item) = batch_abs (l ++ [item]).
Proof. unfold batch_abs. rewrite concat_app, len_app. cbn [concat]. by rewrite app_nil_r. Qed.

Lemma validateBatchItem_ok maxBytes l item :
  validateBatchItem item (maxBytes - len (concat l)) = Ok tt ↔ next_item maxBytes l item.
Proof.
  unfold validateBatchItem, next_item. pose proof (len_nonneg item).
  destruct (Z.eqb_spec (len item) 0), (Z.ltb_spec (maxBytes - len (concat l)) (len item)); simpl.
  1-3: split; [done|lia].
  destruct (isDeltaFrame item); simpl; (split; [intros; split_and?; try done; lia|tauto || naive_solver]).
Qed.

Lemma batch_total_iff maxBytes pre items t :
  accepted (next_item maxBytes) pre →
  batch_total maxBytes (len (concat pre)) items = Ok t ↔
  accepted (next_item maxBytes) (pre ++ items) ∧ t = len (concat (pre ++ items)).
Proof.
  revert pre. induction items as [|item items IH]; intros pre Hpre; cbn [batch_total].
  - rewrite app_nil_r. naive_solver.
  - destruct (validateBatchItem _ _) as [[]|] eqn:V.
    + apply validateBatchItem_ok in V. cbn [mbind result_bind].
      replace (len (concat pre) + len item) with (len (concat (pre ++ [item])))
        by (rewrite concat_app, len_app; cbn [concat]; by rewrite app_nil_r).
      rewrite IH by (by constructor). by rewrite <-app_assoc.
    + split; [done|]. intros [[_ V']%accepted_middle _].
      apply validateBatchItem_ok in V'. congruence.
Qed.

(** The envelope of a list of items. *)
Definition batch_envelope (items : list bytes) : bytes :=
  batchMagic ++ putUvarint (len items) ++ concat (bytes_enc <$> items).

Lemma batch_append items pre :
  foldl (λ encoded item, AppendUvarint encoded (len item) ++ item) pre items = pre ++ concat (bytes_enc <$> items).
Proof.
  revert pre. induction items as [|item items IH]; intros pre; [by rewrite app_nil_r|].
  rewrite fmap_cons. cbn [foldl concat]. rewrite IH. unfold AppendUvarint, bytes_enc. by rewrite <-!app_assoc.
Qed.

Lemma Batch_MarshalBinary_iff b maxBytes data :
  Batch_MarshalBinary b maxBytes = Ok data ↔
  0 < maxBytes ∧ accepted (next_item maxBytes) b ∧ data = batch_envelope b.
Proof.
  unfold Batch_MarshalBinary. destruct (Z.leb_spec maxBytes 0); [split; [done|lia]|].
  rewrite batch_append. pose proof (batch_total_iff maxBytes [] b) as Ht.
  change (len (concat [])) with 0 in Ht. cbn [app] in Ht.
  destruct (batch_total maxBytes 0 b) as [t|]; cbn [mbind result_bind].
  - destruct (proj1 (Ht t (accepted_nil _)) eq_refl) as [Hacc _].
    unfold batch_envelope, AppendUvarint. rewrite <-app_assoc. naive_solver.
  - split; [done|]. intros (_ & Hacc & _). discriminate (proj2 (Ht _ (accepted_nil _)) (conj Hacc eq_refl)).
Qed.

Lemma batchStep_ok data maxBytes l item pos rest :
  maxBytes <= maxInt →
  accepted (next_item maxBytes) l → next_item maxBytes l item → remaining data pos (bytes_enc item ++ rest) →
  batchStep data maxBytes (len l) (batch_abs l) pos = Ok (batch_abs (l ++ [item]), pos + len (bytes_enc item)).
Proof.
  intros Hm _ (Hne & Hf & Hfit) Hr. pose proof (len_nonneg (concat l)).
  apply (ReadBytes_ok _ _ (maxBytes - len (concat l))) in Hr as [R _]; [|unfold len_ok; lia|lia].
  cbn [batchStep batch_abs]. unfold batchStep, batch_abs at 1. rewrite R, Hf. guard_false. cbn [negb].
  by rewrite batch_abs_snoc.
Qed.

Lemma batchStep_inv data maxBytes l pos acc' pos' :
  accepted (next_item maxBytes) l → 0 <= pos <= len data →
  batchStep data maxBytes (len l) (batch_abs l) pos = Ok (acc', pos') →
  ∃ item rest, next_item maxBytes l item ∧ acc' = batch_abs (l ++ [item]) ∧
    pos' = pos + len (bytes_enc item) ∧ remaining data pos (bytes_enc item ++ rest).
Proof.
  intros _ _. unfold batchStep, batch_abs at 1.
  destruct (ReadBytes _ _ _) as [[item next]|] eqn:R; [|done].
  apply ReadBytes_inv in R as (_ & Hfit & -> & rest & Hr & _).
  destruct (Z.eqb_spec (len item) 0); [done|]. destruct (isDeltaFrame item) eqn:Hf; [|done].
  cbn [negb]. intros [= <- <-]. exists item, rest. pose proof (len_nonneg item).
  split; [split; [lia|split; [done|lia]]|]. by rewrite batch_abs_snoc.
Qed.

(** The envelope of accepted items passes the size guard of [UnmarshalBatch]. *)
Lemma batch_envelope_size maxBytes items :
  maxBytes <= maxInt → accepted (next_item maxBytes) items → len items <= maxInt →
  len (batch_envelope items) <= maxBytes `max` 0 + len batchMagic + 10 + len items * 10.
Proof.
  intros Hm Hacc Hi. unfold batch_envelope. rewrite !len_app.
  assert (len (putUvarint (len items)) <= 10).
  { pose proof (len_ok_u64 items Hi) as Hu. by apply UvarintSize_bounds in Hu as [_ ?]. }
  assert (len (concat (bytes_enc <$> items)) <= len (concat items) + len items * 10 ∧
    len (concat items) <= maxBytes `max` 0) as [? ?]; [|lia].
  clear - Hm Hacc. induction Hacc as [|l item Hl IH (Hne & _ & Hfit)]; [split; [done|change (len (concat (@nil bytes))) with 0; lia]|].
  rewrite fmap_app, !concat_app, !len_app. change (bytes_enc <$> [item]) with [bytes_enc item]. cbn [concat]. rewrite !app_nil_r, len_bytes_enc.
  pose proof (len_nonneg (concat l)).
  assert (UvarintSize (len item) <= 10).
  { assert (is_u64 (len item)) as Hu by (apply len_ok_u64; unfold len_ok; lia).
    by apply UvarintSize_bounds in Hu as [_ ?]. }
  rewrite len_cons, len_nil. lia.
Qed.

(** C23: the batch envelope. Within limits an [int] holds, decoding accepts exactly
    the bytes that encoding produces from a batch of that many items: every
    envelope decodes to the batch it was made of, there is one envelope per
    batch, and the size guard refuses none of them. *)
Theorem Batch_codec (data : bytes) (b : Batch) (maxItems maxBytes : Z)
    (Hitems : 0 < maxItems) (Hint : maxBytes + len batchMagic + 10 + maxItems * 10 <= maxInt) :
  UnmarshalBatch data maxItems maxBytes = Ok b ↔
  Batch_MarshalBinary b maxBytes = Ok data ∧ len b <= maxItems.
Proof.
  rewrite Batch_MarshalBinary_iff. unfold UnmarshalBatch. change (len batchMagic) with 4 in *.
  pose proof (len_nonneg b). destruct (Z.leb_spec maxBytes 0).
  { rewrite orb_true_r. split; [done|lia]. }
  assert (maxBytes <= maxInt) as HmB by lia.
  pose proof (read_loop_iff data (batchStep data maxBytes) bytes_enc (next_item maxBytes) batch_abs bytes_enc_pos
    (λ l e pos rest, batchStep_ok data maxBytes l e pos rest HmB) (batchStep_inv data maxBytes)) as Hloop.
  split.
  - destruct (_ || _ || _) eqn:G1; [done|]. destruct (_ || _ || _) eqn:G2 in |- *; [done|]. breflect.
    case_bool_decide as Hmagic; [|done]. cbn [negb].
    destruct (ReadUvarint data 4) as [[count pos]|] eqn:R; [|done].
    apply ReadUvarint_inv in R as (Hu & -> & r & Hr1 & Hr2). unfold is_u64 in Hu.
    destruct (Z.ltb_spec maxItems count); [done|]. change ([], 0) with (batch_abs []).
    destruct (read_loop _ _ _ _ _ _) as [[[items t] p]|] eqn:L; [|done].
    apply (Hloop count) in L as (l & rest & Hacc & <- & Habs & -> & Hr); [|lia|by destruct Hr2].
    destruct (negb _) eqn:G3; [done|]. breflect. intros [= ->]. injection Habs as -> _.
    split; [|done]. split; [lia|]. split; [done|]. unfold batch_envelope.
    rewrite (remaining_unique _ _ _ _ Hr2 Hr) in Hr1.
    assert (rest = []) as ->.
    { pose proof (remaining_len _ _ _ Hr) as Hlr. rewrite len_app in Hlr.
      destruct rest; [done|]. rewrite len_cons in Hlr. pose proof (len_nonneg rest). lia. }
    rewrite app_nil_r in Hr1. rewrite <-Hmagic, <-(proj2 Hr1).
    change (slice data 0 4) with (take 4 data). symmetry. apply (take_drop 4).
  - intros [(_ & Hacc & ->) Hmax].
    pose proof (batch_envelope_size maxBytes b HmB Hacc ltac:(lia)) as Hsize.
    change (len batchMagic) with 4 in Hsize.
    assert (4 <= len (batch_envelope b)) by
      (unfold batch_envelope; rewrite len_app; change (len batchMagic) with 4;
       pose proof (len_nonneg (putUvarint (len b) ++ concat (bytes_enc <$> b))); lia).
    assert (maxItems <= (maxInt - 4 - 10) / 10) by (apply Z.div_le_lower_bound; lia).
    guard_false.
    assert (slice (batch_envelope b) 0 4 = batchMagic) as -> by done.
    rewrite bool_decide_true by done. cbn [negb].
    assert (remaining (batch_envelope b) 4 (putUvarint (len b) ++ concat (bytes_enc <$> b) ++ [])) as Hr
      by (rewrite app_nil_r; apply (remaining_intro batchMagic)).
    apply ReadUvarint_ok in Hr as [R Hr]; [|apply len_ok_u64; unfold len_ok; lia].
    rewrite R. guard_false. pose proof (remaining_app _ _ _ _ Hr) as Hend%remaining_nil.
    change ([], 0) with (batch_abs []).
    rewrite (proj2 (Hloop (len b) _ (batch_abs b) (4 + UvarintSize (len b) +
      len (concat (bytes_enc <$> b))) (len_nonneg b) (proj1 Hr))) by (exists b, []; done).
    unfold batch_abs. rewrite Hend, Z.eqb_refl. cbn [negb]. by rewrite (proj2 (Z.ltb_ge _ _) Hmax).
Qed.
End batch.

Lemma Batch_codec_witness :
  let item := sealed (MarshalFrame (mkFrame 14 (str "raw") (str "a") 0 false)) in
  @UnmarshalBatch marker_flate (batch_envelope [item; item]) 2 32 = Ok [item; item].
Proof.
  intros item. refine (proj2 (@Batch_codec marker_flate (batch_envelope [item; item]) [item; item] 2 32 eq_refl _) _).
  - vm_compute. discriminate.
  - split; [vm_compute; reflexivity|vm_compute; discriminate].
Defined.
