(* ===== verification/BatchTheory.v ===== *)
(** * The coalescer under concurrent calls

    The join of [Coalescer.Add] (src/delta/batch.go) runs outside the lock, and
    the generation decides whether its result may replace the tail. The calls in
    flight are a transition system whose steps are the critical sections; the
    theorems say that no accepted delta is lost or joined twice in any
    interleaving and that a refused one changes nothing. *)

From S2P Require Import Prelude Tags Wire Frame Batch.

Section coalescer.
Context `{F : Flate}.

(** A call of [Add] between two critical sections. *)
Inductive add_call :=
| Entering (item : bytes) (decoded : Frame) (retries : Z)
| Merging (item : bytes) (decoded : Frame) (retries : Z)
    (merge : MergeFunc) (tail : bytes) (generation typeID : Z) (codecID : bytes).

(** The coalescer, the calls in flight by caller, and the items accepted since
    the last [Drain], in the order of their critical sections. *)
Record co_system := mkCoSystem {
  sys_co : Coalescer; sys_calls : gmap nat add_call; sys_log : list bytes }.

Definition logged (log : list bytes) (item : bytes) (res : result unit) : list bytes :=
  if is_ok res then log ++ [item] else log.

Inductive co_sys_step : co_system → co_system → Prop :=
| CoStart co calls log k item decoded :
    calls !! k = None → add_check (cl_maxBytes co) item = Ok decoded →
    co_sys_step (mkCoSystem co calls log) (mkCoSystem co (<[k := Entering item decoded 0]> calls) log)
| CoEnterDone co calls log k item decoded retries co' res :
    calls !! k = Some (Entering item decoded retries) → add_enter co decoded item = AddDone co' res →
    co_sys_step (mkCoSystem co calls log) (mkCoSystem co' (delete k calls) (logged log item res))
| CoEnterMerge co calls log k item decoded retries merge tail generation typeID codecID :
    calls !! k = Some (Entering item decoded retries) →
    add_enter co decoded item = AddMerge merge tail generation typeID codecID →
    co_sys_step (mkCoSystem co calls log)
      (mkCoSystem co (<[k := Merging item decoded retries merge tail generation typeID codecID]> calls) log)
| CoJoinError co calls log k item decoded retries merge tail generation typeID codecID e :
    calls !! k = Some (Merging item decoded retries merge tail generation typeID codecID) →
    add_join merge typeID codecID tail item = Err e →
    co_sys_step (mkCoSystem co calls log) (mkCoSystem co (delete k calls) log)
| CoCommit co calls log k item decoded retries merge tail generation typeID codecID merged co' res :
    calls !! k = Some (Merging item decoded retries merge tail generation typeID codecID) →
    add_join merge typeID codecID tail item = Ok merged → add_commit co merged generation = Some (co', res) →
    co_sys_step (mkCoSystem co calls log) (mkCoSystem co' (delete k calls) (logged log item res))
| CoRetry co calls log k item decoded retries merge tail generation typeID codecID merged :
    calls !! k = Some (Merging item decoded retries merge tail generation typeID codecID) →
    add_join merge typeID codecID tail item = Ok merged → add_commit co merged generation = None →
    co_sys_step (mkCoSystem co calls log)
      (mkCoSystem co (if maxMergeRetries - 1 <=? retries then delete k calls
                      else <[k := Entering item decoded (retries + 1)]> calls) log)
| CoDrain co calls log co' batch :
    Coalescer_Drain (Some co) = (Some co', batch) →
    co_sys_step (mkCoSystem co calls log) (mkCoSystem co' calls []).

(** What [n] critical sections reach from a new coalescer. *)
Inductive co_reachable (maxItems maxBytes : Z) (merge : option MergeFunc) : nat → co_system → Prop :=
| CoInit co : NewCoalescer maxItems maxBytes merge = Ok co → co_reachable maxItems maxBytes merge 0 (mkCoSystem co ∅ [])
| CoNext n s s' : co_reachable maxItems maxBytes merge n s → co_sys_step s s' →
    co_reachable maxItems maxBytes merge (S n) s'.

(** ** The queue that the accepted items determine *)

Definition join_next (f : MergeFunc) (acc : option bytes) (item : bytes) : option bytes :=
  acc ≫= λ tail, match f tail item with Ok merged => Some merged | Err _ => None end.

(** Without a join, the items in order; with one, a single item that joins all
    of them once, in order. *)
Definition queued (merge : option MergeFunc) (log : list bytes) : option (list bytes) :=
  match merge, log with
  | None, _ => Some log
  | Some _, [] => Some []
  | Some f, first :: rest => merged ← foldl (join_next f) (Some first) rest; Some [merged]
  end.

Lemma queued_join f log tail item merged :
  queued (Some f) log = Some [tail] → f tail item = Ok merged → queued (Some f) (log ++ [item]) = Some [merged].
Proof.
  destruct log as [|first rest]; [done|]. cbn [queued app]. rewrite foldl_snoc.
  destruct (foldl _ _ rest) as [t|]; [|done]. cbn. intros [= ->] ->. done.
Qed.

(** [UnmarshalFrame] accepts the item with the type and the codec of the queue. *)
Definition item_of (co : Coalescer) (item : bytes) : Prop :=
  ∃ f, UnmarshalFrame item DefaultLimits = Ok f ∧ TypeID f = cl_typeID co ∧ CodecID f = cl_codecID co ∧
    isDeltaType (TypeID f) = true ∧ 0 < len item.

(** A frame is never empty. *)
Lemma UnmarshalFrame_pos item f : UnmarshalFrame item DefaultLimits = Ok f → 0 < len item.
Proof.
  unfold UnmarshalFrame, UnmarshalFrameView. destruct (_ || _ || _) eqn:G; [done|]. breflect. lia.
Qed.

Lemma item_of_delta co item : item_of co item → isDeltaFrame item = true ∧ 0 < len item.
Proof. intros (f & Hf & _ & _ & Hd & ?). unfold isDeltaFrame. by rewrite Hf. Qed.

(** ** The invariant *)

Section invariant.
Context (maxItems maxBytes : Z) (merge : option MergeFunc).

Definition checked (item : bytes) (decoded : Frame) : Prop :=
  UnmarshalFrame item DefaultLimits = Ok decoded ∧ isDeltaType (TypeID decoded) = true ∧ 0 < len item <= maxBytes.

(** A call that holds the tail of the current generation holds the current tail. *)
Definition call_ok (co : Coalescer) (c : add_call) : Prop :=
  match c with
  | Entering item decoded _ => checked item decoded
  | Merging item decoded _ f tail generation typeID codecID =>
      checked item decoded ∧ merge = Some f ∧ typeID = TypeID decoded ∧ codecID = CodecID decoded ∧
      generation <= cl_generation co ∧
      (generation = cl_generation co →
        last (cl_items co) = Some tail ∧ cl_typeID co = typeID ∧ cl_codecID co = codecID)
  end.

Record co_inv (n : nat) (s : co_system) : Prop := mkCoInv {
  ci_config : cl_maxItems (sys_co s) = maxItems ∧ cl_maxBytes (sys_co s) = maxBytes ∧ cl_merge (sys_co s) = merge;
  ci_limits : 0 < maxItems ∧ 0 < maxBytes;
  ci_queue : queued merge (sys_log s) = Some (cl_items (sys_co s));
  ci_count : len (cl_items (sys_co s)) <= maxItems;
  ci_total : cl_total (sys_co s) = len (concat (cl_items (sys_co s))) ∧ cl_total (sys_co s) <= maxBytes;
  ci_items : Forall (item_of (sys_co s)) (cl_items (sys_co s));
  ci_generation : 0 <= cl_generation (sys_co s) <= Z.of_nat n;
  ci_calls : map_Forall (λ _ c, call_ok (sys_co s) c) (sys_calls s) }.

Lemma add_check_inv item decoded : add_check maxBytes item = Ok decoded → checked item decoded.
Proof.
  unfold add_check. destruct (_ || _) eqn:G; [done|]. breflect. intros [f [Hf Hd]]%bind_Ok.
  destruct (isDeltaType (TypeID f)) eqn:D; [|done]. injection Hd as <-. pose proof (len_nonneg item).
  split; [done|]. split; [done|]. lia.
Qed.

(** A section that writes the queue leaves every other call with a stale generation. *)
Lemma call_ok_update co c typeID codecID items total :
  0 <= cl_generation co < 2 ^ 64 - 1 → call_ok co c → call_ok (cl_update co typeID codecID items total) c.
Proof.
  intros Hg. destruct c as [|]; cbn; [done|]. unfold u64. rewrite Z.mod_small by lia.
  intros (? & ? & ? & ? & ? & _). do 4 (split; [done|]). split; [lia|]. intros. exfalso. lia.
Qed.

Lemma co_inv_keep n s calls :
  co_inv n s → map_Forall (λ _ c, call_ok (sys_co s) c) calls →
  co_inv (S n) (mkCoSystem (sys_co s) calls (sys_log s)).
Proof. intros [] Hc. split; cbn; [done..| |done]. lia. Qed.

(** The invariant after a write: what is left to show is the new queue. *)
Lemma co_inv_write n s calls log typeID codecID items total :
  Z.of_nat n < 2 ^ 64 - 1 → co_inv n s → map_Forall (λ _ c, call_ok (sys_co s) c) calls →
  queued merge log = Some items → len items <= maxItems → total = len (concat items) → total <= maxBytes →
  Forall (item_of (cl_update (sys_co s) typeID codecID items total)) items →
  co_inv (S n) (mkCoSystem (cl_update (sys_co s) typeID codecID items total) calls log).
Proof.
  intros Hn [Hcfg ? ? ? ? ? Hg ?] Hc Hq Hl Ht Hm Hi. split; cbn [sys_co sys_calls sys_log]; try done.
  - cbn. unfold u64. rewrite Z.mod_small by lia. lia.
  - eapply map_Forall_impl; [exact Hc|]. intros ? ? ?. apply call_ok_update; [lia|done].
Qed.

(** With a join, a queue that is not empty is its tail. *)
Lemma queued_tail log f items tail :
  merge = Some f → queued merge log = Some items → last items = Some tail → items = [tail].
Proof.
  intros ->. destruct log as [|x log]; cbn [queued]; [by intros [= <-]|].
  destruct (foldl _ _ log) as [t|]; [|done]. intros [= <-]. by intros [= ->].
Qed.

Lemma checked_item co item decoded :
  checked item decoded → TypeID decoded = cl_typeID co → CodecID decoded = cl_codecID co → item_of co item.
Proof. intros (? & ? & ?) ? ?. exists decoded. split_and!; try done; lia. Qed.

Lemma co_inv_enter n s k item decoded retries co' res :
  Z.of_nat n < 2 ^ 64 - 1 → co_inv n s → sys_calls s !! k = Some (Entering item decoded retries) →
  add_enter (sys_co s) decoded item = AddDone co' res →
  co_inv (S n) (mkCoSystem co' (delete k (sys_calls s)) (logged (sys_log s) item res)).
Proof.
  intros Hn Hi Hk. pose proof Hi as [(HI & HB & HM) ? Hq Hc [Ht Hm] Hf Hg Hcalls].
  pose proof (Hcalls _ _ Hk) as Hck. cbn in Hck. pose proof Hck as (_ & _ & Hpos).
  assert (map_Forall (λ _ c, call_ok (sys_co s) c) (delete k (sys_calls s))) as Hcalls'
    by (by apply map_Forall_delete).
  unfold add_enter. destruct (last (cl_items (sys_co s))) as [tail|] eqn:Hlast.
  - destruct (_ || _) eqn:G; [intros [= <- <-]; by apply co_inv_keep|]. breflect.
    destruct (cl_merge (sys_co s)) as [f|]; [done|].
    destruct (_ || _) eqn:G2; [intros [= <- <-]; by apply co_inv_keep|]. breflect. intros [= <- <-].
    rewrite <-HM in Hq. cbn [queued] in Hq. injection Hq as Hq.
    apply co_inv_write; [done..| | | | |].
    + rewrite <-HM. cbn [queued logged is_ok]. by rewrite Hq.
    + rewrite len_app, len_cons, len_nil. lia.
    + rewrite concat_app, len_app. cbn [concat]. by rewrite app_nil_r, Ht.
    + lia.
    + apply Forall_app. split; [exact Hf|]. apply Forall_singleton.
      apply (checked_item _ item decoded); [done| |]; done || lia.
  - intros [= <- <-]. apply last_None in Hlast.
    apply co_inv_write; [done..| | | | |].
    + cbn [logged is_ok]. rewrite Hlast in Hq. revert Hq. destruct merge as [f|]; cbn [queued].
      * destruct (sys_log s) as [|x log]; [done|]. by destruct (foldl _ _ log).
      * by intros [= ->].
    + rewrite len_cons, len_nil. lia.
    + cbn [concat]. by rewrite app_nil_r.
    + lia.
    + apply Forall_singleton. by apply (checked_item _ item decoded).
Qed.

Lemma co_inv_commit n s k item decoded retries f tail generation typeID codecID merged co' res :
  Z.of_nat n < 2 ^ 64 - 1 → co_inv n s →
  sys_calls s !! k = Some (Merging item decoded retries f tail generation typeID codecID) →
  add_join f typeID codecID tail item = Ok merged →
  add_commit (sys_co s) merged generation = Some (co', res) →
  co_inv (S n) (mkCoSystem co' (delete k (sys_calls s)) (logged (sys_log s) item res)).
Proof.
  intros Hn Hi Hk Hj. pose proof Hi as [(HI & HB & HM) ? Hq Hc [Ht Hm] Hf Hg Hcalls].
  destruct (Hcalls _ _ Hk) as ((Hdec & Hdelta & Hpos) & Hmerge & -> & -> & _ & Hcur).
  assert (map_Forall (λ _ c, call_ok (sys_co s) c) (delete k (sys_calls s))) as Hcalls'
    by (by apply map_Forall_delete).
  unfold add_commit. destruct (Z.eqb_spec (cl_generation (sys_co s)) generation) as [Hgen|]; [|done]. cbn [negb].
  destruct (Hcur (eq_sym Hgen)) as (Hlast & HT & HC). rewrite Hlast. change (default [] (Some tail)) with tail.
  destruct (Z.ltb_spec (cl_maxBytes (sys_co s) - (cl_total (sys_co s) - len tail)) (len merged));
    [intros [= <- <-]; by apply co_inv_keep|].
  intros [= <- <-]. pose proof (queued_tail _ _ _ _ Hmerge Hq Hlast) as Hone.
  apply bind_Ok in Hj as (m & Hjoin & (mf & Hmf & Hj)%bind_Ok).
  destruct (_ || _) eqn:G; [done|]. injection Hj as ->. breflect.
  rewrite Hone in *. cbn [concat removelast app] in *. rewrite app_nil_r in Ht.
  apply co_inv_write; [done..| | | | |].
  - cbn [logged is_ok]. rewrite Hmerge in *. by apply (queued_join _ _ tail).
  - by rewrite len_cons, len_nil in *.
  - cbn [concat]. rewrite app_nil_r. lia.
  - lia.
  - apply Forall_singleton. exists mf. cbn. split; [done|]. split; [lia|]. split; [congruence|].
    split; [by replace (TypeID mf) with (TypeID decoded) by lia|]. by apply UnmarshalFrame_pos in Hmf.
Qed.

Lemma co_inv_step n s s' : Z.of_nat n < 2 ^ 64 - 1 → co_inv n s → co_sys_step s s' → co_inv (S n) s'.
Proof.
  intros Hn Hi Hs. pose proof Hi as [(HI & HB & HM) ? Hq Hc [Ht Hm] Hf Hg Hcalls].
  destruct Hs; cbn [sys_co sys_calls sys_log] in *.
  - apply (co_inv_keep n (mkCoSystem co calls log)); [done|]. apply map_Forall_insert_2; [|done].
    cbn. apply add_check_inv. by rewrite <-HB.
  - by eapply (co_inv_enter n (mkCoSystem co calls log)).
  - apply (co_inv_keep n (mkCoSystem co calls log)); [done|]. apply map_Forall_insert_2; [|done].
    pose proof (Hcalls _ _ H) as Hck. revert H0. unfold add_enter.
    destruct (last (cl_items co)) as [t|] eqn:Hlast; [|done]. destruct (_ || _) eqn:G; [done|]. breflect.
    destruct (cl_merge co) as [f|] eqn:Em; [|by destruct (_ || _)].
    intros [= <- <- <- <- <-]. cbn. split; [done|]. split; [congruence|]. split; [lia|]. done.
  - apply (co_inv_keep n (mkCoSystem co calls log)); [done|]. by apply map_Forall_delete.
  - by eapply (co_inv_commit n (mkCoSystem co calls log)).
  - apply (co_inv_keep n (mkCoSystem co calls log)); [done|]. case_match; [by apply map_Forall_delete|].
    apply map_Forall_insert_2; [|done]. by destruct (Hcalls _ _ H).
  - injection H as <- _. apply (co_inv_write n (mkCoSystem co calls log)); try done; [by destruct merge|rewrite len_nil; lia|change (len (concat (@nil bytes))) with 0; lia].
Qed.
End invariant.

Lemma co_reachable_inv maxItems maxBytes merge n s :
  Z.of_nat n < 2 ^ 64 → co_reachable maxItems maxBytes merge n s → co_inv maxItems maxBytes merge n s.
Proof.
  intros Hn Hr. induction Hr as [co Hco|n s s' Hr IH Hs].
  - unfold NewCoalescer in Hco. destruct (_ || _) eqn:G; [done|]. breflect. injection Hco as <-.
    split; cbn; try done; [by destruct merge|rewrite len_nil; lia|split; [done|lia]].
  - eapply co_inv_step; [lia|apply IH; lia|done].
Qed.

Lemma accepted_items maxBytes co items :
  Forall (item_of co) items → len (concat items) <= maxBytes → accepted (next_item maxBytes) items.
Proof.
  induction items as [|item l IH] using rev_ind; [constructor|].
  intros [Hl [Hi _]%Forall_cons]%Forall_app. rewrite concat_app, len_app. cbn [concat]. rewrite app_nil_r.
  intros. destruct (item_of_delta _ _ Hi). constructor; [apply IH; [done|]|split; [done|split; [done|lia]]].
  pose proof (len_nonneg item). lia.
Qed.

(** C9: no delta is lost between the sections of concurrent calls. After any
    interleaving of fewer than 2^64 critical sections of [Add] and [Drain], the
    queue is what the accepted items since the last [Drain] determine: all of
    them in order, or, with a join, their join with each taken exactly once.
    The queue is within both limits, the running total is exact, and what
    [Drain] returns always encodes. *)
Theorem Coalescer_interleavings (maxItems maxBytes : Z) (merge : option MergeFunc) (n : nat) (s : co_system)
    (Hn : Z.of_nat n < 2 ^ 64) (Hreach : co_reachable maxItems maxBytes merge n s) :
  queued merge (sys_log s) = Some (snd (Coalescer_Drain (Some (sys_co s)))) ∧
  Coalescer_Len (Some (sys_co s)) = (len (cl_items (sys_co s)), len (concat (cl_items (sys_co s)))) ∧
  len (cl_items (sys_co s)) <= maxItems ∧ len (concat (cl_items (sys_co s))) <= maxBytes ∧
  Batch_MarshalBinary (snd (Coalescer_Drain (Some (sys_co s)))) maxBytes = Ok (batch_envelope (cl_items (sys_co s))).
Proof.
  destruct (co_reachable_inv _ _ _ _ _ Hn Hreach) as [? ? Hq Hc [Ht Hm] Hf ? ?].
  cbn [Coalescer_Drain Coalescer_Len snd]. rewrite <-Ht. do 4 (split; [done|]).
  apply Batch_MarshalBinary_iff. split; [lia|]. split; [|done].
  eapply accepted_items; [exact Hf|]. lia.
Qed.

(** [Add] without interference. Whatever error it returns, of the limits, the
    frame, the type or the join, the coalescer is unchanged; when it succeeds the
    item is the only one, is appended, or is joined into the tail, and the first
    attempt at the join is the one that is installed. *)
Theorem Coalescer_Add_spec (co : Coalescer) (item : bytes) (c : ptr Coalescer) (res : result unit)
    (Hadd : Coalescer_Add (Some co) item = (c, res)) :
  match res with
  | Err _ => c = Some co
  | Ok _ => ∃ co', c = Some co' ∧ cl_generation co' = u64 (cl_generation co + 1) ∧
      match last (cl_items co), cl_merge co with
      | None, _ => cl_items co' = [item]
      | Some _, None => cl_items co' = cl_items co ++ [item]
      | Some tail, Some f => ∃ merged, f tail item = Ok merged ∧ cl_items co' = removelast (cl_items co) ++ [merged]
      end
  end.
Proof.
  revert Hadd. unfold Coalescer_Add. destruct (add_check _ item) as [decoded|e]; [|by intros [= <- <-]].
  change (Z.to_nat (maxMergeRetries - 1)) with 15%nat. cbn [add_loop].
  unfold add_enter. destruct (last (cl_items co)) as [tail|] eqn:Hlast.
  2: { intros [= <- <-]. by eexists. }
  destruct (_ || _); [by intros [= <- <-]|]. destruct (cl_merge co) as [f|].
  2: { destruct (_ || _); intros [= <- <-]; [done|]. by eexists. }
  destruct (add_join _ _ _ _ _) as [merged|] eqn:Hj; [|by intros [= <- <-]].
  unfold add_commit. rewrite Z.eqb_refl, Hlast. cbn [negb].
  destruct (_ <? _); intros [= <- <-]; [done|]. eexists. split; [done|]. split; [done|].
  exists merged. split; [|done].
  apply bind_Ok in Hj as (m & Hm & (mf & _ & Hj)%bind_Ok). destruct (_ || _); [done|]. by injection Hj as <-.
Qed.
End coalescer.

(** ** Witnesses: two calls that race for the tail *)

#[local] Existing Instance marker_flate.

(** A delta frame and a join that appends the payloads. *)
Definition delta_frame (payload : bytes) : bytes := sealed (MarshalFrame (mkFrame 14 (str "raw") payload 0 false)).
Definition append_join : MergeFunc := λ left_ right_,
  l ← UnmarshalFrame left_ DefaultLimits; r ← UnmarshalFrame right_ DefaultLimits;
  MarshalFrame (mkFrame 14 (str "raw") (Payload l ++ Payload r) 0 false).

Definition race_frame (payload : bytes) : Frame := mkFrame 14 (str "raw") payload 0 false.
Definition race_co (generation total : Z) (item : bytes) : Coalescer :=
  mkCoalescer 4 100 (Some append_join) 14 (str "raw") [delta_frame item] total generation.
Definition race_merging (item : bytes) (retries : Z) (tail : bytes) (generation : Z) : add_call :=
  Merging (delta_frame item) (race_frame item) retries append_join (delta_frame tail) generation 14 (str "raw").

Lemma race_enter generation total tail item :
  add_enter (race_co generation total tail) (race_frame item) (delta_frame item) =
  AddMerge append_join (delta_frame tail) generation 14 (str "raw").
Proof. reflexivity. Qed.

Lemma race_commit generation total tail merged generation' total' :
  len (delta_frame merged) <= 100 - (total - len (delta_frame tail)) →
  generation' = u64 (generation + 1) → total' = total + (len (delta_frame merged) - len (delta_frame tail)) →
  add_commit (race_co generation total tail) (delta_frame merged) generation =
  Some (race_co generation' total' merged, Ok tt).
Proof.
  intros Hfit -> ->. unfold add_commit, race_co. cbn [cl_generation cl_items cl_maxBytes cl_total last removelast].
  rewrite Z.eqb_refl. change (default [] (Some (delta_frame tail))) with (delta_frame tail). cbn [negb].
  destruct (Z.ltb_spec (100 - (total - len (delta_frame tail))) (len (delta_frame merged))); [lia|]. reflexivity.
Qed.

(** Both calls read the tail [a]; the second installs its join first, so the
    first one retries on [ac]. *)
Lemma race_reachable :
  ∃ calls, co_reachable 4 100 (Some append_join) 10
    (mkCoSystem (race_co 3 18 (str "acb")) calls (delta_frame <$> [str "a"; str "c"; str "b"])).
Proof.
  set (a := str "a"). set (b := str "b"). set (c := str "c").
  assert (∀ co p, cl_maxBytes co = 100 → p ∈ [a; b; c] →
    add_check (cl_maxBytes co) (delta_frame p) = Ok (race_frame p)) as Hck.
  { intros co p ->. rewrite !elem_of_cons, elem_of_nil. intros [->|[->|[->|[]]]]; vm_compute; reflexivity. }
  assert (∀ l r, (l, r) ∈ [(a, c); (a, b); (a ++ c, b)] →
    add_join append_join 14 (str "raw") (delta_frame l) (delta_frame r) = Ok (delta_frame (l ++ r))) as Hj.
  { intros l r. rewrite !elem_of_cons, elem_of_nil. intros [[= -> ->]|[[= -> ->]|[[= -> ->]|[]]]]; vm_compute; reflexivity. }
  assert (len (delta_frame a) = 16) as La by (vm_compute; reflexivity).
  assert (len (delta_frame (a ++ c)) = 17) as Lac by (vm_compute; reflexivity).
  assert (len (delta_frame ((a ++ c) ++ b)) = 18) as Lacb by (vm_compute; reflexivity).
  pose proof (CoInit 4 100 (Some append_join) _ eq_refl) as S.
  eapply CoNext in S; [|by apply (CoStart _ _ _ 0%nat (delta_frame a) (race_frame a)); [|apply Hck; [|set_solver]]].
  eapply CoNext in S; [|apply (CoEnterDone _ _ _ 0%nat (delta_frame a) (race_frame a) 0 (race_co 1 16 a) (Ok tt));
    [done|rewrite <-La; reflexivity]].
  eapply CoNext in S; [|by apply (CoStart _ _ _ 1%nat (delta_frame b) (race_frame b)); [|apply Hck; [|set_solver]]].
  eapply CoNext in S; [|by apply (CoStart _ _ _ 2%nat (delta_frame c) (race_frame c)); [|apply Hck; [|set_solver]]].
  eapply CoNext in S; [|by eapply (CoEnterMerge _ _ _ 1%nat); [reflexivity|apply race_enter]].
  eapply CoNext in S; [|by eapply (CoEnterMerge _ _ _ 2%nat); [reflexivity|apply race_enter]].
  eapply CoNext in S; [|by eapply (CoCommit _ _ _ 2%nat); [reflexivity|apply Hj; set_solver|apply (race_commit 1 16 a (a ++ c) 2 17); [lia|done|lia]]].
  eapply CoNext in S; [|by eapply (CoRetry _ _ _ 1%nat); [reflexivity|apply Hj; set_solver|]].
  eapply CoNext in S; [|by eapply (CoEnterMerge _ _ _ 1%nat); [reflexivity|apply race_enter]].
  eapply CoNext in S; [|by eapply (CoCommit _ _ _ 1%nat); [reflexivity|apply Hj; set_solver|apply (race_commit 2 17 (a ++ c) ((a ++ c) ++ b) 3 18); [lia|done|lia]]].
  eexists. exact S.
Qed.

Lemma Coalescer_interleavings_witness :
  ∃ calls, let s := mkCoSystem (race_co 3 18 (str "acb")) calls (delta_frame <$> [str "a"; str "c"; str "b"]) in
    Batch_MarshalBinary (snd (Coalescer_Drain (Some (sys_co s)))) 100 = Ok (batch_envelope [delta_frame (str "acb")]).
Proof.
  destruct race_reachable as [calls Hreach]. exists calls.
  exact (proj2 (proj2 (proj2 (proj2 (Coalescer_interleavings 4 100 (Some append_join) 10 _ eq_refl Hreach))))).
Defined.

(** An item of another type is refused. *)
Lemma Coalescer_Add_spec_witness :
  fst (Coalescer_Add (Some (race_co 1 16 (str "a"))) (sealed (MarshalFrame (mkFrame 3 [] [] 0 false)))) =
  Some (race_co 1 16 (str "a")).
Proof.
  assert (snd (Coalescer_Add (Some (race_co 1 16 (str "a"))) (sealed (MarshalFrame (mkFrame 3 [] [] 0 false)))) =
    Err (ErrDelta DeltaTypeMismatch)) as Hr by (vm_compute; reflexivity).
  pose proof (Coalescer_Add_spec (race_co 1 16 (str "a")) (sealed (MarshalFrame (mkFrame 3 [] [] 0 false)))
    _ _ (surjective_pairing _)) as Hs.
  rewrite Hr in Hs. exact Hs.
Defined.
