(* ===== verification/Replica.v ===== *)
(** * Replication groups

    src/replica: the agreement of a replication group (manifests), the
    contiguous delivery frontier, the bounded inbox that restores the order of
    each actor's changes, checkpoints with their digest, and the session that
    acknowledges only what is durably stored. *)

From S2P Require Import Prelude Tags Clock Wire SortedCodec Frame Sha256.

(** ** Manifests *)

Record Protocol := mkProtocol {
  p_StateID : Z; p_DeltaID : Z; p_CodecID : bytes; p_SemanticsVersion : Z; p_WireFormatVersion : Z }.

(** [Protocol.FrameFormatVersion] *)
Definition FrameFormatVersion (p : Protocol) : Z :=
  if p_WireFormatVersion p =? 0 then FormatVersion else p_WireFormatVersion p.

Record Manifest := mkManifest {
  mf_GroupID : bytes; mf_SchemaID : bytes; mf_Epoch : Z; mf_Protocol : Protocol }.

(** [Manifest.validate]; [crdt.ProtocolPolicy] has no fields. *)
Definition Manifest_validate (m : Manifest) : result unit :=
  let p := mf_Protocol m in
  if blank (mf_GroupID m) || blank (mf_SchemaID m) || (mf_Epoch m =? 0) || (p_SemanticsVersion p =? 0) ||
     (MaxCodecID DefaultLimits <? len (p_CodecID p)) ||
     (negb (FrameFormatVersion p =? FormatVersion) && negb (FrameFormatVersion p =? FormatVersionV2))
  then Err (ErrReplica InvalidManifest)
  else match FrameTypeForState (p_StateID p) with
  | None => Err (ErrReplica InvalidManifest)
  | Some kind =>
      if negb (DeltaID kind =? p_DeltaID p) || negb (SemanticsVersion kind =? p_SemanticsVersion p) ||
         negb (SupportsFrame (p_StateID p)) || negb (SupportsFrame (p_DeltaID p))
      then Err (ErrReplica InvalidManifest) else Ok tt
  end.

(** [NewManifest] *)
Definition NewManifest (groupID schemaID : bytes) (epoch : Z) (protocol : Protocol) : result Manifest :=
  let manifest := mkManifest groupID schemaID epoch protocol in
  _ ← Manifest_validate manifest; Ok manifest.

(** [ProtocolFromFrameType] *)
Definition ProtocolFromFrameType (frameType : FrameType) (codecID : bytes) : result Protocol :=
  match FrameTypeForState (StateID frameType) with
  | None => Err (ErrReplica InvalidManifest)
  | Some registered =>
      if negb (bool_decide (registered = frameType)) || (MaxCodecID DefaultLimits <? len codecID)
      then Err (ErrReplica InvalidManifest)
      else Ok (mkProtocol (StateID frameType) (DeltaID frameType) codecID (SemanticsVersion frameType) 0)
  end.

(** [NewManifestForFrameType] *)
Definition NewManifestForFrameType (groupID schemaID : bytes) (epoch : Z) (frameType : FrameType) (codecID : bytes)
    : result Manifest :=
  protocol ← ProtocolFromFrameType frameType codecID; NewManifest groupID schemaID epoch protocol.

(** [Manifest.Compatible] *)
Definition Compatible (m remote : Manifest) : result unit :=
  if negb (is_ok (Manifest_validate m)) then Err (ErrReplica InvalidManifest)
  else if negb (is_ok (Manifest_validate remote)) then Err (ErrReplica InvalidManifest)
  else if negb (bool_decide (mf_GroupID m = mf_GroupID remote)) ||
          negb (bool_decide (mf_SchemaID m = mf_SchemaID remote)) || negb (mf_Epoch m =? mf_Epoch remote)
  then Err (ErrReplica ManifestMismatch)
  else
    let p := mf_Protocol m in let q := mf_Protocol remote in
    if negb (p_StateID p =? p_StateID q) || negb (p_DeltaID p =? p_DeltaID q) ||
       negb (bool_decide (p_CodecID p = p_CodecID q)) || negb (p_SemanticsVersion p =? p_SemanticsVersion q) ||
       negb (FrameFormatVersion p =? FrameFormatVersion q)
    then Err (ErrReplica ProtocolMismatch) else Ok tt.

(** ** Dots and frontiers *)

Record Dot := mkDot { Actor : bytes; Counter : Z }.

#[export] Instance Dot_eq_dec : EqDecision Dot.
Proof. solve_decision. Defined.

(** [Dot.valid] *)
Definition Dot_valid (d : Dot) : bool := negb (blank (Actor d)) && negb (Counter d =? 0).

(** [Frontier]: no code tells a nil map from an empty one. *)
Abbreviation Frontier := (gmap bytes Z).

(** [Frontier.valid] *)
Definition Frontier_valid (f : Frontier) : bool :=
  forallb (λ e : bytes * Z, negb (blank e.1 || (e.2 =? 0))) (map_to_list f).

(** [NewFrontier] *)
Definition NewFrontier (entries : gmap bytes Z) : result Frontier :=
  if Frontier_valid entries then Ok entries else Err (ErrReplica InvalidDot).

(** [Frontier.Counter], [Frontier.Covers] *)
Definition Frontier_Counter (f : Frontier) (actor : bytes) : Z := default 0 (f !! actor).
Definition Covers (f : Frontier) (dot : Dot) : bool :=
  Dot_valid dot && (Counter dot <=? Frontier_Counter f (Actor dot)).

(** [Frontier.Advance] *)
Definition Advance (f : Frontier) (dot : Dot) : result Frontier :=
  if negb (Dot_valid dot) then Err (ErrReplica InvalidDot)
  else
    let current := Frontier_Counter f (Actor dot) in
    if Counter dot <=? current then Ok f
    else if negb (Counter dot =? u64 (current + 1)) then Err (ErrReplica FrontierGap)
    else Ok (<[Actor dot := Counter dot]> f).

(** ** Changes *)

Record Change := mkChange { ch_Dot : Dot; ch_manifest : Manifest; ch_delta : bytes; ch_validated : bool }.

Definition zeroManifest : Manifest := mkManifest [] [] 0 (mkProtocol 0 0 [] 0 0).

Section changes.
Context `{F : Flate}.

(** The frame checks of [NewChangeWithPolicy], [Change.validate] and the
    checkpoints: one complete frame of the group's version, type and codec. *)
Definition frame_matches (m : Manifest) (typeID : Z) (data : bytes) : bool :=
  match UnmarshalFrame data DefaultLimits with
  | Err _ => false
  | Ok decoded => (Version decoded =? FrameFormatVersion (mf_Protocol m)) && (TypeID decoded =? typeID) &&
                  bool_decide (CodecID decoded = p_CodecID (mf_Protocol m))
  end.

(** [NewChange], [NewChangeWithPolicy] *)
Definition NewChange (manifest : Manifest) (dot : Dot) (delta : bytes) : result Change :=
  if negb (is_ok (Manifest_validate manifest)) || negb (Dot_valid dot) then Err (ErrReplica InvalidChange)
  else if negb (frame_matches manifest (p_DeltaID (mf_Protocol manifest)) delta) then Err (ErrReplica InvalidChange)
  else Ok (mkChange dot manifest delta true).

(** [Change.validate] *)
Definition Change_validate (c : Change) (manifest : Manifest) : result unit :=
  if negb (Dot_valid (ch_Dot c)) || (len (ch_delta c) =? 0) then Err (ErrReplica InvalidChange)
  else
    _ ← Compatible manifest (ch_manifest c);
    if ch_validated c then Ok tt
    else if negb (frame_matches manifest (p_DeltaID (mf_Protocol manifest)) (ch_delta c))
    then Err (ErrReplica InvalidChange) else Ok tt.
End changes.

(** ** The inbox *)

Record Delivery := mkDelivery { Buffered : bool; Duplicate : bool; Applied : list Dot }.
Definition zeroDelivery : Delivery := mkDelivery false false [].

(** [Delivery.Accepted] *)
Definition Delivery_Accepted (d : Delivery) : bool :=
  negb (Duplicate d) && (Buffered d || (0 <? len (Applied d))).

Section inbox.
(** The application state that [ApplyDelta] changes; an error leaves it as it
    was, as its contract asks. *)
Context `{F : Flate} {ST : Type}.

Record Inbox := mkInbox {
  ib_manifest : Manifest; ib_frontier : Frontier; ib_apply : ST → bytes → result ST;
  ib_maxPending : Z; ib_maxBytes : Z;
  ib_pending : gmap bytes (gmap Z Change); ib_pendingCount : Z; ib_pendingSize : Z }.

Definition ib_set_frontier (i : Inbox) (f : Frontier) : Inbox :=
  mkInbox (ib_manifest i) f (ib_apply i) (ib_maxPending i) (ib_maxBytes i)
    (ib_pending i) (ib_pendingCount i) (ib_pendingSize i).
Definition ib_set_pending (i : Inbox) (pending : gmap bytes (gmap Z Change)) (count size : Z) : Inbox :=
  mkInbox (ib_manifest i) (ib_frontier i) (ib_apply i) (ib_maxPending i) (ib_maxBytes i) pending count size.

(** [NewInbox], [NewInboxWithPolicy] *)
Definition NewInbox (manifest : Manifest) (frontier : Frontier) (maxPending maxBytes : Z)
    (apply : option (ST → bytes → result ST)) : result Inbox :=
  if negb (is_ok (Manifest_validate manifest)) || negb (Frontier_valid frontier) || (maxPending <=? 0) || (maxBytes <=? 0)
  then Err (ErrReplica InvalidChange)
  else match apply with
  | None => Err (ErrReplica NilApply)
  | Some apply => Ok (mkInbox manifest frontier apply maxPending maxBytes ∅ 0 0)
  end.

(** [i.pending[actor]], where a missing actor reads as a nil map. *)
Definition pending_of (i : Inbox) (actor : bytes) : gmap Z Change := default ∅ (ib_pending i !! actor).

(** The change leaves the queue, and its actor with the last one. *)
Definition take_pending (i : Inbox) (actor : bytes) (counter : Z) (existing : Change) : Inbox :=
  let pending := delete counter (pending_of i actor) in
  ib_set_pending i
    (if bool_decide (pending = ∅) then delete actor (ib_pending i) else <[actor := pending]> (ib_pending i))
    (ib_pendingCount i - 1) (ib_pendingSize i - len (ch_delta existing)).

(** [Inbox.buffer] *)
Definition Inbox_buffer (i : Inbox) (change : Change) : Inbox * (Delivery * option error) :=
  let dot := ch_Dot change in
  let byCounter := pending_of i (Actor dot) in
  match byCounter !! Counter dot with
  | Some existing =>
      if negb (bool_decide (ch_delta existing = ch_delta change))
      then (i, (zeroDelivery, Some (ErrReplica DotConflict)))
      else (i, (mkDelivery true true [], None))
  | None =>
      if (ib_maxPending i <=? ib_pendingCount i) || (ib_maxBytes i - ib_pendingSize i <? len (ch_delta change))
      then (i, (zeroDelivery, Some (ErrReplica PendingLimit)))
      else (ib_set_pending i
              (<[Actor dot := <[Counter dot := mkChange dot zeroManifest (ch_delta change) false]> byCounter]> (ib_pending i))
              (ib_pendingCount i + 1) (ib_pendingSize i + len (ch_delta change)),
            (mkDelivery true false [], None))
  end.

(** [Inbox.advance] *)
Definition Inbox_advance (i : Inbox) (dot : Dot) : result Inbox :=
  frontier ← Advance (ib_frontier i) dot; Ok (ib_set_frontier i frontier).

(** The loop of [Receive]; [None] when the fuel runs out. *)
Fixpoint receive_loop (fuel : nat) (i : Inbox) (st : ST) (actor : bytes) (applied : list Dot)
    : option ((Inbox * ST) * (Delivery * option error)) :=
  let delivery := mkDelivery false false applied in
  let nextCounter := u64 (Frontier_Counter (ib_frontier i) actor + 1) in
  match pending_of i actor !! nextCounter with
  | None => Some ((i, st), (delivery, None))
  | Some next =>
      match fuel with
      | O => None
      | S fuel' =>
          match ib_apply i st (ch_delta next) with
          | Err e => Some ((i, st), (delivery, Some e))
          | Ok st =>
              let i := take_pending i actor nextCounter next in
              match Inbox_advance i (ch_Dot next) with
              | Err e => Some ((i, st), (delivery, Some e))
              | Ok i => receive_loop fuel' i st actor (applied ++ [ch_Dot next])
              end
          end
      end
  end.

(** [Inbox.Receive] *)
Definition Inbox_Receive (i : ptr Inbox) (st : ST) (change : Change)
    : option ((ptr Inbox * ST) * (Delivery * option error)) :=
  match i with
  | None => Some ((None, st), (zeroDelivery, Some (ErrReplica InvalidChange)))
  | Some ib =>
      match Change_validate change (ib_manifest ib) with
      | Err e => Some ((i, st), (zeroDelivery, Some e))
      | Ok _ =>
          let dot := ch_Dot change in
          let current := Frontier_Counter (ib_frontier ib) (Actor dot) in
          if Counter dot <=? current then Some ((i, st), (mkDelivery false true [], None))
          else if u64 (current + 1) <? Counter dot then
            let '(ib, out) := Inbox_buffer ib change in Some ((Some ib, st), out)
          else
            let existing := pending_of ib (Actor dot) !! Counter dot in
            if match existing with
               | Some existing => negb (bool_decide (ch_delta existing = ch_delta change))
               | None => false
               end
            then Some ((i, st), (zeroDelivery, Some (ErrReplica DotConflict)))
            else match ib_apply ib st (ch_delta change) with
            | Err e => Some ((i, st), (zeroDelivery, Some e))
            | Ok st =>
                let ib := match existing with
                          | Some existing => take_pending ib (Actor dot) (Counter dot) existing
                          | None => ib
                          end in
                match Inbox_advance ib dot with
                | Err e => Some ((Some ib, st), (zeroDelivery, Some e))
                | Ok ib =>
                    '((ib, st), out) ← receive_loop (size (pending_of ib (Actor dot))) ib st (Actor dot) [dot];
                    Some ((Some ib, st), out)
                end
            end
      end
  end.

(** [Inbox.Frontier], [Inbox.Pending] *)
Definition Inbox_Frontier (i : ptr Inbox) : Frontier := match i with None => ∅ | Some i => ib_frontier i end.
Definition Inbox_Pending (i : ptr Inbox) : Z * Z :=
  match i with None => (0, 0) | Some i => (ib_pendingCount i, ib_pendingSize i) end.
End inbox.

Arguments Inbox : clear implicits.

(** ** Checkpoints *)

Record Checkpoint := mkCheckpoint {
  cp_manifest : Manifest; cp_state : bytes; cp_frontier : Frontier; cp_clockState : option ClockState; cp_id : bytes }.

(** [appendBytes], [appendString] *)
Definition appendBytes (dst value : bytes) : bytes := AppendUvarint dst (len value) ++ value.

(** The message that [Checkpoint.digest] hashes. *)
Definition digest_message (c : Checkpoint) : bytes :=
  let m := cp_manifest c in let p := mf_Protocol m in
  let encoded := str "crdt/checkpoint/v1" in
  let encoded := appendBytes encoded (mf_GroupID m) in
  let encoded := appendBytes encoded (mf_SchemaID m) in
  let encoded := AppendUvarint encoded (mf_Epoch m) in
  let encoded := AppendUvarint encoded (p_StateID p) in
  let encoded := AppendUvarint encoded (p_DeltaID p) in
  let encoded := appendBytes encoded (p_CodecID p) in
  let encoded := AppendUvarint encoded (p_SemanticsVersion p) in
  let encoded := AppendUvarint encoded (FrameFormatVersion p) in
  let encoded := appendBytes encoded (cp_state c) in
  let actors := sort_by bytes_compare (map_to_list (cp_frontier c)).*1 in
  let encoded := AppendUvarint encoded (len actors) in
  let encoded := foldl (λ encoded actor,
    AppendUvarint (appendBytes encoded actor) (Frontier_Counter (cp_frontier c) actor)) encoded actors in
  match cp_clockState c with
  | None => encoded ++ [Zbyte 0]
  | Some clockState =>
      let encoded := encoded ++ [Zbyte 1] in
      let encoded := appendBytes encoded (cs_ReplicaID clockState) in
      let encoded := AppendUvarint encoded (cs_WallTime clockState) in
      AppendUvarint encoded (cs_Logical clockState)
  end.

(** [Checkpoint.digest] *)
Definition Checkpoint_digest (c : Checkpoint) : bytes := Sum256 (digest_message c).

(** [crdt.FrameTypeForState] where the caller ignores the second result. *)
Definition state_uses_hlc (stateID : Z) : bool :=
  match FrameTypeForState stateID with Some kind => UsesHLC kind | None => false end.

Section checkpoints.
Context `{F : Flate}.

(** [StateValidator]: a panic is an error, as [validateState] recovers it. *)
Definition StateValidator : Type := bytes → result unit.
Definition validateState (validator : StateValidator) (state : bytes) : bool := is_ok (validator state).

(** [NewCheckpoint], [NewCheckpointWithPolicy] *)
Definition NewCheckpoint (manifest : Manifest) (state : bytes) (frontier : Frontier) (clockState : ClockState)
    (validator : option StateValidator) : result Checkpoint :=
  match validator with
  | None => Err (ErrReplica NilValidator)
  | Some validator =>
      if negb (is_ok (Manifest_validate manifest)) || negb (Frontier_valid frontier)
      then Err (ErrReplica InvalidCheckpoint)
      else if negb (frame_matches manifest (p_StateID (mf_Protocol manifest)) state) || negb (validateState validator state)
      then Err (ErrReplica InvalidCheckpoint)
      else
        let seal clockState :=
          let checkpoint := mkCheckpoint manifest state frontier clockState (replicate 32 Init.Byte.x00) in
          mkCheckpoint manifest state frontier clockState (Checkpoint_digest checkpoint) in
        if state_uses_hlc (p_StateID (mf_Protocol manifest)) then
          match NewHLCFromState clockState with
          | Err _ => Err (ErrReplica InvalidCheckpoint)
          | Ok _ => Ok (seal (Some clockState))
          end
        else if negb (bool_decide (clockState = zeroClockState)) then Err (ErrReplica InvalidCheckpoint)
        else Ok (seal None)
  end.

(** [Checkpoint.valid] *)
Definition Checkpoint_valid (c : Checkpoint) : bool :=
  let m := cp_manifest c in
  if negb (is_ok (Manifest_validate m)) || negb (Frontier_valid (cp_frontier c)) || (len (cp_state c) =? 0) then false
  else if negb (frame_matches m (p_StateID (mf_Protocol m)) (cp_state c)) then false
  else if (if state_uses_hlc (p_StateID (mf_Protocol m)) then
             match cp_clockState c with
             | None => true
             | Some clockState => negb (is_ok (NewHLCFromState clockState))
             end
           else bool_decide (is_Some (cp_clockState c))) then false
  else bool_decide (cp_id c = Checkpoint_digest c).

(** ** Sessions *)

Record Acknowledgement := mkAcknowledgement {
  ak_GroupID : bytes; ak_Epoch : Z; ak_CheckpointID : bytes; ak_Frontier : Frontier }.

Record Session := mkSession { ss_manifest : Manifest; ss_checkpoint : option Checkpoint }.

(** [NewSession], [NewSessionWithPolicy] *)
Definition NewSession (manifest : Manifest) : result Session :=
  if negb (is_ok (Manifest_validate manifest)) then Err (ErrReplica InvalidManifest) else Ok (mkSession manifest None).

(** [Session.Install]: the store is the state [DB] that [SaveCheckpoint] acts on;
    a nil store is [None]. *)
Definition Session_Install {DB} (s : ptr Session) (checkpoint : Checkpoint)
    (SaveCheckpoint : option (DB → Checkpoint → DB * result unit)) (db : DB) : (ptr Session * DB) * result unit :=
  match s, SaveCheckpoint with
  | Some ss, Some SaveCheckpoint =>
      if negb (Checkpoint_valid checkpoint) then ((s, db), Err (ErrReplica InvalidCheckpoint))
      else match Compatible (ss_manifest ss) (cp_manifest checkpoint) with
      | Err e => ((s, db), Err e)
      | Ok _ =>
          match ss_checkpoint ss with
          | Some installed =>
              if bool_decide (cp_id installed = cp_id checkpoint) then ((s, db), Ok tt)
              else ((s, db), Err (ErrReplica CheckpointChanged))
          | None =>
              match SaveCheckpoint db checkpoint with
              | (db, Err e) => ((s, db), Err e)
              | (db, Ok _) => ((Some (mkSession (ss_manifest ss) (Some checkpoint)), db), Ok tt)
              end
          end
      end
  | _, _ => ((s, db), Err (ErrReplica NilStore))
  end.

(** [Session.Acknowledge] *)
Definition Session_Acknowledge (s : ptr Session) : result Acknowledgement :=
  match s with
  | None => Err (ErrReplica NotInstalled)
  | Some ss =>
      match ss_checkpoint ss with
      | None => Err (ErrReplica NotInstalled)
      | Some c => Ok (mkAcknowledgement (mf_GroupID (ss_manifest ss)) (mf_Epoch (ss_manifest ss)) (cp_id c) (cp_frontier c))
      end
  end.
End checkpoints.

(** ** The builder of src/replica/session_builder.go: a manifest, as the policy
    has no fields. *)
Record SessionBuilder := mkSessionBuilder { sb_manifest : Manifest }.

(** [NewSessionBuilderFromManifest], [NewSessionBuilder], [NewSessionBuilderForFrameType] *)
Definition NewSessionBuilderFromManifest (manifest : Manifest) : result SessionBuilder :=
  if negb (is_ok (Manifest_validate manifest)) then Err (ErrReplica InvalidManifest) else Ok (mkSessionBuilder manifest).
Definition NewSessionBuilder (groupID schemaID : bytes) (epoch : Z) (protocol : Protocol) : result SessionBuilder :=
  manifest ← NewManifest groupID schemaID epoch protocol; NewSessionBuilderFromManifest manifest.
Definition NewSessionBuilderForFrameType (groupID schemaID : bytes) (epoch : Z) (frameType : FrameType) (codecID : bytes)
    : result SessionBuilder :=
  manifest ← NewManifestForFrameType groupID schemaID epoch frameType codecID; NewSessionBuilderFromManifest manifest.

(** [SessionBuilder.NewChange], [NewInbox], [NewCheckpoint], [NewSession] *)
Definition Builder_NewChange `{F : Flate} (b : SessionBuilder) (dot : Dot) (delta : bytes) : result Change :=
  NewChange (sb_manifest b) dot delta.
Definition Builder_NewInbox {ST : Type} (b : SessionBuilder) (frontier : Frontier) (maxPending maxBytes : Z)
    (apply : option (ST → bytes → result ST)) : result (Inbox ST) :=
  NewInbox (sb_manifest b) frontier maxPending maxBytes apply.
Definition Builder_NewCheckpoint `{F : Flate} (b : SessionBuilder) (state : bytes) (frontier : Frontier)
    (clockState : ClockState) (validator : option StateValidator) : result Checkpoint :=
  NewCheckpoint (sb_manifest b) state frontier clockState validator.
Definition Builder_NewSession (b : SessionBuilder) : result Session := NewSession (sb_manifest b).
