(* ===== verification/ReplicaTheory.v ===== *)
(** * Delivery through the inbox

    The inbox (src/replica/replica.go) restores each actor's order: the theorems
    say that every call returns, that the application sees each actor's changes
    once and in order whatever the network did, that nothing deliverable is held
    back, and that the queue's counters are exact. Checkpoints and sessions
    follow: a checkpoint's digest commits to its meaning and a session
    acknowledges only a stored one. *)

From S2P Require Import Prelude Tags Clock Wire SortedCodec Frame Sha256 Replica.

(** ** Sums over maps *)

Section map_sum.
Context {K V : Type} `{Countable K}.

Definition map_sum (g : V → Z) (m : gmap K V) : Z := map_fold (λ _ v acc, g v + acc) 0 m.

Lemma map_sum_insert g m k v : m !! k = None → map_sum g (<[k := v]> m) = g v + map_sum g m.
Proof. intros Hk. unfold map_sum. rewrite map_fold_insert_L; [done|intros; lia|done]. Qed.

Lemma map_sum_split (g : V → Z) (m : gmap K V) (k : K) :
  map_sum g m = match m !! k with Some v => g v | None => 0 end + map_sum g (delete k m).
Proof.
  destruct (m !! k) as [v|] eqn:Hk; [|by rewrite delete_id].
  rewrite <-(insert_delete_id m k v Hk) at 1. apply map_sum_insert, lookup_delete_eq.
Qed.
End map_sum.

Section inbox_theory.
Context `{F : Flate} {ST : Type}.
Implicit Types (i : Inbox ST) (st : ST) (actor : bytes).

Definition pend i actor (c : Z) : option Change := pending_of i actor !! c.

(** The sum of [g] over the queue. *)
Definition queue_sum (g : Change → Z) i : Z := map_sum (map_sum g) (ib_pending i).

Lemma queue_sum_split g i actor :
  queue_sum g i = map_sum g (pending_of i actor) + map_sum (map_sum g) (delete actor (ib_pending i)).
Proof.
  unfold queue_sum, pending_of. rewrite (map_sum_split _ _ actor).
  by destruct (ib_pending i !! actor).
Qed.

Record ib_inv i : Prop := mkIbInv {
  iv_limits : 0 < ib_maxPending i ∧ 0 < ib_maxBytes i;
  iv_frontier : ∀ actor, 0 <= Frontier_Counter (ib_frontier i) actor < 2 ^ 64;
  iv_pending : ∀ actor c ch, pend i actor c = Some ch →
    ch_Dot ch = mkDot actor c ∧ Dot_valid (ch_Dot ch) = true ∧
    Frontier_Counter (ib_frontier i) actor < c < 2 ^ 64;
  iv_count : ib_pendingCount i = queue_sum (λ _, 1) i ∧ ib_pendingCount i <= ib_maxPending i;
  iv_size : ib_pendingSize i = queue_sum (λ ch, len (ch_delta ch)) i ∧ ib_pendingSize i <= ib_maxBytes i }.

(** ** Taking a change from the queue *)

Lemma pending_take i actor c ch a :
  pending_of (take_pending i actor c ch) a = if decide (a = actor) then delete c (pending_of i actor) else pending_of i a.
Proof.
  unfold take_pending, pending_of at 1. cbn [ib_pending ib_set_pending].
  case_decide as Ha; [subst a|]; case_bool_decide as He.
  - by rewrite lookup_delete_eq, He.
  - by rewrite lookup_insert_eq.
  - by rewrite lookup_delete_ne.
  - by rewrite lookup_insert_ne.
Qed.

Lemma pend_take i actor c ch a c' :
  pend (take_pending i actor c ch) a c' = if decide (a = actor ∧ c' = c) then None else pend i a c'.
Proof.
  unfold pend. rewrite pending_take. case_decide as Ha; [subst a|]; case_decide as Hc; try naive_solver.
  - destruct Hc as [_ ->]. apply lookup_delete_eq.
  - rewrite lookup_delete_ne by naive_solver. done.
Qed.

Lemma queue_sum_take g i actor c ch :
  pend i actor c = Some ch → queue_sum g (take_pending i actor c ch) = queue_sum g i - g ch.
Proof.
  intros Hc. rewrite !(queue_sum_split g _ actor), pending_take, decide_True by done.
  rewrite (map_sum_split g (pending_of i actor) c). unfold pend in Hc. rewrite Hc.
  assert (delete actor (ib_pending (take_pending i actor c ch)) = delete actor (ib_pending i)) as ->; [|lia].
  unfold take_pending. cbn. case_bool_decide; [apply delete_delete_eq|apply delete_insert_eq].
Qed.

Lemma ib_inv_take i actor c ch : ib_inv i → pend i actor c = Some ch → ib_inv (take_pending i actor c ch).
Proof.
  intros [Hl Hf Hp [Hc1 Hc2] [Hs1 Hs2]] Hch. split; [done|done| | |].
  - intros a c' ch'. rewrite pend_take. case_decide; [done|]. apply Hp.
  - rewrite queue_sum_take by done. cbn. lia.
  - rewrite queue_sum_take by done. cbn. pose proof (len_nonneg (ch_delta ch)). lia.
Qed.

Lemma Counter_insert (f : Frontier) actor c a :
  Frontier_Counter (<[actor := c]> f) a = if decide (a = actor) then c else Frontier_Counter f a.
Proof.
  unfold Frontier_Counter. case_decide; [subst; by rewrite lookup_insert_eq|by rewrite lookup_insert_ne].
Qed.

(** [dot] is the next of its actor after the frontier [f]. *)
Definition next_dot (f : Frontier) (dot : Dot) : Prop :=
  Dot_valid dot = true ∧ Counter dot = Frontier_Counter f (Actor dot) + 1 ∧ Counter dot < 2 ^ 64.

Lemma Advance_next f dot :
  (∀ actor, 0 <= Frontier_Counter f actor) → next_dot f dot → Advance f dot = Ok (<[Actor dot := Counter dot]> f).
Proof.
  intros Hf (Hv & Hc & Hu). specialize (Hf (Actor dot)). unfold Advance. rewrite Hv. cbn [negb].
  destruct (Z.leb_spec (Counter dot) (Frontier_Counter f (Actor dot))); [lia|].
  unfold u64. rewrite Z.mod_small by lia. rewrite Hc, Z.eqb_refl. cbn [negb]. by rewrite <-Hc.
Qed.

Lemma ib_inv_advance i dot :
  ib_inv i → next_dot (ib_frontier i) dot → pend i (Actor dot) (Counter dot) = None →
  Inbox_advance i dot = Ok (ib_set_frontier i (<[Actor dot := Counter dot]> (ib_frontier i))) ∧
  ib_inv (ib_set_frontier i (<[Actor dot := Counter dot]> (ib_frontier i))).
Proof.
  intros [Hl Hf Hp Hc Hs] Hn Hnone. split.
  { unfold Inbox_advance. rewrite Advance_next; [done|intros a; apply Hf|done]. }
  destruct Hn as (Hv & HC & Hu). split; [done| | |done|done]; cbn [ib_frontier ib_set_frontier].
  - intros a. rewrite Counter_insert. specialize (Hf (Actor dot)) as Hfa. specialize (Hf a). case_decide; lia.
  - intros a c ch Hch. change (pend i a c = Some ch) in Hch. rewrite Counter_insert.
    pose proof (Hp a c ch Hch) as (? & ? & ?). case_decide; [|done]. subst a.
    split; [done|]. split; [done|]. destruct (decide (c = Counter dot)); [congruence|lia].
Qed.

(** ** What the application sees *)

(** Applying the deltas one after the other. *)
Definition apply_all (apply : ST → bytes → result ST) (st : ST) (log : list (Dot * bytes)) : result ST :=
  foldl (λ r e, st ← r; apply st e.2) (Ok st) log.

(** Each dot is the next of its actor when its delta is applied. *)
Inductive contiguous : Frontier → list (Dot * bytes) → Frontier → Prop :=
| contiguous_nil f : contiguous f [] f
| contiguous_cons f f' dot delta log :
    next_dot f dot → contiguous (<[Actor dot := Counter dot]> f) log f' → contiguous f ((dot, delta) :: log) f'.

Lemma contiguous_app f1 l1 f2 l2 f3 : contiguous f1 l1 f2 → contiguous f2 l2 f3 → contiguous f1 (l1 ++ l2) f3.
Proof. intros H1 H2. induction H1; [done|]. by constructor; [|apply IHcontiguous]. Qed.

Lemma contiguous_mono f log f' actor : contiguous f log f' → Frontier_Counter f actor <= Frontier_Counter f' actor.
Proof.
  induction 1 as [|f f' dot delta log (_ & Hc & _) _ IH]; [done|]. rewrite Counter_insert in IH.
  case_decide; [subst; lia|done].
Qed.

(** The counters of one actor. *)
Definition counters_of (actor : bytes) (log : list (Dot * bytes)) : list Z :=
  (λ e : Dot * bytes, Counter e.1) <$> filter (λ e : Dot * bytes, Actor e.1 = actor) log.

Lemma contiguous_counters f log f' actor :
  contiguous f log f' →
  counters_of actor log = seqZ (Frontier_Counter f actor + 1) (Frontier_Counter f' actor - Frontier_Counter f actor).
Proof.
  induction 1 as [f|f f' dot delta log (_ & Hc & _) Hlog IH].
  - by rewrite Z.sub_diag.
  - pose proof (contiguous_mono _ _ _ actor Hlog) as Hm. unfold counters_of in *.
    rewrite Counter_insert in IH, Hm. rewrite filter_cons. cbn [fst].
    destruct (decide (Actor dot = actor)) as [<-|Ha]; [|by rewrite decide_False in IH by congruence].
    rewrite decide_True in IH, Hm by done. rewrite fmap_cons, IH. cbn [fst].
    rewrite (seqZ_cons (Frontier_Counter f (Actor dot) + 1)) by lia. f_equal; [lia|]. f_equal; lia.
Qed.

(** A call moves the inbox and the application by the log. *)
Record delivered i st (log : list (Dot * bytes)) i' st' : Prop := mkDelivered {
  dl_config : ib_manifest i' = ib_manifest i ∧ ib_apply i' = ib_apply i ∧ ib_maxPending i' = ib_maxPending i ∧
    ib_maxBytes i' = ib_maxBytes i;
  dl_inv : ib_inv i';
  dl_chain : contiguous (ib_frontier i) log (ib_frontier i');
  dl_apply : apply_all (ib_apply i) st log = Ok st' }.

Lemma delivered_nil i st : ib_inv i → delivered i st [] i st.
Proof. intros Hi. split; [done|done|apply contiguous_nil|done]. Qed.

Lemma apply_all_app apply st l1 l2 : apply_all apply st (l1 ++ l2) = (st ← apply_all apply st l1; apply_all apply st l2).
Proof.
  unfold apply_all. rewrite foldl_app. destruct (foldl _ (Ok st) l1) as [s|e]; [done|]. cbn.
  by induction l2.
Qed.

Lemma delivered_trans i1 s1 l1 i2 s2 l2 i3 s3 :
  delivered i1 s1 l1 i2 s2 → delivered i2 s2 l2 i3 s3 → delivered i1 s1 (l1 ++ l2) i3 s3.
Proof.
  intros [(? & E & ? & ?) ? ? Ha1] [(? & ? & ? & ?) ? ? Ha2]. split; [split_and!; congruence|done| |].
  - by eapply contiguous_app.
  - rewrite apply_all_app, Ha1. cbn. by rewrite <-E.
Qed.

(** One delta applied, its change taken from the queue if it was there, and the
    frontier advanced. *)
Lemma deliver_one i st dot delta st' i1 :
  ib_inv i → next_dot (ib_frontier i) dot → ib_apply i st delta = Ok st' →
  i1 = match pend i (Actor dot) (Counter dot) with
       | Some ch => take_pending i (Actor dot) (Counter dot) ch
       | None => i
       end →
  let i2 := ib_set_frontier i1 (<[Actor dot := Counter dot]> (ib_frontier i)) in
  Inbox_advance i1 dot = Ok i2 ∧ delivered i st [(dot, delta)] i2 st' ∧
  (∀ a c, pend i2 a c = if decide (a = Actor dot ∧ c = Counter dot) then None else pend i a c).
Proof.
  intros Hi Hn Ha Hi1.
  assert (ib_inv i1 ∧ ib_frontier i1 = ib_frontier i ∧ ib_apply i1 = ib_apply i ∧
    (∀ a c, pend i1 a c = if decide (a = Actor dot ∧ c = Counter dot) then None else pend i a c) ∧
    ib_manifest i1 = ib_manifest i ∧ ib_maxPending i1 = ib_maxPending i ∧ ib_maxBytes i1 = ib_maxBytes i)
    as (Hinv & Hf & Happ & Hp & Hcfg).
  { subst i1. destruct (pend i (Actor dot) (Counter dot)) as [ch|] eqn:Hch.
    - split; [by apply ib_inv_take|]. split; [done|]. split; [done|]. split; [|done]. intros. apply pend_take.
    - split; [done|]. split; [done|]. split; [done|]. split; [|done]. intros a c. case_decide as Hd; [|done].
      by destruct Hd as [-> ->]. }
  pose proof (ib_inv_advance i1 dot Hinv) as [Hadv Hinv2].
  { by rewrite Hf. }
  { by rewrite Hp, decide_True. }
  rewrite Hf in Hadv, Hinv2. cbn zeta. split; [done|]. split; [|done]. split; [naive_solver|done| |].
  - cbn. econstructor; [done|constructor].
  - unfold apply_all. cbn. exact Ha.
Qed.

(** What a loop for [actor] leaves of the queue. *)
Definition keeps actor i i' : Prop :=
  (∀ a c ch, pend i' a c = Some ch → pend i a c = Some ch) ∧
  (∀ a c ch, pend i a c = Some ch → pend i' a c = Some ch ∨ c <= Frontier_Counter (ib_frontier i') a) ∧
  (∀ a, a ≠ actor → pending_of i' a = pending_of i a ∧
    Frontier_Counter (ib_frontier i') a = Frontier_Counter (ib_frontier i) a).

Definition logged_from i (log : list (Dot * bytes)) : Prop :=
  ∀ dot delta, (dot, delta) ∈ log → ∃ ch, pend i (Actor dot) (Counter dot) = Some ch ∧ ch_delta ch = delta.


Lemma keeps_refl actor i : keeps actor i i.
Proof. split; [auto|]. split; auto. Qed.

Lemma keeps_trans actor i1 i2 i3 :
  (∀ a, Frontier_Counter (ib_frontier i2) a <= Frontier_Counter (ib_frontier i3) a) →
  keeps actor i1 i2 → keeps actor i2 i3 → keeps actor i1 i3.
Proof.
  intros Hm (Hb1 & Hk1 & Ho1) (Hb2 & Hk2 & Ho2). split; [auto|]. split.
  - intros a c ch Hc. specialize (Hm a). apply Hk1 in Hc as [Hc|]; [|right; lia]. by apply Hk2.
  - intros a Ha. destruct (Ho1 a Ha), (Ho2 a Ha). split; congruence.
Qed.

(** The loop has nothing to do: its result is the state it has. *)
Definition loop_done actor i st : Prop :=
  delivered i st [] i st ∧ logged_from i [] ∧ keeps actor i i.

Lemma loop_done_intro actor i st : ib_inv i → loop_done actor i st.
Proof. intros Hi. split; [by apply delivered_nil|]. split; [by intros ? ? ?%elem_of_nil|apply keeps_refl]. Qed.

Lemma next_counter i actor ch :
  ib_inv i → pend i actor (u64 (Frontier_Counter (ib_frontier i) actor + 1)) = Some ch →
  u64 (Frontier_Counter (ib_frontier i) actor + 1) = Frontier_Counter (ib_frontier i) actor + 1.
Proof.
  intros Hi Hch. pose proof (iv_pending _ Hi _ _ _ Hch) as (_ & _ & Hb). pose proof (iv_frontier _ Hi actor).
  unfold u64 in *. pose proof (Z.mod_le (Frontier_Counter (ib_frontier i) actor + 1) (2 ^ 64)). lia.
Qed.

Lemma next_absent i actor :
  ib_inv i → pend i actor (u64 (Frontier_Counter (ib_frontier i) actor + 1)) = None →
  pend i actor (Frontier_Counter (ib_frontier i) actor + 1) = None.
Proof.
  intros Hi Hn. destruct (pend i actor (_ + 1)) as [ch|] eqn:Hch; [|done].
  pose proof (iv_pending _ Hi _ _ _ Hch) as (_ & _ & Hb). pose proof (iv_frontier _ Hi actor).
  unfold u64 in Hn. rewrite Z.mod_small in Hn by lia. congruence.
Qed.

(** One round of the loop. *)
Lemma receive_round i st actor next st' :
  ib_inv i → pend i actor (Frontier_Counter (ib_frontier i) actor + 1) = Some next →
  ib_apply i st (ch_delta next) = Ok st' →
  ∃ i2, Inbox_advance (take_pending i actor (Frontier_Counter (ib_frontier i) actor + 1) next) (ch_Dot next) = Ok i2 ∧
    delivered i st [(ch_Dot next, ch_delta next)] i2 st' ∧ keeps actor i i2 ∧
    logged_from i [(ch_Dot next, ch_delta next)] ∧
    (S (size (pending_of i2 actor)) = size (pending_of i actor))%nat.
Proof.
  intros Hi Hnext Happ. pose proof (iv_pending _ Hi _ _ _ Hnext) as (Hdot & Hv & Hb).
  set (c := Frontier_Counter (ib_frontier i) actor + 1) in *.
  destruct (deliver_one i st (ch_Dot next) (ch_delta next) st' (take_pending i actor c next))
    as (Hadv & Hdel & Hp); [done|rewrite Hdot in *; split; [done|]; cbn; lia|done|rewrite Hdot; cbn [Actor Counter]; by rewrite Hnext|].
  eexists. split; [exact Hadv|]. split; [done|]. rewrite Hdot in Hp |- *. cbn [Actor Counter] in Hp |- *.
  split; [split; [|split]|split].
  - intros a c' ch. rewrite Hp. by case_decide.
  - intros a c' ch Hch. rewrite Hp. case_decide as Hd; [|by left]. destruct Hd as [-> ->]. right.
    cbn. by rewrite Counter_insert, decide_True.
  - intros a Ha. cbn. rewrite Counter_insert, decide_False by done. split; [|done].
    change (pending_of (take_pending i actor c next) a = pending_of i a). by rewrite pending_take, decide_False.
  - intros dot delta [= -> ->]%list_elem_of_singleton. by exists next.
  - change (S (size (pending_of (take_pending i actor c next) actor)) = size (pending_of i actor)).
    rewrite pending_take, decide_True by done. rewrite map_size_delete_Some by (by eexists).
    assert (size (pending_of i actor) ≠ 0%nat); [|lia]. apply (map_size_ne_0_lookup_2 _ c). by exists next.
Qed.

(** The loop always ends, with as many rounds as the actor has pending changes. *)
Lemma receive_loop_spec fuel i st actor applied :
  ib_inv i → (size (pending_of i actor) <= fuel)%nat →
  ∃ i' st' e log,
    receive_loop fuel i st actor applied = Some ((i', st'), (mkDelivery false false (applied ++ log.*1), e)) ∧
    delivered i st log i' st' ∧ logged_from i log ∧ keeps actor i i' ∧
    (e = None → pend i' actor (Frontier_Counter (ib_frontier i') actor + 1) = None).
Proof.
  revert i st applied. induction fuel as [|fuel IH]; intros i st applied Hi Hfuel; cbn [receive_loop];
    fold (pend i actor (u64 (Frontier_Counter (ib_frontier i) actor + 1)));
    destruct (pend i actor (u64 (Frontier_Counter (ib_frontier i) actor + 1))) as [next|] eqn:Hnext;
    destruct (loop_done_intro actor i st Hi) as (Hd & Hl & Hk).
  2, 4: exists i, st, None, []; rewrite app_nil_r; do 4 (split; [done|]); intros _; by apply next_absent.
  { exfalso. unfold pend in Hnext. assert (pending_of i actor = ∅) as He by (apply map_size_empty_inv; lia).
    by rewrite He, lookup_empty in Hnext. }
  rewrite (next_counter i actor next) in * by done.
  destruct (ib_apply i st (ch_delta next)) as [st1|e] eqn:Happ.
  2: { exists i, st, (Some e), []. rewrite app_nil_r. by do 4 (split; [done|]). }
  destruct (receive_round i st actor next st1) as (i2 & -> & Hdel & Hk2 & Hl2 & Hsz); [done..|].
  destruct (IH i2 st1 (applied ++ [ch_Dot next])) as (i' & st' & e & log & -> & Hdel' & Hl' & Hk' & He);
    [by destruct Hdel|lia|].
  exists i', st', e, ((ch_Dot next, ch_delta next) :: log). rewrite <-app_assoc. split; [done|].
  split; [by apply (delivered_trans _ _ [_] _ _ log _ _ Hdel)|]. split; [|split; [|done]].
  - intros dot delta [?|Hin]%elem_of_cons; [by apply Hl2, list_elem_of_singleton|].
    destruct (Hl' _ _ Hin) as (ch & Hch & <-). exists ch. split; [|done]. by apply Hk2.
  - apply (keeps_trans _ _ i2); [|done..]. intros a. by eapply contiguous_mono; destruct Hdel'.
Qed.

(** ** One call of [Receive] *)

(** The counter of the change is a [uint64]. *)
Definition change_wf (ch : Change) : Prop := 0 <= Counter (ch_Dot ch) < 2 ^ 64.

(** No actor's next change waits in the queue. *)
Definition prompt i : Prop := ∀ actor, pend i actor (Frontier_Counter (ib_frontier i) actor + 1) = None.

Record received i st (ch : Change) i' st' (d : Delivery) (e : option error) (log : list (Dot * bytes)) : Prop := mkReceived {
  rc_delivered : delivered i st log i' st';
  rc_applied : Applied d = log.*1;
  rc_source : ∀ dot delta, (dot, delta) ∈ log → (dot, delta) = (ch_Dot ch, ch_delta ch) ∨
    ∃ p, pend i (Actor dot) (Counter dot) = Some p ∧ ch_delta p = delta;
  rc_queued : ∀ a c p, pend i' a c = Some p →
    pend i a c = Some p ∨ (ch_Dot ch = mkDot a c ∧ ch_delta p = ch_delta ch);
  rc_kept : ∀ a c p, pend i a c = Some p → pend i' a c = Some p ∨ c <= Frontier_Counter (ib_frontier i') a;
  rc_known : e = None → Counter (ch_Dot ch) <= Frontier_Counter (ib_frontier i') (Actor (ch_Dot ch)) ∨
    is_Some (pend i' (Actor (ch_Dot ch)) (Counter (ch_Dot ch)));
  rc_prompt : e = None → prompt i → prompt i' }.

(** A call that changes nothing. *)
Lemma received_same i st ch d e :
  ib_inv i → Applied d = [] →
  (e = None → Counter (ch_Dot ch) <= Frontier_Counter (ib_frontier i) (Actor (ch_Dot ch)) ∨
    is_Some (pend i (Actor (ch_Dot ch)) (Counter (ch_Dot ch)))) →
  received i st ch i st d e [].
Proof.
  intros Hi Hd Hk. split; [by apply delivered_nil|done|by intros ? ? ?%elem_of_nil|auto|auto|done|done].
Qed.

Lemma pend_insert i actor c p count size_ a c' :
  pend (ib_set_pending i (<[actor := <[c := p]> (pending_of i actor)]> (ib_pending i)) count size_) a c' =
  if decide (a = actor ∧ c' = c) then Some p else pend i a c'.
Proof.
  unfold pend, pending_of at 1. cbn [ib_pending ib_set_pending].
  destruct (decide (a = actor)) as [->|Ha].
  - rewrite lookup_insert_eq. cbn. destruct (decide (c' = c)) as [->|Hc].
    + rewrite lookup_insert_eq, decide_True by done. done.
    + rewrite lookup_insert_ne, decide_False by naive_solver. done.
  - rewrite lookup_insert_ne, decide_False by naive_solver. done.
Qed.

Lemma queue_sum_insert g i actor c p count size_ :
  pend i actor c = None →
  queue_sum g (ib_set_pending i (<[actor := <[c := p]> (pending_of i actor)]> (ib_pending i)) count size_) =
  queue_sum g i + g p.
Proof.
  intros Hc. rewrite !(queue_sum_split g _ actor). unfold pending_of at 1. cbn [ib_pending ib_set_pending].
  rewrite lookup_insert_eq, delete_insert_eq. cbn. rewrite map_sum_insert by done. lia.
Qed.

Lemma Inbox_buffer_spec i st ch i' d e :
  ib_inv i → change_wf ch → Dot_valid (ch_Dot ch) = true →
  Frontier_Counter (ib_frontier i) (Actor (ch_Dot ch)) + 1 < Counter (ch_Dot ch) →
  Inbox_buffer i ch = (i', (d, e)) → received i st ch i' st d e [].
Proof.
  intros Hi Hwf Hv Hgap. unfold Inbox_buffer. fold (pend i (Actor (ch_Dot ch)) (Counter (ch_Dot ch))).
  destruct (pend i _ _) as [p|] eqn:Hp.
  { case_bool_decide; cbn [negb]; intros [= <- <- <-]; apply received_same; try done. intros _. right. by rewrite Hp. }
  destruct (_ || _) eqn:G; [intros [= <- <- <-]; by apply received_same|]. breflect. intros [= <- <- <-].
  set (i' := ib_set_pending _ _ _ _). destruct Hi as [Hl Hf Hpend [Hc1 Hc2] [Hs1 Hs2]].
  assert (∀ a c p, pend i' a c = Some p → pend i a c = Some p ∨
    (ch_Dot ch = mkDot a c ∧ p = mkChange (ch_Dot ch) zeroManifest (ch_delta ch) false)) as Hin.
  { intros a c p. unfold i'. rewrite pend_insert. case_decide as Hd; [|by left]. destruct Hd as [-> ->].
    intros [= <-]. right. by destruct (ch_Dot ch). }
  assert (∀ a c p, pend i a c = Some p → pend i' a c = Some p) as Hkeep.
  { intros a c p Hap. unfold i'. rewrite pend_insert. case_decide as Hd; [|done]. destruct Hd as [-> ->]. congruence. }
  split; try done.
  - split; [done| |constructor|done]. split; [done|done| | |].
    + intros a c p [Hap|[Hdot ->]]%Hin; [by apply Hpend|]. cbn [ch_Dot].
      unfold change_wf in Hwf. rewrite Hdot in *. split; [done|]. split; [done|]. cbn in *. lia.
    + unfold i'. rewrite queue_sum_insert by done. cbn. lia.
    + unfold i'. rewrite queue_sum_insert by done. cbn. lia.
  - by intros ? ? ?%elem_of_nil.
  - intros a c p [?|[? ->]]%Hin; [by left|by right].
  - intros a c p ?. left. auto.
  - intros _. right. unfold i'. rewrite pend_insert, decide_True by done. by eexists.
  - intros _ Hpr a. unfold i'. rewrite pend_insert, decide_False; [apply Hpr|]. cbn. intros [-> Hc]. lia.
Qed.

(** The change that is next: applied, then the ones it unblocks. *)
Lemma receive_next i st ch st1 i1 :
  ib_inv i → next_dot (ib_frontier i) (ch_Dot ch) → ib_apply i st (ch_delta ch) = Ok st1 →
  i1 = match pend i (Actor (ch_Dot ch)) (Counter (ch_Dot ch)) with
       | Some p => take_pending i (Actor (ch_Dot ch)) (Counter (ch_Dot ch)) p
       | None => i
       end →
  ∃ i2 i' st' d e log, Inbox_advance i1 (ch_Dot ch) = Ok i2 ∧
    receive_loop (size (pending_of i2 (Actor (ch_Dot ch)))) i2 st1 (Actor (ch_Dot ch)) [ch_Dot ch] =
      Some ((i', st'), (d, e)) ∧ received i st ch i' st' d e log.
Proof.
  intros Hi Hn Ha Hi1. destruct (deliver_one i st (ch_Dot ch) (ch_delta ch) st1 i1) as (Hadv & Hdel & Hp); [done..|].
  set (dot := ch_Dot ch) in *. set (i2 := ib_set_frontier i1 _) in *.
  destruct (receive_loop_spec (size (pending_of i2 (Actor dot))) i2 st1 (Actor dot) [dot])
    as (i' & st' & e & log & Hloop & Hdel' & Hl & (Hb & Hk & Ho) & He); [by destruct Hdel|done|].
  assert (∀ a, Frontier_Counter (ib_frontier i2) a <= Frontier_Counter (ib_frontier i') a) as Hmono
    by (intros a; eapply contiguous_mono; by destruct Hdel').
  assert (Counter dot <= Frontier_Counter (ib_frontier i') (Actor dot)) as Hdone.
  { specialize (Hmono (Actor dot)). unfold i2 in Hmono. cbn [ib_frontier ib_set_frontier] in Hmono.
    by rewrite Counter_insert, decide_True in Hmono. }
  exists i2, i', st', (mkDelivery false false ([dot] ++ log.*1)), e, ((dot, ch_delta ch) :: log).
  split; [done|]. split; [done|]. split.
  - by apply (delivered_trans _ _ [_] _ _ log _ _ Hdel).
  - done.
  - intros d delta [?|Hin]%elem_of_cons; [by left|]. right. destruct (Hl _ _ Hin) as (p & Hpe & <-).
    exists p. split; [|done]. rewrite Hp in Hpe. by case_decide.
  - intros a c p Hpe. left. apply Hb in Hpe. rewrite Hp in Hpe. by case_decide.
  - intros a c p Hpe. destruct (decide (a = Actor dot ∧ c = Counter dot)) as [[-> ->]|Hne]; [by right|].
    apply Hk. by rewrite Hp, decide_False.
  - by left.
  - intros Hnone Hpr a. destruct (decide (a = Actor dot)) as [->|Hne]; [by apply He|].
    destruct (Ho a Hne) as [Hsame Hc]. rewrite Hc. unfold i2. cbn [ib_frontier ib_set_frontier].
    rewrite Counter_insert, decide_False by done. unfold pend. rewrite Hsame.
    change (pend i2 a (Frontier_Counter (ib_frontier i) a + 1) = None). rewrite Hp, decide_False by naive_solver. apply Hpr.
Qed.

Lemma Change_validate_dot ch m : Change_validate ch m = Ok tt → Dot_valid (ch_Dot ch) = true.
Proof. unfold Change_validate. by destruct (Dot_valid (ch_Dot ch)). Qed.

(** [Receive] returns for every change, and what it returns accounts for what it did. *)
Lemma Inbox_Receive_spec i st ch :
  ib_inv i → change_wf ch →
  ∃ i' st' d e log, Inbox_Receive (Some i) st ch = Some ((Some i', st'), (d, e)) ∧ received i st ch i' st' d e log.
Proof.
  intros Hi Hwf. unfold Inbox_Receive. destruct (Change_validate ch (ib_manifest i)) as [[]|e] eqn:Hval.
  2: { exists i, st, zeroDelivery, (Some e), []. split; [done|]. by apply received_same. }
  apply Change_validate_dot in Hval. pose proof (iv_frontier _ Hi (Actor (ch_Dot ch))) as Hfr. unfold change_wf in Hwf.
  destruct (Z.leb_spec (Counter (ch_Dot ch)) (Frontier_Counter (ib_frontier i) (Actor (ch_Dot ch)))).
  { exists i, st, (mkDelivery false true []), None, []. split; [done|]. apply received_same; auto. }
  unfold u64. rewrite Z.mod_small by lia.
  destruct (Z.ltb_spec (Frontier_Counter (ib_frontier i) (Actor (ch_Dot ch)) + 1) (Counter (ch_Dot ch))).
  { destruct (Inbox_buffer i ch) as [i' [d e]] eqn:Hbuf. exists i', st, d, e, []. split; [done|].
    by apply (Inbox_buffer_spec i st ch i' d e). }
  fold (pend i (Actor (ch_Dot ch)) (Counter (ch_Dot ch))).
  destruct (match pend i _ _ with Some _ => _ | None => _ end) eqn:Hconf.
  { exists i, st, zeroDelivery, (Some (ErrReplica DotConflict)), []. split; [done|]. by apply received_same. }
  destruct (ib_apply i st (ch_delta ch)) as [st1|e] eqn:Happ.
  2: { exists i, st, zeroDelivery, (Some e), []. split; [done|]. by apply received_same. }
  destruct (receive_next i st ch st1 _ Hi ltac:(split; [done|lia]) Happ eq_refl)
    as (i2 & i' & st' & d & e & log & -> & Hloop & Hrec).
  exists i', st', d, e, log. split; [|done]. cbn. by rewrite Hloop.
Qed.

(** ** Any sequence of deliveries *)

Fixpoint inbox_run (i : ptr (Inbox ST)) st (changes : list Change)
    : option ((ptr (Inbox ST) * ST) * list (Delivery * option error)) :=
  match changes with
  | [] => Some ((i, st), [])
  | ch :: changes' =>
      '((i, st), out) ← Inbox_Receive i st ch;
      '(final, outs) ← inbox_run i st changes';
      Some (final, out :: outs)
  end.

Definition change_entry (ch : Change) : Dot * bytes := (ch_Dot ch, ch_delta ch).

(** What a run leaves, relative to the state it started from. *)
Record ran i st (changes : list Change) i' st' (outs : list (Delivery * option error)) (log : list (Dot * bytes)) : Prop := mkRan {
  rn_delivered : delivered i st log i' st';
  rn_applied : (outs ≫= λ out, Applied out.1) = log.*1;
  rn_source : ∀ dot delta, (dot, delta) ∈ log → (dot, delta) ∈ change_entry <$> changes ∨
    ∃ p, pend i (Actor dot) (Counter dot) = Some p ∧ ch_delta p = delta;
  rn_kept : ∀ a c p, pend i a c = Some p → is_Some (pend i' a c) ∨ c <= Frontier_Counter (ib_frontier i') a;
  rn_known : Forall (λ out, out.2 = None) outs → ∀ ch, ch ∈ changes →
    Counter (ch_Dot ch) <= Frontier_Counter (ib_frontier i') (Actor (ch_Dot ch)) ∨
    is_Some (pend i' (Actor (ch_Dot ch)) (Counter (ch_Dot ch)));
  rn_prompt : Forall (λ out, out.2 = None) outs → prompt i → prompt i' }.

Lemma inbox_run_spec i st changes :
  ib_inv i → Forall change_wf changes →
  ∃ i' st' outs log, inbox_run (Some i) st changes = Some ((Some i', st'), outs) ∧ ran i st changes i' st' outs log.
Proof.
  revert i st. induction changes as [|ch changes IH]; intros i st Hi Hwf.
  - exists i, st, [], []. split; [done|]. split; [by apply delivered_nil|done|by intros ? ? ?%elem_of_nil| |by intros _ ? ?%elem_of_nil|done].
    intros a c p Hp. left. by rewrite Hp.
  - apply Forall_cons in Hwf as [Hch Hwf].
    destruct (Inbox_Receive_spec i st ch Hi Hch) as (i1 & st1 & d & e & l1 & Hrec & R).
    destruct (IH i1 st1) as (i' & st' & outs & l2 & Hrun & [Rd Ra Rs Rk Rn Rp]); [by destruct (rc_delivered _ _ _ _ _ _ _ _ R)|done|].
    destruct R as [Cd Ca Cs Cq Ck Cn Cp].
    assert (∀ a, Frontier_Counter (ib_frontier i1) a <= Frontier_Counter (ib_frontier i') a) as Hmono
      by (intros a; eapply contiguous_mono; by destruct Rd).
    exists i', st', ((d, e) :: outs), (l1 ++ l2). split; [cbn [inbox_run]; rewrite Hrec; cbn [mbind option_bind]; by rewrite Hrun|]. split.
    + by eapply delivered_trans.
    + rewrite bind_cons, fmap_app. cbn [fst]. by rewrite Ca, Ra.
    + intros dot delta [Hin|Hin]%elem_of_app; rewrite fmap_cons.
      * apply Cs in Hin as [->|Hp]; [left; by constructor|by right].
      * apply Rs in Hin as [?|(p & Hp & <-)]; [left; by constructor|].
        apply Cq in Hp as [Hp|[Hdot ->]]; [right; by exists p|]. left.
        replace (dot, ch_delta ch) with (change_entry ch); [by constructor|].
        unfold change_entry. rewrite Hdot. by destruct dot.
    + intros a c p Hp. apply Ck in Hp as [Hp|Hp]; [by eapply Rk|]. right. specialize (Hmono a). lia.
    + intros [He Hes]%Forall_cons x [->|Hx]%elem_of_cons; [|by apply Rn].
      cbn in He. destruct (Cn He) as [?|[p Hp]]; [left; specialize (Hmono (Actor (ch_Dot ch))); lia|].
      apply Rk in Hp. tauto.
    + intros [He Hes]%Forall_cons Hpr. auto.
Qed.

Lemma NewInbox_inv manifest f0 maxPending maxBytes apply i0 :
  NewInbox manifest f0 maxPending maxBytes (Some apply) = Ok i0 → map_Forall (λ _ c, 0 <= c < 2 ^ 64) f0 →
  ib_inv i0 ∧ ib_frontier i0 = f0 ∧ ib_apply i0 = apply ∧ ib_maxPending i0 = maxPending ∧ ib_maxBytes i0 = maxBytes ∧
  (∀ a c, pend i0 a c = None).
Proof.
  intros Hnew Hf. unfold NewInbox in Hnew. destruct (_ || _ || _ || _) eqn:G; [done|]. breflect. injection Hnew as <-.
  assert (∀ a c, pend (mkInbox manifest f0 apply maxPending maxBytes ∅ 0 0) a c = None) as Hp.
  { intros a c. unfold pend, pending_of. cbn [ib_pending]. rewrite lookup_empty. apply lookup_empty. }
  split; [|done]. split; cbn [ib_frontier ib_maxPending ib_maxBytes ib_pendingCount ib_pendingSize].
  - lia.
  - intros actor. unfold Frontier_Counter. destruct (f0 !! actor) as [c|] eqn:Hc; [|cbn; lia]. by apply (Hf _ _ Hc).
  - intros a c ch. by rewrite Hp.
  - split; [done|lia].
  - split; [done|lia].
Qed.

(** C7: each actor's changes are applied once and in order. Whatever changes
    arrive, duplicated, reordered, conflicting or invalid, and whichever of them
    the application refuses, every call of [Receive] returns; the application
    state is the fold of a log of received deltas, which are the ones reported
    as applied; and of each actor the log holds exactly the counters from the
    initial frontier to the final one, in order. The queue's count and size are
    those of its changes and within the limits. *)
Theorem Inbox_exactly_once (manifest : Manifest) (f0 : Frontier) (maxPending maxBytes : Z) (apply : ST → bytes → result ST) i0 st0
    (changes : list Change)
    (Hnew : NewInbox manifest f0 maxPending maxBytes (Some apply) = Ok i0)
    (Hf0 : map_Forall (λ _ c, 0 <= c < 2 ^ 64) f0) (Hwf : Forall change_wf changes) :
  ∃ i st outs log,
    inbox_run (Some i0) st0 changes = Some ((Some i, st), outs) ∧
    apply_all apply st0 log = Ok st ∧ (outs ≫= λ out, Applied out.1) = log.*1 ∧ log ⊆ change_entry <$> changes ∧
    (∀ actor, counters_of actor log = seqZ (Frontier_Counter f0 actor + 1)
       (Frontier_Counter (Inbox_Frontier (Some i)) actor - Frontier_Counter f0 actor)) ∧
    Inbox_Pending (Some i) = (queue_sum (λ _, 1) i, queue_sum (λ ch, len (ch_delta ch)) i) ∧
    queue_sum (λ _, 1) i <= maxPending ∧ queue_sum (λ ch, len (ch_delta ch)) i <= maxBytes.
Proof.
  destruct (NewInbox_inv _ _ _ _ _ _ Hnew Hf0) as (Hi & <- & <- & <- & <- & Hp).
  destruct (inbox_run_spec i0 st0 changes Hi Hwf) as (i & st & outs & log & Hrun & [[Hcfg Hinv Hch Hap] Ha Hs _ _ _]).
  exists i, st, outs, log. split; [done|]. split; [done|]. split; [done|]. split.
  { intros [dot delta] Hin. apply Hs in Hin as [?|(p & Hpe & _)]; [done|]. by rewrite Hp in Hpe. }
  split; [intros actor; by apply contiguous_counters|].
  destruct Hinv as [_ _ _ [Hc ?] [Hz ?]], Hcfg as (_ & _ & <- & <-). cbn [Inbox_Pending]. rewrite Hc, Hz in *. done.
Qed.

(** C14: nothing deliverable is held back. When no call reported an error, every
    actor's frontier has reached the end of the gap-free run of its received
    changes: a change whose predecessors have all arrived, in whatever order, is
    applied. *)
Theorem Inbox_complete (manifest : Manifest) (f0 : Frontier) (maxPending maxBytes : Z) (apply : ST → bytes → result ST) i0 st0
    (changes : list Change) i st outs actor (n : Z)
    (Hnew : NewInbox manifest f0 maxPending maxBytes (Some apply) = Ok i0)
    (Hf0 : map_Forall (λ _ c, 0 <= c < 2 ^ 64) f0) (Hwf : Forall change_wf changes)
    (Hrun : inbox_run (Some i0) st0 changes = Some ((Some i, st), outs)) (Hok : Forall (λ out, out.2 = None) outs)
    (Harrived : ∀ c, Frontier_Counter f0 actor < c <= n → ∃ ch, ch ∈ changes ∧ ch_Dot ch = mkDot actor c) :
  n <= Frontier_Counter (Inbox_Frontier (Some i)) actor.
Proof.
  destruct (NewInbox_inv _ _ _ _ _ _ Hnew Hf0) as (Hi & <- & <- & _ & _ & Hp).
  destruct (inbox_run_spec i0 st0 changes Hi Hwf) as (i' & st' & outs' & log & Hrun' & [[_ _ Hch _] _ _ _ Hk Hpr]).
  rewrite Hrun in Hrun'. injection Hrun' as <- <- <-. cbn [Inbox_Frontier].
  pose proof (contiguous_mono _ _ _ actor Hch). set (f := Frontier_Counter (ib_frontier i) actor) in *.
  destruct (Z.le_gt_cases n f) as [|Hgt]; [done|]. exfalso.
  destruct (Harrived (f + 1)) as (ch & Hin & Hdot); [lia|].
  destruct (Hk Hok ch Hin) as [Hle|[p Hpe]]; rewrite Hdot in *; cbn [Actor Counter] in *; [unfold f in *; lia|].
  pose proof (Hpr Hok (λ a, Hp a _) actor) as Hnone. unfold f in Hpe. congruence.
Qed.
End inbox_theory.

(** ** Checkpoints *)

#[local] Opaque Sum256 putUvarint.

(** The fields are Go values: strings that fit in memory, [uint64] counters. *)
Definition manifest_wf (m : Manifest) : Prop :=
  len_ok (mf_GroupID m) ∧ len_ok (mf_SchemaID m) ∧ is_u64 (mf_Epoch m) ∧ is_u64 (p_StateID (mf_Protocol m)) ∧
  is_u64 (p_DeltaID (mf_Protocol m)) ∧ len_ok (p_CodecID (mf_Protocol m)) ∧
  is_u64 (p_SemanticsVersion (mf_Protocol m)) ∧ is_u64 (FrameFormatVersion (mf_Protocol m)).

Definition clock_wf (c : ClockState) : Prop :=
  len_ok (cs_ReplicaID c) ∧ is_u64 (cs_WallTime c) ∧ is_u64 (cs_Logical c).

Record checkpoint_wf (c : Checkpoint) : Prop := mkCheckpointWf {
  cw_manifest : manifest_wf (cp_manifest c);
  cw_state : len_ok (cp_state c);
  cw_frontier : map_Forall (λ actor n, len_ok actor ∧ is_u64 n) (cp_frontier c) ∧ is_u64 (Z.of_nat (size (cp_frontier c)));
  cw_clock : match cp_clockState c with Some cs => clock_wf cs | None => True end }.

(** Equal in everything but the spelling of the default wire version. *)
Definition same_meaning (c1 c2 : Checkpoint) : Prop :=
  let m1 := cp_manifest c1 in let m2 := cp_manifest c2 in
  mf_GroupID m1 = mf_GroupID m2 ∧ mf_SchemaID m1 = mf_SchemaID m2 ∧ mf_Epoch m1 = mf_Epoch m2 ∧
  p_StateID (mf_Protocol m1) = p_StateID (mf_Protocol m2) ∧ p_DeltaID (mf_Protocol m1) = p_DeltaID (mf_Protocol m2) ∧
  p_CodecID (mf_Protocol m1) = p_CodecID (mf_Protocol m2) ∧
  p_SemanticsVersion (mf_Protocol m1) = p_SemanticsVersion (mf_Protocol m2) ∧
  FrameFormatVersion (mf_Protocol m1) = FrameFormatVersion (mf_Protocol m2) ∧
  cp_state c1 = cp_state c2 ∧ cp_frontier c1 = cp_frontier c2 ∧ cp_clockState c1 = cp_clockState c2.

(** The digest's message as one concatenation. *)
Definition entry_enc (e : bytes * Z) : bytes := bytes_enc e.1 ++ putUvarint e.2.
Definition clock_enc (c : option ClockState) : bytes :=
  match c with
  | None => [Zbyte 0]
  | Some c => [Zbyte 1] ++ bytes_enc (cs_ReplicaID c) ++ putUvarint (cs_WallTime c) ++ putUvarint (cs_Logical c)
  end.
Definition frontier_enc (f : Frontier) : bytes :=
  putUvarint (Z.of_nat (size f)) ++ concat (entry_enc <$> sorted_entries bytes_compare f).

Lemma frontier_append (f : Frontier) l pre :
  (∀ e, e ∈ l → f !! e.1 = Some e.2) →
  foldl (λ encoded actor, AppendUvarint (appendBytes encoded actor) (Frontier_Counter f actor)) pre l.*1 =
  pre ++ concat (entry_enc <$> l).
Proof.
  revert pre. induction l as [|[a n] l IH]; intros pre Hl; [by rewrite app_nil_r|].
  rewrite !fmap_cons. cbn [foldl concat fst]. rewrite IH by (intros e He; apply Hl; by constructor).
  unfold AppendUvarint, appendBytes, AppendUvarint, entry_enc, bytes_enc. cbn [fst snd].
  assert (f !! a = Some n) as Ha by (apply (Hl (a, n)); by constructor).
  assert (Frontier_Counter f a = n) as -> by (unfold Frontier_Counter; by rewrite Ha).
  by rewrite <-!app_assoc.
Qed.

Lemma digest_message_enc c :
  let m := cp_manifest c in let p := mf_Protocol m in
  digest_message c = str "crdt/checkpoint/v1" ++ bytes_enc (mf_GroupID m) ++ bytes_enc (mf_SchemaID m) ++
    putUvarint (mf_Epoch m) ++ putUvarint (p_StateID p) ++ putUvarint (p_DeltaID p) ++ bytes_enc (p_CodecID p) ++
    putUvarint (p_SemanticsVersion p) ++ putUvarint (FrameFormatVersion p) ++ bytes_enc (cp_state c) ++
    frontier_enc (cp_frontier c) ++ clock_enc (cp_clockState c).
Proof.
  cbn zeta. unfold digest_message. rewrite <-sorted_entries_keys by apply _.
  rewrite frontier_append by (intros [a n]; apply elem_of_sorted_entries).
  assert (len (sorted_entries bytes_compare (cp_frontier c)).*1 = Z.of_nat (size (cp_frontier c))) as ->
    by (unfold len; rewrite length_fmap; apply len_sorted_entries).
  unfold AppendUvarint, appendBytes, AppendUvarint, frontier_enc, clock_enc, bytes_enc.
  destruct (cp_clockState c); by rewrite <-!app_assoc.
Qed.

Lemma entries_inj (l l' : list (bytes * Z)) x y :
  Forall (λ e, len_ok e.1 ∧ is_u64 e.2) l → Forall (λ e, len_ok e.1 ∧ is_u64 e.2) l' → length l = length l' →
  concat (entry_enc <$> l) ++ x = concat (entry_enc <$> l') ++ y → l = l' ∧ x = y.
Proof.
  revert l'. induction l as [|[a n] l IH]; intros [|[a' n'] l']; [done|discriminate..|].
  intros [[Ha Hn] Hl]%Forall_cons [[Ha' Hn'] Hl']%Forall_cons [= Hlen]. cbn [fst snd] in *.
  rewrite !fmap_cons. cbn [concat]. unfold entry_enc at 1 3. cbn [fst snd]. rewrite <-!app_assoc.
  intros [-> [-> Heq]%putUvarint_app_inj]%bytes_enc_app_inj; [|done..].
  by apply IH in Heq as [-> ->].
Qed.

Lemma frontier_enc_inj (f f' : Frontier) x y :
  map_Forall (λ actor n, len_ok actor ∧ is_u64 n) f → map_Forall (λ actor n, len_ok actor ∧ is_u64 n) f' →
  is_u64 (Z.of_nat (size f)) → is_u64 (Z.of_nat (size f')) →
  frontier_enc f ++ x = frontier_enc f' ++ y → f = f' ∧ x = y.
Proof.
  intros Hf Hf' Hs Hs'. unfold frontier_enc. rewrite <-!app_assoc.
  intros [Hsz Heq]%putUvarint_app_inj; [|done..].
  apply entries_inj in Heq as [Hl ->].
  - split; [|done]. by rewrite <-(list_to_map_sorted bytes_compare f), Hl, list_to_map_sorted.
  - apply Forall_forall. intros [a n] Hin%elem_of_sorted_entries. by apply (Hf a n).
  - apply Forall_forall. intros [a n] Hin%elem_of_sorted_entries. by apply (Hf' a n).
  - apply Nat2Z.inj. fold (len (sorted_entries bytes_compare f)). fold (len (sorted_entries bytes_compare f')).
    by rewrite !len_sorted_entries.
Qed.

Lemma clock_enc_inj c c' :
  match c with Some cs => clock_wf cs | None => True end → match c' with Some cs => clock_wf cs | None => True end →
  clock_enc c = clock_enc c' → c = c'.
Proof.
  destruct c as [[r w l]|], c' as [[r' w' l']|]; cbn [clock_enc]; try done.
  intros (Hr & Hw & Hl) (Hr' & Hw' & Hl'). cbn [cs_ReplicaID cs_WallTime cs_Logical] in *.
  intros [_ [-> [-> Heq]%putUvarint_app_inj]%bytes_enc_app_inj]%cons_eq; try done.
  rewrite <-(app_nil_r (putUvarint l)), <-(app_nil_r (putUvarint l')) in Heq.
  by apply putUvarint_app_inj in Heq as [-> _].
Qed.

Lemma digest_message_inj c1 c2 :
  checkpoint_wf c1 → checkpoint_wf c2 → digest_message c1 = digest_message c2 → same_meaning c1 c2.
Proof.
  intros [Hm1 Hs1 [Hf1 Hz1] Hc1] [Hm2 Hs2 [Hf2 Hz2] Hc2]. rewrite !digest_message_enc.
  destruct Hm1 as (? & ? & ? & ? & ? & ? & ? & ?), Hm2 as (? & ? & ? & ? & ? & ? & ? & ?).
  intros Heq%app_inv_head. unfold same_meaning.
  repeat first [apply bytes_enc_app_inj in Heq as [? Heq]; [|done..]
               |apply putUvarint_app_inj in Heq as [? Heq]; [|done..]].
  apply frontier_enc_inj in Heq as [? Heq%clock_enc_inj]; done.
Qed.

Lemma same_meaning_message c1 c2 : same_meaning c1 c2 → digest_message c1 = digest_message c2.
Proof.
  intros (H1 & H2 & H3 & H4 & H5 & H6 & H7 & H8 & H9 & H10 & H11). rewrite !digest_message_enc.
  cbn zeta. by rewrite H1, H2, H3, H4, H5, H6, H7, H8, H9, H10, H11.
Qed.

Section checkpoint_theory.
Context `{F : Flate}.

Lemma Checkpoint_valid_id c : Checkpoint_valid c = true → cp_id c = Sum256 (digest_message c).
Proof.
  unfold Checkpoint_valid. repeat (case_match; [done|]). apply bool_decide_eq_true_1.
Qed.

(** C22: a checkpoint's ID commits to its meaning. Two valid checkpoints with the
    same group, schema, epoch, protocol, state, frontier and clock have the same
    ID; and when two IDs agree then so does all of that, or the two messages
    that were hashed are a SHA-256 collision. *)
Theorem Checkpoint_id_commits (c1 c2 : Checkpoint)
    (Hwf1 : checkpoint_wf c1) (Hwf2 : checkpoint_wf c2)
    (Hv1 : Checkpoint_valid c1 = true) (Hv2 : Checkpoint_valid c2 = true) :
  (same_meaning c1 c2 → cp_id c1 = cp_id c2) ∧
  (cp_id c1 = cp_id c2 → same_meaning c1 c2 ∨
    (digest_message c1 ≠ digest_message c2 ∧ Sum256 (digest_message c1) = Sum256 (digest_message c2))).
Proof.
  rewrite (Checkpoint_valid_id c1 Hv1), (Checkpoint_valid_id c2 Hv2). split.
  - intros Hs. f_equal. by apply same_meaning_message.
  - intros Hid. destruct (decide (digest_message c1 = digest_message c2)) as [Heq|Hne]; [left|by right].
    by apply digest_message_inj.
Qed.

(** ** Sessions *)

(** A store that records what it was asked to save and how it answered; the
    answer may depend on anything that happened before. *)
Definition audited (answer : list (Checkpoint * result unit) → Checkpoint → result unit)
    (db : list (Checkpoint * result unit)) (c : Checkpoint) : list (Checkpoint * result unit) * result unit :=
  (db ++ [(c, answer db c)], answer db c).

(** A sequence of [Install] calls. *)
Definition session_run answer (s : ptr Session) (cs : list Checkpoint) : ptr Session * list (Checkpoint * result unit) :=
  foldl (λ '(s, db) c, (Session_Install s c (Some (audited answer)) db).1) (s, []) cs.

(** What was stored. *)
Definition stored (db : list (Checkpoint * result unit)) : list Checkpoint :=
  (filter (λ e : Checkpoint * result unit, is_ok e.2 = true) db).*1.

Lemma stored_snoc db c r : stored (db ++ [(c, r)]) = stored db ++ (if is_ok r then [c] else []).
Proof.
  unfold stored. rewrite filter_app, fmap_app, filter_cons. cbn [snd]. destruct (is_ok r); [|done]. by rewrite decide_True.
Qed.

Definition session_inv (m : Manifest) (s : ptr Session) (db : list (Checkpoint * result unit)) (seen : list Checkpoint) : Prop :=
  ∃ installed, s = Some (mkSession m installed) ∧ stored db = option_list installed ∧
    ∀ c, installed = Some c → c ∈ seen ∧ Checkpoint_valid c = true ∧ Compatible m (cp_manifest c) = Ok tt.

Lemma session_step answer m s db seen c :
  session_inv m s db seen →
  let '(s', db') := (Session_Install s c (Some (audited answer)) db).1 in session_inv m s' db' (seen ++ [c]).
Proof.
  intros (installed & -> & Hst & Hc).
  assert (session_inv m (Some (mkSession m installed)) db (seen ++ [c])) as Hsame.
  { exists installed. split; [done|]. split; [done|]. intros c' Hc'. destruct (Hc c' Hc') as [? ?].
    split; [apply elem_of_app; by left|done]. }
  unfold Session_Install. destruct (Checkpoint_valid c) eqn:Hv; [|exact Hsame]. cbn [negb ss_manifest ss_checkpoint].
  destruct (Compatible m (cp_manifest c)) as [[]|] eqn:Hcomp; [|exact Hsame].
  destruct installed as [c0|]; [case_bool_decide; exact Hsame|].
  unfold audited. destruct (answer db c) as [[]|e] eqn:Ha; cbn [fst].
  - exists (Some c). split; [done|]. split; [by rewrite stored_snoc, Hst|]. intros c' [= <-].
    split; [apply elem_of_app; right; by constructor|done].
  - exists None. split; [done|]. split; [by rewrite stored_snoc, Hst|done].
Qed.

(** C15: an acknowledgement is a proof of durability. After any sequence of
    installations, into a store that may refuse any of them, at most one
    checkpoint was stored; the session acknowledges exactly when one was, and
    what it acknowledges is the stored checkpoint, which was offered, is valid
    and agrees with the session's manifest. *)
Theorem Session_acknowledges_stored (m : Manifest) (s0 : Session) (cs : list Checkpoint)
    (answer : list (Checkpoint * result unit) → Checkpoint → result unit) (Hnew : NewSession m = Ok s0) :
  let '(s, db) := session_run answer (Some s0) cs in
  match Session_Acknowledge s with
  | Err e => e = ErrReplica NotInstalled ∧ stored db = []
  | Ok a => ∃ c, stored db = [c] ∧ c ∈ cs ∧ Checkpoint_valid c = true ∧ Compatible m (cp_manifest c) = Ok tt ∧
      a = mkAcknowledgement (mf_GroupID m) (mf_Epoch m) (cp_id c) (cp_frontier c)
  end.
Proof.
  assert (session_inv m (session_run answer (Some s0) cs).1 (session_run answer (Some s0) cs).2 cs) as Hinv.
  { unfold session_run. unfold NewSession in Hnew. destruct (negb _); [done|]. injection Hnew as <-.
    induction cs as [|c cs IH] using rev_ind; [by exists None|]. rewrite foldl_app. cbn [foldl].
    destruct (foldl _ _ cs) as [s db]. cbn [fst snd] in IH. apply (session_step answer _ _ _ _ c) in IH.
    by destruct (Session_Install s c _ db) as [[s' db'] r]. }
  destruct (session_run answer (Some s0) cs) as [s db]. cbn [fst snd] in Hinv.
  destruct Hinv as (installed & -> & Hst & Hc).
  cbn [Session_Acknowledge ss_checkpoint ss_manifest]. destruct installed as [c|]; [|done].
  exists c. destruct (Hc c eq_refl) as (? & ? & ?). done.
Qed.
End checkpoint_theory.

(** ** Witnesses: an actor's second change arrives first, and twice *)

#[local] Existing Instance marker_flate.

Definition group : Manifest := mkManifest (str "group") (str "schema") 1 (mkProtocol 13 14 (str "raw") 1 0).
Definition w_frame (typeID : Z) (payload : bytes) : bytes := sealed (MarshalFrame (mkFrame typeID (str "raw") payload 0 false)).
Definition w_change (c : Z) (payload : bytes) : Change := mkChange (mkDot (str "a") c) group (w_frame 14 payload) true.
Definition w_changes : list Change := [w_change 2 (str "y"); w_change 1 (str "x"); w_change 2 (str "y")].
Definition collect (st : list bytes) (delta : bytes) : result (list bytes) := Ok (st ++ [delta]).
Definition w_inbox (f : Frontier) : Inbox (list bytes) := mkInbox group f collect 4 100 ∅ 0 0.

Lemma w_changes_wf : Forall change_wf w_changes.
Proof. repeat (constructor; [split; cbn; lia|]). constructor. Qed.

Lemma Inbox_exactly_once_witness :
  ∃ i st outs log, inbox_run (Some (w_inbox ∅)) [] w_changes = Some ((Some i, st), outs) ∧
    apply_all collect [] log = Ok st ∧ log ⊆ change_entry <$> w_changes.
Proof.
  destruct (Inbox_exactly_once group ∅ 4 100 collect (w_inbox ∅) [] w_changes) as (i & st & outs & log & H1 & H2 & _ & H4 & _).
  - vm_compute. reflexivity.
  - apply map_Forall_empty.
  - apply w_changes_wf.
  - exists i, st, outs, log. split; [exact H1|]. split; [exact H2|exact H4].
Defined.

Lemma Inbox_complete_witness :
  2 <= Frontier_Counter (Inbox_Frontier (Some (w_inbox {[str "a" := 2]}))) (str "a").
Proof.
  apply (Inbox_complete group ∅ 4 100 collect (w_inbox ∅) [] w_changes (w_inbox {[str "a" := 2]})
    [w_frame 14 (str "x"); w_frame 14 (str "y")]
    [(mkDelivery true false [], None); (mkDelivery false false [mkDot (str "a") 1; mkDot (str "a") 2], None);
     (mkDelivery false true [], None)]).
  - vm_compute. reflexivity.
  - apply map_Forall_empty.
  - apply w_changes_wf.
  - vm_compute. reflexivity.
  - repeat (constructor; [reflexivity|]). constructor.
  - intros c Hc. change (Frontier_Counter ∅ (str "a")) with 0 in Hc.
    assert (c = 1 ∨ c = 2) as [->| ->] by lia.
    + exists (w_change 1 (str "x")). split; [apply elem_of_cons; right; apply elem_of_cons; by left|reflexivity].
    + exists (w_change 2 (str "y")). split; [apply elem_of_cons; by left|reflexivity].
Defined.

(** The manifest with the wire version spelled out. *)
Definition group_v1 : Manifest := mkManifest (str "group") (str "schema") 1 (mkProtocol 13 14 (str "raw") 1 1).
Definition accept_any : StateValidator := λ _, Ok tt.
Definition w_checkpoint (m : Manifest) : Checkpoint :=
  match NewCheckpoint m (w_frame 13 [Zbyte 0]) {[str "a" := 2]} zeroClockState (Some accept_any) with
  | Ok c => c
  | Err _ => mkCheckpoint m [] ∅ None []
  end.

Lemma w_checkpoint_wf m :
  w_checkpoint m = mkCheckpoint m (w_frame 13 [Zbyte 0]) {[str "a" := 2]} None (cp_id (w_checkpoint m)) →
  manifest_wf m → checkpoint_wf (w_checkpoint m).
Proof.
  intros -> Hm. split; cbn [cp_manifest cp_state cp_frontier cp_clockState].
  - exact Hm.
  - vm_compute. discriminate.
  - split; [apply map_Forall_singleton; split; vm_compute; [discriminate|done]|vm_compute; done].
  - done.
Qed.

Lemma Checkpoint_id_commits_witness : cp_id (w_checkpoint group) = cp_id (w_checkpoint group_v1).
Proof.
  apply (Checkpoint_id_commits (w_checkpoint group) (w_checkpoint group_v1)).
  - apply w_checkpoint_wf; [vm_compute; reflexivity|].
    split_and!; vm_compute; done.
  - apply w_checkpoint_wf; [vm_compute; reflexivity|].
    split_and!; vm_compute; done.
  - vm_compute. reflexivity.
  - vm_compute. reflexivity.
  - split_and!; vm_compute; reflexivity.
Defined.

(** A store that refuses the first save. *)
Lemma Session_acknowledges_stored_witness :
  let s0 := mkSession group None in
  let answer db (_ : Checkpoint) := match db with [] => Err ErrSnapshotInvalid | _ => Ok tt end in
  let '(s, db) := session_run answer (Some s0) [w_checkpoint group; w_checkpoint group] in
  ∃ c, stored db = [c] ∧ c ∈ [w_checkpoint group; w_checkpoint group].
Proof.
  intros s0 answer.
  pose proof (Session_acknowledges_stored group s0 [w_checkpoint group; w_checkpoint group] answer) as Hs.
  assert (is_ok (Session_Acknowledge (session_run answer (Some s0) [w_checkpoint group; w_checkpoint group]).1) = true) as Hok
    by (vm_compute; reflexivity).
  specialize (Hs ltac:(vm_compute; reflexivity)).
  destruct (session_run answer (Some s0) _) as [s db]. cbn [fst] in Hok.
  destruct (Session_Acknowledge s); [|discriminate]. destruct Hs as (c & H1 & H2 & _). by exists c.
Defined.
