(* ===== verification/Snapshot.v ===== *)
(** * Snapshots

    src/snapshot/snapshot.go, and the operations of src/set, src/lww and
    src/register that save a replica to a snapshot and restore it. The theorems
    say that every constructed snapshot is well-formed, that a recovery plan
    holds exactly compatible deltas within its bound, and that a restored
    replica has the state it was saved with and a clock that repeats no tag. *)

From S2P Require Import Prelude Tags Clock Lattice Tagged TagIndex Wire SortedCodec Frame Codec GSet ORSet ORSetCodec LWWMap LWWMapTheory LWWMapCodec MVRegister MVRegisterCodec.

Section snapshot.
Context `{F : Flate}.

Record Snapshot := mkSnapshot {
  sn_FormatVersion : Z; sn_TypeID : Z; sn_CodecID : bytes;
  sn_state : bytes; sn_frontier : gmap bytes Tag; sn_clockState : option ClockState }.

(** [isStateType], [deltaTypeForState], [isHLCStateType], [validClockState] *)
Definition isStateType (typeID : Z) : bool := bool_decide (is_Some (FrameTypeForState typeID)).
Definition deltaTypeForState (typeID : Z) : option Z := DeltaID <$> FrameTypeForState typeID.
Definition isHLCStateType (typeID : Z) : bool :=
  match FrameTypeForState typeID with Some kind => UsesHLC kind | None => false end.
Definition validClockState (state : ClockState) : bool := is_ok (NewHLCFromState state).

(** [validFrontier] *)
Definition validFrontier (frontier : gmap bytes Tag) : bool :=
  forallb (λ e : bytes * Tag, negb (bool_decide (e.1 = []) || negb (bool_decide (e.1 = ReplicaID e.2)) || negb (Valid e.2)))
    (map_to_list frontier).

(** [validateState]; a panic is an error. *)
Definition validateState (validator : option (bytes → result unit)) (state : bytes) : bool :=
  match validator with None => false | Some validator => is_ok (validator state) end.

(** [newSnapshot] *)
Definition newSnapshot (decoded : Frame) (state : bytes) (frontier : gmap bytes Tag) (clockState : option ClockState)
    : Snapshot :=
  mkSnapshot (Version decoded) (TypeID decoded) (CodecID decoded) state frontier clockState.

(** [New] *)
Definition New (state : bytes) (frontier : gmap bytes Tag) : result Snapshot :=
  match UnmarshalFrame state DefaultLimits with
  | Err _ => Err ErrSnapshotInvalid
  | Ok decoded =>
      if negb (isStateType (TypeID decoded)) || negb (validFrontier frontier) then Err ErrSnapshotInvalid
      else Ok (newSnapshot decoded state frontier None)
  end.

(** [NewValidated] *)
Definition NewValidated (state : bytes) (frontier : gmap bytes Tag) (validator : option (bytes → result unit))
    : result Snapshot :=
  match UnmarshalFrame state DefaultLimits with
  | Err _ => Err ErrSnapshotInvalid
  | Ok decoded =>
      if negb (isStateType (TypeID decoded)) || negb (validFrontier frontier) || negb (validateState validator state)
      then Err ErrSnapshotInvalid
      else Ok (newSnapshot decoded state frontier None)
  end.

(** [NewWithClockState] *)
Definition NewWithClockState (state : bytes) (frontier : gmap bytes Tag) (clockState : ClockState) : result Snapshot :=
  match UnmarshalFrame state DefaultLimits with
  | Err _ => Err ErrSnapshotInvalid
  | Ok decoded =>
      if negb (isHLCStateType (TypeID decoded)) || negb (validFrontier frontier) || negb (validClockState clockState)
      then Err ErrSnapshotInvalid
      else Ok (newSnapshot decoded state frontier (Some clockState))
  end.

(** [NewValidatedWithClockState] *)
Definition NewValidatedWithClockState (state : bytes) (frontier : gmap bytes Tag) (clockState : ClockState)
    (validator : option (bytes → result unit)) : result Snapshot :=
  match UnmarshalFrame state DefaultLimits with
  | Err _ => Err ErrSnapshotInvalid
  | Ok decoded =>
      if negb (isHLCStateType (TypeID decoded)) || negb (validFrontier frontier) || negb (validClockState clockState) ||
         negb (validateState validator state)
      then Err ErrSnapshotInvalid
      else Ok (newSnapshot decoded state frontier (Some clockState))
  end.

(** [Snapshot.valid] *)
Definition Snapshot_valid (s : Snapshot) : bool :=
  match UnmarshalFrame (sn_state s) DefaultLimits with
  | Err _ => false
  | Ok decoded =>
      negb (negb (sn_FormatVersion s =? Version decoded) || negb (sn_TypeID s =? TypeID decoded) ||
            negb (bool_decide (sn_CodecID s = CodecID decoded)) || negb (isStateType (sn_TypeID s)) ||
            negb (validFrontier (sn_frontier s)) ||
            match sn_clockState s with
            | None => false
            | Some clockState => negb (isHLCStateType (sn_TypeID s)) || negb (validClockState clockState)
            end)
  end.

(** ** Recovery plans *)

Record RecoveryPlan := mkRecoveryPlan { rp_Snapshot : Snapshot; rp_deltas : list bytes }.

(** The loop of [NewRecoveryPlan]. *)
Fixpoint plan_deltas (s : Snapshot) (expectedTypeID maxDeltaBytes total : Z) (deltas : list bytes) : result unit :=
  match deltas with
  | [] => Ok tt
  | delta :: deltas' =>
      if (len delta =? 0) || (maxDeltaBytes - total <? len delta) then Err ErrSnapshotLimit
      else match UnmarshalFrame delta DefaultLimits with
      | Err _ => Err ErrSnapshotInvalid
      | Ok decoded =>
          if negb (Version decoded =? sn_FormatVersion s) || negb (TypeID decoded =? expectedTypeID) ||
             negb (bool_decide (CodecID decoded = sn_CodecID s))
          then Err ErrSnapshotInvalid
          else plan_deltas s expectedTypeID maxDeltaBytes (total + len delta) deltas'
      end
  end.

(** [NewRecoveryPlan] *)
Definition NewRecoveryPlan (snapshot : Snapshot) (deltas : list bytes) (maxDeltaBytes : Z) : result RecoveryPlan :=
  if (maxDeltaBytes <=? 0) || negb (Snapshot_valid snapshot) then Err ErrSnapshotInvalid
  else match deltaTypeForState (sn_TypeID snapshot) with
  | None => Err ErrSnapshotInvalid
  | Some expectedTypeID =>
      _ ← plan_deltas snapshot expectedTypeID maxDeltaBytes 0 deltas;
      match UnmarshalFrame (sn_state snapshot) DefaultLimits with
      | Err _ => Err ErrSnapshotInvalid
      | Ok decodedSnapshot =>
          Ok (mkRecoveryPlan (newSnapshot decodedSnapshot (sn_state snapshot) (sn_frontier snapshot) (sn_clockState snapshot))
                deltas)
      end
  end.

(** ** Saving and restoring replicas *)

Section orset_snapshot.
Context {T : Type} `{Countable T}.

(** [ORSet.Snapshot] *)
Definition ORSet_Snapshot (s : ptr (ORSet T)) (frontier : gmap bytes Tag) : result Snapshot :=
  '(state, clockState) ← ORSet_MarshalBinaryWithClockState s;
  NewWithClockState state frontier clockState.

(** [ORSet.SnapshotCurrentState] *)
Definition ORSet_SnapshotCurrentState (s : ptr (ORSet T)) : result Snapshot :=
  match s with
  | None => Err ErrNilORSet
  | Some o =>
      match os_clock o with
      | None => Err ErrNilORSet
      | Some _ =>
          plan ← newORSetMarshalPlan (os_elements o) (os_tombstones o);
          let frontier := frontierForORSetMarshalPlan plan in
          state ← marshalORSetPlan TypeIDORSetState (os_codec o) plan;
          NewWithClockState state frontier (HLC_Snapshot (os_clock o))
      end
  end.

(** [NewORSetFromSnapshot]; the two arguments of time are those its two calls of
    [Witness] read. *)
Definition NewORSetFromSnapshot (saved : Snapshot) (codec : ptr (ElementCodec T)) (now1 now2 : option Z)
    : result (ORSet T) :=
  if negb (sn_TypeID saved =? TypeIDORSetState) then Err ErrSetInvalidSnapshot
  else match sn_clockState saved with
  | None => Err ErrSetInvalidSnapshot
  | Some clockState =>
      restored ← NewORSetFromClock clockState codec;
      match ORSet_UnmarshalBinary (Some restored) (sn_state saved) now1 with
      | (Some restored, Ok _) =>
          match greatestFrontierTag (sn_frontier saved) with
          | None => Ok restored
          | Some tag =>
              match Witness (os_clock restored) tag now2 with
              | (_, Err e) => Err e
              | (hlc, Ok _) => Ok (os_with restored hlc (os_state restored))
              end
          end
      | (_, Err e) => Err e
      | (None, Ok _) => Err ErrNilORSet
      end
  end.

(** [GSet.Snapshot], [NewGSetFromSnapshot] *)
Definition GSet_Snapshot (s : ptr (GSet T)) : result Snapshot := state ← GSet_MarshalBinary s; New state ∅.
Definition NewGSetFromSnapshot (replicaID : bytes) (saved : Snapshot) (codec : ptr (ElementCodec T)) : result (GSet T) :=
  if negb (sn_TypeID saved =? TypeIDGSetState) then Err ErrInvalidGSetSnap
  else
    value ← NewGSet replicaID codec;
    match GSet_UnmarshalBinary (Some value) (sn_state saved) with
    | (Some value, Ok _) => Ok value
    | (_, Err e) => Err e
    | (None, Ok _) => Err ErrNilGSet
    end.
End orset_snapshot.

(** [Map.Snapshot], [Map.SnapshotCurrentState] *)
Definition LWWMap_Snapshot (m : ptr LWWMap) (frontier : gmap bytes Tag) : result Snapshot :=
  '(state, clockState) ← LWWMap_MarshalBinaryWithClockState m;
  NewWithClockState state frontier clockState.
Definition LWWMap_SnapshotCurrentState (m : ptr LWWMap) : result Snapshot :=
  match m with
  | None => Err ErrNilMap
  | Some lm =>
      match lm_clock lm with
      | None => Err ErrNilMap
      | Some _ =>
          state ← marshalMap TypeIDLWWMapState (lm_entries lm);
          NewWithClockState state (mapFrontier (lm_entries lm)) (HLC_Snapshot (lm_clock lm))
      end
  end.

(** [greatestMapFrontierTag] *)
Definition greatestMapFrontierTag (frontier : gmap bytes Tag) : option Tag :=
  foldl greatest_step None (map_to_list frontier).*2.

(** [NewMapFromSnapshotWithOptions], [NewMapFromSnapshot] *)
Definition NewMapFromSnapshotWithOptions (saved : Snapshot) (options : MapOptions) (now1 now2 : option Z) : result LWWMap :=
  if negb (sn_TypeID saved =? TypeIDLWWMapState) then Err ErrLWWInvalidSnapshot
  else if negb (MapOptions_valid options) then Err ErrLWWResourceLimit
  else match sn_clockState saved with
  | None => Err ErrLWWInvalidSnapshot
  | Some clockState =>
      m ← NewMapFromClockWithOptions clockState options;
      match LWWMap_UnmarshalBinary (Some m) (sn_state saved) now1 with
      | (Some m, Ok _) =>
          match greatestMapFrontierTag (sn_frontier saved) with
          | None => Ok m
          | Some tag =>
              match Witness (lm_clock m) tag now2 with
              | (_, Err e) => Err e
              | (hlc, Ok _) => Ok (LWWMap_with m hlc (lm_entries m) (lm_tags m))
              end
          end
      | (_, Err e) => Err e
      | (None, Ok _) => Err ErrNilMap
      end
  end.
Definition NewMapFromSnapshot (saved : Snapshot) (now1 now2 : option Z) : result LWWMap :=
  NewMapFromSnapshotWithOptions saved DefaultMapOptions now1 now2.

(** [MVRegister.Snapshot], [NewMVRegisterFromSnapshot] *)
Definition MVRegister_Snapshot (r : ptr MVRegister) : result Snapshot := state ← MVRegister_MarshalBinary r; New state ∅.
Definition NewMVRegisterFromSnapshot (replicaID : bytes) (saved : Snapshot) : result MVRegister :=
  if negb (sn_TypeID saved =? TypeIDMVRegisterState) then Err ErrInvalidMVSnapshot
  else
    value ← NewMVRegister replicaID;
    match MVRegister_UnmarshalBinary (Some value) (sn_state saved) with
    | (Some value, Ok _) => Ok value
    | (_, Err e) => Err e
    | (None, Ok _) => Err ErrNilMVRegister
    end.

(** ** Well-formedness *)

Lemma Snapshot_valid_iff s :
  Snapshot_valid s = true ↔
  ∃ f, UnmarshalFrame (sn_state s) DefaultLimits = Ok f ∧
    s = newSnapshot f (sn_state s) (sn_frontier s) (sn_clockState s) ∧
    isStateType (TypeID f) = true ∧ validFrontier (sn_frontier s) = true ∧
    ∀ c, sn_clockState s = Some c → isHLCStateType (TypeID f) = true ∧ validClockState c = true.
Proof.
  unfold Snapshot_valid. destruct (UnmarshalFrame _ _) as [f|]; [|split; [done|by intros (? & ? & _)]]. split.
  - intros Hv%negb_true_iff. breflect. exists f. destruct s as [v t c st fr cs].
    cbn [sn_FormatVersion sn_TypeID sn_CodecID sn_state sn_frontier sn_clockState] in *. subst.
    split; [done|]. split; [done|]. split; [done|]. split; [done|]. intros c' ->. by breflect.
  - intros (f' & [= <-] & Hs & Ht & Hfr & Hc). destruct s as [v t c st fr cs].
    cbn [sn_FormatVersion sn_TypeID sn_CodecID sn_state sn_frontier sn_clockState] in *. unfold newSnapshot in Hs.
    injection Hs as -> -> ->. rewrite !Z.eqb_refl, Ht, Hfr, bool_decide_true by done. cbn [negb orb].
    destruct cs as [c|]; [|done]. by destruct (Hc c eq_refl) as [-> ->].
Qed.

Lemma hlc_state_type t : isHLCStateType t = true → isStateType t = true.
Proof. unfold isHLCStateType, isStateType. destruct (FrameTypeForState t); done. Qed.

(** The snapshots the package makes. *)
Inductive constructed : Snapshot → Prop :=
| by_New state frontier s : New state frontier = Ok s → constructed s
| by_NewValidated state frontier validator s : NewValidated state frontier validator = Ok s → constructed s
| by_NewWithClockState state frontier c s : NewWithClockState state frontier c = Ok s → constructed s
| by_NewValidatedWithClockState state frontier c validator s :
    NewValidatedWithClockState state frontier c validator = Ok s → constructed s
| by_NewRecoveryPlan s0 deltas maxBytes p :
    NewRecoveryPlan s0 deltas maxBytes = Ok p → constructed (rp_Snapshot p).

Lemma new_valid f state frontier c :
  UnmarshalFrame state DefaultLimits = Ok f → isStateType (TypeID f) = true → validFrontier frontier = true →
  (∀ c', c = Some c' → isHLCStateType (TypeID f) = true ∧ validClockState c' = true) →
  Snapshot_valid (newSnapshot f state frontier c) = true.
Proof. intros Hf Ht Hfr Hc. apply Snapshot_valid_iff. by exists f. Qed.

(** Snapshots are well-formed by construction. Whatever bytes, frontier, clock
    and validator a caller supplies, a snapshot that a constructor returns
    describes its own state frame: version, type and codec are those of the frame,
    the type is a registered state type, every frontier entry is a valid tag of
    its replica, and a clock comes only with a type that uses one. *)
Theorem Snapshot_well_formed (s : Snapshot) (Hs : constructed s) : Snapshot_valid s = true.
Proof.
  destruct Hs as [state frontier s Hn|state frontier v s Hn|state frontier c s Hn|state frontier c v s Hn|s0 ds mb p Hn];
    revert Hn; unfold New, NewValidated, NewWithClockState, NewValidatedWithClockState, NewRecoveryPlan.
  1-4: destruct (UnmarshalFrame state DefaultLimits) as [f|] eqn:Hf; [|done];
    destruct (_ || _) eqn:G; [done|]; intros [= <-]; breflect.
  1-2: by apply new_valid.
  1-2: apply new_valid; [done|by apply hlc_state_type|done|]; by intros c' [= <-].
  destruct (_ || _) eqn:G; [done|]. breflect. destruct (deltaTypeForState _); [|done].
  intros (_ & _ & Hn)%bind_Ok. apply Snapshot_valid_iff in H0 as (f & Hf & Hs & Ht & Hfr & Hc).
  rewrite Hf in Hn. injection Hn as <-. by apply new_valid.
Qed.

(** ** Recovery plans *)

(** A delta frame the snapshot's replica can apply. *)
Definition compatible (s : Snapshot) (typeID : Z) (delta : bytes) : Prop :=
  0 < len delta ∧ ∃ f, UnmarshalFrame delta DefaultLimits = Ok f ∧ Version f = sn_FormatVersion s ∧
    TypeID f = typeID ∧ CodecID f = sn_CodecID s.

Lemma plan_deltas_iff s typeID maxBytes total deltas :
  total <= maxBytes →
  plan_deltas s typeID maxBytes total deltas = Ok tt ↔
  Forall (compatible s typeID) deltas ∧ total + len (concat deltas) <= maxBytes.
Proof.
  revert total. induction deltas as [|d ds IH]; intros total Ht; cbn [plan_deltas concat].
  { rewrite len_nil. split; [intros _; split; [constructor|lia]|done]. }
  rewrite Forall_cons, len_app. unfold compatible at 1. pose proof (len_nonneg d). pose proof (len_nonneg (concat ds)).
  destruct (Z.eqb_spec (len d) 0), (Z.ltb_spec (maxBytes - total) (len d)); cbn [orb].
  1-3: split; [done|lia].
  destruct (UnmarshalFrame d DefaultLimits) as [f|]; [|split; [done|intros [[(_ & ? & ? & _) _] _]; done]].
  destruct (_ || _) eqn:G.
  - split; [done|]. intros [[(_ & f' & [= <-] & Hv & HT & HC) _] _]. rewrite Hv, HT, HC, !Z.eqb_refl in G.
    by rewrite bool_decide_true in G.
  - breflect. rewrite IH by lia. split; [intros [? ?]|intros [[_ ?] ?]; split; [done|lia]].
    split; [split; [split; [lia|by exists f]|done]|lia].
Qed.

(** A recovery plan is the snapshot with compatible deltas. [NewRecoveryPlan]
    succeeds exactly on a well-formed snapshot and deltas that are frames of its
    version, codec and delta type, none empty and together within the bound; the
    plan then holds that snapshot and those deltas. *)
Theorem NewRecoveryPlan_spec (s : Snapshot) (deltas : list bytes) (maxBytes : Z) (p : RecoveryPlan) :
  NewRecoveryPlan s deltas maxBytes = Ok p ↔
  0 < maxBytes ∧ Snapshot_valid s = true ∧ p = mkRecoveryPlan s deltas ∧ len (concat deltas) <= maxBytes ∧
  ∃ kind, FrameTypeForState (sn_TypeID s) = Some kind ∧ Forall (compatible s (DeltaID kind)) deltas.
Proof.
  unfold NewRecoveryPlan, deltaTypeForState.
  destruct (Z.leb_spec maxBytes 0); [split; [done|lia]|]. cbn [orb].
  destruct (Snapshot_valid s) eqn:Hv; [|by split; [|intros (_ & ? & _)]]. cbn [negb].
  apply Snapshot_valid_iff in Hv as (f & Hf & Hs & _). rewrite Hf.
  destruct (FrameTypeForState (sn_TypeID s)) as [kind|]; [|split; [done|by intros (_ & _ & _ & _ & ? & ? & _)]].
  cbn [fmap option_fmap option_map]. rewrite bind_Ok.
  pose proof (plan_deltas_iff s (DeltaID kind) maxBytes 0 deltas ltac:(lia)) as Hp. split.
  - intros ([] & [? ?]%Hp & [= <-]). rewrite <-Hs. split; [done|]. do 3 (split; [done|]). by exists kind.
  - intros (_ & _ & -> & Hl & k & [= <-] & Hd). exists tt. rewrite <-Hs. split; [|done]. by apply Hp.
Qed.
End snapshot.

(** ** Restarting an OR-Set replica *)

(** A clock that has witnessed the optional tag, or the error of the witness. *)
Definition witnessed (h : HLC) (tag : option Tag) (now : option Z) : result HLC :=
  match tag with
  | None => Ok h
  | Some tag => match Witness (Some h) tag now with
                | (Some h', Ok _) => Ok h'
                | (None, Ok _) => Err ErrClockExhausted
                | (_, Err e) => Err e
                end
  end.

Lemma Witness_ok_some h t now r : Witness (Some h) t now = (None, r) → False.
Proof. cbn [Witness]. repeat case_match; congruence. Qed.

Lemma witnessed_spec h tag now h' :
  hlc_wf h → (∀ t, tag = Some t → tag_wf t) → now_wf now → witnessed h tag now = Ok h' →
  hlc_wf h' ∧ replicaID h' = replicaID h ∧ ts_le (hlc_tag h) (hlc_tag h') ∧ ∀ t, tag = Some t → ts_lt t (hlc_tag h').
Proof.
  intros Hh Ht Hn. unfold witnessed. destruct tag as [t|].
  - destruct (Witness (Some h) t now) as [[h1|] [[]|]] eqn:Hw; try done. intros [= ->].
    apply Witness_spec in Hw as (h2 & [= <-] & ? & ? & ? & ?); [|done|by apply Ht|done].
    split; [done|]. split; [done|]. split; [unfold ts_le, ts_lt in *; lia|]. by intros t' [= <-].
  - intros [= <-]. split; [done|]. split; [done|]. split; [unfold ts_le; lia|done].
Qed.

(** Why a saved clock cannot resume: it cannot pass the tags [seen] in the saved
    state or, having passed them, those [pinned] by the frontier. *)
Definition cannot_resume (c : ptr HLC) (now1 now2 : option Z) (seen pinned : Tag → Prop) : Prop :=
  ((∃ t, seen t) ∧ exhausted c now1 seen) ∨
  ∃ c', (c' = c ∨ ∃ g, seen g ∧ Witness c g now1 = (c', Ok tt)) ∧ (∃ t, pinned t) ∧ exhausted c' now2 pinned.

Lemma witnessed_error h tag now e (P : Tag → Prop) :
  (∀ t, tag = Some t → P t ∧ Valid t = true) → witnessed h tag now = Err e →
  e = ErrClockExhausted ∧ (∃ t, P t) ∧ exhausted (Some h) now P.
Proof.
  unfold witnessed. destruct tag as [t|]; [|done]. intros Ht. destruct (Ht t eq_refl) as [HP Hv].
  destruct (Witness (Some h) t now) as [h1 [[]|e']] eqn:Hw.
  - destruct h1; [done|]. by apply Witness_ok_some in Hw.
  - apply Witness_refused in Hw as (-> & -> & Hex); [|done]. intros [= <-]. split_and!; [done|eauto|].
    eapply exhausted_mono; [|exact Hex]. by intros ? ->.
Qed.

(** Witnessing the greatest tag of the state, then that of the frontier. *)
Lemma resumed_spec h g1 g2 now1 now2 (seen pinned : Tag → Prop) :
  hlc_wf h → now_wf now1 → now_wf now2 → (∀ t, g1 = Some t → tag_wf t) → (∀ t, g2 = Some t → tag_wf t) →
  (∀ t, g1 = Some t → seen t ∧ Valid t = true) → (∀ t, g2 = Some t → pinned t ∧ Valid t = true) →
  match (h1 ← witnessed h g1 now1; witnessed h1 g2 now2) with
  | Ok h2 => hlc_wf h2 ∧ replicaID h2 = replicaID h ∧ ts_le (hlc_tag h) (hlc_tag h2) ∧ ∀ t, g2 = Some t → ts_lt t (hlc_tag h2)
  | Err e => e = ErrClockExhausted ∧ cannot_resume (Some h) now1 now2 seen pinned
  end.
Proof.
  intros Hh Hn1 Hn2 Hw1 Hw2 Hg1 Hg2. destruct (witnessed h g1 now1) as [h1|e] eqn:W1; cbn [mbind result_bind].
  2: { apply (witnessed_error _ _ _ _ seen) in W1 as (-> & ? & ?); [|done]. split; [done|by left]. }
  pose proof W1 as (Hh1 & Hr1 & Hle1 & _)%witnessed_spec; [|done..].
  destruct (witnessed h1 g2 now2) as [h2|e] eqn:W2.
  - apply witnessed_spec in W2 as (Hh2 & Hr2 & Hle2 & Hlt); [|done..].
    split_and!; [done|congruence|unfold ts_le in *; lia|done].
  - apply (witnessed_error _ _ _ _ pinned) in W2 as (-> & ? & ?); [|done]. split; [done|]. right. exists (Some h1).
    split; [|done]. unfold witnessed in W1. destruct g1 as [t|]; [right|left; congruence]. exists t. split; [by apply Hg1|].
    destruct (Witness (Some h) t now1) as [[h'|] [[]|]]; congruence.
Qed.

Section orset_recovery.
Context `{F : Flate} {T : Type} `{Countable T}.

Lemma restored_clock (o : ORSet T) h : os_clock o = Some h → hlc_wf h → NewHLCFromState (HLC_Snapshot (os_clock o)) = Ok h.
Proof. intros -> Hh. by apply restart_same. Qed.

(** What restoring does, given what the saved bytes decode to. *)
Lemma NewORSetFromSnapshot_eq saved codec bound (h : HLC) (state : gmap T (gset Tag) * gset Tag) now1 now2 clockState :
  sn_TypeID saved = TypeIDORSetState → sn_clockState saved = Some clockState →
  bindElementCodec codec = Ok bound → NewHLCFromState clockState = Ok h →
  unmarshalORSetWithCodec (sn_state saved) TypeIDORSetState bound DefaultLimits = Ok state →
  NewORSetFromSnapshot saved codec now1 now2 =
  (h1 ← witnessed h (greatestStateTag state.1 state.2) now1;
   h2 ← witnessed h1 (greatestFrontierTag (sn_frontier saved)) now2;
   Ok (mkORSet (cs_ReplicaID clockState) (Some h2) bound state.1 state.2)).
Proof.
  intros HT Hc Hb Hh Hu. unfold NewORSetFromSnapshot, NewORSetFromClock. rewrite HT, Z.eqb_refl, Hc, Hb, Hh.
  cbn [negb mbind result_bind]. unfold ORSet_UnmarshalBinary, ORSet_UnmarshalBinaryWithLimits. cbn [os_codec os_clock].
  rewrite Hu. unfold witnessed. destruct (greatestStateTag state.1 state.2) as [t|].
  - destruct (Witness (Some h) t now1) as [[h1|] [[]|]] eqn:Hw; cbn [mbind result_bind];
      try done; [|by apply Witness_ok_some in Hw].
    destruct (greatestFrontierTag (sn_frontier saved)) as [u|]; [|done]. cbn [os_clock os_with].
    destruct (Witness (Some h1) u now2) as [[h2|] [[]|]] eqn:Hw2; try done. by apply Witness_ok_some in Hw2.
  - cbn [mbind result_bind]. destruct (greatestFrontierTag (sn_frontier saved)) as [u|]; [|done]. cbn [os_clock os_with].
    destruct (Witness (Some h) u now2) as [[h2|] [[]|]] eqn:Hw2; try done. by apply Witness_ok_some in Hw2.
Qed.

Lemma greatestFrontierTag_spec (f : gmap bytes Tag) t :
  (∃ a, f !! a = Some t) → ∃ g, greatestFrontierTag f = Some g ∧ Compare t g <= 0.
Proof.
  intros [a Ha]. assert (t ∈ (map_to_list f).*2) as Hin.
  { apply list_elem_of_fmap. exists (a, t). split; [done|]. by apply elem_of_map_to_list. }
  pose proof (greatest_fold None (map_to_list f).*2) as Hg. unfold greatestFrontierTag.
  destruct (foldl _ _ _) as [m|]; [|destruct Hg as [_ Hg]; rewrite Hg in Hin; by apply elem_of_nil in Hin].
  exists m. split; [done|]. apply Hg. by right.
Qed.

Lemma greatestFrontierTag_in (f : gmap bytes Tag) g : greatestFrontierTag f = Some g → ∃ a, f !! a = Some g.
Proof.
  intros Hf. pose proof (greatest_fold None (map_to_list f).*2) as Hg. unfold greatestFrontierTag in Hf. rewrite Hf in Hg.
  destruct Hg as [[|([a t] & -> & Hin)%list_elem_of_fmap] _]; [done|]. exists a. by apply elem_of_map_to_list.
Qed.

Lemma frontier_tags (P : Tag → Prop) (f : gmap bytes Tag) :
  map_Forall (λ _ t, P t) f → ∀ t, greatestFrontierTag f = Some t → P t.
Proof. intros Hf t [a Ha]%greatestFrontierTag_in. by apply (Hf a). Qed.

Lemma validFrontier_tags (f : gmap bytes Tag) : validFrontier f = true → map_Forall (λ _ t, Valid t = true) f.
Proof.
  unfold validFrontier. rewrite forallb_forall. intros Hf a t Ha%elem_of_map_to_list%list_elem_of_In%Hf.
  cbn [fst snd] in Ha. apply negb_true_iff, orb_false_iff in Ha as [_ Ha]. by apply negb_false_iff.
Qed.

(** The saved bytes decode to the state. *)
Lemma ORSet_Snapshot_inv (o : ORSet T) frontier saved :
  orset_wf o → CodecOk (os_codec o) → blank (bound_id (os_codec o)) = false → tags_unshared (os_elements o) →
  ORSet_Snapshot (Some o) frontier = Ok saved →
  sn_TypeID saved = TypeIDORSetState ∧ sn_clockState saved = Some (HLC_Snapshot (os_clock o)) ∧
  sn_frontier saved = frontier ∧ map_Forall (λ _ t, Valid t = true) frontier ∧
  unmarshalORSetWithCodec (sn_state saved) TypeIDORSetState (os_codec o) DefaultLimits = Ok (os_state o).
Proof.
  intros (Hst & Hok & Hc) Hcodec Hid Hun. unfold ORSet_Snapshot. intros ([data cs] & Hm & Hs)%bind_Ok.
  cbn [ORSet_MarshalBinaryWithClockState] in Hm. destruct (os_clock o) as [h|] eqn:Hh; [|done].
  apply bind_Ok in Hm as (plan & Hplan & (enc & Henc & [= -> <-])%bind_Ok).
  assert (unmarshalORSetWithCodec data TypeIDORSetState (os_codec o) DefaultLimits = Ok (os_state o)) as Hu.
  { apply (orset_codec_iff o (adds_order (os_elements o)) (elements (os_tombstones o)) data); try done.
    - apply visits_adds_order.
    - apply NoDup_elements.
    - apply list_to_set_elements_L.
    - apply bind_Ok. by exists plan. }
  pose proof (proj1 (unmarshalORSet_iff _ _ _ _ _) Hu) as (f & Hf & HT & _).
  unfold NewWithClockState in Hs. rewrite Hf in Hs. destruct (_ || _) eqn:Hb; [done|].
  apply orb_false_iff in Hb as [[_ Hb%negb_false_iff]%orb_false_iff _]. injection Hs as <-.
  split_and!; [done..|by apply validFrontier_tags|done].
Qed.

(** C16: a replica restarts where it was saved. The snapshot of a well-formed OR-Set
    restores to a well-formed replica of the same identity with the same elements
    and tombstones, whose clock is past every tag of the saved clock, the state
    and the frontier, so no later addition reuses one. Restoring fails only by an
    exhausted clock: the state has a tag and the saved clock cannot step past it, or
    the frontier has one and the clock that passed the state cannot step past that,
    each time because the physical time is unreadable or no timestamp is left. In
    particular an empty set with an empty frontier always restores. *)
Theorem ORSet_recovery (o : ORSet T) (codec : ptr (ElementCodec T)) (frontier : gmap bytes Tag) (saved : Snapshot)
    (now1 now2 : option Z) (Hwf : orset_wf o) (Hbind : bindElementCodec codec = Ok (os_codec o))
    (Hcodec : CodecOk (os_codec o)) (Hun : tags_unshared (os_elements o))
    (Hf : map_Forall (λ _ t, tag_wf t) frontier) (Hn1 : now_wf now1) (Hn2 : now_wf now2)
    (Hsave : ORSet_Snapshot (Some o) frontier = Ok saved) :
  match NewORSetFromSnapshot saved codec now1 now2 with
  | Ok o' => os_state o' = os_state o ∧ orset_wf o' ∧ clock_advances (os_clock o) (os_clock o') ∧
      ∀ a t, frontier !! a = Some t → ∃ h, os_clock o' = Some h ∧ ts_lt t (hlc_tag h)
  | Err e => e = ErrClockExhausted ∧
      cannot_resume (os_clock o) now1 now2 (known (os_state o)) (λ t, ∃ a, frontier !! a = Some t)
  end.
Proof.
  pose proof Hwf as (Hst & Hok & Hcov). destruct (os_clock o) as [h|] eqn:Hh; [|done]. destruct Hcov as [Hhw Hk].
  assert (blank (bound_id (os_codec o)) = false) as Hid.
  { revert Hbind. unfold bindElementCodec. destruct codec as [c|]; [|done]. destruct (guarded _) as [id|]; [|done].
    destruct (blank id) eqn:E; [done|]. by intros [= <-]. }
  apply ORSet_Snapshot_inv in Hsave as (HT & Hc & Hfr & Hfv & Hu); [|done..]. rewrite Hh in Hc.
  rewrite (NewORSetFromSnapshot_eq saved codec (os_codec o) h (os_state o) now1 now2 _ HT Hc Hbind (restart_same h Hhw) Hu), Hfr.
  pose proof (greatestStateTag_spec (os_state o)) as Hg.
  assert (∀ t, greatestStateTag (os_state o).1 (os_state o).2 = Some t → known (os_state o) t) as Hgk
    by (intros t Ht; rewrite Ht in Hg; apply Hg).
  pose proof (resumed_spec h (greatestStateTag (os_state o).1 (os_state o).2) (greatestFrontierTag frontier) now1 now2
    (known (os_state o)) (λ t, ∃ a, frontier !! a = Some t) Hhw Hn1 Hn2 (λ t Ht, proj2 (Hok t (Hgk t Ht)))
    (frontier_tags _ _ Hf) (λ t Ht, conj (Hgk t Ht) (proj1 (Hok t (Hgk t Ht))))
    (λ t Ht, conj (greatestFrontierTag_in _ t Ht) (frontier_tags _ _ Hfv t Ht))) as Hres.
  destruct (witnessed h _ now1) as [h1|e]; [|done]. cbn [mbind result_bind] in *.
  destruct (witnessed h1 _ now2) as [h2|e]; [|done]. cbn [mbind result_bind]. destruct Hres as (Hw2 & Hr2 & Hle & Hlt2).
  split; [by destruct (os_state o)|]. split; [|split].
  - split; [exact Hst|]. split; [exact Hok|]. apply (clock_covers_advance h h2 (os_state o)); [by split|done|done|].
    intros t Ht. by left.
  - by exists h, h2.
  - intros a t Ha. exists h2. split; [done|].
    destruct (greatestFrontierTag_spec frontier t) as (g & Hgf & Hcmp); [by exists a|].
    eapply ts_le_lt_trans; [by apply ts_le_Compare|by apply Hlt2].
Qed.
End orset_recovery.

(** ** Witnesses: a replica with an element and a tombstone *)

#[local] Existing Instance marker_flate.

Definition snap_tag (n : Z) : Tag := mkTag (str "a") n 0.
Definition snap_set : ORSet bytes :=
  mkORSet (str "a") (Some (mkHLC (str "a") 5 0)) raw_codec {[str "x" := {[snap_tag 1; snap_tag 2]}]} {[snap_tag 3]}.
Definition snap_saved : Snapshot :=
  match ORSet_Snapshot (Some snap_set) ∅ with Ok s => s | Err _ => mkSnapshot 0 0 [] [] ∅ None end.

Lemma snap_saved_eq : ORSet_Snapshot (Some snap_set) ∅ = Ok snap_saved.
Proof. vm_compute. reflexivity. Qed.

Lemma snap_known t : known (os_state snap_set) t → t = snap_tag 1 ∨ t = snap_tag 2 ∨ t = snap_tag 3.
Proof. intros [[e [_ Ht]%live_singleton]|Ht]; simpl in Ht; set_solver. Qed.

Lemma snap_set_wf : orset_wf snap_set.
Proof.
  split; [split|split; [|split]].
  - apply map_Forall_singleton. set_solver.
  - intros e t [_ Ht]%live_singleton. simpl. set_solver.
  - by intros t [->|[->| ->]]%snap_known.
  - by split.
  - by intros t [->|[->| ->]]%snap_known; vm_compute; auto.
Qed.

Lemma Snapshot_well_formed_witness : Snapshot_valid snap_saved = true.
Proof.
  apply (Snapshot_well_formed snap_saved).
  apply (by_NewWithClockState (sn_state snap_saved) ∅ (mkClockState (str "a") 5 0)). vm_compute. reflexivity.
Defined.

Lemma ORSet_recovery_witness :
  match NewORSetFromSnapshot snap_saved (Some (bound_value raw_codec)) (Some 9) (Some 9) with
  | Ok o' => os_state o' = os_state snap_set
  | Err _ => False
  end.
Proof.
  pose proof (ORSet_recovery snap_set (Some (bound_value raw_codec)) ∅ snap_saved (Some 9) (Some 9) snap_set_wf) as Hr.
  assert (is_ok (NewORSetFromSnapshot (T:=bytes) snap_saved (Some (bound_value raw_codec)) (Some 9) (Some 9)) = true) as Hok
    by (vm_compute; reflexivity).
  specialize (Hr eq_refl raw_codec_ok).
  destruct (NewORSetFromSnapshot snap_saved _ _ _); [|discriminate].
  apply Hr; [|apply map_Forall_empty|by vm_compute|by vm_compute|apply snap_saved_eq].
  by intros e e' t [-> _]%live_singleton [-> _]%live_singleton.
Defined.
