(* ===== verification/LWWSet.v ===== *)
(** * Last-writer-wins sets

    src/lww/set.go, src/lww/wire_set.go, src/lww/codec.go and the set helpers of
    src/lww/lww.go. A removed element keeps an entry with its removal tag, and an
    index maps every retained tag to its element; the index loops are those of
    TagIndex.v. *)

From S2P Require Import Prelude Tags Clock Lattice Tagged TagIndex Wire SortedCodec Frame Codec Snapshot.

(** [setEntry] *)
Record setEntry := mkSetEntry { se_tag : Tag; se_present : bool }.

#[export] Instance setEntry_eq_dec : EqDecision setEntry.
Proof. solve_decision. Defined.

(** [SetOptions], [DefaultSetOptions], [SetOptions.valid] *)
Record SetOptions := mkSetOptions { so_MaxEntries : Z }.
Definition DefaultSetOptions : SetOptions := mkSetOptions (2 ^ 20).
Definition SetOptions_valid (o : SetOptions) : bool := 0 <? so_MaxEntries o.

(** [bindElementCodec] of src/lww/codec.go. *)
Definition bindElementCodec {T} (codec : ptr (ElementCodec T)) : result (boundElementCodec T) :=
  match codec with
  | None => Err ErrLWWInvalidCodec
  | Some codec =>
      match guarded (codec_ID codec) with
      | Err _ => Err ErrLWWInvalidCodec
      | Ok id => if blank id then Err ErrLWWInvalidCodec else Ok (mkBound codec id)
      end
  end.

Section lwwset_model.
Context {T : Type} `{Countable T}.

(** [SetDelta], [Set] *)
Record SetDelta := mkSetDelta { sd_entries : gmap T setEntry }.
Record LWWSet := mkLWWSet {
  ls_replicaID : bytes; ls_clock : ptr HLC; ls_options : SetOptions;
  ls_entries : gmap T setEntry; ls_tags : gmap Tag T }.

Definition LWWSet_with (s : LWWSet) (c : ptr HLC) (entries : gmap T setEntry) (tags : gmap Tag T) : LWWSet :=
  mkLWWSet (ls_replicaID s) c (ls_options s) entries tags.

(** [NewSetFromClockWithOptions], [NewSetFromClock], [NewSetWithOptions], [NewSet] *)
Definition NewSetFromClockWithOptions (state : ClockState) (options : SetOptions) : result LWWSet :=
  if negb (Valid (mkTag (cs_ReplicaID state) 0 0)) then Err ErrLWWInvalidReplicaID
  else if negb (SetOptions_valid options) then Err ErrLWWResourceLimit
  else match NewHLCFromState state with
       | Err e => Err e
       | Ok hlc => Ok (mkLWWSet (cs_ReplicaID state) (Some hlc) options ∅ ∅)
       end.
Definition NewSetFromClock (state : ClockState) : result LWWSet := NewSetFromClockWithOptions state DefaultSetOptions.
Definition NewSetWithOptions (replicaID : bytes) (options : SetOptions) : result LWWSet :=
  NewSetFromClockWithOptions (mkClockState replicaID 0 0) options.
Definition NewSet (replicaID : bytes) : result LWWSet := NewSetWithOptions replicaID DefaultSetOptions.

(** [Set.ClockState] *)
Definition LWWSet_ClockState (s : ptr LWWSet) : ClockState :=
  match s with
  | None => zeroClockState
  | Some s => match ls_clock s with None => zeroClockState | Some _ => HLC_Snapshot (ls_clock s) end
  end.

(** ** Validation *)

(** [validateSetEntries] *)
Definition validateSetEntries (entries : gmap T setEntry) : result unit :=
  validate_order se_tag (λ _ entry, negb (Valid (se_tag entry))) ErrLWWInvalidSetDelta ∅ (map_to_list entries).

(** [ensureSetTagsCompatible] *)
Definition ensureSetTagsCompatible (tags : gmap Tag T) (entries : gmap T setEntry) : result unit :=
  if existsb (λ e : T * setEntry, other_owner tags (se_tag e.2) e.1) (map_to_list entries)
  then Err ErrLWWTagConflict else Ok tt.

(** [setEntriesConflict] *)
Definition setEntriesConflict (l r : setEntry) : bool :=
  bool_decide (se_tag l = se_tag r) && negb (eqb (se_present l) (se_present r)).

(** The loop that looks for a conflicting entry. *)
Definition set_conflicts (existing incoming : gmap T setEntry) : bool :=
  existsb (λ e : T * setEntry, match existing !! e.1 with
    | Some current => setEntriesConflict current e.2 | None => false end) (map_to_list incoming).

(** [setEntriesSubsumed] *)
Definition setEntriesSubsumed (existing incoming : gmap T setEntry) : bool :=
  forallb (λ e : T * setEntry, match existing !! e.1 with
    | None => false
    | Some current => negb (Compare (se_tag current) (se_tag e.2) <? 0) && negb (setEntriesConflict current e.2)
    end) (map_to_list incoming).

(** [newSetEntries] *)
Definition newSetEntries (incoming existing : gmap T setEntry) : Z :=
  len (filter (λ e : T * setEntry, existing !! e.1 = None) (map_to_list incoming)).

(** [greatestSetTag], [setFrontier], [setTagIndex] *)
Definition greatestSetTag (entries : gmap T setEntry) : option Tag := foldl greatest_step None (entry_tags se_tag entries).
Definition setFrontier (entries : gmap T setEntry) : gmap bytes Tag := foldl frontier_step ∅ (entry_tags se_tag entries).
Definition setTagIndex (entries : gmap T setEntry) : result (gmap Tag T) :=
  match validateSetEntries entries with
  | Err e => Err e
  | Ok _ => Ok (foldl (λ tags e, <[se_tag e.2 := e.1]> tags) ∅ (map_to_list entries))
  end.

(** ** Operations *)

(** [Set.writeDelta] *)
Definition LWWSet_writeDelta (s : ptr LWWSet) (value : T) (present : bool) (now : option Z) : ptr LWWSet * result SetDelta :=
  match s with
  | None => (None, Err ErrNilSet)
  | Some ls =>
      match ls_clock ls with
      | None => (s, Err ErrNilSet)
      | Some _ =>
          let current := ls_entries ls !! value in
          if bool_decide (current = None) && (so_MaxEntries (ls_options ls) <=? Z.of_nat (size (ls_entries ls)))
          then (s, Err ErrLWWResourceLimit)
          else match Now (ls_clock ls) now with
          | (hlc, Err e) => (Some (LWWSet_with ls hlc (ls_entries ls) (ls_tags ls)), Err e)
          | (hlc, Ok tag) =>
              if other_owner (ls_tags ls) tag value
              then (Some (LWWSet_with ls hlc (ls_entries ls) (ls_tags ls)), Err ErrLWWTagConflict)
              else
                let incoming := mkSetEntry tag present in
                let delta := mkSetDelta {[value := incoming]} in
                let currentTag := match current with None => zeroTag | Some c => se_tag c end in
                if match current with None => true | Some c => Compare (se_tag c) tag <? 0 end
                then (Some (LWWSet_with ls hlc (<[value := incoming]> (ls_entries ls))
                             (<[tag := value]> (delete currentTag (ls_tags ls)))), Ok delta)
                else (Some (LWWSet_with ls hlc (ls_entries ls) (ls_tags ls)), Ok delta)
          end
      end
  end.

(** [Set.AddWithDelta], [Set.RemoveWithDelta], [Set.Add], [Set.Remove] *)
Definition LWWSet_AddWithDelta (s : ptr LWWSet) (value : T) (now : option Z) := LWWSet_writeDelta s value true now.
Definition LWWSet_RemoveWithDelta (s : ptr LWWSet) (value : T) (now : option Z) := LWWSet_writeDelta s value false now.
Definition LWWSet_Add (s : ptr LWWSet) (value : T) (now : option Z) : ptr LWWSet * result unit :=
  let '(s, r) := LWWSet_AddWithDelta s value now in (s, _ ← r; Ok tt).
Definition LWWSet_Remove (s : ptr LWWSet) (value : T) (now : option Z) : ptr LWWSet * result unit :=
  let '(s, r) := LWWSet_RemoveWithDelta s value now in (s, _ ← r; Ok tt).

(** [Set.Contains], [Set.Elements] *)
Definition LWWSet_Contains (s : ptr LWWSet) (value : T) : bool :=
  match s with
  | None => false
  | Some s => match ls_entries s !! value with Some entry => se_present entry | None => false end
  end.
Definition LWWSet_Elements (s : ptr LWWSet) : list T :=
  match s with
  | None => []
  | Some s => (filter (λ e : T * setEntry, se_present e.2 = true) (map_to_list (ls_entries s))).*1
  end.

(** [Set.applyOwnedSetEntries] *)
Definition applyOwnedSetEntries (s : LWWSet) (entries : gmap T setEntry) (now : option Z) : ptr LWWSet * result unit :=
  match validateSetEntries entries with
  | Err e => (Some s, Err e)
  | Ok _ =>
  match ensureSetTagsCompatible (ls_tags s) entries with
  | Err e => (Some s, Err e)
  | Ok _ =>
      if set_conflicts (ls_entries s) entries then (Some s, Err ErrLWWTagConflict)
      else if setEntriesSubsumed (ls_entries s) entries then (Some s, Ok tt)
      else if so_MaxEntries (ls_options s) <? Z.of_nat (size (ls_entries s)) + newSetEntries entries (ls_entries s)
      then (Some s, Err ErrLWWResourceLimit)
      else
        let '(hlc, r) := match greatestSetTag entries with
          | None => (ls_clock s, Ok tt)
          | Some tag => Witness (ls_clock s) tag now
          end in
        match r with
        | Err e => (Some (LWWSet_with s hlc (ls_entries s) (ls_tags s)), Err e)
        | Ok _ =>
            let '(es, tags) := foldl (apply_entry se_tag) (ls_entries s, ls_tags s) (map_to_list entries) in
            (Some (LWWSet_with s hlc es tags), Ok tt)
        end
  end end.

(** [Set.Merge], [Set.ApplyDelta] *)
Definition LWWSet_Merge (s : ptr LWWSet) (other : peer LWWSet) (now : option Z) : ptr LWWSet * result unit :=
  match s, other with
  | None, _ | _, PNil => (s, Err ErrNilSet)
  | Some _, PSelf => (s, Ok tt)
  | Some ls, PObj o => applyOwnedSetEntries ls (ls_entries o) now
  end.
Definition LWWSet_ApplyDelta (s : ptr LWWSet) (delta : SetDelta) (now : option Z) : ptr LWWSet * result unit :=
  match s with
  | None => (None, Err ErrNilSet)
  | Some ls =>
      match ls_clock ls with
      | None => (s, Err ErrNilSet)
      | Some _ => applyOwnedSetEntries ls (sd_entries delta) now
      end
  end.

(** The loop of [SetDelta.Merge]. *)
Fixpoint set_delta_merge (merged : gmap T setEntry) (order : list (T * setEntry)) : result (gmap T setEntry) :=
  match order with
  | [] => Ok merged
  | (value, incoming) :: order' =>
      match merged !! value with
      | None => set_delta_merge (<[value := incoming]> merged) order'
      | Some current =>
          if setEntriesConflict current incoming then Err ErrLWWTagConflict
          else set_delta_merge (if Compare (se_tag current) (se_tag incoming) <? 0
                                then <[value := incoming]> merged else merged) order'
      end
  end.

(** [SetDelta.Merge] *)
Definition SetDelta_Merge (d other : SetDelta) : result SetDelta :=
  _ ← validateSetEntries (sd_entries d);
  _ ← validateSetEntries (sd_entries other);
  merged ← set_delta_merge (sd_entries d) (map_to_list (sd_entries other));
  _ ← validateSetEntries merged;
  Ok (mkSetDelta merged).

(** [Set.State], [Set.Frontier], [Set.TombstoneTags] *)
Definition LWWSet_State (s : ptr LWWSet) : StateSnapshot :=
  match s with
  | None => Tags.mkSnapshot (str "lww-set") [] 0 0
  | Some s =>
      let present := len (filter (λ e : T * setEntry, se_present e.2 = true) (map_to_list (ls_entries s))) in
      Tags.mkSnapshot (str "lww-set") (ls_replicaID s) present (Z.of_nat (size (ls_entries s)) - present)
  end.
Definition LWWSet_Frontier (s : ptr LWWSet) : option (gmap bytes Tag) := (λ s, setFrontier (ls_entries s)) <$> s.
Definition LWWSet_TombstoneTags (s : ptr LWWSet) : list Tag :=
  match s with
  | None => []
  | Some s => sort_by Compare ((λ e : T * setEntry, se_tag e.2) <$>
      filter (λ e : T * setEntry, se_present e.2 = false) (map_to_list (ls_entries s)))
  end.

(** [Set.CompactTombstones] *)
Definition LWWSet_CompactTombstones (s : ptr LWWSet) (tags : list Tag) : ptr LWWSet * result Z :=
  match s with
  | None => (None, Err ErrNilSet)
  | Some ls =>
      if negb (forallb Valid tags) then (s, Err ErrUnsafeCompaction)
      else match compact_index se_tag ∅ (map_to_list (ls_entries ls)) with
      | Err e => (s, Err e)
      | Ok byTag =>
          match compact_keys se_present (ls_entries ls) byTag ∅ [] tags with
          | Err e => (s, Err e)
          | Ok compact =>
              let '(es, ts) := foldl (compact_remove se_tag) (ls_entries ls, ls_tags ls) compact in
              (Some (LWWSet_with ls (ls_clock ls) es ts), Ok (len compact))
          end
      end
  end.

(** ** Encoding *)

(** The loop of [marshalSetWithCodec] that encodes the elements. *)
Fixpoint setItems (codec : boundElementCodec T) (limits : DecoderLimits) (order : list (T * setEntry))
    : result (list (bytes * setEntry)) :=
  match order with
  | [] => Ok []
  | (value, entry) :: order' =>
      match bound_marshal codec value with
      | Err e => Err (ErrWrap ErrLWWInvalidCodec e)
      | Ok encoded =>
          if (MaxStringBytes limits <? len encoded) || (MaxStringBytes limits <? len (ReplicaID (se_tag entry)))
          then Err ErrFrameLimit
          else items ← setItems codec limits order'; Ok ((encoded, entry) :: items)
      end
  end.

(** The loop that compares neighbouring encodings. *)
Fixpoint duplicateItems (items : list (bytes * setEntry)) : bool :=
  match items with
  | l :: (r :: _) as items' => bool_decide (l.1 = r.1) || duplicateItems items'
  | _ => false
  end.

(** The size loop. *)
Fixpoint setPayloadSize (items : list (bytes * setEntry)) (limits : DecoderLimits) (payloadSize : Z) : result Z :=
  match items with
  | [] => Ok payloadSize
  | (encoded, entry) :: items' =>
      let additional := UvarintSize (len encoded) + len encoded + TagSize (se_tag entry) + UvarintSize 1 in
      if MaxPayload limits - payloadSize <? additional then Err ErrFrameLimit
      else setPayloadSize items' limits (payloadSize + additional)
  end.

(** One iteration of the loop that writes the payload. *)
Definition appendSetItem (output : bytes) (item : bytes * setEntry) : bytes :=
  let output := AppendUvarint output (len item.1) ++ item.1 in
  AppendUvarint (AppendTag output (se_tag item.2)) (if se_present item.2 then 1 else 0).

(** [marshalSetWithCodec], [marshalSet] *)
Definition marshalSetWithCodec (typeID : Z) (codec : boundElementCodec T) (entries : gmap T setEntry)
    (limits : DecoderLimits) : result bytes :=
  if negb (typeID =? TypeIDLWWSetState) && negb (typeID =? TypeIDLWWSetDelta) then Err ErrInvalidFrame
  else
    _ ← validateSetEntries entries;
    if (MaxElements limits <? Z.of_nat (size entries)) || (MaxTags limits <? Z.of_nat (size entries))
    then Err ErrFrameLimit
    else
      items ← setItems codec limits (map_to_list entries);
      let items := sort_by (λ l r : bytes * setEntry, bytes_compare l.1 r.1) items in
      if duplicateItems items then Err ErrLWWInvalidCodec
      else
        payloadSize ← setPayloadSize items limits (UvarintSize (len items));
        MarshalFrameWithPayload typeID (bound_id codec) payloadSize
          (exactWriter (foldl appendSetItem (AppendUvarint [] (len items)) items) payloadSize).
Definition marshalSet (typeID : Z) (codec : ptr (ElementCodec T)) (entries : gmap T setEntry) (limits : DecoderLimits)
    : result bytes := bound ← bindElementCodec codec; marshalSetWithCodec typeID bound entries limits.

(** [Set.MarshalBinary], [Set.MarshalBinaryWithClockState], [SetDelta.MarshalBinary] *)
Definition LWWSet_MarshalBinary (s : ptr LWWSet) (codec : ptr (ElementCodec T)) : result bytes :=
  match s with
  | None => Err ErrNilSet
  | Some s => marshalSet TypeIDLWWSetState codec (ls_entries s) DefaultLimits
  end.
Definition LWWSet_MarshalBinaryWithClockState (s : ptr LWWSet) (codec : ptr (ElementCodec T))
    : result (bytes * ClockState) :=
  match s with
  | None => Err ErrNilSet
  | Some s =>
      match ls_clock s with
      | None => Err ErrNilSet
      | Some _ =>
          encoded ← marshalSet TypeIDLWWSetState codec (ls_entries s) DefaultLimits;
          Ok (encoded, HLC_Snapshot (ls_clock s))
      end
  end.
Definition SetDelta_MarshalBinary (d : SetDelta) (codec : ptr (ElementCodec T)) : result bytes :=
  marshalSet TypeIDLWWSetDelta codec (sd_entries d) DefaultLimits.

(** ** Decoding *)

(** One iteration of the loop of [unmarshalSetWithCodec]. *)
Definition setStep (codec : boundElementCodec T) (payload : bytes) (maxStringBytes : Z) (index : Z)
    (acc : gmap T setEntry * bytes) (position : Z) : result ((gmap T setEntry * bytes) * Z) :=
  let '(entries, previous) := acc in
  match ReadBytes payload position maxStringBytes with
  | None => Err ErrInvalidFrame
  | Some (encoded, position) =>
      if (0 <? index) && (0 <=? bytes_compare previous encoded) then Err ErrInvalidFrame
      else match bound_unmarshal codec encoded with
      | Err e => Err (ErrWrap ErrLWWInvalidCodec e)
      | Ok value =>
          match bound_marshal codec value with
          | Err _ => Err ErrLWWInvalidCodec
          | Ok canonical =>
              if negb (bool_decide (canonical = encoded)) then Err ErrLWWInvalidCodec
              else if bool_decide (is_Some (entries !! value)) then Err ErrInvalidFrame
              else match ReadTag payload position maxStringBytes with
              | None => Err ErrInvalidFrame
              | Some (tag, position) =>
                  match ReadUvarint payload position with
                  | None => Err ErrInvalidFrame
                  | Some (present, position) =>
                      if 1 <? present then Err ErrInvalidFrame
                      else Ok ((<[value := mkSetEntry tag (present =? 1)]> entries, encoded), position)
                  end
              end
          end
      end
  end.

Section lwwset_unmarshal.
Context `{F : Flate}.

(** [unmarshalSetWithCodec], [unmarshalSet] *)
Definition unmarshalSetWithCodec (data : bytes) (expectedTypeID : Z) (codec : boundElementCodec T)
    (limits : DecoderLimits) : result (gmap T setEntry) :=
  decoded ← UnmarshalFrame data limits;
  if negb (TypeID decoded =? expectedTypeID) || negb (bool_decide (CodecID decoded = bound_id codec))
  then Err ErrLWWCodecMismatch
  else match ReadUvarint (Payload decoded) 0 with
  | None => Err ErrInvalidFrame
  | Some (count, position) =>
      if (MaxElements limits <? count) || (MaxTags limits <? count) then Err ErrInvalidFrame
      else
        '(entries, _, position) ← read_loop (setStep codec (Payload decoded) (MaxStringBytes limits))
          (S (length (Payload decoded))) 0 count position (∅, []);
        if negb (position =? len (Payload decoded)) then Err ErrInvalidFrame
        else match validateSetEntries entries with
             | Err _ => Err ErrInvalidFrame
             | Ok _ => Ok entries
             end
  end.
Definition unmarshalSet (data : bytes) (expectedTypeID : Z) (codec : ptr (ElementCodec T)) (limits : DecoderLimits)
    : result (gmap T setEntry) := bound ← bindElementCodec codec; unmarshalSetWithCodec data expectedTypeID bound limits.

(** [UnmarshalSetDeltaWithLimits], [UnmarshalSetDelta] *)
Definition UnmarshalSetDeltaWithLimits (data : bytes) (codec : ptr (ElementCodec T)) (limits : DecoderLimits)
    : result SetDelta := entries ← unmarshalSet data TypeIDLWWSetDelta codec limits; Ok (mkSetDelta entries).
Definition UnmarshalSetDelta (data : bytes) (codec : ptr (ElementCodec T)) : result SetDelta :=
  UnmarshalSetDeltaWithLimits data codec DefaultLimits.

(** [Set.UnmarshalBinaryWithLimits], [Set.UnmarshalBinary] *)
Definition LWWSet_UnmarshalBinaryWithLimits (s : ptr LWWSet) (data : bytes) (codec : ptr (ElementCodec T))
    (limits : DecoderLimits) (now : option Z) : ptr LWWSet * result unit :=
  match s with
  | None => (None, Err ErrNilSet)
  | Some ls =>
      match ls_clock ls with
      | None => (s, Err ErrNilSet)
      | Some _ =>
          match unmarshalSet data TypeIDLWWSetState codec limits with
          | Err e => (s, Err e)
          | Ok entries =>
              if so_MaxEntries (ls_options ls) <? Z.of_nat (size entries) then (s, Err ErrLWWResourceLimit)
              else match setTagIndex entries with
              | Err e => (s, Err e)
              | Ok tags =>
                  match greatestSetTag entries with
                  | None => (Some (LWWSet_with ls (ls_clock ls) entries tags), Ok tt)
                  | Some tag =>
                      match Witness (ls_clock ls) tag now with
                      | (hlc, Err e) => (Some (LWWSet_with ls hlc (ls_entries ls) (ls_tags ls)), Err e)
                      | (hlc, Ok _) => (Some (LWWSet_with ls hlc entries tags), Ok tt)
                      end
                  end
              end
          end
      end
  end.
Definition LWWSet_UnmarshalBinary (s : ptr LWWSet) (data : bytes) (codec : ptr (ElementCodec T)) (now : option Z)
    : ptr LWWSet * result unit := LWWSet_UnmarshalBinaryWithLimits s data codec DefaultLimits now.

(** ** Snapshots *)

(** [Set.Snapshot], [Set.SnapshotCurrentState] *)
Definition LWWSet_Snapshot (s : ptr LWWSet) (codec : ptr (ElementCodec T)) (frontier : gmap bytes Tag) : result Snapshot :=
  '(state, clockState) ← LWWSet_MarshalBinaryWithClockState s codec;
  NewWithClockState state frontier clockState.
Definition LWWSet_SnapshotCurrentState (s : ptr LWWSet) (codec : ptr (ElementCodec T)) : result Snapshot :=
  match s with
  | None => Err ErrNilSet
  | Some ls =>
      match ls_clock ls with
      | None => Err ErrNilSet
      | Some _ =>
          state ← marshalSet TypeIDLWWSetState codec (ls_entries ls) DefaultLimits;
          NewWithClockState state (setFrontier (ls_entries ls)) (HLC_Snapshot (ls_clock ls))
      end
  end.

(** [greatestSetFrontierTag] *)
Definition greatestSetFrontierTag (frontier : gmap bytes Tag) : option Tag :=
  foldl greatest_step None (map_to_list frontier).*2.

(** [NewSetFromSnapshotWithOptions], [NewSetFromSnapshot]; the two arguments of
    time are those its two calls of [Witness] read. *)
Definition NewSetFromSnapshotWithOptions (saved : Snapshot) (codec : ptr (ElementCodec T)) (options : SetOptions)
    (now1 now2 : option Z) : result LWWSet :=
  if negb (sn_TypeID saved =? TypeIDLWWSetState) then Err ErrLWWInvalidSetSnap
  else if negb (SetOptions_valid options) then Err ErrLWWResourceLimit
  else match sn_clockState saved with
  | None => Err ErrLWWInvalidSetSnap
  | Some clockState =>
      restored ← NewSetFromClockWithOptions clockState options;
      match LWWSet_UnmarshalBinary (Some restored) (sn_state saved) codec now1 with
      | (Some restored, Ok _) =>
          match greatestSetFrontierTag (sn_frontier saved) with
          | None => Ok restored
          | Some tag =>
              match Witness (ls_clock restored) tag now2 with
              | (_, Err e) => Err e
              | (hlc, Ok _) => Ok (LWWSet_with restored hlc (ls_entries restored) (ls_tags restored))
              end
          end
      | (_, Err e) => Err e
      | (None, Ok _) => Err ErrNilSet
      end
  end.
Definition NewSetFromSnapshot (saved : Snapshot) (codec : ptr (ElementCodec T)) (now1 now2 : option Z) : result LWWSet :=
  NewSetFromSnapshotWithOptions saved codec DefaultSetOptions now1 now2.
End lwwset_unmarshal.
End lwwset_model.

Arguments LWWSet T {_ _}.
Arguments SetDelta T {_ _}.
