(* ===== verification/LWWSetTheory.v ===== *)
(** * Last-writer-wins sets converge

    Properties of the sets of LWWSet.v, proved from the store of TagStore.v: a
    write decides membership, replicas converge, and compaction removes exactly
    the requested removal markers. *)

From S2P Require Import Prelude Tags Clock Lattice Tagged TagIndex TagStore Wire Frame LWWSet.

Section lwwset_theory.
Context {T : Type} `{Countable T}.

(** An entry a replica may hold. *)
Definition set_entry_wf (_ : T) (e : setEntry) : Prop := Valid (se_tag e) = true ∧ tag_wf (se_tag e).

Definition lwwset_wf (s : LWWSet T) : Prop :=
  store_wf se_tag set_entry_wf (ls_clock s) (ls_entries s) (ls_tags s).

Lemma set_entry_wf_tag k e : set_entry_wf k e → Valid (se_tag e) = true ∧ tag_wf (se_tag e).
Proof. done. Qed.

Lemma validateSetEntries_Ok (es : gmap T setEntry) :
  validateSetEntries es = Ok tt ↔ map_Forall (λ _ e, Valid (se_tag e) = true) es ∧ tags_distinct se_tag es.
Proof.
  unfold validateSetEntries. rewrite validate_entries_Ok. unfold map_Forall. by setoid_rewrite negb_false_iff.
Qed.

Lemma ensureSetTagsCompatible_Ok (tags : gmap Tag T) es :
  ensureSetTagsCompatible tags es = Ok tt ↔ ∀ k e o, es !! k = Some e → tags !! se_tag e = Some o → o = k.
Proof. rewrite <-tags_compatible. unfold ensureSetTagsCompatible. by destruct (existsb _ _). Qed.

Lemma LWWSet_with_same (s : LWWSet T) : LWWSet_with s (ls_clock s) (ls_entries s) (ls_tags s) = s.
Proof. by destruct s. Qed.

(** Received entries are joined, or nothing changes. *)
Lemma applyOwnedSet_spec (s : LWWSet T) es now :
  lwwset_wf s → map_Forall set_entry_wf es → now_wf now →
  ∃ s' r, applyOwnedSetEntries s es now = (Some s', r) ∧ lwwset_wf s' ∧
    match r with
    | Ok _ => ls_entries s' = join_later se_tag (ls_entries s) es
    | Err _ => s' = s
    end.
Proof.
  intros Hs Hes Hnow. unfold applyOwnedSetEntries.
  destruct (validateSetEntries es) as [[]|] eqn:Hv; [|by eexists _, _].
  apply validateSetEntries_Ok in Hv as [_ Hdis].
  destruct (ensureSetTagsCompatible _ _) as [[]|] eqn:Hcomp; [|by eexists _, _].
  destruct (set_conflicts _ _); [by eexists _, _|].
  destruct (setEntriesSubsumed _ _) eqn:Hsub.
  { eexists _, _. split; [done|]. split; [done|]. symmetry. by eapply subsumed_join. }
  destruct (_ <? _); [by eexists _, _|].
  pose proof (store_receive se_tag set_entry_wf set_entry_wf_tag (ls_clock s) (ls_entries s) (ls_tags s) es now) as Hrec.
  unfold greatestSetTag. destruct (foldl greatest_step None _) as [t|] eqn:Hg.
  2: { pose proof (greatest_entry_tag se_tag es) as He. rewrite Hg in He. by rewrite He in Hsub. }
  specialize (Hrec t Hs Hes Hnow Hdis (proj1 (ensureSetTagsCompatible_Ok _ _) Hcomp) eq_refl).
  destruct (Witness _ t now) as [c' [[]|e]]; [|subst c'; rewrite LWWSet_with_same; by eexists _, _].
  destruct (foldl (apply_entry se_tag) _ _) as [es' tags']. destruct Hrec as [Hwf Hj]. by eexists _, _.
Qed.

(** A write to an LWW set decides the membership of its element and of no other,
    under a tag above every tag the set holds, and its delta joined into the
    previous entries gives the new ones. A refused write changes nothing and is
    refused only at the entry limit or by an exhausted clock. *)
Theorem LWWSet_writeDelta_spec (s : LWWSet T) (value : T) (present : bool) (now : option Z)
    (Hs : lwwset_wf s) (Hnow : now_wf now) :
  match LWWSet_writeDelta (Some s) value present now with
  | (Some s', Ok d) =>
      lwwset_wf s' ∧ LWWSet_Contains (Some s') value = present ∧
      (∀ v, v ≠ value → LWWSet_Contains (Some s') v = LWWSet_Contains (Some s) v) ∧
      ls_entries s' = join_later se_tag (ls_entries s) (sd_entries d) ∧
      (∀ k k' e c, sd_entries d !! k = Some e → ls_entries s !! k' = Some c → Compare (se_tag c) (se_tag e) < 0)
  | (s', Err e) =>
      s' = Some s ∧
      ((e = ErrLWWResourceLimit ∧ ls_entries s !! value = None ∧
        so_MaxEntries (ls_options s) <= Z.of_nat (size (ls_entries s))) ∨
       (e = ErrClockExhausted ∧ exhausted (ls_clock s) now (λ _, False)))
  | (None, Ok _) => False
  end.
Proof.
  pose proof (store_now se_tag set_entry_wf set_entry_wf_tag _ _ _ now Hs Hnow) as Htag.
  pose proof Hs as (h & Hh & _). unfold LWWSet_writeDelta. rewrite Hh in *.
  destruct (bool_decide (ls_entries s !! value = None) && _) eqn:G.
  { split; [done|]. left. by apply andb_true_iff in G as [G%bool_decide_eq_true G'%Z.leb_le]. }
  destruct (Now (Some h) now) as [c' [tag|e]].
  2: { destruct Htag as (-> & -> & Hex). rewrite <-Hh in Hex |- *. rewrite LWWSet_with_same. auto. }
  destruct Htag as (Hv & Htwf & Hfresh & Hgt & Hwf).
  rewrite (proj2 (other_owner_false _ _ _)) by (rewrite Hfresh; done).
  assert (match ls_entries s !! value with None => true | Some c => Compare (se_tag c) tag <? 0 end = true) as ->.
  { destruct (ls_entries s !! value) as [c|] eqn:Hc; [|done]. apply Z.ltb_lt. by apply (Hgt value). }
  cbn [LWWSet_Contains ls_entries LWWSet_with]. split_and!.
  - by apply (Hwf value (mkSetEntry tag present)).
  - by rewrite lookup_insert_eq.
  - intros v Hne. by rewrite lookup_insert_ne.
  - symmetry. by apply join_later_newest.
  - simpl. intros k k' e' c [<- <-]%lookup_singleton_Some Hc. by apply (Hgt k').
Qed.

(** ** Convergence *)

Inductive set_msg := SetStateMsg (s : LWWSet T) | SetDeltaMsg (d : SetDelta T).

Definition set_receive (s : ptr (LWWSet T)) (msg : set_msg * option Z) : ptr (LWWSet T) * result unit :=
  match msg.1 with
  | SetStateMsg o => LWWSet_Merge s (PObj o) msg.2
  | SetDeltaMsg d => LWWSet_ApplyDelta s d msg.2
  end.

Definition set_carries (msg : set_msg * option Z) : gmap T setEntry :=
  match msg.1 with SetStateMsg o => ls_entries o | SetDeltaMsg d => sd_entries d end.

Definition set_msg_ok (msg : set_msg * option Z) : Prop :=
  map_Forall set_entry_wf (set_carries msg) ∧ now_wf msg.2.

Lemma set_receive_spec (s : LWWSet T) msg :
  lwwset_wf s → set_msg_ok msg →
  ∃ s' r, set_receive (Some s) msg = (Some s', r) ∧ lwwset_wf s' ∧
    match r with
    | Ok _ => ls_entries s' = join_later se_tag (ls_entries s) (set_carries msg)
    | Err _ => s' = s
    end.
Proof.
  intros Hs [Hes Hnow]. destruct msg as [[o|d] now]; unfold set_receive, set_carries in *; simpl in *.
  - by apply applyOwnedSet_spec.
  - pose proof Hs as (h & -> & _). by apply applyOwnedSet_spec.
Qed.

(** C37: LWW sets converge, atomically. Two sets whose own entries and successfully
    received states and deltas carry the same additions and removals, in any
    order, with any repetition and however they are split into messages, hold
    identical entries, so they contain the same elements, provided no two writes share a tag. Every received message
    either is joined completely or changes nothing, neither the entries nor the
    index nor the clock. *)
Theorem LWWSet_convergence (own : Tag → option (T * setEntry)) (a b a' b' : LWWSet T)
    (ma mb : list (set_msg * option Z))
    (Ha : lwwset_wf a) (Hb : lwwset_wf b) (Hma : Forall set_msg_ok ma) (Hmb : Forall set_msg_ok mb)
    (Hown : Forall (all_written se_tag own) (ls_entries a :: ls_entries b :: (set_carries <$> ma ++ mb)))
    (Hruna : run set_receive (Some a) ma = (Some a', Ok tt))
    (Hrunb : run set_receive (Some b) mb = (Some b', Ok tt))
    (Hsame : ∀ v e, carried (ls_entries a :: (set_carries <$> ma)) v e ↔ carried (ls_entries b :: (set_carries <$> mb)) v e) :
  ls_entries a' = ls_entries b' ∧ (∀ v, LWWSet_Contains (Some a') v = LWWSet_Contains (Some b') v) ∧
  ∀ msg e s', set_msg_ok msg → set_receive (Some a') msg = (s', Err e) → s' = Some a'.
Proof.
  destruct (store_convergence se_tag set_receive lwwset_wf set_msg_ok ls_entries set_carries set_receive_spec
    own a b a' b' ma mb) as [Heq Hatomic]; [done..|].
  split; [done|]. split; [|done]. intros v. unfold LWWSet_Contains. by rewrite Heq.
Qed.

(** ** Compaction *)

(** Compacting an LWW set removes exactly the entries of the requested tags,
    reports how many, and changes the membership of no element. It is refused,
    with nothing changed, exactly when a requested tag is malformed or belongs to
    an element that is present. *)
Theorem LWWSet_CompactTombstones_spec (s : LWWSet T) (tags : list Tag) (Hs : lwwset_wf s) :
  let live t := ∃ v e, ls_entries s !! v = Some e ∧ se_tag e = t ∧ se_present e = true in
  match LWWSet_CompactTombstones (Some s) tags with
  | (Some s', Ok n) =>
      (∀ t, t ∈ tags → Valid t = true ∧ ¬ live t) ∧ lwwset_wf s' ∧
      ls_entries s' = filter (λ ve, se_tag ve.2 ∉ tags) (ls_entries s) ∧
      n = Z.of_nat (size (ls_entries s)) - Z.of_nat (size (ls_entries s')) ∧
      ∀ v, LWWSet_Contains (Some s') v = LWWSet_Contains (Some s) v
  | (s', Err e) => (∃ t, t ∈ tags ∧ (Valid t = false ∨ live t)) ∧ s' = Some s ∧ e = ErrUnsafeCompaction
  | (None, Ok _) => False
  end.
Proof.
  intros live. unfold LWWSet_CompactTombstones. destruct (forallb Valid tags) eqn:Hv; cbn [negb].
  2:{ split; [|done]. apply forallb_false in Hv as (t & Ht & ?). eauto. }
  destruct (store_compact se_tag se_present set_entry_wf _ _ _ tags Hs) as (byTag & -> & Hk).
  destruct (compact_keys _ _ _ _ _) as [keys|err].
  2:{ destruct Hk as (-> & v & e & He & Hin & Hp). split; [|done]. exists (se_tag e). split; [done|]. right.
      by exists v, e. }
  destruct (foldl (compact_remove se_tag) _ keys) as [es ts]. destruct Hk as (Hwf & Hes & Hn & Hdead).
  cbn [fst snd] in *. subst es. cbn [ls_entries LWWSet_with]. split_and!; [|done..|].
  - intros t Ht. split; [by apply (forallb_elem _ _ _ Hv)|]. intros (v & e & He & <- & Hp).
    by rewrite (Hdead v e) in Hp.
  - intros v. unfold LWWSet_Contains. cbn [ls_entries LWWSet_with]. rewrite map_lookup_filter.
    destruct (ls_entries s !! v) as [e|] eqn:He; [|done]. simpl. case_guard as Ht; simpl; [done|].
    by rewrite (Hdead v e He).
Qed.
End lwwset_theory.

(** ** Witness: an addition and a later removal of one element *)

(** A set with one entry, written at [wall] by [id]. *)
Definition w_set (id : string) (wall : Z) (present : bool) : LWWSet bytes :=
  let e := mkSetEntry (mkTag (str id) wall 0) present in
  mkLWWSet (str id) (Some (mkHLC (str id) wall 0)) DefaultSetOptions {[str "k" := e]} {[se_tag e := str "k"]}.

Lemma w_set_wf id wall present :
  Valid (mkTag (str id) wall 0) = true → is_u64 wall → lwwset_wf (w_set id wall present).
Proof.
  intros Hv Hw. exists (mkHLC (str id) wall 0). split; [done|]. split; [done|]. split.
  - apply map_Forall_singleton. split; [done|]. unfold ts_le. simpl. lia.
  - intros t k. simpl. setoid_rewrite lookup_singleton_Some. naive_solver.
Qed.

Definition w_set_own (t : Tag) : option (bytes * setEntry) :=
  if decide (t = mkTag (str "a") 1 0) then Some (str "k", mkSetEntry t true)
  else if decide (t = mkTag (str "b") 2 0) then Some (str "k", mkSetEntry t false)
  else if decide (t = mkTag (str "c") 3 0) then Some (str "j", mkSetEntry t true) else None.

(** [a] receives two deltas, [b] the same writes in one. *)
Definition w_write (key id : string) (wall : Z) (present : bool) : gmap bytes setEntry :=
  {[str key := mkSetEntry (mkTag (str id) wall 0) present]}.
Definition w_split : list (set_msg * option Z) :=
  [(SetDeltaMsg (mkSetDelta (w_write "j" "c" 3 true)), Some 9); (SetDeltaMsg (mkSetDelta (w_write "k" "b" 2 false)), Some 9)].
Definition w_joint : list (set_msg * option Z) :=
  [(SetDeltaMsg (mkSetDelta (<[str "k" := mkSetEntry (mkTag (str "a") 1 0) true]> (w_write "j" "c" 3 true))), Some 9)].

Lemma LWWSet_convergence_witness :
  let a := default (w_set "a" 1 true) (run set_receive (Some (w_set "a" 1 true)) w_split).1 in
  let b := default (w_set "b" 2 false) (run set_receive (Some (w_set "b" 2 false)) w_joint).1 in
  LWWSet_Contains (Some a) (str "k") = LWWSet_Contains (Some b) (str "k").
Proof.
  intros a b.
  refine (proj1 (proj2 (LWWSet_convergence w_set_own (w_set "a" 1 true) (w_set "b" 2 false) a b
    w_split w_joint _ _ _ _ _ _ _ _)) (str "k")).
  - by apply w_set_wf.
  - by apply w_set_wf.
  - repeat (apply Forall_cons; split; [split; [by apply map_Forall_singleton|done]|]). constructor.
  - apply Forall_singleton. split; [|done]. by apply map_Forall_insert_2, map_Forall_singleton.
  - do 4 (apply Forall_cons; split; [by apply map_Forall_singleton; vm_compute|]). apply Forall_singleton.
    apply map_Forall_insert_2; [by vm_compute|]. by apply map_Forall_singleton; vm_compute.
  - vm_compute. reflexivity.
  - vm_compute. reflexivity.
  - intros v e. assert (str "k" ≠ str "j") as Hkj by discriminate.
    cbn [w_split w_joint fmap list_fmap set_carries fst sd_entries w_set ls_entries]. unfold w_write.
    rewrite !carried_cons, lookup_insert_Some, !lookup_singleton_Some. pose proof (carried_nil (E:=setEntry) v e).
    clear a b. generalize dependent (str "k"). generalize (str "j"). naive_solver.
Defined.
