(* ===== verification/LWWSetCodec.v ===== *)
(** * The canonical bytes of last-writer-wins sets

    The encoder and the decoder of src/lww/wire_set.go agree: a frame decodes to
    a set of entries exactly when those entries encode to it. *)

From S2P Require Import Prelude Tags Clock Lattice Tagged TagIndex TagStore Wire SortedCodec Frame Codec ORSet Snapshot LWWSet LWWSetTheory.

Section lwwset_encode.
Context {T : Type} `{Countable T} (codec : boundElementCodec T).

(** An element with its encoding and its entry. *)
Abbreviation item := (T * (bytes * setEntry))%type.
Definition item_entry (e : item) : T * setEntry := (e.1, e.2.2).
Definition item_key (e : item) : bytes := e.2.1.

Definition item_ok (limits : DecoderLimits) (e : item) : Prop :=
  bound_marshal codec e.1 = Ok e.2.1 ∧ len e.2.1 <= MaxStringBytes limits ∧
  len (ReplicaID (se_tag e.2.2)) <= MaxStringBytes limits.

Definition set_enc (i : bytes * setEntry) : bytes :=
  bytes_enc i.1 ++ tag_enc (se_tag i.2) ++ putUvarint (if se_present i.2 then 1 else 0).

(** The canonical payload for elements sorted by their encodings. *)
Definition set_payload (l : list item) : bytes := putUvarint (len l) ++ concat (set_enc <$> l.*2).

Lemma len_set_enc i :
  len (set_enc i) = UvarintSize (len i.1) + len i.1 + TagSize (se_tag i.2) + UvarintSize 1.
Proof.
  unfold set_enc. rewrite !len_app, len_bytes_enc, len_tag_enc.
  change (UvarintSize 1) with (len (putUvarint 1)). destruct (se_present i.2); [lia|].
  change (len (putUvarint 0)) with (len (putUvarint 1)). lia.
Qed.

Lemma set_enc_pos i : 1 <= len (set_enc i).
Proof.
  rewrite len_set_enc. pose proof (putUvarint_pos (len i.1)). pose proof (len_nonneg i.1).
  pose proof (len_nonneg (tag_enc (se_tag i.2))) as Ht. rewrite len_tag_enc in Ht.
  pose proof (putUvarint_pos 1). unfold UvarintSize in *. lia.
Qed.

Lemma setItems_iff limits order items :
  setItems codec limits order = Ok items ↔
  ∃ l, item_entry <$> l = order ∧ l.*2 = items ∧ Forall (item_ok limits) l.
Proof.
  revert items. induction order as [|[v entry] order IH]; intros items; cbn [setItems].
  - split; [intros [= <-]; by exists []|]. intros ([|] & ? & <- & _); by simplify_eq.
  - split.
    + destruct (bound_marshal codec v) as [b|] eqn:Eb; [|done]. destruct (_ || _) eqn:G; [done|]. breflect.
      intros (items' & (l & <- & <- & Hl)%IH & [= <-])%bind_Ok.
      exists ((v, (b, entry)) :: l). split; [done|]. split; [done|]. constructor; [|done]. done.
    + intros ([|[v' [b entry']] l] & Heq & <- & Hl); [done|]. injection Heq as -> -> <-.
      apply Forall_cons in Hl as [(Hb & Hlen & Hr) Hl]. cbn [fst snd] in *. rewrite Hb. guard_false.
      apply bind_Ok. exists l.*2. split; [|done]. apply IH. by exists l.
Qed.

Lemma duplicateItems_false items :
  StronglySorted (cmp_le bytes_compare) items.*1 →
  duplicateItems items = false ↔ increasing bytes_compare items.*1.
Proof.
  induction items as [|l [|r items] IH]; intros Hs; [by split; constructor|by split; [repeat constructor|]|].
  rewrite !fmap_cons in *. apply StronglySorted_inv in Hs as [Hs Hl]. specialize (IH Hs).
  cbn [duplicateItems]. rewrite orb_false_iff, bool_decide_eq_false. fold (duplicateItems (r :: items)). rewrite IH. split.
  - intros [Hne Hi]. constructor; [done|]. apply Forall_cons in Hl as [Hle _]. unfold cmp_le in Hle.
    assert (bytes_compare l.1 r.1 < 0) as Hlt.
    { assert (bytes_compare l.1 r.1 ≠ 0); [|lia]. by intros ?%(cmp_eq bytes_compare). }
    constructor; [done|]. apply StronglySorted_inv in Hi as [_ Hi]. eapply Forall_impl; [exact Hi|].
    intros c. by apply (cmp_trans bytes_compare).
  - intros [Hi [Hlt _]%Forall_cons]%StronglySorted_inv. split; [|done]. intros Heq.
    rewrite Heq, (cmp_refl bytes_compare) in Hlt. lia.
Qed.

Lemma setPayloadSize_iff items limits n r :
  setPayloadSize items limits n = Ok r ↔
  r = n + len (concat (set_enc <$> items)) ∧ (items = [] ∨ r <= MaxPayload limits).
Proof.
  revert n. induction items as [|[b e] items IH]; intros n; rewrite ?fmap_cons; cbn [setPayloadSize concat].
  - simpl. rewrite len_nil, Z.add_0_r. split; [intros [= ->]; auto|by intros [-> _]].
  - rewrite len_app, len_set_enc. cbn [fst snd]. pose proof (len_nonneg (concat (set_enc <$> items))). split.
    + guards. rewrite IH. intros [-> Hn]. split; [lia|]. right.
      destruct Hn as [->|]; [simpl; rewrite len_nil|]; lia.
    + intros [-> [|Hn]]; [done|]. guard_false. apply IH. split; [lia|]. right. lia.
Qed.

Lemma appendSetItem_fold dst items :
  foldl appendSetItem dst items = dst ++ concat (set_enc <$> items).
Proof.
  revert dst. induction items as [|i items IH]; intros dst; simpl; [by rewrite app_nil_r|].
  rewrite IH. unfold appendSetItem, set_enc. rewrite AppendTag_enc. unfold AppendUvarint, bytes_enc.
  by rewrite <-!app_assoc.
Qed.

(** What the encoder accepts and produces. *)
Lemma marshalSetWithCodec_iff typeID es data :
  typeID = TypeIDLWWSetState ∨ typeID = TypeIDLWWSetDelta →
  marshalSetWithCodec typeID codec es DefaultLimits = Ok data ↔
  validateSetEntries es = Ok tt ∧ Z.of_nat (size es) <= MaxElements DefaultLimits ∧
  Z.of_nat (size es) <= MaxTags DefaultLimits ∧
  ∃ l, item_entry <$> l ≡ₚ map_to_list es ∧ increasing bytes_compare (item_key <$> l) ∧
    Forall (item_ok DefaultLimits) l ∧
    MarshalFrame (mkFrame typeID (bound_id codec) (set_payload l) 0 false) = Ok data.
Proof.
  intros Ht. unfold marshalSetWithCodec.
  assert (negb (typeID =? TypeIDLWWSetState) && negb (typeID =? TypeIDLWWSetDelta) = false) as ->
    by (by destruct Ht as [-> | ->]).
  destruct (validateSetEntries es) as [[]|]; [|naive_solver]. cbn [mbind result_bind].
  assert (∀ l : list item, l.*2.*1 = item_key <$> l) as Hkey by (intros l; by rewrite <-list_fmap_compose).
  assert (∀ l : list item, UvarintSize (len l.*2) + len (concat (set_enc <$> l.*2)) = len (set_payload l)) as Hlen.
  { intros l. unfold set_payload. by rewrite len_app, len_fmap. }
  assert (∀ (l : list item) n, n = len (set_payload l) →
    MarshalFrameWithPayload typeID (bound_id codec) n (exactWriter (foldl appendSetItem
      (AppendUvarint [] (len l.*2)) l.*2) n) =
    MarshalFrame (mkFrame typeID (bound_id codec) (set_payload l) 0 false)) as Hw.
  { intros l n ->. rewrite appendSetItem_fold, len_fmap. apply exactWriter_copy. }
  split.
  - destruct (_ || _) eqn:G; [done|]. breflect. intros (items & (l0 & Hl0 & <- & Hok)%setItems_iff & Hm)%bind_Ok.
    destruct (fmap_perm_inv _ _ _ (sort_by_any_perm (λ l r : bytes * setEntry, bytes_compare l.1 r.1) l0.*2))
      as (l & Hsort & Hp).
    pose proof (sort_by_key_sorted bytes_compare fst l0.*2) as Hs. rewrite Hsort in *.
    destruct (duplicateItems _) eqn:Hd; [done|]. apply duplicateItems_false in Hd; [|done].
    apply bind_Ok in Hm as (n & [-> _]%setPayloadSize_iff & Hm). rewrite Hw in Hm by apply Hlen.
    split_and!; [done..|]. exists l. rewrite <-Hl0, <-Hkey. split_and!; [by rewrite Hp|done|by rewrite <-Hp|done].
  - intros (_ & ? & ? & l & Hp & Hi & Hok & Hm). guard_false.
    symmetry in Hp. apply fmap_perm_inv in Hp as (l0 & Hl0 & Hp0).
    apply bind_Ok. exists l0.*2. split; [apply setItems_iff; exists l0; split_and!; [done|done|by rewrite <-Hp0]|].
    rewrite (increasing_sort_by_key bytes_compare fst l.*2 l0.*2) by (by rewrite ?Hkey, ?Hp0).
    rewrite (proj2 (duplicateItems_false l.*2 ltac:(rewrite Hkey; by apply increasing_weaken))) by (by rewrite Hkey).
    apply bind_Ok. exists (len (set_payload l)). split; [|by rewrite Hw]. apply setPayloadSize_iff.
    rewrite Hlen. split; [done|]. right. by apply MarshalFrame_payload in Hm.
Qed.
End lwwset_encode.

Section lwwset_decode.
Context {T : Type} `{Countable T} (codec : boundElementCodec T).
Context (payload : bytes) (limits : DecoderLimits) (Hint : limits_int limits).

(** An item the decoder accepts. *)
Definition item_read (e : T * (bytes * setEntry)) : Prop :=
  item_ok codec limits e ∧ bound_unmarshal codec e.2.1 = Ok e.1 ∧ set_entry_wf e.1 e.2.2.

Abbreviation next_item := (next_sorted item_key bytes_compare item_read).

Definition set_acc (l : list (T * (bytes * setEntry))) : gmap T setEntry * bytes :=
  (list_to_map (item_entry <$> l), default [] (last (item_key <$> l))).

(** Distinct encodings come from distinct elements. *)
Lemma items_NoDup l :
  increasing bytes_compare (item_key <$> l) → Forall item_read l → NoDup (item_entry <$> l).*1.
Proof.
  intros Hi%(increasing_NoDup bytes_compare) Hl. rewrite <-list_fmap_compose.
  induction Hl as [|e l [[He _] _] Hl IH]; [constructor|]. rewrite !fmap_cons in *.
  apply NoDup_cons in Hi as [Hb Hi]. constructor; [|by apply IH].
  intros (e' & Heq & Hin)%list_elem_of_fmap. apply Hb, list_elem_of_fmap. exists e'. split; [|done].
  rewrite Forall_forall in Hl. destruct (Hl _ Hin) as [[He' _] _]. cbn in Heq. unfold item_key. congruence.
Qed.

Lemma set_acc_snoc l e :
  accepted next_item l → next_item l e →
  (list_to_map (item_entry <$> l) : gmap T setEntry) !! e.1 = None ∧
  set_acc (l ++ [e]) = (<[e.1 := e.2.2]> (list_to_map (item_entry <$> l)), e.2.1).
Proof.
  intros Hl He. assert (accepted next_item (l ++ [e])) as [Hi Hok]%accepted_sorted by (by constructor); [|apply _].
  pose proof (items_NoDup _ Hi Hok) as Hnd. rewrite !fmap_app in Hnd. apply NoDup_app in Hnd as (_ & Hd & _).
  assert (e.1 ∉ (item_entry <$> l).*1) as Hfresh by (intros Hin; apply (Hd _ Hin); by left).
  split; [by apply not_elem_of_list_to_map_1|]. unfold set_acc. rewrite !fmap_app, !fmap_cons, !fmap_nil, last_snoc.
  by rewrite (list_to_map_snoc (item_entry <$> l) (item_entry e)).
Qed.

Lemma setStep_ok l e pos rest :
  accepted next_item l → next_item l e → remaining payload pos (set_enc e.2 ++ rest) →
  setStep codec payload (MaxStringBytes limits) (len l) (set_acc l) pos =
    Ok (set_acc (l ++ [e]), pos + len (set_enc e.2)).
Proof.
  intros Hl He Hr. destruct (set_acc_snoc l e Hl He) as [Hfresh ->].
  destruct He as [((Hm & Hmax & Hrep) & Hu & Hv & Htw) Hlast]. unfold setStep, set_acc, set_enc in *.
  rewrite <-!app_assoc in Hr.
  apply (ReadBytes_ok _ _ (MaxStringBytes limits)) in Hr as [-> Hr]; [|by apply (limits_string_ok _ limits)|done].
  rewrite <-(len_fmap item_key l), (proj2 (order_guard bytes_compare [] (item_key <$> l) e.2.1)) by done.
  rewrite Hu, Hm, bool_decide_true, bool_decide_false by (done || rewrite Hfresh; by intros [? ?]). cbn [negb].
  apply (ReadTag_ok _ _ (MaxStringBytes limits)) in Hr as [-> Hr]; [|done..|by apply (limits_string_ok _ limits)|done].
  apply ReadUvarint_ok in Hr as [-> _]; [|by destruct (se_present e.2.2)].
  rewrite !len_app, len_tag_enc. destruct e as [v [b [t p]]]. cbn [fst snd se_tag se_present].
  destruct p; cbn; do 2 f_equal; unfold UvarintSize; lia.
Qed.

Lemma setStep_inv l pos acc' pos' :
  accepted next_item l → 0 <= pos <= len payload →
  setStep codec payload (MaxStringBytes limits) (len l) (set_acc l) pos = Ok (acc', pos') →
  ∃ e rest, next_item l e ∧ acc' = set_acc (l ++ [e]) ∧ pos' = pos + len (set_enc e.2) ∧
    remaining payload pos (set_enc e.2 ++ rest).
Proof.
  intros Hl Hp. unfold setStep, set_acc at 1.
  destruct (ReadBytes _ _ _) as [[b next]|] eqn:R; [|done].
  apply ReadBytes_inv in R as (_ & Hmax & -> & r1 & Hr1 & _).
  rewrite <-(len_fmap item_key l). destruct (_ && _) eqn:G; [done|].
  rewrite (order_guard bytes_compare [] (item_key <$> l) b) in G.
  destruct (bound_unmarshal codec b) as [v|] eqn:Hu; [|done].
  destruct (bound_marshal codec v) as [b'|] eqn:Hm; [|done].
  destruct (negb _) eqn:G2; [done|]. breflect. subst b'. case_bool_decide; [done|].
  destruct (ReadTag _ _ _) as [[t next]|] eqn:R; [|done].
  apply ReadTag_inv in R as (Htw & Htv & _ & Htm & -> & r2 & Hr2 & _).
  destruct (ReadUvarint _ _) as [[p next]|] eqn:R; [|done].
  apply ReadUvarint_inv in R as (Hp64 & -> & r3 & Hr3 & _). unfold is_u64 in Hp64. guard_step. breflect.
  intros [= <- <-].
  assert (p = if p =? 1 then 1 else 0) as Hp1 by (destruct (Z.eqb_spec p 1); lia).
  assert (next_item l (v, (b, mkSetEntry t (p =? 1)))) as Hn by done.
  destruct (set_acc_snoc l _ Hl Hn) as [_ Hacc]. exists (v, (b, mkSetEntry t (p =? 1))), r3.
  rewrite Hacc. unfold set_enc. cbn [fst snd se_tag se_present]. rewrite <-Hp1, !len_app, len_tag_enc, <-!app_assoc.
  split; [done|]. split; [done|]. split; [unfold UvarintSize; lia|].
  eapply remaining_cons; [exact Hr1|]. eapply remaining_cons; [exact Hr2|]. by rewrite len_tag_enc.
Qed.
End lwwset_decode.

Section lwwset_codec.
Context {T : Type} `{Countable T} `{F : Flate} (codec : boundElementCodec T).

(** The entries a payload stands for. *)
Definition payload_entries (limits : DecoderLimits) (payload : bytes) (es : gmap T setEntry) : Prop :=
  ∃ l, payload = set_payload l ∧ es = list_to_map (item_entry <$> l) ∧
    (len l <= MaxElements limits ∧ len l <= MaxTags limits) ∧
    increasing bytes_compare (item_key <$> l) ∧ Forall (item_read codec limits) l ∧ tags_distinct se_tag es.

Lemma items_valid limits l :
  increasing bytes_compare (item_key <$> l) → Forall (item_read codec limits) l →
  map_Forall set_entry_wf (list_to_map (item_entry <$> l) : gmap T setEntry) ∧
  map_to_list (list_to_map (item_entry <$> l) : gmap T setEntry) ≡ₚ item_entry <$> l.
Proof.
  intros Hi Hl. split; [|apply map_to_list_to_map; by eapply items_NoDup].
  intros v e (i & [= -> ->] & Hin)%elem_of_list_to_map_2%list_elem_of_fmap.
  rewrite Forall_forall in Hl. by apply (Hl i).
Qed.

Lemma unmarshalSetWithCodec_iff data typeID limits es :
  limits_int limits →
  unmarshalSetWithCodec data typeID codec limits = Ok es ↔
  ∃ f, UnmarshalFrame data limits = Ok f ∧ TypeID f = typeID ∧ CodecID f = bound_id codec ∧
    payload_entries limits (Payload f) es.
Proof.
  intros Hint. unfold unmarshalSetWithCodec.
  destruct (UnmarshalFrame data limits) as [f|] eqn:Hf; [|naive_solver]. cbn [mbind result_bind].
  pose proof (read_loop_iff (Payload f) (setStep codec (Payload f) (MaxStringBytes limits))
    (λ e, set_enc e.2) (next_sorted item_key bytes_compare (item_read codec limits)) set_acc (λ e, set_enc_pos e.2)
    (setStep_ok codec (Payload f) limits Hint) (setStep_inv codec (Payload f) limits)) as Hloop.
  setoid_rewrite (accepted_sorted item_key bytes_compare) in Hloop.
  assert (∀ l : list (T * (bytes * setEntry)), (λ e, set_enc e.2) <$> l = set_enc <$> l.*2) as Hcat
    by (intros l; by rewrite <-list_fmap_compose).
  split.
  - destruct (_ || _) eqn:G; [done|]. breflect.
    destruct (ReadUvarint _ 0) as [[count pos]|] eqn:R; [|done].
    apply ReadUvarint_inv in R as (Hu & -> & r & [_ Hr1] & Hr2). unfold is_u64 in Hu.
    destruct (_ || _) eqn:G2; [done|]. breflect.
    intros ([[m prev] p] & L & Hend)%bind_Ok.
    apply (Hloop count) in L as (l & rest & [Hi Hok] & <- & [= -> ->] & -> & Hr); [|lia|by destruct Hr2].
    revert Hend. guard_step. breflect. destruct (validateSetEntries _) as [[]|] eqn:V; [|done]. intros [= <-].
    apply validateSetEntries_Ok in V as [_ Hd]. exists f. split_and!; [done..|]. exists l. rewrite Hcat in *.
    split; [|done]. pose proof (remaining_len _ _ _ Hr) as Hlr. rewrite len_app in Hlr.
    destruct rest as [|b rest]; [|rewrite len_cons in Hlr; pose proof (len_nonneg rest); lia].
    rewrite app_nil_r in Hr. destruct Hr2 as [_ Hr2], Hr as [_ Hr].
    change (slice_from (Payload f) 0) with (Payload f) in Hr1. rewrite Hr1. unfold set_payload. by rewrite <-Hr2, Hr.
  - intros (f' & [= <-] & HT & HC & l & HP & -> & [Hmax Hmax'] & Hi & Hok & Hd). guard_false.
    assert (remaining (Payload f) 0 (putUvarint (len l) ++ concat (set_enc <$> l.*2) ++ [])) as Hr
      by (rewrite HP, app_nil_r; apply remaining_start).
    apply ReadUvarint_ok in Hr as [R Hr].
    2: { unfold is_u64, limits_int, maxInt in *. pose proof (len_nonneg l). lia. }
    rewrite R. guard_false. pose proof (remaining_app _ _ _ _ Hr) as Hend%remaining_nil.
    change (∅ : gmap T setEntry, []) with (set_acc (T:=T) []).
    rewrite (proj2 (Hloop (len l) _ (set_acc l) (0 + UvarintSize (len l) +
      len (concat (set_enc <$> l.*2))) (len_nonneg l) (proj1 Hr))) by (exists l, []; rewrite Hcat; done).
    cbn [mbind result_bind set_acc]. guard_false. rewrite (proj2 (validateSetEntries_Ok _)); [done|].
    split; [|done]. eapply map_Forall_impl; [exact (proj1 (items_valid limits l Hi Hok))|]. by intros ? ? [? _].
Qed.

(** What one encoder call and one decoder call agree on. *)
Lemma lwwset_canonical `{!CodecOk codec} es data typeID :
  typeID = TypeIDLWWSetState ∨ typeID = TypeIDLWWSetDelta →
  (map_Forall (λ _ e, tag_wf (se_tag e)) es ∧ marshalSetWithCodec typeID codec es DefaultLimits = Ok data) ↔
  ∃ payload, payload_entries DefaultLimits payload es ∧
    MarshalFrame (mkFrame typeID (bound_id codec) payload 0 false) = Ok data.
Proof.
  intros Ht. rewrite marshalSetWithCodec_iff, validateSetEntries_Ok by done.
  assert (∀ l : list (T * (bytes * setEntry)), item_entry <$> l ≡ₚ map_to_list es → len l = Z.of_nat (size es)) as Hlen.
  { intros l Hp. unfold len. by rewrite <-(length_fmap item_entry l), Hp, length_map_to_list. }
  split.
  - intros (Hw & [Hv Hd] & Hn & Hn' & l & Hp & Hi & Hok & Hm). exists (set_payload l). split; [|done].
    exists l. rewrite (Hlen l Hp). assert (es = list_to_map (item_entry <$> l)) as Hes.
    { rewrite <-(list_to_map_to_list es). apply list_to_map_proper; [|done].
      apply NoDup_fst_map_to_list. }
    split_and!; [done..| |done]. apply Forall_forall. intros e Hin. rewrite Forall_forall in Hok.
    pose proof (Hok e Hin) as He. assert (es !! e.1 = Some e.2.2) as Hlk.
    { apply elem_of_map_to_list. rewrite <-Hp. apply list_elem_of_fmap. by exists e. }
    split; [done|]. split; [by apply codec_roundtrip, He|]. split; [by apply (Hv e.1)|by apply (Hw e.1)].
  - intros (p & (l & -> & -> & [Hn Hn'] & Hi & Hok & Hd) & Hm).
    destruct (items_valid _ l Hi Hok) as [Hwf Hp]. rewrite (Hlen l) in * by done.
    split; [by eapply map_Forall_impl; [exact Hwf|]; intros ? ? [_ ?]|].
    split; [split; [by eapply map_Forall_impl; [exact Hwf|]; intros ? ? [? _]|done]|].
    split_and!; [done..|]. exists l. split_and!; [done..| |done].
    eapply Forall_impl; [exact Hok|]. by intros ? [? _].
Qed.
End lwwset_codec.

Section lwwset_theorems.
Context {T : Type} `{Countable T} `{F : Flate}.

(** The LWW-Set's canonical bytes. For an element codec that decodes what it
    encodes, a v1 delta frame decodes to entries exactly when those entries
    encode to that frame. *)
Theorem LWWSet_codec (codec : ptr (ElementCodec T)) (bound : boundElementCodec T) (d : SetDelta T) (data : bytes)
    (Hbind : bindElementCodec codec = Ok bound) (Hcodec : CodecOk bound) :
  (map_Forall (λ _ e, tag_wf (se_tag e)) (sd_entries d) ∧ SetDelta_MarshalBinary d codec = Ok data) ↔
  (UnmarshalSetDelta data codec = Ok d ∧ PeekFrameFormatVersion data DefaultLimits = Ok FormatVersion).
Proof.
  unfold SetDelta_MarshalBinary, marshalSet, UnmarshalSetDelta, UnmarshalSetDeltaWithLimits, unmarshalSet.
  rewrite Hbind. cbn [mbind result_bind]. rewrite lwwset_canonical by auto.
  rewrite <-(decoded_v1_iff data TypeIDLWWSetDelta (bound_id bound)) by done. apply and_iff_compat_r.
  rewrite <-unmarshalSetWithCodec_iff by done.
  destruct (unmarshalSetWithCodec _ _ _ _) as [es|]; destruct d; cbn; naive_solver.
Qed.

(** The saved bytes decode to the entries. *)
Lemma LWWSet_Snapshot_inv (s : LWWSet T) codec bound frontier saved :
  lwwset_wf s → bindElementCodec codec = Ok bound → CodecOk bound →
  LWWSet_Snapshot (Some s) codec frontier = Ok saved →
  sn_TypeID saved = TypeIDLWWSetState ∧ sn_clockState saved = Some (HLC_Snapshot (ls_clock s)) ∧
  sn_frontier saved = frontier ∧ map_Forall (λ _ t, Valid t = true) frontier ∧
  unmarshalSet (sn_state saved) TypeIDLWWSetState codec DefaultLimits = Ok (ls_entries s).
Proof.
  intros (h & Hh & _ & Hent & _) Hbind Hcodec. unfold LWWSet_Snapshot. intros ([data cs] & Hm & Hs)%bind_Ok.
  cbn [LWWSet_MarshalBinaryWithClockState] in Hm. rewrite Hh in Hm. unfold marshalSet in Hm. rewrite Hbind in Hm.
  apply bind_Ok in Hm as (enc & Henc & [= -> <-]). cbn [mbind result_bind] in Henc.
  destruct (proj1 (lwwset_canonical bound (ls_entries s) data TypeIDLWWSetState ltac:(auto))) as (p & Hp & Hfr).
  { split; [|done]. eapply map_Forall_impl; [exact Hent|]. by intros ? ? [[_ ?] _]. }
  destruct (proj2 (decoded_v1_iff data TypeIDLWWSetState (bound_id bound)
    (λ p, payload_entries bound DefaultLimits p (ls_entries s)) ltac:(done))) as [(f & Hf & HT & HC & HP) _]; [by exists p|].
  unfold NewWithClockState in Hs. rewrite Hf in Hs. destruct (_ || _) eqn:Hb; [done|].
  apply orb_false_iff in Hb as [[_ Hb%negb_false_iff]%orb_false_iff _]. injection Hs as <-.
  cbn [sn_TypeID sn_clockState sn_frontier sn_state newSnapshot]. split_and!; [done|by rewrite Hh|done|by apply validFrontier_tags|].
  unfold unmarshalSet. rewrite Hbind. cbn [mbind result_bind]. apply unmarshalSetWithCodec_iff; [done|]. by exists f.
Qed.

(** What restoring does, given what the saved bytes decode to. *)
Lemma NewSetFromSnapshot_eq saved codec (options : SetOptions) (h : HLC) (es : gmap T setEntry) now1 now2 :
  sn_TypeID saved = TypeIDLWWSetState → sn_clockState saved = Some (HLC_Snapshot (Some h)) → hlc_wf h →
  unmarshalSet (sn_state saved) TypeIDLWWSetState codec DefaultLimits = Ok es →
  SetOptions_valid options = true → Z.of_nat (size es) <= so_MaxEntries options → tags_distinct se_tag es →
  map_Forall (λ _ e, Valid (se_tag e) = true) es →
  NewSetFromSnapshotWithOptions saved codec options now1 now2 =
  (h1 ← witnessed h (greatestSetTag es) now1;
   h2 ← witnessed h1 (greatestSetFrontierTag (sn_frontier saved)) now2;
   Ok (mkLWWSet (replicaID h) (Some h2) options es
         (foldl (λ tags e, <[se_tag e.2 := e.1]> tags) ∅ (map_to_list es)))).
Proof.
  intros HT Hc Hh Hu Ho Hsz Hd Hv. unfold NewSetFromSnapshotWithOptions, NewSetFromClockWithOptions.
  rewrite HT, Z.eqb_refl, Ho, Hc, (restart_same h Hh).
  assert (Valid (mkTag (cs_ReplicaID (HLC_Snapshot (Some h))) 0 0) = true) as -> by apply Hh.
  cbn [negb mbind result_bind]. unfold LWWSet_UnmarshalBinary, LWWSet_UnmarshalBinaryWithLimits.
  cbn [ls_clock ls_options]. rewrite Hu. guard_false. unfold setTagIndex.
  rewrite (proj2 (validateSetEntries_Ok es)) by done.
  assert (∀ h0 u (s : LWWSet T), ls_clock s = Some h0 →
    match Witness (ls_clock s) u now2 with
    | (_, Err e) => Err e
    | (hlc, Ok _) => Ok (LWWSet_with s hlc (ls_entries s) (ls_tags s))
    end = match witnessed h0 (Some u) now2 with
          | Ok h2 => Ok (LWWSet_with s (Some h2) (ls_entries s) (ls_tags s))
          | Err e => Err e
          end) as Hsecond.
  { intros h0 u s ->. unfold witnessed. destruct (Witness (Some h0) u now2) as [[h2|] [[]|]] eqn:Hw; try done.
    by apply Witness_ok_some in Hw. }
  destruct (greatestSetTag es) as [t|].
  - cbn [witnessed]. destruct (Witness (Some h) t now1) as [[h1|] [[]|]] eqn:Hw; cbn [mbind result_bind];
      try done; [|by apply Witness_ok_some in Hw].
    destruct (greatestSetFrontierTag _) as [u|]; [|done]. rewrite (Hsecond h1) by done. by destruct (witnessed h1 _ _).
  - cbn [witnessed mbind result_bind]. destruct (greatestSetFrontierTag _) as [u|]; [|done].
    rewrite (Hsecond h) by done. by destruct (witnessed h _ _).
Qed.

(** An LWW set restarts where it was saved. The snapshot of a well-formed set
    restores to a well-formed set with the same entries, removal markers
    included, whose clock is the saved replica's and is not behind the saved
    clock, nor behind any tag of the frontier, so no later write reuses a tag.
    Restoring fails only under local options that are invalid or too small for
    the entries, or when the clock cannot step past a tag of the entries or of the
    frontier. *)
Theorem LWWSet_recovery (s : LWWSet T) (codec : ptr (ElementCodec T)) (bound : boundElementCodec T)
    (frontier : gmap bytes Tag) (saved : Snapshot) (options : SetOptions) (now1 now2 : option Z)
    (Hs : lwwset_wf s) (Hbind : bindElementCodec codec = Ok bound) (Hcodec : CodecOk bound)
    (Hf : map_Forall (λ _ t, tag_wf t) frontier) (Hn1 : now_wf now1) (Hn2 : now_wf now2)
    (Hsave : LWWSet_Snapshot (Some s) codec frontier = Ok saved) :
  match NewSetFromSnapshotWithOptions saved codec options now1 now2 with
  | Ok s' => ls_entries s' = ls_entries s ∧ lwwset_wf s' ∧ ls_options s' = options ∧
      clock_advances (ls_clock s) (ls_clock s') ∧
      ∀ a t, frontier !! a = Some t → ∃ h, ls_clock s' = Some h ∧ ts_lt t (hlc_tag h)
  | Err e =>
      (e = ErrLWWResourceLimit ∧
       (SetOptions_valid options = false ∨ so_MaxEntries options < Z.of_nat (size (ls_entries s)))) ∨
      (e = ErrClockExhausted ∧
       cannot_resume (ls_clock s) now1 now2 (λ t, ∃ k c, ls_entries s !! k = Some c ∧ se_tag c = t)
         (λ t, ∃ a, frontier !! a = Some t))
  end.
Proof.
  apply (LWWSet_Snapshot_inv s codec bound) in Hsave as (HT & Hc & Hfr & Hfv & Hu); [|done..].
  destruct Hs as (h & Hh & Hhw & Hent & Hidx). rewrite Hh in *. pose proof (index_distinct _ _ _ Hidx) as Hd.
  destruct (SetOptions_valid options) eqn:Ho.
  2: { unfold NewSetFromSnapshotWithOptions. rewrite HT, Z.eqb_refl, Ho. cbn [negb]. auto. }
  destruct (Z.lt_ge_cases (so_MaxEntries options) (Z.of_nat (size (ls_entries s)))) as [Hsz|Hsz].
  { unfold NewSetFromSnapshotWithOptions, NewSetFromClockWithOptions.
    rewrite HT, Z.eqb_refl, Ho, Hc, (restart_same h Hhw).
    assert (Valid (mkTag (cs_ReplicaID (HLC_Snapshot (Some h))) 0 0) = true) as -> by apply Hhw.
    cbn [negb mbind result_bind]. unfold LWWSet_UnmarshalBinary, LWWSet_UnmarshalBinaryWithLimits.
    cbn [ls_clock ls_options]. rewrite Hu. rewrite (proj2 (Z.ltb_lt _ _)) by done. auto. }
  rewrite (NewSetFromSnapshot_eq saved codec options h (ls_entries s)), Hfr; [|done..|].
  2: { eapply map_Forall_impl; [exact Hent|]. by intros ? ? [[? _] _]. }
  pose proof (greatest_entry_tag se_tag (ls_entries s)) as Hg.
  set (seen := λ t, ∃ k c, ls_entries s !! k = Some c ∧ se_tag c = t). set (pinned := λ t, ∃ a, frontier !! a = Some t).
  assert (∀ t, greatestSetTag (ls_entries s) = Some t → seen t) as Hgk
    by (intros t Ht; unfold greatestSetTag in Ht; rewrite Ht in Hg; apply Hg).
  assert (∀ t, seen t → Valid t = true ∧ tag_wf t) as Hseen by (intros t (k & c & Hkc & <-); split; by apply (Hent k c)).
  pose proof (resumed_spec h (greatestSetTag (ls_entries s)) (greatestFrontierTag frontier) now1 now2 seen pinned Hhw Hn1 Hn2
    (λ t Ht, proj2 (Hseen t (Hgk t Ht))) (frontier_tags _ _ Hf) (λ t Ht, conj (Hgk t Ht) (proj1 (Hseen t (Hgk t Ht))))
    (λ t Ht, conj (greatestFrontierTag_in _ t Ht) (frontier_tags _ _ Hfv t Ht))) as Hres.
  destruct (witnessed h _ now1) as [h1|e]; [|by right]. cbn [mbind result_bind] in *.
  change (greatestSetFrontierTag frontier) with (greatestFrontierTag frontier).
  destruct (witnessed h1 _ now2) as [h2|e]; [|by right]. cbn [mbind result_bind]. destruct Hres as (Hw2 & Hr2 & Hle & Hlt2).
  cbn [ls_entries ls_options ls_clock]. split_and!; [done| |done| |].
  - exists h2. split_and!; [done|done| |by apply tag_index_ok].
    eapply map_Forall_impl; [exact Hent|]. intros k e [? ?]. split; [done|]. unfold ts_le in *. lia.
  - by exists h, h2.
  - intros a t Ha. exists h2. split; [done|].
    destruct (greatestFrontierTag_spec frontier t) as (g & Hgf & Hcmp); [by exists a|].
    eapply ts_le_lt_trans; [by apply ts_le_Compare|by apply Hlt2].
Qed.
End lwwset_theorems.

(** ** Witness: a removal marker survives a restart *)

#[local] Existing Instance marker_flate.

Abbreviation raw := (Some (bound_value raw_codec)).

Definition lww_saved : Snapshot :=
  match LWWSet_Snapshot (Some (w_set "a" 5 false)) raw ∅ with Ok s => s | Err _ => mkSnapshot 0 0 [] [] ∅ None end.

Lemma LWWSet_recovery_witness :
  match NewSetFromSnapshotWithOptions lww_saved raw DefaultSetOptions (Some 9) (Some 9) with
  | Ok s' => ls_entries s' = ls_entries (w_set "a" 5 false)
  | Err _ => False
  end.
Proof.
  pose proof (LWWSet_recovery (w_set "a" 5 false) raw raw_codec ∅ lww_saved DefaultSetOptions (Some 9) (Some 9)
    (w_set_wf "a" 5 false eq_refl ltac:(done)) eq_refl raw_codec_ok (map_Forall_empty _) ltac:(done) ltac:(done)
    ltac:(vm_compute; reflexivity)) as Hr.
  assert (is_ok (NewSetFromSnapshotWithOptions (T:=bytes) lww_saved raw DefaultSetOptions (Some 9) (Some 9)) = true)
    as Hok by (vm_compute; reflexivity).
  destruct (NewSetFromSnapshotWithOptions lww_saved _ _ _ _); [exact (proj1 Hr)|discriminate].
Defined.
