(* ===== verification/ORTree.v ===== *)
(** * The observed-remove tree

    Models src/tree/ortree.go: nodes under their tags, each naming its parent,
    with a set of removed tags. A node is visible when it and all its ancestors
    are known and not removed. Nothing moves: a node keeps its parent for life. *)

From S2P Require Import Prelude Tags Forest Clock.

(** [storedNode], [Node], [Delta] *)
Record storedNode := mkStored { tn_parent : Tag; tn_value : bytes }.
Record Node := mkTreeNode { Node_ID : Tag; Node_Parent : Tag; Node_Value : bytes }.
Record ORTreeDelta := mkTreeDelta { td_nodes : gmap Tag storedNode; td_tombstones : gset Tag }.

#[export] Instance storedNode_eq_dec : EqDecision storedNode.
Proof. solve_decision. Defined.

(** [Options], [DefaultOptions], [Options.valid] *)
Record TreeOptions := mkTreeOptions { to_MaxNodes : Z; to_MaxTombstones : Z; to_MaxValueBytes : Z }.
Definition DefaultTreeOptions : TreeOptions := mkTreeOptions (2 ^ 20) (2 ^ 20) (2 ^ 20).
Definition TreeOptions_valid (o : TreeOptions) : bool :=
  (0 <? to_MaxNodes o) && (0 <? to_MaxTombstones o) && (0 <? to_MaxValueBytes o).

(** [ORTree] *)
Record ORTree := mkORTree {
  ot_replicaID : bytes; ot_clock : ptr HLC; ot_options : TreeOptions;
  ot_nodes : gmap Tag storedNode; ot_tombstones : gset Tag; ot_version : Z;
  ot_visibleCount : Z; ot_visibleCountVersion : Z;
  ot_visibleIDs : list Tag; ot_visibleIDsVersion : Z }.

(** The receiver with another clock and other contents; a write advances [version]. *)
Definition tree_with (t : ORTree) (c : ptr HLC) (nodes : gmap Tag storedNode) (tombstones : gset Tag) (changed : bool)
    : ORTree :=
  mkORTree (ot_replicaID t) c (ot_options t) nodes tombstones
    (if changed then u64 (ot_version t + 1) else ot_version t)
    (ot_visibleCount t) (ot_visibleCountVersion t) (ot_visibleIDs t) (ot_visibleIDsVersion t).

(** [NewFromClockWithOptions], [NewFromClock], [NewWithOptions], [New] *)
Definition NewTreeFromClockWithOptions (state : ClockState) (options : TreeOptions) : result ORTree :=
  if negb (Valid (mkTag (cs_ReplicaID state) 0 0)) then Err (ErrTree TreeReplicaID)
  else if negb (TreeOptions_valid options) then Err (ErrTree TreeLimit)
  else match NewHLCFromState state with
       | Err e => Err e
       | Ok hlc => Ok (mkORTree (cs_ReplicaID state) (Some hlc) options ∅ ∅ 0 0 0 [] 0)
       end.
Definition NewTreeFromClock (state : ClockState) : result ORTree := NewTreeFromClockWithOptions state DefaultTreeOptions.
Definition NewTreeWithOptions (replicaID : bytes) (options : TreeOptions) : result ORTree :=
  NewTreeFromClockWithOptions (mkClockState replicaID 0 0) options.
Definition NewTree (replicaID : bytes) : result ORTree := NewTreeWithOptions replicaID DefaultTreeOptions.

(** [ORTree.ClockState] *)
Definition ORTree_ClockState (t : ptr ORTree) : ClockState :=
  match t with
  | None => zeroClockState
  | Some t => match ot_clock t with None => zeroClockState | Some _ => HLC_Snapshot (ot_clock t) end
  end.

(** ** Checks *)

(** [validate] *)
Definition validateTree (delta : ORTreeDelta) : result unit :=
  if existsb (λ e : Tag * storedNode,
       negb (Valid e.1) || bool_decide (e.1 = tn_parent e.2) ||
       (negb (bool_decide (tn_parent e.2 = zeroTag)) && negb (Valid (tn_parent e.2)))) (map_to_list (td_nodes delta))
  then Err (ErrTree TreeDelta)
  else if existsb (λ id, negb (Valid id)) (elements (td_tombstones delta)) then Err (ErrTree TreeDelta)
  else Ok tt.

(** [sameTreeNode] *)
Definition sameTreeNode (l r : storedNode) : bool :=
  bool_decide (tn_parent l = tn_parent r) && bool_decide (tn_value l = tn_value r).

(** The loop of [ApplyDelta] that looks for a conflicting node. *)
Definition tree_conflict (nodes incoming : gmap Tag storedNode) : bool :=
  existsb (λ e : Tag * storedNode,
    match nodes !! e.1 with Some current => negb (sameTreeNode current e.2) | None => false end) (map_to_list incoming).

(** [treeDeltaSubsumed] *)
Definition treeDeltaSubsumed (nodes : gmap Tag storedNode) (tombstones : gset Tag) (delta : ORTreeDelta) : bool :=
  forallb (λ e : Tag * storedNode,
    match nodes !! e.1 with Some current => sameTreeNode current e.2 | None => false end) (map_to_list (td_nodes delta)) &&
  forallb (λ id, bool_decide (id ∈ tombstones)) (elements (td_tombstones delta)).

(** [newTreeNodes], [newTreeTombstones] *)
Definition newTreeNodes (incoming existing : gmap Tag storedNode) : Z :=
  len (filter (λ e : Tag * storedNode, existing !! e.1 = None) (map_to_list incoming)).
Definition newTreeTombstones (incoming existing : gset Tag) : Z := len (filter (.∉ existing) (elements incoming)).

(** [acyclic]; the walk is that of Forest.v. *)
Definition acyclic (incoming existing : gmap Tag storedNode) : bool :=
  acyclic_loop tn_parent (S (size incoming + size existing)) incoming existing ∅ (map_to_list incoming).*1.

(** [rootedMonotonicDeltaAcyclic] *)
Definition rootedMonotonicDeltaAcyclic (incoming : gmap Tag storedNode) : bool :=
  forallb (λ e : Tag * storedNode,
    negb (Valid (tn_parent e.2)) ||
    (negb (0 <=? Compare (tn_parent e.2) e.1) && bool_decide (is_Some (incoming !! tn_parent e.2)))) (map_to_list incoming).

(** [liveReachable]: every round but the last visits another node. *)
Fixpoint live_loop (fuel : nat) (nodes : gmap Tag storedNode) (tombstones seen : gset Tag) (id : Tag) : bool :=
  if negb (Valid id) then true
  else match fuel with
  | O => false
  | S fuel' =>
      if bool_decide (id ∈ seen) then false
      else if bool_decide (id ∈ tombstones) then false
      else match nodes !! id with
      | None => false
      | Some node => live_loop fuel' nodes tombstones ({[id]} ∪ seen) (tn_parent node)
      end
  end.
Definition liveReachable (id : Tag) (nodes : gmap Tag storedNode) (tombstones : gset Tag) : bool :=
  live_loop (S (size nodes)) nodes tombstones ∅ id.

(** [greatest] *)
Definition tree_greatest_step (greatest : option Tag) (e : Tag * storedNode) : option Tag :=
  let g := match greatest with None => e.1 | Some g => if Compare g e.1 <? 0 then e.1 else g end in
  Some (if Valid (tn_parent e.2) && (Compare g (tn_parent e.2) <? 0) then tn_parent e.2 else g).
Definition tree_greatest (delta : ORTreeDelta) : option Tag :=
  foldl greatest_step (foldl tree_greatest_step None (map_to_list (td_nodes delta))) (elements (td_tombstones delta)).

(** ** The visible projection *)

(** The loop that collects the children of every node. *)
Definition add_tree_child (children : gmap Tag (list Tag)) (e : Tag * storedNode) : gmap Tag (list Tag) :=
  <[tn_parent e.2 := default [] (children !! tn_parent e.2) ++ [e.1]]> children.
Definition tree_children (nodes : gmap Tag storedNode) : gmap Tag (list Tag) :=
  foldl add_tree_child ∅ (map_to_list nodes).

(** The loop of [visibleNodeIDs] and of [countVisible]; the stack is kept with its
    top first, so pushing the children in reverse puts the first one on top. *)
Fixpoint visible_loop (fuel : nat) (children : gmap Tag (list Tag)) (tombstones : gset Tag) (stack result : list Tag)
    : list Tag :=
  match fuel, stack with
  | S fuel', id :: stack' =>
      if bool_decide (id ∈ tombstones) then visible_loop fuel' children tombstones stack' result
      else visible_loop fuel' children tombstones (default [] (children !! id) ++ stack') (result ++ [id])
  | _, _ => result
  end.

(** [visibleNodeIDs] *)
Definition visibleNodeIDs (nodes : gmap Tag storedNode) (tombstones : gset Tag) : list Tag :=
  let children := sort_by Descending <$> tree_children nodes in
  visible_loop (size nodes) children tombstones (default [] (children !! zeroTag)) [].

(** The loop of [countVisible], which pushes the children as they come. *)
Fixpoint count_loop (fuel : nat) (children : gmap Tag (list Tag)) (tombstones : gset Tag) (stack : list Tag) (count : Z) : Z :=
  match fuel, stack with
  | S fuel', id :: stack' =>
      if bool_decide (id ∈ tombstones) then count_loop fuel' children tombstones stack' count
      else count_loop fuel' children tombstones (rev (default [] (children !! id)) ++ stack') (count + 1)
  | _, _ => count
  end.
Definition countVisible (nodes : gmap Tag storedNode) (tombstones : gset Tag) : Z :=
  let children := tree_children nodes in
  count_loop (size nodes) children tombstones (rev (default [] (children !! zeroTag))) 0.

(** [nodesForVisibleIDs] *)
Definition nodesForVisibleIDs (ids : list Tag) (nodes : gmap Tag storedNode) : list Node :=
  (λ id, match nodes !! id with
         | Some node => mkTreeNode id (tn_parent node) (tn_value node)
         | None => mkTreeNode id zeroTag []
         end) <$> ids.

(** ** Operations *)

(** [ORTree.Add] *)
Definition ORTree_Add (t : ptr ORTree) (parent : Tag) (value : bytes) (now : option Z)
    : ptr ORTree * result (Tag * ORTreeDelta) :=
  match t with
  | None => (None, Err (ErrTree NilTree))
  | Some ot =>
      match ot_clock ot with
      | None => (t, Err (ErrTree NilTree))
      | Some _ =>
          if to_MaxValueBytes (ot_options ot) <? len value then (t, Err (ErrTree TreeLimit))
          else if to_MaxNodes (ot_options ot) <=? Z.of_nat (size (ot_nodes ot)) then (t, Err (ErrTree TreeLimit))
          else if Valid parent && negb (liveReachable parent (ot_nodes ot) (ot_tombstones ot))
          then (t, Err (ErrTree UnknownParent))
          else match Now (ot_clock ot) now with
          | (hlc, Err e) => (Some (tree_with ot hlc (ot_nodes ot) (ot_tombstones ot) false), Err e)
          | (hlc, Ok id) =>
              let node := mkStored parent value in
              (Some (tree_with ot hlc (<[id := node]> (ot_nodes ot)) (ot_tombstones ot) true),
               Ok (id, mkTreeDelta {[id := node]} ∅))
          end
      end
  end.

(** The loops of [ApplyDelta] that install the delta, with the flag [changed]. *)
Definition install_node (acc : gmap Tag storedNode * bool) (e : Tag * storedNode) : gmap Tag storedNode * bool :=
  match acc.1 !! e.1 with Some _ => acc | None => (<[e.1 := e.2]> acc.1, true) end.
Definition install_tombstone (acc : gset Tag * bool) (id : Tag) : gset Tag * bool :=
  if bool_decide (id ∈ acc.1) then acc else ({[id]} ∪ acc.1, true).

(** [ORTree.ApplyDelta] *)
Definition ORTree_ApplyDelta (t : ptr ORTree) (delta : ORTreeDelta) (now : option Z) : ptr ORTree * result unit :=
  match t with
  | None => (None, Err (ErrTree NilTree))
  | Some ot =>
      match ot_clock ot with
      | None => (t, Err (ErrTree NilTree))
      | Some _ =>
      match validateTree delta with
      | Err e => (t, Err e)
      | Ok _ =>
          if existsb (λ e : Tag * storedNode, to_MaxValueBytes (ot_options ot) <? len (tn_value e.2))
               (map_to_list (td_nodes delta))
          then (t, Err (ErrTree TreeLimit))
          else if tree_conflict (ot_nodes ot) (td_nodes delta) then (t, Err (ErrTree NodeConflict))
          else if treeDeltaSubsumed (ot_nodes ot) (ot_tombstones ot) delta then (t, Ok tt)
          else if (to_MaxNodes (ot_options ot) <? Z.of_nat (size (ot_nodes ot)) + newTreeNodes (td_nodes delta) (ot_nodes ot)) ||
                  (to_MaxTombstones (ot_options ot) <?
                     Z.of_nat (size (ot_tombstones ot)) + newTreeTombstones (td_tombstones delta) (ot_tombstones ot))
          then (t, Err (ErrTree TreeLimit))
          else if negb (rootedMonotonicDeltaAcyclic (td_nodes delta)) && negb (acyclic (td_nodes delta) (ot_nodes ot))
          then (t, Err (ErrTree TreeDelta))
          else
            let '(hlc, r) := match tree_greatest delta with
              | None => (ot_clock ot, Ok tt)
              | Some tag => Witness (ot_clock ot) tag now
              end in
            match r with
            | Err e => (Some (tree_with ot hlc (ot_nodes ot) (ot_tombstones ot) false), Err e)
            | Ok _ =>
                let '(nodes, changed) := foldl install_node (ot_nodes ot, false) (map_to_list (td_nodes delta)) in
                let '(tombstones, changed) :=
                  foldl install_tombstone (ot_tombstones ot, changed) (elements (td_tombstones delta)) in
                (Some (tree_with ot hlc nodes tombstones changed), Ok tt)
            end
      end
      end
  end.

(** [ORTree.Remove]: the check is one critical section and the application another.
    The delta is handed back with the error of a failed application too. *)
Definition ORTree_Remove (t : ptr ORTree) (id : Tag) (now : option Z) : ptr ORTree * (ORTreeDelta * result unit) :=
  let none := mkTreeDelta ∅ ∅ in
  match t with
  | None => (None, (none, Err (ErrTree NilTree)))
  | Some ot =>
      if negb (Valid id) then (t, (none, Err (ErrTree UnknownNode)))
      else if bool_decide (ot_nodes ot !! id = None) || bool_decide (id ∈ ot_tombstones ot)
      then (t, (none, Err (ErrTree UnknownNode)))
      else
        let delta := mkTreeDelta ∅ {[id]} in
        let '(t, r) := ORTree_ApplyDelta t delta now in (t, (delta, r))
  end.

(** [ORTree.Merge] *)
Definition ORTree_Merge (t : ptr ORTree) (other : peer ORTree) (now : option Z) : ptr ORTree * result unit :=
  match t, other with
  | None, _ | _, PNil => (t, Err (ErrTree NilTree))
  | Some _, PSelf => (t, Ok tt)
  | Some _, PObj o => ORTree_ApplyDelta t (mkTreeDelta (ot_nodes o) (ot_tombstones o)) now
  end.

(** [Delta.Merge] *)
Definition ORTreeDelta_Merge (d other : ORTreeDelta) : result ORTreeDelta :=
  _ ← validateTree d;
  _ ← validateTree other;
  if tree_conflict (td_nodes d) (td_nodes other) then Err (ErrTree NodeConflict)
  else Ok (mkTreeDelta (td_nodes other ∪ td_nodes d) (td_tombstones d ∪ td_tombstones other)).

(** [ORTree.Nodes], which refreshes its cache. *)
Definition ORTree_Nodes (t : ptr ORTree) : ptr ORTree * list Node :=
  match t with
  | None => (None, [])
  | Some ot =>
      if ot_visibleIDsVersion ot =? ot_version ot then (t, nodesForVisibleIDs (ot_visibleIDs ot) (ot_nodes ot))
      else
        let ids := visibleNodeIDs (ot_nodes ot) (ot_tombstones ot) in
        (Some (mkORTree (ot_replicaID ot) (ot_clock ot) (ot_options ot) (ot_nodes ot) (ot_tombstones ot) (ot_version ot)
           (ot_visibleCount ot) (ot_visibleCountVersion ot) ids (ot_version ot)),
         nodesForVisibleIDs ids (ot_nodes ot))
  end.

(** [ORTree.State], which refreshes its cache. *)
Definition ORTree_State (t : ptr ORTree) : ptr ORTree * StateSnapshot :=
  match t with
  | None => (None, mkSnapshot (str "ortree") [] 0 0)
  | Some ot =>
      let tombs := Z.of_nat (size (ot_tombstones ot)) in
      if ot_visibleCountVersion ot =? ot_version ot
      then (t, mkSnapshot (str "ortree") (ot_replicaID ot) (ot_visibleCount ot) tombs)
      else
        let count := countVisible (ot_nodes ot) (ot_tombstones ot) in
        (Some (mkORTree (ot_replicaID ot) (ot_clock ot) (ot_options ot) (ot_nodes ot) (ot_tombstones ot) (ot_version ot)
           count (ot_version ot) (ot_visibleIDs ot) (ot_visibleIDsVersion ot)),
         mkSnapshot (str "ortree") (ot_replicaID ot) count tombs)
  end.

(** [sortedTreeTombstoneIDs], [ORTree.TombstoneTags] *)
Definition sortedTreeTombstoneIDs (tombstones : gset Tag) : list Tag := sort_by Compare (elements tombstones).
Definition ORTree_TombstoneTags (t : ptr ORTree) : list Tag :=
  match t with None => [] | Some t => sortedTreeTombstoneIDs (ot_tombstones t) end.

(** ** Compaction *)

(** The loop of [CompactTombstones] over the requested tags. *)
Fixpoint tree_compact_select (t : ORTree) (children seen : gset Tag) (compact tags : list Tag) : result (list Tag) :=
  match tags with
  | [] => Ok compact
  | tag :: tags' =>
      if bool_decide (tag ∈ seen) then tree_compact_select t children seen compact tags'
      else if negb (bool_decide (tag ∈ ot_tombstones t)) then tree_compact_select t children ({[tag]} ∪ seen) compact tags'
      else if bool_decide (ot_nodes t !! tag = None) then Err (ErrTree TreeCompaction)
      else if bool_decide (tag ∈ children) then Err (ErrTree TreeCompaction)
      else tree_compact_select t children ({[tag]} ∪ seen) (compact ++ [tag]) tags'
  end.

(** The removals both compactions end with. *)
Definition tree_compact_remove (t : ORTree) (compact : list Tag) : ORTree :=
  tree_with t (ot_clock t) (foldl (λ nodes tag, delete tag nodes) (ot_nodes t) compact)
    (foldl (λ tombstones tag, tombstones ∖ {[tag]}) (ot_tombstones t) compact) (0 <? len compact).

(** [ORTree.CompactTombstones] *)
Definition ORTree_CompactTombstones (t : ptr ORTree) (tags : list Tag) : ptr ORTree * result Z :=
  match t with
  | None => (None, Err (ErrTree NilTree))
  | Some ot =>
      if negb (forallb Valid tags) then (t, Err (ErrTree TreeCompaction))
      else
        let children := list_to_set (filter (λ p, Valid p = true)
          ((λ e : Tag * storedNode, tn_parent e.2) <$> map_to_list (ot_nodes ot))) in
        match tree_compact_select ot children ∅ [] tags with
        | Err e => (t, Err e)
        | Ok compact => (Some (tree_compact_remove ot compact), Ok (len compact))
        end
  end.

(** The number of nodes under a candidate: [remainingChildren]. *)
Definition tree_child_count (nodes : gmap Tag storedNode) (tag : Tag) : Z :=
  len (filter (λ e : Tag * storedNode, tn_parent e.2 = tag) (map_to_list nodes)).

(** [ORTree.CompactEligibleTombstones]; the queue is that of Forest.v. *)
Definition ORTree_CompactEligibleTombstones (t : ptr ORTree) (tags : list Tag) : ptr ORTree * result Z :=
  match t with
  | None => (None, Err (ErrTree NilTree))
  | Some ot =>
      if negb (forallb Valid tags) then (t, Err (ErrTree TreeCompaction))
      else
        let candidates := sort_by Compare (remove_dups
          (filter (λ tag, tag ∈ ot_tombstones ot ∧ is_Some (ot_nodes ot !! tag)) tags)) in
        if len candidates =? 0 then (t, Ok 0)
        else
          let count := tree_child_count (ot_nodes ot) in
          let compact := eligible_loop tn_parent (length candidates) (ot_nodes ot)
            (list_to_map ((λ tag, (tag, count tag)) <$> candidates)) (filter (λ tag, count tag = 0) candidates) [] in
          (Some (tree_compact_remove ot compact), Ok (len compact))
  end.
