(* ===== verification/ORTreeTheory.v ===== *)
(** * What an observed-remove tree shows, and how trees converge

    The reference reading of a tree is an inductive predicate: [visible] nodes are
    those whose whole way to the root is known and not removed, and [preorder]
    lists them parents first, later siblings first. The loops of ORTree.v compute
    it; replicas that received the same writes show the same. *)

From S2P Require Import Prelude Tags Forest Clock Lattice ORTree.

Abbreviation kids := (Forest.kids tn_parent).
Abbreviation ends := (Forest.ends tn_parent).

(** ** The reference reading *)

Inductive visible (nodes : gmap Tag storedNode) (dead : gset Tag) : Tag → Prop :=
| visible_root id n : nodes !! id = Some n → id ∉ dead → tn_parent n = zeroTag → visible nodes dead id
| visible_child id n :
    nodes !! id = Some n → id ∉ dead → visible nodes dead (tn_parent n) → visible nodes dead id.

(** ** The loop *)

Section loop.
Context (nodes : gmap Tag storedNode) (children : gmap Tag (list Tag)) (dead : gset Tag).
Abbreviation ch := (λ p, default [] (children !! p)).
Hypothesis ch_spec : ∀ p q, q ∈ ch p ↔ ∃ n, nodes !! q = Some n ∧ tn_parent n = p.
Hypothesis ch_nodup : ∀ p, NoDup (ch p).
Hypothesis no_root : nodes !! zeroTag = None.

(** Every node is popped at most once, so the loop empties its stack. *)
Lemma visible_loop_spec fuel D stack result :
  stack_ok tn_parent nodes D stack → (size nodes <= length D + fuel)%nat →
  ∃ l, visible_loop fuel children dead stack result = result ++ l ∧ preorder ch dead stack l ∧
    NoDup l ∧ (∀ x, x ∈ l → x ∉ D).
Proof using ch_spec ch_nodup no_root.
  revert D stack result. induction fuel as [|fuel IH]; intros D stack result Hs Hf; pose proof (stack_bound _ _ _ _ Hs) as Hb.
  - destruct stack; [|simpl in Hb; lia]. exists []. cbn [visible_loop]. rewrite app_nil_r.
    split; [done|]. split; [constructor|]. split; [constructor|]. by intros x ?%elem_of_nil.
  - destruct stack as [|id stack]; cbn [visible_loop].
    { exists []. rewrite app_nil_r. split; [done|]. split; [constructor|]. split; [constructor|]. by intros x ?%elem_of_nil. }
    assert (id ∉ D) as HidD.
    { destruct Hs as [Hnd _]. apply NoDup_app in Hnd as (_ & Hd & _). intros Hi. apply (Hd id Hi). by left. }
    case_bool_decide as Hd.
    + destruct (IH (D ++ [id]) stack result) as (l & -> & Hl & Hnd & Hx); [by apply stack_skip|rewrite length_app; simpl; lia|].
      exists l. split; [done|]. split; [by constructor|]. split; [done|]. intros x Hxl HxD.
      apply (Hx x Hxl), elem_of_app. by left.
    + destruct (IH (D ++ [id]) (ch id ++ stack) (result ++ [id])) as (l & -> & Hl & Hnd & Hx);
        [by apply (stack_push tn_parent nodes ch ch_spec ch_nodup no_root)|rewrite length_app; simpl; lia|].
      exists (id :: l). rewrite <-app_assoc. split; [done|].
      pose proof (preorder_app_inv _ _ _ _ _ Hl) as (l1 & l2 & -> & H1 & H2). split; [by constructor|]. split.
      * constructor; [|done]. intros Hi. apply (Hx id Hi), elem_of_app. right. by left.
      * intros x [->|Hxl]%elem_of_cons; [done|]. intros HxD. apply (Hx x Hxl), elem_of_app. by left.
Qed.

Lemma preorder_visible cs l :
  preorder ch dead cs l → (∀ c, c ∈ cs → ∃ n, nodes !! c = Some n ∧ (tn_parent n = zeroTag ∨ visible nodes dead (tn_parent n))) →
  ∀ x, x ∈ l → visible nodes dead x.
Proof using ch_spec.
  induction 1 as [|c cs l Hc _ IH|c cs lc l Hc _ IHc _ IHl]; intros Hcs x; [by intros ?%elem_of_nil|..].
  - apply IH. intros y Hy. apply Hcs. by right.
  - assert (visible nodes dead c) as Hv.
    { destruct (Hcs c) as (n & Hn & [Hz|Hp]); [by left|by eapply visible_root|by eapply visible_child]. }
    rewrite elem_of_cons, elem_of_app. intros [->|[Hx|Hx]]; [done| |].
    + revert x Hx. apply IHc. intros y (n & Hn & Hp)%ch_spec. exists n. split; [done|]. right. by rewrite Hp.
    + revert x Hx. apply IHl. intros y Hy. apply Hcs. by right.
Qed.

(** From the root, the loop lists every visible node once. *)
Lemma visible_from_root :
  ∃ l, visible_loop (size nodes) children dead (ch zeroTag) [] = l ∧ preorder ch dead (ch zeroTag) l ∧ NoDup l ∧
    ∀ x, x ∈ l ↔ visible nodes dead x.
Proof using ch_spec ch_nodup no_root.
  destruct (visible_loop_spec (size nodes) [] (ch zeroTag) []) as (l & -> & Hl & Hnd & _); [|simpl; lia|].
  - split; [apply ch_nodup|]. intros x (n & Hn & Hp)%ch_spec. eauto.
  - exists l. split; [done|]. split; [done|]. split; [done|]. intros x. split.
    + apply (preorder_visible (ch zeroTag)); [done|]. intros c (n & Hn & Hp)%ch_spec. eauto.
    + induction 1 as [x n Hn Hd Hp|x n Hn Hd _ IH].
      * apply (preorder_top _ _ _ _ _ Hl); [|done]. apply ch_spec. eauto.
      * apply (preorder_below _ _ _ _ (tn_parent n) x Hl); [done| |done]. apply ch_spec. eauto.
Qed.
End loop.

(** ** The two projections *)

Lemma tree_children_fold l (children : gmap Tag (list Tag)) p :
  default [] (foldl add_tree_child children l !! p) =
  default [] (children !! p) ++ (filter (λ e : Tag * storedNode, tn_parent e.2 = p) l).*1.
Proof.
  revert children. induction l as [|[id n] l IH]; intros children; [by rewrite app_nil_r|]. cbn [foldl].
  rewrite IH, filter_cons. unfold add_tree_child. cbn [fst snd]. case_decide as Hp.
  - subst p. rewrite lookup_insert_eq. simpl. by rewrite <-app_assoc.
  - by rewrite lookup_insert_ne.
Qed.

Lemma tree_children_spec nodes p :
  default [] (tree_children nodes !! p) = (filter (λ e : Tag * storedNode, tn_parent e.2 = p) (map_to_list nodes)).*1.
Proof. unfold tree_children. by rewrite tree_children_fold, lookup_empty. Qed.

Lemma default_fmap_list (f : list Tag → list Tag) (m : gmap Tag (list Tag)) p :
  f [] = [] → default [] ((f <$> m) !! p) = f (default [] (m !! p)).
Proof. intros Hf. rewrite lookup_fmap. by destruct (m !! p). Qed.

Lemma sorted_children_kids nodes p : default [] ((sort_by Descending <$> tree_children nodes) !! p) = kids nodes p.
Proof. rewrite default_fmap_list, tree_children_spec by done. done. Qed.

(** The visible nodes, once each, in canonical preorder. *)
Lemma visibleNodeIDs_spec nodes dead :
  nodes !! zeroTag = None →
  preorder (kids nodes) dead (kids nodes zeroTag) (visibleNodeIDs nodes dead) ∧ NoDup (visibleNodeIDs nodes dead) ∧
  ∀ x, x ∈ visibleNodeIDs nodes dead ↔ visible nodes dead x.
Proof.
  intros Hz. set (children := sort_by Descending <$> tree_children nodes).
  assert (∀ p, default [] (children !! p) = kids nodes p) as Hch by apply sorted_children_kids.
  destruct (visible_from_root nodes children dead) as (l & Hl & Hpre & Hnd & Hin); [..|done|].
  - intros p q. rewrite Hch. apply elem_of_kids.
  - intros p. rewrite Hch. eapply increasing_NoDup, kids_increasing. apply _.
  - unfold visibleNodeIDs. fold children. rewrite Hl. split; [|done]. rewrite <-Hch. by apply (preorder_ext _ _ _ _ _ Hch).
Qed.

Lemma count_loop_visible fuel children dead stack count result :
  count_loop fuel children dead stack count =
  count + len (visible_loop fuel (@rev Tag <$> children) dead stack result) - len result.
Proof.
  revert stack count result. induction fuel as [|fuel IH]; intros stack count result; [simpl; lia|].
  destruct stack as [|id stack]; [simpl; lia|]. cbn [count_loop visible_loop]. case_bool_decide; [apply IH|].
  rewrite default_fmap_list by done. rewrite (IH _ _ (result ++ [id])), len_app. change (len [id]) with 1. lia.
Qed.

(** The count agrees with the list, although it visits the siblings in any order. *)
Lemma countVisible_spec nodes dead :
  nodes !! zeroTag = None → countVisible nodes dead = len (visibleNodeIDs nodes dead).
Proof.
  intros Hz. destruct (visibleNodeIDs_spec nodes dead Hz) as (_ & Hnd & Hin). unfold countVisible.
  rewrite (count_loop_visible _ _ _ _ _ []). change (len []) with 0.
  assert (∀ p, default [] ((@rev Tag <$> tree_children nodes) !! p) = rev (default [] (tree_children nodes !! p))) as Hch
    by (intros p; by apply default_fmap_list).
  destruct (visible_from_root nodes (@rev Tag <$> tree_children nodes) dead) as (l & Hl & _ & Hnd' & Hin'); [..|done|].
  - intros p q. rewrite Hch, tree_children_spec, <-(Permutation_rev _), list_elem_of_fmap. split.
    + intros ([x n] & -> & [Hp Hn%elem_of_map_to_list]%list_elem_of_filter). eauto.
    + intros (n & Hn & Hp). exists (q, n). split; [done|]. apply list_elem_of_filter. by rewrite elem_of_map_to_list.
  - intros p. rewrite Hch, tree_children_spec. rewrite <-(Permutation_rev _). apply NoDup_fmap_fst.
    + intros q n1 n2 [_ H1%elem_of_map_to_list]%list_elem_of_filter [_ H2%elem_of_map_to_list]%list_elem_of_filter. congruence.
    + apply NoDup_filter, NoDup_map_to_list.
  - rewrite Hch in Hl. rewrite Hl. assert (l ≡ₚ visibleNodeIDs nodes dead) as Hp
      by (apply NoDup_Permutation; [done|done|]; intros x; by rewrite Hin, Hin').
    unfold len. rewrite Hp. lia.
Qed.

(** ** Ways up that end *)

(** A batch whose parents come earlier in the same batch has no cycle. *)
Lemma monotonic_ends (incoming existing : gmap Tag storedNode) :
  (incoming ∪ existing) !! zeroTag = None →
  map_Forall (λ _ n, tn_parent n = zeroTag ∨ Valid (tn_parent n) = true) incoming →
  rootedMonotonicDeltaAcyclic incoming = true → ∀ id, is_Some (incoming !! id) → ends (incoming ∪ existing) id.
Proof.
  intros Hz Hp Hm. unfold rootedMonotonicDeltaAcyclic in Hm. rewrite forallb_forall in Hm.
  set (below := λ id, filter (λ x, Compare x id < 0) (dom incoming)).
  assert (∀ k id, (size (below id) < k)%nat → is_Some (incoming !! id) → ends (incoming ∪ existing) id) as H;
    [|intros id; by apply (H (S (size (below id)))); lia].
  induction k as [|k IH]; intros id Hk [n Hn]; [lia|].
  eapply ends_node; [by apply lookup_union_Some_l|].
  specialize (Hm (id, n)). rewrite <-list_elem_of_In, elem_of_map_to_list in Hm. specialize (Hm Hn). simpl in Hm.
  destruct (Hp id n Hn) as [->|Hv]; [by constructor|]. rewrite Hv in Hm. simpl in Hm.
  apply andb_true_iff in Hm as [Hlt%negb_true_iff%Z.leb_gt Hin%bool_decide_eq_true]. apply IH; [|done].
  eapply Nat.lt_le_trans; [|apply Nat.lt_succ_r, Hk]. apply subset_size. split.
  - intros x. unfold below. rewrite !elem_of_filter. intros [Hx ?]. split; [|done]. by eapply (cmp_trans Compare).
  - intros Hsub. specialize (Hsub (tn_parent n)). unfold below in Hsub. rewrite !elem_of_filter in Hsub.
    destruct Hsub as [Hc _]; [split; [done|by apply elem_of_dom]|]. rewrite (cmp_refl Compare) in Hc. lia.
Qed.

(** Installing nodes from which the way up ends keeps every way up ending. *)
Lemma ends_install (incoming existing : gmap Tag storedNode) :
  (∀ id, ends existing id) → (∀ id n m, incoming !! id = Some n → existing !! id = Some m → n = m) →
  (∀ id, is_Some (incoming !! id) → ends (incoming ∪ existing) id) → ∀ id, ends (existing ∪ incoming) id.
Proof.
  intros He Hag Hi. assert (existing ∪ incoming = incoming ∪ existing) as ->.
  { apply map_eq. intros id. rewrite !lookup_union. specialize (Hag id).
    destruct (existing !! id), (incoming !! id); try done. simpl. by rewrite (Hag s0 s). }
  intros id. induction (He id) as [p Hp|p n Hp _ IH].
  - destruct (incoming !! p) as [n|] eqn:Hn; [apply Hi; eauto|]. constructor. by apply lookup_union_None.
  - destruct (incoming !! p) as [m|] eqn:Hn; [apply Hi; eauto|]. eapply ends_node; [|exact IH].
    by rewrite lookup_union_r.
Qed.

(** Removing nodes does not make a way longer. *)
Lemma ends_filter (nodes : gmap Tag storedNode) P `{!∀ e, Decision (P e)} id : ends nodes id → ends (filter P nodes) id.
Proof.
  induction 1 as [p Hp|p n Hp _ IH]; [constructor; apply map_lookup_filter_None; by left|].
  destruct (decide (P (p, n))); [|constructor; apply map_lookup_filter_None; right; naive_solver].
  eapply ends_node; [|exact IH]. by apply map_lookup_filter_Some.
Qed.

(** A new node under a known parent ends. *)
Lemma ends_insert (nodes : gmap Tag storedNode) k n :
  (∀ id, ends nodes id) → (∀ id m, nodes !! id = Some m → tn_parent m ≠ k) → tn_parent n ≠ k →
  ∀ id, ends (<[k := n]> nodes) id.
Proof.
  intros He Hfree Hn. assert (∀ id, id ≠ k → ends (<[k := n]> nodes) id) as Hother.
  { intros id. induction (He id) as [p Hp|p m Hp _ IH]; intros Hk.
    - constructor. by rewrite lookup_insert_ne.
    - eapply ends_node; [by rewrite lookup_insert_ne|]. apply IH. by apply (Hfree p). }
  intros id. destruct (decide (id = k)) as [->|]; [|by apply Hother].
  eapply ends_node; [apply lookup_insert_eq|]. by apply Hother.
Qed.

(** ** Liveness *)

Lemma live_loop_spec nodes dead :
  map_Forall (λ _ n, tn_parent n = zeroTag ∨ Valid (tn_parent n) = true) nodes →
  ∀ fuel seen id, ends nodes id → (∀ x, x ∈ seen → is_Some (nodes !! x) ∧ tc (up tn_parent nodes) x id) →
  (size nodes < fuel + size seen)%nat → Valid id = true →
  live_loop fuel nodes dead seen id = true ↔ visible nodes dead id.
Proof.
  intros Hp. induction fuel as [|fuel IH]; intros seen id He Hseen Hf Hv.
  { assert (size seen <= size nodes)%nat; [|lia]. rewrite <-size_dom. apply subseteq_size.
    intros x [? _]%Hseen. by apply elem_of_dom. }
  cbn [live_loop]. rewrite Hv. cbn [negb]. rewrite bool_decide_eq_false_2
    by (intros [_ Hc]%Hseen; by apply (ends_no_cycle _ _ He)).
  case_bool_decide as Hd; [split; [done|]; by inversion 1|].
  destruct (nodes !! id) as [n|] eqn:Hn; [|split; [done|]; inversion 1; congruence].
  assert (visible nodes dead id ↔ tn_parent n = zeroTag ∨ visible nodes dead (tn_parent n)) as ->.
  { split; [inversion 1; assert (n = n0) as -> by congruence; auto|].
    intros [?|?]; [by eapply visible_root|by eapply visible_child]. }
  destruct (Hp id n Hn) as [Hz|Hv']; [rewrite Hz; split; [by left|]; by destruct fuel|].
  rewrite IH; [..|done].
  - split; [by right|]. intros [Hz|?]; [|done]. by rewrite Hz in Hv'.
  - inversion He; [congruence|]. assert (n = n0) as -> by congruence. done.
  - intros x [->%elem_of_singleton|[? Hx]%Hseen]%elem_of_union; [split; [eauto|]; apply tc_once; by exists n|].
    split; [done|]. eapply tc_r; [exact Hx|]. by exists n.
  - rewrite size_union, size_singleton; [lia|]. apply disjoint_singleton_l. intros [_ Hc]%Hseen.
    by apply (ends_no_cycle _ _ He).
Qed.

(** ** The invariant *)

Definition parent_ok (p : Tag) : Prop := p = zeroTag ∨ Valid p = true.
Definition node_ok (id : Tag) (n : storedNode) : Prop := Valid id = true ∧ id ≠ tn_parent n ∧ parent_ok (tn_parent n).

(** The tags of a node and of its parent. *)
Definition node_tags (P : Tag → Prop) (id : Tag) (n : storedNode) : Prop := P id ∧ (Valid (tn_parent n) = true → P (tn_parent n)).

(** Tags are made of machine words. *)
Definition delta_wf (d : ORTreeDelta) : Prop :=
  map_Forall (node_tags tag_wf) (td_nodes d) ∧ ∀ id, id ∈ td_tombstones d → tag_wf id.

(** The content is well formed, no tag is above the clock, and every way up ends. *)
Record tree_inv (h : HLC) (nodes : gmap Tag storedNode) (tombstones : gset Tag) : Prop := {
  inv_clock : hlc_wf h;
  inv_nodes : map_Forall node_ok nodes;
  inv_words : map_Forall (node_tags tag_wf) nodes;
  inv_bound : map_Forall (node_tags (λ t, ts_le t (hlc_tag h))) nodes;
  inv_dead id : id ∈ tombstones → Valid id = true ∧ tag_wf id ∧ ts_le id (hlc_tag h);
  inv_ends id : ends nodes id
}.
Definition tree_wf (t : ORTree) : Prop := ∃ h, ot_clock t = Some h ∧ tree_inv h (ot_nodes t) (ot_tombstones t).

Lemma nodes_no_root (nodes : gmap Tag storedNode) : map_Forall node_ok nodes → nodes !! zeroTag = None.
Proof. intros Hn. apply eq_None_not_Some. intros [n [Hv _]%Hn]. by vm_compute in Hv. Qed.

(** ** The checks *)

Lemma validateTree_Ok d :
  validateTree d = Ok tt ↔ map_Forall node_ok (td_nodes d) ∧ ∀ id, id ∈ td_tombstones d → Valid id = true.
Proof.
  unfold validateTree. set (bad := λ e : Tag * storedNode, _).
  assert (existsb bad (map_to_list (td_nodes d)) = false ↔ map_Forall node_ok (td_nodes d)) as Hbad.
  { rewrite <-not_true_iff_false, existsb_exists, map_Forall_to_list, Forall_forall.
    assert (∀ e, bad e = false ↔ node_ok e.1 e.2) as Hb.
    { intros [id n]. unfold bad, node_ok, parent_ok. cbn [fst snd]. rewrite !orb_false_iff, andb_false_iff, !negb_false_iff.
      rewrite bool_decide_eq_false, bool_decide_eq_true. tauto. }
    split.
    - intros Hno [id n] Hin. apply (Hb (id, n)), not_true_iff_false. intros Ht. apply Hno. exists (id, n). by rewrite <-list_elem_of_In.
    - intros Hall (e & Hin%list_elem_of_In & Ht). specialize (Hall e Hin). destruct e as [id n].
      apply (Hb (id, n)) in Hall. congruence. }
  assert (existsb (λ id, negb (Valid id)) (elements (td_tombstones d)) = false ↔
    ∀ id, id ∈ td_tombstones d → Valid id = true) as Hdead.
  { rewrite <-not_true_iff_false, existsb_exists. setoid_rewrite <-elem_of_elements. split.
    - intros Hno id Hin. apply not_false_iff_true. intros Hf. apply Hno. exists id. rewrite Hf. by rewrite <-list_elem_of_In.
    - intros Hall (id & Hin%list_elem_of_In & Hf). by rewrite Hall in Hf. }
  rewrite <-Hbad, <-Hdead. do 2 destruct (existsb _ _); naive_solver.
Qed.

Lemma sameTreeNode_true l r : sameTreeNode l r = true ↔ l = r.
Proof.
  unfold sameTreeNode. rewrite andb_true_iff, !bool_decide_eq_true. destruct l, r. simpl. naive_solver.
Qed.

(** The nodes both sides have agree. *)
Definition tree_agree (m1 m2 : gmap Tag storedNode) : Prop := ∀ id n1 n2, m1 !! id = Some n1 → m2 !! id = Some n2 → n1 = n2.

Lemma tree_conflict_false nodes incoming : tree_conflict nodes incoming = false ↔ tree_agree incoming nodes.
Proof.
  unfold tree_conflict. rewrite <-not_true_iff_false, existsb_exists. split.
  - intros Hno id n1 n2 H1 H2. symmetry. apply sameTreeNode_true, not_false_iff_true. intros Hf. apply Hno.
    exists (id, n1). rewrite <-list_elem_of_In, elem_of_map_to_list. simpl. by rewrite H2, Hf.
  - intros Hag ([id n] & Hin%list_elem_of_In & Hf). apply elem_of_map_to_list in Hin. simpl in Hf.
    destruct (nodes !! id) as [m|] eqn:Hm; [|done]. rewrite (Hag id n m Hin Hm) in Hf.
    by rewrite (proj2 (sameTreeNode_true m m) eq_refl) in Hf.
Qed.

Lemma treeDeltaSubsumed_true nodes dead d :
  treeDeltaSubsumed nodes dead d = true ↔ td_nodes d ⊆ nodes ∧ td_tombstones d ⊆ dead.
Proof.
  unfold treeDeltaSubsumed. rewrite andb_true_iff, !forallb_forall, map_subseteq_spec. apply Morphisms_Prop.and_iff_morphism.
  - split.
    + intros H id n Hn. specialize (H (id, n)). rewrite <-list_elem_of_In, elem_of_map_to_list in H. specialize (H Hn).
      simpl in H. destruct (nodes !! id) as [m|]; [|done]. by apply sameTreeNode_true in H as ->.
    + intros H [id n] Hin%list_elem_of_In. apply elem_of_map_to_list in Hin. simpl. rewrite (H id n Hin).
      by apply sameTreeNode_true.
  - setoid_rewrite bool_decide_eq_true. setoid_rewrite <-list_elem_of_In. setoid_rewrite elem_of_elements. done.
Qed.

(** ** Installing a delta *)

Lemma install_nodes l nodes b :
  foldl install_node (nodes, b) l =
  (nodes ∪ list_to_map l, b || negb (forallb (λ e : Tag * storedNode, bool_decide (is_Some (nodes !! e.1))) l)).
Proof.
  revert nodes b. induction l as [|[id n] l IH]; intros nodes b; [cbn; by rewrite map_union_empty, orb_false_r|].
  cbn [foldl]. unfold install_node at 2. cbn [fst snd]. destruct (nodes !! id) as [m|] eqn:Hm.
  - rewrite IH. cbn [forallb fst]. rewrite Hm, bool_decide_eq_true_2 by eauto. f_equal. cbn [list_to_map foldr curry].
    apply map_eq. intros x. rewrite !lookup_union. destruct (decide (x = id)) as [->|]; [|by rewrite lookup_insert_ne].
    rewrite Hm, lookup_insert_eq. by destruct (list_to_map l !! id).
  - rewrite IH. cbn [forallb fst]. rewrite Hm, bool_decide_eq_false_2 by (by intros [? ?]). rewrite orb_true_r. f_equal.
    cbn [list_to_map foldr curry]. apply map_eq. intros x. rewrite !lookup_union.
    destruct (decide (x = id)) as [->|]; [|by rewrite !lookup_insert_ne]. rewrite Hm, !lookup_insert_eq.
    by destruct (list_to_map l !! id).
Qed.

Lemma install_tombstones l dead b :
  foldl install_tombstone (dead, b) l =
  (dead ∪ list_to_set l, b || negb (forallb (λ id, bool_decide (id ∈ dead)) l)).
Proof.
  revert dead b. induction l as [|id l IH]; intros dead b; [cbn; f_equal; [set_solver|by rewrite orb_false_r]|].
  cbn [foldl]. unfold install_tombstone at 2. cbn [fst snd]. case_bool_decide as Hd; rewrite IH; cbn [forallb list_to_set].
  - rewrite bool_decide_eq_true_2 by done. f_equal. set_solver.
  - rewrite bool_decide_eq_false_2 by done. rewrite orb_true_r. f_equal. set_solver.
Qed.

(** A delta that is not subsumed and does not conflict changes the tree. *)
Lemma install_changed nodes dead d :
  tree_agree (td_nodes d) nodes → treeDeltaSubsumed nodes dead d = false →
  foldl install_tombstone (dead, (foldl install_node (nodes, false) (map_to_list (td_nodes d))).2)
    (elements (td_tombstones d)) = (dead ∪ td_tombstones d, true).
Proof.
  intros Hag Hsub. rewrite install_nodes, install_tombstones, list_to_set_elements_L. cbn [snd]. f_equal.
  rewrite orb_false_l, <-negb_andb. apply negb_true_iff, not_true_iff_false. intros Hall.
  apply andb_true_iff in Hall as [H1 H2]. rewrite forallb_forall in H1, H2.
  apply (eq_true_false_abs (treeDeltaSubsumed nodes dead d)); [|done]. apply treeDeltaSubsumed_true. split.
  - apply map_subseteq_spec. intros id n Hn. specialize (H1 (id, n)). rewrite <-list_elem_of_In, elem_of_map_to_list in H1.
    specialize (H1 Hn). apply bool_decide_eq_true in H1 as [m Hm]. simpl in Hm. by rewrite (Hag id n m).
  - intros id Hid. apply (bool_decide_eq_true (id ∈ dead)), H2. by rewrite <-list_elem_of_In, elem_of_elements.
Qed.

(** ** The greatest tag of a delta *)

Definition tags_of (e : Tag * storedNode) : list Tag := e.1 :: (if Valid (tn_parent e.2) then [tn_parent e.2] else []).

Lemma tree_greatest_list d :
  tree_greatest d = foldl greatest_step None ((map_to_list (td_nodes d) ≫= tags_of) ++ elements (td_tombstones d)).
Proof.
  unfold tree_greatest. rewrite foldl_app. f_equal. generalize (@None Tag).
  induction (map_to_list (td_nodes d)) as [|[id n] l IH]; intros g; [done|]. cbn [foldl mbind list_bind].
  rewrite foldl_app, <-IH. f_equal. unfold tree_greatest_step, tags_of. cbn [fst snd foldl].
  destruct g as [g|]; unfold greatest_step; destruct (Valid (tn_parent n)); cbn [foldl andb]; repeat case_match; done.
Qed.

Definition delta_tag (d : ORTreeDelta) (t : Tag) : Prop :=
  (∃ id n, td_nodes d !! id = Some n ∧ t ∈ tags_of (id, n)) ∨ t ∈ td_tombstones d.

Lemma elem_of_tree_delta_tags d t :
  t ∈ (map_to_list (td_nodes d) ≫= tags_of) ++ elements (td_tombstones d) ↔ delta_tag d t.
Proof.
  unfold delta_tag. rewrite elem_of_app, elem_of_elements, list_elem_of_bind. split.
  - intros [([id n] & Ht & Hn%elem_of_map_to_list)|?]; eauto 6.
  - intros [(id & n & Hn & Ht)|?]; [|by right]. left. exists (id, n). by rewrite elem_of_map_to_list.
Qed.

Lemma node_tags_of P id n : node_tags P id n ↔ ∀ t, t ∈ tags_of (id, n) → P t.
Proof.
  unfold node_tags, tags_of. cbn [fst snd]. setoid_rewrite elem_of_cons. destruct (Valid (tn_parent n)).
  - setoid_rewrite list_elem_of_singleton. naive_solver.
  - setoid_rewrite elem_of_nil. naive_solver.
Qed.

Lemma tree_greatest_spec d g :
  tree_greatest d = Some g → delta_tag d g ∧ ∀ t, delta_tag d t → Compare t g <= 0.
Proof.
  rewrite tree_greatest_list. intros Hg. setoid_rewrite <-elem_of_tree_delta_tags. revert Hg.
  generalize ((map_to_list (td_nodes d) ≫= tags_of) ++ elements (td_tombstones d)). intros l Hg.
  pose proof (greatest_fold None l) as H. rewrite Hg in H. naive_solver.
Qed.

(** ** Receiving a delta *)

Section apply.
Context (h : HLC) (t : ORTree) (d : ORTreeDelta).
Hypothesis t_clock : ot_clock t = Some h.
Hypothesis t_inv : tree_inv h (ot_nodes t) (ot_tombstones t).
Hypothesis d_wf : delta_wf d.
Abbreviation nodes' := (ot_nodes t ∪ td_nodes d).
Abbreviation dead' := (ot_tombstones t ∪ td_tombstones d).

Definition delta_valid : Prop := map_Forall node_ok (td_nodes d) ∧ ∀ id, id ∈ td_tombstones d → Valid id = true.

(** What the two cycle checks decide together: no way up runs in a circle. *)
Lemma acyclic_checks :
  delta_valid → tree_agree (td_nodes d) (ot_nodes t) →
  rootedMonotonicDeltaAcyclic (td_nodes d) || acyclic (td_nodes d) (ot_nodes t) = true ↔ ∀ id, ends nodes' id.
Proof using t_inv.
  intros [Hv _] Hag. destruct t_inv as [_ Hn _ _ _ He].
  assert (nodes' = td_nodes d ∪ ot_nodes t) as Hcomm.
  { apply map_eq. intros id. rewrite !lookup_union. specialize (Hag id).
    destruct (ot_nodes t !! id) as [n|], (td_nodes d !! id) as [m|]; try done. simpl. by rewrite (Hag m n). }
  assert (acyclic (td_nodes d) (ot_nodes t) = true ↔ ∀ id, is_Some (td_nodes d !! id) → ends (td_nodes d ∪ ot_nodes t) id) as Hac.
  { apply acyclic_check_spec; [|lia]. intros id n [Hd|[_ Hd]]%lookup_union_Some_raw; [by apply Hv in Hd as [? _]|by apply Hn in Hd as [? _]]. }
  rewrite orb_true_iff, Hac. split.
  - intros Hc. apply ends_install; [done|done|]. destruct Hc as [Hm|Hc]; [|done]. apply monotonic_ends; [| |done].
    + apply lookup_union_None. split; by apply nodes_no_root.
    + by intros id n (_ & _ & Hp)%Hv.
  - intros Hall. right. intros id _. rewrite <-Hcomm. apply Hall.
Qed.

Lemma new_nodes_size : Z.of_nat (size (ot_nodes t)) + newTreeNodes (td_nodes d) (ot_nodes t) = Z.of_nat (size nodes').
Proof using.
  unfold newTreeNodes, len. rewrite <-(length_fmap fst).
  assert (size nodes' = size (ot_nodes t) + size (dom (td_nodes d) ∖ dom (ot_nodes t)))%nat as ->
    by (by rewrite <-!size_dom, dom_union_L, size_union_alt).
  rewrite Nat2Z.inj_add. do 2 f_equal.
  set (l := (filter (λ e : Tag * storedNode, ot_nodes t !! e.1 = None) (map_to_list (td_nodes d))).*1).
  assert (dom (td_nodes d) ∖ dom (ot_nodes t) = list_to_set l) as ->.
  { apply set_eq. intros id. unfold l. rewrite elem_of_difference, elem_of_list_to_set, elem_of_dom, not_elem_of_dom, list_elem_of_fmap.
    split.
    - intros [[n Hn] Hno]. exists (id, n). split; [done|]. apply list_elem_of_filter. by rewrite elem_of_map_to_list.
    - intros ([x n] & -> & [Hno Hn%elem_of_map_to_list]%list_elem_of_filter). by split; [exists n|]. }
  symmetry. apply size_list_to_set. unfold l. apply NoDup_fmap_fst; [|apply NoDup_filter, NoDup_map_to_list].
  intros x n m [_ Hx%elem_of_map_to_list]%list_elem_of_filter [_ Hy%elem_of_map_to_list]%list_elem_of_filter. congruence.
Qed.

Lemma new_tombstones_size :
  Z.of_nat (size (ot_tombstones t)) + newTreeTombstones (td_tombstones d) (ot_tombstones t) = Z.of_nat (size dead').
Proof using.
  clear t_clock t_inv d_wf h. unfold newTreeTombstones, len. rewrite size_union_alt, Nat2Z.inj_add. do 2 f_equal.
  rewrite <-(size_list_to_set (C := gset Tag)) by apply NoDup_filter, NoDup_elements. f_equal. apply set_eq. intros id.
  rewrite elem_of_list_to_set, list_elem_of_filter, elem_of_elements. set_solver.
Qed.

Lemma delta_tag_valid g : delta_valid → delta_tag d g → Valid g = true ∧ tag_wf g.
Proof using d_wf.
  intros [Hv Hvt] Hg. destruct d_wf as [Hw Hwt]. destruct Hg as [(id & n & Hn & Hg)|Hg]; [|auto]. split.
  - revert g Hg. apply node_tags_of. destruct (Hv id n Hn) as (? & _). by split.
  - revert g Hg. by apply node_tags_of, Hw.
Qed.

(** After the clock saw the greatest tag, the union is well formed. *)
Lemma installed_inv h1 g :
  delta_valid → tree_agree (td_nodes d) (ot_nodes t) → (∀ id, ends nodes' id) → tree_greatest d = Some g →
  hlc_wf h1 → ts_lt (hlc_tag h) (hlc_tag h1) → ts_lt g (hlc_tag h1) → tree_inv h1 nodes' dead'.
Proof using t_inv d_wf.
  intros Hval Hag Hends Hg Hh1 Hlt Hltg. destruct t_inv as [_ Hn Hw Hb Hd _]. destruct (tree_greatest_spec d g Hg) as [_ Hmax].
  assert (∀ x, delta_tag d x → ts_le x (hlc_tag h1)) as Hle.
  { intros x Hx%Hmax%ts_le_Compare. unfold ts_le, ts_lt in *. lia. }
  split; [done|..|done].
  - apply map_Forall_union_2; [done|apply Hval].
  - apply map_Forall_union_2; [done|apply d_wf].
  - apply map_Forall_union_2.
    + intros id n Hid. specialize (Hb id n Hid). rewrite node_tags_of in *. intros x Hx%Hb. unfold ts_le, ts_lt in *. lia.
    + intros id n Hid. rewrite node_tags_of. intros x Hx. apply Hle. left. eauto.
  - intros id [(? & ? & ?)%Hd|Hid]%elem_of_union.
    + split; [done|]. split; [done|]. unfold ts_le, ts_lt in *. lia.
    + destruct (delta_tag_valid id Hval) as [? ?]; [by right|]. split; [done|]. split; [done|]. apply Hle. by right.
Qed.
End apply.
