(* ===== verification/ORTreeReplication.v ===== *)
(** * Operations of an observed-remove tree, and convergence

    Every operation of ORTree.v keeps the invariant of ORTreeTheory.v and is
    all-or-nothing; a received delta is joined by union. The cached projections
    answer as the computed ones, and replicas that received the same deltas show
    the same tree. *)

From S2P Require Import Prelude Tags Forest Clock Lattice ORTree ORTreeTheory.

Lemma tree_with_same t : tree_with t (ot_clock t) (ot_nodes t) (ot_tombstones t) false = t.
Proof. by destruct t. Qed.

(** ** ApplyDelta *)

(** What a tree accepts: a valid delta within the limits that agrees with the tree
    and, when it brings something new, closes no circle and passes the clock. *)
Definition tree_accepts (t : ORTree) (d : ORTreeDelta) (now : option Z) : Prop :=
  delta_valid d ∧ map_Forall (λ _ n, len (tn_value n) <= to_MaxValueBytes (ot_options t)) (td_nodes d) ∧
  tree_agree (td_nodes d) (ot_nodes t) ∧
  (td_nodes d ⊆ ot_nodes t ∧ td_tombstones d ⊆ ot_tombstones t ∨
   Z.of_nat (size (ot_nodes t ∪ td_nodes d)) <= to_MaxNodes (ot_options t) ∧
   Z.of_nat (size (ot_tombstones t ∪ td_tombstones d)) <= to_MaxTombstones (ot_options t) ∧
   (∀ id, ends (ot_nodes t ∪ td_nodes d) id) ∧
   ∃ g c, tree_greatest d = Some g ∧ Witness (ot_clock t) g now = (c, Ok tt)).

Lemma values_within limit (m : gmap Tag storedNode) :
  existsb (λ e : Tag * storedNode, limit <? len (tn_value e.2)) (map_to_list m) = false ↔
  map_Forall (λ _ n, len (tn_value n) <= limit) m.
Proof.
  rewrite <-not_true_iff_false, existsb_exists. split.
  - intros Hno id n Hn. destruct (Z.le_gt_cases (len (tn_value n)) limit) as [?|Hgt]; [done|]. destruct Hno.
    exists (id, n). rewrite <-list_elem_of_In, elem_of_map_to_list. split; [done|]. by apply Z.ltb_lt.
  - intros Hall ([id n] & Hin%list_elem_of_In & Hgt%Z.ltb_lt). apply elem_of_map_to_list in Hin.
    specialize (Hall id n Hin). simpl in *. lia.
Qed.

(** A known delta adds nothing. *)
Lemma subsumed_union (m1 m2 : gmap Tag storedNode) : m2 ⊆ m1 → m1 ∪ m2 = m1.
Proof.
  intros Hsub. apply map_eq. intros id. rewrite lookup_union.
  destruct (m2 !! id) as [n|] eqn:Hn; [|by destruct (m1 !! id)]. by rewrite (lookup_weaken _ _ _ _ Hn Hsub).
Qed.

(** A delta without a tag is empty. *)
Lemma tree_greatest_None d : tree_greatest d = None → td_nodes d = ∅ ∧ td_tombstones d = ∅.
Proof.
  rewrite tree_greatest_list. intros Hg. pose proof (greatest_fold None
    ((map_to_list (td_nodes d) ≫= tags_of) ++ elements (td_tombstones d))) as H. rewrite Hg in H.
  destruct H as [_ [Hb He%elements_empty_inv]%app_eq_nil]. split; [|by apply leibniz_equiv].
  apply map_to_list_empty_iff. by destruct (map_to_list (td_nodes d)).
Qed.

Lemma tree_ApplyDelta_cases t d now :
  tree_wf t → delta_wf d → now_wf now →
  (∃ e, ORTree_ApplyDelta (Some t) d now = (Some t, Err e) ∧ ¬ tree_accepts t d now) ∨
  (ORTree_ApplyDelta (Some t) d now = (Some t, Ok tt) ∧ tree_accepts t d now ∧
     td_nodes d ⊆ ot_nodes t ∧ td_tombstones d ⊆ ot_tombstones t) ∨
  (∃ h, let t' := tree_with t (Some h) (ot_nodes t ∪ td_nodes d) (ot_tombstones t ∪ td_tombstones d) true in
     ORTree_ApplyDelta (Some t) d now = (Some t', Ok tt) ∧ tree_accepts t d now ∧ tree_wf t').
Proof.
  intros (h & Hc & Hinv) Hd Hnow. unfold ORTree_ApplyDelta, tree_accepts. rewrite Hc.
  destruct (validateTree d) as [[]|e] eqn:Hval.
  2: { left. exists e. split; [done|]. intros [Hv _]. apply validateTree_Ok in Hv. congruence. }
  apply validateTree_Ok in Hval as Hv.
  destruct (existsb _ _) eqn:Hlen.
  { left. eexists. split; [done|]. intros (_ & Hl & _). apply values_within in Hl. congruence. }
  apply values_within in Hlen. destruct (tree_conflict _ _) eqn:Hcf.
  { left. eexists. split; [done|]. intros (_ & _ & Ha & _). apply tree_conflict_false in Ha. congruence. }
  apply tree_conflict_false in Hcf. destruct (treeDeltaSubsumed _ _ _) eqn:Hsub.
  { right. left. apply treeDeltaSubsumed_true in Hsub as Hs. split; [done|]. split; [|done]. split_and!; [done..|by left]. }
  assert (¬ (td_nodes d ⊆ ot_nodes t ∧ td_tombstones d ⊆ ot_tombstones t)) as Hnew
    by (intros Hs%treeDeltaSubsumed_true; congruence).
  rewrite new_nodes_size, new_tombstones_size. destruct (_ || _) eqn:Hroom.
  { left. eexists. split; [done|]. intros (_ & _ & _ & [?|(H1 & H2 & _)]); [done|].
    apply orb_true_iff in Hroom as [?%Z.ltb_lt|?%Z.ltb_lt]; lia. }
  apply orb_false_iff in Hroom as [Hr1%Z.ltb_ge Hr2%Z.ltb_ge]. rewrite <-negb_orb.
  pose proof (acyclic_checks h t d Hinv Hv Hcf) as Hac. destruct (_ || acyclic _ _); cbn [negb].
  2: { left. eexists. split; [done|]. intros (_ & _ & _ & [?|(_ & _ & He & _)]); [done|]. by apply Hac in He. }
  pose proof (proj1 Hac eq_refl) as Hends. destruct (tree_greatest d) as [g|] eqn:Hg.
  2: { destruct (tree_greatest_None d Hg) as [E1 E2]. destruct Hnew. rewrite E1, E2. split; [apply map_empty_subseteq|set_solver]. }
  destruct (Witness (Some h) g now) as [c [[]|e]] eqn:Hw.
  2: { left. apply Witness_error_unchanged in Hw as Hc'. exists e. rewrite Hc', <-Hc, tree_with_same. split; [done|].
       intros (_ & _ & _ & [?|(_ & _ & _ & g' & c' & [= <-] & Hw')]); [done|]. congruence. }
  destruct (tree_greatest_spec d g Hg) as [Hin _]. destruct (delta_tag_valid d Hd g Hv Hin) as [_ Hgw].
  destruct (Witness_spec h g now c) as (h1 & -> & Hh1 & _ & Hlt & Hltg); [apply Hinv|done..|].
  right. right. exists h1. pose proof (install_changed _ _ _ Hcf Hsub) as Hinst. rewrite install_nodes, list_to_map_to_list in *.
  cbn [snd] in Hinst. rewrite Hinst. split; [done|]. split; [split_and!; eauto 10|].
  exists h1. split; [done|]. by apply (installed_inv h t d Hinv Hd h1 g).
Qed.

(** C26: A tree accepts a delta exactly when [tree_accepts] holds: the ids and parents
    are valid, values and sizes are within the limits, no known node is contradicted
    and, if anything is new, the union has no circle of parents (what the quick and
    the general check decide together) and the clock takes the greatest tag. An
    accepted delta is joined by union; a refused one leaves the tree and its clock
    as they were; the invariant holds after both. *)
Theorem ORTree_ApplyDelta_spec (t : ORTree) (d : ORTreeDelta) (now : option Z)
    (Ht : tree_wf t) (Hd : delta_wf d) (Hnow : now_wf now) :
  ∃ t' r, ORTree_ApplyDelta (Some t) d now = (Some t', r) ∧ tree_wf t' ∧ (r = Ok tt ↔ tree_accepts t d now) ∧
    match r with
    | Ok _ => ot_nodes t' = ot_nodes t ∪ td_nodes d ∧ ot_tombstones t' = ot_tombstones t ∪ td_tombstones d
    | Err _ => t' = t
    end.
Proof.
  destruct (tree_ApplyDelta_cases t d now Ht Hd Hnow) as [(e & He & Hno)|[(He & Hacc & H1 & H2)|(h & He & Hacc & Hwf)]].
  - exists t, (Err e). by split_and!.
  - exists t, (Ok tt). split_and!; [done..| |set_solver]. by rewrite subsumed_union.
  - eexists _, (Ok tt). by split_and!.
Qed.

(** ** Local writes *)

(** A tag the clock issues names no node, no parent and no removal. *)
Lemma tree_now h nodes dead now h' id :
  tree_inv h nodes dead → now_wf now → Now (Some h) now = (h', Ok id) →
  ∃ h1, h' = Some h1 ∧ hlc_wf h1 ∧ id = hlc_tag h1 ∧ replicaID h1 = replicaID h ∧ Valid id = true ∧ tag_wf id ∧
    nodes !! id = None ∧ (id ∉ dead) ∧ (∀ q n, nodes !! q = Some n → tn_parent n ≠ id) ∧
    (∀ u, ts_le u (hlc_tag h) → ts_le u (hlc_tag h1)) ∧ (∀ u, ts_le u (hlc_tag h) → u ≠ id).
Proof.
  intros [Hh Hn Hw Hb Hd He] Hnow Hnw. destruct (Now_spec h now h' id Hh Hnow Hnw) as (h1 & -> & Hh1 & -> & Hr & Hlt).
  assert (∀ u, ts_le u (hlc_tag h) → u ≠ hlc_tag h1) as Hne by (intros u Hu ->; unfold ts_le, ts_lt in *; lia).
  assert (Valid (hlc_tag h1) = true ∧ tag_wf (hlc_tag h1)) as [Hv Htw] by (by destruct Hh1 as (? & ? & ?)).
  exists h1. split_and!; try done.
  - apply eq_None_not_Some. intros [n [Hle _]%Hb]. by apply Hne in Hle.
  - intros (_ & _ & Hle)%Hd. by apply Hne in Hle.
  - intros q n Hq Heq. destruct (Hb q n Hq) as [_ Hle]. apply (Hne (tn_parent n)); [|done]. apply Hle. by rewrite Heq.
  - intros u Hu. unfold ts_le, ts_lt in *. lia.
Qed.

(** A node added under the root or under a visible node keeps the invariant. *)
Lemma added_wf h nodes dead now h' id parent value :
  tree_inv h nodes dead → now_wf now → Now (Some h) now = (h', Ok id) →
  parent = zeroTag ∨ Valid parent = true ∧ is_Some (nodes !! parent) →
  ∃ h1, h' = Some h1 ∧ tree_inv h1 (<[id := mkStored parent value]> nodes) dead.
Proof.
  intros Hinv Hnow Hnw Hp. destruct (tree_now h nodes dead now h' id Hinv Hnow Hnw)
    as (h1 & -> & Hh1 & -> & _ & Hv & Htw & Hfresh & Hfd & Hfree & Hmono & Hne).
  destruct Hinv as [Hh Hn Hw Hb Hd He]. exists h1. split; [done|].
  assert (hlc_tag h1 ≠ parent) as Hself.
  { intros <-. destruct Hp as [Hz|[_ [n ?]]]; [by rewrite Hz in Hv|congruence]. }
  split; [done|..].
  - apply map_Forall_insert_2; [|done]. split_and!; [done..|]. destruct Hp as [?|[? _]]; [by left|by right].
  - apply map_Forall_insert_2; [|done]. split; [done|]. intros Hvp. destruct Hp as [->|[_ [n [? _]%Hw]]]; [by vm_compute in Hvp|done].
  - apply map_Forall_insert_2.
    + split; [unfold ts_le; lia|]. intros Hvp. destruct Hp as [->|[_ [n [? _]%Hb]]]; [by vm_compute in Hvp|auto].
    + intros q n [H1 H2]%Hb. split; [auto|]. intros Hvq. auto.
  - intros q (? & ? & ?)%Hd. auto.
  - apply ends_insert; [done|done|]. simpl. by apply not_eq_sym.
Qed.

Lemma liveReachable_visible h nodes dead p :
  tree_inv h nodes dead → Valid p = true → liveReachable p nodes dead = true ↔ visible nodes dead p.
Proof.
  intros [_ Hn _ _ _ He] Hv. apply live_loop_spec; [|done|set_solver|rewrite size_empty; lia|done].
  by intros id n (_ & _ & ?)%Hn.
Qed.

(** A fresh leaf under the root or a visible node is all that becomes visible. *)
Lemma visible_insert nodes dead id n x :
  nodes !! id = None → id ∉ dead → (∀ q m, nodes !! q = Some m → tn_parent m ≠ id) →
  tn_parent n = zeroTag ∨ visible nodes dead (tn_parent n) →
  visible (<[id := n]> nodes) dead x ↔ x = id ∨ visible nodes dead x.
Proof.
  intros Hid Hd Hfree Hp. assert (∀ x, visible nodes dead x → visible (<[id := n]> nodes) dead x) as Hmono.
  { induction 1 as [y m Hy Hyd Hz|y m Hy Hyd _ IH]; [eapply visible_root|eapply visible_child]; try done;
      rewrite lookup_insert_ne; congruence. }
  split.
  - induction 1 as [y m [[<- <-]|[_ Hy]]%lookup_insert_Some Hyd Hz|y m [[<- <-]|[_ Hy]]%lookup_insert_Some Hyd _ IH]; try by left.
    + right. by eapply visible_root.
    + right. destruct IH as [Heq|IH]; [by destruct (Hfree y m)|by eapply visible_child].
  - intros [->|Hx]; [|auto]. destruct Hp as [Hz|Hv].
    + by eapply visible_root; [apply lookup_insert_eq|..].
    + eapply visible_child; [apply lookup_insert_eq|done|auto].
Qed.

(** What [Add] does on every path. *)
Lemma Add_result t parent value now :
  tree_wf t → now_wf now → parent_ok parent →
  let '(t', r) := ORTree_Add (Some t) parent value now in
  match r with
  | Ok (id, delta) =>
      len value <= to_MaxValueBytes (ot_options t) ∧ Z.of_nat (size (ot_nodes t)) < to_MaxNodes (ot_options t) ∧
      (parent = zeroTag ∨ visible (ot_nodes t) (ot_tombstones t) parent) ∧
      let t1 c := tree_with t c (<[id := mkStored parent value]> (ot_nodes t)) (ot_tombstones t) true in
      ∃ c, t' = Some (t1 c) ∧ tree_wf (t1 c) ∧ ot_nodes t !! id = None ∧ (id ∉ ot_tombstones t) ∧
        (∀ x, visible (ot_nodes (t1 c)) (ot_tombstones t) x ↔ x = id ∨ visible (ot_nodes t) (ot_tombstones t) x) ∧
        delta = mkTreeDelta {[id := mkStored parent value]} ∅
  | Err e =>
      t' = Some t ∧
      (e = ErrTree TreeLimit ∧ (to_MaxValueBytes (ot_options t) < len value ∨
                                to_MaxNodes (ot_options t) <= Z.of_nat (size (ot_nodes t))) ∨
       e = ErrTree UnknownParent ∧ parent ≠ zeroTag ∧ ¬ visible (ot_nodes t) (ot_tombstones t) parent ∨
       e = ErrClockExhausted ∧ exhausted (ot_clock t) now (λ _, False))
  end.
Proof.
  intros (h & Hc & Hinv) Hnow Hparent. unfold ORTree_Add. rewrite Hc.
  destruct (Z.ltb_spec (to_MaxValueBytes (ot_options t)) (len value)); [by eauto 6|].
  destruct (Z.leb_spec (to_MaxNodes (ot_options t)) (Z.of_nat (size (ot_nodes t)))); [by eauto 6|].
  destruct (Valid parent && _) eqn:Hlive.
  { apply andb_true_iff in Hlive as [Hv Hl%negb_true_iff]. split; [done|]. right. left. split; [done|]. split; [by intros ->|].
    rewrite <-(liveReachable_visible h) by done. by rewrite Hl. }
  destruct (Now (Some h) now) as [h' [id|e]] eqn:Hnw.
  2: { apply Now_refused in Hnw as (-> & -> & Hex). rewrite <-Hc in Hex |- *. rewrite tree_with_same. by auto. }
  assert (parent = zeroTag ∨ Valid parent = true ∧ visible (ot_nodes t) (ot_tombstones t) parent) as Hp.
  { destruct Hparent as [?|Hv]; [by left|right]. rewrite Hv in Hlive. split; [done|].
    by apply (liveReachable_visible h), negb_false_iff. }
  destruct (added_wf h _ _ now h' id parent value Hinv Hnow Hnw) as (h1 & -> & Hinv1).
  { destruct Hp as [?|[? Hvis]]; [by left|right]. split; [done|]. by inversion Hvis. }
  destruct (tree_now h _ _ now _ id Hinv Hnow Hnw) as (_ & _ & _ & _ & _ & _ & _ & Hfresh & Hfd & Hfree & _ & _).
  split_and!; [done..|by destruct Hp as [?|[_ ?]]; [left|right]|].
  exists (Some h1). split; [done|]. split; [by exists h1|]. split_and!; [done..| |done].
  intros x. apply visible_insert; [done..|]. simpl. destruct Hp as [?|[_ ?]]; [by left|by right].
Qed.

(** C32: [Add] under the root or a valid parent succeeds only when the value fits its
    limit, the tree has room for a node and the parent is the root or visible; then
    the node gets a tag that no node and no removal has, it is visible at once, no
    other node's visibility changes, and its delta carries exactly this node.
    A refusal has no effect and its cause: the value is too long or the tree full, the
    parent is not visible (absent, removed, or under a removed ancestor), or the
    clock cannot step, because the physical time is unreadable or because it has no
    timestamp left. *)
Theorem ORTree_Add_spec (t : ORTree) (parent : Tag) (value : bytes) (now : option Z)
    (Ht : tree_wf t) (Hnow : now_wf now) (Hparent : parent_ok parent) :
  let '(t', r) := ORTree_Add (Some t) parent value now in
  match r with
  | Ok (id, delta) =>
      len value <= to_MaxValueBytes (ot_options t) ∧ Z.of_nat (size (ot_nodes t)) < to_MaxNodes (ot_options t) ∧
      (parent = zeroTag ∨ visible (ot_nodes t) (ot_tombstones t) parent) ∧
      ∃ t1, t' = Some t1 ∧ tree_wf t1 ∧ ot_nodes t !! id = None ∧ (id ∉ ot_tombstones t) ∧
        ot_nodes t1 = <[id := mkStored parent value]> (ot_nodes t) ∧ ot_tombstones t1 = ot_tombstones t ∧
        (∀ x, visible (ot_nodes t1) (ot_tombstones t1) x ↔ x = id ∨ visible (ot_nodes t) (ot_tombstones t) x) ∧
        delta = mkTreeDelta {[id := mkStored parent value]} ∅
  | Err e =>
      t' = Some t ∧
      (e = ErrTree TreeLimit ∧ (to_MaxValueBytes (ot_options t) < len value ∨
                                to_MaxNodes (ot_options t) <= Z.of_nat (size (ot_nodes t))) ∨
       e = ErrTree UnknownParent ∧ parent ≠ zeroTag ∧ ¬ visible (ot_nodes t) (ot_tombstones t) parent ∨
       e = ErrClockExhausted ∧ exhausted (ot_clock t) now (λ _, False))
  end.
Proof.
  pose proof (Add_result t parent value now Ht Hnow Hparent) as H.
  destruct (ORTree_Add _ _ _ _) as [t' [[id d]|e]]; [|done]. destruct H as (? & ? & ? & c & -> & ? & ? & ? & Hv & ->).
  split_and!; [done..|]. eexists. by split_and!.
Qed.

(** Removing a node hides it and everything under it. *)
Lemma visible_remove nodes dead id x :
  nodes !! zeroTag = None → id ≠ zeroTag →
  visible nodes (dead ∪ {[id]}) x ↔ visible nodes dead x ∧ ¬ rtc (up tn_parent nodes) x id.
Proof.
  intros Hroot Hid. assert (∀ y n, nodes !! y = Some n → y ≠ id → ¬ rtc (up tn_parent nodes) (tn_parent n) id →
    ¬ rtc (up tn_parent nodes) y id) as Hstep.
  { intros y n Hy Hyd Hno Hr. inversion Hr as [|? z ? (m & Hm & <-) Hz]; subst; [done|].
    assert (m = n) as -> by congruence. done. }
  split.
  - induction 1 as [y n Hy Hyd Hz|y n Hy Hyd Hv [IH1 IH2]]; (split; [|apply (Hstep y n Hy); [set_solver|]]).
    + eapply visible_root; [done|set_solver|done].
    + rewrite Hz. intros Hr. inversion Hr as [|? z ? (m & Hm & _) _]; congruence.
    + eapply visible_child; [done|set_solver|done].
    + done.
  - intros [Hv Hno]. induction Hv as [y n Hy Hyd Hz|y n Hy Hyd _ IH];
      (assert (y ≠ id) by (intros ->; apply Hno; constructor)).
    + eapply visible_root; [done|set_solver|done].
    + eapply visible_child; [done|set_solver|]. apply IH. intros Hr. apply Hno. eapply rtc_l; [|exact Hr]. by exists n.
Qed.

(** [Remove] refuses, without an effect, an id that is malformed, unknown or already
    removed. Otherwise it fails only as [ApplyDelta] does (no room for the removal, or
    an exhausted clock), again without an effect, or it hides exactly the node and
    the nodes under it, forgetting none of them. The delta names this one removal. *)
Theorem ORTree_Remove_spec (t : ORTree) (id : Tag) (now : option Z) (Ht : tree_wf t) (Hnow : now_wf now) :
  let '(t', (delta, r)) := ORTree_Remove (Some t) id now in
  if bool_decide (is_Some (ot_nodes t !! id)) && negb (bool_decide (id ∈ ot_tombstones t))
  then delta = mkTreeDelta ∅ {[id]} ∧ (r = Ok tt ↔ tree_accepts t delta now) ∧
    ∃ t1, t' = Some t1 ∧ tree_wf t1 ∧
    match r with
    | Ok _ => ot_nodes t1 = ot_nodes t ∧ ot_tombstones t1 = ot_tombstones t ∪ {[id]} ∧
        ∀ x, visible (ot_nodes t1) (ot_tombstones t1) x ↔
          visible (ot_nodes t) (ot_tombstones t) x ∧ ¬ rtc (up tn_parent (ot_nodes t)) x id
    | Err _ => t1 = t
    end
  else t' = Some t ∧ r = Err (ErrTree UnknownNode).
Proof.
  pose proof Ht as (h & Hc & [Hh Hn Hw Hb Hd He]). unfold ORTree_Remove.
  destruct (Valid id) eqn:Hv; cbn [negb].
  2: { rewrite bool_decide_eq_false_2; [done|]. intros [n [Hv' _]%Hn]. congruence. }
  destruct (ot_nodes t !! id) as [n|] eqn:Hid; cbn [orb].
  2: { rewrite (bool_decide_eq_false_2 (is_Some _)) by (by intros [? ?]). by rewrite bool_decide_eq_true_2. }
  rewrite (bool_decide_eq_true_2 (is_Some _)), (bool_decide_eq_false_2 (Some n = None)) by eauto. cbn [andb orb].
  case_bool_decide as Hdead; [done|]. cbn [negb].
  assert (delta_wf (mkTreeDelta ∅ {[id]})) as Hdw.
  { split; [apply map_Forall_empty|]. cbn. intros x ->%elem_of_singleton. by destruct (Hw id n Hid). }
  destruct (tree_ApplyDelta_cases t (mkTreeDelta ∅ {[id]}) now Ht Hdw Hnow) as [(e & -> & Hno)|[(-> & _ & _ & Hsub)|(h1 & -> & Hacc & Hwf)]].
  - split; [done|]. split; [done|]. by exists t.
  - destruct Hdead. apply Hsub. cbn. set_solver.
  - split; [done|]. split; [done|]. eexists. split; [done|]. split; [done|].
    cbn [ot_nodes ot_tombstones tree_with td_nodes td_tombstones]. rewrite map_union_empty. split; [done|]. split; [done|].
    intros x. rewrite ?map_union_empty. apply visible_remove; [by apply nodes_no_root|]. intros ->. by vm_compute in Hv.
Qed.

(** ** The cached projections *)

(** The caches answer as the projections do, and [n] more writes do not bring the
    version counter back to a cached one. *)
Record cache_ok (n : nat) (t : ORTree) : Prop := {
  cache_versions : 0 <= ot_visibleIDsVersion t <= ot_version t ∧ 0 <= ot_visibleCountVersion t <= ot_version t;
  cache_room : ot_version t + Z.of_nat n < 2 ^ 64;
  cache_ids : ot_visibleIDsVersion t = ot_version t → ot_visibleIDs t = visibleNodeIDs (ot_nodes t) (ot_tombstones t);
  cache_count : ot_visibleCountVersion t = ot_version t → ot_visibleCount t = countVisible (ot_nodes t) (ot_tombstones t)
}.

Lemma cache_write n t c nodes dead : cache_ok (S n) t → cache_ok n (tree_with t c nodes dead true).
Proof.
  intros [[Hi Hc] Hr _ _]. assert (u64 (ot_version t + 1) = ot_version t + 1) as E by (apply Z.mod_small; lia).
  split; cbn [tree_with ot_version ot_visibleIDsVersion ot_visibleCountVersion]; rewrite E; lia.
Qed.

Lemma cache_less n t : cache_ok (S n) t → cache_ok n t.
Proof. intros [? ? ? ?]. split; [done|lia|done|done]. Qed.

Lemma NewTree_wf state options t :
  is_u64 (cs_WallTime state) ∧ is_u64 (cs_Logical state) → NewTreeFromClockWithOptions state options = Ok t →
  tree_wf t ∧ ∀ n, Z.of_nat n < 2 ^ 64 → cache_ok n t.
Proof.
  intros [Hw Hl]. unfold NewTreeFromClockWithOptions, NewHLCFromState. destruct (Valid _) eqn:Hv; [|done]. cbn [negb].
  destruct (TreeOptions_valid _); [|done]. cbn [negb]. intros [= <-]. split.
  - eexists. split; [done|]. split; [by split_and!|by apply map_Forall_empty..| |].
    + intros id. cbn. by rewrite elem_of_empty.
    + intros id. constructor. apply lookup_empty.
  - intros n Hn. by split; cbn; [lia|lia|..].
Qed.

(** The nodes a tree shows. *)
Definition shown (nodes : gmap Tag storedNode) (dead : gset Tag) : list Node :=
  nodesForVisibleIDs (visibleNodeIDs nodes dead) nodes.

Lemma ORTree_Nodes_shown n t :
  cache_ok n t → ∃ t', ORTree_Nodes (Some t) = (Some t', shown (ot_nodes t) (ot_tombstones t)) ∧ cache_ok n t' ∧
    ot_clock t' = ot_clock t ∧ ot_nodes t' = ot_nodes t ∧ ot_tombstones t' = ot_tombstones t.
Proof.
  intros [[Hi Hc] Hr H1 H2]. unfold ORTree_Nodes. destruct (Z.eqb_spec (ot_visibleIDsVersion t) (ot_version t)) as [Heq|_].
  - exists t. rewrite H1 by done. by split_and!.
  - eexists. split; [done|]. split; [|done]. split; cbn; [lia|done|done|done].
Qed.

Lemma ORTree_State_counts n t :
  cache_ok n t → ∃ t', ORTree_State (Some t) = (Some t', mkSnapshot (str "ortree") (ot_replicaID t)
      (countVisible (ot_nodes t) (ot_tombstones t)) (Z.of_nat (size (ot_tombstones t)))) ∧ cache_ok n t' ∧
    ot_clock t' = ot_clock t ∧ ot_nodes t' = ot_nodes t ∧ ot_tombstones t' = ot_tombstones t.
Proof.
  intros [[Hi Hc] Hr H1 H2]. unfold ORTree_State. destruct (Z.eqb_spec (ot_visibleCountVersion t) (ot_version t)) as [Heq|_].
  - exists t. rewrite H2 by done. by split_and!.
  - eexists. split; [done|]. split; [|done]. split; cbn; [lia|done|done|done].
Qed.

Lemma node_ids ids nodes : Node_ID <$> nodesForVisibleIDs ids nodes = ids.
Proof.
  unfold nodesForVisibleIDs. rewrite <-list_fmap_compose. rewrite <-(list_fmap_id ids) at 2. apply list_fmap_ext.
  intros _ id _. cbn. by destruct (nodes !! id).
Qed.

(** C5: What [Nodes] and [State] answer, from the cache or computed: the nodes that are
    known, not removed, and connected to the root by such nodes, each exactly once
    with its parent and value, parents before children and later siblings first (the
    canonical preorder); [State] counts the same nodes though it visits them in
    another order; reading changes neither content nor clock. *)
Theorem ORTree_Nodes_spec (n : nat) (t : ORTree) (Ht : tree_wf t) (Hcache : cache_ok n t) :
  let '(t1, ns) := ORTree_Nodes (Some t) in
  let '(t2, st) := ORTree_State t1 in
  preorder (kids (ot_nodes t)) (ot_tombstones t) (kids (ot_nodes t) zeroTag) (Node_ID <$> ns) ∧
  NoDup (Node_ID <$> ns) ∧
  (∀ id p v, mkTreeNode id p v ∈ ns ↔ visible (ot_nodes t) (ot_tombstones t) id ∧ ot_nodes t !! id = Some (mkStored p v)) ∧
  ss_ElementCount st = len ns ∧ ss_TombstoneCount st = Z.of_nat (size (ot_tombstones t)) ∧
  ∃ t', t2 = Some t' ∧ tree_wf t' ∧ cache_ok n t' ∧
    ot_nodes t' = ot_nodes t ∧ ot_tombstones t' = ot_tombstones t ∧ ot_clock t' = ot_clock t.
Proof.
  destruct Ht as (h & Hc & Hinv). pose proof (nodes_no_root _ (inv_nodes _ _ _ Hinv)) as Hroot.
  destruct (ORTree_Nodes_shown n t Hcache) as (t1 & -> & Hc1 & Ec & En & Ed).
  destruct (ORTree_State_counts n t1 Hc1) as (t2 & -> & Hc2 & Ec' & En' & Ed').
  destruct (visibleNodeIDs_spec (ot_nodes t) (ot_tombstones t) Hroot) as (Hpre & Hnd & Hin).
  unfold shown. rewrite node_ids. split; [done|]. split; [done|]. split; [|split; [|split]].
  - intros id p v. unfold nodesForVisibleIDs. rewrite list_elem_of_fmap. setoid_rewrite Hin. split.
    + intros (x & Hx & Hv). inversion Hv as [? m Hm|? m Hm]; subst; rewrite Hm in Hx; injection Hx as -> -> ->; by destruct m.
    + intros [Hv Hid]. exists id. by rewrite Hid.
  - cbn [ss_ElementCount]. rewrite En, Ed, countVisible_spec by done. unfold nodesForVisibleIDs, len. by rewrite length_fmap.
  - cbn [ss_TombstoneCount]. by rewrite Ed.
  - exists t2. split; [done|]. split; [|split; [done|]; split_and!; congruence]. exists h. split; [congruence|].
    by rewrite En', Ed', En, Ed.
Qed.

(** ** Convergence *)

(** What a replica receives: a delta, or another replica to merge. *)
Inductive tree_msg := TreeDeltaMsg (d : ORTreeDelta) | TreeStateMsg (o : ORTree).

Definition tree_receive (t : ptr ORTree) (m : tree_msg * option Z) : ptr ORTree * result unit :=
  match m.1 with
  | TreeDeltaMsg d => ORTree_ApplyDelta t d m.2
  | TreeStateMsg o => ORTree_Merge t (PObj o) m.2
  end.

Definition content : Type := gmap Tag storedNode * gset Tag.
Definition tree_content (t : ORTree) : content := (ot_nodes t, ot_tombstones t).
Definition tree_carries (m : tree_msg * option Z) : content :=
  match m.1 with TreeDeltaMsg d => (td_nodes d, td_tombstones d) | TreeStateMsg o => tree_content o end.
Definition tree_msg_ok (m : tree_msg * option Z) : Prop :=
  delta_wf (mkTreeDelta (tree_carries m).1 (tree_carries m).2) ∧ now_wf m.2.
Definition content_join (a b : content) : content := (a.1 ∪ b.1, a.2 ∪ b.2).

(** [own] is the node each tag was issued for. *)
Definition content_written (own : Tag → option storedNode) (c : content) : Prop := map_Forall (λ id n, own id = Some n) c.1.

#[export] Instance content_lattice own : Lattice (content_written own) (=) content_join.
Proof.
  assert (∀ a b : content, content_written own a → content_written own b → tree_agree a.1 b.1) as Hag
    by (intros a b Ha Hb id n m Hn%Ha Hm%Hb; congruence).
  assert (∀ a b : content, content_written own a → content_written own b → content_join a b = content_join b a) as Hcomm.
  { intros a b Ha Hb. unfold content_join. f_equal; [|set_solver]. apply map_eq. intros id. rewrite !lookup_union.
    specialize (Hag a b Ha Hb id). destruct (a.1 !! id) as [n|], (b.1 !! id) as [m|]; try done. simpl. by rewrite (Hag n m). }
  split; try done.
  - apply _.
  - intros a b Ha Hb. by apply map_Forall_union_2.
  - by intros a a' b b' _ _ _ _ -> ->.
  - intros a b c _ _ _. unfold content_join. cbn [fst snd]. by rewrite (assoc_L (∪)), (assoc_L (∪)).
  - intros [n d] _. unfold content_join. cbn [fst snd]. f_equal; [apply map_union_idemp|set_solver].
Qed.

Lemma tree_receive_delta t m :
  tree_receive (Some t) m = ORTree_ApplyDelta (Some t) (mkTreeDelta (tree_carries m).1 (tree_carries m).2) m.2.
Proof. by destruct m as [[[]|] ?]. Qed.

Lemma tree_receive_joins t m t' :
  tree_wf t → tree_msg_ok m → tree_receive (Some t) m = (t', Ok tt) →
  ∃ t1, t' = Some t1 ∧ tree_wf t1 ∧ tree_content t1 = content_join (tree_content t) (tree_carries m).
Proof.
  intros Ht [Hd Hnow]. rewrite tree_receive_delta.
  destruct (tree_ApplyDelta_cases t _ m.2 Ht Hd Hnow) as [(e & -> & _)|[(-> & _ & H1 & H2)|(h & -> & _ & Hwf)]]; [done|..]; intros [= <-].
  - exists t. split; [done|]. split; [done|]. unfold tree_content, content_join. cbn [fst snd td_nodes td_tombstones] in *.
    f_equal; [by rewrite subsumed_union|set_solver].
  - by eexists.
Qed.

Lemma tree_receive_cached n t m t' :
  tree_wf t ∧ cache_ok (S n) t → tree_msg_ok m → tree_receive (Some t) m = (t', Ok tt) →
  ∃ t1, t' = Some t1 ∧ tree_wf t1 ∧ cache_ok n t1.
Proof.
  intros [Ht Hc] [Hd Hnow]. rewrite tree_receive_delta.
  destruct (tree_ApplyDelta_cases t _ m.2 Ht Hd Hnow) as [(e & -> & _)|[(-> & _)|(h & -> & _ & Hwf)]]; [done|..]; intros [= <-].
  - exists t. auto using cache_less.
  - eexists. auto using cache_write.
Qed.

(** C3: Replicas whose initial content and accepted deltas and states are, taken
    together, the same, received in any order and any number of times, hold the same
    nodes and removals and show the same tree, whether from the cache or computed; a
    message that is refused leaves a replica as it was. Every tag names one node, and
    the version counters are assumed not to come round. *)
Theorem ORTree_convergence (own : Tag → option storedNode) (a b a' b' : ORTree) (ma mb : list (tree_msg * option Z))
    (Ha : tree_wf a) (Hb : tree_wf b) (Hma : Forall tree_msg_ok ma) (Hmb : Forall tree_msg_ok mb)
    (Hca : cache_ok (length ma) a) (Hcb : cache_ok (length mb) b)
    (Hown : Forall (content_written own) (tree_content a :: tree_content b :: (tree_carries <$> ma ++ mb)))
    (Hruna : run tree_receive (Some a) ma = (Some a', Ok tt))
    (Hrunb : run tree_receive (Some b) mb = (Some b', Ok tt))
    (Hsame : ∀ c, c ∈ tree_content a :: (tree_carries <$> ma) ↔ c ∈ tree_content b :: (tree_carries <$> mb)) :
  ot_nodes a' = ot_nodes b' ∧ ot_tombstones a' = ot_tombstones b' ∧
  (ORTree_Nodes (Some a')).2 = (ORTree_Nodes (Some b')).2 ∧
  ∀ msg e t', tree_msg_ok msg → tree_receive (Some a') msg = (t', Err e) → t' = Some a'.
Proof.
  pose proof (run_deliver tree_receive _ _ _ _ _ tree_receive_joins) as Hrun.
  destruct (Hrun a ma (Some a')) as (? & [= <-] & Hwfa & Hsa); [done..|].
  destruct (Hrun b mb (Some b')) as (? & [= <-] & _ & Hsb); [done..|].
  pose proof (run_counted tree_receive _ _ tree_receive_cached) as Hcnt.
  destruct (Hcnt ma 0%nat a (Some a')) as (? & [= <-] & _ & Hcache); [by rewrite Nat.add_0_r|done..|].
  destruct (Hcnt mb 0%nat b (Some b')) as (? & [= <-] & _ & Hcache'); [by rewrite Nat.add_0_r|done..|].
  assert (tree_content a' = tree_content b') as [= En Ed].
  { assert (∀ c : content, content_join (∅, ∅) c = c) as Hunit.
    { intros [n d]. unfold content_join. cbn [fst snd]. f_equal; [apply map_empty_union|set_solver]. }
    rewrite Hsa, Hsb, <-(Hunit (tree_content a)), <-(Hunit (tree_content b)).
    change (deliver content_join (∅, ∅) (tree_content a :: (tree_carries <$> ma)) =
            deliver content_join (∅, ∅) (tree_content b :: (tree_carries <$> mb))).
    rewrite fmap_app, !Forall_cons, Forall_app in Hown. destruct Hown as (?&?&?&?).
    apply (deliver_convergence (content_written own) (=) content_join);
      [apply _|apply map_Forall_empty|by constructor|by constructor|done]. }
  destruct (ORTree_Nodes_shown 0 a' Hcache) as (? & -> & _). destruct (ORTree_Nodes_shown 0 b' Hcache') as (? & -> & _).
  rewrite En, Ed. split_and!; [done..|]. intros m e t' [Hd Hnow]. rewrite tree_receive_delta.
  destruct (tree_ApplyDelta_cases a' _ m.2 Hwfa Hd Hnow) as [(e' & -> & _)|[(-> & _)|(h & -> & _)]]; [|done..]. by intros [= <- _].
Qed.

(** ** Concrete trees *)

Definition w_new (id : string) : ORTree := mkORTree (str id) (Some (mkHLC (str id) 0 0)) DefaultTreeOptions ∅ ∅ 0 0 0 [] 0.

Lemma w_new_wf : (tree_wf (w_new "a") ∧ cache_ok 9 (w_new "a")) ∧ (tree_wf (w_new "b") ∧ cache_ok 9 (w_new "b")).
Proof.
  assert (∀ id, NewTree (str id) = Ok (w_new id) → tree_wf (w_new id) ∧ cache_ok 9 (w_new id)) as H.
  { intros id Hnew. apply (NewTree_wf (mkClockState (str id) 0 0)) in Hnew as [? Hc]; [|done]. split; [done|]. by apply Hc. }
  split; apply H; reflexivity.
Qed.

Lemma w_times : now_wf (Some 5) ∧ now_wf (Some 6) ∧ now_wf (Some 9).
Proof. unfold now_wf. lia. Qed.

(** A node under the root, and one under it. *)
Definition w_root : Tag := mkTag (str "a") 5 0.
Definition w_leaf : Tag := mkTag (str "a") 6 0.
Definition w_add1 : ptr ORTree := (ORTree_Add (Some (w_new "a")) zeroTag (str "r") (Some 5)).1.
Definition w_add2 : ptr ORTree := (ORTree_Add w_add1 w_root (str "l") (Some 6)).1.
Definition w_delta : ORTreeDelta :=
  mkTreeDelta {[w_root := mkStored zeroTag (str "r"); w_leaf := mkStored w_root (str "l")]} ∅.

Lemma added_cached n t parent value now :
  tree_wf t ∧ cache_ok (S n) t → now_wf now → parent_ok parent → is_ok (ORTree_Add (Some t) parent value now).2 = true →
  ∃ t1, (ORTree_Add (Some t) parent value now).1 = Some t1 ∧ tree_wf t1 ∧ cache_ok n t1.
Proof.
  intros [Ht Hc] Hnow Hp. pose proof (Add_result t parent value now Ht Hnow Hp) as H.
  destruct (ORTree_Add _ _ _ _) as [t' [[id d]|e]]; [|done]. intros _. destruct H as (_ & _ & _ & c & -> & Hwf & _).
  eexists. auto using cache_write.
Qed.

Lemma w_add2_wf : ∃ t, w_add2 = Some t ∧ tree_wf t ∧ cache_ok 7 t.
Proof.
  destruct w_new_wf as [Ha _]. destruct (added_cached 8 (w_new "a") zeroTag (str "r") (Some 5)) as (t1 & E & Ht1);
    [exact Ha|done|by left|vm_compute; reflexivity|].
  assert (is_ok (ORTree_Add w_add1 w_root (str "l") (Some 6)).2 = true) as Hok2 by (vm_compute; reflexivity).
  unfold w_add2, w_add1 in *. rewrite E in *. apply added_cached; [exact Ht1|apply w_times|right; reflexivity|exact Hok2].
Qed.

Lemma ORTree_ApplyDelta_spec_witness :
  ∃ t', ORTree_ApplyDelta (Some (w_new "b")) w_delta (Some 5) = (Some t', Ok tt) ∧ tree_wf t' ∧ ot_nodes t' = td_nodes w_delta.
Proof.
  assert (delta_wf w_delta) as Hd by (split; [apply (bool_decide_unpack _); vm_compute; exact I|by intros id ?%elem_of_empty]).
  assert ((ORTree_ApplyDelta (Some (w_new "b")) w_delta (Some 5)).2 = Ok tt) as Hok by (vm_compute; reflexivity).
  destruct (ORTree_ApplyDelta_spec (w_new "b") w_delta (Some 5)) as (t' & r & E & Hwf & _ & Hr); [apply w_new_wf|exact Hd|apply w_times|].
  rewrite E in Hok |- *. cbn [snd] in Hok. subst r. exists t'. split; [reflexivity|]. split; [exact Hwf|].
  destruct Hr as [-> _]. apply map_empty_union.
Defined.

Lemma ORTree_Add_spec_witness :
  ∃ t t' delta, w_add2 = Some t ∧ ORTree_Add (Some t) w_root (str "m") (Some 9) = (Some t', Ok (mkTag (str "a") 9 0, delta)) ∧
    visible (ot_nodes t') (ot_tombstones t') (mkTag (str "a") 9 0).
Proof.
  destruct w_add2_wf as (t & Et & Hwf & _).
  assert (fst <$> (ORTree_Add w_add2 w_root (str "m") (Some 9)).2 = Ok (mkTag (str "a") 9 0)) as Hok by (vm_compute; reflexivity).
  rewrite Et in Hok. exists t. pose proof (ORTree_Add_spec t w_root (str "m") (Some 9) Hwf ltac:(apply w_times) ltac:(right; reflexivity)) as H.
  destruct (ORTree_Add (Some t) _ _ _) as [t' [[id delta]|e]]; [|discriminate Hok]. injection Hok as ->.
  destruct H as (_ & _ & _ & t1 & -> & _ & _ & _ & _ & _ & Hv & _). exists t1, delta. split; [exact Et|]. split; [reflexivity|].
  apply Hv. left. reflexivity.
Defined.

Lemma ORTree_Remove_spec_witness :
  ∃ t t', w_add2 = Some t ∧ ORTree_Remove (Some t) w_root (Some 9) = (Some t', (mkTreeDelta ∅ {[w_root]}, Ok tt)) ∧
    ot_nodes t' = ot_nodes t ∧ ¬ visible (ot_nodes t') (ot_tombstones t') w_leaf.
Proof.
  destruct w_add2_wf as (t & Et & Hwf & _).
  assert ((ORTree_Remove w_add2 w_root (Some 9)).2.2 = Ok tt) as Hok by (vm_compute; reflexivity).
  assert (option_map tn_parent (default ∅ (ot_nodes <$> w_add2) !! w_leaf) = Some w_root) as Hl by (vm_compute; reflexivity).
  assert (match w_add2 with None => false | Some t => bool_decide (is_Some (ot_nodes t !! w_root)) &&
            negb (bool_decide (w_root ∈ ot_tombstones t)) end = true) as Hk by (vm_compute; reflexivity).
  rewrite Et in Hok, Hl, Hk. cbn in Hl. exists t. pose proof (ORTree_Remove_spec t w_root (Some 9) Hwf ltac:(apply w_times)) as H.
  destruct (ORTree_Remove (Some t) w_root (Some 9)) as [t' [delta r]]. rewrite Hk in H. cbn [snd] in Hok. subst r.
  destruct H as (-> & _ & t1 & -> & _ & Hn & _ & Hv). exists t1. split; [exact Et|]. split; [reflexivity|]. split; [exact Hn|].
  rewrite Hv. intros [_ Hno]. apply Hno. destruct (ot_nodes t !! w_leaf) as [n|] eqn:En; [|discriminate Hl].
  apply rtc_once. exists n. split; [exact En|]. injection Hl as ->. reflexivity.
Defined.

Lemma ORTree_Nodes_spec_witness :
  NoDup (Node_ID <$> (ORTree_Nodes w_add2).2) ∧
  (ORTree_Nodes w_add2).2 = [mkTreeNode w_root zeroTag (str "r"); mkTreeNode w_leaf w_root (str "l")].
Proof.
  split; [|vm_compute; reflexivity]. destruct w_add2_wf as (t & -> & Hwf & Hc).
  pose proof (ORTree_Nodes_spec 7 t Hwf Hc) as H. destruct (ORTree_Nodes (Some t)) as [t1 ns].
  destruct (ORTree_State t1) as [t2 st]. cbn [snd]. apply H.
Defined.

(** Three deltas, which the replicas receive in different orders, one of them twice. *)
Definition w_own (id : Tag) : option storedNode := td_nodes w_delta !! id.
Definition w_msg (d : ORTreeDelta) : tree_msg * option Z := (TreeDeltaMsg d, Some 9).
Definition w_d1 : ORTreeDelta := mkTreeDelta {[w_root := mkStored zeroTag (str "r")]} ∅.
Definition w_d2 : ORTreeDelta := mkTreeDelta {[w_leaf := mkStored w_root (str "l")]} ∅.
Definition w_d3 : ORTreeDelta := mkTreeDelta ∅ {[w_leaf]}.

Lemma w_msgs_ok : tree_msg_ok (w_msg w_d1) ∧ tree_msg_ok (w_msg w_d2) ∧ tree_msg_ok (w_msg w_d3).
Proof.
  assert (tag_wf w_root ∧ tag_wf w_leaf) as [Hr Hl] by (unfold tag_wf, is_u64; cbn; lia).
  assert (∀ id n, node_tags tag_wf id n → delta_wf (mkTreeDelta {[id := n]} ∅)) as Hone.
  { intros id n Hn. split; [by apply map_Forall_singleton|]. cbn. by intros x ?%elem_of_empty. }
  split_and!; (split; [|apply w_times]); [by apply Hone; split|by apply Hone; split|].
  split; [apply map_Forall_empty|]. cbn. by intros x ->%elem_of_singleton.
Qed.

Lemma ORTree_convergence_witness :
  let after t ms := default t (run tree_receive (Some t) ms).1 in
  (ORTree_Nodes (Some (after (w_new "a") [w_msg w_d1; w_msg w_d2; w_msg w_d3]))).2 =
  (ORTree_Nodes (Some (after (w_new "b") [w_msg w_d3; w_msg w_d2; w_msg w_d3; w_msg w_d1]))).2.
Proof.
  intros after. destruct w_msgs_ok as (H1 & H2 & H3). destruct w_new_wf as [[Ha Hca] [Hb Hcb]].
  refine (proj1 (proj2 (proj2 (ORTree_convergence w_own (w_new "a") (w_new "b") _ _
    [w_msg w_d1; w_msg w_d2; w_msg w_d3] [w_msg w_d3; w_msg w_d2; w_msg w_d3; w_msg w_d1] Ha Hb _ _ _ _ _ _ _ _)))).
  - repeat (constructor; [assumption|]). constructor.
  - repeat (constructor; [assumption|]). constructor.
  - do 6 apply cache_less. exact Hca.
  - do 5 apply cache_less. exact Hcb.
  - repeat (constructor; [apply (bool_decide_eq_true_1 (map_Forall _ _)); vm_compute; reflexivity|]). constructor.
  - vm_compute. reflexivity.
  - vm_compute. reflexivity.
  - intros c. cbn [tree_carries w_msg fmap list_fmap fst]. set_solver.
Defined.
