(* ===== verification/ORTreeCompact.v ===== *)
(** * Compaction of an observed-remove tree

    Removing tombstoned nodes from the tree of ORTree.v changes nothing that is
    shown; the eligible batch is removed children first, so that whole deleted
    branches go and no kept node loses its parent. The tree is thereby a target
    of tombstone collection. *)

From S2P Require Import Prelude Tags Forest Clock ORTree ORTreeTheory ORTreeReplication TombstoneGC TombstoneGCTheory TombstoneTargets.

(** ** What is shown does not change *)

Lemma preorder_filter nodes dead (gone : list Tag) cs l :
  (∀ x, x ∈ gone → x ∈ dead) → preorder (kids nodes) dead cs l →
  preorder (kids (filter (λ e : Tag * storedNode, e.1 ∉ gone) nodes)) (dead ∖ list_to_set gone) (filter (.∉ gone) cs) l.
Proof.
  intros Hg. induction 1 as [|c cs l Hc _ IH|c cs lc l Hc _ IHc _ IHl]; [constructor|..]; rewrite filter_cons.
  - case_decide; [|done]. apply pre_dead; [set_solver|done].
  - rewrite decide_True by (intros ?%Hg; done). apply pre_live; [set_solver| |done]. by rewrite kids_filter.
Qed.

Lemma shown_compacted nodes dead (gone : list Tag) :
  nodes !! zeroTag = None → (∀ x, x ∈ gone → x ∈ dead) →
  shown (filter (λ e : Tag * storedNode, e.1 ∉ gone) nodes) (dead ∖ list_to_set gone) = shown nodes dead.
Proof.
  intros Hz Hg. set (nodes' := filter _ nodes).
  assert (nodes' !! zeroTag = None) as Hz' by (apply map_lookup_filter_None; by left).
  destruct (visibleNodeIDs_spec nodes dead Hz) as (Hp & _ & Hin).
  destruct (visibleNodeIDs_spec nodes' (dead ∖ list_to_set gone) Hz') as (Hp' & _ & _).
  apply (preorder_filter _ _ gone) in Hp; [|done]. fold nodes' in Hp. rewrite <-kids_filter in Hp.
  unfold shown. rewrite (preorder_functional _ _ _ _ _ Hp' Hp). unfold nodesForVisibleIDs. apply list_fmap_ext.
  intros i id Hid%list_elem_of_lookup_2%Hin. assert (id ∉ dead) as Hd by (by inversion Hid).
  replace (nodes' !! id) with (nodes !! id); [done|]. symmetry. unfold nodes'. destruct (nodes !! id) as [n|] eqn:Hn.
  - apply map_lookup_filter_Some. split; [done|]. intros Hi. by apply Hd, Hg.
  - apply map_lookup_filter_None. by left.
Qed.

Lemma compact_nodes (compact : list Tag) (nodes : gmap Tag storedNode) :
  foldl (λ nodes tag, delete tag nodes) nodes compact = filter (λ e : Tag * storedNode, e.1 ∉ compact) nodes.
Proof.
  revert nodes. induction compact as [|x l IH]; intros nodes; cbn [foldl].
  - symmetry. apply map_filter_id. intros. apply not_elem_of_nil.
  - rewrite IH. apply map_eq. intros id. apply option_eq. intros n. rewrite !map_lookup_filter_Some, lookup_delete_Some.
    cbn [fst]. rewrite not_elem_of_cons. naive_solver.
Qed.

Lemma compact_dead (compact : list Tag) (dead : gset Tag) :
  foldl (λ dead tag, dead ∖ {[tag]}) dead compact = dead ∖ list_to_set compact.
Proof. revert dead. induction compact as [|x l IH]; intros dead; cbn [foldl list_to_set]; [set_solver|]. rewrite IH. set_solver. Qed.

Lemma kept_Forall (P : Tag → storedNode → Prop) Q `{!∀ e, Decision (Q e)} (nodes : gmap Tag storedNode) :
  map_Forall P nodes → map_Forall P (filter Q nodes).
Proof. intros HP id n [Hn _]%map_lookup_filter_Some. by apply HP. Qed.

(** Removing tombstoned nodes keeps the invariant and what is shown. *)
Lemma compact_removed t (gone : list Tag) :
  tree_wf t → NoDup gone → (∀ x, x ∈ gone → x ∈ ot_tombstones t) →
  let t' := tree_compact_remove t gone in
  tree_wf t' ∧ ot_nodes t' = filter (λ e : Tag * storedNode, e.1 ∉ gone) (ot_nodes t) ∧
  ot_tombstones t' = ot_tombstones t ∖ list_to_set gone ∧
  shown (ot_nodes t') (ot_tombstones t') = shown (ot_nodes t) (ot_tombstones t) ∧ (∀ n, cache_ok (S n) t → cache_ok n t').
Proof.
  intros (h & Hc & [Hh Hn Hw Hb Hd He]) Hnd Hg. cbv zeta. unfold tree_compact_remove.
  rewrite compact_nodes, compact_dead. cbn [tree_with ot_nodes ot_tombstones]. split; [|split; [done|split; [done|split]]].
  - exists h. split; [done|]. cbn [ot_nodes ot_tombstones tree_with].
    split; [done|by apply kept_Forall..| |].
    + intros id [? _]%elem_of_difference. auto.
    + intros id. by apply ends_filter.
  - apply shown_compacted; [by apply nodes_no_root|done].
  - intros n Hcache. destruct gone as [|x gone].
    + replace (filter _ _) with (ot_nodes t) by (symmetry; apply map_filter_id; intros; apply not_elem_of_nil).
      replace (ot_tombstones t ∖ list_to_set []) with (ot_tombstones t) by set_solver.
      change (0 <? len (@nil Tag)) with false. rewrite tree_with_same. by apply cache_less.
    + replace (0 <? len (x :: gone)) with true by (symmetry; apply Z.ltb_lt; unfold len; cbn [length]; lia).
      by apply cache_write.
Qed.

(** ** The two plans *)

(** The requested tombstones, if all of them are known and childless. *)
Lemma tree_select_spec t children tags : ∀ seen compact,
  NoDup compact → (∀ x, x ∈ compact → x ∈ seen) →
  match tree_compact_select t children seen compact tags with
  | Ok l => NoDup l ∧ (∀ x, x ∈ l ↔ x ∈ compact ∨ x ∈ tags ∧ (x ∉ seen) ∧ x ∈ ot_tombstones t) ∧
      (∀ x, x ∈ tags → x ∉ seen → x ∈ ot_tombstones t → is_Some (ot_nodes t !! x) ∧ x ∉ children)
  | Err e => e = ErrTree TreeCompaction ∧
      ∃ x, x ∈ tags ∧ x ∈ ot_tombstones t ∧ (ot_nodes t !! x = None ∨ x ∈ children)
  end.
Proof.
  induction tags as [|tag tags IH]; intros seen compact Hnd Hs; cbn [tree_compact_select].
  { split; [done|]. split; intros x; rewrite elem_of_nil; naive_solver. }
  case_bool_decide as H1.
  { specialize (IH seen compact Hnd Hs). destruct (tree_compact_select _ _ _ _ _) as [l|e]; set_solver. }
  case_bool_decide as H2; cbn [negb].
  2: { specialize (IH ({[tag]} ∪ seen) compact Hnd ltac:(set_solver)).
       destruct (tree_compact_select _ _ _ _ _) as [l|e]; [|set_solver]. destruct IH as (? & Hl & Hk). split; [done|].
       split; [intros x; rewrite Hl, elem_of_cons, not_elem_of_union, not_elem_of_singleton; naive_solver|].
       intros x Hx. destruct (decide (x = tag)); [naive_solver|]. set_solver. }
  case_bool_decide as H3; [set_solver|]. case_bool_decide as H4; [set_solver|].
  specialize (IH ({[tag]} ∪ seen) (compact ++ [tag])).
  destruct (tree_compact_select _ _ _ _ _) as [l|e].
  - destruct IH as (? & Hl & Hk); [|set_solver|].
    { apply NoDup_app. split; [done|]. split; [set_solver|apply NoDup_singleton]. }
    split; [done|]. split.
    + intros x. rewrite Hl, elem_of_app, list_elem_of_singleton, elem_of_cons, not_elem_of_union, not_elem_of_singleton.
      destruct (decide (x = tag)) as [->|]; naive_solver.
    + intros x Hx Hxs Hxd. destruct (decide (x = tag)) as [->|]; [split; [by apply not_eq_None_Some|done]|].
      apply Hk; set_solver.
  - destruct IH as (-> & x & Hx); [|set_solver|]; [|split; [done|]; set_solver].
    apply NoDup_app. split; [done|]. split; [set_solver|apply NoDup_singleton].
Qed.

Lemma tree_child_count_kids nodes tag : tree_child_count nodes tag = len (kids nodes tag).
Proof.
  unfold tree_child_count, Forest.kids, len. rewrite (Permutation_length (sort_by_perm Descending _)). by rewrite length_fmap.
Qed.

(** The plan of [CompactEligibleTombstones]: the requested tombstones all of whose
    children are in the plan too. *)
Lemma tree_eligible t tags :
  forallb Valid tags = true →
  ∃ gone, NoDup gone ∧
    (∀ x, x ∈ gone ↔ (x ∈ tags ∧ x ∈ ot_tombstones t ∧ is_Some (ot_nodes t !! x)) ∧ ∀ q, q ∈ kids (ot_nodes t) x → q ∈ gone) ∧
    ORTree_CompactEligibleTombstones (Some t) tags = (Some (tree_compact_remove t gone), Ok (len gone)).
Proof.
  intros Hv. unfold ORTree_CompactEligibleTombstones. rewrite Hv. cbn [negb].
  set (C := sort_by Compare _). assert (∀ x, x ∈ C ↔ x ∈ tags ∧ x ∈ ot_tombstones t ∧ is_Some (ot_nodes t !! x)) as HC.
  { intros x. unfold C. rewrite (sort_by_perm Compare), elem_of_remove_dups, list_elem_of_filter. tauto. }
  assert (NoDup C) as HN by (unfold C; rewrite (sort_by_perm Compare); apply NoDup_remove_dups).
  pose proof (branch_plan (parent := tn_parent) (ot_nodes t) C (tree_child_count (ot_nodes t)) HN) as Hplan.
  destruct Hplan as (Hnd & Hin & _); [naive_solver|intros; apply tree_child_count_kids|].
  destruct (Z.eqb_spec (len C) 0) as [Hz|Hz].
  - assert (C = []) as HCn by (apply nil_length_inv; unfold len in Hz; lia). exists []. split; [constructor|]. split.
    + intros x. rewrite <-HC, HCn, !elem_of_nil. tauto.
    + unfold tree_compact_remove. cbn [foldl]. change (0 <? len (@nil Tag)) with false. by rewrite tree_with_same.
  - eexists. split; [exact Hnd|]. split; [|done]. intros x. by rewrite Hin, HC.
Qed.

(** C30: A batch of acknowledged tombstones: a malformed tag refuses the batch and changes
    nothing. Otherwise exactly those requested nodes are forgotten that are removed,
    known, and whose children are all forgotten too, so a deleted branch goes in one
    call and no kept node loses its parent; their number is reported, and the visible
    tree with its order is the same as before. *)
Theorem ORTree_CompactEligible_spec (t : ORTree) (tags : list Tag) (Ht : tree_wf t) :
  let '(t', r) := ORTree_CompactEligibleTombstones (Some t) tags in
  match r with
  | Ok n => ∃ t1 gone, t' = Some t1 ∧ n = len gone ∧ NoDup gone ∧
      (∀ x, x ∈ gone ↔ (x ∈ tags ∧ x ∈ ot_tombstones t ∧ is_Some (ot_nodes t !! x)) ∧
                       ∀ q m, ot_nodes t !! q = Some m → tn_parent m = x → q ∈ gone) ∧
      ot_nodes t1 = filter (λ e : Tag * storedNode, e.1 ∉ gone) (ot_nodes t) ∧
      ot_tombstones t1 = ot_tombstones t ∖ list_to_set gone ∧
      shown (ot_nodes t1) (ot_tombstones t1) = shown (ot_nodes t) (ot_tombstones t) ∧ tree_wf t1
  | Err e => t' = Some t ∧ e = ErrTree TreeCompaction ∧ forallb Valid tags = false
  end.
Proof.
  destruct (forallb Valid tags) eqn:Hv; [|unfold ORTree_CompactEligibleTombstones; by rewrite Hv].
  destruct (tree_eligible t tags Hv) as (gone & Hnd & Hin & ->).
  destruct (compact_removed t gone Ht Hnd) as (Hwf & Hn & Hd & Hs & _); [naive_solver|].
  eexists _, gone. split; [done|]. split; [done|]. split; [done|]. split; [|done].
  intros x. rewrite Hin. setoid_rewrite elem_of_kids. naive_solver.
Qed.

(** The exact compaction, in the same terms. *)
Lemma tree_compacted t tags t' r :
  tree_wf t → ORTree_CompactTombstones (Some t) tags = (t', r) →
  match r with
  | Ok n => ∃ gone, t' = Some (tree_compact_remove t gone) ∧ n = len gone ∧ NoDup gone ∧
      (∀ x, x ∈ gone ↔ x ∈ tags ∧ x ∈ ot_tombstones t) ∧
      ∀ x, x ∈ gone → is_Some (ot_nodes t !! x) ∧ ∀ q m, ot_nodes t !! q = Some m → tn_parent m ≠ x
  | Err e => t' = Some t ∧ e = ErrTree TreeCompaction
  end.
Proof.
  intros (h & _ & [_ Hn _ _ Hd _]). unfold ORTree_CompactTombstones. destruct (negb _); [by intros [= <- <-]|].
  set (children := list_to_set _). pose proof (tree_select_spec t children tags ∅ [] (NoDup_nil_2)
    ltac:(by intros x ?%elem_of_nil)) as Hsel. destruct (tree_compact_select _ _ _ _ _) as [l|e]; intros [= <- <-]; [|naive_solver].
  destruct Hsel as (Hnd & Hin & Hk). exists l. split; [done|]. split; [done|]. split; [done|]. split.
  { intros x. rewrite Hin, elem_of_nil. set_solver. }
  intros x Hx. apply Hin in Hx as [?%elem_of_nil|(Ht & _ & Hxd)]; [done|]. destruct (Hk x Ht ltac:(set_solver) Hxd) as [Hsome Hno].
  split; [done|]. intros q m Hq Heq. apply Hno. unfold children. rewrite elem_of_list_to_set, list_elem_of_filter, list_elem_of_fmap.
  split; [by apply Hd|]. exists (q, m). split; [done|]. by rewrite elem_of_map_to_list.
Qed.

(** ** The tree as a target of collection *)

#[export] Instance tree_target : TombstoneTarget (ptr ORTree) := {|
  tt_TombstoneTags := ORTree_TombstoneTags;
  tt_CompactTombstones := ORTree_CompactTombstones;
  tt_CompactEligibleTombstones := Some ORTree_CompactEligibleTombstones
|}.

#[export] Program Instance tree_target_laws : TombstoneTargetLaws (ptr ORTree) := {|
  tt_ok := ptr_all tree_wf;
  tt_ids := λ t, match t with None => ∅ | Some t => ot_tombstones t end;
  tt_view := λ t, (λ t, shown (ot_nodes t) (ot_tombstones t)) <$> t
|}.
Next Obligation. intros [t|] x Ht Hx; [|by apply not_elem_of_empty in Hx]. destruct Ht as (h & _ & Hinv). by apply Hinv. Qed.
Next Obligation. intros [t|] Ht; [apply sorted_tags|constructor]. Qed.
Next Obligation. intros [t|] x Ht; [apply sorted_tags|]. cbn. by rewrite elem_of_nil. Qed.
Next Obligation.
  intros [t|] tags Ht; [|done]. unfold compact_target. cbn [tt_CompactEligibleTombstones tree_target].
  destruct (forallb Valid tags) eqn:Hv; [|unfold ORTree_CompactEligibleTombstones; by rewrite Hv].
  destruct (tree_eligible t tags Hv) as (gone & Hnd & Hin & ->).
  destruct (compact_removed t gone Ht Hnd) as (Hwf & Hn & Hd & Hs & _); [naive_solver|].
  split; [done|]. split; [exact (f_equal Some Hs)|]. exists (list_to_set gone). split_and!.
  - intros x. rewrite elem_of_list_to_set, Hin. naive_solver.
  - intros x. rewrite elem_of_list_to_set, Hin. naive_solver.
  - exact Hd.
  - by rewrite size_list_to_set.
Qed.

(** ** Every tree a program can build *)

(** The calls on a tree: what arrives and when, and the reads, which refresh caches. *)
Inductive tree_op :=
| TAdd (parent : Tag) (value : bytes) (now : option Z)
| TRemove (id : Tag) (now : option Z)
| TReceive (m : tree_msg * option Z)
| TNodes
| TState
| TCompact (tags : list Tag)
| TCompactEligible (tags : list Tag).

Definition tree_op_step (t : ptr ORTree) (o : tree_op) : ptr ORTree :=
  match o with
  | TAdd parent value now => (ORTree_Add t parent value now).1
  | TRemove id now => (ORTree_Remove t id now).1
  | TReceive m => (tree_receive t m).1
  | TNodes => (ORTree_Nodes t).1
  | TState => (ORTree_State t).1
  | TCompact tags => (ORTree_CompactTombstones t tags).1
  | TCompactEligible tags => (ORTree_CompactEligibleTombstones t tags).1
  end.

(** Parents are the root or valid tags, and tags and times are machine words. *)
Definition tree_op_ok (o : tree_op) : Prop :=
  match o with
  | TAdd parent _ now => parent_ok parent ∧ now_wf now
  | TRemove _ now => now_wf now
  | TReceive m => tree_msg_ok m
  | _ => True
  end.

Lemma tree_op_keeps n t o :
  tree_wf t ∧ cache_ok (S n) t → tree_op_ok o → ∃ t1, tree_op_step (Some t) o = Some t1 ∧ tree_wf t1 ∧ cache_ok n t1.
Proof.
  intros [Ht Hc] Ho. assert (∃ t1, Some t = Some t1 ∧ tree_wf t1 ∧ cache_ok n t1) as Hsame by (exists t; auto using cache_less).
  assert (∀ gone, NoDup gone → (∀ x, x ∈ gone → x ∈ ot_tombstones t) →
    ∃ t1, Some (tree_compact_remove t gone) = Some t1 ∧ tree_wf t1 ∧ cache_ok n t1) as Hgone.
  { intros gone Hnd Hg. destruct (compact_removed t gone Ht Hnd Hg) as (Hwf & _ & _ & _ & Hcache). eexists. auto. }
  assert (∀ d now, delta_wf d → now_wf now → ∃ t1, (ORTree_ApplyDelta (Some t) d now).1 = Some t1 ∧ tree_wf t1 ∧ cache_ok n t1) as Happly.
  { intros d now Hd Hnow.
    destruct (tree_ApplyDelta_cases t d now Ht Hd Hnow) as [(e & -> & _)|[(-> & _)|(h & -> & _ & Hwf)]]; [done|done|].
    eexists. auto using cache_write. }
  destruct o as [parent value now|id now|m| | |tags|tags]; cbn [tree_op_step tree_op_ok] in *.
  - destruct Ho as [Hp Hnow]. pose proof (Add_result t parent value now Ht Hnow Hp) as H.
    destruct (ORTree_Add _ _ _ _) as [t' [[id d]|e]]; [|by destruct H as [-> _]].
    destruct H as (_ & _ & _ & c & -> & Hwf & _). eexists. auto using cache_write.
  - destruct Ht as (h & Hh & Hinv) eqn:Et. clear Et. unfold ORTree_Remove. destruct (negb (Valid id)); [done|].
    destruct (_ || _) eqn:Hk; [done|]. apply orb_false_iff in Hk as [Hk%bool_decide_eq_false _].
    destruct (Happly (mkTreeDelta ∅ {[id]}) now) as (t1 & Ha & Hwf); [|done|].
    + split; [apply map_Forall_empty|]. cbn. intros x ->%elem_of_singleton. apply not_eq_None_Some in Hk as [m Hm].
      by destruct (inv_words _ _ _ Hinv id m Hm).
    + destruct (ORTree_ApplyDelta _ _ _) as [t' r]. cbn in Ha |- *. eauto.
  - rewrite tree_receive_delta. destruct Ho. by apply Happly.
  - destruct (ORTree_Nodes_shown n t (cache_less _ _ Hc)) as (t1 & -> & Hc1 & Ec & En & Ed). exists t1. split; [done|]. split; [|done].
    destruct Ht as (h & Hh & Hinv). exists h. rewrite Ec, En, Ed. done.
  - destruct (ORTree_State_counts n t (cache_less _ _ Hc)) as (t1 & -> & Hc1 & Ec & En & Ed). exists t1. split; [done|]. split; [|done].
    destruct Ht as (h & Hh & Hinv). exists h. rewrite Ec, En, Ed. done.
  - destruct (ORTree_CompactTombstones (Some t) tags) as [t' r] eqn:E. pose proof (tree_compacted t tags t' r Ht E) as H.
    destruct r as [k|e]; [|by destruct H as [-> _]]. destruct H as (gone & -> & _ & Hnd & Hin & _). apply Hgone; naive_solver.
  - destruct (forallb Valid tags) eqn:Hv; [|unfold ORTree_CompactEligibleTombstones; by rewrite Hv].
    destruct (tree_eligible t tags Hv) as (gone & Hnd & Hin & ->). apply Hgone; naive_solver.
Qed.

Lemma tree_ops_keep ops : ∀ t,
  tree_wf t → cache_ok (length ops) t → Forall tree_op_ok ops →
  ∃ t1, foldl tree_op_step (Some t) ops = Some t1 ∧ tree_wf t1 ∧ cache_ok 0 t1.
Proof.
  induction ops as [|o ops IH]; intros t Ht Hc Hops; [by exists t|]. apply Forall_cons in Hops as [Ho Hops].
  destruct (tree_op_keeps (length ops) t o (conj Ht Hc) Ho) as (t1 & E & Ht1 & Hc1). cbn [foldl]. rewrite E. by apply IH.
Qed.

(** C31: Every tree that any sequence of adds, removals, received deltas and states, reads
    and compactions builds from a new tree is well formed: every parent is the root or
    a valid tag other than the node, no circle of parents arises, no tag is ahead of the
    clock, and the cached projections are the current ones. The sequence is shorter
    than the version counter is wide, and added parents are not malformed. *)
Theorem ORTree_invariant (state : ClockState) (options : TreeOptions) (t : ORTree) (ops : list tree_op)
    (Hstate : is_u64 (cs_WallTime state) ∧ is_u64 (cs_Logical state))
    (Hnew : NewTreeFromClockWithOptions state options = Ok t) (Hops : Forall tree_op_ok ops)
    (Hlen : Z.of_nat (length ops) < 2 ^ 64) :
  ∃ t1, foldl tree_op_step (Some t) ops = Some t1 ∧ tree_wf t1 ∧ cache_ok 0 t1.
Proof.
  destruct (NewTree_wf state options t Hstate Hnew) as [Ht Hc]. by apply tree_ops_keep; [|apply Hc|].
Qed.

(** ** A branch that goes at once *)

Definition w_ops : list tree_op :=
  [TAdd zeroTag (str "r") (Some 5); TAdd w_root (str "l") (Some 6); TNodes; TRemove w_leaf (Some 9); TRemove w_root (Some 9)].
Definition w_removed : ptr ORTree := foldl tree_op_step (Some (w_new "a")) w_ops.

Lemma w_ops_ok : Forall tree_op_ok w_ops.
Proof.
  destruct w_times as (H5 & H6 & H9). unfold w_ops. rewrite !Forall_cons. cbn [tree_op_ok].
  split_and!; [by left|done|by right|done..|constructor].
Qed.

Lemma ORTree_invariant_witness : ∃ t, w_removed = Some t ∧ tree_wf t ∧ cache_ok 0 t.
Proof.
  apply (ORTree_invariant (mkClockState (str "a") 0 0) DefaultTreeOptions (w_new "a") w_ops);
    [vm_compute; split; split; (reflexivity || discriminate)|reflexivity|exact w_ops_ok|reflexivity].
Defined.

Lemma w_removed_wf : ∃ t, w_removed = Some t ∧ tree_wf t.
Proof.
  destruct w_new_wf as [[Ha Hca] _]. destruct (tree_ops_keep w_ops (w_new "a")) as (t & E & Ht & _);
    [exact Ha|do 4 apply cache_less; exact Hca|exact w_ops_ok|]. exists t. split; [exact E|exact Ht].
Qed.

Lemma ORTree_CompactEligible_spec_witness :
  ∃ t t' n, w_removed = Some t ∧ ORTree_CompactEligibleTombstones (Some t) [w_root; w_leaf] = (Some t', Ok n) ∧ n = 2 ∧
    shown (ot_nodes t') (ot_tombstones t') = shown (ot_nodes t) (ot_tombstones t).
Proof.
  destruct w_removed_wf as (t & Et & Ht).
  assert ((ORTree_CompactEligibleTombstones w_removed [w_root; w_leaf]).2 = Ok 2) as Hok by (vm_compute; reflexivity).
  rewrite Et in Hok. exists t. pose proof (ORTree_CompactEligible_spec t [w_root; w_leaf] Ht) as H.
  destruct (ORTree_CompactEligibleTombstones (Some t) _) as [t' [n|e]]; [|discriminate Hok]. injection Hok as ->.
  destruct H as (t1 & gone & -> & _ & _ & _ & _ & _ & Hs & _). exists t1, 2. split; [exact Et|]. split; [reflexivity|].
  split; [reflexivity|exact Hs].
Defined.
