(* ===== verification/ORTreeWire.v ===== *)
(** * Frames and snapshots of observed-remove trees

    Models src/tree/wire.go: nodes sorted by tag, each with its parent and value,
    then the sorted removals, within the decoder limits and, for a received state,
    within the limits of the receiver. *)

From S2P Require Import Prelude Tags Forest Clock Wire SortedCodec Frame Codec Snapshot ORTree.

(** ** Encoding *)

(** [sortedTreeNodeIDs]; [nodes[id]] is the zero node for an absent id. *)
Definition sortedTreeNodeIDs (nodes : gmap Tag storedNode) : list Tag := sort_by Compare (map_to_list nodes).*1.
Definition node_at (nodes : gmap Tag storedNode) (id : Tag) : storedNode := default (mkStored zeroTag []) (nodes !! id).

(** [hasCompleteTreeParents] *)
Definition hasCompleteTreeParents (nodes : gmap Tag storedNode) : bool :=
  forallb (λ e : Tag * storedNode, negb (Valid (tn_parent e.2)) || bool_decide (is_Some (nodes !! tn_parent e.2)))
    (map_to_list nodes).

(** [addTreeIDSize] *)
Definition addTreeIDSize (payloadSize : Z) (id : Tag) (limits : DecoderLimits) : result Z :=
  if MaxStringBytes limits <? len (ReplicaID id) then Err ErrFrameLimit
  else if MaxPayload limits - payloadSize <? TagSize id then Err ErrFrameLimit
  else Ok (payloadSize + TagSize id).

(** The size loop of [marshalTreeWithLimits] over the nodes. *)
Fixpoint treeNodesSize (nodes : gmap Tag storedNode) (limits : DecoderLimits) (ids : list Tag) (payloadSize : Z) : result Z :=
  match ids with
  | [] => Ok payloadSize
  | id :: ids' =>
      let n := node_at nodes id in
      payloadSize ← addTreeIDSize payloadSize id limits;
      let additional := UvarintSize (len (tn_value n)) in
      additional ← (if Valid (tn_parent n)
        then if MaxStringBytes limits <? len (ReplicaID (tn_parent n)) then Err ErrFrameLimit
             else Ok (additional + (1 + TagSize (tn_parent n)))
        else Ok (additional + 1));
      if (MaxStringBytes limits <? len (tn_value n)) || (MaxPayload limits - additional <? len (tn_value n)) ||
         (MaxPayload limits - payloadSize - len (tn_value n) <? additional)
      then Err ErrFrameLimit
      else treeNodesSize nodes limits ids' (payloadSize + (additional + len (tn_value n)))
  end.

(** The size loop over the removals. *)
Fixpoint treeTombstonesSize (limits : DecoderLimits) (ids : list Tag) (payloadSize : Z) : result Z :=
  match ids with
  | [] => Ok payloadSize
  | id :: ids' => payloadSize ← addTreeIDSize payloadSize id limits; treeTombstonesSize limits ids' payloadSize
  end.

(** The appends of one node. *)
Definition appendTreeNode (nodes : gmap Tag storedNode) (output : bytes) (id : Tag) : bytes :=
  let n := node_at nodes id in
  let output := AppendTag output id in
  let output := if Valid (tn_parent n) then AppendTag (AppendUvarint output 1) (tn_parent n) else AppendUvarint output 0 in
  AppendUvarint output (len (tn_value n)) ++ tn_value n.

(** [marshalTreeWithLimits] *)
Definition marshalTreeWithLimits (typeID : Z) (nodes : gmap Tag storedNode) (tombstones : gset Tag) (limits : DecoderLimits)
    : result bytes :=
  _ ← validateTree (mkTreeDelta nodes tombstones);
  if (typeID =? TypeIDORTreeState) && negb (hasCompleteTreeParents nodes) then Err (ErrTree TreeIncomplete)
  else if (MaxElements limits <? Z.of_nat (size nodes)) || (MaxTags limits <? Z.of_nat (size nodes)) ||
          (MaxTags limits - Z.of_nat (size nodes) <? Z.of_nat (size tombstones))
  then Err ErrFrameLimit
  else
    let nodeIDs := sortedTreeNodeIDs nodes in
    let tombstoneIDs := sortedTreeTombstoneIDs tombstones in
    payloadSize ← treeNodesSize nodes limits nodeIDs (UvarintSize (len nodeIDs));
    let additional := UvarintSize (len tombstoneIDs) in
    if MaxPayload limits - payloadSize <? additional then Err ErrFrameLimit
    else
      payloadSize ← treeTombstonesSize limits tombstoneIDs (payloadSize + additional);
      let output := foldl (appendTreeNode nodes) (AppendUvarint [] (len nodeIDs)) nodeIDs in
      let output := foldl AppendTag (AppendUvarint output (len tombstoneIDs)) tombstoneIDs in
      MarshalFrameWithPayloadAndLimits typeID [] payloadSize limits (exactWriter output payloadSize).

(** [ORTree.MarshalBinaryWithLimits], [ORTree.MarshalBinary] *)
Definition ORTree_MarshalBinaryWithLimits (t : ptr ORTree) (limits : DecoderLimits) : result bytes :=
  match t with
  | None => Err (ErrTree NilTree)
  | Some t => marshalTreeWithLimits TypeIDORTreeState (ot_nodes t) (ot_tombstones t) limits
  end.
Definition ORTree_MarshalBinary (t : ptr ORTree) : result bytes := ORTree_MarshalBinaryWithLimits t DefaultLimits.

(** [Delta.MarshalBinaryWithLimits], [Delta.MarshalBinary] *)
Definition ORTreeDelta_MarshalBinaryWithLimits (d : ORTreeDelta) (limits : DecoderLimits) : result bytes :=
  _ ← validateTree d; marshalTreeWithLimits TypeIDORTreeDelta (td_nodes d) (td_tombstones d) limits.
Definition ORTreeDelta_MarshalBinary (d : ORTreeDelta) : result bytes := ORTreeDelta_MarshalBinaryWithLimits d DefaultLimits.

(** [ORTree.MarshalBinaryWithClockStateAndLimits], [ORTree.MarshalBinaryWithClockState];
    the clock state is returned with an error of the encoder too. *)
Definition ORTree_MarshalBinaryWithClockStateAndLimits (t : ptr ORTree) (limits : DecoderLimits) : result bytes * ClockState :=
  match t with
  | None => (Err (ErrTree NilTree), zeroClockState)
  | Some ot =>
      match ot_clock ot with
      | None => (Err (ErrTree NilTree), zeroClockState)
      | Some _ => (marshalTreeWithLimits TypeIDORTreeState (ot_nodes ot) (ot_tombstones ot) limits, HLC_Snapshot (ot_clock ot))
      end
  end.
Definition ORTree_MarshalBinaryWithClockState (t : ptr ORTree) : result bytes * ClockState :=
  ORTree_MarshalBinaryWithClockStateAndLimits t DefaultLimits.

(** ** Decoding *)

(** One iteration of the loop over the nodes: the accumulator is [nodes] and
    [previous]. *)
Definition treeNodeStep (payload : bytes) (limits : DecoderLimits) (options : option TreeOptions) (i : Z)
    (acc : gmap Tag storedNode * Tag) (p : Z) : result ((gmap Tag storedNode * Tag) * Z) :=
  let '(nodes, previous) := acc in
  match ReadTag payload p (MaxStringBytes limits) with
  | None => Err ErrInvalidFrame
  | Some (id, p) =>
      if (0 <? i) && (0 <=? Compare previous id) then Err ErrInvalidFrame
      else match ReadUvarint payload p with
      | None => Err ErrInvalidFrame
      | Some (flag, p) =>
          if 1 <? flag then Err ErrInvalidFrame
          else match (if flag =? 1 then ReadTag payload p (MaxStringBytes limits) else Some (zeroTag, p)) with
          | None => Err ErrInvalidFrame
          | Some (parent, p) =>
              match ReadBytes payload p (MaxStringBytes limits) with
              | None => Err ErrInvalidFrame
              | Some (value, p) =>
                  if match options with None => false | Some o => to_MaxValueBytes o <? len value end
                  then Err (ErrTree TreeLimit)
                  else Ok ((<[id := mkStored parent value]> nodes, id), p)
              end
          end
      end
  end.

(** One iteration of the loop over the removals. *)
Definition treeTombStep (payload : bytes) (limits : DecoderLimits) (i : Z) (acc : gset Tag * Tag) (p : Z)
    : result ((gset Tag * Tag) * Z) :=
  let '(tombstones, previousTomb) := acc in
  match ReadTag payload p (MaxStringBytes limits) with
  | None => Err ErrInvalidFrame
  | Some (id, p) =>
      if (0 <? i) && (0 <=? Compare previousTomb id) then Err ErrInvalidFrame
      else Ok (({[id]} ∪ tombstones, id), p)
  end.

(** [unmarshalTreePayload] *)
Definition unmarshalTreePayload (payload : bytes) (limits : DecoderLimits) (options : option TreeOptions) : result ORTreeDelta :=
  match ReadUvarint payload 0 with
  | None => Err ErrInvalidFrame
  | Some (count, p) =>
      if (MaxElements limits <? count) || (MaxTags limits <? count) then Err ErrInvalidFrame
      else if match options with None => false | Some o => u64 (to_MaxNodes o) <? count end then Err (ErrTree TreeLimit)
      else
        '(nodes, _, p) ← read_loop (treeNodeStep payload limits options) (S (length payload)) 0 count p (∅, zeroTag);
        match ReadUvarint payload p with
        | None => Err ErrInvalidFrame
        | Some (tombs, p) =>
            if MaxTags limits - count <? tombs then Err ErrInvalidFrame
            else if match options with None => false | Some o => u64 (to_MaxTombstones o) <? tombs end then Err (ErrTree TreeLimit)
            else
              '(tombstones, _, p) ← read_loop (treeTombStep payload limits) (S (length payload)) 0 tombs p (∅, zeroTag);
              let delta := mkTreeDelta nodes tombstones in
              if negb (p =? len payload) || negb (is_ok (validateTree delta)) || negb (acyclic nodes ∅)
              then Err ErrInvalidFrame else Ok delta
        end
  end.

Section unmarshal.
Context `{F : Flate}.

(** [unmarshalTree] *)
Definition unmarshalTree (data : bytes) (typeID : Z) (limits : DecoderLimits) (options : option TreeOptions) : result ORTreeDelta :=
  f ← UnmarshalFrameView data limits;
  if negb (TypeID f =? typeID) || negb (bool_decide (CodecID f = [])) then Err ErrInvalidFrame
  else unmarshalTreePayload (Payload f) limits options.

(** [UnmarshalDeltaWithLimits], [UnmarshalDelta] *)
Definition UnmarshalTreeDeltaWithLimits (data : bytes) (limits : DecoderLimits) : result ORTreeDelta :=
  unmarshalTree data TypeIDORTreeDelta limits None.
Definition UnmarshalTreeDelta (data : bytes) : result ORTreeDelta := UnmarshalTreeDeltaWithLimits data DefaultLimits.

(** [ORTree.UnmarshalBinaryWithLimits], [ORTree.UnmarshalBinary] *)
Definition ORTree_UnmarshalBinaryWithLimits (t : ptr ORTree) (data : bytes) (limits : DecoderLimits) (now : option Z)
    : ptr ORTree * result unit :=
  match t with
  | None => (None, Err (ErrTree NilTree))
  | Some ot =>
      match ot_clock ot with
      | None => (t, Err (ErrTree NilTree))
      | Some _ =>
          match unmarshalTree data TypeIDORTreeState limits (Some (ot_options ot)) with
          | Err e => (t, Err e)
          | Ok delta =>
              if negb (hasCompleteTreeParents (td_nodes delta)) then (t, Err ErrInvalidFrame)
              else
                let '(hlc, r) := match tree_greatest delta with
                  | None => (ot_clock ot, Ok tt)
                  | Some tag => Witness (ot_clock ot) tag now
                  end in
                match r with
                | Err e => (Some (tree_with ot hlc (ot_nodes ot) (ot_tombstones ot) false), Err e)
                | Ok _ => (Some (tree_with ot hlc (td_nodes delta) (td_tombstones delta) true), Ok tt)
                end
          end
      end
  end.
Definition ORTree_UnmarshalBinary (t : ptr ORTree) (data : bytes) (now : option Z) : ptr ORTree * result unit :=
  ORTree_UnmarshalBinaryWithLimits t data DefaultLimits now.

(** ** Snapshots *)

(** [treeFrontier]; [recordTreeFrontier] is [frontier_step]. *)
Definition treeFrontier (nodes : gmap Tag storedNode) (tombstones : gset Tag) : gmap bytes Tag :=
  let record frontier (e : Tag * storedNode) :=
    let frontier := frontier_step frontier e.1 in
    if Valid (tn_parent e.2) then frontier_step frontier (tn_parent e.2) else frontier in
  foldl frontier_step (foldl record ∅ (map_to_list nodes)) (elements tombstones).

(** [validateTreeState] *)
Definition validateTreeState (data : bytes) : result unit :=
  match unmarshalTree data TypeIDORTreeState DefaultLimits None with
  | Err _ => Err ErrInvalidFrame
  | Ok delta => if negb (hasCompleteTreeParents (td_nodes delta)) then Err ErrInvalidFrame else Ok tt
  end.

(** [ORTree.SnapshotCurrentStateWithLimits], [ORTree.SnapshotCurrentState] *)
Definition ORTree_SnapshotCurrentStateWithLimits (t : ptr ORTree) (limits : DecoderLimits) : result Snapshot :=
  match t with
  | None => Err (ErrTree NilTree)
  | Some ot =>
      match ot_clock ot with
      | None => Err (ErrTree NilTree)
      | Some _ =>
          state ← marshalTreeWithLimits TypeIDORTreeState (ot_nodes ot) (ot_tombstones ot) limits;
          NewValidatedWithClockState state (treeFrontier (ot_nodes ot) (ot_tombstones ot)) (HLC_Snapshot (ot_clock ot))
            (Some validateTreeState)
      end
  end.
Definition ORTree_SnapshotCurrentState (t : ptr ORTree) : result Snapshot :=
  ORTree_SnapshotCurrentStateWithLimits t DefaultLimits.

(** [NewFromSnapshotWithOptionsAndLimits], [NewFromSnapshotWithOptions], [NewFromSnapshot] *)
Definition NewTreeFromSnapshotWithOptionsAndLimits (saved : Snapshot) (options : TreeOptions) (limits : DecoderLimits)
    (now : option Z) : result ORTree :=
  if negb (sn_TypeID saved =? TypeIDORTreeState) then Err (ErrTree TreeDelta)
  else match sn_clockState saved with
  | None => Err (ErrTree TreeDelta)
  | Some state =>
      t ← NewTreeFromClockWithOptions state options;
      match ORTree_UnmarshalBinaryWithLimits (Some t) (sn_state saved) limits now with
      | (_, Err e) => Err e
      | (Some t, Ok _) => Ok t
      | (None, Ok _) => Err (ErrTree NilTree)
      end
  end.
Definition NewTreeFromSnapshotWithOptions (saved : Snapshot) (options : TreeOptions) (now : option Z) : result ORTree :=
  NewTreeFromSnapshotWithOptionsAndLimits saved options DefaultLimits now.
Definition NewTreeFromSnapshot (saved : Snapshot) (now : option Z) : result ORTree :=
  NewTreeFromSnapshotWithOptionsAndLimits saved DefaultTreeOptions DefaultLimits now.
End unmarshal.
