(* ===== verification/ORTreeCodec.v ===== *)
(** * The canonical bytes of observed-remove trees

    The encoder and the decoder of ORTreeWire.v agree on one payload per tree, and
    a saved tree is restored as it was. *)

From S2P Require Import Prelude Tags Forest Clock Lattice Wire SortedCodec Frame Codec ORSet ORSetCodec Snapshot ORTree ORTreeTheory ORTreeReplication ORTreeWire.

(** ** The payload of a tree *)

Definition parent_enc (p : Tag) : bytes := if Valid p then putUvarint 1 ++ tag_enc p else putUvarint 0.
Definition node_enc (e : Tag * storedNode) : bytes := tag_enc e.1 ++ parent_enc (tn_parent e.2) ++ bytes_enc (tn_value e.2).
Definition tree_payload (nodes : gmap Tag storedNode) (dead : gset Tag) : bytes :=
  putUvarint (Z.of_nat (size nodes)) ++ concat (node_enc <$> sorted_entries Compare nodes) ++
  putUvarint (Z.of_nat (size dead)) ++ concat (tag_enc <$> sortedTreeTombstoneIDs dead).

Lemma node_enc_pos e : 1 <= len (node_enc e).
Proof.
  unfold node_enc. rewrite !len_app. pose proof (tag_enc_pos e.1). pose proof (len_nonneg (parent_enc (tn_parent e.2))).
  pose proof (bytes_enc_pos (tn_value e.2)). lia.
Qed.

(** What the encoder demands of a node beyond its validity. *)
Definition node_fits (limits : DecoderLimits) (e : Tag * storedNode) : Prop :=
  len (ReplicaID e.1) <= MaxStringBytes limits ∧
  (Valid (tn_parent e.2) = true → len (ReplicaID (tn_parent e.2)) <= MaxStringBytes limits) ∧
  len (tn_value e.2) <= MaxStringBytes limits.

Lemma sorted_nodes nodes : (λ id, (id, node_at nodes id)) <$> sortedTreeNodeIDs nodes = sorted_entries Compare nodes.
Proof.
  unfold sortedTreeNodeIDs. rewrite <-(sorted_entries_keys Compare nodes), <-list_fmap_compose.
  rewrite <-(list_fmap_id (sorted_entries Compare nodes)) at 2. apply list_fmap_ext.
  intros i [id n] Hin%list_elem_of_lookup_2%(elem_of_sorted_entries Compare). cbn. unfold node_at. by rewrite Hin.
Qed.

Lemma len_sorted_ids nodes : len (sortedTreeNodeIDs nodes) = Z.of_nat (size nodes).
Proof. rewrite <-(len_sorted_entries Compare nodes), <-sorted_nodes. by rewrite len_fmap. Qed.

Lemma len_sorted_dead (dead : gset Tag) : len (sortedTreeTombstoneIDs dead) = Z.of_nat (size dead).
Proof. unfold sortedTreeTombstoneIDs, len. by rewrite (Permutation_length (sort_by_perm Compare _)). Qed.

Lemma addTreeIDSize_iff n id limits r :
  addTreeIDSize n id limits = Ok r ↔
  len (ReplicaID id) <= MaxStringBytes limits ∧ r = n + len (tag_enc id) ∧ r <= MaxPayload limits.
Proof. unfold addTreeIDSize. rewrite len_tag_enc. split; [guards; intros [= <-]; lia|]. intros (? & -> & ?). guard_false. by guard_false. Qed.

Lemma treeTombstonesSize_iff limits ids n r :
  treeTombstonesSize limits ids n = Ok r ↔
  r = n + len (concat (tag_enc <$> ids)) ∧ Forall (λ id, len (ReplicaID id) <= MaxStringBytes limits) ids ∧
  (ids = [] ∨ r <= MaxPayload limits).
Proof.
  revert n. induction ids as [|id ids IH]; intros n; cbn [treeTombstonesSize].
  - cbn. rewrite len_nil, Z.add_0_r. split; [intros [= <-]; auto|by intros (-> & _)].
  - rewrite bind_Ok, fmap_cons, Forall_cons. cbn [concat]. rewrite len_app. setoid_rewrite addTreeIDSize_iff. setoid_rewrite IH.
    pose proof (len_nonneg (concat (tag_enc <$> ids))). split.
    + intros (m & (? & -> & ?) & -> & ? & Hm). split; [lia|]. split; [done|]. right. destruct Hm as [->|]; [rewrite fmap_nil; cbn [concat]; rewrite len_nil|]; lia.
    + intros (-> & [? ?] & [|?]); [done|]. exists (n + len (tag_enc id)). split; [lia|]. split; [lia|]. split; [done|]. right. lia.
Qed.

Lemma treeNodesSize_iff nodes limits ids n r :
  0 <= n →
  let es := (λ id, (id, node_at nodes id)) <$> ids in
  treeNodesSize nodes limits ids n = Ok r ↔
  r = n + len (concat (node_enc <$> es)) ∧ Forall (node_fits limits) es ∧ (ids = [] ∨ r <= MaxPayload limits).
Proof.
  cbv zeta. revert n. induction ids as [|id ids IH]; intros n Hn; cbn [treeNodesSize].
  - cbn. rewrite len_nil, Z.add_0_r. split; [intros [= <-]; auto|by intros (-> & _)].
  - rewrite !fmap_cons, Forall_cons. cbn [concat]. rewrite len_app. set (rest := concat _).
    generalize (node_at nodes id). intros v. pose proof (len_nonneg rest). pose proof (len_nonneg (tag_enc id)) as Htag.
    pose proof (len_nonneg (tn_value v)).
    assert (len (node_enc (id, v)) = len (tag_enc id) + len (parent_enc (tn_parent v)) + (UvarintSize (len (tn_value v)) + len (tn_value v))) as Hlen
      by (unfold node_enc; rewrite !len_app, len_bytes_enc; cbn; lia).
    assert (1 <= len (parent_enc (tn_parent v))) as Hpe.
    { unfold parent_enc. destruct (Valid _); [|done]. rewrite len_app. pose proof (len_nonneg (tag_enc (tn_parent v))).
      change (len (putUvarint 1)) with 1. lia. }
    pose proof (putUvarint_pos (len (tn_value v))) as Hu. fold (UvarintSize (len (tn_value v))) in Hu.
    assert (Valid (tn_parent v) = true → len (parent_enc (tn_parent v)) = 1 + TagSize (tn_parent v)) as Hp1
      by (unfold parent_enc; intros ->; by rewrite len_app, len_tag_enc).
    assert (Valid (tn_parent v) = false → len (parent_enc (tn_parent v)) = 1) as Hp0 by (unfold parent_enc; by intros ->).
    rewrite bind_Ok. setoid_rewrite addTreeIDSize_iff. unfold node_fits at 1. cbn [fst snd].
    split.
    + intros (m & (Hid & -> & Hm) & (a & Ha & Hrest)%bind_Ok).
      assert (a = UvarintSize (len (tn_value v)) + len (parent_enc (tn_parent v)) ∧
        (Valid (tn_parent v) = true → len (ReplicaID (tn_parent v)) <= MaxStringBytes limits)) as [-> Hpar].
      { destruct (Valid (tn_parent v)); [|injection Ha as <-; rewrite Hp0 by done; split; [lia|done]].
        rewrite Hp1 by done. revert Ha. guard_step. breflect. intros [= <-]. split; [lia|done]. }
      revert Hrest. guard_step. breflect. rewrite IH by lia. fold rest. intros (-> & Hf & Hr).
      split; [lia|]. split; [done|]. right. destruct Hr as [->|]; [change (len rest) with 0|]; lia.
    + intros (-> & [(Hid & Hpar & Hval) Hf] & [|Hr]); [done|]. exists (n + len (tag_enc id)). split; [lia|].
      apply bind_Ok. exists (UvarintSize (len (tn_value v)) + len (parent_enc (tn_parent v))). split.
      * destruct (Valid (tn_parent v)) eqn:Hv; [|by rewrite Hp0]. specialize (Hpar eq_refl). guard_false.
        by rewrite Hp1.
      * guard_false. apply IH; [lia|]. fold rest. split; [lia|]. split; [done|]. right. lia.
Qed.

Lemma appendTreeNode_fold nodes ids dst :
  foldl (appendTreeNode nodes) dst ids = dst ++ concat (node_enc <$> ((λ id, (id, node_at nodes id)) <$> ids)).
Proof.
  revert dst. induction ids as [|id ids IH]; intros dst; [by rewrite app_nil_r|]. rewrite !fmap_cons. cbn [foldl concat].
  rewrite IH, app_assoc. f_equal. unfold appendTreeNode, node_enc, parent_enc, bytes_enc. cbn [fst snd].
  destruct (Valid _); rewrite ?AppendTag_enc; unfold AppendUvarint; by rewrite <-!app_assoc.
Qed.

Definition tree_fits (limits : DecoderLimits) (nodes : gmap Tag storedNode) (dead : gset Tag) : Prop :=
  (Z.of_nat (size nodes) <= MaxElements limits ∧ Z.of_nat (size nodes) + Z.of_nat (size dead) <= MaxTags limits) ∧
  map_Forall (λ id n, node_fits limits (id, n)) nodes ∧ (∀ id, id ∈ dead → len (ReplicaID id) <= MaxStringBytes limits).

Lemma len_tree_payload nodes dead :
  len (tree_payload nodes dead) = UvarintSize (Z.of_nat (size nodes)) + len (concat (node_enc <$> sorted_entries Compare nodes)) +
    UvarintSize (Z.of_nat (size dead)) + len (concat (tag_enc <$> sortedTreeTombstoneIDs dead)).
Proof. unfold tree_payload, UvarintSize. rewrite !len_app. lia. Qed.

(** The two size loops and the writer produce the payload, which the frame bounds. *)
Lemma tree_sizes typeID nodes dead limits data :
  (n ← treeNodesSize nodes limits (sortedTreeNodeIDs nodes) (UvarintSize (Z.of_nat (size nodes)));
   if MaxPayload limits - n <? UvarintSize (Z.of_nat (size dead)) then Err ErrFrameLimit
   else
     n ← treeTombstonesSize limits (sortedTreeTombstoneIDs dead) (n + UvarintSize (Z.of_nat (size dead)));
     MarshalFrameWithPayloadAndLimits typeID [] n limits (exactWriter (tree_payload nodes dead) n)) = Ok data ↔
  Forall (node_fits limits) (sorted_entries Compare nodes) ∧
  Forall (λ id, len (ReplicaID id) <= MaxStringBytes limits) (sortedTreeTombstoneIDs dead) ∧
  MarshalFrameWithPayloadAndLimits typeID [] (len (tree_payload nodes dead)) limits (copyWriter (tree_payload nodes dead)) = Ok data.
Proof.
  pose proof (len_tree_payload nodes dead) as Hlen. rewrite <-exactWriter_copy, bind_Ok.
  setoid_rewrite treeNodesSize_iff; [|apply len_nonneg]. rewrite sorted_nodes.
  set (e1 := concat (node_enc <$> _)) in *. set (e2 := concat (tag_enc <$> _)) in *.
  pose proof (len_nonneg e1). pose proof (len_nonneg e2). pose proof (putUvarint_pos (Z.of_nat (size dead))) as Hd.
  fold (UvarintSize (Z.of_nat (size dead))) in Hd. split.
  - intros (n & (-> & Hf & _) & Hrest). revert Hrest. guard_step. breflect.
    intros (m & (-> & Hf2 & _)%treeTombstonesSize_iff & Hm)%bind_Ok. fold e2 in Hm. rewrite <-Hlen in Hm. done.
  - intros (Hf & Hf2 & Hm). assert (len (tree_payload nodes dead) <= MaxPayload limits) as Hmax
      by (rewrite exactWriter_copy in Hm; apply marshal_v1_iff in Hm; naive_solver).
    eexists. split; [split; [done|]; split; [done|]; right; lia|]. guard_false. apply bind_Ok.
    exists (len (tree_payload nodes dead)). split; [|done]. apply treeTombstonesSize_iff. fold e2.
    split; [lia|]. split; [done|]. right. lia.
Qed.

(** What the encoder accepts and produces. *)
Lemma marshalTree_iff typeID nodes dead limits data :
  marshalTreeWithLimits typeID nodes dead limits = Ok data ↔
  validateTree (mkTreeDelta nodes dead) = Ok tt ∧ (typeID = TypeIDORTreeState → hasCompleteTreeParents nodes = true) ∧
  tree_fits limits nodes dead ∧
  MarshalFrameWithPayloadAndLimits typeID [] (len (tree_payload nodes dead)) limits (copyWriter (tree_payload nodes dead)) = Ok data.
Proof.
  unfold marshalTreeWithLimits, tree_fits. destruct (validateTree _) as [[]|]; [|naive_solver]. cbn [mbind result_bind].
  rewrite len_sorted_ids, len_sorted_dead, appendTreeNode_fold, AppendTag_fold, sorted_nodes.
  assert (AppendUvarint (AppendUvarint [] (Z.of_nat (size nodes)) ++ concat (node_enc <$> sorted_entries Compare nodes))
    (Z.of_nat (size dead)) ++ concat (tag_enc <$> sortedTreeTombstoneIDs dead) = tree_payload nodes dead) as ->
    by (unfold tree_payload, AppendUvarint; by rewrite <-!app_assoc).
  pose proof (tree_sizes typeID nodes dead limits data) as Hsz. rewrite Forall_sorted_entries in Hsz.
  assert (Forall (λ id, len (ReplicaID id) <= MaxStringBytes limits) (sortedTreeTombstoneIDs dead) ↔
    ∀ id, id ∈ dead → len (ReplicaID id) <= MaxStringBytes limits) as Hdf.
  { unfold sortedTreeTombstoneIDs. rewrite (sort_by_perm Compare), Forall_forall. by setoid_rewrite elem_of_elements. }
  rewrite Hdf in Hsz. destruct (Z.eqb_spec typeID TypeIDORTreeState) as [->|Hne], (hasCompleteTreeParents nodes) eqn:Hcomp; cbn [andb negb];
    try (split; [done|]; naive_solver);
    (destruct (_ || _) eqn:G; [split; [done|]; intros (_ & _ & ((? & ?) & _) & _); breflect; destruct G; breflect; lia|]);
    breflect; rewrite Hsz; (split; [intros (? & ? & ?); split_and!; [done|done|lia|lia|done..]|naive_solver]).
Qed.

(** ** Decoding *)

Section decode.
Context (payload : bytes) (limits : DecoderLimits) (options : option TreeOptions).

(** The node entries the decoder accepts. *)
Definition node_read (e : Tag * storedNode) : Prop :=
  tag_ok (MaxStringBytes limits) e.1 ∧ (tn_parent e.2 = zeroTag ∨ tag_ok (MaxStringBytes limits) (tn_parent e.2)) ∧
  (len_ok (tn_value e.2) ∧ len (tn_value e.2) <= MaxStringBytes limits) ∧
  match options with None => True | Some o => len (tn_value e.2) <= to_MaxValueBytes o end.

Lemma treeNodeStep_iff i nodes previous pos r :
  0 <= pos <= len payload →
  treeNodeStep payload limits options i (nodes, previous) pos = Ok r ↔
  ∃ e rest, node_read e ∧ ((0 <? i) && (0 <=? Compare previous e.1) = false) ∧
    r = ((<[e.1 := e.2]> nodes, e.1), pos + len (node_enc e)) ∧ remaining payload pos (node_enc e ++ rest).
Proof.
  intros Hp. unfold treeNodeStep, node_enc. split.
  - destruct (ReadTag payload pos _) as [[id p1]|] eqn:R1; [|done].
    apply ReadTag_inv in R1 as (Hw & Hv & Hl & Hm & -> & r1 & Hr1 & _). destruct (_ && _) eqn:G; [done|].
    destruct (ReadUvarint payload _) as [[flag p2]|] eqn:R2; [|done].
    apply ReadUvarint_inv in R2 as (Hu & -> & r2 & Hr2 & Hr2'). guard_step. breflect.
    destruct (if flag =? 1 then _ else _) as [[parent p3]|] eqn:R3; [|done].
    destruct (ReadBytes payload p3 _) as [[value p4]|] eqn:R4; [|done].
    apply ReadBytes_inv in R4 as (Hvl & Hvm & -> & r4 & Hr4 & _).
    assert ((parent = zeroTag ∨ tag_ok (MaxStringBytes limits) parent) ∧ ∃ r3,
      p3 = pos + TagSize id + len (parent_enc parent) ∧ remaining payload (pos + TagSize id) (parent_enc parent ++ r3)) as (Hpar & r3 & -> & Hr3).
    { unfold parent_enc. destruct (Z.eqb_spec flag 1) as [->|Hne].
      - apply ReadTag_inv in R3 as (? & Hpv & ? & ? & -> & r3 & Hr3 & _). split; [by right|]. rewrite Hpv. exists r3.
        rewrite len_app, len_tag_enc, <-app_assoc. split; [unfold UvarintSize; lia|]. by eapply remaining_cons.
      - unfold is_u64 in Hu. assert (flag = 0) as -> by lia. injection R3 as <- <-. split; [by left|]. exists r2. done. }
    guard_step. intros [= <-]. exists (id, mkStored parent value), r4. cbn [fst snd tn_parent tn_value].
    rewrite !len_app, len_tag_enc, <-!app_assoc. split; [split_and!; try done; destruct options; breflect; done|].
    split; [done|]. split; [f_equal; lia|]. eapply remaining_cons; [exact Hr1|]. rewrite len_tag_enc.
    by eapply remaining_cons.
  - intros ([id [parent value]] & rest & ((Hw & Hv & Hl & Hm) & Hpar & [Hvl Hvm] & Hopt) & G & -> & Hr).
    cbn [fst snd tn_parent tn_value] in *. rewrite <-!app_assoc in Hr.
    apply (ReadTag_ok _ _ (MaxStringBytes limits)) in Hr as [-> Hr]; [|done..]. rewrite G.
    assert (match options with None => false | Some o => to_MaxValueBytes o <? len value end = false) as Hopt'
      by (destruct options; [by apply Z.ltb_ge|done]).
    unfold parent_enc in *. destruct Hpar as [->|(Hpw & Hpv & Hpl & Hpm)].
    + change (Valid zeroTag) with false in *. apply ReadUvarint_ok in Hr as [-> Hr]; [|done]. cbn [Z.ltb Z.eqb Z.compare].
      apply (ReadBytes_ok _ _ (MaxStringBytes limits)) in Hr as [-> _]; [|done..]. rewrite Hopt'.
      rewrite !len_app, len_tag_enc. do 2 f_equal. unfold UvarintSize. lia.
    + rewrite Hpv in *. rewrite <-app_assoc in Hr. apply ReadUvarint_ok in Hr as [-> Hr]; [|done]. cbn [Z.ltb Z.eqb Z.compare Pos.eqb Pos.compare Pos.compare_cont].
      apply (ReadTag_ok _ _ (MaxStringBytes limits)) in Hr as [-> Hr]; [|done..].
      apply (ReadBytes_ok _ _ (MaxStringBytes limits)) in Hr as [-> _]; [|done..]. rewrite Hopt'.
      rewrite !len_app, !len_tag_enc. do 2 f_equal. unfold UvarintSize. lia.
Qed.

Lemma treeTombStep_live i acc pos : treeTombStep payload limits i acc pos = tombstoneStep payload (MaxStringBytes limits) ∅ i acc pos.
Proof. by destruct acc. Qed.
End decode.

(** The removals of a payload. *)
Lemma treeTombs_iff payload limits count pos dead prev pos' :
  0 <= count → 0 <= pos <= len payload →
  read_loop (treeTombStep payload limits) (S (length payload)) 0 count pos (∅, zeroTag) = Ok ((dead, prev), pos') ↔
  ∃ rest, (∀ id, id ∈ dead → tag_ok (MaxStringBytes limits) id) ∧ Z.of_nat (size dead) = count ∧
    prev = default zeroTag (last (sortedTreeTombstoneIDs dead)) ∧
    pos' = pos + len (concat (tag_enc <$> sortedTreeTombstoneIDs dead)) ∧
    remaining payload pos (concat (tag_enc <$> sortedTreeTombstoneIDs dead) ++ rest).
Proof.
  intros Hc Hp. assert (∀ fuel i p acc, read_loop (treeTombStep payload limits) fuel i count p acc =
    read_loop (tombstoneStep payload (MaxStringBytes limits) ∅) fuel i count p acc) as ->.
  { induction fuel as [|fuel IH]; intros i p acc; [done|]. cbn [read_loop]. rewrite treeTombStep_live.
    destruct (i <? count); [|done]. destruct (tombstoneStep _ _ _ _ _ _) as [[acc' p']|]; [apply IH|done]. }
  rewrite tombstones_iff by done. split.
  - intros (l & rest & [Hi Hok] & <- & [= -> ->] & -> & Hr).
    assert (sortedTreeTombstoneIDs (list_to_set l) = l) as Hl.
    { apply (increasing_sort_by Compare); [done|]. symmetry. apply elements_list_to_set. by apply (increasing_NoDup Compare). }
    rewrite Hl. exists rest. split; [|split; [|done]].
    + intros id Hid%elem_of_list_to_set. rewrite Forall_forall in Hok. by apply Hok.
    + by rewrite <-len_sorted_dead, Hl.
  - intros (rest & Hok & <- & -> & -> & Hr). exists (sortedTreeTombstoneIDs dead), rest. rewrite len_sorted_dead.
    unfold tomb_acc. assert (list_to_set (sortedTreeTombstoneIDs dead) = dead) as ->.
    { apply set_eq. intros id. unfold sortedTreeTombstoneIDs. by rewrite elem_of_list_to_set, (sort_by_perm Compare), elem_of_elements. }
    split; [|done]. split; [apply (sort_by_increasing Compare), NoDup_elements|]. apply Forall_forall. intros id.
    unfold sortedTreeTombstoneIDs. rewrite (sort_by_perm Compare), elem_of_elements. intros Hid. split; [auto|apply not_elem_of_empty].
Qed.

(** What a payload has to be. *)
Record tree_read (limits : DecoderLimits) (options : option TreeOptions) (d : ORTreeDelta) : Prop := {
  read_sizes : Z.of_nat (size (td_nodes d)) <= MaxElements limits ∧
    Z.of_nat (size (td_nodes d)) + Z.of_nat (size (td_tombstones d)) <= MaxTags limits;
  read_options : match options with None => True | Some o =>
    Z.of_nat (size (td_nodes d)) <= u64 (to_MaxNodes o) ∧ Z.of_nat (size (td_tombstones d)) <= u64 (to_MaxTombstones o) end;
  read_nodes : map_Forall (λ id n, node_read limits options (id, n)) (td_nodes d);
  read_dead id : id ∈ td_tombstones d → tag_ok (MaxStringBytes limits) id;
  read_valid : map_Forall node_ok (td_nodes d);
  read_ends id : ends (td_nodes d) id
}.

Lemma acyclic_alone nodes :
  map_Forall node_ok nodes → acyclic nodes ∅ = true ↔ ∀ id, ends nodes id.
Proof.
  intros Hn. unfold acyclic. rewrite acyclic_check_spec; [|rewrite map_union_empty; by intros id n [? _]%Hn|lia].
  rewrite map_union_empty. split; [|auto]. intros H id. destruct (nodes !! id) as [n|] eqn:Hid; [apply H; eauto|by constructor].
Qed.

Lemma unmarshalTreePayload_iff payload limits options d :
  limits_int limits →
  unmarshalTreePayload payload limits options = Ok d ↔
  payload = tree_payload (td_nodes d) (td_tombstones d) ∧ tree_read limits options d.
Proof.
  intros Hint. unfold unmarshalTreePayload.
  pose proof (map_loop_iff Compare payload (treeNodeStep payload limits options) node_enc (node_read limits options) zeroTag
    node_enc_pos (treeNodeStep_iff payload limits options)) as Hnodes. split.
  - destruct (ReadUvarint payload 0) as [[count p]|] eqn:R; [|done].
    apply ReadUvarint_inv in R as (Hu & -> & r1 & [_ Hr1] & Hr1'). unfold is_u64 in Hu.
    destruct (_ || _) eqn:G1; [done|].
    destruct (match options with None => false | Some o => u64 (to_MaxNodes o) <? count end) eqn:G2; [done|]. breflect.
    intros ([[nodes prev] p] & (rest & Hok & <- & -> & -> & Hr2)%Hnodes & Hm)%bind_Ok; [|lia|apply Hr1']. revert Hm.
    destruct (ReadUvarint payload _) as [[tombs p]|] eqn:R; [|done].
    apply ReadUvarint_inv in R as (Hu2 & -> & r3 & Hr3 & Hr3'). unfold is_u64 in Hu2.
    destruct (_ - _ <? tombs) eqn:G3; [done|].
    destruct (match options with None => false | Some o => u64 (to_MaxTombstones o) <? tombs end) eqn:G4; [done|]. breflect.
    intros ([[dead prev] p] & (rest' & Hdead & <- & -> & -> & Hr4)%treeTombs_iff & Hm)%bind_Ok; [|lia|apply Hr3']. revert Hm.
    destruct (_ || _) eqn:G5; [done|]. breflect. intros [= <-]. cbn [td_nodes td_tombstones].
    assert (validateTree (mkTreeDelta nodes dead) = Ok tt) as [Hv _]%validateTree_Ok
      by (destruct (validateTree _) as [[]|]; [done|discriminate]). cbn [td_nodes] in Hv.
    split.
    + change (slice_from payload 0) with payload in Hr1. rewrite Hr1. unfold tree_payload. f_equal.
      rewrite (remaining_unique _ _ _ _ Hr1' Hr2). f_equal.
      rewrite (remaining_unique _ _ _ _ (remaining_app _ _ _ _ Hr2) Hr3). f_equal.
      rewrite (remaining_unique _ _ _ _ Hr3' Hr4). pose proof (remaining_app _ _ _ _ Hr4) as Hend%remaining_len.
      assert (rest' = []) as -> by (apply nil_length_inv; unfold len in *; lia). apply app_nil_r.
    + split; cbn [td_nodes td_tombstones]; [lia|destruct options; [breflect; lia|done]|done|done|done|by apply acyclic_alone].
  - intros (Hpay & [Hsz Hopt Hok Hdead Hv He]). destruct d as [nodes dead]. cbn [td_nodes td_tombstones] in *.
    assert (remaining payload 0 (tree_payload nodes dead)) as Hr by (rewrite <-Hpay; apply remaining_start).
    unfold tree_payload in Hr. apply ReadUvarint_ok in Hr as [-> Hr]; [|unfold is_u64, limits_int, maxInt in *; lia].
    guard_false. assert (match options with None => false | Some o => u64 (to_MaxNodes o) <? Z.of_nat (size nodes) end = false) as ->
      by (destruct options; [apply Z.ltb_ge; lia|done]).
    apply bind_Ok. eexists (nodes, _, _). split; [apply Hnodes; [lia|apply Hr|]; by eexists|].
    apply remaining_app, ReadUvarint_ok in Hr as [-> Hr]; [|unfold is_u64, limits_int, maxInt in *; lia].
    guard_false. assert (match options with None => false | Some o => u64 (to_MaxTombstones o) <? Z.of_nat (size dead) end = false) as ->
      by (destruct options; [apply Z.ltb_ge; lia|done]).
    apply bind_Ok. eexists (dead, _, _). split.
    { apply treeTombs_iff; [lia|apply Hr|]. exists []. rewrite app_nil_r. done. }
    pose proof (remaining_len _ _ _ Hr) as ->. rewrite Z.eqb_refl, (proj2 (acyclic_alone nodes Hv)) by done.
    rewrite (proj2 (validateTree_Ok _)); [done|]. split; [done|]. intros id (_ & ? & _)%Hdead. done.
Qed.

(** What can be written is what can be read. *)
Lemma tree_read_iff limits d :
  limits_int limits →
  tree_read limits None d ↔
  delta_valid d ∧ delta_wf d ∧ tree_fits limits (td_nodes d) (td_tombstones d) ∧ ∀ id, ends (td_nodes d) id.
Proof.
  intros Hint. split.
  - intros [Hsz _ Hn Hd Hv He]. split; [split; [done|by intros id (_ & ? & _)%Hd]|].
    split; [split; [|by intros id (? & _)%Hd]|split; [split; [lia|split; [|by intros id (_ & _ & _ & ?)%Hd]]|done]].
    + intros id n ((? & _) & Hp & _)%Hn. split; [done|]. intros Hpv. cbn in Hp. destruct Hp as [Hz|(? & _)]; [|done].
      by rewrite Hz in Hpv.
    + intros id n ((_ & _ & _ & ?) & Hp & (_ & ?) & _)%Hn. split; [done|]. split; [|done]. intros Hpv. cbn in *.
      destruct Hp as [Hz|(_ & _ & _ & ?)]; [|done]. by rewrite Hz in Hpv.
  - intros ([Hv Hvd] & [Hw Hwd] & ([Hs1 Hs2] & Hf & Hfd) & He). split; [lia|done| | |done|done].
    + intros id n Hn. destruct (Hv id n Hn) as (Hid & _ & Hp). destruct (Hw id n Hn) as [Hw1 Hw2].
      destruct (Hf id n Hn) as (H1 & H2 & H3). cbn in *.
      split; [by split_and!; [..|apply (limits_string_ok _ limits)|]|].
      split; [|split; [split; [by apply (limits_string_ok _ limits)|done]|done]].
      destruct Hp as [?|Hpv]; [by left|right]. by split_and!; [apply Hw2| |apply (limits_string_ok _ limits), H2|apply H2].
    + intros id Hid. by split_and!; [apply Hwd|apply Hvd|apply (limits_string_ok _ limits), Hfd|apply Hfd].
Qed.

Section codec.
Context `{F : Flate}.

Lemma unmarshalTree_iff data typeID limits options d :
  limits_int limits →
  unmarshalTree data typeID limits options = Ok d ↔
  ∃ f, UnmarshalFrame data limits = Ok f ∧ TypeID f = typeID ∧ CodecID f = [] ∧
    Payload f = tree_payload (td_nodes d) (td_tombstones d) ∧ tree_read limits options d.
Proof.
  intros Hint. unfold unmarshalTree, UnmarshalFrame. destruct (UnmarshalFrameView data limits) as [f|]; [|naive_solver].
  cbn [mbind result_bind]. split.
  - destruct (_ || _) eqn:G; [done|]. breflect. rewrite unmarshalTreePayload_iff by done. intros [? ?]. by eexists.
  - intros (f' & [= <-] & HT & HC & HP & Hr). cbn in HT, HC, HP. rewrite HT, HC, Z.eqb_refl. cbn.
    by apply unmarshalTreePayload_iff.
Qed.

(** What one encoder call and one decoder call agree on. *)
Lemma tree_canonical nodes dead data typeID :
  is_u64 typeID →
  (delta_wf (mkTreeDelta nodes dead) ∧ (∀ id, ends nodes id) ∧ marshalTreeWithLimits typeID nodes dead DefaultLimits = Ok data) ↔
  ((typeID = TypeIDORTreeState → hasCompleteTreeParents nodes = true) ∧
   unmarshalTree data typeID DefaultLimits None = Ok (mkTreeDelta nodes dead) ∧
   PeekFrameFormatVersion data DefaultLimits = Ok FormatVersion).
Proof.
  intros Ht. rewrite marshalTree_iff, validateTree_Ok, unmarshalTree_iff by done.
  pose proof (decoded_v1_iff data typeID [] (λ p, p = tree_payload nodes dead ∧ tree_read DefaultLimits None (mkTreeDelta nodes dead)) Ht) as Hd.
  pose proof (tree_read_iff DefaultLimits (mkTreeDelta nodes dead) default_limits_int) as Hr.
  unfold MarshalFrame, MarshalFrameWithPayload in Hd. cbn [TypeID CodecID Payload td_nodes td_tombstones] in *. split.
  - intros (Hw & He & Hv & Hc & Hf & Hm). split; [done|]. apply Hd. eexists. split; [split; [done|by apply Hr]|done].
  - intros (Hc & Hu). apply Hd in Hu as (p & (-> & (Hv & Hw & Hf & He)%Hr) & Hm). done.
Qed.

(** The tree's canonical bytes. A v1 delta frame decodes to a delta exactly when that
    delta, made of machine words and without a circle of parents, encodes to that frame:
    every encoded delta is read back as it was, and no two frames stand for one delta. *)
Theorem ORTree_codec (d : ORTreeDelta) (data : bytes) :
  (delta_wf d ∧ (∀ id, ends (td_nodes d) id) ∧ ORTreeDelta_MarshalBinary d = Ok data) ↔
  (UnmarshalTreeDelta data = Ok d ∧ PeekFrameFormatVersion data DefaultLimits = Ok FormatVersion).
Proof.
  destruct d as [nodes dead]. pose proof (tree_canonical nodes dead data TypeIDORTreeDelta ltac:(done)) as H.
  assert (ORTreeDelta_MarshalBinary (mkTreeDelta nodes dead) = marshalTreeWithLimits TypeIDORTreeDelta nodes dead DefaultLimits) as ->.
  { unfold ORTreeDelta_MarshalBinary, ORTreeDelta_MarshalBinaryWithLimits, marshalTreeWithLimits. cbn [td_nodes td_tombstones].
    by destruct (validateTree _). }
  unfold UnmarshalTreeDelta, UnmarshalTreeDeltaWithLimits. rewrite H. split; [by intros (_ & ?)|]. intros ?. by split.
Qed.
End codec.
