(* ===== verification/ORTreeRecovery.v ===== *)
(** * Saving and restoring observed-remove trees

    A tree that can be encoded can be saved, and a saved tree is restored as it
    was, with a clock that repeats no tag. *)

From S2P Require Import Prelude Tags Forest Clock Lattice Wire SortedCodec Frame Codec ORSet Snapshot ORTree ORTreeTheory ORTreeReplication ORTreeWire ORTreeCodec.

(** ** The limits of the receiver *)

(** The limits of the receiver either do not matter or refuse the state. *)
Lemma treeNodeStep_options payload limits o i acc p :
  treeNodeStep payload limits (Some o) i acc p = treeNodeStep payload limits None i acc p ∨
  treeNodeStep payload limits (Some o) i acc p = Err (ErrTree TreeLimit).
Proof. unfold treeNodeStep. repeat case_match; auto. Qed.

Lemma treeNodes_options payload limits o count fuel : ∀ i p acc,
  let loop options := read_loop (treeNodeStep payload limits options) fuel i count p acc in
  loop (Some o) = loop None ∨ loop (Some o) = Err (ErrTree TreeLimit).
Proof.
  induction fuel as [|fuel IH]; intros i p acc; cbn [read_loop]; [by left|]. destruct (i <? count); [|by left].
  destruct (treeNodeStep_options payload limits o i acc p) as [->| ->]; [|by right].
  destruct (treeNodeStep payload limits None i acc p) as [[acc' p']|]; [apply IH|by left].
Qed.

Lemma unmarshalTreePayload_options payload limits o :
  unmarshalTreePayload payload limits (Some o) = unmarshalTreePayload payload limits None ∨
  unmarshalTreePayload payload limits (Some o) = Err (ErrTree TreeLimit).
Proof.
  unfold unmarshalTreePayload. destruct (ReadUvarint payload 0) as [[count p]|]; [|by left].
  destruct (_ || _); [by left|]. destruct (u64 (to_MaxNodes o) <? count); [by right|].
  destruct (treeNodes_options payload limits o count (S (length payload)) 0 p (∅, zeroTag)) as [->| ->]; [|by right].
  destruct (read_loop (treeNodeStep _ _ _) _ _ _ _ _) as [[[nodes prev] p']|]; [|by left]. cbn [mbind result_bind].
  destruct (ReadUvarint payload p') as [[tombs p2]|]; [|by left]. destruct (_ - _ <? _); [by left|].
  destruct (u64 (to_MaxTombstones o) <? tombs); [by right|by left].
Qed.

(** A tree within the limits of a receiver. *)
Definition tree_within (o : TreeOptions) (nodes : gmap Tag storedNode) (dead : gset Tag) : Prop :=
  Z.of_nat (size nodes) <= to_MaxNodes o ∧ Z.of_nat (size dead) <= to_MaxTombstones o ∧
  map_Forall (λ _ n, len (tn_value n) <= to_MaxValueBytes o) nodes.

Definition options_int (o : TreeOptions) : Prop := to_MaxNodes o <= maxInt ∧ to_MaxTombstones o <= maxInt.

Lemma tree_read_options limits o d :
  TreeOptions_valid o = true → options_int o → tree_read limits None d →
  tree_read limits (Some o) d ↔ tree_within o (td_nodes d) (td_tombstones d).
Proof.
  intros Hv [Ho1 Ho2] [Hsz _ Hn Hd Hok He]. unfold TreeOptions_valid in Hv. breflect.
  assert (u64 (to_MaxNodes o) = to_MaxNodes o ∧ u64 (to_MaxTombstones o) = to_MaxTombstones o) as [E1 E2].
  { unfold maxInt in *. split; apply Z.mod_small; lia. }
  split.
  - intros [_ Hopt Hn' _ _ _]. rewrite E1, E2 in Hopt. split; [lia|]. split; [lia|]. by intros id n (_ & _ & _ & ?)%Hn'.
  - intros (L1 & L2 & L3). split; [done|by rewrite E1, E2| |done..].
    intros id n Hid. destruct (Hn id n Hid) as (? & ? & ? & _). do 3 (split; [done|]). by apply (L3 id n).
Qed.

(** ** The frontier *)

Lemma frontier_valid l : Forall (λ t, Valid t = true) l → validFrontier (foldl frontier_step ∅ l) = true.
Proof.
  intros Hl. unfold validFrontier. apply forallb_forall.
  assert (map_Forall (λ a t, a = ReplicaID t ∧ Valid t = true) (foldl frontier_step ∅ l)) as Hf.
  { assert (map_Forall (λ a t, a = ReplicaID t ∧ Valid t = true) (∅ : gmap bytes Tag)) as H0 by apply map_Forall_empty.
    revert H0. generalize (∅ : gmap bytes Tag). induction Hl as [|t l Ht _ IH]; intros f Hf; [done|]. cbn [foldl]. apply IH.
    unfold frontier_step. repeat case_match; try done; by apply map_Forall_insert_2. }
  intros [a t] Hin%list_elem_of_In. apply elem_of_map_to_list, Hf in Hin as [-> Hv]. cbn. rewrite Hv.
  rewrite (bool_decide_eq_true_2 (ReplicaID t = ReplicaID t)), bool_decide_eq_false_2; [done| |done]. intros Hr. unfold Valid in Hv. by rewrite Hr in Hv.
Qed.

Lemma treeFrontier_list nodes dead :
  treeFrontier nodes dead = foldl frontier_step ∅ ((map_to_list nodes ≫= tags_of) ++ elements dead).
Proof.
  unfold treeFrontier. rewrite foldl_app. f_equal. generalize (∅ : gmap bytes Tag).
  induction (map_to_list nodes) as [|[id n] l IH]; intros f; [done|]. cbn [foldl mbind list_bind]. rewrite foldl_app, <-IH. f_equal.
  unfold tags_of. cbn [fst snd]. by destruct (Valid (tn_parent n)).
Qed.

Section recovery.
Context `{F : Flate}.

(** A tree that encodes is saved. *)
Lemma tree_saved t data :
  tree_wf t → ORTree_MarshalBinary (Some t) = Ok data →
  ∃ f, UnmarshalFrame data DefaultLimits = Ok f ∧ TypeID f = TypeIDORTreeState ∧
    hasCompleteTreeParents (ot_nodes t) = true ∧
    unmarshalTree data TypeIDORTreeState DefaultLimits None = Ok (mkTreeDelta (ot_nodes t) (ot_tombstones t)) ∧
    ORTree_SnapshotCurrentState (Some t) = Ok (newSnapshot f data (treeFrontier (ot_nodes t) (ot_tombstones t))
      (Some (HLC_Snapshot (ot_clock t)))).
Proof.
  intros (h & Hc & [Hh Hn Hw Hb Hd He]) Hm. cbn [ORTree_MarshalBinary ORTree_MarshalBinaryWithLimits] in Hm.
  destruct (proj1 (tree_canonical (ot_nodes t) (ot_tombstones t) data TypeIDORTreeState ltac:(done))) as (Hcomp & Hu & _).
  { split; [split; [done|by intros id (_ & ? & _)%Hd]|done]. }
  specialize (Hcomp eq_refl). pose proof Hu as (f & Hf & HT & _)%unmarshalTree_iff; [|done].
  exists f. do 4 (split; [done|]). unfold ORTree_SnapshotCurrentState, ORTree_SnapshotCurrentStateWithLimits. rewrite Hc.
  unfold ORTree_MarshalBinary, ORTree_MarshalBinaryWithLimits in Hm. rewrite Hm. cbn [mbind result_bind].
  unfold NewValidatedWithClockState. rewrite Hf, HT.
  assert (validFrontier (treeFrontier (ot_nodes t) (ot_tombstones t)) = true) as ->.
  { rewrite treeFrontier_list. apply frontier_valid, Forall_forall. intros x Hx.
    apply (elem_of_tree_delta_tags (mkTreeDelta (ot_nodes t) (ot_tombstones t))) in Hx as [(id & n & Hid & Hx)|Hx]; [|by apply Hd].
    revert x Hx. apply node_tags_of. destruct (Hn id n Hid) as (? & _). by split. }
  assert (validClockState (HLC_Snapshot (Some h)) = true) as -> by (unfold validClockState; by rewrite (restart_same h Hh)).
  assert (validateState (Some validateTreeState) data = true) as -> by (cbn; unfold validateTreeState; rewrite Hu; cbn; by rewrite Hcomp).
  done.
Qed.

(** A state that decodes is refused by a receiver exactly when it is too large for it. *)
Lemma unmarshalTree_options data typeID o d :
  TreeOptions_valid o = true → options_int o → unmarshalTree data typeID DefaultLimits None = Ok d →
  tree_within o (td_nodes d) (td_tombstones d) ∧ unmarshalTree data typeID DefaultLimits (Some o) = Ok d ∨
  ¬ tree_within o (td_nodes d) (td_tombstones d) ∧ unmarshalTree data typeID DefaultLimits (Some o) = Err (ErrTree TreeLimit).
Proof.
  intros Hv Hi Hu. pose proof (proj1 (unmarshalTree_iff _ _ _ _ _ default_limits_int) Hu) as (f & Hf & HT & HC & HP & Hread).
  pose proof (tree_read_options DefaultLimits o d Hv Hi Hread) as Hw.
  assert (unmarshalTree data typeID DefaultLimits (Some o) = Ok d ↔ tree_read DefaultLimits (Some o) d) as Hok.
  { rewrite unmarshalTree_iff by done. split; [by intros (? & _ & _ & _ & _ & ?)|]. intros Hr. by exists f. }
  rewrite <-Hw, <-Hok. revert Hu. unfold unmarshalTree. destruct (UnmarshalFrameView _ _) as [g|]; [|done]. cbn [mbind result_bind].
  destruct (_ || _); [done|]. destruct (unmarshalTreePayload_options (Payload g) DefaultLimits o) as [->| ->]; intros Hu; [by left|by right].
Qed.

Lemma tree_inv_later h h1 nodes dead :
  tree_inv h nodes dead → hlc_wf h1 → ts_le (hlc_tag h) (hlc_tag h1) → tree_inv h1 nodes dead.
Proof.
  intros [Hh Hn Hw Hb Hd He] Hh1 Hle. assert (∀ x, ts_le x (hlc_tag h) → ts_le x (hlc_tag h1)) as Hmono by (unfold ts_le in *; lia).
  split; [done..| | |done]; [intros id n [? ?]%Hb; split; auto|]. intros id (? & ? & ?)%Hd. auto.
Qed.

(** A clock past the tree can witness its greatest tag, if it can step at all. *)
Lemma greatest_passed h t d :
  tree_inv h (ot_nodes t) (ot_tombstones t) → d = mkTreeDelta (ot_nodes t) (ot_tombstones t) → ∀ now, now_wf now →
  match match tree_greatest d with None => (Some h, Ok tt) | Some tag => Witness (Some h) tag now end with
  | (c, Ok _) => ∃ h1, c = Some h1 ∧ hlc_wf h1 ∧ replicaID h1 = replicaID h ∧ ts_le (hlc_tag h) (hlc_tag h1)
  | (c, Err e) => e = ErrClockExhausted ∧ (ot_nodes t ≠ ∅ ∨ ot_tombstones t ≠ ∅) ∧ exhausted (Some h) now (λ _, False)
  end.
Proof.
  intros [Hh Hn Hw' Hb Hd _] -> now Hnow. set (d := mkTreeDelta _ _).
  destruct (tree_greatest d) as [g|] eqn:Hg; [|exists h; unfold ts_le; split_and!; [done..|lia]].
  apply tree_greatest_spec in Hg as [Hg _]. assert (delta_wf d) as Hdw by (split; [done|by intros id (_ & ? & _)%Hd]).
  destruct (delta_tag_valid d Hdw g) as [Hv Hgw]; [split; [done|by intros id (? & _)%Hd]|done|].
  destruct (Witness (Some h) g now) as [c [[]|e]] eqn:Hw.
  - apply Witness_spec in Hw as (h1 & -> & ? & ? & ? & _); [|done..].
    exists h1. unfold ts_le, ts_lt in *. split_and!; [done..|lia].
  - apply Witness_refused in Hw as (-> & -> & Hex); [|done]. split; [done|]. split.
    + destruct Hg as [(id & n & Hid & _)|Hg]; [left|right]; intros E; simpl in *; rewrite E in *; [done|set_solver].
    + eapply exhausted_passed; [done| |exact Hex]. intros x ->. destruct Hg as [(id & n & Hid & Hx)|Hg]; [|by apply Hd].
      exact (proj1 (node_tags_of _ id n) (Hb id n Hid) g Hx).
Qed.

(** C17: A tree restarts where it was saved. Every well-formed tree whose state can be
    encoded can be saved; restoring it gives, under the given local options, a
    well-formed tree with the same nodes and removals, showing the same, whose clock is
    the saved replica's, not behind the saved one nor behind any tag of the tree, so no
    later node reuses a tag. Restoring fails only when the options are invalid or too
    small for the tree, or when the tree is not empty and the saved clock cannot step
    past it, because the physical time is unreadable or no timestamp is left. *)
Theorem ORTree_recovery (t : ORTree) (data : bytes) (options : TreeOptions) (now : option Z)
    (Ht : tree_wf t) (Hnow : now_wf now) (Hoptions : options_int options)
    (Hsave : ORTree_MarshalBinary (Some t) = Ok data) :
  ∃ saved, ORTree_SnapshotCurrentState (Some t) = Ok saved ∧ sn_state saved = data ∧
  match NewTreeFromSnapshotWithOptions saved options now with
  | Ok t' => TreeOptions_valid options = true ∧ tree_within options (ot_nodes t) (ot_tombstones t) ∧
      ot_nodes t' = ot_nodes t ∧ ot_tombstones t' = ot_tombstones t ∧ ot_options t' = options ∧
      tree_wf t' ∧ cache_ok 1 t' ∧ (ORTree_Nodes (Some t')).2 = shown (ot_nodes t) (ot_tombstones t) ∧
      clock_advances (ot_clock t) (ot_clock t')
  | Err e =>
      (e = ErrTree TreeLimit ∧ (TreeOptions_valid options = false ∨ ¬ tree_within options (ot_nodes t) (ot_tombstones t))) ∨
      (e = ErrClockExhausted ∧ (ot_nodes t ≠ ∅ ∨ ot_tombstones t ≠ ∅) ∧ exhausted (ot_clock t) now (λ _, False))
  end.
Proof.
  destruct (tree_saved t data Ht Hsave) as (f & Hf & HT & Hcomp & Hu & Hs). eexists. split; [exact Hs|]. split; [done|].
  destruct Ht as (h & Hc & Hinv). pose proof (inv_clock _ _ _ Hinv) as Hh. rewrite Hc.
  unfold NewTreeFromSnapshotWithOptions, NewTreeFromSnapshotWithOptionsAndLimits, NewTreeFromClockWithOptions.
  cbn [sn_TypeID sn_clockState sn_state newSnapshot]. rewrite HT, Z.eqb_refl, (restart_same h Hh).
  assert (Valid (mkTag (cs_ReplicaID (HLC_Snapshot (Some h))) 0 0) = true) as -> by apply Hh. cbn [negb].
  destruct (TreeOptions_valid options) eqn:Ho; cbn [negb mbind result_bind]; [|auto].
  cbn [ORTree_UnmarshalBinaryWithLimits ot_clock ot_options].
  set (d := mkTreeDelta (ot_nodes t) (ot_tombstones t)) in *.
  destruct (unmarshalTree_options data TypeIDORTreeState options d Ho Hoptions Hu) as [[Hin ->]|[Hno ->]]; [|auto].
  cbn [td_nodes d]. rewrite Hcomp. cbn [negb]. fold d.
  pose proof (greatest_passed h t d Hinv eq_refl now Hnow) as Hw.
  destruct (match tree_greatest d with None => (Some h, Ok tt) | Some tag => Witness (Some h) tag now end) as [c [[]|e]].
  2: { destruct Hw as (-> & ? & ?). auto. }
  destruct Hw as (h1 & -> & Hh1 & Hr & Hle).
  set (t' := tree_with _ _ _ _ _). assert (cache_ok 1 t') as Hcache.
  { split; change (ot_version t') with 1; change (ot_visibleIDsVersion t') with 0; change (ot_visibleCountVersion t') with 0;
      [lia|lia|discriminate|discriminate]. }
  destruct (ORTree_Nodes_shown 1 t' Hcache) as (t2 & E & _). rewrite E. cbn [ot_nodes ot_tombstones ot_options ot_clock tree_with t'].
  split_and!; [done..| |done|done|].
  - exists h1. split; [done|]. by apply (tree_inv_later h).
  - exists h, h1. done.
Qed.
End recovery.

(** ** A malformed parent *)

(** C39: [Add] does not check a parent that is neither the root nor a valid tag (a blank
    replica ID with a non-zero time). If there is room and the clock issues a tag, the
    node is stored and reported as added, yet it is not visible, its delta is refused
    by every tree, and from then on the whole tree can neither be merged nor encoded. *)
Theorem ORTree_Add_malformed_parent (t u : ORTree) (h : HLC) (parent : Tag) (value : bytes) (now now' : option Z) (c : ptr HLC) (id : Tag)
    (Ht : tree_wf t) (Hnow : now_wf now) (Hu : ot_clock u = Some h) (Hbad : Valid parent = false) (Hroot : parent ≠ zeroTag)
    (Hvalue : len value <= to_MaxValueBytes (ot_options t))
    (Hroom : Z.of_nat (size (ot_nodes t)) < to_MaxNodes (ot_options t)) (Htag : Now (ot_clock t) now = (c, Ok id)) :
  ∃ t1 d, ORTree_Add (Some t) parent value now = (Some t1, Ok (id, d)) ∧
    ot_nodes t1 !! id = Some (mkStored parent value) ∧ ¬ visible (ot_nodes t1) (ot_tombstones t1) id ∧
    ORTree_ApplyDelta (Some u) d now' = (Some u, Err (ErrTree TreeDelta)) ∧
    ORTree_Merge (Some u) (PObj t1) now' = (Some u, Err (ErrTree TreeDelta)) ∧
    ORTree_MarshalBinary (Some t1) = Err (ErrTree TreeDelta).
Proof.
  destruct Ht as (ht & Hc & Hinv). pose proof (inv_nodes _ _ _ Hinv) as Hn. rewrite Hc in Htag.
  destruct (tree_now ht _ _ now c id Hinv Hnow Htag) as (_ & _ & _ & _ & _ & Hvalid & _).
  set (d := mkTreeDelta {[id := mkStored parent value]} ∅).
  set (t1 := tree_with t c (<[id := mkStored parent value]> (ot_nodes t)) (ot_tombstones t) true).
  assert (∀ d', td_nodes d' !! id = Some (mkStored parent value) → validateTree d' = Err (ErrTree TreeDelta)) as Hrej.
  { intros d' Hd. assert (validateTree d' ≠ Ok tt) as Hno.
    { intros [Hok _]%validateTree_Ok. destruct (Hok id _ Hd) as (_ & _ & [?|?]); simpl in *; congruence. }
    revert Hno. unfold validateTree. repeat case_match; done. }
  exists t1, d. unfold ORTree_Add. rewrite Hc, Htag, Hbad. cbn [andb].
  destruct (Z.ltb_spec (to_MaxValueBytes (ot_options t)) (len value)); [lia|].
  destruct (Z.leb_spec (to_MaxNodes (ot_options t)) (Z.of_nat (size (ot_nodes t)))); [lia|].
  split; [done|]. split; [apply lookup_insert_eq|]. split; [|split; [|split]].
  - assert (∀ n, ot_nodes t1 !! id = Some n → tn_parent n = parent) as Hpar.
    { intros n. unfold t1. cbn. rewrite lookup_insert_eq. by intros [= <-]. }
    inversion 1 as [? n Hid _ Hz|? n Hid _ Hv]; rewrite (Hpar n Hid) in *; [done|].
    assert (∃ m, ot_nodes t1 !! parent = Some m) as [m Hm] by (inversion Hv; eauto).
    unfold t1 in Hm. cbn in Hm. apply lookup_insert_Some in Hm as [[Heq <-]|[_ [Hv' _]%Hn]]; [|congruence].
    congruence.
  - unfold ORTree_ApplyDelta. rewrite Hu, Hrej; [done|]. apply lookup_singleton_eq.
  - cbn [ORTree_Merge]. unfold ORTree_ApplyDelta. rewrite Hu, Hrej; [done|]. apply lookup_insert_eq.
  - unfold ORTree_MarshalBinary, ORTree_MarshalBinaryWithLimits, marshalTreeWithLimits. rewrite Hrej; [done|]. apply lookup_insert_eq.
Qed.

(** ** Examples *)

(** A parent without a replica ID. *)
Lemma ORTree_Add_malformed_parent_witness :
  ∃ t1 d, ORTree_Add (Some (w_new "a")) (mkTag [] 5 0) (str "x") (Some 9) = (Some t1, Ok (mkTag (str "a") 9 0, d)) ∧
    ORTree_Merge (Some (w_new "b")) (PObj t1) (Some 9) = (Some (w_new "b"), Err (ErrTree TreeDelta)) ∧
    ORTree_MarshalBinary (Some t1) = Err (ErrTree TreeDelta).
Proof.
  destruct (ORTree_Add_malformed_parent (w_new "a") (w_new "b") (mkHLC (str "b") 0 0) (mkTag [] 5 0) (str "x") (Some 9) (Some 9)
    (Some (mkHLC (str "a") 9 0)) (mkTag (str "a") 9 0)) as (t1 & d & Hadd & _ & _ & _ & Hm & He);
    [apply w_new_wf|apply w_times|reflexivity|reflexivity|discriminate|vm_compute; discriminate|vm_compute; reflexivity|reflexivity|].
  exists t1, d. split; [exact Hadd|]. split; [exact Hm|exact He].
Defined.

#[local] Existing Instance marker_flate.

Lemma ORTree_recovery_witness :
  ∃ t saved t', w_add2 = Some t ∧ ORTree_SnapshotCurrentState (Some t) = Ok saved ∧
    NewTreeFromSnapshotWithOptions saved DefaultTreeOptions (Some 9) = Ok t' ∧ ot_nodes t' = ot_nodes t.
Proof.
  destruct w_add2_wf as (t & Et & Hwf & _). exists t.
  assert (is_ok (ORTree_MarshalBinary w_add2) = true) as Hok by (vm_compute; reflexivity).
  assert (is_ok (saved ← ORTree_SnapshotCurrentState w_add2; NewTreeFromSnapshotWithOptions saved DefaultTreeOptions (Some 9)) = true) as Hok2
    by (vm_compute; reflexivity).
  rewrite Et in Hok, Hok2. destruct (ORTree_MarshalBinary (Some t)) as [data|e] eqn:Hm; [|discriminate Hok].
  destruct (ORTree_recovery t data DefaultTreeOptions (Some 9) Hwf) as (saved & Hs & _ & H);
    [apply w_times|split; vm_compute; discriminate|exact Hm|]. rewrite Hs in Hok2 |- *. cbn [mbind result_bind] in Hok2.
  exists saved. destruct (NewTreeFromSnapshotWithOptions saved _ _) as [t'|e]; [|discriminate Hok2].
  exists t'. split; [exact Et|]. split; [reflexivity|]. split; [reflexivity|apply H].
Defined.
