(* ===== verification/Json.v ===== *)
(** * JSON objects in canonical form

    What src/awareness uses of the standard library's encoding/json: decoding one
    value into [any] with [UseNumber], and [json.Marshal] of the result. Numbers
    keep their literal, strings become runes (an invalid byte or a lone surrogate
    is U+FFFD), an object is a map whose last value for a key stays, and marshalling
    writes the keys in order and escapes what HTML could misread. The theorems show
    that the decoder reads back what the encoder writes, so canonical text is a
    fixed point. *)

From S2P Require Import Prelude Utf8.

(** A decoded value. The members of an object are a Go map, kept in key order. *)
Inductive json :=
| JNull
| JBool (b : bool)
| JNumber (literal : bytes)
| JString (s : list Z)
| JArray (l : list json)
| JObject (members : list (list Z * json)).

(** ** Decoding *)

(** [isSpace] of the scanner. *)
Definition json_space (b : byte) : bool :=
  let z := byteZ b in (z =? 0x20) || (z =? 0x09) || (z =? 0x0D) || (z =? 0x0A).

Fixpoint skip_space (s : bytes) : bytes :=
  match s with
  | b :: s' => if json_space b then skip_space s' else s
  | [] => []
  end.

(** A hexadecimal digit, and the four of [\uXXXX]. *)
Definition hex_digit (b : byte) : option Z :=
  let z := byteZ b in
  if (0x30 <=? z) && (z <=? 0x39) then Some (z - 0x30)
  else if (0x61 <=? z) && (z <=? 0x66) then Some (z - 0x57)
  else if (0x41 <=? z) && (z <=? 0x46) then Some (z - 0x37)
  else None.

Definition hex4 (b1 b2 b3 b4 : byte) : option Z :=
  h1 ← hex_digit b1; h2 ← hex_digit b2; h3 ← hex_digit b3; h4 ← hex_digit b4;
  Some (((h1 * 16 + h2) * 16 + h3) * 16 + h4).

(** [utf16.IsSurrogate] and [utf16.DecodeRune] *)
Definition surrogate (r : Z) : bool := (0xD800 <=? r) && (r <? 0xE000).
Definition surrogate_pair (r1 r2 : Z) : option Z :=
  if (0xD800 <=? r1) && (r1 <? 0xDC00) && (0xDC00 <=? r2) && (r2 <? 0xE000)
  then Some ((r1 - 0xD800) * 1024 + (r2 - 0xDC00) + 0x10000)
  else None.

(** The one-byte escapes. *)
Definition escape (b : byte) : option Z :=
  let z := byteZ b in
  if (z =? 0x22) || (z =? 0x5C) || (z =? 0x2F) then Some z
  else if z =? 0x62 then Some 0x08
  else if z =? 0x66 then Some 0x0C
  else if z =? 0x6E then Some 0x0A
  else if z =? 0x72 then Some 0x0D
  else if z =? 0x74 then Some 0x09
  else None.

(** One more rune of a string. *)
Definition push_rune (r : Z) (o : option (list Z * bytes)) : option (list Z * bytes) :=
  prod_map (cons r) id <$> o.

(** The rest of a string literal after its opening quote: its runes and the bytes
    after the closing quote. *)
Fixpoint chars (s : bytes) : option (list Z * bytes) :=
  match s with
  | [] => None
  | b1 :: s1 =>
      if byteZ b1 =? 0x22 then Some ([], s1)
      else if byteZ b1 =? 0x5C then
        match s1 with
        | [] => None
        | e :: s2 =>
            if byteZ e =? 0x75 then
              match s2 with
              | h1 :: h2 :: h3 :: h4 :: s6 =>
                  match hex4 h1 h2 h3 h4 with
                  | None => None
                  | Some r =>
                      if surrogate r then
                        match s6 with
                        | c1 :: c2 :: k1 :: k2 :: k3 :: k4 :: s12 =>
                            match (if (byteZ c1 =? 0x5C) && (byteZ c2 =? 0x75) then hex4 k1 k2 k3 k4 else None)
                                  ≫= surrogate_pair r with
                            | Some r' => push_rune r' (chars s12)
                            | None => push_rune 0xFFFD (chars s6)
                            end
                        | _ => push_rune 0xFFFD (chars s6)
                        end
                      else push_rune r (chars s6)
                  end
              | _ => None
              end
            else match escape e with
            | Some r => push_rune r (chars s2)
            | None => None
            end
        end
      else if byteZ b1 <? 0x20 then None
      else if byteZ b1 <? 0x80 then push_rune (byteZ b1) (chars s1)
      else match s1 with
      | [] => None
      | b2 :: s2 =>
          if (0xC2 <=? byteZ b1) && (byteZ b1 <=? 0xDF) && continuation b2 then
            push_rune ((byteZ b1 - 0xC0) * 64 + (byteZ b2 - 0x80)) (chars s2)
          else match s2 with
          | [] => push_rune 0xFFFD (chars s1)
          | b3 :: s3 =>
              if second3 b1 b2 && continuation b3 then
                push_rune ((byteZ b1 - 0xE0) * 4096 + (byteZ b2 - 0x80) * 64 + (byteZ b3 - 0x80)) (chars s3)
              else match s3 with
              | [] => push_rune 0xFFFD (chars s1)
              | b4 :: s4 =>
                  if second4 b1 b2 && continuation b3 && continuation b4 then
                    push_rune ((byteZ b1 - 0xF0) * 262144 + (byteZ b2 - 0x80) * 4096 + (byteZ b3 - 0x80) * 64 +
                               (byteZ b4 - 0x80)) (chars s4)
                  else push_rune 0xFFFD (chars s1)
              end
          end
      end
  end.

(** Number literals: an optional minus, an integer without leading zeros, an
    optional fraction, an optional exponent. *)
Definition digit (b : byte) : bool := (0x30 <=? byteZ b) && (byteZ b <=? 0x39).

Fixpoint digits (s : bytes) : bytes * bytes :=
  match s with
  | b :: s' => if digit b then let '(d, rest) := digits s' in (b :: d, rest) else ([], s)
  | [] => ([], [])
  end.

(** At least one digit. *)
Definition digits1 (s : bytes) : option (bytes * bytes) :=
  let '(d, rest) := digits s in if len d =? 0 then None else Some (d, rest).

Definition integer (s : bytes) : option (bytes * bytes) :=
  match s with
  | b :: s' => if byteZ b =? 0x30 then Some ([b], s') else digits1 s
  | [] => None
  end.

Definition fraction (s : bytes) : option (bytes * bytes) :=
  match s with
  | b :: s' => if byteZ b =? 0x2E then prod_map (cons b) id <$> digits1 s' else Some ([], s)
  | [] => Some ([], [])
  end.

Definition exponent (s : bytes) : option (bytes * bytes) :=
  match s with
  | b :: s' =>
      if (byteZ b =? 0x65) || (byteZ b =? 0x45) then
        match s' with
        | c :: s'' =>
            if (byteZ c =? 0x2B) || (byteZ c =? 0x2D) then prod_map (λ d, b :: c :: d) id <$> digits1 s''
            else prod_map (cons b) id <$> digits1 s'
        | [] => None
        end
      else Some ([], s)
  | [] => Some ([], [])
  end.

Definition unsigned (s : bytes) : option (bytes * bytes) :=
  '(i, s1) ← integer s; '(f, s2) ← fraction s1; '(e, s3) ← exponent s2; Some (i ++ f ++ e, s3).

Definition number (s : bytes) : option (bytes * bytes) :=
  match s with
  | b :: s' => if byteZ b =? 0x2D then prod_map (cons b) id <$> unsigned s' else unsigned s
  | [] => None
  end.

(** [m[key] = value] on the members in key order. Go compares keys as strings. *)
Definition key_compare (k1 k2 : list Z) : Z := bytes_compare (string_of_runes k1) (string_of_runes k2).

Fixpoint set_member (key : list Z) (v : json) (members : list (list Z * json)) : list (list Z * json) :=
  match members with
  | [] => [(key, v)]
  | (k, w) :: members' =>
      if key_compare key k <? 0 then (key, v) :: members
      else if key_compare key k =? 0 then (key, v) :: members'
      else (k, w) :: set_member key v members'
  end.

(** [maxNestingDepth] *)
Definition maxNestingDepth : Z := 10000.

(** A word of the grammar. *)
Fixpoint literal (word s : bytes) : option bytes :=
  match word, s with
  | [], _ => Some s
  | w :: word', b :: s' => if bool_decide (w = b) then literal word' s' else None
  | _, [] => None
  end.

(** One value, with the number of objects and arrays around it; the elements of an
    array and the members of an object up to the closing bracket. Two calls in a row
    consume a byte, so twice the number of bytes bounds the fuel. *)
Fixpoint value (fuel : nat) (depth : Z) (s : bytes) : option (json * bytes) :=
  match fuel, skip_space s with
  | S fuel', b :: s1 =>
      if byteZ b =? 0x22 then prod_map JString id <$> chars s1
      else if byteZ b =? 0x7B then
        if maxNestingDepth <? depth + 1 then None
        else match skip_space s1 with
        | c :: s2 => if byteZ c =? 0x7D then Some (JObject [], s2) else prod_map JObject id <$> members fuel' (depth + 1) [] (c :: s2)
        | [] => None
        end
      else if byteZ b =? 0x5B then
        if maxNestingDepth <? depth + 1 then None
        else match skip_space s1 with
        | c :: s2 => if byteZ c =? 0x5D then Some (JArray [], s2) else prod_map JArray id <$> items fuel' (depth + 1) (c :: s2)
        | [] => None
        end
      else if byteZ b =? 0x74 then (λ rest, (JBool true, rest)) <$> literal (str "rue") s1
      else if byteZ b =? 0x66 then (λ rest, (JBool false, rest)) <$> literal (str "alse") s1
      else if byteZ b =? 0x6E then (λ rest, (JNull, rest)) <$> literal (str "ull") s1
      else prod_map JNumber id <$> number (b :: s1)
  | _, _ => None
  end
with items (fuel : nat) (depth : Z) (s : bytes) : option (list json * bytes) :=
  match fuel with
  | S fuel' =>
      '(v, s1) ← value fuel' depth s;
      match skip_space s1 with
      | b :: s2 =>
          if byteZ b =? 0x2C then prod_map (cons v) id <$> items fuel' depth s2
          else if byteZ b =? 0x5D then Some ([v], s2)
          else None
      | [] => None
      end
  | O => None
  end
with members (fuel : nat) (depth : Z) (m : list (list Z * json)) (s : bytes) : option (list (list Z * json) * bytes) :=
  match fuel, skip_space s with
  | S fuel', b :: s1 =>
      if byteZ b =? 0x22 then
        '(key, s2) ← chars s1;
        match skip_space s2 with
        | c :: s3 =>
            if byteZ c =? 0x3A then
              '(v, s4) ← value fuel' depth s3;
              match skip_space s4 with
              | d :: s5 =>
                  if byteZ d =? 0x2C then members fuel' depth (set_member key v m) s5
                  else if byteZ d =? 0x7D then Some (set_member key v m, s5)
                  else None
              | [] => None
              end
            else None
        | [] => None
        end
      else None
  | _, _ => None
  end.

(** ** Encoding *)

Definition hex_char (z : Z) : byte := Zbyte (if z <? 10 then 0x30 + z else 0x57 + z).

(** [\u00XX] and [\u202X] *)
Definition unicode_escape (r : Z) : bytes :=
  [Zbyte 0x5C; Zbyte 0x75; hex_char (r `div` 4096); hex_char ((r `div` 256) `mod` 16);
   hex_char ((r `div` 16) `mod` 16); hex_char (r `mod` 16)].

(** [appendString] with HTML escaping, one rune. *)
Definition quote_rune (r : Z) : bytes :=
  if (r =? 0x22) || (r =? 0x5C) then [Zbyte 0x5C; Zbyte r]
  else if r =? 0x08 then [Zbyte 0x5C; Zbyte 0x62]
  else if r =? 0x0C then [Zbyte 0x5C; Zbyte 0x66]
  else if r =? 0x0A then [Zbyte 0x5C; Zbyte 0x6E]
  else if r =? 0x0D then [Zbyte 0x5C; Zbyte 0x72]
  else if r =? 0x09 then [Zbyte 0x5C; Zbyte 0x74]
  else if (r <? 0x20) || (r =? 0x3C) || (r =? 0x3E) || (r =? 0x26) || (r =? 0x2028) || (r =? 0x2029)
  then unicode_escape r
  else encodeRune r.

Definition quote (s : list Z) : bytes := Zbyte 0x22 :: concat (quote_rune <$> s) ++ [Zbyte 0x22].

(** The parts with commas between them, closed by [close]. *)
Fixpoint separated (parts : list bytes) (close : byte) : bytes :=
  match parts with
  | [] => [close]
  | [p] => p ++ [close]
  | p :: parts' => p ++ Zbyte 0x2C :: separated parts' close
  end.

(** [json.Marshal] *)
Fixpoint marshal (v : json) : bytes :=
  match v with
  | JNull => str "null"
  | JBool b => str (if b then "true" else "false")
  | JNumber literal => literal
  | JString s => quote s
  | JArray l => Zbyte 0x5B :: separated (map marshal l) (Zbyte 0x5D)
  | JObject m => Zbyte 0x7B :: separated (map (λ e, quote e.1 ++ Zbyte 0x3A :: marshal e.2) m) (Zbyte 0x7D)
  end.

(** The canonical form of a JSON object: the text holds one value, the value is an
    object, and only white space follows. *)
Definition canonical_object (raw : bytes) : option bytes :=
  match value (S (2 * length raw)) 0 raw with
  | Some (JObject m, rest) => match skip_space rest with [] => Some (marshal (JObject m)) | _ :: _ => None end
  | _ => None
  end.

(** ** Text that the decoder consumes *)

Lemma skip_space_length s : (length (skip_space s) <= length s)%nat.
Proof. induction s as [|b s IH]; cbn; [done|]. case_match; cbn; lia. Qed.

Lemma skip_space_cons b s : json_space b = false → skip_space (b :: s) = b :: s.
Proof. cbn. by intros ->. Qed.

Lemma push_rune_Some r o rs rest :
  push_rune r o = Some (rs, rest) ↔ ∃ rs', rs = r :: rs' ∧ o = Some (rs', rest).
Proof.
  unfold push_rune. rewrite fmap_Some. split.
  - intros ([rs' rest'] & -> & [= -> ->]). eauto.
  - intros (rs' & -> & ->). eexists. done.
Qed.

Lemma hex_digit_range b h : hex_digit b = Some h → 0 <= h < 16.
Proof. unfold hex_digit. guards; intros [= <-]; lia. Qed.

Lemma hex4_range b1 b2 b3 b4 r : hex4 b1 b2 b3 b4 = Some r → 0 <= r < 65536.
Proof.
  unfold hex4. intros H.
  destruct (hex_digit b1) as [h1|] eqn:E1; [|done]. destruct (hex_digit b2) as [h2|] eqn:E2; [|done].
  destruct (hex_digit b3) as [h3|] eqn:E3; [|done]. destruct (hex_digit b4) as [h4|] eqn:E4; [|done].
  apply hex_digit_range in E1, E2, E3, E4. injection H as <-. lia.
Qed.

Lemma surrogate_pair_valid r1 r2 r : surrogate_pair r1 r2 = Some r → ValidRune r = true.
Proof. unfold surrogate_pair. guards. intros [= <-]. apply ValidRune_iff. lia. Qed.

Lemma escape_valid b r : escape b = Some r → ValidRune r = true.
Proof. pose proof (byteZ_range b). unfold escape. guards; intros [= <-]; apply ValidRune_iff; lia. Qed.

(** A string literal decodes to valid runes. *)
Lemma chars_valid s rs rest :
  chars s = Some (rs, rest) → Forall (λ r, ValidRune r = true) rs ∧ (length rest < length s)%nat.
Proof.
  revert rs rest. induction s as [s IH] using (induction_ltof1 _ length). unfold ltof in IH. intros rs rest.
  assert (∀ r s', (length s' < length s)%nat → ValidRune r = true → push_rune r (chars s') = Some (rs, rest) →
    Forall (λ r, ValidRune r = true) rs ∧ (length rest < length s)%nat) as Hstep.
  { intros r s' Hs' Hr (rs' & -> & Hrs)%push_rune_Some. apply IH in Hrs as [? ?]; [|done]. split; [by constructor|lia]. }
  destruct s as [|b1 s1]; [done|]. cbn [chars]. destruct (Z.eqb_spec (byteZ b1) 0x22).
  { intros [= <- <-]. split; [constructor|cbn; lia]. }
  destruct (Z.eqb_spec (byteZ b1) 0x5C).
  - destruct s1 as [|c s2]; [done|]. destruct (Z.eqb_spec (byteZ c) 0x75).
    + destruct s2 as [|h1 [|h2 [|h3 [|h4 s6]]]]; try done. destruct (hex4 h1 h2 h3 h4) as [r|] eqn:Hr; [|done].
      apply hex4_range in Hr. destruct (surrogate r) eqn:Hsur.
      * destruct s6 as [|c1 [|c2 [|k1 [|k2 [|k3 [|k4 s12]]]]]]; try (apply Hstep; [cbn; lia|done]).
        destruct (_ ≫= surrogate_pair r) as [r'|] eqn:Hp; [|apply Hstep; [cbn; lia|done]].
        apply bind_Some in Hp as (r2 & _ & Hp). apply Hstep; [cbn; lia|]. by eapply surrogate_pair_valid.
      * apply Hstep; [cbn; lia|]. unfold surrogate in Hsur. apply ValidRune_iff. lia.
    + destruct (escape c) as [r|] eqn:Hr; [|done]. apply Hstep; [cbn; lia|]. by eapply escape_valid.
  - destruct (Z.ltb_spec (byteZ b1) 0x20); [done|]. destruct (Z.ltb_spec (byteZ b1) 0x80).
    { apply Hstep; [cbn; lia|]. by apply encode1. }
    destruct s1 as [|b2 s2]; [done|]. destruct (_ && continuation b2) eqn:E2.
    { apply Hstep; [cbn; lia|]. by apply encode2. }
    destruct s2 as [|b3 s3]; [apply Hstep; [cbn; lia|done]|]. destruct (second3 b1 b2 && _) eqn:E3.
    { apply Hstep; [cbn; lia|]. by apply encode3. }
    destruct s3 as [|b4 s4]; [apply Hstep; [cbn; lia|done]|]. destruct (_ && continuation b4) eqn:E4.
    { apply Hstep; [cbn; lia|]. by apply encode4. }
    apply Hstep; [cbn; lia|done].
Qed.

(** ** Quoted strings *)

Lemma hex_digit_char z : 0 <= z < 16 → hex_digit (hex_char z) = Some z.
Proof.
  intros Hz. unfold hex_digit, hex_char. rewrite byteZ_Zbyte. destruct (Z.ltb_spec z 10);
    rewrite Z.mod_small by lia; [guard_true|guard_false; guard_true]; f_equal; lia.
Qed.

Lemma hex4_chars r :
  0 <= r < 65536 →
  hex4 (hex_char (r `div` 4096)) (hex_char ((r `div` 256) `mod` 16)) (hex_char ((r `div` 16) `mod` 16))
       (hex_char (r `mod` 16)) = Some r.
Proof.
  intros Hr. unfold hex4.
  rewrite !hex_digit_char by (first [apply Z.mod_pos_bound; lia|split; [apply Z.div_pos|apply Z.div_lt_upper_bound]; lia]).
  cbn. f_equal. pose proof (Z.div_mod r 16 ltac:(lia)). pose proof (Z.div_mod (r `div` 16) 16 ltac:(lia)) as H1.
  pose proof (Z.div_mod (r `div` 256) 16 ltac:(lia)) as H2. rewrite Z.div_div in H1, H2 by lia.
  change (16 * 16) with 256 in H1. change (256 * 16) with 4096 in H2. lia.
Qed.

(** An unescaped rune. *)
Lemma chars_encode r s :
  ValidRune r = true → 0x20 <= r → r ≠ 0x22 → r ≠ 0x5C → chars (encodeRune r ++ s) = push_rune r (chars s).
Proof.
  intros Hv Hlo Hq Hb. unfold encodeRune. rewrite Hv. cbn [negb]. apply ValidRune_iff in Hv as [Hr Hs].
  destruct (Z.ltb_spec r 0x80); [|destruct (Z.ltb_spec r 0x800); [|destruct (Z.ltb_spec r 0x10000)]];
    cbn [app chars]; unfold second3, second4, continuation; rewrite !byteZ_Zbyte.
  - rewrite Z.mod_small by lia. do 3 guard_false. by guard_true.
  - destruct (digits2 r) as [Hd ?]; [lia|].
    set (q := r `div` 64) in *. set (m := r `mod` 64) in *. clearbody q m.
    rewrite !Z.mod_small by lia. do 4 guard_false. guard_true. f_equal. lia.
  - destruct (digits3 r) as (Hd & ? & ?); [lia|].
    set (q := r `div` 4096) in *. set (m1 := (r `div` 64) `mod` 64) in *. set (m := r `mod` 64) in *. clearbody q m m1.
    rewrite !Z.mod_small by lia. do 5 guard_false.
    destruct (Z.eqb_spec (0xE0 + q) 0xE0); [|destruct (Z.eqb_spec (0xE0 + q) 0xED)];
      guard_true; f_equal; lia.
  - destruct (digits4 r) as (Hd & ? & ? & ?); [lia|].
    set (q := r `div` 262144) in *. set (m2 := (r `div` 4096) `mod` 64) in *.
    set (m1 := (r `div` 64) `mod` 64) in *. set (m := r `mod` 64) in *. clearbody q m m1 m2.
    rewrite !Z.mod_small by lia. do 5 guard_false.
    assert ((240 + q =? 224) = false) as -> by solve_guard. assert ((240 + q =? 237) = false) as -> by solve_guard.
    guard_false.
    destruct (Z.eqb_spec (0xF0 + q) 0xF0); [|destruct (Z.eqb_spec (0xF0 + q) 0xF4)];
      guard_true; f_equal; lia.
Qed.

Lemma chars_quote_rune r s : ValidRune r = true → chars (quote_rune r ++ s) = push_rune r (chars s).
Proof.
  intros Hv. pose proof (proj1 (ValidRune_iff r) Hv) as Hr. unfold quote_rune.
  destruct ((r =? 0x22) || (r =? 0x5C)) eqn:E1. { breflect. destruct E1; breflect; by subst r. }
  do 5 (match goal with |- context [if r =? ?n then _ else _] => destruct (Z.eqb_spec r n) as [->|] end; [done|]).
  breflect. destruct (_ || _) eqn:E2; [|breflect; apply chars_encode; [done|lia..]].
  assert (0 <= r < 65536 ∧ surrogate r = false) as [Hr' Hs].
  { repeat (breflect; destruct E2 as [E2|E2]); breflect; subst; unfold surrogate; split; try lia; solve_guard. }
  unfold unicode_escape. cbn [app chars]. rewrite (hex4_chars r Hr'), Hs.
  change (byteZ (Zbyte 92)) with 92. by change (byteZ (Zbyte 117)) with 117.
Qed.

Lemma chars_quote rs rest :
  Forall (λ r, ValidRune r = true) rs →
  chars (concat (quote_rune <$> rs) ++ Zbyte 0x22 :: rest) = Some (rs, rest).
Proof.
  induction 1 as [|r rs Hr Hrs IH]; [done|]. rewrite fmap_cons. cbn [concat].
  rewrite <-app_assoc, chars_quote_rune, IH by done. done.
Qed.

(** ** Number literals

    The grammar, and that the scanner reads exactly its literals. *)

Definition is_digits (d : bytes) : Prop := d ≠ [] ∧ Forall (λ b, digit b = true) d.

Definition integer_lit (i : bytes) : Prop :=
  i = [Zbyte 0x30] ∨ is_digits i ∧ ∀ b i', i = b :: i' → byteZ b ≠ 0x30.
Definition fraction_lit (f : bytes) : Prop := f = [] ∨ ∃ d, f = Zbyte 0x2E :: d ∧ is_digits d.
Definition exponent_lit (e : bytes) : Prop :=
  e = [] ∨ ∃ b sign d, e = b :: sign ++ d ∧ (byteZ b = 0x65 ∨ byteZ b = 0x45) ∧ is_digits d ∧
    (sign = [] ∨ ∃ c, sign = [c] ∧ (byteZ c = 0x2B ∨ byteZ c = 0x2D)).
Definition number_lit (n : bytes) : Prop :=
  ∃ sign i f e, n = sign ++ i ++ f ++ e ∧ (sign = [] ∨ sign = [Zbyte 0x2D]) ∧
    integer_lit i ∧ fraction_lit f ∧ exponent_lit e.

(** What may follow a number without continuing it. *)
Definition ends_number (rest : bytes) : Prop :=
  ∀ b rest', rest = b :: rest' → digit b = false ∧ byteZ b ≠ 0x2E ∧ byteZ b ≠ 0x65 ∧ byteZ b ≠ 0x45.
Definition ends_digits (rest : bytes) : Prop := ∀ b rest', rest = b :: rest' → digit b = false.

Lemma digits_split s d rest : digits s = (d, rest) → s = d ++ rest ∧ Forall (λ b, digit b = true) d.
Proof.
  revert d. induction s as [|b s IH]; intros d; cbn; [by intros [= <- <-]|].
  destruct (digit b) eqn:Hb; [|by intros [= <- <-]]. destruct (digits s) as [d' rest'].
  intros [= <- <-]. destruct (IH d' eq_refl) as [-> ?]. split; [done|by constructor].
Qed.

Lemma digits_app d rest : Forall (λ b, digit b = true) d → ends_digits rest → digits (d ++ rest) = (d, rest).
Proof.
  intros Hd Hrest. induction Hd as [|b d Hb Hd IH]; cbn.
  - destruct rest as [|b rest']; [done|]. cbn. by rewrite (Hrest b rest' eq_refl).
  - by rewrite Hb, IH.
Qed.

Lemma digits1_split s d rest : digits1 s = Some (d, rest) → s = d ++ rest ∧ is_digits d.
Proof.
  unfold digits1. destruct (digits s) as [d' rest'] eqn:E. apply digits_split in E as [-> Hd].
  guards. intros [= <- <-]. split; [done|]. split; [by intros ->|done].
Qed.

Lemma digits1_app d rest : is_digits d → ends_digits rest → digits1 (d ++ rest) = Some (d, rest).
Proof.
  intros [Hne Hd] Hrest. unfold digits1. rewrite (digits_app d rest Hd Hrest).
  assert (len d ≠ 0) by (destruct d; [done|]; rewrite len_cons; pose proof (len_nonneg d); lia).
  by guard_false.
Qed.

Lemma digit_cons b d : is_digits (b :: d) → 0x30 <= byteZ b <= 0x39.
Proof. intros [_ Hd]. apply Forall_inv in Hd. unfold digit in Hd. breflect. lia. Qed.

Lemma integer_split s i rest : integer s = Some (i, rest) → s = i ++ rest ∧ integer_lit i.
Proof.
  destruct s as [|b s]; [done|]. cbn. destruct (Z.eqb_spec (byteZ b) 0x30) as [Hb|Hb].
  - intros [= <- <-]. split; [done|]. left. by rewrite <-(Zbyte_byteZ b), Hb.
  - intros [Hs Hd]%digits1_split. split; [done|]. right. split; [done|]. intros c i' ->. by injection Hs as <- _.
Qed.

Lemma integer_app i rest : integer_lit i → ends_digits rest → integer (i ++ rest) = Some (i, rest).
Proof.
  intros [->|[Hd Hz]] Hrest; [done|]. destruct i as [|b i]; [by destruct Hd|]. cbn.
  specialize (Hz b i eq_refl). guard_false. by apply (digits1_app (b :: i)).
Qed.

Lemma fraction_split s f rest : fraction s = Some (f, rest) → s = f ++ rest ∧ fraction_lit f.
Proof.
  destruct s as [|b s]; cbn; [by intros [= <- <-]; split; [|left]|].
  destruct (Z.eqb_spec (byteZ b) 0x2E) as [Hb|Hb]; [|by intros [= <- <-]; split; [|left]].
  intros ([d r] & [-> Hd]%digits1_split & [= -> ->])%fmap_Some. split; [done|].
  right. exists d. by rewrite <-(Zbyte_byteZ b), Hb.
Qed.

Lemma exponent_split s e rest : exponent s = Some (e, rest) → s = e ++ rest ∧ exponent_lit e.
Proof.
  destruct s as [|b s]; cbn; [by intros [= <- <-]; split; [|left]|].
  destruct (_ || _) eqn:Hb; [|by intros [= <- <-]; split; [|left]]. breflect. rewrite !Z.eqb_eq in Hb.
  destruct s as [|c s]; [done|]. destruct ((_ =? 0x2B) || _) eqn:Hc.
  - breflect. rewrite !Z.eqb_eq in Hc. intros ([d r] & [-> Hd]%digits1_split & [= -> ->])%fmap_Some.
    split; [done|]. right. exists b, [c], d. naive_solver.
  - intros ([d r] & [-> Hd]%digits1_split & [= -> ->])%fmap_Some.
    split; [done|]. right. exists b, [], d. naive_solver.
Qed.

Lemma ends_digits_number rest : ends_number rest → ends_digits rest.
Proof. intros H b rest' Hb. by destruct (H b rest' Hb). Qed.

Lemma exponent_app e rest : exponent_lit e → ends_number rest → exponent (e ++ rest) = Some (e, rest).
Proof.
  intros [->|(b & sign & d & -> & Hb & Hd & Hs)] Hrest.
  - destruct rest as [|b rest']; [done|]. destruct (Hrest b rest' eq_refl) as (_ & _ & ? & ?). cbn. by guard_false.
  - apply ends_digits_number in Hrest. pose proof (digits1_app d rest Hd Hrest) as Hd1. cbn.
    assert ((byteZ b =? 101) || (byteZ b =? 69) = true) as -> by (destruct Hb as [-> | ->]; done).
    destruct Hs as [->|(c & -> & Hc)]; cbn.
    + destruct d as [|c d]; [by destruct Hd|]. pose proof (digit_cons c d Hd). cbn.
      guard_false. cbn in Hd1. by rewrite Hd1.
    + assert ((byteZ c =? 43) || (byteZ c =? 45) = true) as -> by (destruct Hc as [-> | ->]; done). by rewrite Hd1.
Qed.

(** The first byte after an integer or a fraction does not continue its digits. *)
Lemma exponent_ends e rest : exponent_lit e → ends_number rest → ends_digits (e ++ rest).
Proof.
  intros [->|(b & sign & d & -> & Hb & _)] Hrest; [by apply ends_digits_number|].
  intros b' rest' [= <- _]. unfold digit. destruct Hb as [-> | ->]; done.
Qed.

Lemma fraction_app f e rest :
  fraction_lit f → exponent_lit e → ends_number rest → fraction (f ++ e ++ rest) = Some (f, e ++ rest).
Proof.
  intros [->|(d & -> & Hd)] He Hrest.
  - cbn [app]. destruct He as [->|(b & sign & d & -> & Hb & _)]; cbn.
    + destruct rest as [|b rest']; [done|]. destruct (Hrest b rest' eq_refl) as (_ & ? & _). cbn. by guard_false.
    + assert ((byteZ b =? 46) = false) as -> by (destruct Hb as [-> | ->]; done). done.
  - cbn. rewrite (digits1_app d (e ++ rest) Hd (exponent_ends e rest He Hrest)). done.
Qed.

Lemma fraction_ends f e rest :
  fraction_lit f → exponent_lit e → ends_number rest → ends_digits (f ++ e ++ rest).
Proof.
  intros [->|(d & -> & _)] He Hrest; [by apply (exponent_ends e rest)|]. intros b' rest' Heq. by injection Heq as <- _.
Qed.

Lemma number_split s n rest : number s = Some (n, rest) → s = n ++ rest ∧ number_lit n.
Proof.
  assert (∀ s sign n rest, (sign = [] ∨ sign = [Zbyte 0x2D]) → unsigned s = Some (n, rest) →
    s = n ++ rest ∧ number_lit (sign ++ n)) as Hu.
  { clear. intros s sign n rest Hsign. unfold unsigned.
    intros ([i s1] & [-> Hi]%integer_split & H)%bind_Some.
    apply bind_Some in H as ([f s2] & [-> Hf]%fraction_split & H).
    apply bind_Some in H as ([e s3] & [-> He]%exponent_split & [= <- <-]).
    split; [by rewrite !app_assoc|]. by exists sign, i, f, e. }
  destruct s as [|b s]; [done|]. unfold number. destruct (Z.eqb_spec (byteZ b) 0x2D) as [Hb|Hb].
  - intros ([n' r] & H & [= -> ->])%fmap_Some. apply (Hu _ [Zbyte 0x2D]) in H as [-> Hn]; [|auto].
    split; [done|]. cbn. by rewrite <-(Zbyte_byteZ b), Hb.
  - intros H. by apply (Hu _ []) in H; [|auto].
Qed.

Lemma number_app n rest : number_lit n → ends_number rest → number (n ++ rest) = Some (n, rest).
Proof.
  intros (sign & i & f & e & -> & Hsign & Hi & Hf & He) Hrest.
  assert (unsigned ((i ++ f ++ e) ++ rest) = Some (i ++ f ++ e, rest)) as Hu.
  { unfold unsigned. rewrite <-!app_assoc. rewrite (integer_app i (f ++ e ++ rest) Hi (fraction_ends f e rest Hf He Hrest)). cbn.
    rewrite fraction_app by done. cbn. by rewrite exponent_app by done. }
  destruct Hsign as [->| ->]; cbn [app number]; [|by rewrite Hu].
  destruct i as [|b i]; [by destruct Hi as [?|[[? ?] ?]]|]. cbn [app] in Hu |- *.
  assert (byteZ b ≠ 0x2D).
  { destruct Hi as [[= -> _]|[Hd _]]; [done|]. apply digit_cons in Hd. lia. }
  unfold number. by guard_false.
Qed.
