(* ===== verification/JsonTheory.v ===== *)
(** * JSON: what the decoder accepts and the encoder writes

    Decoded values are well-formed, the decoder reads every well-formed value back
    from its encoding, canonical text is a fixed point, and the fuel of the decoder
    is enough. *)

From S2P Require Import Prelude Utf8 Json.

(** ** Decoded values *)

Definition valid_runes (rs : list Z) : Prop := Forall (λ r, ValidRune r = true) rs.

(** A value that can stand inside [depth] objects and arrays: literals of the
    grammar, valid strings, distinct keys in order, bounded nesting. *)
Inductive wf_json : Z → json → Prop :=
| wf_null depth : wf_json depth JNull
| wf_bool depth b : wf_json depth (JBool b)
| wf_number depth n : number_lit n → wf_json depth (JNumber n)
| wf_string depth s : valid_runes s → wf_json depth (JString s)
| wf_array depth l :
    depth + 1 <= maxNestingDepth → Forall (wf_json (depth + 1)) l → wf_json depth (JArray l)
| wf_object depth m :
    depth + 1 <= maxNestingDepth → Forall (λ e, wf_json (depth + 1) e.2) m → Forall (λ e, valid_runes e.1) m →
    increasing bytes_compare ((λ e, string_of_runes e.1) <$> m) → wf_json depth (JObject m).

Abbreviation keys m := ((λ e : list Z * json, string_of_runes e.1) <$> m).

#[local] Arguments string_of_runes : simpl never.
#[local] Arguments bytes_compare : simpl never.

Lemma set_member_keys key v m k : k ∈ keys (set_member key v m) → k = string_of_runes key ∨ k ∈ keys m.
Proof.
  induction m as [|[k' w] m IH]; cbn.
  - rewrite list_elem_of_singleton. auto.
  - repeat case_match; cbn; rewrite !elem_of_cons; intuition.
Qed.

Lemma set_member_increasing key v m :
  increasing bytes_compare (keys m) → increasing bytes_compare (keys (set_member key v m)).
Proof.
  unfold increasing. induction m as [|[k w] m IH]; cbn; [repeat constructor|].
  intros [Hm Hk]%StronglySorted_inv. unfold key_compare. destruct (Z.ltb_spec (bytes_compare (string_of_runes key) (string_of_runes k)) 0) as [Hlt|Hge].
  - cbn. constructor; [by constructor|]. constructor; [done|]. eapply Forall_impl; [exact Hk|]. intros k' Hk'.
    by apply (cmp_trans bytes_compare _ (string_of_runes k)).
  - destruct (Z.eqb_spec (bytes_compare (string_of_runes key) (string_of_runes k)) 0) as [Heq|Hne]; cbn.
    + apply (cmp_eq bytes_compare) in Heq as ->. by constructor.
    + constructor; [by apply IH|]. apply Forall_forall. intros k' [->|Hk']%set_member_keys.
      * apply cmp_gt_lt; [apply _|]. lia.
      * by rewrite Forall_forall in Hk; apply Hk.
Qed.

Lemma set_member_Forall (P : list Z * json → Prop) key v m :
  P (key, v) → Forall P m → Forall P (set_member key v m).
Proof. intros Hp. induction 1 as [|[k w] m Hw Hm IH]; cbn; repeat case_match; repeat constructor; auto. Qed.

Lemma set_member_last key v m :
  increasing bytes_compare (keys (m ++ [(key, v)])) → set_member key v m = m ++ [(key, v)].
Proof.
  unfold increasing. induction m as [|[k w] m IH]; cbn; [done|]. intros [Hm Hk]%StronglySorted_inv.
  rewrite Forall_forall in Hk. assert (bytes_compare (string_of_runes k) (string_of_runes key) < 0) as Hlt.
  { apply Hk. rewrite fmap_app, elem_of_app. right. by apply list_elem_of_singleton. }
  unfold key_compare. apply cmp_gt_lt in Hlt; [|apply _]. do 2 guard_false. by rewrite IH.
Qed.

(** What the decoder returns is well-formed, and it consumes a byte. *)
Definition value_sound (fuel : nat) : Prop := ∀ depth s v rest,
  value fuel depth s = Some (v, rest) → wf_json depth v ∧ (length rest < length s)%nat.
Definition items_sound (fuel : nat) : Prop := ∀ depth s l rest,
  items fuel depth s = Some (l, rest) → Forall (wf_json depth) l ∧ (length rest < length s)%nat.
Definition wf_members (depth : Z) (m : list (list Z * json)) : Prop :=
  Forall (λ e, wf_json depth e.2) m ∧ Forall (λ e, valid_runes e.1) m ∧ increasing bytes_compare (keys m).
Definition members_sound (fuel : nat) : Prop := ∀ depth m s m' rest,
  wf_members depth m → members fuel depth m s = Some (m', rest) → wf_members depth m' ∧ (length rest < length s)%nat.

Lemma literal_length word s rest : literal word s = Some rest → (length rest <= length s)%nat.
Proof.
  revert s. induction word as [|w word IH]; intros [|b s]; cbn; try done; try (intros [= <-]; cbn; lia).
  case_bool_decide; [|done]. intros Hl%IH. cbn. lia.
Qed.

Lemma skip_space_inv s b s1 : skip_space s = b :: s1 → (length s1 < length s)%nat.
Proof. intros H. pose proof (skip_space_length s) as Hl. rewrite H in Hl. cbn in Hl. lia. Qed.

Lemma value_sound_S fuel : items_sound fuel → members_sound fuel → value_sound (S fuel).
Proof.
  intros Hi Hm depth s v rest. cbn [value]. destruct (skip_space s) as [|b s1] eqn:Es; [done|].
  apply skip_space_inv in Es. destruct (Z.eqb_spec (byteZ b) 0x22).
  { intros ([rs r] & [Hrs Hl]%chars_valid & [= -> ->])%fmap_Some. split; [by constructor|cbn; lia]. }
  destruct (Z.eqb_spec (byteZ b) 0x7B).
  { destruct (Z.ltb_spec maxNestingDepth (depth + 1)); [done|]. destruct (skip_space s1) as [|c s2] eqn:Es1; [done|].
    pose proof (skip_space_length s1) as Hl1. rewrite Es1 in Hl1. cbn in Hl1. destruct (Z.eqb_spec (byteZ c) 0x7D).
    - intros [= <- <-]. split; [|lia]. constructor; [done|constructor..].
    - intros ([m r] & Hd & [= -> ->])%fmap_Some. apply Hm in Hd as [(H1 & H2 & H3) Hl]; [|repeat constructor].
      cbn in Hl |- *. split; [by constructor|lia]. }
  destruct (Z.eqb_spec (byteZ b) 0x5B).
  { destruct (Z.ltb_spec maxNestingDepth (depth + 1)); [done|]. destruct (skip_space s1) as [|c s2] eqn:Es1; [done|].
    pose proof (skip_space_length s1) as Hl1. rewrite Es1 in Hl1. cbn in Hl1. destruct (Z.eqb_spec (byteZ c) 0x5D).
    - intros [= <- <-]. split; [|lia]. constructor; [done|constructor].
    - intros ([l r] & [H1 Hl]%Hi & [= -> ->])%fmap_Some. cbn in Hl |- *. split; [by constructor|lia]. }
  repeat case_match; intros (r & H' & Heq)%fmap_Some; try (injection Heq as -> ->; apply literal_length in H'; split; [constructor|lia]).
  destruct r as [lit r]. injection Heq as -> ->. apply number_split in H' as [Hs Hn].
  apply (f_equal length) in Hs. rewrite length_app in Hs. cbn in Hs |- *. split; [by constructor|].
  destruct Hn as (sign & i & f & ex & -> & _ & Hi' & _). assert (i ≠ []) by (destruct Hi' as [-> |[[? _] _]]; done).
  destruct i; [done|]. rewrite !length_app in Hs. cbn in Hs. lia.
Qed.

Lemma items_sound_S fuel : value_sound fuel → items_sound fuel → items_sound (S fuel).
Proof.
  intros Hv Hi depth s l rest. cbn [items]. intros ([v s1] & [Hw Hl]%Hv & H)%bind_Some.
  destruct (skip_space s1) as [|b s2] eqn:Es; [done|]. apply skip_space_inv in Es. destruct (_ =? _).
  - apply fmap_Some in H as ([l' r] & [Hw' Hl']%Hi & [= -> ->]). cbn. split; [by constructor|lia].
  - destruct (_ =? _); [|done]. injection H as <- <-. split; [by repeat constructor|lia].
Qed.

Lemma members_sound_S fuel : value_sound fuel → members_sound fuel → members_sound (S fuel).
Proof.
  intros Hv Hm depth m s m' rest Hwf. cbn [members]. destruct (skip_space s) as [|b s1] eqn:Es; [done|].
  apply skip_space_inv in Es. destruct (_ =? _); [|done]. intros ([key s2] & [Hk Hl]%chars_valid & H)%bind_Some.
  destruct (skip_space s2) as [|c s3] eqn:Es2; [done|]. apply skip_space_inv in Es2. destruct (_ =? _); [|done].
  apply bind_Some in H as ([v s4] & [Hw Hl4]%Hv & H).
  destruct (skip_space s4) as [|d s5] eqn:Es4; [done|]. apply skip_space_inv in Es4.
  assert (wf_members depth (set_member key v m)) as Hset.
  { destruct Hwf as (H1 & H2 & H3). split; [by apply set_member_Forall|]. split; [by apply set_member_Forall|].
    by apply set_member_increasing. }
  destruct (_ =? _).
  - apply Hm in H as [? ?]; [|done]. split; [done|lia].
  - destruct (_ =? _); [|done]. injection H as <- <-. split; [done|lia].
Qed.

Lemma decode_sound fuel : value_sound fuel ∧ items_sound fuel ∧ members_sound fuel.
Proof.
  induction fuel as [|fuel (Hv & Hi & Hm)]; [split; [|split]; intros ? *; done|].
  split; [by apply value_sound_S|]. split; [by apply items_sound_S|by apply members_sound_S].
Qed.

(** ** The decoder reads what the encoder writes *)

Lemma ends_number_cons b rest : In b [Zbyte 0x2C; Zbyte 0x5D; Zbyte 0x7D] → ends_number (b :: rest).
Proof. intros Hb b' rest' [= <- _]. cbn in Hb. destruct Hb as [<-|[<-|[<-|[]]]]; done. Qed.

(** The first byte of a value is neither white space nor a closing bracket. *)
Lemma number_head n : number_lit n → ∃ b n', n = b :: n' ∧ (byteZ b = 0x2D ∨ 0x30 <= byteZ b <= 0x39).
Proof.
  intros (sign & i & f & e & -> & [->| ->] & Hi & _); [|by eexists _, _; split; [done|left]].
  destruct Hi as [->|[Hd _]]; [by eexists _, _; split; [done|right]|].
  destruct i as [|b i]; [by destruct Hd|]. exists b, (i ++ f ++ e). split; [done|]. right. by apply (digit_cons b i).
Qed.

Lemma marshal_head depth v :
  wf_json depth v →
  ∃ b s, marshal v = b :: s ∧ json_space b = false ∧ byteZ b ≠ 0x5D ∧ byteZ b ≠ 0x7D.
Proof.
  destruct 1 as [?|? []|? n Hn|? s Hs|? l _ Hl|? m _ _ _ _]; try by eexists _, _.
  destruct (number_head n Hn) as (b & n' & -> & Hb). exists b, n'. unfold json_space.
  split; [done|]. split; [solve_guard|lia].
Qed.

Lemma literal_app word rest : literal word (word ++ rest) = Some rest.
Proof. induction word as [|w word IH]; cbn; [by destruct rest|]. by rewrite bool_decide_eq_true_2. Qed.

Section roundtrip.
Context (n : nat).
Hypothesis IH : ∀ v depth rest fuel,
  (length (marshal v) < n)%nat → wf_json depth v → ends_number rest → (2 * length (marshal v) < fuel)%nat →
  value fuel depth (marshal v ++ rest) = Some (v, rest).

Lemma items_marshal l depth rest fuel :
  l ≠ [] → Forall (wf_json depth) l → (length (separated (map marshal l) (Zbyte 0x5D)) < n)%nat →
  (2 * length (separated (map marshal l) (Zbyte 0x5D)) + 1 < fuel)%nat →
  items fuel depth (separated (map marshal l) (Zbyte 0x5D) ++ rest) = Some (l, rest).
Proof.
  intros Hne Hl. revert fuel. induction Hl as [|v l Hv Hl IHl]; [done|]. intros fuel Hn Hf.
  destruct fuel as [|fuel]; [lia|]. cbn [items]. destruct l as [|w l].
  - cbn [map separated] in *. rewrite length_app in Hn, Hf. cbn in Hn, Hf. rewrite <-app_assoc. cbn [app].
    rewrite IH; [|lia|done|apply ends_number_cons; cbn; auto|lia]. cbn. done.
  - cbn [map] in *. change (separated (marshal v :: marshal w :: map marshal l) (Zbyte 93))
      with (marshal v ++ Zbyte 0x2C :: separated (marshal w :: map marshal l) (Zbyte 0x5D)) in *.
    rewrite length_app in Hn, Hf. cbn [length] in Hn, Hf. rewrite <-app_assoc. cbn [app].
    rewrite IH; [|lia|done|apply ends_number_cons; cbn; auto|lia]. cbn [mbind option_bind].
    rewrite skip_space_cons by done. change (byteZ (Zbyte 44) =? 44) with true. cbn iota.
    rewrite IHl; [done|done|lia|lia].
Qed.

Definition member (e : list Z * json) : bytes := quote e.1 ++ Zbyte 0x3A :: marshal e.2.

Lemma members_step e depth m rest fuel :
  valid_runes e.1 → wf_json depth e.2 → ends_number rest → (length (member e) < n)%nat →
  (2 * length (member e) < S fuel)%nat → skip_space rest = rest →
  members (S fuel) depth m (member e ++ rest) =
  match rest with
  | d :: s5 =>
      if byteZ d =? 0x2C then members fuel depth (set_member e.1 e.2 m) s5
      else if byteZ d =? 0x7D then Some (set_member e.1 e.2 m, s5)
      else None
  | [] => None
  end.
Proof.
  destruct e as [key v]. cbn [fst snd]. unfold member, quote. cbn [fst snd].
  intros Hk Hv Hrest Hn Hf Hsp. cbn [members app]. rewrite skip_space_cons by done.
  change (byteZ (Zbyte 34) =? 34) with true. cbn iota. rewrite <-!app_assoc. cbn [app].
  rewrite chars_quote by done. cbn [mbind option_bind]. rewrite skip_space_cons by done.
  change (byteZ (Zbyte 58) =? 58) with true. cbn iota.
  rewrite !length_app in Hn, Hf. cbn in Hn, Hf. rewrite !length_app in Hn, Hf. cbn in Hn, Hf.
  rewrite IH; [|lia|done|done|lia]. cbn. by rewrite Hsp.
Qed.

Lemma members_marshal l depth m rest fuel :
  l ≠ [] → Forall (λ e, wf_json depth e.2) l → Forall (λ e, valid_runes e.1) l →
  increasing bytes_compare (keys (m ++ l)) → (length (separated (map member l) (Zbyte 0x7D)) < n)%nat →
  (2 * length (separated (map member l) (Zbyte 0x7D)) < fuel)%nat →
  members fuel depth m (separated (map member l) (Zbyte 0x7D) ++ rest) = Some (m ++ l, rest).
Proof.
  intros Hne Hl. revert m fuel. induction Hl as [|e l Hv Hl IHl]; [done|].
  intros m fuel [Hk Hks]%Forall_cons Hinc Hn Hf. destruct fuel as [|fuel]; [lia|].
  assert (set_member e.1 e.2 m = m ++ [e]) as Hset.
  { destruct e as [key v]. apply set_member_last. change ((key, v) :: l) with ([(key, v)] ++ l) in Hinc.
    rewrite app_assoc, fmap_app in Hinc. unfold increasing in *. by apply StronglySorted_app in Hinc as (_ & ? & _). }
  destruct l as [|e' l].
  - cbn [map separated] in *. rewrite length_app in Hn, Hf. cbn [length] in Hn, Hf. rewrite <-app_assoc. cbn [app].
    rewrite members_step; [by rewrite Hset|done|done|apply ends_number_cons; cbn; auto|lia|lia|done].
  - cbn [map] in *. change (separated (member e :: member e' :: map member l) (Zbyte 125))
      with (member e ++ Zbyte 0x2C :: separated (member e' :: map member l) (Zbyte 0x7D)) in *.
    rewrite length_app in Hn, Hf. cbn [length] in Hn, Hf. rewrite <-app_assoc. cbn [app].
    rewrite members_step; [|done|done|apply ends_number_cons; cbn; auto|lia|lia|done].
    change (byteZ (Zbyte 44) =? 44) with true. cbn iota. rewrite Hset.
    rewrite (IHl ltac:(done) (m ++ [e])); [by rewrite <-app_assoc|done|by rewrite <-app_assoc|lia|lia].
Qed.
End roundtrip.

Lemma value_marshal v depth rest fuel :
  wf_json depth v → ends_number rest → (2 * length (marshal v) < fuel)%nat →
  value fuel depth (marshal v ++ rest) = Some (v, rest).
Proof.
  remember (S (length (marshal v))) as n eqn:Hn. assert (length (marshal v) < n)%nat as Hlt by lia. clear Hn.
  revert v depth rest fuel Hlt. induction n as [|n IH]; [lia|]. intros v depth rest fuel Hlt Hv Hrest Hf.
  destruct fuel as [|fuel]; [lia|]. destruct Hv as [?|? []|? lit Hlit|? s Hs|? l Hd Hl|? m Hd Hm Hk Hinc].
  - done.
  - done.
  - done.
  - cbn [marshal value] in *. destruct (number_head lit Hlit) as (b & lit' & Heq & Hb).
    pose proof (number_app lit rest Hlit Hrest) as Hnum. rewrite Heq in Hnum |- *. cbn [app] in *.
    rewrite skip_space_cons by (unfold json_space; solve_guard). do 6 guard_false. by rewrite Hnum.
  - cbn [marshal value]. unfold quote. cbn [app]. rewrite skip_space_cons by done.
    change (byteZ (Zbyte 34) =? 34) with true. cbn iota. rewrite <-app_assoc. cbn [app]. by rewrite chars_quote.
  - cbn [marshal value app] in *. rewrite skip_space_cons by done. cbn [length] in Hlt, Hf.
    change (byteZ (Zbyte 91) =? 34) with false. change (byteZ (Zbyte 91) =? 123) with false.
    change (byteZ (Zbyte 91) =? 91) with true. cbn iota. guard_false. destruct l as [|v l]; [done|].
    pose proof (items_marshal n IH (v :: l) (depth + 1) rest fuel ltac:(done) Hl ltac:(lia) ltac:(lia)) as Hi.
    destruct (marshal_head (depth + 1) v (Forall_inv Hl)) as (b & s & Heq & Hsp & Hb & _).
    assert (∃ s', separated (map marshal (v :: l)) (Zbyte 93) ++ rest = b :: s') as [s' Hs'].
    { cbn [map]. rewrite Heq. destruct l; by eexists. }
    rewrite Hs' in Hi |- *. rewrite skip_space_cons by done. guard_false. by rewrite Hi.
  - cbn [marshal value app] in *. rewrite skip_space_cons by done. cbn [length] in Hlt, Hf.
    change (byteZ (Zbyte 123) =? 34) with false. change (byteZ (Zbyte 123) =? 123) with true. cbn iota. guard_false.
    destruct m as [|e m]; [done|]. change (λ e0 : list Z * json, quote e0.1 ++ Zbyte 58 :: marshal e0.2) with member in *.
    pose proof (members_marshal n IH (e :: m) (depth + 1) [] rest fuel ltac:(done) Hm Hk Hinc ltac:(lia) ltac:(lia)) as Hi.
    assert (∃ s', separated (map member (e :: m)) (Zbyte 125) ++ rest = Zbyte 0x22 :: s') as [s' Hs'].
    { cbn [map]. unfold member at 1, quote. destruct m; by eexists. }
    rewrite Hs' in Hi |- *. rewrite skip_space_cons by done. change (byteZ (Zbyte 34) =? 125) with false. cbn iota.
    by rewrite Hi.
Qed.

(** Canonical text is the canonical form of itself, is an object, and is not empty. *)
Lemma canonical_object_fixed raw c : canonical_object raw = Some c → canonical_object c = Some c.
Proof.
  unfold canonical_object at 1. destruct (value _ 0 raw) as [[[| | | | |m] rest]|] eqn:E; try done.
  destruct (skip_space rest); [|done]. intros <-%(inj Some). apply decode_sound in E as [Hwf _].
  unfold canonical_object. pose proof (value_marshal (JObject m) 0 [] (S (2 * length (marshal (JObject m)))) Hwf) as H.
  rewrite app_nil_r in H. by rewrite H; [|done|lia].
Qed.

Lemma canonical_object_nonempty raw c : canonical_object raw = Some c → c ≠ [].
Proof.
  unfold canonical_object. repeat case_match; try done. by intros [= <-].
Qed.

(** ** Fuel

    Twice the bytes are enough fuel: more fuel decodes the same. *)
Definition value_stable (f : nat) : Prop := ∀ f' depth s,
  (2 * length s < f)%nat → (2 * length s < f')%nat → value f depth s = value f' depth s.
Definition items_stable (f : nat) : Prop := ∀ f' depth s,
  (2 * length s + 1 < f)%nat → (2 * length s + 1 < f')%nat → items f depth s = items f' depth s.
Definition members_stable (f : nat) : Prop := ∀ f' depth m s,
  (2 * length s < f)%nat → (2 * length s < f')%nat → members f depth m s = members f' depth m s.

Lemma value_stable_S f : items_stable f → members_stable f → value_stable (S f).
Proof.
  intros Hi Hm [|f'] depth s H1 H2; [lia|]. cbn [value]. destruct (skip_space s) as [|b s1] eqn:Es; [done|].
  apply skip_space_inv in Es. destruct (skip_space s1) as [|c s2] eqn:Es1; [done|].
  pose proof (skip_space_length s1) as Hl. rewrite Es1 in Hl.
  rewrite (Hi f'), (Hm f') by lia. done.
Qed.

Lemma items_stable_S f : value_stable f → items_stable f → items_stable (S f).
Proof.
  intros Hv Hi [|f'] depth s H1 H2; [lia|]. cbn [items]. rewrite (Hv f') by lia.
  destruct (value f' depth s) as [[v s1]|] eqn:E; [|done]. apply decode_sound in E as [_ Hl]. cbn.
  destruct (skip_space s1) as [|b s2] eqn:Es; [done|]. apply skip_space_inv in Es. by rewrite (Hi f') by lia.
Qed.

Lemma members_stable_S f : value_stable f → members_stable f → members_stable (S f).
Proof.
  intros Hv Hm [|f'] depth m s H1 H2; [lia|]. cbn [members].
  destruct (skip_space s) as [|b s1] eqn:Es; [done|]. apply skip_space_inv in Es. destruct (_ =? _); [|done].
  destruct (chars s1) as [[key s2]|] eqn:Ec; [|done]. apply chars_valid in Ec as [_ Hl]. cbn.
  destruct (skip_space s2) as [|c s3] eqn:Es2; [done|]. apply skip_space_inv in Es2. destruct (_ =? _); [|done].
  rewrite (Hv f') by lia. destruct (value f' depth s3) as [[v s4]|] eqn:E; [|done].
  apply decode_sound in E as [_ Hl4]. cbn. destruct (skip_space s4) as [|d s5] eqn:Es4; [done|].
  apply skip_space_inv in Es4. by rewrite (Hm f') by lia.
Qed.

Lemma decode_stable f : value_stable f ∧ items_stable f ∧ members_stable f.
Proof.
  induction f as [|f (Hv & Hi & Hm)]; [split; [|split]; intros ? *; lia|].
  split; [by apply value_stable_S|]. split; [by apply items_stable_S|by apply members_stable_S].
Qed.

(** Any larger fuel gives the canonical form of [canonical_object]. *)
Lemma canonical_object_fuel raw f :
  (2 * length raw < f)%nat → value f 0 raw = value (S (2 * length raw)) 0 raw.
Proof. intros Hf. apply decode_stable; lia. Qed.
