(* ===== verification/Awareness.v ===== *)
(** * Presence of the actors of a group

    src/awareness/awareness.go and src/awareness/observe.go. An update is one
    actor's complete presence at a clock of that actor; a store keeps the newest
    update of every actor, shows those that are online and recent, and hands each
    change to the mailboxes of its subscribers.

    A time is the number of nanoseconds since the zero [time.Time]; an operation
    that falls back to [time.Now()] takes that reading as [wall]. The lock of the
    store is part of its state: a call that finds it held by a call that has
    already returned never returns itself ([Blocks]). *)

From S2P Require Import Prelude Utf8 Wire Json.

Abbreviation ErrAw e := (Err (ErrAwareness e)).

(** ** Options *)

Record AwarenessOptions := mkAwarenessOptions {
  ao_MaxActors : Z;
  ao_MaxActorBytes : Z;
  ao_MaxStateBytes : Z;
  ao_MaxSubscribers : Z;
  ao_Timeout : Z
}.

(** [DefaultOptions] *)
Definition DefaultAwarenessOptions : AwarenessOptions :=
  mkAwarenessOptions (2 ^ 14) 128 (16 * 2 ^ 10) (2 ^ 10) (30 * 10 ^ 9).

(** [Options.valid] *)
Definition AwarenessOptions_valid (options : AwarenessOptions) : bool :=
  (0 <? ao_MaxActors options) && (0 <? ao_MaxActorBytes options) && (0 <? ao_MaxStateBytes options) &&
  (0 <? ao_MaxSubscribers options) && (0 <? ao_Timeout options).

Definition normalizeOptions (options : AwarenessOptions) : AwarenessOptions :=
  if ao_MaxSubscribers options =? 0 then
    mkAwarenessOptions (ao_MaxActors options) (ao_MaxActorBytes options) (ao_MaxStateBytes options)
      (ao_MaxSubscribers DefaultAwarenessOptions) (ao_Timeout options)
  else options.

(** ** Updates *)

(** A nil [State] is a removal. *)
Record Update := mkUpdate {
  up_Actor : bytes;
  up_Clock : Z;
  up_State : ptr bytes
}.

#[export] Instance Update_eq_dec : EqDecision Update.
Proof. solve_decision. Defined.

Definition emptyUpdate : Update := mkUpdate [] 0 None.

Definition Online (update : Update) : bool := bool_decide (is_Some (up_State update)).

(** [append([]byte(nil), s...)]: a copy, which is nil when [s] is empty. *)
Definition copy_bytes (s : bytes) : ptr bytes :=
  match s with [] => None | _ :: _ => Some s end.

Definition cloneUpdate (update : Update) : Update :=
  mkUpdate (up_Actor update) (up_Clock update) (up_State update ≫= copy_bytes).

(** [bytes.Equal], which does not tell nil from an empty slice. *)
Definition bytes_Equal (a b : ptr bytes) : bool := bool_decide (default [] a = default [] b).

Definition sameUpdate (left right : Update) : bool :=
  bool_decide (up_Actor left = up_Actor right) && (up_Clock left =? up_Clock right) &&
  bytes_Equal (up_State left) (up_State right).

Definition canonicalState (raw : bytes) : result bytes :=
  match canonical_object raw with
  | Some canonical => Ok canonical
  | None => ErrAw AwInvalidState
  end.

Definition Normalize (update : Update) (options : AwarenessOptions) : result Update :=
  let options := normalizeOptions options in
  if negb (AwarenessOptions_valid options) then ErrAw AwInvalidOptions
  else if blank (up_Actor update) || negb (ValidString (up_Actor update)) ||
          (ao_MaxActorBytes options <? len (up_Actor update))
  then ErrAw AwInvalidActor
  else if up_Clock update =? 0 then ErrAw AwInvalidUpdate
  else match up_State update with
       | None => Ok (mkUpdate (up_Actor update) (up_Clock update) None)
       | Some raw =>
           if (len raw =? 0) || (ao_MaxStateBytes options <? len raw) then ErrAw AwResourceLimit
           else match canonicalState raw with
                | Err e => Err e
                | Ok state =>
                    if ao_MaxStateBytes options <? len state then ErrAw AwResourceLimit
                    else Ok (mkUpdate (up_Actor update) (up_Clock update) (Some state))
                end
       end.

(** *** The awareness-v1 encoding *)

Definition protocolVersion : byte := Zbyte 1.

Definition Update_MarshalBinaryWithOptions (update : Update) (options : AwarenessOptions) : result bytes :=
  match Normalize update options with
  | Err e => Err e
  | Ok normalized =>
      let encoded := [protocolVersion] in
      let encoded := AppendUvarint encoded (len (up_Actor normalized)) in
      let encoded := encoded ++ up_Actor normalized in
      let encoded := AppendUvarint encoded (up_Clock normalized) in
      match up_State normalized with
      | None => Ok (encoded ++ [Zbyte 0])
      | Some state =>
          let encoded := encoded ++ [Zbyte 1] in
          let encoded := AppendUvarint encoded (len state) in
          Ok (encoded ++ state)
      end
  end.

(** [Update.MarshalBinary] *)
Definition Update_MarshalBinary (update : Update) : result bytes :=
  Update_MarshalBinaryWithOptions update DefaultAwarenessOptions.

Definition UnmarshalUpdate (data : bytes) (options : AwarenessOptions) : result Update :=
  let options := normalizeOptions options in
  if negb (AwarenessOptions_valid options) then ErrAw AwInvalidOptions
  else if (len data <? 4) || negb (bool_decide (head data = Some protocolVersion)) then ErrAw AwInvalidUpdate
  else match ReadBytes data 1 (ao_MaxActorBytes options) with
  | None => ErrAw AwInvalidUpdate
  | Some (actor, position) =>
      match ReadUvarint data position with
      | None => ErrAw AwInvalidUpdate
      | Some (clock, position) =>
          if (clock =? 0) || (len data <=? position) then ErrAw AwInvalidUpdate
          else match data !! Z.to_nat position with
          | None => ErrAw AwInvalidUpdate
          | Some status =>
              let position := position + 1 in
              if byteZ status =? 0 then
                if negb (position =? len data) then ErrAw AwInvalidUpdate
                else Normalize (mkUpdate actor clock None) options
              else if byteZ status =? 1 then
                match ReadBytes data position (ao_MaxStateBytes options) with
                | None => ErrAw AwInvalidUpdate
                | Some (state, next) =>
                    if negb (next =? len data) then ErrAw AwInvalidUpdate
                    else Normalize (mkUpdate actor clock (copy_bytes state)) options
                end
              else ErrAw AwInvalidUpdate
          end
      end
  end.

(** ** Mailboxes *)

Inductive Origin := Initial | Local | Remote | Expired.

Record Event := mkEvent {
  ev_Version : Z;
  ev_Origin : Origin;
  ev_Update : Update;
  ev_Active : list Update;
  ev_Coalesced : Z
}.

(** Where the goroutine of a subscriber is: in its [select], in the callback, or
    gone. *)
Inductive runner := Waiting | Calling (event : Event) | Exited.

(** [wake] is the channel of capacity one, [stop] is closed by the first
    [unsubscribe]; [Exited] is the closed [done]. The callback returns [false] if it
    panics. *)
Record subscriber := mkSubscriber {
  sb_callback : Event → bool;
  sb_pending : ptr Event;
  sb_stopped : bool;
  sb_wake : bool;
  sb_stop : bool;
  sb_runner : runner
}.

Definition newSubscriber (callback : Event → bool) : subscriber :=
  mkSubscriber callback None false false false Waiting.

(** [enqueue] up to its unlock; the result says whether it goes on to [wake]. *)
Definition enqueue_put (event : Event) (s : subscriber) : subscriber * bool :=
  if sb_stopped s then (s, false)
  else
    let event := match sb_pending s with
                 | Some pending =>
                     mkEvent (ev_Version event) (ev_Origin event) (ev_Update event) (ev_Active event)
                       (u64 (ev_Coalesced event + u64 (ev_Coalesced pending + 1)))
                 | None => event
                 end in
    (mkSubscriber (sb_callback s) (Some event) (sb_stopped s) (sb_wake s) (sb_stop s) (sb_runner s), true).

(** The select at the end of [enqueue]: a full channel stays as it is. *)
Definition enqueue_wake (s : subscriber) : subscriber :=
  mkSubscriber (sb_callback s) (sb_pending s) (sb_stopped s) true (sb_stop s) (sb_runner s).

Definition enqueue (event : Event) (s : subscriber) : subscriber :=
  let '(s, go) := enqueue_put event s in if go then enqueue_wake s else s.

(** The body of [stopOnce]: under the lock it drops the pending event and refuses
    later ones, then it closes [stop]. *)
Definition halt_mark (s : subscriber) : subscriber :=
  mkSubscriber (sb_callback s) None true (sb_wake s) (sb_stop s) (sb_runner s).
Definition halt_close (s : subscriber) : subscriber :=
  mkSubscriber (sb_callback s) (sb_pending s) (sb_stopped s) (sb_wake s) true (sb_runner s).
Definition subscriber_halt (s : subscriber) : subscriber :=
  if sb_stop s then s else halt_close (halt_mark s).

(** The cases of the select in [run]: a closed [stop] ends the goroutine, and a
    token in [wake] takes the pending event. *)
Definition run_stop (s : subscriber) : subscriber :=
  mkSubscriber (sb_callback s) (sb_pending s) (sb_stopped s) (sb_wake s) (sb_stop s) Exited.

Definition run_wake (s : subscriber) : subscriber :=
  if sb_stopped s then
    mkSubscriber (sb_callback s) (sb_pending s) (sb_stopped s) false (sb_stop s) Exited
  else
    mkSubscriber (sb_callback s) None (sb_stopped s) false (sb_stop s)
      (match sb_pending s with None => Waiting | Some event => Calling event end).

(** [call] returns to the select. *)
Definition run_return (s : subscriber) : subscriber :=
  mkSubscriber (sb_callback s) (sb_pending s) (sb_stopped s) (sb_wake s) (sb_stop s) Waiting.

(** ** The hub

    [hb_objects] holds every subscriber made; [hb_subscribers] are those the hub
    still publishes to, by their IDs. *)
Record observationHub := mkHub {
  hb_nextID : Z;
  hb_max : Z;
  hb_objects : gmap Z subscriber;
  hb_subscribers : gset Z;
  hb_count : Z
}.

Definition hub_active (hub : observationHub) : bool := negb (hb_count hub =? 0).

Definition hub_subscribe (hub : observationHub) (callback : Event → bool) : observationHub * result Z :=
  if hb_max hub <=? Z.of_nat (size (hb_subscribers hub)) then (hub, ErrAw AwSubscriptionLimit)
  else
    let id := u64 (hb_nextID hub + 1) in
    (mkHub id (hb_max hub) (<[id := newSubscriber callback]> (hb_objects hub)) ({[id]} ∪ hb_subscribers hub)
       (u64 (hb_count hub + 1)), Ok id).

(** A change of one subscriber. *)
Definition hub_alter (f : subscriber → subscriber) (id : Z) (hub : observationHub) : observationHub :=
  mkHub (hb_nextID hub) (hb_max hub) (alter f id (hb_objects hub)) (hb_subscribers hub) (hb_count hub).

Definition hub_publish (hub : observationHub) (event : Event) : observationHub :=
  foldl (λ hub id, hub_alter (enqueue event) id hub) hub (elements (hb_subscribers hub)).

Definition hub_remove (id : Z) (hub : observationHub) : observationHub :=
  if bool_decide (id ∈ hb_subscribers hub) then
    mkHub (hb_nextID hub) (hb_max hub) (hb_objects hub) (hb_subscribers hub ∖ {[id]})
      (u64 (hb_count hub + maxUint64))
  else hub.

(** [unsubscribe] *)
Definition hub_unsubscribe (id : Z) (hub : observationHub) : observationHub :=
  hub_alter subscriber_halt id (hub_remove id hub).

(** [call]: the callback returns, or panics; a panic unsubscribes and ends the
    goroutine. *)
Definition hub_call (id : Z) (hub : observationHub) : observationHub :=
  match hb_objects hub !! id with
  | Some s =>
      match sb_runner s with
      | Calling event =>
          if sb_callback s event then hub_alter run_return id hub
          else hub_alter run_stop id (hub_unsubscribe id hub)
      | _ => hub
      end
  | None => hub
  end.

(** ** The store *)

Record record := mkRecord {
  rc_update : Update;
  rc_lastSeen : Z;
  rc_expired : bool
}.

Record Store := mkStore {
  st_mu : bool;
  st_options : AwarenessOptions;
  st_records : gmap bytes record;
  st_version : Z;
  st_hub : observationHub
}.

(** What a call does: it returns, or waits for ever. *)
Inductive outcome (A : Type) := Returns (a : A) | Blocks.
Arguments Returns {A} a.
Arguments Blocks {A}.

(** [store.mu.Lock()] and [Unlock()]. A reader is blocked like a writer: nobody
    keeps the lock for reading. *)
Definition lock (st : Store) : option Store :=
  if st_mu st then None else Some (mkStore true (st_options st) (st_records st) (st_version st) (st_hub st)).
Definition unlock (st : Store) : Store :=
  mkStore false (st_options st) (st_records st) (st_version st) (st_hub st).

Definition NewStore (options : AwarenessOptions) : result Store :=
  let options := normalizeOptions options in
  if negb (AwarenessOptions_valid options) then ErrAw AwInvalidOptions
  else Ok (mkStore false options ∅ 0 (mkHub 0 (ao_MaxSubscribers options) ∅ ∅ 0)).

(** [Time.Sub], which saturates. *)
Definition time_Sub (a b : Z) : Z := (- 2 ^ 63) `max` ((2 ^ 63 - 1) `min` (a - b)).

(** [normalizeTime]; the zero time is 0. *)
Definition normalizeTime (value wall : Z) : Z := if value =? 0 then wall else value.

Definition isActive (timeout now : Z) (current : record) : bool :=
  Online (rc_update current) && negb (rc_expired current) && (time_Sub now (rc_lastSeen current) <=? timeout).

Definition activeAtLocked (st : Store) (now : Z) : list Update :=
  sort_by (λ left right, bytes_compare (up_Actor left) (up_Actor right))
    (cloneUpdate ∘ rc_update <$> filter (λ r, isActive (ao_Timeout (st_options st)) now r = true) (map_to_list (st_records st)).*2).

Definition publishLocked (st : Store) (origin : Origin) (update : Update) (now : Z) : Store :=
  let version := u64 (st_version st + 1) in
  mkStore (st_mu st) (st_options st) (st_records st) version
    (if hub_active (st_hub st)
     then hub_publish (st_hub st) (mkEvent version origin (cloneUpdate update) (activeAtLocked st now) 0)
     else st_hub st).

(** [store.records[actor] = record{update: update, lastSeen: now}] *)
Definition put_record (st : Store) (actor : bytes) (update : Update) (now : Z) : Store :=
  mkStore (st_mu st) (st_options st) (<[actor := mkRecord update now false]> (st_records st)) (st_version st) (st_hub st).

Definition heartbeatLocked (st : Store) (actor : bytes) (current : record) (now : Z) : Store * Update :=
  let update := mkUpdate (up_Actor (rc_update current)) (u64 (up_Clock (rc_update current) + 1)) (up_State (rc_update current)) in
  (publishLocked (put_record st actor update now) Local update now, cloneUpdate update).

Definition Store_Heartbeat (store : ptr Store) (actor : bytes) (now wall : Z) : ptr Store * outcome (result Update) :=
  match store with
  | None => (None, Returns (ErrAw AwInvalidOptions))
  | Some st =>
      match Normalize (mkUpdate actor 1 None) (st_options st) with
      | Err e => (Some st, Returns (Err e))
      | Ok _ =>
          let now := normalizeTime now wall in
          match lock st with
          | None => (Some st, Blocks)
          | Some st =>
              match st_records st !! actor with
              | None => (Some (unlock st), Returns (ErrAw AwOfflineActor))
              | Some current =>
                  if negb (Online (rc_update current)) then (Some (unlock st), Returns (ErrAw AwOfflineActor))
                  else if up_Clock (rc_update current) =? maxUint64 then (Some (unlock st), Returns (ErrAw AwClockExhausted))
                  else let '(st, update) := heartbeatLocked st actor current now in
                       (Some (unlock st), Returns (Ok update))
              end
          end
      end
  end.

(** The end of [next], with the clock of the new update. The error of [Normalize]
    returns without unlocking. *)
Definition next_install (st : Store) (actor : bytes) (clock : Z) (state : ptr bytes) (now : Z) : ptr Store * outcome (result Update) :=
  match Normalize (mkUpdate actor clock state) (st_options st) with
  | Err e => (Some st, Returns (Err e))
  | Ok update =>
      if bool_decide (st_records st !! actor = None) && (ao_MaxActors (st_options st) <=? Z.of_nat (size (st_records st)))
      then (Some (unlock st), Returns (ErrAw AwResourceLimit))
      else (Some (unlock (publishLocked (put_record st actor update now) Local update now)), Returns (Ok (cloneUpdate update)))
  end.

Definition Store_next (store : ptr Store) (actor : bytes) (state : ptr bytes) (now wall : Z) : ptr Store * outcome (result Update) :=
  match store with
  | None => (None, Returns (ErrAw AwInvalidOptions))
  | Some st =>
      let now := normalizeTime now wall in
      match lock st with
      | None => (Some st, Blocks)
      | Some st =>
          match st_records st !! actor with
          | Some current =>
              if up_Clock (rc_update current) =? maxUint64 then (Some (unlock st), Returns (ErrAw AwClockExhausted))
              else if Online (rc_update current) && bytes_Equal state (up_State (rc_update current)) then
                let '(st, update) := heartbeatLocked st actor current now in (Some (unlock st), Returns (Ok update))
              else next_install st actor (u64 (up_Clock (rc_update current) + 1)) state now
          | None => next_install st actor 1 state now
          end
      end
  end.

Definition Store_Set (store : ptr Store) (actor : bytes) (state : ptr bytes) (now wall : Z) : ptr Store * outcome (result Update) :=
  Store_next store actor state now wall.

Definition Store_Remove (store : ptr Store) (actor : bytes) (now wall : Z) : ptr Store * outcome (result Update) :=
  Store_next store actor None now wall.

Definition Store_Apply (store : ptr Store) (update : Update) (now wall : Z) : ptr Store * outcome (result bool) :=
  match store with
  | None => (None, Returns (ErrAw AwInvalidOptions))
  | Some st =>
      match Normalize update (st_options st) with
      | Err e => (Some st, Returns (Err e))
      | Ok normalized =>
          let now := normalizeTime now wall in
          match lock st with
          | None => (Some st, Blocks)
          | Some st =>
              let install := Some (unlock (publishLocked (put_record st (up_Actor normalized) normalized now) Remote normalized now)) in
              match st_records st !! up_Actor normalized with
              | None =>
                  if ao_MaxActors (st_options st) <=? Z.of_nat (size (st_records st))
                  then (Some (unlock st), Returns (ErrAw AwResourceLimit))
                  else (install, Returns (Ok true))
              | Some current =>
                  if up_Clock normalized <? up_Clock (rc_update current) then (Some (unlock st), Returns (Ok false))
                  else if up_Clock normalized =? up_Clock (rc_update current) then
                    if negb (sameUpdate normalized (rc_update current))
                    then (Some (unlock st), Returns (ErrAw AwStateConflict))
                    else (Some (unlock st), Returns (Ok false))
                  else (install, Returns (Ok true))
              end
          end
      end
  end.

Definition Store_ActiveAt (store : ptr Store) (now wall : Z) : outcome (list Update) :=
  match store with
  | None => Returns []
  | Some st =>
      match lock st with
      | None => Blocks
      | Some st => Returns (activeAtLocked st (normalizeTime now wall))
      end
  end.

(** [Store.Options], which takes no lock. *)
Definition Store_Options (store : ptr Store) : AwarenessOptions :=
  match store with
  | None => mkAwarenessOptions 0 0 0 0 0
  | Some st => st_options st
  end.

(** [SubscribeAt]; the subscription is the ID of its subscriber. *)
Definition Store_SubscribeAt (store : ptr Store) (now wall : Z) (callback : ptr (Event → bool)) : ptr Store * outcome (result Z) :=
  match store, callback with
  | None, _ => (None, Returns (ErrAw AwInvalidOptions))
  | Some st, None => (Some st, Returns (ErrAw AwNilCallback))
  | Some st, Some callback =>
      let now := normalizeTime now wall in
      match lock st with
      | None => (Some st, Blocks)
      | Some st =>
          let with_hub hub := mkStore (st_mu st) (st_options st) (st_records st) (st_version st) hub in
          match hub_subscribe (st_hub st) callback with
          | (hub, Err e) => (Some (unlock (with_hub hub)), Returns (Err e))
          | (hub, Ok id) =>
              let event := mkEvent (st_version st) Initial emptyUpdate (activeAtLocked st now) 0 in
              (Some (unlock (with_hub (hub_alter (enqueue event) id hub))), Returns (Ok id))
          end
      end
  end.

(** [Subscription.Unsubscribe], which takes the hub's lock only. *)
Definition Store_Unsubscribe (st : Store) (id : Z) : Store :=
  mkStore (st_mu st) (st_options st) (st_records st) (st_version st) (hub_unsubscribe id (st_hub st)).

(** One record under [Expire]. *)
Definition expire_due (timeout now : Z) (current : record) : bool :=
  Online (rc_update current) && negb (rc_expired current) && (timeout <? time_Sub now (rc_lastSeen current)).
Definition expire_record (timeout now : Z) (current : record) : record :=
  if expire_due timeout now current then mkRecord (rc_update current) (rc_lastSeen current) true else current.

Definition Store_Expire (store : ptr Store) (now wall : Z) : ptr Store * outcome bool :=
  match store with
  | None => (None, Returns false)
  | Some st =>
      let now := normalizeTime now wall in
      match lock st with
      | None => (Some st, Blocks)
      | Some st =>
          let timeout := ao_Timeout (st_options st) in
          let changed := existsb (expire_due timeout now) (map_to_list (st_records st)).*2 in
          let st := mkStore (st_mu st) (st_options st) (expire_record timeout now <$> st_records st) (st_version st) (st_hub st) in
          (Some (unlock (if changed then publishLocked st Expired emptyUpdate now else st)), Returns changed)
      end
  end.

(** [StartExpiry]: [ctx] is the context with whether it is already cancelled, and
    [ticks] are the times the ticker delivers before it is. The scheduler calls
    [Expire] at once and at every tick. *)
Definition Store_StartExpiry (store : ptr Store) (ctx : ptr bool) (interval wall : Z) (ticks : list Z) : ptr Store * result unit :=
  match store, ctx with
  | None, _ => (None, ErrAw AwInvalidOptions)
  | Some _, None => (store, ErrAw AwNilContext)
  | Some _, Some cancelled =>
      if interval <=? 0 then (store, ErrAw AwInvalidExpiryInterval)
      else if cancelled then (store, Ok tt)
      else (foldl (λ store now, (Store_Expire store now wall).1) store (wall :: ticks), Ok tt)
  end.
