(* ===== verification/AwarenessTheory.v ===== *)
(** * Presence: theorems

    Normal forms, when the lock of a store is left held, and the encoding of updates. *)

From S2P Require Import Prelude Utf8 Wire Json JsonTheory Awareness.

(** ** Normal forms *)

(** An update as [Normalize] leaves it: a canonical object or nil. *)
Definition normal (u : Update) : Prop :=
  ∀ raw, up_State u = Some raw → raw ≠ [] ∧ canonical_object raw = Some raw.

Lemma normalizeOptions_idem o : normalizeOptions (normalizeOptions o) = normalizeOptions o.
Proof. unfold normalizeOptions at 2 3. destruct (Z.eqb_spec (ao_MaxSubscribers o) 0); [done|]. unfold normalizeOptions. by guard_false. Qed.

Lemma Normalize_inv u o n :
  Normalize u o = Ok n →
  up_Actor n = up_Actor u ∧ up_Clock n = up_Clock u ∧ up_Clock u ≠ 0 ∧ normal n ∧
  (up_State u = None ↔ up_State n = None) ∧ (normal u → n = u).
Proof.
  unfold Normalize, canonicalState. destruct (negb _); [done|]. destruct (_ || _); [done|].
  destruct (Z.eqb_spec (up_Clock u) 0); [done|].
  destruct (up_State u) as [raw|] eqn:Hs.
  - destruct (_ || _); [done|]. destruct (canonical_object raw) as [c|] eqn:Hc; [|done].
    destruct (_ <? _); [done|]. intros [= <-]. cbn. split_and!; try done.
    + intros raw' [= <-]. split; [by eapply canonical_object_nonempty|by eapply canonical_object_fixed].
    + intros Hu. destruct (Hu raw Hs) as [_ Hr]. rewrite Hr in Hc. injection Hc as <-. destruct u; cbn in *. by subst.
  - intros [= <-]. cbn. split_and!; try done. intros _. destruct u; cbn in *. by subst.
Qed.

Lemma Normalize_normal u o n : normal u → Normalize u o = Ok n → n = u.
Proof. intros Hu Hn. by apply Normalize_inv in Hn as (_ & _ & _ & _ & _ & H); auto. Qed.

(** Normalizing again changes nothing. *)
Lemma Normalize_idem u o n : Normalize u o = Ok n → Normalize n o = Ok n.
Proof.
  intros Hn. pose proof (Normalize_inv u o n Hn) as (Ha & Hc & _ & Hnorm & Hst & _). revert Hn.
  unfold Normalize, canonicalState. rewrite Ha, Hc. destruct (negb _); [done|]. destruct (_ || _); [done|].
  destruct (_ =? 0); [done|]. destruct (up_State u) as [raw|] eqn:Hs.
  - destruct (_ || _); [done|]. destruct (canonical_object raw) as [c|] eqn:Hc'; [|done].
    destruct (Z.ltb_spec (ao_MaxStateBytes (normalizeOptions o)) (len c)); [done|]. intros [= <-]. cbn.
    pose proof (canonical_object_nonempty raw c Hc') as Hne. assert (len c ≠ 0) by (unfold len; destruct c; [done|cbn; lia]).
    guard_false. rewrite (canonical_object_fixed raw c Hc'). by guard_false.
  - intros [= <-]. done.
Qed.

Lemma cloneUpdate_normal u : normal u → cloneUpdate u = u.
Proof.
  intros Hu. unfold cloneUpdate. destruct u as [a c [raw|]]; [|done]. cbn.
  destruct (Hu raw eq_refl) as [Hne _]. by destruct raw.
Qed.

Lemma bytes_Equal_normal a b : normal a → normal b → bytes_Equal (up_State a) (up_State b) = true → up_State a = up_State b.
Proof.
  intros Ha Hb H. apply bool_decide_eq_true_1 in H. destruct (up_State a) as [ra|] eqn:Ea, (up_State b) as [rb|] eqn:Eb; cbn in H; subst; try done.
  - by destruct (Ha [] Ea).
  - by destruct (Hb [] Eb).
Qed.

Lemma sameUpdate_normal a b : normal a → normal b → sameUpdate a b = true ↔ a = b.
Proof.
  intros Ha Hb. unfold sameUpdate. split.
  - intros H. breflect. destruct a as [aa ac ra], b as [ba bc rb]. cbn in *. subst. f_equal.
    by apply (bytes_Equal_normal (mkUpdate ba bc ra) (mkUpdate ba bc rb)).
  - intros ->. unfold bytes_Equal. by rewrite !bool_decide_eq_true_2, Z.eqb_refl.
Qed.

(** ** Calls of a store *)

Inductive call :=
| CSet (actor : bytes) (state : ptr bytes) (now wall : Z)
| CRemove (actor : bytes) (now wall : Z)
| CHeartbeat (actor : bytes) (now wall : Z)
| CApply (update : Update) (now wall : Z)
| CActiveAt (now wall : Z)
| CSubscribeAt (now wall : Z) (callback : ptr (Event → bool))
| CExpire (now wall : Z).

(** The outcome without the value. *)
Definition outcome_map {A B} (f : A → B) (o : outcome A) : outcome B :=
  match o with Returns a => Returns (f a) | Blocks => Blocks end.
Definition discard {A} (r : result A) : result unit := match r with Ok _ => Ok tt | Err e => Err e end.

Definition do_call (st : Store) (c : call) : ptr Store * outcome (result unit) :=
  match c with
  | CSet actor state now wall => prod_map id (outcome_map discard) (Store_Set (Some st) actor state now wall)
  | CRemove actor now wall => prod_map id (outcome_map discard) (Store_Remove (Some st) actor now wall)
  | CHeartbeat actor now wall => prod_map id (outcome_map discard) (Store_Heartbeat (Some st) actor now wall)
  | CApply update now wall => prod_map id (outcome_map discard) (Store_Apply (Some st) update now wall)
  | CActiveAt now wall => (Some st, outcome_map (λ _, Ok tt) (Store_ActiveAt (Some st) now wall))
  | CSubscribeAt now wall callback => prod_map id (outcome_map discard) (Store_SubscribeAt (Some st) now wall callback)
  | CExpire now wall => prod_map id (outcome_map (λ _, Ok tt)) (Store_Expire (Some st) now wall)
  end.

(** The calls that get as far as the lock; the others are refused before. *)
Definition reaches_lock (o : AwarenessOptions) (c : call) : bool :=
  match c with
  | CHeartbeat actor _ _ => is_ok (Normalize (mkUpdate actor 1 None) o)
  | CApply update _ _ => is_ok (Normalize update o)
  | CSubscribeAt _ _ callback => bool_decide (is_Some callback)
  | _ => true
  end.

(** A new update that is refused by [Normalize] after the lock was taken. *)
Definition next_refused (st : Store) (actor : bytes) (state : ptr bytes) : bool :=
  match st_records st !! actor with
  | Some current =>
      negb (up_Clock (rc_update current) =? maxUint64) &&
      negb (Online (rc_update current) && bytes_Equal state (up_State (rc_update current))) &&
      negb (is_ok (Normalize (mkUpdate actor (u64 (up_Clock (rc_update current) + 1)) state) (st_options st)))
  | None => negb (is_ok (Normalize (mkUpdate actor 1 state) (st_options st)))
  end.
Definition leaks (st : Store) (c : call) : bool :=
  match c with
  | CSet actor state _ _ => next_refused st actor state
  | CRemove actor _ _ => next_refused st actor None
  | _ => false
  end.

Lemma locked_blocks st c :
  st_mu st = true → reaches_lock (st_options st) c = true → do_call st c = (Some st, Blocks).
Proof.
  intros Hmu. assert (lock st = None) as Hl by (unfold lock; by rewrite Hmu).
  destruct c as [actor state ? ?|actor ? ?|actor ? ?|u ? ?|? ?|? ? [cb|]|? ?]; cbn; intros Hr;
    try done; try (by rewrite Hl).
  - destruct (Normalize _ _); [|done]. by rewrite Hl.
  - destruct (Normalize _ _); [|done]. by rewrite Hl.
Qed.

Lemma lock_free st :
  st_mu st = false → lock st = Some (mkStore true (st_options st) (st_records st) (st_version st) (st_hub st)).
Proof. unfold lock. by intros ->. Qed.

(** [next] on an unlocked store. *)
Lemma next_lock st actor state now wall :
  st_mu st = false →
  ∃ st1 r, Store_next (Some st) actor state now wall = (Some st1, Returns r) ∧
    st_mu st1 = next_refused st actor state ∧
    (next_refused st actor state = true → is_ok r = false ∧
       st_options st1 = st_options st ∧ st_records st1 = st_records st ∧ st_version st1 = st_version st).
Proof.
  intros Hmu. unfold Store_next, next_refused. rewrite lock_free by done. cbn [st_records st_options].
  destruct (st_records st !! actor) as [cur|] eqn:Hc.
  - destruct (_ =? maxUint64); [by eexists _, _|]. destruct (_ && bytes_Equal _ _); [by eexists _, _|].
    unfold next_install. cbn [st_records st_options]. destruct (Normalize _ _); cbn [negb andb is_ok]; [|by eexists _, _].
    destruct (_ && _); by eexists _, _.
  - unfold next_install. cbn [st_records st_options]. destruct (Normalize _ _); cbn [negb is_ok]; [|by eexists _, _].
    destruct (_ && _); by eexists _, _.
Qed.

(** C21: the lock of a store. Every call on a store whose lock is free returns, and it
    leaves the lock free unless it is a Set or a Remove whose new update does not
    normalize (an invalid actor, a state that is no JSON object or too long). Such a
    call returns its error and changes nothing, but keeps the lock: from then on
    every call that gets as far as the lock waits for ever. *)
Theorem Store_lock_leak (st : Store) (c : call) (Hmu : st_mu st = false) :
  ∃ st1 r, do_call st c = (Some st1, Returns r) ∧ st_mu st1 = leaks st c ∧
    (leaks st c = true → is_ok r = false ∧ st_records st1 = st_records st ∧ st_version st1 = st_version st ∧
       ∀ c', reaches_lock (st_options st) c' = true → do_call st1 c' = (Some st1, Blocks)).
Proof.
  assert (∀ actor state now wall, ∃ st1 r, prod_map id (outcome_map discard) (Store_next (Some st) actor state now wall) = (Some st1, Returns r) ∧
    st_mu st1 = next_refused st actor state ∧ (next_refused st actor state = true → is_ok r = false ∧ st_records st1 = st_records st ∧
      st_version st1 = st_version st ∧ ∀ c', reaches_lock (st_options st) c' = true → do_call st1 c' = (Some st1, Blocks))) as Hnext.
  { intros actor state now wall. destruct (next_lock st actor state now wall Hmu) as (st1 & r & -> & H1 & H2).
    exists st1, (discard r). split; [done|]. split; [done|]. intros Hr. destruct (H2 Hr) as (Hok & Ho & Hrec & Hv).
    split; [by destruct r|]. split; [done|]. split; [done|]. intros c' Hc'. apply locked_blocks; [congruence|by rewrite Ho]. }
  destruct c as [actor state now wall|actor now wall|actor ? ?|u ? ?|? ?|? ? [cb|]|? ?]; cbn [do_call leaks]; try apply Hnext;
    unfold Store_Heartbeat, Store_Apply, Store_ActiveAt, Store_SubscribeAt, Store_Expire; rewrite ?(lock_free st Hmu).
  - destruct (Normalize _ _); [|by eexists _, _]. cbn. destruct (_ !! _); [|by eexists _, _].
    destruct (negb _); [by eexists _, _|]. destruct (_ =? _); by eexists _, _.
  - destruct (Normalize _ _); [|by eexists _, _]. cbn. destruct (_ !! _).
    + destruct (_ <? _); [by eexists _, _|]. destruct (_ =? _); [|by eexists _, _]. destruct (negb _); by eexists _, _.
    + destruct (_ <=? _); by eexists _, _.
  - by eexists _, _.
  - destruct (hub_subscribe _ _) as [hub [id|e]]; by eexists _, _.
  - by eexists _, _.
  - destruct (existsb _ _); by eexists _, _.
Qed.

(** A group with the default limits and one actor. *)
Definition w_store : Store := mkStore false DefaultAwarenessOptions ∅ 0 (mkHub 0 1024 ∅ ∅ 0).

Lemma Store_lock_leak_witness :
  NewStore DefaultAwarenessOptions = Ok w_store ∧
  ∃ st1 r, do_call w_store (CSet (str "ann") (Some (str "[]")) 5 5) = (Some st1, Returns r) ∧ st_mu st1 = true ∧
    do_call st1 (CActiveAt 6 6) = (Some st1, Blocks).
Proof.
  split; [reflexivity|].
  destruct (Store_lock_leak w_store (CSet (str "ann") (Some (str "[]")) 5 5)) as (st1 & r & H1 & H2 & H3); [reflexivity|].
  exists st1, r. split; [exact H1|]. split; [rewrite H2; vm_compute; reflexivity|].
  apply H3; [vm_compute; reflexivity|reflexivity].
Defined.

(** ** The encoding of updates *)

(** The bytes before the status of an update, and the whole update. *)
Definition update_head (u : Update) : bytes :=
  protocolVersion :: bytes_enc (up_Actor u) ++ putUvarint (up_Clock u).
Definition update_enc (u : Update) : bytes :=
  update_head u ++ match up_State u with None => [Zbyte 0] | Some state => Zbyte 1 :: bytes_enc state end.

Lemma marshal_enc u options :
  Update_MarshalBinaryWithOptions u options = update_enc <$> Normalize u options.
Proof.
  unfold Update_MarshalBinaryWithOptions. destruct (Normalize u options) as [n|]; [|done]. cbn.
  unfold update_enc, update_head, bytes_enc, AppendUvarint. cbn. destruct (up_State n); f_equal; by rewrite ?app_comm_cons, <-!app_assoc.
Qed.

(** Limits are machine integers. *)
Definition limits_ok (options : AwarenessOptions) : Prop :=
  ao_MaxActorBytes options <= maxInt ∧ ao_MaxStateBytes options <= maxInt.

Lemma limits_normalized options :
  ao_MaxActorBytes (normalizeOptions options) = ao_MaxActorBytes options ∧
  ao_MaxStateBytes (normalizeOptions options) = ao_MaxStateBytes options.
Proof. unfold normalizeOptions. by destruct (_ =? 0). Qed.

Lemma Normalize_normalized u options : Normalize u (normalizeOptions options) = Normalize u options.
Proof. unfold Normalize. by rewrite normalizeOptions_idem. Qed.

(** The limits that an update within them passes. *)
Lemma Normalize_limits u options n :
  limits_ok options → Normalize u options = Ok n →
  AwarenessOptions_valid (normalizeOptions options) = true ∧ up_Clock u ≠ 0 ∧
  1 <= len (up_Actor u) <= ao_MaxActorBytes options ∧ len_ok (up_Actor u) ∧
  ∀ raw, up_State u = Some raw → 1 <= len raw <= ao_MaxStateBytes options ∧ len_ok raw.
Proof.
  intros [Ha Hs]. unfold Normalize. destruct (limits_normalized options) as [-> ->].
  destruct (AwarenessOptions_valid _); [|done]. cbn [negb]. destruct (_ || _) eqn:E; [done|]. breflect.
  destruct (Z.eqb_spec (up_Clock u) 0); [done|]. intros Hst. split; [done|]. split; [done|].
  pose proof (nonblank_len (up_Actor u) ltac:(done)). split; [lia|]. split; [unfold len_ok; lia|].
  intros raw Hr. rewrite Hr in Hst. destruct (_ || _) eqn:E'; [done|]. breflect. pose proof (len_nonneg raw).
  split; [lia|]. unfold len_ok. lia.
Qed.

(** Reading what follows the version byte up to the status. *)
Lemma head_read u status rest max :
  len_ok (up_Actor u) → 0 <= len (up_Actor u) <= max → is_u64 (up_Clock u) →
  let data := update_head u ++ status :: rest in
  ∃ p, ReadBytes data 1 max = Some (up_Actor u, p) ∧ ReadUvarint data p = Some (up_Clock u, p + UvarintSize (up_Clock u)) ∧
    data !! Z.to_nat (p + UvarintSize (up_Clock u)) = Some status ∧
    remaining data (p + UvarintSize (up_Clock u)) (status :: rest).
Proof.
  intros Hl Hm Hc data. assert (remaining data 1 (bytes_enc (up_Actor u) ++ putUvarint (up_Clock u) ++ status :: rest)) as Hr.
  { subst data. unfold update_head. cbn [app]. rewrite <-app_assoc. apply (remaining_intro [protocolVersion]). }
  apply (ReadBytes_ok _ _ max) in Hr as [Hb Hr]; [|done|lia]. eexists. split; [exact Hb|].
  apply ReadUvarint_ok in Hr as [Hu Hr]; [|done]. split; [exact Hu|]. split; [|done].
  destruct Hr as [Hp Hr]. unfold slice_from in Hr. rewrite <-(Nat.add_0_r (Z.to_nat _)), <-lookup_drop, Hr. done.
Qed.

Lemma update_head_len u : 1 <= len (up_Actor u) → 4 <= len (update_head u).
Proof.
  intros Ha. unfold update_head. rewrite len_cons, len_app, len_bytes_enc. fold (UvarintSize (up_Clock u)).
  unfold UvarintSize. pose proof (putUvarint_pos (len (up_Actor u))). pose proof (putUvarint_pos (up_Clock u)). lia.
Qed.

(** Decoding an update whose head is well-formed. *)
Lemma unmarshal_head u status rest options n :
  limits_ok options → Normalize u options = Ok n → is_u64 (up_Clock u) →
  UnmarshalUpdate (update_head u ++ status :: rest) options =
  if byteZ status =? 0 then
    if negb (len rest =? 0) then ErrAw AwInvalidUpdate else Normalize (mkUpdate (up_Actor u) (up_Clock u) None) options
  else if byteZ status =? 1 then
    match ReadBytes (update_head u ++ status :: rest) (len (update_head u) + 1) (ao_MaxStateBytes options) with
    | None => ErrAw AwInvalidUpdate
    | Some (state, next) =>
        if negb (next =? len (update_head u ++ status :: rest)) then ErrAw AwInvalidUpdate
        else Normalize (mkUpdate (up_Actor u) (up_Clock u) (copy_bytes state)) options
    end
  else ErrAw AwInvalidUpdate.
Proof.
  intros Hlim Hn Hc. pose proof (Normalize_limits u options n Hlim Hn) as (Hv & H0 & Ha & Hal & _).
  pose proof (update_head_len u ltac:(lia)) as Hhl. unfold UnmarshalUpdate. rewrite Hv. cbn [negb].
  destruct (limits_normalized options) as [-> ->].
  destruct (head_read u status rest (ao_MaxActorBytes options) Hal ltac:(lia) Hc) as (p & Hb & Hu & Hd & Hr).
  assert (p + UvarintSize (up_Clock u) = len (update_head u)) as Hp.
  { apply remaining_len in Hr. rewrite len_app, !len_cons in Hr. lia. }
  rewrite Hp in *. rewrite len_app, len_cons. pose proof (len_nonneg rest).
  assert (head (update_head u ++ status :: rest) = Some protocolVersion) as -> by done.
  rewrite bool_decide_eq_true_2 by done. guard_false. rewrite Hb, Hu. guard_false. rewrite Hd.
  rewrite !Normalize_normalized. destruct (byteZ status =? 0).
  - destruct (Z.eqb_spec (len rest) 0); [guard_false|guard_true]; done.
  - destruct (byteZ status =? 1); [|done]. 
    destruct (ReadBytes _ (len (update_head u) + 1) _) as [[state next]|]; [|done]. by rewrite Normalize_normalized.
Qed.

Lemma unmarshal_enc u options n :
  limits_ok options → Normalize u options = Ok n → is_u64 (up_Clock u) → UnmarshalUpdate (update_enc u) options = Ok n.
Proof.
  intros Hlim Hn Hc. pose proof (Normalize_limits u options n Hlim Hn) as (_ & _ & _ & _ & Hs). unfold update_enc.
  destruct (up_State u) as [raw|] eqn:Hst.
  - destruct (Hs raw eq_refl) as [Hl Hok]. rewrite (unmarshal_head u _ _ options n) by done.
    change (byteZ (Zbyte 1) =? 0) with false. change (byteZ (Zbyte 1) =? 1) with true. cbn iota.
    assert (remaining (update_head u ++ Zbyte 1 :: bytes_enc raw) (len (update_head u) + 1) (bytes_enc raw ++ [])) as Hr.
    { rewrite app_nil_r. pose proof (remaining_intro (update_head u ++ [Zbyte 1]) (bytes_enc raw)) as H.
      rewrite len_app, <-app_assoc in H. exact H. }
    apply (ReadBytes_ok _ _ (ao_MaxStateBytes options)) in Hr as [-> Hr]; [|done|lia]. apply remaining_nil in Hr. rewrite Hr.
    guard_false. assert (copy_bytes raw = Some raw) as -> by (destruct raw; [rewrite len_nil in Hl; lia|done]). rewrite <-Hst. by destruct u.
  - rewrite (unmarshal_head u _ _ options n) by done. cbn. rewrite <-Hst. by destruct u.
Qed.

(** The two forms of a removal. *)
Lemma unmarshal_empty u options n :
  limits_ok options → Normalize u options = Ok n → is_u64 (up_Clock u) → up_State u = None →
  UnmarshalUpdate (update_head u ++ [Zbyte 1; Zbyte 0]) options = Ok n.
Proof.
  intros Hlim Hn Hc Hst. rewrite (unmarshal_head u _ _ options n) by done.
  change (byteZ (Zbyte 1) =? 0) with false. change (byteZ (Zbyte 1) =? 1) with true. cbn iota.
  assert (remaining (update_head u ++ [Zbyte 1; Zbyte 0]) (len (update_head u) + 1) (bytes_enc [] ++ [])) as Hr.
  { pose proof (remaining_intro (update_head u ++ [Zbyte 1]) [Zbyte 0]) as H. rewrite len_app, <-app_assoc in H. exact H. }
  assert (0 <= ao_MaxStateBytes options).
  { pose proof (Normalize_limits u options n Hlim Hn) as (Hv & _). unfold AwarenessOptions_valid in Hv.
    destruct (limits_normalized options) as [_ <-]. breflect. lia. }
  apply (ReadBytes_ok _ _ (ao_MaxStateBytes options)) in Hr as [-> Hr]; [|done|by rewrite len_nil].
  apply remaining_nil in Hr. rewrite Hr. guard_false. cbn [copy_bytes]. rewrite <-Hst. by destruct u.
Qed.

Lemma unmarshal_inv data options n :
  UnmarshalUpdate data options = Ok n →
  ∃ u, is_u64 (up_Clock u) ∧ Normalize u options = Ok n ∧
    (data = update_enc u ∨ (up_State u = None ∧ data = update_head u ++ [Zbyte 1; Zbyte 0])).
Proof.
  unfold UnmarshalUpdate. destruct (negb _); [done|]. destruct (_ || _) eqn:E; [done|]. breflect.
  destruct (ReadBytes data 1 _) as [[actor p]|] eqn:Hb; [|done]. destruct (ReadUvarint data p) as [[clock q]|] eqn:Hu; [|done].
  destruct (_ || _) eqn:E2; [done|]. breflect. destruct (data !! Z.to_nat q) as [status|] eqn:Hd; [|done].
  apply ReadBytes_inv in Hb as (Hal & _ & Hp & rest1 & Hr1 & Hr1'). apply ReadUvarint_inv in Hu as (Hc & Hq & rest & Hr2 & Hr).
  rewrite (remaining_unique _ _ _ _ Hr1' Hr2) in Hr1.
  assert (∃ rest', rest = status :: rest') as [rest' ->].
  { destruct Hr as [Hq0 Hr]. unfold slice_from in Hr. rewrite <-(Nat.add_0_r (Z.to_nat q)), <-lookup_drop, Hr in Hd.
    destruct rest as [|b rest']; [done|]. injection Hd as ->. by eexists. }
  assert (∀ state, data = update_head (mkUpdate actor clock state) ++ status :: rest') as Hdata.
  { intros state. destruct data as [|b data']; [done|]. cbn in *. injection H0 as ->. destruct Hr1 as [_ Hr1].
    change (slice_from (protocolVersion :: data') 1) with data' in Hr1. rewrite Hr1. unfold update_head. cbn. by rewrite <-app_assoc. }
  pose proof (remaining_len _ _ _ Hr) as Hlen. rewrite len_cons in Hlen. rewrite !Normalize_normalized.
  destruct (Z.eqb_spec (byteZ status) 0) as [Hs0|Hs0]; [|destruct (Z.eqb_spec (byteZ status) 1) as [Hs1|]; [|done]].
  - destruct (Z.eqb_spec (q + 1) (len data)); [|done]. cbn [negb]. intros Hn. exists (mkUpdate actor clock None).
    split; [done|]. split; [done|]. left. unfold update_enc. cbn [up_State]. rewrite (Hdata None) at 1. f_equal. f_equal.
    + by rewrite <-(Zbyte_byteZ status), Hs0.
    + apply nil_length_inv. unfold len in *. lia.
  - destruct (ReadBytes data (q + 1) _) as [[state next]|] eqn:Hb; [|done].
    destruct (Z.eqb_spec next (len data)) as [->|]; [|done]. cbn [negb]. rewrite Normalize_normalized. intros Hn.
    exists (mkUpdate actor clock (copy_bytes state)). split; [done|]. split; [done|].
    apply ReadBytes_inv in Hb as (_ & _ & _ & rest2 & Hr3 & Hr4).
    assert (rest' = bytes_enc state ++ rest2 ∧ rest2 = []) as [-> ->].
    { split; [|by eapply remaining_unique; [exact Hr4|apply remaining_nil]].
      eapply remaining_unique; [|exact Hr3]. by apply (remaining_app data q [status]). }
    rewrite app_nil_r in Hdata. rewrite <-(Zbyte_byteZ status), Hs1 in Hdata. destruct state as [|b state].
    + right. split; [done|]. apply Hdata.
    + left. apply Hdata.
Qed.

(** C28: the awareness-v1 encoding. What an update encodes to is decoded, within the
    same limits, to its normal form, which encodes to the same bytes. Exactly those
    byte strings are decoded that write an update which normalizes, and one more for
    every removal: the status byte of an online update followed by an empty state is
    taken for a removal as well. *)
Theorem Update_codec (options : AwarenessOptions) (Hlim : limits_ok options) :
  (∀ u data, is_u64 (up_Clock u) → Update_MarshalBinaryWithOptions u options = Ok data →
     ∃ n, Normalize u options = Ok n ∧ UnmarshalUpdate data options = Ok n ∧
       Update_MarshalBinaryWithOptions n options = Ok data) ∧
  (∀ data n, UnmarshalUpdate data options = Ok n ↔
     ∃ u, is_u64 (up_Clock u) ∧ Normalize u options = Ok n ∧
       (data = update_enc u ∨ (up_State u = None ∧ data = update_head u ++ [Zbyte 1; Zbyte 0]))).
Proof.
  split.
  - intros u data Hc. rewrite marshal_enc. destruct (Normalize u options) as [n|] eqn:Hn; [|done]. intros [= <-].
    exists n. split; [done|]. pose proof (Normalize_inv u options n Hn) as (_ & Hcl & _). pose proof (Normalize_idem u options n Hn) as Hi.
    split; [apply unmarshal_enc; [done|done|by rewrite Hcl]|]. rewrite marshal_enc, Hi. done.
  - intros data n. split; [apply unmarshal_inv|]. intros (u & Hc & Hn & [->|[Hs ->]]); [by apply unmarshal_enc|by apply unmarshal_empty].
Qed.

Lemma Update_codec_witness :
  ∃ data n, Update_MarshalBinary (mkUpdate (str "ann") 7 (Some (str "{ }"))) = Ok data ∧
    UnmarshalUpdate data DefaultAwarenessOptions = Ok n ∧ n = mkUpdate (str "ann") 7 (Some (str "{}")).
Proof.
  destruct (Update_codec DefaultAwarenessOptions) as [H _]; [split; vm_compute; discriminate|].
  destruct (H (mkUpdate (str "ann") 7 (Some (str "{ }"))) (update_enc (mkUpdate (str "ann") 7 (Some (str "{}")))))
    as (n & H1 & H2 & _); [split; [discriminate|reflexivity]|vm_compute; reflexivity|].
  eexists _, n. split; [vm_compute; reflexivity|]. split; [exact H2|].
  assert (Normalize (mkUpdate (str "ann") 7 (Some (str "{ }"))) DefaultAwarenessOptions = Ok (mkUpdate (str "ann") 7 (Some (str "{}"))))
    as E by (vm_compute; reflexivity). rewrite E in H1. by injection H1 as <-.
Defined.
