(* ===== verification/AwarenessObserve.v ===== *)
(** * Presence: what is shown and delivered

    The events a store publishes, what it shows and expires, and that its mailboxes
    lose nothing silently. *)

From S2P Require Import Prelude Awareness AwarenessTheory.

(** ** What subscribers are told *)

(** The hub counts the subscribers it publishes to, and has issued their IDs. *)
Definition hub_wf (hub : observationHub) : Prop :=
  hb_count hub = Z.of_nat (size (hb_subscribers hub)) ∧ hb_count hub <= hb_max hub ∧ hb_max hub <= maxInt ∧
  0 <= hb_nextID hub <= maxUint64 ∧ ∀ id, id ∈ hb_subscribers hub → id <= hb_nextID hub.

Lemma publish_loop event ids hub :
  NoDup ids →
  let hub' := foldl (λ hub id, hub_alter (enqueue event) id hub) hub ids in
  hb_nextID hub' = hb_nextID hub ∧ hb_max hub' = hb_max hub ∧ hb_subscribers hub' = hb_subscribers hub ∧
  hb_count hub' = hb_count hub ∧
  ∀ id, hb_objects hub' !! id = (if bool_decide (id ∈ ids) then enqueue event else λ s, s) <$> hb_objects hub !! id.
Proof.
  intros Hnd. revert hub. induction Hnd as [|id ids Hid Hnd IH]; intros hub; cbn.
  { split_and!; [done..|]. intros id. by destruct (hb_objects hub !! id). }
  destruct (IH (hub_alter (enqueue event) id hub)) as (-> & -> & -> & -> & H). split_and!; [done..|].
  intros id'. rewrite H. cbn [hub_alter hb_objects]. destruct (decide (id' = id)) as [->|Hne].
  - rewrite lookup_alter_eq, bool_decide_eq_false_2, bool_decide_eq_true_2 by set_solver.
    by destruct (hb_objects hub !! id).
  - rewrite lookup_alter_ne by done. by rewrite (bool_decide_ext (id' ∈ id :: ids) (id' ∈ ids)) by set_solver.
Qed.

(** One event for every subscriber, nothing for the others. *)
Definition published (event : Event) (hub hub' : observationHub) : Prop :=
  hb_nextID hub' = hb_nextID hub ∧ hb_max hub' = hb_max hub ∧ hb_subscribers hub' = hb_subscribers hub ∧
  hb_count hub' = hb_count hub ∧
  ∀ id, hb_objects hub' !! id =
    (if bool_decide (id ∈ hb_subscribers hub) then enqueue event else λ s, s) <$> hb_objects hub !! id.

Lemma hub_publish_spec hub event : published event hub (hub_publish hub event).
Proof.
  destruct (publish_loop event (elements (hb_subscribers hub)) hub) as (H1 & H2 & H3 & H4 & H5); [apply NoDup_elements|].
  split_and!; [done..|]. intros id. unfold hub_publish. rewrite H5.
  by rewrite (bool_decide_ext (id ∈ elements (hb_subscribers hub)) (id ∈ hb_subscribers hub)) by apply elem_of_elements.
Qed.

(** The snapshot an event of the store carries. *)
Definition announces (st st1 : Store) (origin : Origin) (update : Update) (now : Z) : Prop :=
  st_version st1 = u64 (st_version st + 1) ∧
  published (mkEvent (st_version st1) origin (cloneUpdate update) (activeAtLocked st1 now) 0) (st_hub st) (st_hub st1).

Lemma publishLocked_spec st st0 origin update now :
  st_hub st = st_hub st0 → st_version st = st_version st0 → hub_wf (st_hub st0) →
  announces st0 (unlock (publishLocked st origin update now)) origin update now.
Proof.
  intros Hh Hv (Hcount & _). split; [cbn; by rewrite Hv|]. cbn [unlock publishLocked st_hub st_version].
  change (activeAtLocked (unlock (publishLocked st origin update now)) now) with (activeAtLocked st now).
  rewrite Hh. unfold hub_active. destruct (Z.eqb_spec (hb_count (st_hub st0)) 0) as [H0|H0]; [|apply hub_publish_spec].
  cbn [negb]. split_and!; [done..|]. intros id.
  assert (hb_subscribers (st_hub st0) = ∅) as He by (apply leibniz_equiv, size_empty_inv; lia).
  rewrite He, bool_decide_eq_false_2 by set_solver. by destruct (_ !! id).
Qed.

(** The time a call works at. *)
Definition call_time (c : call) : Z :=
  match c with
  | CSet _ _ now wall | CRemove _ now wall | CHeartbeat _ now wall | CApply _ now wall | CActiveAt now wall
  | CSubscribeAt now wall _ | CExpire now wall => normalizeTime now wall
  end.

Definition quiet (st st1 : Store) : Prop :=
  st_records st1 = st_records st ∧ st_version st1 = st_version st ∧ st_hub st1 = st_hub st.

(** The call returned without an error. *)
Definition succeeded {A} (out : outcome (result A)) : Prop := ∃ a, out = Returns (Ok a).

Definition told {A} (st st1 : Store) (now : Z) (out : outcome (result A)) : Prop :=
  quiet st st1 ∨ succeeded out ∧ ∃ origin update, announces st st1 origin update now.

Lemma told_quiet {A} st st1 now (out : outcome (result A)) : quiet st st1 → told st st1 now out.
Proof. by left. Qed.

Lemma told_publish {A} st st0 origin update now (a : A) :
  st_hub st = st_hub st0 → st_version st = st_version st0 → hub_wf (st_hub st0) →
  told st0 (unlock (publishLocked st origin update now)) now (Returns (Ok a)).
Proof. intros. right. split; [by eexists|]. eexists _, _. by apply publishLocked_spec. Qed.

#[local] Hint Resolve told_quiet told_publish : core.
#[local] Hint Extern 0 (quiet _ _) => (split_and!; reflexivity) : core.

Lemma next_told st actor state now wall st1 out :
  hub_wf (st_hub st) → Store_next (Some st) actor state now wall = (Some st1, out) → told st st1 (normalizeTime now wall) out.
Proof.
  intros Hh. unfold Store_next, lock. destruct (st_mu st); [intros [= <- <-]; auto|]. cbn [st_records].
  assert (∀ clock, next_install (mkStore true (st_options st) (st_records st) (st_version st) (st_hub st)) actor clock state
    (normalizeTime now wall) = (Some st1, out) → told st st1 (normalizeTime now wall) out) as Hi.
  { intros clock. unfold next_install. destruct (Normalize _ _); [|intros [= <- <-]; auto].
    destruct (_ && _); intros [= <- <-]; auto. }
  destruct (st_records st !! actor) as [cur|]; [|apply Hi]. destruct (_ =? _); [intros [= <- <-]; auto|].
  destruct (_ && bytes_Equal _ _); [|apply Hi]. intros [= <- <-]. auto.
Qed.

Lemma hub_wf_published event hub hub' : hub_wf hub → published event hub hub' → hub_wf hub'.
Proof. unfold hub_wf. by intros Hh (-> & -> & -> & -> & _). Qed.

Lemma told_wf {A} st st1 now (out : outcome (result A)) : hub_wf (st_hub st) → told st st1 now out → hub_wf (st_hub st1).
Proof. intros Hh [(_ & _ & ->)|(_ & o & u & _ & Hp)]; [done|]. by eapply hub_wf_published. Qed.

(** A subscription: its mailbox starts with the presence of the moment. *)
Definition subscribed (st st1 : Store) (now : Z) (callback : Event → bool) : Prop :=
  st_records st1 = st_records st ∧ st_version st1 = st_version st ∧
  ∃ id, id ∉ hb_subscribers (st_hub st) ∧ hb_subscribers (st_hub st1) = {[id]} ∪ hb_subscribers (st_hub st) ∧
    hb_objects (st_hub st1) !! id =
      Some (enqueue (mkEvent (st_version st) Initial emptyUpdate (activeAtLocked st now) 0) (newSubscriber callback)) ∧
    ∀ id', id' ≠ id → hb_objects (st_hub st1) !! id' = hb_objects (st_hub st) !! id'.

Lemma subscribe_told st now wall callback st1 out :
  hub_wf (st_hub st) → hb_nextID (st_hub st) < maxUint64 →
  Store_SubscribeAt (Some st) now wall (Some callback) = (Some st1, out) →
  (quiet st st1 ∨ succeeded out ∧ subscribed st st1 (normalizeTime now wall) callback) ∧ hub_wf (st_hub st1).
Proof.
  intros Hh Hid. unfold Store_SubscribeAt, lock. destruct (st_mu st); [intros [= <- _]; auto|].
  cbn [st_hub]. unfold hub_subscribe. pose proof Hh as (Hc & Hm & Hmax & Hn & Hids).
  destruct (Z.leb_spec (hb_max (st_hub st)) (Z.of_nat (size (hb_subscribers (st_hub st))))); [intros [= <- _]; auto|].
  intros [= <- <-]. rewrite (u64_small (hb_nextID _ + 1)) by (unfold is_u64, maxUint64 in *; lia).
  set (id := hb_nextID (st_hub st) + 1). assert (id ∉ hb_subscribers (st_hub st)) as Hfresh by (intros ?%Hids; lia).
  split.
  - right. split; [by eexists|]. split; [done|]. split; [done|]. exists id. cbn. split; [done|]. split; [done|].
    rewrite lookup_alter_eq, lookup_insert_eq. split; [done|]. intros id' Hne.
    by rewrite lookup_alter_ne, lookup_insert_ne by done.
  - unfold hub_wf. cbn. rewrite size_union, size_singleton by set_solver.
    rewrite (u64_small (hb_count _ + 1)) by (unfold is_u64, maxInt in *; lia).
    split; [lia|]. split; [lia|]. split; [lia|]. split; [unfold maxUint64 in *; lia|]. intros id' [->%elem_of_singleton|H']%elem_of_union; [lia|].
    apply Hids in H'. lia.
Qed.

Lemma told_map {A B} (f : result A → result B) (Hf : ∀ a, ∃ b, f (Ok a) = Ok b) st st1 now (out : outcome (result A)) :
  told st st1 now out → told st st1 now (outcome_map f out).
Proof. intros [?|[[a ->] H]]; [by left|]. right. split; [|done]. destruct (Hf a) as [b Hb]. exists b. cbn. by rewrite Hb. Qed.

Lemma told_discard {A} st st1 now (out : outcome (result A)) : told st st1 now out → told st st1 now (outcome_map discard out).
Proof. apply told_map. by eexists. Qed.

Lemma call_told_set st st1 actor state now wall out :
  hub_wf (st_hub st) → prod_map id (outcome_map discard) (Store_next (Some st) actor state now wall) = (Some st1, out) →
  told st st1 (normalizeTime now wall) out.
Proof.
  intros Hh H. destruct (Store_next _ _ _ _ _) as [s o] eqn:E. injection H as -> <-. apply told_discard. by eapply next_told.
Qed.

Lemma heartbeat_told st st1 actor now wall out :
  hub_wf (st_hub st) → prod_map id (outcome_map discard) (Store_Heartbeat (Some st) actor now wall) = (Some st1, out) →
  told st st1 (normalizeTime now wall) out.
Proof.
  intros Hh. unfold Store_Heartbeat, lock. destruct (Normalize _ _); [|intros [= <- _]; auto].
  destruct (st_mu st); [intros [= <- _]; auto|]. cbn. destruct (_ !! _); [|intros [= <- _]; auto].
  destruct (negb _); [intros [= <- _]; auto|]. destruct (_ =? _); intros [= <- <-]; auto.
Qed.

Lemma apply_told st st1 u now wall out :
  hub_wf (st_hub st) → prod_map id (outcome_map discard) (Store_Apply (Some st) u now wall) = (Some st1, out) →
  told st st1 (normalizeTime now wall) out.
Proof.
  intros Hh. unfold Store_Apply, lock. destruct (Normalize _ _) as [n|]; [|intros [= <- _]; auto].
  destruct (st_mu st); [intros [= <- _]; auto|]. cbn. destruct (_ !! _).
  - destruct (_ <? _); [intros [= <- _]; auto|]. destruct (_ =? _); [|intros [= <- <-]; auto].
    destruct (negb _); intros [= <- _]; auto.
  - destruct (_ <=? _); intros [= <- <-]; auto.
Qed.

(** An expiry that changes no record is quiet. *)
Lemma expire_none (m : gmap bytes record) timeout now :
  existsb (expire_due timeout now) (map_to_list m).*2 = false → expire_record timeout now <$> m = m.
Proof.
  intros H. apply map_eq. intros k. rewrite lookup_fmap. destruct (m !! k) as [r|] eqn:Hk; [|done]. cbn. f_equal.
  unfold expire_record. destruct (expire_due timeout now r) eqn:Hd; [|done].
  assert (existsb (expire_due timeout now) (map_to_list m).*2 = true); [|congruence].
  apply existsb_exists. exists r. split; [|done]. apply list_elem_of_In, list_elem_of_fmap. exists (k, r). split; [done|].
  by apply elem_of_map_to_list.
Qed.

Lemma expire_told st st1 now wall out :
  hub_wf (st_hub st) → prod_map id (outcome_map (λ _, Ok tt)) (Store_Expire (Some st) now wall) = (Some st1, out) →
  told st st1 (normalizeTime now wall) out.
Proof.
  intros Hh. unfold Store_Expire, lock. destruct (st_mu st); [intros [= <- _]; auto|]. cbn.
  destruct (existsb _ _) eqn:E; intros [= <- <-]; [auto|]. left. split; [|done]. cbn. by apply expire_none.
Qed.

(** C27: what the subscribers of a store are told. A call that changes the records
    (a local update, a newer remote one, an expiry) gives the store its next version
    and puts exactly one event into the mailbox of every subscriber, with that
    version and the active presence after the change; a subscription starts with the
    presence of its moment. A call that returns an error or blocks leaves records,
    version and mailboxes alone. The hub's count stays exact. *)
Theorem Store_publishes (st st1 : Store) (c : call) (out : outcome (result unit))
    (Hhub : hub_wf (st_hub st)) (Hid : hb_nextID (st_hub st) < maxUint64)
    (Hcall : do_call st c = (Some st1, out)) :
  hub_wf (st_hub st1) ∧
  (quiet st st1 ∨
   succeeded out ∧ ((∃ origin update, announces st st1 origin update (call_time c)) ∨
                    ∃ callback, subscribed st st1 (call_time c) callback)).
Proof.
  assert (told st st1 (call_time c) out → hub_wf (st_hub st1) ∧ (quiet st st1 ∨ succeeded out ∧
    ((∃ origin update, announces st st1 origin update (call_time c)) ∨ ∃ callback, subscribed st st1 (call_time c) callback))) as Htold.
  { intros Ht. split; [by eapply told_wf|]. destruct Ht as [?|[? ?]]; auto. }
  destruct c as [actor state now wall|actor now wall|actor now wall|u now wall|now wall|now wall callback|now wall];
    cbn [do_call call_time] in *.
  - apply Htold. by apply call_told_set in Hcall.
  - apply Htold. by apply call_told_set in Hcall.
  - apply Htold. by apply heartbeat_told in Hcall.
  - apply Htold. by apply apply_told in Hcall.
  - injection Hcall as <- _. auto.
  - destruct (Store_SubscribeAt _ _ _ _) as [s o] eqn:E. injection Hcall as -> <-. destruct callback as [cb|].
    + apply subscribe_told in E as [[?|[[a ->] ?]] ?]; [by auto| |done|done]. split; [done|]. right. split; [by eexists|]. eauto.
    + injection E as <- _. auto.
  - apply Htold. by apply expire_told in Hcall.
Qed.

(** Ann sets a presence in an empty group. *)
Definition w_set : call := CSet (str "ann") (Some (str "{}")) 5 5.
Definition w_online : Store := default w_store (do_call w_store w_set).1.

Lemma w_hub_wf : hub_wf (st_hub w_store).
Proof. unfold hub_wf, maxInt, maxUint64. cbn. split_and!; try lia; [done|]. set_solver. Qed.

Lemma Store_publishes_witness :
  do_call w_store w_set = (Some w_online, Returns (Ok tt)) ∧ hub_wf (st_hub w_online) ∧ st_version w_online = 1.
Proof.
  split; [vm_compute; reflexivity|].
  destruct (Store_publishes w_store w_online w_set (Returns (Ok tt)) w_hub_wf) as [H _];
    [reflexivity|vm_compute; reflexivity|]. split; [exact H|vm_compute; reflexivity].
Defined.

(** ** What a store shows *)

(** Every record is the normal form of an update of its actor. *)
Definition record_wf (actor : bytes) (r : record) : Prop :=
  up_Actor (rc_update r) = actor ∧ normal (rc_update r) ∧ 0 < up_Clock (rc_update r) <= maxUint64.
Definition store_wf (st : Store) : Prop := ∀ actor r, st_records st !! actor = Some r → record_wf actor r.

Lemma Online_true u : Online u = true ↔ up_State u ≠ None.
Proof. unfold Online. rewrite bool_decide_eq_true. destruct (up_State u); split; eauto; by intros []. Qed.

Lemma active_increasing st now : store_wf st → increasing bytes_compare (up_Actor <$> activeAtLocked st now).
Proof.
  intros Hwf. unfold activeAtLocked. apply sorted_increasing; [apply _|apply (sort_by_key_sorted bytes_compare up_Actor)|].
  rewrite sort_by_any_perm, <-list_fmap_compose.
  assert (∀ l : list (bytes * record), (∀ e, e ∈ l → up_Actor (rc_update e.2) = e.1) → NoDup l.*1 →
    NoDup (up_Actor ∘ (cloneUpdate ∘ rc_update) <$> filter (λ r, isActive (ao_Timeout (st_options st)) now r = true) l.*2)) as H.
  { clear. induction l as [|[k r] l IH]; [constructor|]. cbn [fmap list_fmap fst snd]. intros Hl [Hk Hnd]%NoDup_cons.
    assert (NoDup (up_Actor ∘ (cloneUpdate ∘ rc_update) <$> filter (λ r, isActive (ao_Timeout (st_options st)) now r = true) l.*2))
      as IH' by (apply IH; [intros e He; apply Hl; by right|done]).
    rewrite filter_cons. case_decide; [|done]. cbn. constructor; [|done]. intros Hin. apply Hk.
    apply list_elem_of_fmap in Hin as (r' & Heq & Hin). apply list_elem_of_filter in Hin as [_ Hin].
    apply list_elem_of_fmap in Hin as ([k' r''] & -> & Hin). cbn in Heq.
    pose proof (Hl (k, r) ltac:(by left)) as H1. pose proof (Hl (k', r'') ltac:(by right)) as H2. cbn in H1, H2.
    apply list_elem_of_fmap. exists (k', r''). split; [cbn; congruence|done]. }
  apply H; [|apply NoDup_fst_map_to_list]. intros [k r] Hin%elem_of_map_to_list. by destruct (Hwf k r Hin).
Qed.

Lemma elem_of_active st now u :
  store_wf st →
  u ∈ activeAtLocked st now ↔
  ∃ actor r, st_records st !! actor = Some r ∧ rc_update r = u ∧ isActive (ao_Timeout (st_options st)) now r = true.
Proof.
  intros Hwf. unfold activeAtLocked. rewrite sort_by_any_perm, list_elem_of_fmap. split.
  - intros (r & -> & [Ha ([k r'] & -> & Hin)%list_elem_of_fmap]%list_elem_of_filter). apply elem_of_map_to_list in Hin.
    exists k, r'. split; [done|]. split; [|done]. cbn. symmetry. apply cloneUpdate_normal. by apply (Hwf k).
  - intros (k & r & Hk & <- & Ha). exists r. cbn. split.
    + symmetry. apply cloneUpdate_normal. by apply (Hwf k).
    + apply list_elem_of_filter. split; [done|]. apply list_elem_of_fmap. exists (k, r). split; [done|]. by apply elem_of_map_to_list.
Qed.

Lemma time_Sub_le a b t : 0 <= t < 2 ^ 63 - 1 → (time_Sub a b <=? t) = (a - b <=? t).
Proof. intros Ht. unfold time_Sub. destruct (Z.leb_spec (a - b) t); [apply Z.leb_le|apply Z.leb_gt]; lia. Qed.

Lemma expire_due_iff timeout now r :
  0 <= timeout < 2 ^ 63 - 1 →
  expire_due timeout now r = true ↔ up_State (rc_update r) ≠ None ∧ rc_expired r = false ∧ timeout < now - rc_lastSeen r.
Proof.
  intros Ht. unfold expire_due. rewrite !andb_true_iff, Online_true, negb_true_iff, Z.ltb_antisym, negb_true_iff.
  rewrite time_Sub_le, Z.leb_gt by done. tauto.
Qed.

Lemma isActive_iff timeout now r :
  0 <= timeout < 2 ^ 63 - 1 →
  isActive timeout now r = true ↔ up_State (rc_update r) ≠ None ∧ rc_expired r = false ∧ now - rc_lastSeen r <= timeout.
Proof.
  intros Ht. unfold isActive. rewrite !andb_true_iff, Online_true, negb_true_iff, time_Sub_le, Z.leb_le by done. tauto.
Qed.

(** Marking what is due does not matter to later readings. *)
Lemma isActive_expired timeout now later r :
  0 <= timeout < 2 ^ 63 - 1 → now <= later →
  isActive timeout later (expire_record timeout now r) = true ↔ isActive timeout later r = true.
Proof.
  intros Ht Hl. unfold expire_record. destruct (expire_due timeout now r) eqn:Hd; [|done].
  apply expire_due_iff in Hd as (H1 & H2 & H3); [|done]. rewrite !isActive_iff by done. cbn. split; [naive_solver|]. intros (_ & _ & ?). lia.
Qed.

Lemma increasing_actors_nodup (l : list Update) : increasing bytes_compare (up_Actor <$> l) → NoDup l.
Proof. intros H. eapply NoDup_fmap_1, increasing_NoDup; [|exact H]. apply _. Qed.

Lemma active_ext st st1 now :
  store_wf st → store_wf st1 → (∀ u, u ∈ activeAtLocked st1 now ↔ u ∈ activeAtLocked st now) →
  activeAtLocked st1 now = activeAtLocked st now.
Proof.
  intros H1 H2 Hu. pose proof (active_increasing st now H1) as I1. pose proof (active_increasing st1 now H2) as I2.
  apply (increasing_key_unique bytes_compare up_Actor); [|done..].
  apply NoDup_Permutation; [by apply increasing_actors_nodup..|done].
Qed.

(** What [Expire] leaves. *)
Lemma expire_records st now wall :
  st_mu st = false →
  ∃ st1 changed, Store_Expire (Some st) now wall = (Some st1, Returns changed) ∧ st_mu st1 = false ∧
    st_options st1 = st_options st ∧
    st_records st1 = expire_record (ao_Timeout (st_options st)) (normalizeTime now wall) <$> st_records st ∧
    changed = existsb (expire_due (ao_Timeout (st_options st)) (normalizeTime now wall)) (map_to_list (st_records st)).*2.
Proof.
  intros Hmu. unfold Store_Expire. rewrite lock_free by done. cbn [st_options st_records].
  eexists _, _. split; [done|]. destruct (existsb _ _); done.
Qed.

Lemma expire_record_update timeout now r : rc_update (expire_record timeout now r) = rc_update r.
Proof. unfold expire_record. by destruct (expire_due _ _ _). Qed.

(** Expiry only makes visible what time has done. Expire returns, keeps every
    actor's update and clock, and reports a change exactly when some online record
    has been silent for longer than the timeout and was not marked yet. A reading at
    that time or later is the same as without it. The reading right after it lists, once each
    and sorted by actor, exactly the online updates that are not marked. *)
Theorem Store_Expire_spec (st : Store) (now wall : Z) (Hwf : store_wf st) (Hmu : st_mu st = false)
    (Hnow : now ≠ 0) (Ht : 0 < ao_Timeout (st_options st) < 2 ^ 63 - 1) :
  ∃ st1 changed, Store_Expire (Some st) now wall = (Some st1, Returns changed) ∧
    (∀ actor, rc_update <$> st_records st1 !! actor = rc_update <$> st_records st !! actor) ∧
    (changed = true ↔ ∃ actor r, st_records st !! actor = Some r ∧ up_State (rc_update r) ≠ None ∧
       rc_expired r = false ∧ ao_Timeout (st_options st) < now - rc_lastSeen r) ∧
    (∀ later w, now <= later → later ≠ 0 → Store_ActiveAt (Some st1) later w = Store_ActiveAt (Some st) later w) ∧
    ∃ active, Store_ActiveAt (Some st1) now wall = Returns active ∧ increasing bytes_compare (up_Actor <$> active) ∧
      ∀ u, u ∈ active ↔ ∃ actor r, st_records st1 !! actor = Some r ∧ rc_update r = u ∧ up_State u ≠ None ∧ rc_expired r = false.
Proof.
  destruct (expire_records st now wall Hmu) as (st1 & changed & Hex & Hmu1 & Hopt & Hrec & Hch). exists st1, changed.
  assert (∀ t w, t ≠ 0 → normalizeTime t w = t) as Hnt by (intros; unfold normalizeTime; by guard_false). rewrite (Hnt now wall Hnow) in Hrec, Hch.
  assert (store_wf st1) as Hwf1.
  { intros k r. rewrite Hrec, lookup_fmap. intros (r0 & Hk & ->)%fmap_Some. unfold record_wf.
    rewrite expire_record_update. by apply Hwf. }
  split; [done|]. split; [|split; [|split]].
  - intros actor. rewrite Hrec, lookup_fmap. destruct (st_records st !! actor); [|done]. cbn. by rewrite expire_record_update.
  - rewrite Hch, existsb_exists. split.
    + intros (r & Hin%list_elem_of_In & Hd). apply list_elem_of_fmap in Hin as ([k r'] & -> & Hin). apply elem_of_map_to_list in Hin.
      apply expire_due_iff in Hd; [|lia]. eauto.
    + intros (k & r & Hk & Hd). exists r. split; [|apply expire_due_iff; [lia|done]].
      apply list_elem_of_In, list_elem_of_fmap. exists (k, r). split; [done|]. by apply elem_of_map_to_list.
  - intros later w Hl Hl0. unfold Store_ActiveAt. rewrite !lock_free, Hnt by done. f_equal.
    change (activeAtLocked st1 later = activeAtLocked st later). apply active_ext; [done|done|]. intros u. rewrite !elem_of_active by done.
    rewrite Hopt, Hrec. setoid_rewrite lookup_fmap. split.
    + intros (k & r & (r0 & Hk & ->)%fmap_Some & Hu & Ha). exists k, r0. rewrite expire_record_update in Hu.
      apply isActive_expired in Ha; [done|lia|done].
    + intros (k & r & Hk & Hu & Ha). exists k, (expire_record (ao_Timeout (st_options st)) now r). rewrite Hk, expire_record_update.
      split; [done|]. split; [done|]. apply isActive_expired; [lia|done|done].
  - exists (activeAtLocked st1 now). unfold Store_ActiveAt. rewrite lock_free, Hnt by done. split; [done|].
    split; [by apply active_increasing|]. intros u. rewrite elem_of_active by done. rewrite Hopt. split.
    + intros (k & r & Hk & <- & Ha). apply isActive_iff in Ha as (H1 & H2 & _); [|lia]. by exists k, r.
    + intros (k & r & Hk & <- & Hs & He). exists k, r. split; [done|]. split; [done|]. apply isActive_iff; [lia|].
      split; [done|]. split; [done|]. rewrite Hrec, lookup_fmap in Hk. apply fmap_Some in Hk as (r0 & Hk & ->).
      unfold expire_record in He, Hs |- *. destruct (expire_due _ now r0) eqn:Hd; [done|].
      destruct (Z.leb_spec (now - rc_lastSeen r0) (ao_Timeout (st_options st))) as [|Hlt]; [done|].
      assert (expire_due (ao_Timeout (st_options st)) now r0 = true); [|congruence]. apply expire_due_iff; [lia|done].
Qed.

Lemma w_online_wf : store_wf w_online.
Proof.
  intros actor r. change (st_records w_online) with (<[str "ann" := mkRecord (mkUpdate (str "ann") 1 (Some (str "{}"))) 5 false]> (∅ : gmap bytes record)).
  intros [[<- <-]|[_ ?]]%lookup_insert_Some; [|done]. split; [done|]. split; [|unfold maxUint64; cbn; lia].
  intros raw [= <-]. split; [done|]. vm_compute. reflexivity.
Qed.

Lemma Store_Expire_spec_witness :
  ∃ st1, Store_Expire (Some w_online) (6 + 30 * 10 ^ 9) 1 = (Some st1, Returns true) ∧
    Store_ActiveAt (Some st1) (7 + 30 * 10 ^ 9) 1 = Returns [].
Proof.
  destruct (Store_Expire_spec w_online (6 + 30 * 10 ^ 9) 1 w_online_wf) as (st1 & changed & H1 & _ & H2 & H3 & _);
    [reflexivity|discriminate|split; reflexivity|].
  exists st1. split.
  - rewrite H1. do 2 f_equal. apply H2. exists (str "ann"), (mkRecord (mkUpdate (str "ann") 1 (Some (str "{}"))) 5 false).
    split; [vm_compute; reflexivity|]. split; [discriminate|]. split; reflexivity.
  - rewrite H3; [vm_compute; reflexivity|discriminate|discriminate].
Defined.

(** ** Mailboxes

    One subscriber between its publisher and its goroutine. Publishers hold the
    store's lock, so one [enqueue] runs at a time; its two halves, the goroutine and
    the two halves of [unsubscribe] interleave freely. [mb_go] is an [enqueue] between
    its unlock and its select, [mb_sent] are the events put in and [mb_seen] those
    whose call of the callback is over; the goroutine is [Calling] the event whose
    call is running. While [stopped] is set and [stop] not yet closed, the [Once] is
    running and another [unsubscribe], that of a panic included, waits for it. *)
Record mailbox := mkMailbox {
  mb_sub : subscriber;
  mb_go : bool;
  mb_sent : list Event;
  mb_seen : list Event
}.

Definition taken (s : subscriber) : list Event := option_list (sb_pending s).

Definition in_call (s : subscriber) : list Event :=
  match sb_runner s with Calling event => [event] | Waiting | Exited => [] end.

Inductive mail_step (b : mailbox) : mailbox → Prop :=
| mail_put event s go :
    mb_go b = false → ev_Coalesced event = 0 → enqueue_put event (mb_sub b) = (s, go) →
    mail_step b (mkMailbox s go (if go then mb_sent b ++ [event] else mb_sent b) (mb_seen b))
| mail_signal :
    mb_go b = true → mail_step b (mkMailbox (enqueue_wake (mb_sub b)) false (mb_sent b) (mb_seen b))
| mail_wake :
    sb_runner (mb_sub b) = Waiting → sb_wake (mb_sub b) = true →
    mail_step b (mkMailbox (run_wake (mb_sub b)) (mb_go b) (mb_sent b) (mb_seen b))
| mail_stop :
    sb_runner (mb_sub b) = Waiting → sb_stop (mb_sub b) = true →
    mail_step b (mkMailbox (run_stop (mb_sub b)) (mb_go b) (mb_sent b) (mb_seen b))
| mail_return event :
    sb_runner (mb_sub b) = Calling event → sb_callback (mb_sub b) event = true →
    mail_step b (mkMailbox (run_return (mb_sub b)) (mb_go b) (mb_sent b) (mb_seen b ++ [event]))
| mail_panic event :
    sb_runner (mb_sub b) = Calling event → sb_callback (mb_sub b) event = false →
    sb_stopped (mb_sub b) = sb_stop (mb_sub b) →
    mail_step b (mkMailbox (run_stop (subscriber_halt (mb_sub b))) (mb_go b) (mb_sent b) (mb_seen b ++ [event]))
| mail_unsubscribe :
    sb_stopped (mb_sub b) = false →
    mail_step b (mkMailbox (halt_mark (mb_sub b)) (mb_go b) (mb_sent b) (mb_seen b))
| mail_unsubscribed :
    sb_stopped (mb_sub b) = true →
    mail_step b (mkMailbox (halt_close (mb_sub b)) (mb_go b) (mb_sent b) (mb_seen b)).

Definition mail_start (callback : Event → bool) : mailbox := mkMailbox (newSubscriber callback) false [] [].

Inductive mail_reachable (callback : Event → bool) : mailbox → Prop :=
| mail_init : mail_reachable callback (mail_start callback)
| mail_next b b' : mail_reachable callback b → mail_step b b' → mail_reachable callback b'.

(** An event that stands for the consecutive events [group]: the last of them, with
    the number of the others. *)
Definition stands_for (event : Event) (group : list Event) : Prop :=
  ∃ first e, group = first ++ [e] ∧ ev_Coalesced event = len first ∧ ev_Version event = ev_Version e ∧
    ev_Origin event = ev_Origin e ∧ ev_Update event = ev_Update e ∧ ev_Active event = ev_Active e.

(** The events delivered and pending stand for all events sent, in order. *)
Definition accounts (events sent : list Event) : Prop :=
  ∃ groups, concat groups = sent ∧ Forall2 stands_for events groups.

Definition mail_inv (b : mailbox) : Prop :=
  let s := mb_sub b in
  (sb_stop s = true → sb_stopped s = true) ∧
  (sb_stopped s = false →
    sb_runner s ≠ Exited ∧ (sb_pending s ≠ None → sb_wake s = true ∨ mb_go b = true) ∧
    (len (mb_sent b) < 2 ^ 64 → accounts ((mb_seen b ++ in_call s) ++ taken s) (mb_sent b))).

Lemma accounts_new events sent e :
  ev_Coalesced e = 0 → accounts events sent → accounts (events ++ [e]) (sent ++ [e]).
Proof.
  intros He (gs & <- & H). exists (gs ++ [[e]]). split; [by rewrite concat_app|].
  apply Forall2_app; [done|]. constructor; [|constructor]. by exists [], e.
Qed.

Lemma accounts_replace events sent p e c :
  accounts (events ++ [p]) sent → len sent + 1 < 2 ^ 64 → c = ev_Coalesced p + 1 →
  accounts (events ++ [mkEvent (ev_Version e) (ev_Origin e) (ev_Update e) (ev_Active e) c]) (sent ++ [e]) ∧
  0 <= ev_Coalesced p < 2 ^ 64 - 1.
Proof.
  intros (gs & <- & H) Hlen ->. apply Forall2_app_inv_l in H as (gs1 & gs2 & H1 & H2 & ->).
  apply Forall2_cons_inv_l in H2 as (g & gs3 & (first & e' & -> & Hc & _) & H3 & ->). apply Forall2_nil_inv_l in H3 as ->.
  rewrite concat_app in Hlen |- *. cbn in Hlen |- *. rewrite app_nil_r in Hlen |- *.
  rewrite !len_app in Hlen. pose proof (len_nonneg (concat gs1)). pose proof (len_nonneg first).
  split; [|change (len [e']) with 1 in Hlen; lia].
  exists (gs1 ++ [(first ++ [e']) ++ [e]]). split.
  - rewrite concat_app. cbn. by rewrite app_nil_r, <-!app_assoc.
  - apply Forall2_app; [done|]. constructor; [|constructor]. exists (first ++ [e']), e. cbn. rewrite len_app, Hc.
    split_and!; done.
Qed.

Lemma mail_inv_put b event s go :
  mail_inv b → mb_go b = false → ev_Coalesced event = 0 → enqueue_put event (mb_sub b) = (s, go) →
  mail_inv (mkMailbox s go (if go then mb_sent b ++ [event] else mb_sent b) (mb_seen b)).
Proof.
  intros [Hs Hi] Hgo He. unfold enqueue_put. destruct (sb_stopped (mb_sub b)) eqn:Est.
  { intros [= <- <-]. split; [done|]. cbn. congruence. }
  intros [= <- <-]. specialize (Hi eq_refl) as (Hr & Hw & Hacc). unfold mail_inv. cbn. split; [done|].
  intros _. split; [done|]. split; [auto|]. unfold len. rewrite length_app. cbn. intros Hlen. unfold taken in *. cbn.
  change (in_call (mkSubscriber _ _ _ _ _ (sb_runner (mb_sub b)))) with (in_call (mb_sub b)).
  set (seen := mb_seen b ++ in_call (mb_sub b)) in *.
  assert (accounts (seen ++ option_list (sb_pending (mb_sub b))) (mb_sent b)) as Hold by (apply Hacc; unfold len; lia).
  destruct (sb_pending (mb_sub b)) as [p|]; cbn in *.
  - destruct (accounts_replace seen (mb_sent b) p event (ev_Coalesced p + 1) Hold) as [H1 H2]; [unfold len; lia|done|].
    rewrite He, (u64_small (ev_Coalesced p + 1)), Z.add_0_l, (u64_small (ev_Coalesced p + 1)) by (unfold is_u64; lia). done.
  - rewrite app_nil_r in Hold. by apply accounts_new.
Qed.

Lemma mail_inv_step b b' : mail_inv b → mail_step b b' → mail_inv b'.
Proof.
  intros Hb Hstep. pose proof Hb as [Hs Hi].
  destruct Hstep as [event s go Hgo He Hput|Hgo|Hr Hw|Hr Hst|event Hr Hcb|event Hr Hcb Honce|Hst|Hst].
  - by apply mail_inv_put.
  - split; [done|]. cbn. intros Hst. destruct (Hi Hst) as (? & _ & ?). auto.
  - unfold mail_inv, run_wake, taken, in_call in *. rewrite Hr in Hi. cbn. destruct (sb_stopped (mb_sub b)) eqn:Est; cbn; [done|].
    split; [done|]. intros _. destruct (Hi eq_refl) as (_ & _ & Hacc). rewrite !app_nil_r in *.
    split; [by destruct (sb_pending _)|]. split; [done|]. by destruct (sb_pending _).
  - split; [done|]. cbn. apply Hs in Hst. congruence.
  - split; [done|]. cbn. intros Hst. destruct (Hi Hst) as (_ & ? & Hacc). unfold in_call in *. rewrite Hr in Hacc. cbn.
    by rewrite app_nil_r.
  - unfold mail_inv, run_stop, subscriber_halt. destruct (sb_stop (mb_sub b)) eqn:E; cbn; [split; [done|congruence]|by split].
  - split; cbn; [done|congruence].
  - split; cbn; [done|congruence].
Qed.

(** C20: a mailbox loses nothing silently. In every interleaving of its publisher, its
    goroutine and unsubscribing, as long as it is not stopped: the events of the
    completed calls of the callback, the event of the running call and the pending one
    stand in order for all events sent, each for a run of consecutive ones whose last
    it is and whose others its Coalesced field counts; and when nothing is under way
    (the goroutine waits, no token, no enqueue to finish) the completed calls alone
    stand for all events, so the latest one has been delivered. Only a stopped
    mailbox's goroutine exits. *)
Theorem Mailbox_delivery (callback : Event → bool) (b : mailbox)
    (Hreach : mail_reachable callback b) (Hlen : len (mb_sent b) < 2 ^ 64) (Hstop : sb_stopped (mb_sub b) = false) :
  accounts (mb_seen b ++ in_call (mb_sub b) ++ taken (mb_sub b)) (mb_sent b) ∧ sb_runner (mb_sub b) ≠ Exited ∧
  (sb_runner (mb_sub b) = Waiting → sb_wake (mb_sub b) = false → mb_go b = false →
   accounts (mb_seen b) (mb_sent b)).
Proof.
  assert (mail_inv b) as [_ Hi].
  { clear Hlen Hstop. induction Hreach as [|b b' _ IH Hstep]; [|by eapply mail_inv_step].
    split; [done|]. intros _. split; [done|]. split; [done|]. intros _. by exists []. }
  destruct (Hi Hstop) as (Hr & Hw & Hacc). rewrite app_assoc. split; [by apply Hacc|]. split; [done|].
  intros Hwait Hwake Hgo. specialize (Hacc Hlen). unfold taken, in_call in Hacc. rewrite Hwait, app_nil_r in Hacc. destruct (sb_pending (mb_sub b)) as [p|]; [|by rewrite app_nil_r in Hacc].
  destruct Hw; [done|congruence..].
Qed.

(** Two events meet a slow goroutine, which then makes one call for both. *)
Definition w_event (version : Z) : Event := mkEvent version Initial emptyUpdate [] 0.
Definition w_pending : mailbox :=
  mkMailbox (enqueue (w_event 2) (enqueue (w_event 1) (newSubscriber (λ _, true)))) false [w_event 1; w_event 2] [].
Definition w_called : mailbox :=
  mkMailbox (run_return (run_wake (mb_sub w_pending))) false [w_event 1; w_event 2] [mkEvent 2 Initial emptyUpdate [] 1].

Lemma w_pending_reachable : mail_reachable (λ _, true) w_pending.
Proof.
  eapply mail_next; [eapply mail_next; [eapply mail_next; [eapply mail_next; [apply mail_init|]|]|]|].
  - eapply (mail_put _ (w_event 1)); reflexivity.
  - apply mail_signal. reflexivity.
  - eapply (mail_put _ (w_event 2)); reflexivity.
  - apply (mail_signal (mkMailbox (enqueue_put (w_event 2) (enqueue (w_event 1) (newSubscriber (λ _, true)))).1 true
      [w_event 1; w_event 2] [])). reflexivity.
Qed.

Lemma w_called_reachable : mail_reachable (λ _, true) w_called.
Proof.
  eapply mail_next; [eapply mail_next; [exact w_pending_reachable|apply mail_wake; reflexivity]|].
  apply (mail_return (mkMailbox (run_wake (mb_sub w_pending)) false [w_event 1; w_event 2] []) (mkEvent 2 Initial emptyUpdate [] 1));
    reflexivity.
Qed.

Lemma Mailbox_delivery_witness :
  accounts [mkEvent 2 Initial emptyUpdate [] 1] [w_event 1; w_event 2] ∧ mb_seen w_called = [mkEvent 2 Initial emptyUpdate [] 1].
Proof.
  destruct (Mailbox_delivery (λ _, true) w_called w_called_reachable) as (_ & _ & Ha); [reflexivity|reflexivity|].
  split; [apply Ha; reflexivity|reflexivity].
Defined.
