(* ===== verification/AwarenessGroup.v ===== *)
(** * Presence in a group of stores

    Stores that exchange updates agree with the owner of every actor. *)

From S2P Require Import Prelude Awareness AwarenessTheory AwarenessObserve.

(** ** A group of stores

    Every actor belongs to one store of the group, which alone creates its updates
    (the transports authorize the actor); the updates created are delivered to any
    store, in any order and any number of times. The other calls, the mailboxes and
    the goroutines of a store may run in between. *)
Section group.
Context (owner : bytes → Z).

Record group := mkGroup { nodes : gmap Z Store; sent : list Update }.

(** The calls that create updates. *)
Definition create (st : Store) (c : call) : option (bytes * (ptr Store * outcome (result Update))) :=
  match c with
  | CSet actor state now wall => Some (actor, Store_Set (Some st) actor state now wall)
  | CRemove actor now wall => Some (actor, Store_Remove (Some st) actor now wall)
  | CHeartbeat actor now wall => Some (actor, Store_Heartbeat (Some st) actor now wall)
  | _ => None
  end.

Definition emitted (out : outcome (result Update)) : list Update :=
  match out with Returns (Ok u) => [u] | _ => [] end.

Inductive group_step (g : group) : group → Prop :=
| group_create n st c actor st' out :
    nodes g !! n = Some st → create st c = Some (actor, (Some st', out)) → owner actor = n →
    group_step g (mkGroup (<[n := st']> (nodes g)) (emitted out ++ sent g))
| group_deliver n st u now wall st' out :
    nodes g !! n = Some st → u ∈ sent g → Store_Apply (Some st) u now wall = (Some st', out) →
    group_step g (mkGroup (<[n := st']> (nodes g)) (sent g))
| group_observe n st c st' out :
    nodes g !! n = Some st → (∀ u now wall, c ≠ CApply u now wall) → create st c = None → do_call st c = (Some st', out) →
    group_step g (mkGroup (<[n := st']> (nodes g)) (sent g))
| group_hub n st hub :
    nodes g !! n = Some st →
    group_step g (mkGroup (<[n := mkStore (st_mu st) (st_options st) (st_records st) (st_version st) hub]> (nodes g)) (sent g)).

(** Stores start empty, with any options. *)
Definition group_init (g : group) : Prop :=
  sent g = [] ∧ ∀ n st, nodes g !! n = Some st → st_records st = ∅.

Inductive group_reachable : group → Prop :=
| group_start g : group_init g → group_reachable g
| group_next g g' : group_reachable g → group_step g g' → group_reachable g'.

(** The update a store has of an actor. *)
Definition presence (st : Store) (actor : bytes) : option Update := rc_update <$> st_records st !! actor.

(** What a call can do to the presence: nothing, or one update of one actor. *)
Definition presence_put (st st' : Store) (u : Update) : Prop :=
  ∀ actor, presence st' actor = if decide (actor = up_Actor u) then Some u else presence st actor.

Lemma presence_quiet st st' : st_records st' = st_records st → ∀ actor, presence st' actor = presence st actor.
Proof. intros H actor. unfold presence. by rewrite H. Qed.

Lemma presence_installed st st' u now :
  st_records st' = <[up_Actor u := mkRecord u now false]> (st_records st) → presence_put st st' u.
Proof.
  intros H actor. unfold presence. rewrite H. case_decide as Ha; [subst; by rewrite lookup_insert_eq|by rewrite lookup_insert_ne].
Qed.

(** Updates kept by a store are normal and have a clock. *)
Definition update_ok (u : Update) : Prop := normal u ∧ 0 < up_Clock u <= maxUint64.
Definition presence_ok (st : Store) : Prop := ∀ actor u, presence st actor = Some u → up_Actor u = actor ∧ update_ok u.

Definition next_clock (st : Store) (actor : bytes) : Z :=
  match presence st actor with Some u => up_Clock u + 1 | None => 1 end.

(** A call that creates an update installs it with the next clock and returns it; a
    call that fails or blocks changes no presence. *)
Definition created (st st' : Store) (actor : bytes) (out : outcome (result Update)) : Prop :=
  (emitted out = [] ∧ ∀ a, presence st' a = presence st a) ∨
  ∃ u, emitted out = [u] ∧ up_Actor u = actor ∧ update_ok u ∧ up_Clock u = next_clock st actor ∧ presence_put st st' u.

Lemma created_none st st' actor out : emitted out = [] → st_records st' = st_records st → created st st' actor out.
Proof. intros H1 H2. left. split; [done|]. by apply presence_quiet. Qed.

Lemma heartbeat_created st mu actor r now st' u :
  presence_ok st → st_records st !! actor = Some r → up_Clock (rc_update r) ≠ maxUint64 →
  heartbeatLocked (mkStore mu (st_options st) (st_records st) (st_version st) (st_hub st)) actor r now = (st', u) →
  created st (unlock st') actor (Returns (Ok u)).
Proof.
  intros Hok Hr Hmax. unfold heartbeatLocked. intros [= <- <-]. right.
  assert (presence st actor = Some (rc_update r)) as Hp by (unfold presence; by rewrite Hr).
  destruct (Hok actor _ Hp) as (Ha & Hn & Hc). set (u := mkUpdate _ _ _).
  assert (normal u) as Hnu by (intros raw; apply Hn).
  assert (up_Clock u = up_Clock (rc_update r) + 1) as Hcu by (apply u64_small; unfold is_u64, maxUint64 in *; lia).
  exists u. cbn [emitted]. rewrite cloneUpdate_normal by done. split; [done|]. split; [done|].
  split; [split; [done|lia]|]. split; [unfold next_clock; by rewrite Hp|].
  apply presence_installed with now. cbn. by rewrite Ha.
Qed.

Lemma install_created st mu actor clock state now st' out :
  0 < clock <= maxUint64 → clock = next_clock st actor →
  next_install (mkStore mu (st_options st) (st_records st) (st_version st) (st_hub st)) actor clock state now = (Some st', out) →
  created st st' actor out.
Proof.
  intros Hc Hn. unfold next_install. cbn [st_options st_records]. destruct (Normalize _ _) as [u|e] eqn:E.
  - destruct (_ && _); intros [= <- <-]; [by apply created_none|]. right.
    apply Normalize_inv in E as (Ha & Hcl & _ & Hnorm & _). cbn in Ha, Hcl. exists u. cbn [emitted].
    rewrite cloneUpdate_normal by done. split; [done|]. split; [done|]. split; [split; [done|lia]|]. split; [lia|].
    apply presence_installed with now. cbn. by rewrite Ha.
  - intros [= <- <-]. by apply created_none.
Qed.

Lemma create_created st c actor st' out :
  presence_ok st → create st c = Some (actor, (Some st', out)) → created st st' actor out.
Proof.
  intros Hok. assert (∀ state now wall, Store_next (Some st) actor state now wall = (Some st', out) → created st st' actor out) as Hnext.
  { intros state now wall. unfold Store_next, lock. destruct (st_mu st); [intros [= <- <-]; by apply created_none|]. cbn [st_records].
    destruct (st_records st !! actor) as [r|] eqn:Hr.
    - assert (presence st actor = Some (rc_update r)) as Hp by (unfold presence; by rewrite Hr).
      destruct (Hok actor _ Hp) as (_ & _ & Hc).
      destruct (Z.eqb_spec (up_Clock (rc_update r)) maxUint64); [intros [= <- <-]; by apply created_none|].
      destruct (_ && bytes_Equal _ _).
      + destruct (heartbeatLocked _ _ _ _) as [s u] eqn:E. intros [= <- <-]. by eapply heartbeat_created.
      + rewrite u64_small by (unfold is_u64, maxUint64 in *; lia). apply install_created; [lia|]. unfold next_clock. by rewrite Hp.
    - apply install_created; [unfold maxUint64; lia|]. unfold next_clock, presence. by rewrite Hr. }
  assert (∀ now wall, Store_Heartbeat (Some st) actor now wall = (Some st', out) → created st st' actor out) as Hbeat.
  { intros now wall. unfold Store_Heartbeat, lock. destruct (Normalize _ _); [|intros [= <- <-]; by apply created_none].
    destruct (st_mu st); [intros [= <- <-]; by apply created_none|]. cbn [st_records].
    destruct (st_records st !! actor) as [r|] eqn:Hr; [|intros [= <- <-]; by apply created_none].
    destruct (negb _); [intros [= <- <-]; by apply created_none|].
    destruct (Z.eqb_spec (up_Clock (rc_update r)) maxUint64); [intros [= <- <-]; by apply created_none|].
    destruct (heartbeatLocked _ _ _ _) as [s u] eqn:E. intros [= <- <-]. by eapply heartbeat_created. }
  destruct c as [a state now wall|a now wall|a now wall| | | |]; try done;
    intros H; cbn [create] in H; apply (inj Some) in H; apply pair_eq in H as [-> H]; eauto.
Qed.

(** Delivering an update of the group. *)
Lemma apply_presence st u now wall st' out :
  presence_ok st → update_ok u → Store_Apply (Some st) u now wall = (Some st', out) →
  ((∀ a, presence st' a = presence st a) ∨
   (presence_put st st' u ∧ ∀ v, presence st (up_Actor u) = Some v → up_Clock v < up_Clock u)) ∧
  (∀ b, out = Returns (Ok b) →
     ∃ v, presence st' (up_Actor u) = Some v ∧ up_Clock u <= up_Clock v ∧ (up_Clock v = up_Clock u → v = u)) ∧
  (out = Returns (ErrAw AwStateConflict) →
     ∃ v, presence st (up_Actor u) = Some v ∧ up_Clock v = up_Clock u ∧ v ≠ u).
Proof.
  intros Hok [Hu Hc]. unfold Store_Apply, lock.
  destruct (Normalize u (st_options st)) as [n|e] eqn:E.
  2:{ intros [= <- <-]. split; [by left|]. split; [done|]. intros [= ->]. revert E. unfold Normalize, canonicalState.
      repeat case_match; congruence. }
  apply Normalize_normal in E as ->; [|done]. destruct (st_mu st); [by intros [= <- <-]; split; [left|]|]. cbn [st_records st_options].
  assert (∀ st1 b, st_records st1 = <[up_Actor u := mkRecord u (normalizeTime now wall) false]> (st_records st) →
    (∀ v, presence st (up_Actor u) = Some v → up_Clock v < up_Clock u) → (Some st1, Returns (Ok b)) = (Some st', out) →
    ((∀ a, presence st' a = presence st a) ∨ (presence_put st st' u ∧ ∀ v, presence st (up_Actor u) = Some v → up_Clock v < up_Clock u)) ∧
    (∀ b, out = Returns (Ok b) → ∃ v, presence st' (up_Actor u) = Some v ∧ up_Clock u <= up_Clock v ∧ (up_Clock v = up_Clock u → v = u)) ∧
    (out = Returns (ErrAw AwStateConflict) → ∃ v, presence st (up_Actor u) = Some v ∧ up_Clock v = up_Clock u ∧ v ≠ u)) as Hinst.
  { intros st1 b H1 H2 [= <- <-]. apply presence_installed in H1. split; [by right|]. split; [|done]. intros _ _. exists u.
    rewrite H1, decide_True by done. by split. }
  destruct (st_records st !! up_Actor u) as [r|] eqn:Hr.
  - assert (presence st (up_Actor u) = Some (rc_update r)) as Hp by (unfold presence; by rewrite Hr).
    destruct (Hok _ _ Hp) as (Ha & Hn & _).
    destruct (Z.ltb_spec (up_Clock u) (up_Clock (rc_update r))).
    { intros [= <- <-]. split; [by left|]. split; [|done]. intros _ _. exists (rc_update r). split; [done|]. split; [lia|]. lia. }
    destruct (Z.eqb_spec (up_Clock u) (up_Clock (rc_update r))) as [Heq|Hne].
    + destruct (sameUpdate u (rc_update r)) eqn:Hs; intros [= <- <-]; (split; [by left|]).
      * apply sameUpdate_normal in Hs; [|done..]. split; [|done]. intros _ _. exists (rc_update r). split; [done|]. split; [lia|done].
      * split; [done|]. intros _. exists (rc_update r). split; [done|]. split; [done|]. intros Hcon.
        assert (sameUpdate u (rc_update r) = true) by (by apply sameUpdate_normal). congruence.
    + apply Hinst; [done|]. rewrite Hp. intros v [= <-]. lia.
  - assert (presence st (up_Actor u) = None) as Hp by (unfold presence; by rewrite Hr).
    destruct (_ <=? _); [by intros [= <- <-]; split; [left|]|]. apply Hinst; [done|]. by rewrite Hp.
Qed.

Lemma observe_presence st c st' out :
  (∀ u now wall, c ≠ CApply u now wall) → create st c = None → do_call st c = (Some st', out) →
  ∀ a, presence st' a = presence st a.
Proof.
  destruct c as [| | |u now wall|now wall|now wall [cb|]|now wall]; try done; intros Hc _; cbn [do_call].
  - by destruct (Hc u now wall).
  - by intros [= <- _].
  - unfold Store_SubscribeAt, lock. destruct (st_mu st); [by intros [= <- _]|]. cbn.
    destruct (hub_subscribe _ _) as [hub [id|e]]; by intros [= <- _].
  - by intros [= <- _].
  - unfold Store_Expire, lock. destruct (st_mu st); [by intros [= <- _]|]. cbn. intros [= <- _] a. unfold presence.
    destruct (existsb _ _); cbn; rewrite lookup_fmap; destruct (st_records st !! a); cbn; by rewrite ?expire_record_update.
Qed.

Definition group_inv (g : group) : Prop :=
  (∀ n st, nodes g !! n = Some st → presence_ok st) ∧
  (∀ n st actor u, nodes g !! n = Some st → presence st actor = Some u → u ∈ sent g) ∧
  (∀ u, u ∈ sent g → update_ok u ∧ ∃ st v, nodes g !! owner (up_Actor u) = Some st ∧
     presence st (up_Actor u) = Some v ∧ up_Clock u <= up_Clock v) ∧
  (∀ u v, u ∈ sent g → v ∈ sent g → up_Actor u = up_Actor v → up_Clock u = up_Clock v → u = v).

(** A node whose presence stays the same. *)
Lemma group_inv_same g n st st' :
  group_inv g → nodes g !! n = Some st → (∀ a, presence st' a = presence st a) →
  group_inv (mkGroup (<[n := st']> (nodes g)) (sent g)).
Proof.
  intros (H1 & H2 & H3 & H4) Hn Hp. split; [|split; [|split; [|done]]]; cbn.
  - intros m s [[<- <-]|[_ Hm]]%lookup_insert_Some; [|by eapply H1]. intros a u. rewrite Hp. by apply (H1 n).
  - intros m s a u [[<- <-]|[_ Hm]]%lookup_insert_Some; [|by eapply H2]. rewrite Hp. by apply (H2 n).
  - intros u Hu. destruct (H3 u Hu) as (Hok & s & v & Hs & Hv & Hle). split; [done|].
    destruct (decide (n = owner (up_Actor u))) as [->|Hne].
    + exists st', v. rewrite lookup_insert_eq, Hp. split; [done|]. split; [|done]. congruence.
    + exists s, v. by rewrite lookup_insert_ne.
Qed.

Lemma group_inv_deliver g n st u st' :
  group_inv g → nodes g !! n = Some st → u ∈ sent g → presence_put st st' u →
  (∀ v, presence st (up_Actor u) = Some v → up_Clock v < up_Clock u) →
  group_inv (mkGroup (<[n := st']> (nodes g)) (sent g)).
Proof.
  intros (H1 & H2 & H3 & H4) Hn Hu Hput Hnew. split; [|split; [|split; [|done]]]; cbn.
  - intros m s [[<- <-]|[_ Hm]]%lookup_insert_Some; [|by eapply H1]. intros a v. rewrite Hput. case_decide as Ha; [|by apply (H1 n)].
    intros [= <-]. split; [done|]. by apply H3.
  - intros m s a v [[<- <-]|[_ Hm]]%lookup_insert_Some; [|by eapply H2]. rewrite Hput. case_decide; [by intros [= <-]|]. by apply (H2 n).
  - intros w Hw. destruct (H3 w Hw) as (Hok & s & v & Hs & Hv & Hle). split; [done|].
    destruct (decide (n = owner (up_Actor w))) as [->|Hne].
    + exists st'. rewrite lookup_insert_eq, Hput. rewrite Hn in Hs. injection Hs as <-. case_decide as Ha.
      * exists u. split; [done|]. split; [done|]. rewrite Ha in Hv. apply Hnew in Hv. lia.
      * by exists v.
    + exists s, v. by rewrite lookup_insert_ne.
Qed.

Lemma group_inv_create g st st' actor out :
  group_inv g → nodes g !! owner actor = Some st → created st st' actor out →
  group_inv (mkGroup (<[owner actor := st']> (nodes g)) (emitted out ++ sent g)).
Proof.
  intros Hg Hn [[-> Hp]|(u & -> & Ha & Hu & Hcl & Hput)]; [by eapply group_inv_same|].
  destruct Hg as (H1 & H2 & H3 & H4). subst actor.
  assert (∀ w, w ∈ sent g → up_Actor w = up_Actor u → up_Clock w < up_Clock u) as Hnew.
  { intros w Hw Hwa. destruct (H3 w Hw) as (_ & s & v & Hs & Hv & Hle). rewrite Hwa in Hs, Hv. rewrite Hn in Hs. injection Hs as <-.
    rewrite Hcl. unfold next_clock. rewrite Hv. lia. }
  split; [|split; [|split]]; cbn.
  - intros m s [[<- <-]|[_ Hm]]%lookup_insert_Some; [|by eapply H1]. intros a v. rewrite Hput. case_decide as Ha; [|by apply (H1 (owner (up_Actor u)))].
    by intros [= <-].
  - intros m s a v [[<- <-]|[_ Hm]]%lookup_insert_Some Hv; rewrite elem_of_cons; [|right; by eapply H2].
    rewrite Hput in Hv. case_decide; [injection Hv as <-; by left|]. right. by eapply (H2 (owner (up_Actor u))).
  - intros w [->|Hw]%elem_of_cons.
    + split; [done|]. exists st', u. rewrite lookup_insert_eq, Hput, decide_True by done. done.
    + destruct (H3 w Hw) as (Hok & s & v & Hs & Hv & Hle). split; [done|].
      destruct (decide (owner (up_Actor u) = owner (up_Actor w))) as [Heq|Hne].
      * exists st'. rewrite <-Heq, lookup_insert_eq, Hput. rewrite <-Heq, Hn in Hs. injection Hs as <-. case_decide as Ha.
        -- exists u. split; [done|]. split; [done|]. apply Hnew in Hw; [lia|done].
        -- by exists v.
      * exists s, v. by rewrite lookup_insert_ne.
  - intros w v [->|Hw]%elem_of_cons [->|Hv]%elem_of_cons Hact Hclk; [done|..|by apply H4].
    + apply Hnew in Hv; [lia|done].
    + apply Hnew in Hw; [lia|done].
Qed.

Lemma group_reachable_inv g : group_reachable g → group_inv g.
Proof.
  induction 1 as [g [Hs Hn]|g g' _ IH Hstep].
  - unfold group_inv. rewrite Hs. split; [|split; [|split]]; try (by intros * ?%elem_of_nil).
    + intros n st Hst a u. unfold presence. by rewrite (Hn n st Hst), lookup_empty.
    + intros n st a u Hst. unfold presence. by rewrite (Hn n st Hst), lookup_empty.
  - destruct Hstep as [n st c actor st' out Hn Hc <-|n st u now wall st' out Hn Hu Hap|n st c st' out Hn Hc1 Hc2 Hdo|n st hub Hn].
    + eapply group_inv_create; [done|done|]. eapply create_created; [|done]. by eapply IH.
    + pose proof IH as (H1 & _ & H3 & _). apply apply_presence in Hap as ([Hp|[Hput Hnew]] & _); [..|by eapply H1|by apply H3].
      * by eapply group_inv_same.
      * by eapply group_inv_deliver.
    + eapply group_inv_same; [done|done|]. by eapply observe_presence.
    + by eapply group_inv_same.
Qed.

(** C19: the stores of a group agree with the owners. In every reachable state of the
    group, the presence any store has of an actor is one its owner's store had: never
    ahead of the owner's clock, and the very same update at the same clock. No update
    of the group is ever refused as a conflict, and a store that accepts the update
    its owner currently has, then has exactly that one. *)
Theorem Group_presence (g : group) (Hreach : group_reachable g) :
  (∀ n st actor u, nodes g !! n = Some st → presence st actor = Some u →
     ∃ so v, nodes g !! owner actor = Some so ∧ presence so actor = Some v ∧ up_Clock u <= up_Clock v ∧
       (up_Clock u = up_Clock v → u = v)) ∧
  (∀ n st u now wall st' out, nodes g !! n = Some st → u ∈ sent g → Store_Apply (Some st) u now wall = (Some st', out) →
     out ≠ Returns (ErrAw AwStateConflict) ∧
     ∀ so b, nodes g !! owner (up_Actor u) = Some so → presence so (up_Actor u) = Some u → out = Returns (Ok b) →
       presence st' (up_Actor u) = Some u).
Proof.
  apply group_reachable_inv in Hreach as (H1 & H2 & H3 & H4). split.
  - intros n st actor u Hn Hp. pose proof (H2 n st actor u Hn Hp) as Hu. destruct (H1 n st Hn actor u Hp) as [<- _].
    destruct (H3 u Hu) as (_ & so & v & Hso & Hv & Hle). exists so, v. split_and!; [done..|]. intros Heq.
    apply H4; [done|by eapply H2| |done]. by destruct (H1 _ so Hso _ v Hv) as [-> _].
  - intros n st u now wall st' out Hn Hu Hap. destruct (H3 u Hu) as (Hok & _).
    apply apply_presence in Hap as (Hp & Hacc & Hconf); [|by eapply H1|done]. split.
    + intros ->. destruct (Hconf eq_refl) as (v & Hv & Hclk & Hne). apply Hne. apply H4; [by eapply H2|done| |done].
      by destruct (H1 n st Hn _ v Hv) as [-> _].
    + intros so b Hso Hown ->. destruct (Hacc b eq_refl) as (v & Hv & Hle & Heq). rewrite Hv. f_equal. apply Heq.
      destruct Hp as [Hsame|[Hput _]].
      * rewrite Hsame in Hv. pose proof (H2 n st _ v Hn Hv) as Hvs. destruct (H3 v Hvs) as (_ & so' & w & Hso' & Hw & Hvw).
        destruct (H1 n st Hn _ v Hv) as [Hva _]. rewrite Hva in Hso', Hw. rewrite Hso in Hso'. injection Hso' as <-.
        rewrite Hown in Hw. injection Hw as <-. lia.
      * rewrite Hput, decide_True in Hv by done. by injection Hv as <-.
Qed.
End group.

(** Ann belongs to store 1, and store 2 hears of it. *)
Definition w_ann : Update := mkUpdate (str "ann") 1 (Some (str "{}")).
Definition w_heard : Store := default w_store (Store_Apply (Some w_store) w_ann 6 6).1.
Definition w_group : group := mkGroup (<[2 := w_heard]> (<[1 := w_online]> {[1 := w_store; 2 := w_store]})) [w_ann].

Lemma w_group_reachable : group_reachable (λ _, 1) w_group.
Proof.
  set (g0 := mkGroup {[1 := w_store; 2 := w_store]} []). set (g1 := mkGroup (<[1 := w_online]> (nodes g0)) [w_ann]).
  apply (group_next _ g1); [apply (group_next _ g0); [apply group_start|]|].
  - split; [done|]. cbn. intros n st [[_ <-]|[_ [_ <-]%lookup_singleton_Some]]%lookup_insert_Some; done.
  - apply (group_create (λ _, 1) g0 1 w_store w_set (str "ann") w_online (Returns (Ok w_ann))); [done| |done]. vm_compute. reflexivity.
  - apply (group_deliver (λ _, 1) g1 2 w_store w_ann 6 6 w_heard (Returns (Ok true))); [done|by left|]. vm_compute. reflexivity.
Qed.

Lemma Group_presence_witness :
  ∃ so v, nodes w_group !! 1 = Some so ∧ presence so (str "ann") = Some v ∧ 1 <= up_Clock v ∧ (1 = up_Clock v → w_ann = v).
Proof.
  destruct (Group_presence (λ _, 1) w_group w_group_reachable) as [H _].
  apply (H 2 w_heard (str "ann") w_ann); vm_compute; reflexivity.
Defined.

(** Two different updates with one clock, which only a second owner can create: the
    one that arrives first stays, so stores that receive them in different orders
    keep different presences. *)
Lemma conflict_first_stays :
  let other := mkUpdate (str "ann") 1 None in
  let after u v := presence (default w_store (Store_Apply (Store_Apply (Some w_store) u 6 6).1 v 7 7).1) (str "ann") in
  after w_ann other = Some w_ann ∧ after other w_ann = Some other.
Proof. split; vm_compute; reflexivity. Qed.
